(* ===== verification/_CoqProject ===== *)
-Q . S2P
Prelude.v
Errors.v
Effect.v
EffectLogic.v
Budget.v
Options.v
Endpoint.v
Status.v
Observers.v
ListenerBase.v
Connection.v
Acceptor.v
Scenarios.v
ListenerFacts.v
AcceptorFacts.v
AcceptorCore.v
ListenerAccount.v
AcceptorAccount.v
ListenerPath.v
AcceptorPath.v
AcceptorSessions.v
AcceptorWork.v
AcceptorLiveness.v
AcceptorTheorems.v
AcceptorBehaviour.v
SocketListener.v
SocketFacts.v
SocketAccount.v
SocketLiveness.v
SocketTheorems.v
ListenerLedger.v
ListenerStop.v
ListenerInterface.v
AcceptorObject.v
SocketObject.v
Threads.v
ServerState.v
ServerControl.v
OperationGroup.v
Server.v
ServerCompletions.v
ServerScenarios.v
ServerThreads.v
ServerTheorems.v
ServerLifecycle.v
ServerStop.v
ServerBehaviour.v
Sessions.v
EchoStream.v
CallbackEcho.v
LocalEcho.v
TlsEcho.v
Coroutine.v
YieldEcho.v
CoroutineEcho.v
EchoTheorems.v
Datagrams.v
UdpEcho.v
LocalDatagramEcho.v
DatagramTheorems.v
HttpConnection.v
HttpEcho.v
HttpsEcho.v
HttpInvariant.v
HttpTheorems.v
ExampleControl.v
ExampleMains.v
StartView.v
SessionStarts.v
AcceptorServer.v
EchoServer.v
HttpServer.v
SocketStarts.v
DatagramServer.v
ServerFrame.v
StopReaches.v
ServerIdentity.v
ServerListeners.v
ServerProgram.v
ProgramScenarios.v
