(* ===== verification/Prelude.v ===== *)
(** * Serveza: a verification library

    Serveza (include/serveza, src) is a C++ library over Boost.Asio for servers that
    listen on several endpoints.  A [server] owns listeners; a listener accepts
    connections ([basic_acceptor_listener], listener.h) or owns one bound datagram
    socket ([basic_socket_listener], detail/basic_socket_listener.h) and runs the
    user's sessions; observers see its events.  All of it is asynchronous: a listener
    serialises its work on a strand, the server's own functions run on any thread and
    meet in atomics, a mutex and the posted tasks.

    ** The model

    A listener is a state ([world] of ListenerBase.v: the members of the C++ class, the
    posted tasks, the logs of completed handlers and of delivered events) and a
    computation of the monad [M] of Effect.v per member function or posted closure: it
    returns, throws, or terminates the program when an exception leaves a [noexcept]
    function.  What the code outside the repository answers (sockets, executors, timers,
    user code) is an argument, the environment of each step.  [exec] performs one
    action: a call of the public interface, the completion of an I/O operation, the
    end of a session, or a posted task, any of those pending; [reach] collects the
    reachable states.  Objects that several parties refer to (connections, sessions,
    operation groups) live in heaps and are referred to by address.

    A function of the server is a program of atomic actions ([prog] of Threads.v), one
    per access to shared state: a compare-and-exchange, a critical section under a
    mutex, a call of a listener (which only posts).  The [system] of Server.v is the
    shared state and the running threads; between two actions of a thread anything
    else may happen.

    Unsigned 64-bit counters are integers with their wrap-around written out ([u64]).
    Loops without a bound ([for (;;)]) are [PIter] and are run step by step, so no fuel
    is used, but between two suspensions of a coroutine of the examples.  The retry loop
    of [accept_retry_delay] runs at most as often as there were consecutive errors,
    which bounds its recursion.

    ** The files

    - Prelude: integers, list lemmas and counting; Errors (src/exception.cpp, error
      codes); Effect: the monad, weakest preconditions and their automation; EffectLogic:
      relations between the states before and after a computation;
    - Options (listener_options.h, the validation and the retry delay of
      src/listener.cpp), Endpoint ([endpoint_string]), Status (the status and event
      records), Observers (src/observer_registry.cpp, src/observer.cpp);
    - ListenerBase: what both listeners share, [complete_on], [track_completion_work],
      waits and their cancellation, diagnostics, events; ListenerFacts its lemmas;
    - Connection and Acceptor: [connection_state] and [basic_acceptor_listener].
      AcceptorCore states the abstract machine the acceptor refines and its invariant,
      AcceptorFacts, AcceptorSessions, AcceptorWork, AcceptorLiveness, AcceptorPath and
      AcceptorAccount the proofs (Budget: the measure of the liveness proofs),
      AcceptorTheorems and AcceptorBehaviour the results, Scenarios concrete
      executions;
    - SocketListener: [session_state] and [basic_socket_listener], with SocketFacts,
      SocketAccount, SocketLiveness and SocketTheorems;
    - ListenerAccount, ListenerPath, ListenerLedger: the accounts of operations and the
      published states, shared by both classes;
    - ListenerInterface: the interface of [class listener] as a type class with its
      laws; AcceptorObject and SocketObject are its instances, and so is their sum;
      ListenerStop: a stop that is posted behind the starts of a listener;
    - Threads: programs, their interleaving, a logic in which a thread owns tokens for
      what it still has to do, and total correctness of a thread alone;
    - ServerState, ServerControl ([server_control]), OperationGroup
      ([listener_operation_group]) and Server ([server]) of src/server.cpp;
    - ServerCompletions, ServerThreads, ServerTheorems: the books of the groups and
      what follows; ServerLifecycle, ServerStop: the states, events and stops;
      ServerBehaviour: each operation alone, and how a group joins the reports of its
      listeners; ServerScenarios: concrete executions;
    - ServerFrame: what the functions of the server leave alone, and what its listeners
      owe it; StopReaches: which listeners a requested stop reaches; ServerIdentity and
      ServerListeners: [listen], [bind] and the numbers of the listeners, with listeners
      of both classes in one server;
    - Sessions: the contexts given to a session and the adapters callback_session.h,
      yield_session.h and awaitable_session.h; a spawned coroutine is a frame that the
      executor resumes, segment by segment, until it ends;
    - StartView: which sessions were started and hold their handler, for both classes;
      SessionStarts and SocketStarts: which action of an acceptor or of a bound-socket
      listener starts a session;
    - AcceptorServer: an acceptor listener composed with the code of its sessions, any
      [SessionService].

    The example programs (src/examples) are users of the library; each is a machine whose
    events are the completions of its asynchronous operations:

    - EchoStream: a connected socket, the abstract echo protocol, and the class
      [EchoService] of what a stream service promises; CallbackEcho, LocalEcho and TlsEcho
      are its instances;
    - Coroutine: programs that suspend in asynchronous operations; YieldEcho and
      CoroutineEcho are written in it; EchoTheorems: the results; EchoServer: the
      sessions of an acceptor listener are those of any [EchoService];
    - Datagrams, UdpEcho, LocalDatagramEcho, DatagramTheorems: the datagram services and
      their reference; DatagramServer: a bound-socket listener with such a service;
    - HttpConnection (messages, the deadline timer), HttpEcho and HttpsEcho, with
      HttpInvariant and HttpTheorems; HttpServer: an acceptor listener with such sessions;
    - ExampleControl and ExampleMains: the control of each [main]; ServerProgram: the
      control of the callback examples composed with the server; ProgramScenarios:
      executions of CallbackEcho.

    ** The theorems

    For a listener of either class: it refines a life cycle machine and publishes its
    states in order; every operation completes at most once, and exactly once while the
    executor accepts work; the sessions are counted and admitted up to the limit, one
    accept is pending at a time, a stopped listener is quiescent; a listener that is
    stopping stops, whatever order its tasks run in, when the sessions end or the grace
    period expires; no action terminates the program; errors back off or stop the
    listener as documented.  The retry delay is the documented exponential.

    For a server, however its threads interleave: a start or a wait completes at most
    once, and exactly once while the executors accept work; a group counts exactly what
    it waits for; the states follow the documented order, each announced once; a
    requested stop is passed on to every listener, those included that a start is
    submitting at the same time, and when the strands run their tasks in order a stop is
    posted behind the starts of each, but for a listener that is stopped when it is asked.  A group reports the first error, once.  The listeners are
    told apart by their numbers.  Alone, [request_stop] returns with that effect, a
    start reports as documented and is rejected by a server that is stopping, the status
    aggregates those of the listeners, and [listen] and [bind] register a listener or
    throw.

    A session run by a coroutine adapter reports its end once, with the error of the
    exception that ended it, whenever and however often the coroutine is resumed.  A
    printed IP endpoint can be read back: the brackets keep the port of an IPv6 endpoint
    apart.

    For the examples: a stream echo service sends back what it read and nothing else,
    whatever fails, and all of it when nothing does; the coroutine services behave exactly
    as the callback one; a datagram service sends the replies of its reference; an HTTP
    service mirrors the requests in order and cancels an operation that is not complete
    when its deadline expires;
    every session reports its end once; the exit code of a program tells whether its start
    or its wait failed.  A listener whose sessions are those services, an acceptor with
    stream or HTTP sessions or a bound socket with a datagram session, learns the end of
    each once, and every peer is served as the service promises, in any interleaving.  A
    callback program together with its server reports the results of the server's
    operations, and does not hang: when nothing is left to do, both operations have
    completed and [main] has returned.

    Some theorems exhibit executions that the documentation does not suggest: a start
    that fails can leave a listener running, a cancelled wait makes the server report
    that it stopped (ServerStop.v); a stop can miss a listener that is stopped before its
    start is submitted, which then runs (StopReaches.v); a signal that stops the server of
    a callback example before it is started is lost, and the program does not end
    (ProgramScenarios.v); those at the end of AcceptorBehaviour.v and SocketTheorems.v
    concern one listener; an expired deadline of the HTTP examples cancels the operation
    after its own (HttpTheorems.v).

    Theorems about a server hold for every listener class that satisfies the laws of
    ListenerInterface.v; their witnesses use acceptor listeners,
    those of ServerListeners.v both classes.

    ** Not modelled

    What an observer does when it is called: the events delivered to observers are
    logged.  A callback may call a public operation of the listener; those only post, and
    the posts of other parties are actions of their own, but a call from within a callback,
    in the middle of an action, is not modelled ([notify_each] itself is modelled with
    callbacks that change the registry).  Memory orders of the atomics (the actions are
    sequentially consistent), allocation
    failure except where the code handles it, failure of a mutex, the lifetime of a
    server whose destructor runs while calls are in progress, the tests, and the CMake
    files.  [get_executor], [strand_factory] and [observer_registry] return fields.

    Of the examples: the control is composed with a server, and a listener with its
    sessions, but not all three at once, and the control coroutines are not composed with
    the server; in the compositions a session does not end while it starts.  Beast's
    parser, OpenSSL and the kernel are the environment, whose answers are arbitrary; an
    initiating function does not throw.  The fuel of a coroutine bounds the actions
    between two suspensions; the theorems show that it suffices. *)

From stdpp Require Export prelude list gmap strings sorting.
From Stdlib Require Export ZArith Lia.

(** ** Machine integers *)

Definition u64_modulus : Z := 18446744073709551616.

(** Wrap-around of a 64-bit unsigned counter ([std::uint64_t],
    [std::atomic_uint64_t], and [std::size_t] on the 64-bit targets). *)
Definition u64 (z : Z) : Z := z mod u64_modulus.

Lemma u64_small z : (0 <= z < u64_modulus)%Z -> u64 z = z.
Proof. apply Z.mod_small. Qed.

Lemma u64_range z : (0 <= u64 z < u64_modulus)%Z.
Proof. apply Z.mod_pos_bound. reflexivity. Qed.

(** ** Hint databases and tactics of the development *)

Create HintDb serveza discriminated.
Create HintDb eff discriminated.
Create Rewrite HintDb countb.

(** Case analysis on every [if]/[match] scrutinee of the goal, remembering it. *)
Ltac case_goal :=
  match goal with
  | |- context [match ?x with _ => _ end] =>
      lazymatch x with
      | context [match _ with _ => _ end] => fail
      | _ => destruct x eqn:?
      end
  end.

(** Split conjunctions of the goal and of the hypotheses. *)
Ltac crush_and :=
  repeat match goal with
  | H : _ /\ _ |- _ => destruct H
  | H : exists _, _ |- _ => destruct H
  | |- _ /\ _ => split
  end.

(** ** Lists *)

(** Removal of the element at a position, as a strand picks one posted task. *)
Definition remove_at {A} (i : nat) (l : list A) : list A := take i l ++ drop (S i) l.

Lemma remove_at_perm {A} (i : nat) (l : list A) x :
  l !! i = Some x -> l ≡ₚ x :: remove_at i l.
Proof.
  intros H. unfold remove_at.
  rewrite <- (take_drop_middle l i x H) at 1.
  by rewrite Permutation_middle.
Qed.

Lemma elem_of_remove_at {A} (l : list A) i x y :
  l !! i = Some x -> y ∈ l -> y <> x -> y ∈ remove_at i l.
Proof.
  intros Hi Hy Hne. rewrite (remove_at_perm _ _ _ Hi) in Hy. apply elem_of_cons in Hy as [->|]; done.
Qed.

(** [std::find_if] followed by [erase]: removes the first match. *)
Fixpoint erase_first {A} (p : A -> bool) (l : list A) : list A :=
  match l with
  | [] => []
  | x :: r => if p x then r else x :: erase_first p r
  end.

Fixpoint find_first {A} (p : A -> bool) (l : list A) : option A :=
  match l with
  | [] => None
  | x :: r => if p x then Some x else find_first p r
  end.

Lemma find_first_perm {A} (p : A -> bool) l x :
  find_first p l = Some x -> l ≡ₚ x :: erase_first p l.
Proof.
  induction l as [|y r IH]; simpl; [done|].
  destruct (p y) eqn:E; [by intros [= ->]|].
  intros H. rewrite (IH H) at 1. apply perm_swap.
Qed.

Lemma find_first_true {A} (p : A -> bool) l x :
  find_first p l = Some x -> p x = true /\ x ∈ l.
Proof.
  induction l as [|y r IH]; simpl; [done|].
  destruct (p y) eqn:E.
  - intros [= ->]. split; [done|]. apply list_elem_of_here.
  - intros H. destruct (IH H). split; [done|]. by apply list_elem_of_further.
Qed.

Lemma find_first_None {A} (p : A -> bool) l :
  find_first p l = None <-> (forall x, x ∈ l -> p x = false).
Proof.
  induction l as [|y r IH]; simpl.
  - split; [|done]. intros _ x Hx. by apply elem_of_nil in Hx.
  - destruct (p y) eqn:E.
    + split; [done|]. intros H. rewrite (H y) in E; [done|]. apply list_elem_of_here.
    + rewrite IH. split.
      * intros H x [->|Hx]%elem_of_cons; auto.
      * intros H x Hx. apply H. by apply list_elem_of_further.
Qed.

Lemma erase_first_None {A} (p : A -> bool) l :
  find_first p l = None -> erase_first p l = l.
Proof.
  induction l as [|y r IH]; simpl; [done|].
  destruct (p y); [done|]. intros H. by rewrite IH.
Qed.

Lemma erase_first_length {A} (p : A -> bool) l x :
  find_first p l = Some x -> length l = S (length (erase_first p l)).
Proof. intros H%find_first_perm%Permutation_length. done. Qed.

(** Number of the elements of a list that satisfy a test. *)
Definition countb {A} (p : A -> bool) (l : list A) : nat := length (List.filter p l).

Lemma countb_nil {A} (p : A -> bool) : countb p [] = 0.
Proof. done. Qed.

Lemma countb_cons {A} (p : A -> bool) x l :
  countb p (x :: l) = (if p x then 1 else 0) + countb p l.
Proof. unfold countb. simpl. by destruct (p x). Qed.

Lemma countb_app {A} (p : A -> bool) l k : countb p (l ++ k) = countb p l + countb p k.
Proof. unfold countb. by rewrite List.filter_app, length_app. Qed.

Global Instance countb_perm {A} (p : A -> bool) :
  Proper ((≡ₚ) ==> (=)) (countb p).
Proof.
  intros l k H. induction H; rewrite ?countb_cons; try lia; congruence.
Qed.

Lemma countb_ext {A} (p q : A -> bool) l : (forall x, x ∈ l -> p x = q x) -> countb p l = countb q l.
Proof.
  induction l as [|x l IH]; intros H; [done|]. rewrite !countb_cons, (H x), IH; [done | | by left].
  intros y Hy. apply H. by right.
Qed.

Lemma countb_zero {A} (p : A -> bool) l : (forall x, x ∈ l -> p x = false) -> countb p l = 0.
Proof. intros H. rewrite (countb_ext p (fun _ => false)) by done. clear H. by induction l. Qed.

Lemma countb_replicate {A} (p : A -> bool) x n : countb p (replicate n x) = if p x then n else 0.
Proof. induction n as [|n IH]; simpl; [by destruct (p x)|]. rewrite countb_cons, IH. destruct (p x); lia. Qed.

Lemma flat_map_replicate_nil {A B} (f : A -> list B) x n : f x = [] -> flat_map f (replicate n x) = [].
Proof. intros H. induction n; simpl; [done|]. by rewrite H. Qed.

Lemma countb_remove_at {A} (p : A -> bool) i l x :
  l !! i = Some x ->
  countb p l = (if p x then 1 else 0) + countb p (remove_at i l).
Proof. intros H%remove_at_perm. apply (countb_perm p) in H. by rewrite H, countb_cons. Qed.

Global Instance concat_map_perm {A B} (f : A -> list B) :
  Proper ((≡ₚ) ==> (≡ₚ)) (fun l => flat_map f l).
Proof.
  intros l k H. induction H; simpl; auto.
  - by apply Permutation_app_head.
  - rewrite !app_assoc. apply Permutation_app_tail, Permutation_app_comm.
  - by etrans.
Qed.

#[export] Hint Rewrite @countb_nil @countb_cons @countb_app : countb.
