(* ===== verification/Errors.v ===== *)
(** * Error codes and exceptions

    [boost::system::error_code], the [boost::asio::error] constants the
    sources compare against, [std::exception_ptr], and
    [exception_to_error] of src/src/exception.cpp.

    An error code is a value in a category; it signals failure when the value
    is not zero (the default of [error_category::failed]).  The numbers are the
    Linux [errno] values Asio uses; the development uses only that they are
    pairwise distinct where the sources need it. *)

From S2P Require Import Prelude.

Inductive error_category := system_category | generic_category | other_category (n : N).

Global Instance error_category_eq_dec : EqDecision error_category.
Proof. solve_decision. Defined.

Record error_code := mk_error_code { ec_value : Z; ec_category : error_category }.

Global Instance error_code_eq_dec : EqDecision error_code.
Proof. solve_decision. Defined.

(** [boost::system::error_code{}]. *)
Definition success : error_code := mk_error_code 0 system_category.

(** [error_code::operator bool]. *)
Definition failed (ec : error_code) : bool := negb (ec_value ec =? 0)%Z.

(** [ec == boost::asio::error::x]: same value and same category. *)
Definition ec_eqb (a b : error_code) : bool := bool_decide (a = b).

Definition system_error_code (n : Z) : error_code := mk_error_code n system_category.
Definition generic_error_code (n : Z) : error_code := mk_error_code n generic_category.

Definition interrupted : error_code := system_error_code 4.
Definition try_again : error_code := system_error_code 11.
Definition would_block : error_code := system_error_code 11.
Definition no_memory : error_code := system_error_code 12.
Definition no_descriptors : error_code := system_error_code 24.
Definition connection_aborted : error_code := system_error_code 103.
Definition no_buffer_space : error_code := system_error_code 105.
Definition operation_aborted : error_code := system_error_code 125.
Definition connection_reset : error_code := system_error_code 104.

(** Codes of other categories that the examples compare against: [asio.misc],
    [asio.ssl.stream] and [beast.http]. *)
Definition eof : error_code := mk_error_code 2 (other_category 0).
Definition stream_truncated : error_code := mk_error_code 1 (other_category 1).
Definition end_of_stream : error_code := mk_error_code 1 (other_category 2).

(** [make_error_code(boost::system::errc::...)]. *)
Definition io_error : error_code := generic_error_code 5.
Definition timed_out : error_code := generic_error_code 110.

(** A thrown object: a [boost::system::system_error] carries its code, any other
    type is described by its [what] string. *)
Inductive exn := system_error (code : error_code) | other_exception (what : string).

Global Instance exn_eq_dec : EqDecision exn.
Proof. solve_decision. Defined.

Definition exception_ptr := option exn.

(** [serveza::detail::exception_to_error]. *)
Definition exception_to_error (ep : exception_ptr) : error_code :=
  match ep with
  | None => success
  | Some (system_error code) => code
  | Some (other_exception _) => io_error
  end.

(** An exception whose error code signals failure.  Every exception but a
    [system_error] built on a zero code is of this kind. *)
Definition exn_failed (x : exn) : bool := failed (exception_to_error (Some x)).

Lemma exn_failed_other what : exn_failed (other_exception what) = true.
Proof. done. Qed.

Lemma ec_eqb_refl a : ec_eqb a a = true.
Proof. by apply bool_decide_eq_true. Qed.

Lemma ec_eqb_eq a b : ec_eqb a b = true <-> a = b.
Proof. apply bool_decide_eq_true. Qed.

Lemma ec_eqb_neq a b : ec_eqb a b = false <-> a <> b.
Proof. apply bool_decide_eq_false. Qed.

Lemma success_not_failed : failed success = false.
Proof. done. Qed.

#[export] Hint Resolve ec_eqb_refl success_not_failed : serveza.
