(* ===== verification/Effect.v ===== *)
(** * Effects: state, environment answers, exceptions and [noexcept]

    C++ code that reads and writes an object, calls code outside the repository
    and may throw is a computation [M E S A]: it reads an environment [E] (what
    the calls to Asio, to the operating system and to user code answer in this
    step), threads a state [S], and ends by returning, by throwing, or by
    calling [std::terminate] (an exception that leaves a [noexcept] function).

    [wp m e s Q X] is the weakest precondition of [m]: it does not terminate the
    process, a normal return satisfies [Q] and an exceptional one satisfies
    [X]. *)

From S2P Require Import Prelude Errors.

Inductive outcome (S A : Type) :=
| Ret (a : A) (s : S)
| Throw (x : exn) (s : S)
| Terminate (s : S).
Arguments Ret {S A}.
Arguments Throw {S A}.
Arguments Terminate {S A}.

Definition M (E S A : Type) : Type := E -> S -> outcome S A.

Section Operations.
Context {E S : Type}.

Definition ret {A} (a : A) : M E S A := fun _ s => Ret a s.

Definition bind {A B} (m : M E S A) (k : A -> M E S B) : M E S B :=
  fun e s => match m e s with
             | Ret a s' => k a e s'
             | Throw x s' => Throw x s'
             | Terminate s' => Terminate s'
             end.

Definition throw {A} (x : exn) : M E S A := fun _ s => Throw x s.

Definition gets {A} (f : S -> A) : M E S A := fun _ s => Ret (f s) s.

Definition asks {A} (f : E -> A) : M E S A := fun e s => Ret (f e) s.

Definition modify (f : S -> S) : M E S unit := fun _ s => Ret tt (f s).

(** [try { m } catch (...) { h }]; [h] receives [std::current_exception]. *)
Definition try_catch {A} (m : M E S A) (h : exn -> M E S A) : M E S A :=
  fun e s => match m e s with
             | Throw x s' => h x e s'
             | r => r
             end.

(** A [noexcept] function: an escaping exception calls [std::terminate]. *)
Definition noexcept {A} (m : M E S A) : M E S A :=
  fun e s => match m e s with
             | Throw _ s' => Terminate s'
             | r => r
             end.

Definition when (b : bool) (m : M E S unit) : M E S unit :=
  if b then m else ret tt.

(** A range [for] over a container whose elements the body does not insert or
    erase. *)
Fixpoint for_each {A} (l : list A) (f : A -> M E S unit) : M E S unit :=
  match l with
  | [] => ret tt
  | x :: r => bind (f x) (fun _ => for_each r f)
  end.

(** A call that may throw: the environment gives the exception, if any. *)
Definition may_throw (f : E -> option exn) : M E S unit :=
  fun e s => match f e with
             | None => Ret tt s
             | Some x => Throw x s
             end.
End Operations.

Declare Scope eff_scope.
Delimit Scope eff_scope with eff.
Bind Scope eff_scope with M.

Notation "x <- m ;; k" := (bind m (fun x => k))
  (at level 100, m at next level, right associativity) : eff_scope.
Notation "m ;; k" := (bind m (fun _ => k))
  (at level 100, right associativity) : eff_scope.

(** ** Weakest preconditions *)

Definition wp {E S A} (m : M E S A) (e : E) (s : S)
    (Q : A -> S -> Prop) (X : exn -> S -> Prop) : Prop :=
  match m e s with
  | Ret a s' => Q a s'
  | Throw x s' => X x s'
  | Terminate _ => False
  end.

Section Wp.
Context {E S : Type}.
Implicit Types (e : E) (s : S).

Lemma wp_mono {A} (m : M E S A) e s (Q Q' : A -> S -> Prop) (X X' : exn -> S -> Prop) :
  wp m e s Q X ->
  (forall a s', Q a s' -> Q' a s') ->
  (forall x s', X x s' -> X' x s') ->
  wp m e s Q' X'.
Proof. unfold wp. intros H HQ HX. destruct (m e s); auto. Qed.

Lemma wp_conj {A} (m : M E S A) e s (Q Q' : A -> S -> Prop) (X X' : exn -> S -> Prop) :
  wp m e s Q X -> wp m e s Q' X' ->
  wp m e s (fun a s' => Q a s' /\ Q' a s') (fun x s' => X x s' /\ X' x s').
Proof. unfold wp. destruct (m e s); auto. Qed.

Lemma wp_ret {A} (a : A) e s (Q : A -> S -> Prop) X : Q a s -> wp (ret a) e s Q X.
Proof. done. Qed.

Lemma wp_bind {A B} (m : M E S A) (k : A -> M E S B) e s Q X :
  wp m e s (fun a s' => wp (k a) e s' Q X) X -> wp (bind m k) e s Q X.
Proof. unfold wp, bind. destruct (m e s); auto. Qed.

Lemma wp_throw {A} (x : exn) e s (Q : A -> S -> Prop) (X : exn -> S -> Prop) :
  X x s -> wp (throw x) e s Q X.
Proof. done. Qed.

Lemma wp_gets {A} (f : S -> A) e s (Q : A -> S -> Prop) X :
  Q (f s) s -> wp (gets f) e s Q X.
Proof. done. Qed.

Lemma wp_asks {A} (f : E -> A) e s (Q : A -> S -> Prop) X :
  Q (f e) s -> wp (asks f) e s Q X.
Proof. done. Qed.

Lemma wp_modify (f : S -> S) e s (Q : unit -> S -> Prop) X :
  Q tt (f s) -> wp (modify f) e s Q X.
Proof. done. Qed.

Lemma wp_try {A} (m : M E S A) h e s (Q : A -> S -> Prop) X :
  wp m e s Q (fun x s' => wp (h x) e s' Q X) -> wp (try_catch m h) e s Q X.
Proof. unfold wp, try_catch. destruct (m e s); auto. Qed.

Lemma wp_noexcept {A} (m : M E S A) e s (Q : A -> S -> Prop) X :
  wp m e s Q (fun _ _ => False) -> wp (noexcept m) e s Q X.
Proof. unfold wp, noexcept. destruct (m e s); auto. Qed.

Lemma wp_when b (m : M E S unit) e s (Q : unit -> S -> Prop) X :
  (b = true -> wp m e s Q X) -> (b = false -> Q tt s) -> wp (when b m) e s Q X.
Proof. destruct b; intros H1 H2; [by apply H1 | by apply wp_ret, H2]. Qed.

Lemma wp_may_throw (f : E -> option exn) e s (Q : unit -> S -> Prop) (X : exn -> S -> Prop) :
  (f e = None -> Q tt s) -> (forall x, f e = Some x -> X x s) ->
  wp (may_throw f) e s Q X.
Proof. unfold wp, may_throw. destruct (f e); auto. Qed.

(** Loop rule: an invariant over the part of the container already visited. *)
Lemma wp_for_each {A} (l : list A) (f : A -> M E S unit) e
    (I : list A -> S -> Prop) (X : exn -> S -> Prop) :
  (forall done x rest s', l = done ++ x :: rest -> I done s' ->
     wp (f x) e s' (fun _ s'' => I (done ++ [x]) s'') X) ->
  forall s, I [] s -> wp (for_each l f) e s (fun _ s' => I l s') X.
Proof.
  intros Hstep.
  enough (forall rest done s, l = done ++ rest -> I done s ->
            wp (for_each rest f) e s (fun _ s' => I l s') X) as H.
  { intros s Hs. by apply (H l []). }
  induction rest as [|x rest IH]; intros done s Hl Hs; simpl.
  - apply wp_ret. by rewrite Hl, app_nil_r.
  - apply wp_bind. eapply wp_mono; [by eapply Hstep| |auto].
    intros ? s' H. apply (IH (done ++ [x])); [|done]. by rewrite <- app_assoc.
Qed.
End Wp.

(** [pres P m]: whatever the environment answers, [m] does not terminate the
    process and keeps [P], also when it throws. *)
Definition pres {E S A} (P : S -> Prop) (m : M E S A) : Prop :=
  forall e s, P s -> wp m e s (fun _ s' => P s') (fun _ s' => P s').

(** [nothrow P m]: moreover [m] does not throw. *)
Definition nothrow {E S A} (P : S -> Prop) (m : M E S A) : Prop :=
  forall e s X, P s -> wp m e s (fun _ s' => P s') X.

Lemma nothrow_pres {E S A} (P : S -> Prop) (m : M E S A) : nothrow P m -> pres P m.
Proof. intros H e s Hs. by apply H. Qed.

Lemma wp_nothrow {E S A} (P : S -> Prop) (m : M E S A) e s (Q : A -> S -> Prop) X :
  nothrow P m -> P s -> (forall a s', P s' -> Q a s') -> wp m e s Q X.
Proof. intros H Hs HQ. eapply wp_mono; [by apply (H e s X)| |]; auto. Qed.

Lemma wp_pres {E S A} (P : S -> Prop) (m : M E S A) e s (Q : A -> S -> Prop) X :
  pres P m -> P s -> (forall a s', P s' -> Q a s') -> (forall x s', P s' -> X x s') ->
  wp m e s Q X.
Proof. intros H Hs HQ HX. eapply wp_mono; [by apply H| |]; auto. Qed.

(** One step of symbolic execution of a computation. *)
Ltac eff_step :=
  lazymatch goal with
  | |- wp (bind _ _) _ _ _ _ => apply wp_bind
  | |- wp (ret _) _ _ _ _ => apply wp_ret
  | |- wp (gets _) _ _ _ _ => apply wp_gets
  | |- wp (asks _) _ _ _ _ => apply wp_asks
  | |- wp (modify _) _ _ _ _ => apply wp_modify
  | |- wp (throw _) _ _ _ _ => apply wp_throw
  | |- wp (try_catch _ _) _ _ _ _ => apply wp_try
  | |- wp (noexcept _) _ _ _ _ => apply wp_noexcept
  | |- wp (when _ _) _ _ _ _ => apply wp_when; intros ?
  | |- wp (may_throw _) _ _ _ _ => apply wp_may_throw; [intros ? | intros ? ?]
  | |- wp (if ?b then _ else _) _ _ _ _ => destruct b eqn:?
  | |- wp (match ?x with _ => _ end) _ _ _ _ => destruct x eqn:?
  end.

(** ** Properties kept at every step

    [kept ok P m]: when the environment's answers satisfy [ok], [m] keeps [P],
    also when it throws.  It is closed under the constructs of the language, so
    that a property no primitive breaks is kept by every program over them. *)
Definition kept {E S A} (ok : E -> Prop) (P : S -> Prop) (m : M E S A) : Prop :=
  forall e s, ok e -> P s -> wp m e s (fun _ s' => P s') (fun _ s' => P s').

Section Kept.
Context {E S : Type} (ok : E -> Prop) (P : S -> Prop).

Lemma kept_nothrow {A} (m : M E S A) : nothrow P m -> kept ok P m.
Proof. intros H e s _ Hs. by apply H. Qed.

Lemma kept_pres {A} (m : M E S A) : pres P m -> kept ok P m.
Proof. intros H e s _ Hs. by apply H. Qed.

Lemma kept_ret {A} (a : A) : kept ok P (ret a).
Proof. intros e s _ Hs. by apply wp_ret. Qed.

Lemma kept_throw {A} (x : exn) : kept ok P (throw (A := A) x).
Proof. intros e s _ Hs. by apply wp_throw. Qed.

Lemma kept_gets {A} (f : S -> A) : kept ok P (gets f).
Proof. intros e s _ Hs. by apply wp_gets. Qed.

Lemma kept_asks {A} (f : E -> A) : kept ok P (asks f).
Proof. intros e s _ Hs. by apply wp_asks. Qed.

Lemma kept_modify (f : S -> S) : (forall s, P s -> P (f s)) -> kept ok P (modify f).
Proof. intros Hf e s _ Hs. by apply wp_modify, Hf. Qed.

Lemma kept_may_throw (f : E -> option exn) : kept ok P (may_throw f).
Proof. intros e s _ Hs. by apply wp_may_throw. Qed.

Lemma kept_bind {A B} (m : M E S A) (k : A -> M E S B) :
  kept ok P m -> (forall a, kept ok P (k a)) -> kept ok P (bind m k).
Proof.
  intros Hm Hk e s He Hs. apply wp_bind. eapply wp_mono; [by apply Hm | | done].
  intros a s' Hs'. by apply Hk.
Qed.

Lemma kept_try {A} (m : M E S A) h :
  kept ok P m -> (forall x, kept ok P (h x)) -> kept ok P (try_catch m h).
Proof.
  intros Hm Hk e s He Hs. apply wp_try. eapply wp_mono; [by apply Hm | done |].
  intros x s' Hs'. by apply Hk.
Qed.

Lemma kept_when b (m : M E S unit) : kept ok P m -> kept ok P (when b m).
Proof. intros Hm. destruct b; [done | apply kept_ret]. Qed.

Lemma kept_for_each {A} (l : list A) (f : A -> M E S unit) :
  (forall x, kept ok P (f x)) -> kept ok P (for_each l f).
Proof. intros Hf. induction l; simpl; [apply kept_ret | by apply kept_bind]. Qed.
End Kept.

(** Decompose a program; [modify]s and calls are left to the caller. *)
Ltac kept_step :=
  lazymatch goal with
  | |- kept _ _ (bind _ _) => apply kept_bind; [|intros ?]
  | |- kept _ _ (ret _) => apply kept_ret
  | |- kept _ _ (throw _) => apply kept_throw
  | |- kept _ _ (gets _) => apply kept_gets
  | |- kept _ _ (asks _) => apply kept_asks
  | |- kept _ _ (may_throw _) => apply kept_may_throw
  | |- kept _ _ (try_catch _ _) => apply kept_try; [|intros ?]
  | |- kept _ _ (when _ _) => apply kept_when
  | |- kept _ _ (for_each _ _) => apply kept_for_each; intros ?
  | |- kept _ _ (modify _) => apply kept_modify; intros ? ?
  | |- kept _ _ (if ?b then _ else _) => destruct b
  | |- kept _ _ (match ?x with _ => _ end) => destruct x
  end.

Ltac kept_auto := repeat (kept_step || (solve [eauto with eff])).

(** ** Absence of exceptions

    [total ok m]: when the environment's answers satisfy [ok], [m] returns
    normally from every state. *)
Definition anywhere {S : Type} (s : S) : Prop := True.

Definition total {E S A} (ok : E -> Prop) (m : M E S A) : Prop :=
  forall e s, ok e -> wp m e s (fun _ _ => True) (fun _ _ => False).

Section Total.
Context {E S : Type} (ok : E -> Prop).

Lemma total_nothrow {A} (m : M E S A) : nothrow anywhere m -> total ok m.
Proof. intros H e s _. eapply wp_mono; [by apply (H e s (fun _ _ => False))| |]; done. Qed.

Lemma total_ret {A} (a : A) : total (S := S) ok (ret a).
Proof. done. Qed.

Lemma total_gets {A} (f : S -> A) : total ok (gets f).
Proof. done. Qed.

Lemma total_asks {A} (f : E -> A) : total (S := S) ok (asks f).
Proof. done. Qed.

Lemma total_modify (f : S -> S) : total ok (modify f).
Proof. done. Qed.

Lemma total_bind {A B} (m : M E S A) (k : A -> M E S B) :
  total ok m -> (forall a, total ok (k a)) -> total ok (bind m k).
Proof.
  intros Hm Hk e s He. apply wp_bind. eapply wp_mono; [by apply Hm | | done].
  intros a s' _. by apply Hk.
Qed.

Lemma total_try {A} (m : M E S A) h :
  kept ok anywhere m -> (forall x, total ok (h x)) -> total ok (try_catch m h).
Proof.
  intros Hm Hk e s He. apply wp_try. eapply wp_mono; [by apply Hm | done |].
  intros x s' _. by apply Hk.
Qed.

Lemma total_when b (m : M E S unit) : total ok m -> total ok (when b m).
Proof. intros Hm. destruct b; [done | apply total_ret]. Qed.

Lemma total_for_each {A} (l : list A) (f : A -> M E S unit) :
  (forall x, total ok (f x)) -> total ok (for_each l f).
Proof. intros Hf. induction l; simpl; [apply total_ret | by apply total_bind]. Qed.

Lemma wp_total {A} (m : M E S A) e s (Q : A -> S -> Prop) X :
  total ok m -> ok e -> (forall a s', Q a s') -> wp m e s Q X.
Proof. intros Hm He HQ. eapply wp_mono; [by apply Hm | | done]. auto. Qed.

Lemma kept_anywhere {A} (m : M E S A) : total ok m -> kept ok anywhere m.
Proof. intros H e s He _. eapply wp_mono; [by apply H| |]; done. Qed.
End Total.

(** A [noexcept] function that is known not to terminate keeps what its body keeps. *)
Lemma kept_noexcept {E S A} (ok : E -> Prop) (P : S -> Prop) (m : M E S A) :
  nothrow anywhere (noexcept m) -> kept ok P m -> kept ok P (noexcept m).
Proof.
  intros Hn Hm e s He Hs. specialize (Hn e s (fun _ _ => True) I). specialize (Hm e s He Hs).
  unfold wp, noexcept in *. destruct (m e s); done.
Qed.

Ltac total_step :=
  lazymatch goal with
  | |- total _ (bind _ _) => apply total_bind; [|intros ?]
  | |- total _ (ret _) => apply total_ret
  | |- total _ (gets _) => apply total_gets
  | |- total _ (asks _) => apply total_asks
  | |- total _ (modify _) => apply total_modify
  | |- total _ (try_catch _ _) => apply total_try; [|intros ?]
  | |- total _ (when _ _) => apply total_when
  | |- total _ (for_each _ _) => apply total_for_each; intros ?
  | |- total _ (if ?b then _ else _) => destruct b
  | |- total _ (match ?x with _ => _ end) => destruct x
  end.

Ltac total_auto := repeat (total_step || kept_step || (solve [eauto with eff]) || exact I).
