(* ===== verification/EffectLogic.v ===== *)
(** * What a program keeps, whatever happens

    [typed P R m]: whatever the environment answers, [m] keeps [P], also when it throws,
    and what it returns satisfies [R].  [leads ok X P Q m]: when the answers satisfy [ok],
    [m] leads from [P] to [Q], or to [X] when it throws.  Both are closed under the
    constructs of Effect.v. *)

From S2P Require Import Prelude Errors Effect.

Local Open Scope eff_scope.

Create HintDb typed discriminated.

Definition typed {E S A} (P : S -> Prop) (R : A -> Prop) (m : M E S A) : Prop :=
  forall e s, P s ->
  match m e s with
  | Ret a s' => P s' /\ R a
  | Throw _ s' => P s'
  | Terminate _ => True
  end.

(** Any result. *)
Abbreviation any := (fun _ => True).

Section Rules.
Context {E S : Type} (P : S -> Prop).

Lemma typed_ret {A} (a : A) (R : A -> Prop) : R a -> typed (E := E) P R (ret a).
Proof. by intros H e s Hs. Qed.

Lemma typed_throw {A} x (R : A -> Prop) : typed (E := E) P R (throw x).
Proof. by intros e s Hs. Qed.

Lemma typed_gets {A} (f : S -> A) : typed (E := E) P (fun a => exists s, P s /\ f s = a) (gets f).
Proof. intros e s Hs. simpl. eauto. Qed.

Lemma typed_asks {A} (f : E -> A) : typed P any (asks f).
Proof. by intros e s Hs. Qed.

Lemma typed_modify (f : S -> S) : (forall s, P s -> P (f s)) -> typed (E := E) P any (modify f).
Proof. intros H e s Hs. simpl. auto. Qed.

Lemma typed_may_throw (f : E -> option exn) : typed P any (may_throw f).
Proof. intros e s Hs. unfold may_throw. by destruct (f e). Qed.

Lemma typed_bind {A B} (m : M E S A) (k : A -> M E S B) R R' :
  typed P R m -> (forall a, R a -> typed P R' (k a)) -> typed P R' (bind m k).
Proof.
  intros Hm Hk e s Hs. unfold bind. specialize (Hm e s Hs).
  destruct (m e s) as [a s'|x s'|s']; [|done|done]. destruct Hm as [Hs' Ha]. by apply Hk.
Qed.

Lemma typed_try {A} (m : M E S A) h R :
  typed P R m -> (forall x, typed P R (h x)) -> typed P R (try_catch m h).
Proof.
  intros Hm Hh e s Hs. unfold try_catch. specialize (Hm e s Hs). destruct (m e s) as [a s'|x s'|s']; try done.
  by apply Hh.
Qed.

Lemma typed_noexcept {A} (m : M E S A) R : typed P R m -> typed P R (noexcept m).
Proof. intros Hm e s Hs. unfold noexcept. specialize (Hm e s Hs). by destruct (m e s). Qed.

Lemma typed_when b (m : M E S unit) : typed P any m -> typed P any (when b m).
Proof. intros H. destruct b; [done | by apply typed_ret]. Qed.

Lemma typed_for_each {A} (l : list A) (f : A -> M E S unit) :
  (forall x, typed P any (f x)) -> typed P any (for_each l f).
Proof. intros H. induction l as [|x l IH]; simpl; [by apply typed_ret|]. by apply (typed_bind _ _ any). Qed.

Lemma typed_any {A} (m : M E S A) R : typed P R m -> typed P any m.
Proof. intros Hm e s Hs. specialize (Hm e s Hs). destruct (m e s); [|done|done]. by destruct Hm. Qed.
End Rules.

(** Decompose a program.  Calls are solved by the hints; an unknown function is unfolded
    by the caller. *)
Ltac typed_step :=
  lazymatch goal with
  | |- typed _ _ (bind (gets _) _) => eapply typed_bind; [apply typed_gets | intros ? (? & ? & <-)]
  | |- typed _ _ (bind _ _) => apply (typed_bind _ _ _ any); [|intros ? _]
  | |- typed _ _ (ret _) => apply typed_ret; exact I
  | |- typed _ _ (throw _) => apply typed_throw
  | |- typed _ _ (gets _) => eapply typed_any, typed_gets
  | |- typed _ _ (asks _) => apply typed_asks
  | |- typed _ _ (may_throw _) => apply typed_may_throw
  | |- typed _ _ (try_catch _ _) => apply typed_try; [|intros ?]
  | |- typed _ _ (noexcept _) => apply typed_noexcept
  | |- typed _ _ (when _ _) => apply typed_when
  | |- typed _ _ (for_each _ _) => apply typed_for_each; intros ?
  | |- typed _ _ (let _ := _ in _) => intros ?
  | |- typed _ _ (if ?b then _ else _) => destruct b eqn:?
  | |- typed _ _ (match ?x with _ => _ end) => destruct x eqn:?
  end.

Ltac typed_auto := repeat (typed_step || (solve [eauto with typed])).

(** ** From one predicate to another *)

(** From [P] to [Q]; [X] holds when it throws. *)
Definition leads {E S A} (ok : E -> Prop) (X P Q : S -> Prop) (m : M E S A) : Prop :=
  forall e w, ok e -> P w ->
  match m e w with
  | Ret _ w' => Q w'
  | Throw _ w' => X w'
  | Terminate _ => True
  end.

Section Leads.
Context {E S : Type} (ok : E -> Prop) (X : S -> Prop).

Lemma leads_keep {A} P Q (m : M E S A) :
  typed P any m -> (forall w, P w -> Q w) -> (forall w, P w -> X w) -> leads ok X P Q m.
Proof.
  intros Hm HQ HX e w _ Hw. specialize (Hm e w Hw). destruct (m e w); [destruct Hm; auto | auto | done].
Qed.

Lemma leads_modify (P Q : S -> Prop) (f : S -> S) : (forall w, P w -> Q (f w)) -> leads ok X P Q (modify f).
Proof. intros H e w _ Hw. simpl. auto. Qed.

(** What is read at first decides. *)
Lemma leads_gets {A B} (P Q : S -> Prop) (f : S -> A) (k : A -> M E S B) :
  (forall a, leads ok X (fun w => P w /\ f w = a) Q (k a)) -> leads ok X P Q (bind (gets f) k).
Proof. intros H e w He Hw. by apply (H (f w) e w He). Qed.

Lemma leads_bind {A B} P R Q (m : M E S A) (k : A -> M E S B) :
  leads ok X P R m -> (forall a, leads ok X R Q (k a)) -> leads ok X P Q (bind m k).
Proof.
  intros Hm Hk e w He Hw. unfold bind. specialize (Hm e w He Hw).
  destruct (m e w) as [a w'|x w'|w']; [by apply Hk | done | done].
Qed.

(** The first part keeps [P] and returns something that satisfies [R]. *)
Lemma leads_bind_keep {A B} P Q (R : A -> Prop) (m : M E S A) (k : A -> M E S B) :
  typed P R m -> (forall w, P w -> X w) -> (forall a, R a -> leads ok X P Q (k a)) -> leads ok X P Q (bind m k).
Proof.
  intros Hm HX Hk e w He Hw. unfold bind. specialize (Hm e w Hw).
  destruct (m e w) as [a w'|x w'|w']; [|by apply HX | done]. destruct Hm as [Hw' Ha]. by apply (Hk a Ha).
Qed.
End Leads.

(** A union of kept predicates is kept. *)
Lemma typed_exists {E S A I} (P : I -> S -> Prop) (m : M E S A) :
  (forall i, typed (P i) any m) -> typed (fun s => exists i, P i s) any m.
Proof.
  intros Hm e s [i Hi]. specialize (Hm i e s Hi). destruct (m e s); [destruct Hm|..]; eauto.
Qed.
