(* ===== verification/Budget.v ===== *)
(** * What a computation adds to a measure

    [Bud b]: a family of properties of the state, monotone in the budget [b].
    [spends d m]: from a state within budget [b], [m] stays within [b + d],
    whether it returns or throws.  The liveness proofs of both listener classes
    bound the work a task leaves behind with it. *)

From S2P Require Import Prelude Errors Effect.

Class Graded {S : Type} (Bud : nat -> S -> Prop) : Prop :=
  graded_mono b b' s : b <= b' -> Bud b s -> Bud b' s.

Section Budget.
Context {E S : Type} {ok : E -> Prop} {Bud : nat -> S -> Prop} `{!Graded Bud}.

Lemma bud_le b b' (w : S) : b <= b' -> Bud b w -> Bud b' w.
Proof. apply graded_mono. Qed.

Definition spends {A} (d : nat) (m : M E S A) : Prop :=
  forall b e w, ok e -> Bud b w -> wp m e w (fun _ => Bud (b + d)) (fun _ => Bud (b + d)).

Lemma spends_mono {A} d d' (m : M E S A) : d <= d' -> spends d m -> spends d' m.
Proof.
  intros Hd Hm b e w He H. eapply wp_mono; [by apply Hm | |]; intros ? w' H'; (apply (bud_le (b + d)); [lia | exact H']).
Qed.

Lemma spends_ret {A} (a : A) : spends 0 (ret a).
Proof. intros b e w He H. eff_step. by rewrite Nat.add_0_r. Qed.

Lemma spends_gets {A} (f : S -> A) : spends 0 (gets f).
Proof. intros b e w He H. eff_step. by rewrite Nat.add_0_r. Qed.

Lemma spends_asks {A} (f : E -> A) : spends 0 (asks f).
Proof. intros b e w He H. eff_step. by rewrite Nat.add_0_r. Qed.

Lemma spends_throw {A} x : spends 0 (throw (A := A) x).
Proof. intros b e w He H. eff_step. by rewrite Nat.add_0_r. Qed.

Lemma spends_nothrow {A} (m : M E S A) : (forall b, nothrow (Bud b) m) -> spends 0 m.
Proof. intros Hm b e w He H. rewrite Nat.add_0_r. by apply Hm. Qed.

Lemma spends_bind {A B} d d' (m : M E S A) (k : A -> M E S B) :
  spends d m -> (forall a, spends d' (k a)) -> spends (d + d') (bind m k).
Proof.
  intros Hm Hk b e w He H. eff_step. eapply wp_mono; [by apply Hm | |].
  - intros a w' H'. rewrite Nat.add_assoc. by apply Hk.
  - intros x w' H'. apply (bud_le (b + d)); [lia | exact H'].
Qed.

Lemma spends_try {A} d d' (m : M E S A) h :
  spends d m -> (forall x, spends d' (h x)) -> spends (d + d') (try_catch m h).
Proof.
  intros Hm Hk b e w He H. eff_step. eapply wp_mono; [by apply Hm | |].
  - intros a w' H'. apply (bud_le (b + d)); [lia | exact H'].
  - intros x w' H'. rewrite Nat.add_assoc. by apply Hk.
Qed.

Lemma spends_when b d (m : M E S unit) : spends d m -> spends d (when b m).
Proof. intros Hm. destruct b; [done|]. eapply spends_mono; [|apply spends_ret]. lia. Qed.
End Budget.

Arguments spends {E S} ok Bud {A} d m.

(** ** Sums of weights *)

Lemma sum_remove_at {A} (f : A -> nat) l i x :
  l !! i = Some x -> sum_list_with f l = f x + sum_list_with f (remove_at i l).
Proof.
  intros Hi. unfold remove_at. rewrite <- (take_drop_middle l i x Hi) at 1.
  rewrite !sum_list_with_app. simpl. lia.
Qed.

Lemma sum_mono {A} (f g : A -> nat) l :
  (forall x, f x <= g x) -> sum_list_with f l <= sum_list_with g l.
Proof. intros H. induction l as [|x l IH]; simpl; [done|]. specialize (H x). lia. Qed.

Lemma sum_alter {A} (f : A -> nat) (g : A -> A) d c l :
  (forall x, f (g x) <= f x + d) -> sum_list_with f (alter g c l) <= sum_list_with f l + d.
Proof.
  intros Hg. revert c. induction l as [|x l IH]; intros [|c]; simpl; try lia.
  - specialize (Hg x). lia.
  - specialize (IH c). unfold alter in IH. lia.
Qed.

Lemma sum_spend {A} (f : A -> nat) (g : A -> A) d c l x :
  l !! c = Some x -> f (g x) + d = f x -> sum_list_with f (alter g c l) + d = sum_list_with f l.
Proof.
  revert c. induction l as [|y l IH]; intros [|c]; simpl; try done.
  - intros [= ->] H. lia.
  - intros Hc H. specialize (IH c Hc H). unfold alter in IH. lia.
Qed.
