(* ===== verification/Options.v ===== *)
(** * Listener options, accept-error classification and retry backoff

    [listener_options] of include/serveza/listener_options.h and the option
    validation, transient-error test and backoff of src/listener.cpp.
    Durations are [std::chrono::milliseconds]: 64-bit signed counts. *)

From S2P Require Import Prelude Errors.

Local Open Scope Z_scope.

Record listener_options := mk_options {
  listen_backlog : Z;
  shutdown_grace_period : Z;
  max_active_sessions : Z;
  accept_error_backoff : Z;
  max_accept_error_backoff : Z;
  max_consecutive_accept_errors : Z;
  v6_only : bool;
  reuse_address : bool }.

(** The default member initialisers (non-Windows build). *)
Definition default_options : listener_options :=
  {| listen_backlog := 128; shutdown_grace_period := 5000; max_active_sessions := 1024;
     accept_error_backoff := 100; max_accept_error_backoff := 5000;
     max_consecutive_accept_errors := 8; v6_only := true; reuse_address := true |}.

Definition int64_max : Z := 9223372036854775807.

(** Values the C++ types can hold: [int], [std::size_t], and the 64-bit
    representation of [std::chrono::milliseconds]. *)
Definition options_in_range (o : listener_options) : Prop :=
  -2147483648 <= listen_backlog o <= 2147483647 /\
  -int64_max - 1 <= shutdown_grace_period o <= int64_max /\
  0 <= max_active_sessions o < u64_modulus /\
  -int64_max - 1 <= accept_error_backoff o <= int64_max /\
  -int64_max - 1 <= max_accept_error_backoff o <= int64_max /\
  0 <= max_consecutive_accept_errors o < u64_modulus.

Definition invalid_argument (what : string) : exn := other_exception what.

Definition validate_socket_options (o : listener_options) : exn + unit :=
  if shutdown_grace_period o <? 0
  then inl (invalid_argument "shutdown_grace_period must not be negative")
  else inr tt.

Definition validate_acceptor_options (o : listener_options) : exn + unit :=
  if listen_backlog o <=? 0
  then inl (invalid_argument "listen_backlog must be greater than zero")
  else match validate_socket_options o with
  | inl x => inl x
  | inr _ =>
    if max_active_sessions o =? 0
    then inl (invalid_argument "max_active_sessions must be greater than zero")
    else if accept_error_backoff o <? 0
    then inl (invalid_argument "accept_error_backoff must not be negative")
    else if max_accept_error_backoff o <? accept_error_backoff o
    then inl (invalid_argument "max_accept_error_backoff must not be less than accept_error_backoff")
    else if max_consecutive_accept_errors o =? 0
    then inl (invalid_argument "max_consecutive_accept_errors must be greater than zero")
    else inr tt
  end.

Definition is_transient_accept_error (ec : error_code) : bool :=
  ec_eqb ec connection_aborted || ec_eqb ec interrupted ||
  ec_eqb ec try_again || ec_eqb ec would_block ||
  ec_eqb ec no_descriptors || ec_eqb ec no_buffer_space ||
  ec_eqb ec no_memory.

(** The loop of [accept_retry_delay]: [fuel] is the number of indices [i] with
    [1 <= i < consecutive_errors] still to visit.  [/] truncates. *)
Fixpoint retry_delay_loop (o : listener_options) (fuel : nat) (delay : Z) : Z :=
  match fuel with
  | O => delay
  | S fuel' =>
    if delay <? max_accept_error_backoff o
    then retry_delay_loop o fuel'
           (if Z.quot (max_accept_error_backoff o) 2 <? delay
            then max_accept_error_backoff o
            else delay * 2)
    else delay
  end.

Definition accept_retry_delay (o : listener_options) (consecutive_errors : Z) : Z :=
  Z.min (retry_delay_loop o (Z.to_nat (consecutive_errors - 1)) (accept_error_backoff o))
        (max_accept_error_backoff o).

(** ** Validation *)

(** Options a listener can be constructed with. *)
Record valid_acceptor_options (o : listener_options) : Prop := {
  valid_backlog : 0 < listen_backlog o;
  valid_grace : 0 <= shutdown_grace_period o;
  valid_sessions : max_active_sessions o <> 0;
  valid_backoff : 0 <= accept_error_backoff o;
  valid_max_backoff : accept_error_backoff o <= max_accept_error_backoff o;
  valid_errors : max_consecutive_accept_errors o <> 0 }.

Lemma validate_acceptor_options_ok o :
  validate_acceptor_options o = inr tt <-> valid_acceptor_options o.
Proof.
  unfold validate_acceptor_options, validate_socket_options.
  split.
  - intros H. repeat (case_match; try discriminate); constructor; lia.
  - intros []. repeat (case_match; try lia); simplify_eq; done.
Qed.

(** The exceptions of the validation report the violated limit, and only an
    invalid option is rejected. *)
Lemma validate_acceptor_options_error o x :
  validate_acceptor_options o = inl x -> ~ valid_acceptor_options o.
Proof.
  intros H Hv%validate_acceptor_options_ok. congruence.
Qed.

(** ** The backoff *)

Section Backoff.
Variable o : listener_options.
Hypothesis Hbackoff : 0 <= accept_error_backoff o.
Hypothesis Hmax : accept_error_backoff o <= max_accept_error_backoff o.

Abbreviation cap := (max_accept_error_backoff o).

Lemma retry_delay_loop_closed fuel delay :
  0 <= delay <= cap ->
  retry_delay_loop o fuel delay = Z.min (delay * 2 ^ Z.of_nat fuel) cap.
Proof.
  revert delay. induction fuel as [|fuel IH]; intros delay Hd.
  - simpl. rewrite Z.mul_1_r. lia.
  - rewrite Nat2Z.inj_succ, Z.pow_succ_r by lia.
    assert (Hp : 1 <= 2 ^ Z.of_nat fuel) by lia.
    cbn [retry_delay_loop]. destruct (Z.ltb_spec delay cap).
    + rewrite Z.quot_div_nonneg by lia.
      pose proof (Z_div_mod_eq_full cap 2). pose proof (Z.mod_pos_bound cap 2).
      destruct (Z.ltb_spec (cap / 2) delay); rewrite IH by lia; [|f_equal; ring].
      rewrite !Z.min_r; [done | | nia].
      transitivity (delay * 2 * 1); [lia | nia].
    + rewrite Z.min_r; [lia | nia].
Qed.

Lemma retry_delay_loop_range fuel delay :
  0 <= delay <= cap -> delay <= retry_delay_loop o fuel delay <= cap.
Proof.
  intros Hd. rewrite retry_delay_loop_closed by done.
  assert (1 <= 2 ^ Z.of_nat fuel) by lia. nia.
Qed.
End Backoff.

(** C38: the delay before an accept retry is the initial backoff doubled once per
    earlier consecutive error, capped at the configured maximum, for every
    validated option set and every positive error count. *)
Theorem accept_retry_delay_exponential (o : listener_options) (n : Z) :
  validate_acceptor_options o = inr tt -> 1 <= n ->
  accept_retry_delay o n =
    Z.min (accept_error_backoff o * 2 ^ (n - 1)) (max_accept_error_backoff o).
Proof.
  intros [_ _ _ H0 H1 _]%validate_acceptor_options_ok Hn.
  unfold accept_retry_delay.
  rewrite retry_delay_loop_closed by lia. rewrite Z2Nat.id by lia. lia.
Qed.

Lemma accept_retry_delay_exponential_witness :
  accept_retry_delay default_options 5 = Z.min (100 * 2 ^ (5 - 1)) 5000.
Proof.
  apply (accept_retry_delay_exponential default_options 5); [reflexivity | lia].
Defined.
