(* ===== verification/Endpoint.v ===== *)
(** * Printable endpoints

    [detail::endpoint_string] of include/serveza/listener.h.  An Asio endpoint
    is an IP endpoint (an address, through its [to_string] form and [is_v6], and
    a port), a Unix-domain path, or neither; [std::to_string] prints the port, an
    [unsigned short], in decimal.  The printed form is read back by a parser of the
    usual [host:port] notation. *)

From S2P Require Import Prelude.
From Stdlib Require Import Ascii DecimalString DecimalN DecimalFacts.

Record ip_address := mk_address { address_string : string; is_v6 : bool }.

Inductive endpoint :=
| ip_endpoint (address : ip_address) (port : N)
| path_endpoint (path : string)
| other_endpoint.

(** [s.find(c) != npos]. *)
Fixpoint has_char (c : Ascii.ascii) (s : string) : bool :=
  match s with
  | EmptyString => false
  | String a r => Ascii.eqb a c || has_char c r
  end.

Definition colon : Ascii.ascii := ":"%char.

Definition to_string (n : N) : string := NilZero.string_of_uint (N.to_uint n).

(** The value of an [unsigned short]. *)
Definition u16 (n : N) : N := (n mod 65536)%N.

Definition endpoint_string (e : endpoint) : string :=
  match e with
  | ip_endpoint a port =>
    let address := address_string a in
    let address := if has_char colon address then "[" +:+ address +:+ "]" else address in
    address +:+ ":" +:+ to_string (u16 port)
  | path_endpoint path => path
  | other_endpoint => ""
  end.

(** ** Reading an endpoint back *)

(** The text before the first [c] and the text after it. *)
Fixpoint split_at (c : Ascii.ascii) (s : string) : option (string * string) :=
  match s with
  | EmptyString => None
  | String a r =>
    if Ascii.eqb a c then Some (EmptyString, r)
    else match split_at c r with
         | Some (before, after) => Some (String a before, after)
         | None => None
         end
  end.

Definition parse_port (digits : string) : option N :=
  match NilZero.uint_of_string digits with
  | None => None
  | Some d => if (N.of_uint d <? 65536)%N then Some (N.of_uint d) else None
  end.

Definition open_bracket : Ascii.ascii := "["%char.
Definition close_bracket : Ascii.ascii := "]"%char.

(** [host:port]: a host in brackets is an IPv6 address, which has a colon, and one
    without is not. *)
Definition parse_endpoint (s : string) : option endpoint :=
  match s with
  | EmptyString => None
  | String a r =>
    if Ascii.eqb a open_bracket then
      match split_at close_bracket r with
      | Some (host, String c digits) =>
        if Ascii.eqb c colon && has_char colon host
        then ip_endpoint (mk_address host true) <$> parse_port digits else None
      | _ => None
      end
    else
      match split_at colon s with
      | Some (host, digits) => ip_endpoint (mk_address host false) <$> parse_port digits
      | None => None
      end
  end.

(** What [address::to_string] returns: no brackets, and a colon exactly in the form of
    an IPv6 address. *)
Definition printable (a : ip_address) : Prop :=
  has_char open_bracket (address_string a) = false /\ has_char close_bracket (address_string a) = false /\
  has_char colon (address_string a) = is_v6 a.

(** ** Lemmas *)

Lemma split_at_app c s t : has_char c s = false -> split_at c (s +:+ String c t) = Some (s, t).
Proof.
  induction s as [|a s IH]; simpl; [by rewrite Ascii.eqb_refl|].
  intros [-> H]%orb_false_iff. by rewrite IH.
Qed.

Lemma append_assoc (s t u : string) : (s +:+ t) +:+ u = s +:+ t +:+ u.
Proof. induction s as [|a s IH]; [done|]. exact (f_equal (String a) IH). Qed.

Lemma to_uint_not_nil n : N.to_uint n <> Decimal.Nil.
Proof.
  destruct n as [|p]; [done|]. intros H.
  pose proof (DecimalN.Unsigned.of_to (Npos p)) as Hp. by rewrite H in Hp.
Qed.

Lemma parse_printed_port n : parse_port (to_string (u16 n)) = Some (u16 n).
Proof.
  unfold parse_port, to_string. rewrite NilZero.usu by apply to_uint_not_nil.
  rewrite DecimalN.Unsigned.of_to. assert (u16 n < 65536)%N as H by (apply N.mod_lt; done).
  by apply N.ltb_lt in H as ->.
Qed.

(** C39: every printed IP endpoint can be read back.  The parser of the [host:port]
    notation, for which a host in brackets has a colon and one without has none, finds the
    address, its version and the port, a number below 65536, in what [endpoint_string]
    prints, when the text of the address has no brackets and a colon exactly in the form
    of an IPv6 address. *)
Theorem endpoint_string_roundtrip (a : ip_address) (port : N) :
  printable a -> parse_endpoint (endpoint_string (ip_endpoint a port)) = Some (ip_endpoint a (u16 port)).
Proof.
  destruct a as [text v6]. intros (Ho & Hc & Hv). simpl in *. rewrite Hv. destruct v6.
  - assert (Hs := split_at_app close_bracket text (String colon (to_string (u16 port))) Hc).
    rewrite !append_assoc.
    change ("[" +:+ _) with (String open_bracket (text +:+ String close_bracket (String colon (to_string (u16 port))))).
    cbn [parse_endpoint]. rewrite Ascii.eqb_refl, Hs, Ascii.eqb_refl. simpl. by rewrite Hv, parse_printed_port.
  - assert (Hs := split_at_app colon text (to_string (u16 port)) Hv).
    change (":" +:+ _) with (String colon (to_string (u16 port))).
    destruct text as [|c text]; [by simpl; rewrite parse_printed_port|].
    simpl in Ho. apply orb_false_iff in Ho as [Ho _].
    change (parse_endpoint (String c (text +:+ String colon (to_string (u16 port)))) =
      Some (ip_endpoint (mk_address (String c text) false) (u16 port))).
    cbn [parse_endpoint]. rewrite Ho. change (String c (text +:+ ?t)) with (String c text +:+ t).
    by rewrite Hs, parse_printed_port.
Qed.

Lemma endpoint_string_roundtrip_witness :
  endpoint_string (ip_endpoint (mk_address "::1" true) 54321) = "[::1]:54321" /\
  parse_endpoint (endpoint_string (ip_endpoint (mk_address "::1" true) 54321)) =
    Some (ip_endpoint (mk_address "::1" true) (u16 54321)).
Proof. split; [reflexivity|]. apply endpoint_string_roundtrip. repeat split; reflexivity. Defined.
