(* ===== verification/Status.v ===== *)
(** * Lifecycle states, status snapshots and events

    include/serveza/listener_status.h, server_status.h, connection_info.h and
    observer.h. *)

From S2P Require Import Prelude Errors.

Module listener_state.
Inductive t := idle | starting | running | stopping | stopped.

#[global] Instance eq_dec : EqDecision t.
Proof. solve_decision. Defined.
End listener_state.

Module listener_stop_reason.
Inductive t := none | requested | completed | startup_failure | runtime_failure.

#[global] Instance eq_dec : EqDecision t.
Proof. solve_decision. Defined.
End listener_stop_reason.

Module server_state.
Inductive t := idle | starting | running | stopping | stopped.

#[global] Instance eq_dec : EqDecision t.
Proof. solve_decision. Defined.
End server_state.

Record connection_info := mk_connection_info {
  info_id : Z; info_local_endpoint : string; info_remote_endpoint : string }.

(** [connection_info{}]. *)
Definition no_connection : connection_info := mk_connection_info 0 "" "".

Record listener_status := mk_listener_status {
  ls_state : listener_state.t;
  ls_stop_reason : listener_stop_reason.t;
  ls_listener_id : Z;
  ls_generation : Z;
  ls_active_sessions : Z;
  ls_endpoint : string;
  ls_last_error : error_code;
  ls_last_exception : exception_ptr }.

Record server_status := mk_server_status {
  ss_state : server_state.t;
  ss_generation : Z;
  ss_active_sessions : Z;
  ss_ready : bool;
  ss_listeners : list listener_status }.

Inductive listener_event_type :=
| state_changed | accept_failed | session_factory_failed
| session_started | session_stopped | shutdown_forced.

Global Instance listener_event_type_eq_dec : EqDecision listener_event_type.
Proof. solve_decision. Defined.

Record listener_event := mk_listener_event {
  le_type : listener_event_type;
  le_status : listener_status;
  le_connection : connection_info;
  le_error : error_code;
  le_exception : exception_ptr }.

Inductive server_event_type := ev_starting | ev_running | ev_stopping | ev_stopped.

Global Instance server_event_type_eq_dec : EqDecision server_event_type.
Proof. solve_decision. Defined.

Record server_event := mk_server_event {
  se_type : server_event_type;
  se_status : server_status;
  se_error : error_code }.

(** The documented life cycle of a listener generation: the pairs of states a
    [state_changed] event may follow one another with. *)
Inductive lifecycle_edge : listener_state.t -> listener_state.t -> Prop :=
| edge_start_idle : lifecycle_edge listener_state.idle listener_state.starting
| edge_restart : lifecycle_edge listener_state.stopped listener_state.starting
| edge_started : lifecycle_edge listener_state.starting listener_state.running
| edge_start_failed : lifecycle_edge listener_state.starting listener_state.stopped
| edge_stop_idle : lifecycle_edge listener_state.idle listener_state.stopping
| edge_stop_starting : lifecycle_edge listener_state.starting listener_state.stopping
| edge_stop_running : lifecycle_edge listener_state.running listener_state.stopping
| edge_stopped : lifecycle_edge listener_state.stopping listener_state.stopped.

(** [lifecycle_path a l b]: the states [l], visited in this order from [a], end in
    [b] and each follows the previous one along an edge. *)
Inductive lifecycle_path (a : listener_state.t) : list listener_state.t -> listener_state.t -> Prop :=
| path_nil : lifecycle_path a [] a
| path_snoc l b c : lifecycle_path a l b -> lifecycle_edge b c -> lifecycle_path a (l ++ [c]) c.

#[export] Hint Constructors lifecycle_edge lifecycle_path : serveza.
