(* ===== verification/Observers.v ===== *)
(** * Observer registry and subscriptions

    src/observer_registry.cpp ([observer_registry_implementation]) and
    src/observer.cpp ([observer_subscription]).

    An observer is a shared pointer, represented by its address.  Registration
    and removal hold [m_mutex]; [notify_each] copies the registered pointers
    under that mutex and calls them after releasing it, in registration order,
    each in its own [try] block.  The observers are user code: what one of them
    does when called is a parameter, a computation that may throw. *)

From S2P Require Import Prelude Errors Effect.

Local Open Scope Z_scope.
Local Open Scope eff_scope.

Definition observer := N.

Record entry := mk_entry { entry_id : Z; entry_value : observer }.

Record observer_registry := mk_registry { m_values : list entry; m_next_id : Z }.

Definition empty_registry : observer_registry := mk_registry [] 0.

Definition add (value : observer) (r : observer_registry) : Z * observer_registry :=
  let id := u64 (m_next_id r + 1) in
  (id, mk_registry (m_values r ++ [mk_entry id value]) id).

(** [erase(remove_if(..., item.id == id), end())] keeps the other entries in order. *)
Definition remove (id : Z) (r : observer_registry) : observer_registry :=
  mk_registry (List.filter (fun item => negb (entry_id item =? id)) (m_values r)) (m_next_id r).

(** The copy [notify_each] takes under [m_mutex]. *)
Definition snapshot (r : observer_registry) : list observer := map entry_value (m_values r).

(** [notify_each]: the whole body is in a [try] block, each callback in its own.
    [registry] reads the registry out of the surrounding state. *)
Definition notify_each {E S} (registry : S -> observer_registry)
    (function : observer -> M E S unit) : M E S unit :=
  noexcept (try_catch
    (observers <- gets (fun s => snapshot (registry s));;
     match observers with
     | [] => ret tt
     | _ => for_each observers (fun value => try_catch (function value) (fun _ => ret tt))
     end)
    (fun _ => ret tt)).

(** ** Subscriptions *)

(** [m_registry] is a weak pointer: [true] while it refers to the registry. *)
Record observer_subscription := mk_subscription { m_registry : bool; m_id : Z }.

Definition null_subscription : observer_subscription := mk_subscription false 0.

(** [server::observe]: a null observer is refused, otherwise the registry hands
    out the id the subscription keeps. *)
Definition observe (value : option observer) (r : observer_registry)
    : exn + observer_subscription * observer_registry :=
  match value with
  | None => inl (other_exception "observer must not be null")
  | Some v => let '(id, r') := add v r in inr (mk_subscription true id, r')
  end.

(** [observer_subscription::reset]; [alive]: [m_registry.lock()] succeeds. *)
Definition reset (alive : bool) (s : observer_subscription) (r : observer_registry)
    : observer_subscription * observer_registry :=
  if m_id s =? 0 then (s, r)
  else (null_subscription, if m_registry s && alive then remove (m_id s) r else r).

(** Move construction: (new object, moved-from object). *)
Definition move_construct (other : observer_subscription)
    : observer_subscription * observer_subscription :=
  (mk_subscription (m_registry other) (m_id other), null_subscription).

(** Move assignment: (target, source, registry).  [same]: [this == &other], so
    that [self] and [other] are one object. *)
Definition move_assign (alive same : bool) (self other : observer_subscription)
    (r : observer_registry)
    : observer_subscription * observer_subscription * observer_registry :=
  if same then (self, self, r)
  else
    let '(_, r') := reset alive self r in
    (mk_subscription (m_registry other) (m_id other), null_subscription, r').

Definition subscription_bool (s : observer_subscription) : bool := negb (m_id s =? 0).

(** ** The registry invariant *)

(** Ids were handed out by the counter, which has not wrapped, and are distinct. *)
Record registry_inv (r : observer_registry) : Prop := {
  reg_next : 0 <= m_next_id r < u64_modulus;
  reg_ids : Forall (fun i => 0 < entry_id i <= m_next_id r) (m_values r);
  reg_nodup : NoDup (map entry_id (m_values r)) }.

Lemma registry_inv_empty : registry_inv empty_registry.
Proof. split; simpl; [done | constructor | constructor]. Qed.

Lemma add_inv v r :
  registry_inv r -> m_next_id r + 1 < u64_modulus -> registry_inv (snd (add v r)).
Proof.
  intros [Hn Hi Hd] Hw. unfold add. rewrite u64_small by lia. split; simpl; [lia | |].
  - apply Forall_app. split.
    + eapply Forall_impl; [done|]. simpl; lia.
    + repeat constructor; simpl; lia.
  - rewrite map_app. simpl. apply NoDup_app. split_and!; [done | | by apply NoDup_singleton].
    intros x Hx ->%list_elem_of_singleton.
    apply list_elem_of_fmap in Hx as (i & Hid & Hi').
    rewrite Forall_forall in Hi. apply Hi in Hi'. simpl in *. lia.
Qed.

Lemma filter_map_nodup {A B} (f : A -> B) (p : A -> bool) l :
  NoDup (map f l) -> NoDup (map f (List.filter p l)).
Proof.
  induction l as [|x l IH]; simpl; [done|].
  intros [Hx Hl]%NoDup_cons. destruct (p x); simpl; [|auto].
  constructor; [|auto]. contradict Hx.
  apply list_elem_of_fmap in Hx as (y & -> & Hy). apply list_elem_of_fmap_2.
  apply list_elem_of_In, List.filter_In in Hy as [Hy _]. by apply list_elem_of_In.
Qed.

Lemma remove_inv id r : registry_inv r -> registry_inv (remove id r).
Proof.
  intros [Hn Hi Hd]. split; simpl; [done | | by apply filter_map_nodup].
  rewrite Forall_forall in Hi |- *. intros x Hx.
  apply Hi, list_elem_of_In. apply list_elem_of_In, List.filter_In in Hx. tauto.
Qed.

Lemma filter_negb_id (l : list entry) id :
  Forall (fun i => entry_id i <> id) l ->
  List.filter (fun item => negb (entry_id item =? id)) l = l.
Proof.
  induction 1 as [|x l Hx _ IH]; simpl; [done|].
  destruct (Z.eqb_spec (entry_id x) id); [done|]. simpl. by rewrite IH.
Qed.

(** A subscription owns exactly its own registration.  Registering an
    observer appends it to the notified observers, and resetting the
    subscription it returned restores the previous ones, in order, leaving the
    subscription empty. *)
Theorem observe_reset_roundtrip (r : observer_registry) (v : observer) :
  registry_inv r -> m_next_id r + 1 < u64_modulus ->
  exists s r',
    observe (Some v) r = inr (s, r') /\
    snapshot r' = snapshot r ++ [v] /\
    subscription_bool s = true /\
    snapshot (snd (reset true s r')) = snapshot r /\
    subscription_bool (fst (reset true s r')) = false.
Proof.
  intros [Hn Hi Hd] Hw.
  assert (Hid : u64 (m_next_id r + 1) = m_next_id r + 1) by (apply u64_small; lia).
  eexists _, _. split; [reflexivity|]. unfold snapshot, subscription_bool, reset. simpl.
  rewrite Hid, map_app. destruct (Z.eqb_spec (m_next_id r + 1) 0); [lia|]. simpl.
  split_and!; [done | done | | done].
  rewrite List.filter_app. simpl. rewrite Z.eqb_refl. simpl. rewrite app_nil_r.
  rewrite filter_negb_id; [done|].
  eapply Forall_impl; [done|]. simpl; lia.
Qed.

Lemma observe_reset_roundtrip_witness :
  exists s r', observe (Some 7%N) empty_registry = inr (s, r') /\
    snapshot r' = snapshot empty_registry ++ [7%N] /\
    subscription_bool s = true /\
    snapshot (snd (reset true s r')) = snapshot empty_registry /\
    subscription_bool (fst (reset true s r')) = false.
Proof. apply (observe_reset_roundtrip empty_registry 7%N registry_inv_empty). reflexivity. Defined.

(** ** Notification *)

(** Notification reaches every observer registered when it began, once each
    and in registration order, even when callbacks throw and even when a
    callback changes the registry; and no exception leaves it.
    [calls] is the log of the callbacks in the state. *)
Theorem notify_each_all {E S} (registry : S -> observer_registry) (calls : S -> list observer)
    (function : observer -> M E S unit) (e : E) (s : S) :
  (forall v e s, wp (function v) e s
     (fun _ s' => calls s' = calls s ++ [v]) (fun _ s' => calls s' = calls s ++ [v])) ->
  exists s', notify_each registry function e s = Ret tt s' /\
             calls s' = calls s ++ snapshot (registry s).
Proof.
  intros Hf.
  assert (H : wp (notify_each registry function) e s
     (fun _ s' => calls s' = calls s ++ snapshot (registry s)) (fun _ _ => False)).
  { unfold notify_each. do 4 eff_step. destruct (snapshot (registry s)) as [|o l] eqn:Hs.
    - apply wp_ret. by rewrite app_nil_r.
    - eapply wp_mono;
        [eapply (wp_for_each _ _ e (fun done s' => calls s' = calls s ++ done) (fun _ _ => False))
        | by auto | done].
      + intros done x rest s' _ Hc. apply wp_try.
        eapply wp_mono; [apply Hf| |]; simpl; intros ? s'' Hs'';
          [|apply wp_ret]; by rewrite Hs'', Hc, app_assoc.
      + by rewrite app_nil_r. }
  unfold wp in H. destruct (notify_each registry function e s) as [[] s'|?|?]; [|done..].
  by exists s'.
Qed.

Lemma notify_each_all_witness :
  exists s', notify_each (E := unit) (S := list observer)
      (fun _ => mk_registry [mk_entry 1 4%N; mk_entry 2 6%N] 2)
      (fun v _ log => if (v =? 4)%N then Throw (other_exception "observer") (log ++ [v])
                      else Ret tt (log ++ [v])) tt [] = Ret tt s' /\
    s' = [] ++ [4%N; 6%N].
Proof.
  apply (notify_each_all (fun _ => mk_registry [mk_entry 1 4%N; mk_entry 2 6%N] 2) (fun s => s)).
  intros v e s. unfold wp. destruct (v =? 4)%N; reflexivity.
Defined.
