(* ===== verification/ListenerBase.v ===== *)
(** * The part of a listener both listener classes share

    [basic_acceptor_listener] (include/serveza/listener.h) and
    [basic_socket_listener] (include/serveza/detail/basic_socket_listener.h) hold
    the same metadata, waiter list and completion machinery, written out twice in
    the templates.  It is modelled once here, over a type [T] of further posted
    tasks and a type [X] of further state; the two listener files instantiate it.

    A posted closure is a [task] in the queue of an executor.  Asio runs the
    tasks of one strand one at a time; which pending task runs next is left to
    the step relation of the client file.  [post] may throw: the environment of
    the step says for which executor and task it does.

    A completion handler is move-only: it is identified by the number [h_op] of
    the asynchronous operation it belongs to, and carries its associated executor,
    allocator and whether its cancellation slot is connected.  [None] in the
    place of a handler is a moved-from one. *)

From S2P Require Import Prelude Errors Effect Options Endpoint Status Observers.

Local Open Scope Z_scope.
Local Open Scope eff_scope.

(** ** Executors, completion handlers and their completion (src/listener.cpp) *)

Inductive executor :=
| listener_strand
| connection_strand (c : nat)
| system_executor
| user_executor (n : N).

Global Instance executor_eq_dec : EqDecision executor.
Proof. solve_decision. Defined.

Record completion_handler := mk_handler {
  h_op : nat;
  h_executor : option executor;
  h_allocator : option N;
  h_slot : bool;
  h_work : option executor }.

(** [get_associated_executor(handler, fallback)]; an empty handler has none. *)
Definition get_associated_executor (h : option completion_handler) (fallback : executor) : executor :=
  match h with
  | Some h => default fallback (h_executor h)
  | None => fallback
  end.

(** [track_completion_work]: the handler rebound to its associated executor, with
    the same allocator and slot, holding outstanding work on that executor. *)
Definition track_completion_work (fallback : executor) (h : completion_handler) : completion_handler :=
  let executor := get_associated_executor (Some h) fallback in
  {| h_op := h_op h; h_executor := Some executor; h_allocator := h_allocator h;
     h_slot := h_slot h; h_work := Some executor |}.

(** ** Tasks, waiters and the world *)

Inductive task (T : Type) :=
| TStart (h : completion_handler)                          (* posted by do_async_start *)
| TWait (id : Z) (h : completion_handler)                  (* posted by do_async_wait *)
| TCancelWait (id : Z)                                     (* posted by a wait's cancellation *)
| TStop                                                    (* posted by request_stop *)
| TDispatch (on : executor) (h : option completion_handler) (ec : error_code) (* complete_on *)
| TExt (t : T).
Arguments TStart {T}.
Arguments TWait {T}.
Arguments TCancelWait {T}.
Arguments TStop {T}.
Arguments TDispatch {T}.
Arguments TExt {T}.

Record wait_operation := mk_wait { wo_id : Z; wo_op : nat; wo_handler : option completion_handler }.

(** The lambda a cancellation slot was assigned. *)
Inductive slot_handler := cancel_start | cancel_pending_wait (id : Z).

(** Constants of a listener object. *)
Record config := mk_config {
  c_id : Z; c_configured_endpoint : endpoint; c_options : listener_options }.

Record env (T Y : Type) := mk_env {
  e_post : executor -> task T -> option exn;
  e_ext : Y }.
Arguments mk_env {T Y}.
Arguments e_post {T Y}.
Arguments e_ext {T Y}.

(** The listener's fields ([m_]) and what surrounds it ([w_]): posted tasks,
    operations whose [cancelled] flag is set, assigned cancellation slots, the
    next operation number, handlers dispatched to their executor, the shared
    registry ([m_observers], [None] when null), the events published to it and
    the observer callbacks they caused. *)
Record world (T X : Type) := mk_world {
  m_state : listener_state.t;
  m_stop_reason : listener_stop_reason.t;
  m_last_error : error_code;
  m_last_exception : exception_ptr;
  m_endpoint : string;
  m_generation : Z;
  m_active_sessions : Z;
  m_next_waiter_id : Z;
  m_terminal_error : error_code;
  m_waiters : list wait_operation;
  w_queue : list (executor * task T);
  w_cancelled : gset nat;
  w_slots : gmap nat slot_handler;
  w_next_op : nat;
  w_completed : list (executor * nat * error_code);
  w_registry : option observer_registry;
  w_events : list listener_event;
  w_calls : list (observer * listener_event);
  w_ext : X }.
Arguments mk_world {T X}.
Arguments m_state {T X}.
Arguments m_stop_reason {T X}.
Arguments m_last_error {T X}.
Arguments m_last_exception {T X}.
Arguments m_endpoint {T X}.
Arguments m_generation {T X}.
Arguments m_active_sessions {T X}.
Arguments m_next_waiter_id {T X}.
Arguments m_terminal_error {T X}.
Arguments m_waiters {T X}.
Arguments w_queue {T X}.
Arguments w_cancelled {T X}.
Arguments w_slots {T X}.
Arguments w_next_op {T X}.
Arguments w_completed {T X}.
Arguments w_registry {T X}.
Arguments w_events {T X}.
Arguments w_calls {T X}.
Arguments w_ext {T X}.

(** Field updates. *)
Section Setters.
Context {T X : Type}.

Definition set_m_state (v : listener_state.t) (w : world T X) : world T X :=
  mk_world v (m_stop_reason w) (m_last_error w) (m_last_exception w) (m_endpoint w)
    (m_generation w) (m_active_sessions w) (m_next_waiter_id w) (m_terminal_error w) (m_waiters
    w) (w_queue w) (w_cancelled w) (w_slots w) (w_next_op w) (w_completed w) (w_registry w)
    (w_events w) (w_calls w) (w_ext w).

Definition set_m_stop_reason (v : listener_stop_reason.t) (w : world T X) : world T X :=
  mk_world (m_state w) v (m_last_error w) (m_last_exception w) (m_endpoint w) (m_generation w)
    (m_active_sessions w) (m_next_waiter_id w) (m_terminal_error w) (m_waiters w) (w_queue w)
    (w_cancelled w) (w_slots w) (w_next_op w) (w_completed w) (w_registry w) (w_events w)
    (w_calls w) (w_ext w).

Definition set_m_last_error (v : error_code) (w : world T X) : world T X :=
  mk_world (m_state w) (m_stop_reason w) v (m_last_exception w) (m_endpoint w) (m_generation
    w) (m_active_sessions w) (m_next_waiter_id w) (m_terminal_error w) (m_waiters w) (w_queue w)
    (w_cancelled w) (w_slots w) (w_next_op w) (w_completed w) (w_registry w) (w_events w)
    (w_calls w) (w_ext w).

Definition set_m_last_exception (v : exception_ptr) (w : world T X) : world T X :=
  mk_world (m_state w) (m_stop_reason w) (m_last_error w) v (m_endpoint w) (m_generation w)
    (m_active_sessions w) (m_next_waiter_id w) (m_terminal_error w) (m_waiters w) (w_queue w)
    (w_cancelled w) (w_slots w) (w_next_op w) (w_completed w) (w_registry w) (w_events w)
    (w_calls w) (w_ext w).

Definition set_m_endpoint (v : string) (w : world T X) : world T X :=
  mk_world (m_state w) (m_stop_reason w) (m_last_error w) (m_last_exception w) v (m_generation
    w) (m_active_sessions w) (m_next_waiter_id w) (m_terminal_error w) (m_waiters w) (w_queue w)
    (w_cancelled w) (w_slots w) (w_next_op w) (w_completed w) (w_registry w) (w_events w)
    (w_calls w) (w_ext w).

Definition set_m_generation (v : Z) (w : world T X) : world T X :=
  mk_world (m_state w) (m_stop_reason w) (m_last_error w) (m_last_exception w) (m_endpoint w)
    v (m_active_sessions w) (m_next_waiter_id w) (m_terminal_error w) (m_waiters w) (w_queue w)
    (w_cancelled w) (w_slots w) (w_next_op w) (w_completed w) (w_registry w) (w_events w)
    (w_calls w) (w_ext w).

Definition set_m_active_sessions (v : Z) (w : world T X) : world T X :=
  mk_world (m_state w) (m_stop_reason w) (m_last_error w) (m_last_exception w) (m_endpoint w)
    (m_generation w) v (m_next_waiter_id w) (m_terminal_error w) (m_waiters w) (w_queue w)
    (w_cancelled w) (w_slots w) (w_next_op w) (w_completed w) (w_registry w) (w_events w)
    (w_calls w) (w_ext w).

Definition set_m_next_waiter_id (v : Z) (w : world T X) : world T X :=
  mk_world (m_state w) (m_stop_reason w) (m_last_error w) (m_last_exception w) (m_endpoint w)
    (m_generation w) (m_active_sessions w) v (m_terminal_error w) (m_waiters w) (w_queue w)
    (w_cancelled w) (w_slots w) (w_next_op w) (w_completed w) (w_registry w) (w_events w)
    (w_calls w) (w_ext w).

Definition set_m_terminal_error (v : error_code) (w : world T X) : world T X :=
  mk_world (m_state w) (m_stop_reason w) (m_last_error w) (m_last_exception w) (m_endpoint w)
    (m_generation w) (m_active_sessions w) (m_next_waiter_id w) v (m_waiters w) (w_queue w)
    (w_cancelled w) (w_slots w) (w_next_op w) (w_completed w) (w_registry w) (w_events w)
    (w_calls w) (w_ext w).

Definition set_m_waiters (v : list wait_operation) (w : world T X) : world T X :=
  mk_world (m_state w) (m_stop_reason w) (m_last_error w) (m_last_exception w) (m_endpoint w)
    (m_generation w) (m_active_sessions w) (m_next_waiter_id w) (m_terminal_error w) v (w_queue
    w) (w_cancelled w) (w_slots w) (w_next_op w) (w_completed w) (w_registry w) (w_events w)
    (w_calls w) (w_ext w).

Definition set_w_queue (v : list (executor * task T)) (w : world T X) : world T X :=
  mk_world (m_state w) (m_stop_reason w) (m_last_error w) (m_last_exception w) (m_endpoint w)
    (m_generation w) (m_active_sessions w) (m_next_waiter_id w) (m_terminal_error w) (m_waiters
    w) v (w_cancelled w) (w_slots w) (w_next_op w) (w_completed w) (w_registry w) (w_events w)
    (w_calls w) (w_ext w).

Definition set_w_cancelled (v : gset nat) (w : world T X) : world T X :=
  mk_world (m_state w) (m_stop_reason w) (m_last_error w) (m_last_exception w) (m_endpoint w)
    (m_generation w) (m_active_sessions w) (m_next_waiter_id w) (m_terminal_error w) (m_waiters
    w) (w_queue w) v (w_slots w) (w_next_op w) (w_completed w) (w_registry w) (w_events w)
    (w_calls w) (w_ext w).

Definition set_w_slots (v : gmap nat slot_handler) (w : world T X) : world T X :=
  mk_world (m_state w) (m_stop_reason w) (m_last_error w) (m_last_exception w) (m_endpoint w)
    (m_generation w) (m_active_sessions w) (m_next_waiter_id w) (m_terminal_error w) (m_waiters
    w) (w_queue w) (w_cancelled w) v (w_next_op w) (w_completed w) (w_registry w) (w_events w)
    (w_calls w) (w_ext w).

Definition set_w_next_op (v : nat) (w : world T X) : world T X :=
  mk_world (m_state w) (m_stop_reason w) (m_last_error w) (m_last_exception w) (m_endpoint w)
    (m_generation w) (m_active_sessions w) (m_next_waiter_id w) (m_terminal_error w) (m_waiters
    w) (w_queue w) (w_cancelled w) (w_slots w) v (w_completed w) (w_registry w) (w_events w)
    (w_calls w) (w_ext w).

Definition set_w_completed (v : list (executor * nat * error_code)) (w : world T X) : world T X :=
  mk_world (m_state w) (m_stop_reason w) (m_last_error w) (m_last_exception w) (m_endpoint w)
    (m_generation w) (m_active_sessions w) (m_next_waiter_id w) (m_terminal_error w) (m_waiters
    w) (w_queue w) (w_cancelled w) (w_slots w) (w_next_op w) v (w_registry w) (w_events w)
    (w_calls w) (w_ext w).

Definition set_w_registry (v : option observer_registry) (w : world T X) : world T X :=
  mk_world (m_state w) (m_stop_reason w) (m_last_error w) (m_last_exception w) (m_endpoint w)
    (m_generation w) (m_active_sessions w) (m_next_waiter_id w) (m_terminal_error w) (m_waiters
    w) (w_queue w) (w_cancelled w) (w_slots w) (w_next_op w) (w_completed w) v (w_events w)
    (w_calls w) (w_ext w).

Definition set_w_events (v : list listener_event) (w : world T X) : world T X :=
  mk_world (m_state w) (m_stop_reason w) (m_last_error w) (m_last_exception w) (m_endpoint w)
    (m_generation w) (m_active_sessions w) (m_next_waiter_id w) (m_terminal_error w) (m_waiters
    w) (w_queue w) (w_cancelled w) (w_slots w) (w_next_op w) (w_completed w) (w_registry w) v
    (w_calls w) (w_ext w).

Definition set_w_calls (v : list (observer * listener_event)) (w : world T X) : world T X :=
  mk_world (m_state w) (m_stop_reason w) (m_last_error w) (m_last_exception w) (m_endpoint w)
    (m_generation w) (m_active_sessions w) (m_next_waiter_id w) (m_terminal_error w) (m_waiters
    w) (w_queue w) (w_cancelled w) (w_slots w) (w_next_op w) (w_completed w) (w_registry w)
    (w_events w) v (w_ext w).

Definition set_w_ext (v : X) (w : world T X) : world T X :=
  mk_world (m_state w) (m_stop_reason w) (m_last_error w) (m_last_exception w) (m_endpoint w)
    (m_generation w) (m_active_sessions w) (m_next_waiter_id w) (m_terminal_error w) (m_waiters
    w) (w_queue w) (w_cancelled w) (w_slots w) (w_next_op w) (w_completed w) (w_registry w)
    (w_events w) (w_calls w) v.
End Setters.

(** ** Operations *)

Section Operations.
Context {T X Y : Type} (cfg : config).

Abbreviation M := (M (env T Y) (world T X)).

(** [boost::asio::post(ex, t)]. *)
Definition post (ex : executor) (t : task T) : M unit :=
  may_throw (fun e => e_post e ex t);;
  modify (fun w => set_w_queue (w_queue w ++ [(ex, t)]) w).

Definition clear_slot (op : nat) : M unit :=
  modify (fun w => set_w_slots (delete op (w_slots w)) w).

(** [complete_on]: never inline, through the fallback executor first. *)
Definition complete_on (fallback : executor) (h : option completion_handler) (ec : error_code) : M unit :=
  post fallback (TDispatch (get_associated_executor h fallback) h ec).

(** [complete_on_associated]: the same, through the system executor. *)
Definition complete_on_associated (h : option completion_handler) (ec : error_code) : M unit :=
  post system_executor (TDispatch (get_associated_executor h system_executor) h ec).

Definition state : M listener_state.t := gets m_state.

Definition status_of (w : world T X) : listener_status :=
  {| ls_state := m_state w; ls_stop_reason := m_stop_reason w; ls_listener_id := c_id cfg;
     ls_generation := m_generation w; ls_active_sessions := m_active_sessions w;
     ls_endpoint := m_endpoint w; ls_last_error := m_last_error w;
     ls_last_exception := m_last_exception w |}.

Definition status : M listener_status := gets status_of.

(** [m_observers->notify(event)]; the callbacks are logged. *)
Definition notify (event : listener_event) : M unit :=
  modify (fun w => set_w_events (w_events w ++ [event]) w);;
  notify_each (fun w => default empty_registry (w_registry w))
    (fun value => modify (fun w => set_w_calls (w_calls w ++ [(value, event)]) w)).

Definition emit (type : listener_event_type) (connection : connection_info)
    (ec : error_code) (ep : exception_ptr) : M unit :=
  noexcept (
    observers <- gets w_registry;;
    match observers with
    | None => ret tt
    | Some _ =>
      try_catch
        (st <- status;;
         notify {| le_type := type; le_status := st; le_connection := connection;
                   le_error := ec; le_exception := ep |})
        (fun _ => ret tt)
    end).

Definition transition_to (value : listener_state.t) : M unit :=
  modify (set_m_state value);;
  emit state_changed no_connection success None.

Definition clear_diagnostics : M unit :=
  modify (fun w => set_m_last_exception None
                   (set_m_last_error success
                   (set_m_stop_reason listener_stop_reason.none w))).

Definition record_diagnostic (ec : error_code) (ep : exception_ptr) : M unit :=
  modify (fun w => set_m_last_exception ep (set_m_last_error ec w)).

Definition set_stop_reason (reason : listener_stop_reason.t) : M unit :=
  modify (set_m_stop_reason reason).

Definition stop_reason : M listener_stop_reason.t := gets m_stop_reason.

(** [request_stop]: from any thread. *)
Definition request_stop : M unit :=
  noexcept (
    current <- state;;
    if bool_decide (current = listener_state.stopped) then ret tt
    else try_catch (post listener_strand TStop) (fun _ => ret tt)).

(** A handler the caller of [async_start] or [async_wait] supplies, before it is
    given its operation number. *)
Definition fresh_op : M nat :=
  op <- gets w_next_op;;
  modify (set_w_next_op (S op));;
  ret op.

Definition assign_slot (h : completion_handler) (f : slot_handler) : M unit :=
  when (h_slot h) (modify (fun w => set_w_slots (<[h_op h := f]> (w_slots w)) w)).

(** [do_async_start]: everything up to the posted closure, which is [TStart]. *)
Definition do_async_start (ex : option executor) (alloc : option N) (slot : bool) : M unit :=
  op <- fresh_op;;
  let handler := track_completion_work listener_strand (mk_handler op ex alloc slot None) in
  assign_slot handler cancel_start;;
  try_catch (post listener_strand (TStart handler))
    (fun x => complete_on_associated (Some handler) (exception_to_error (Some x))).

(** [do_async_wait]: the waiter id comes from an atomic counter. *)
Definition do_async_wait (ex : option executor) (alloc : option N) (slot : bool) : M unit :=
  op <- fresh_op;;
  let handler := track_completion_work listener_strand (mk_handler op ex alloc slot None) in
  modify (fun w => set_m_next_waiter_id (u64 (m_next_waiter_id w + 1)) w);;
  id <- gets m_next_waiter_id;;
  assign_slot handler (cancel_pending_wait id);;
  try_catch (post listener_strand (TWait id handler))
    (fun x =>
       clear_slot op;;
       complete_on_associated (Some handler) (exception_to_error (Some x))).

(** The caller emits a cancellation of the given type (0 is
    [cancellation_type::none]) on the slot of operation [op]. *)
Definition emit_cancellation (op : nat) (type : Z) : M unit :=
  slots <- gets w_slots;;
  match slots !! op with
  | None => ret tt
  | Some cancel_start =>
    when (negb (type =? 0)) (modify (fun w => set_w_cancelled ({[op]} ∪ w_cancelled w) w))
  | Some (cancel_pending_wait id) =>
    if type =? 0 then ret tt
    else
      modify (fun w => set_w_cancelled ({[op]} ∪ w_cancelled w) w);;
      try_catch (post listener_strand (TCancelWait id)) (fun _ => ret tt)
  end.

(** The closure [do_async_start] posts; [start_on_strand] is the listener's own. *)
Definition run_start (start_on_strand : completion_handler -> M unit) (h : completion_handler) : M unit :=
  clear_slot (h_op h);;
  cancelled <- gets (fun w => bool_decide (h_op h ∈ w_cancelled w));;
  if cancelled : bool
  then complete_on listener_strand (Some h) operation_aborted
  else start_on_strand h.

(** The closure [do_async_wait] posts. *)
Definition run_wait (id : Z) (h : completion_handler) : M unit :=
  cancelled <- gets (fun w => bool_decide (h_op h ∈ w_cancelled w));;
  current <- state;;
  if cancelled : bool then
    clear_slot (h_op h);;
    complete_on listener_strand (Some h) operation_aborted
  else if bool_decide (current = listener_state.stopped) then
    clear_slot (h_op h);;
    terminal <- gets m_terminal_error;;
    complete_on listener_strand (Some h) terminal
  else
    modify (fun w => set_m_waiters (m_waiters w ++ [mk_wait id (h_op h) (Some h)]) w).

Definition cancel_wait (id : Z) : M unit :=
  waiters <- gets m_waiters;;
  match find_first (fun value => wo_id value =? id) waiters with
  | None => ret tt
  | Some operation =>
    modify (set_m_waiters (erase_first (fun value => wo_id value =? id) waiters));;
    clear_slot (wo_op operation);;
    complete_on listener_strand (wo_handler operation) operation_aborted
  end.

(** The loop of [finish] over [m_waiters]: element [i] is visited in place, its
    handler is moved from before [complete_on] can throw. *)
Definition complete_waiter (i : nat) : M unit :=
  waiters <- gets m_waiters;;
  match waiters !! i with
  | None => ret tt
  | Some waiter =>
    clear_slot (wo_op waiter);;
    modify (set_m_waiters (<[i := mk_wait (wo_id waiter) (wo_op waiter) None]> waiters));;
    terminal <- gets m_terminal_error;;
    complete_on listener_strand (wo_handler waiter) terminal
  end.

Definition complete_waiters : M unit :=
  waiters <- gets m_waiters;;
  for_each (seq 0 (length waiters)) complete_waiter;;
  modify (set_m_waiters []).

(** [finish] records the terminal error only when no diagnostic is present. *)
Definition keep_first_error (ec : error_code) : M unit :=
  when (failed ec)
    (modify (fun w =>
       if negb (failed (m_last_error w)) && bool_decide (m_last_exception w = None)
       then set_m_last_error ec w else w)).

(** The closure [complete_on] posts: the handler is dispatched to its executor;
    a moved-from one throws. *)
Definition run_dispatch (on : executor) (h : option completion_handler) (ec : error_code) : M unit :=
  match h with
  | Some h => modify (fun w => set_w_completed (w_completed w ++ [(on, h_op h, ec)]) w)
  | None => throw (other_exception "bad_function_call")
  end.
End Operations.
