(* ===== verification/Connection.v ===== *)
(** * One accepted connection

    [basic_acceptor_listener::connection_state] of include/serveza/listener.h,
    the state type of the acceptor listener it lives in, and the Asio objects the
    listener uses: the acceptor, the two timers and their outstanding operations.

    Connections are shared objects: [m_sessions], posted closures and the user's
    session all refer to one.  They live in the heap [a_connections], allocated
    at the end and never freed, and are referred to by their address.

    The user's session is a parameter: the environment says what its [async_run]
    does (report an exception, complete its handler inline, throw, or return with
    the handler kept for later). *)

From S2P Require Import Prelude Errors Effect Options Endpoint Status Observers ListenerBase.

Local Open Scope Z_scope.
Local Open Scope eff_scope.

(** [cn_signalled]: the cancellation signal of the session was emitted.
    [cn_session]: the session still holds the completion handler. *)
Record connection := mk_connection {
  cn_info : connection_info;
  cn_socket_open : bool;
  cn_signalled : bool;
  cn_ep : exception_ptr;
  cn_finished : bool;
  cn_session : bool }.

Definition set_cn_info (v : connection_info) (w : connection) : connection :=
  mk_connection v (cn_socket_open w) (cn_signalled w) (cn_ep w) (cn_finished w) (cn_session
    w).

Definition set_cn_socket_open (v : bool) (w : connection) : connection :=
  mk_connection (cn_info w) v (cn_signalled w) (cn_ep w) (cn_finished w) (cn_session w).

Definition set_cn_signalled (v : bool) (w : connection) : connection :=
  mk_connection (cn_info w) (cn_socket_open w) v (cn_ep w) (cn_finished w) (cn_session w).

Definition set_cn_ep (v : exception_ptr) (w : connection) : connection :=
  mk_connection (cn_info w) (cn_socket_open w) (cn_signalled w) v (cn_finished w) (cn_session
    w).

Definition set_cn_finished (v : bool) (w : connection) : connection :=
  mk_connection (cn_info w) (cn_socket_open w) (cn_signalled w) (cn_ep w) v (cn_session w).

Definition set_cn_session (v : bool) (w : connection) : connection :=
  mk_connection (cn_info w) (cn_socket_open w) (cn_signalled w) (cn_ep w) (cn_finished w) v.

(** Outstanding asynchronous operations, with the delay of a timer wait. *)
Inductive io_op := IoAccept | IoRetryTimer (delay : Z) | IoShutdownTimer (delay : Z).

Global Instance io_op_eq_dec : EqDecision io_op.
Proof. solve_decision. Defined.

(** Closures posted by the acceptor listener and its connections, and the
    completions of its outstanding operations. *)
Inductive acceptor_task :=
| TAccepted (ec : error_code)
| TRetryTimer (ec : error_code)
| TShutdownTimer (ec : error_code)
| TSessionFinished (info : connection_info) (ec : error_code) (ep : exception_ptr)
| TConnStart (c : nat)
| TConnRequestStop (c : nat)
| TConnForceClose (c : nat).

Record acceptor_state := mk_acceptor_state {
  m_acceptor_open : bool;
  m_next_connection_id : Z;
  m_consecutive_accept_errors : Z;
  m_accept_pending : bool;
  m_sessions : list nat;
  a_connections : list connection;
  a_io : list io_op }.

Definition set_m_acceptor_open (v : bool) (w : acceptor_state) : acceptor_state :=
  mk_acceptor_state v (m_next_connection_id w) (m_consecutive_accept_errors w)
    (m_accept_pending w) (m_sessions w) (a_connections w) (a_io w).

Definition set_m_next_connection_id (v : Z) (w : acceptor_state) : acceptor_state :=
  mk_acceptor_state (m_acceptor_open w) v (m_consecutive_accept_errors w) (m_accept_pending w)
    (m_sessions w) (a_connections w) (a_io w).

Definition set_m_consecutive_accept_errors (v : Z) (w : acceptor_state) : acceptor_state :=
  mk_acceptor_state (m_acceptor_open w) (m_next_connection_id w) v (m_accept_pending w)
    (m_sessions w) (a_connections w) (a_io w).

Definition set_m_accept_pending (v : bool) (w : acceptor_state) : acceptor_state :=
  mk_acceptor_state (m_acceptor_open w) (m_next_connection_id w) (m_consecutive_accept_errors
    w) v (m_sessions w) (a_connections w) (a_io w).

Definition set_m_sessions (v : list nat) (w : acceptor_state) : acceptor_state :=
  mk_acceptor_state (m_acceptor_open w) (m_next_connection_id w) (m_consecutive_accept_errors
    w) (m_accept_pending w) v (a_connections w) (a_io w).

Definition set_a_connections (v : list connection) (w : acceptor_state) : acceptor_state :=
  mk_acceptor_state (m_acceptor_open w) (m_next_connection_id w) (m_consecutive_accept_errors
    w) (m_accept_pending w) (m_sessions w) v (a_io w).

Definition set_a_io (v : list io_op) (w : acceptor_state) : acceptor_state :=
  mk_acceptor_state (m_acceptor_open w) (m_next_connection_id w) (m_consecutive_accept_errors
    w) (m_accept_pending w) (m_sessions w) (a_connections w) v.

(** What the user's session does inside [async_run]. *)
Record session_run := mk_session_run {
  s_report : option exn;
  s_complete : option error_code;
  s_throw : option exn }.

(** Answers of the code outside the repository during one step. *)
Record acceptor_env := mk_acceptor_env {
  e_open : error_code;
  e_v6_only : error_code;
  e_reuse_address : error_code;
  e_bind : error_code;
  e_listen : error_code;
  e_local_endpoint : error_code + endpoint;
  e_async_accept : option exn;
  e_socket_local : error_code + endpoint;
  e_socket_remote : error_code + endpoint;
  e_factory : option exn;
  e_retry_timer : option exn;
  e_shutdown_timer : option exn;
  e_owner : bool;
  e_session : nat -> session_run }.

Abbreviation aworld := (world acceptor_task acceptor_state).
Abbreviation aenv := (env acceptor_task acceptor_env).
Abbreviation AM := (M aenv aworld).

Definition ext_update (f : acceptor_state -> acceptor_state) (w : aworld) : aworld :=
  set_w_ext (f (w_ext w)) w.

Definition modify_ext (f : acceptor_state -> acceptor_state) : AM unit := modify (ext_update f).

Definition get_ext {A} (f : acceptor_state -> A) : AM A := gets (fun w => f (w_ext w)).

Definition update_connection (c : nat) (f : connection -> connection) (a : acceptor_state) : acceptor_state :=
  set_a_connections (alter f c (a_connections a)) a.

(** ** [connection_state] *)

(** [owner->session_finished(info, ec, ep)] posts its body to the listener strand. *)
Definition session_finished_post (info : connection_info) (ec : error_code) (ep : exception_ptr) : AM unit :=
  post listener_strand (TExt (TSessionFinished info ec ep)).

Definition close_now (c : nat) : AM unit :=
  modify_ext (update_connection c (set_cn_socket_open false)).

(** [finish]; [e_owner]: [m_owner.lock()] succeeds. *)
Definition finish (c : nat) (ec : error_code) (ep : exception_ptr) : AM unit :=
  noexcept (
    conns <- get_ext a_connections;;
    match conns !! c with
    | None => ret tt
    | Some conn =>
      if cn_finished conn then ret tt
      else
        modify_ext (update_connection c (set_cn_finished true));;
        close_now c;;
        try_catch
          (owner <- asks (fun e => e_owner (e_ext e));;
           when owner (session_finished_post (cn_info conn) ec ep))
          (fun _ => ret tt)
    end).

(** The completion handler given to the session: [m_ep] is moved out. *)
Definition session_handler (c : nat) (ec : error_code) : AM unit :=
  conns <- get_ext a_connections;;
  match conns !! c with
  | None => ret tt
  | Some conn =>
    modify_ext (update_connection c (set_cn_ep None));;
    finish c ec (cn_ep conn)
  end.

(** [m_ctx.report_exception(ep)]: the reporter of the context stores [m_ep]. *)
Definition report (c : nat) (x : option exn) : AM unit :=
  match x with
  | None => ret tt
  | Some x => modify_ext (update_connection c (set_cn_ep (Some x)))
  end.

(** [m_session.async_run(m_ctx, handler)]. *)
Definition async_run (c : nat) : AM unit :=
  run <- asks (fun e => e_session (e_ext e) c);;
  report c (s_report run);;
  match s_complete run with
  | Some ec => session_handler c ec
  | None => modify_ext (update_connection c (set_cn_session true))
  end;;
  match s_throw run with
  | Some x => throw x
  | None => ret tt
  end.

Definition start (c : nat) : AM unit :=
  try_catch (async_run c)
    (fun x => finish c (exception_to_error (Some x)) (Some x)).

Definition force_close (c : nat) : AM unit :=
  noexcept (
    try_catch (post (connection_strand c) (TExt (TConnForceClose c)))
      (fun _ => finish c operation_aborted None)).

Definition request_stop (c : nat) : AM unit :=
  noexcept (
    try_catch (post (connection_strand c) (TExt (TConnRequestStop c)))
      (fun _ => force_close c)).

(** The closures [request_stop] and [force_close] post. *)
Definition run_request_stop (c : nat) : AM unit :=
  modify_ext (update_connection c (set_cn_signalled true)).

Definition run_force_close (c : nat) : AM unit := finish c operation_aborted None.

(** The session completes its handler later, possibly after reporting an
    exception through its context; a handler is invoked at most once. *)
Definition session_completes (c : nat) (x : option exn) (ec : error_code) : AM unit :=
  conns <- get_ext a_connections;;
  match conns !! c with
  | None => ret tt
  | Some conn =>
    when (cn_session conn)
      (modify_ext (update_connection c (set_cn_session false));;
       report c x;;
       session_handler c ec)
  end.
