(* ===== verification/Acceptor.v ===== *)
(** * The acceptor listener

    [basic_acceptor_listener] of include/serveza/listener.h: one definition per
    member function, the closures it posts, and [exec], which performs one action
    of the system (a call of the public interface, a completed I/O operation, a
    posted task, the user's session). *)

From S2P Require Import Prelude Errors Effect Options Endpoint Status Observers ListenerBase.
From S2P Require Connection.
Import Connection(connection, io_op(..), acceptor_task(..), acceptor_state(..), acceptor_env(..),
  session_run(..), aworld, aenv, AM, ext_update, modify_ext, get_ext, update_connection,
  m_acceptor_open, m_next_connection_id, m_consecutive_accept_errors, m_accept_pending, m_sessions,
  a_connections, a_io,
  set_m_acceptor_open, set_m_next_connection_id, set_m_consecutive_accept_errors,
  set_m_accept_pending, set_m_sessions, set_a_connections, set_a_io,
  e_open, e_v6_only, e_reuse_address, e_bind, e_listen, e_local_endpoint, e_async_accept,
  e_socket_local, e_socket_remote, e_factory, e_retry_timer, e_shutdown_timer, e_owner, e_session).

Local Open Scope Z_scope.
Local Open Scope eff_scope.

(** ** The Asio objects *)

(** The completion handler of an outstanding operation, given its result. *)
Definition io_completion (op : io_op) (ec : error_code) : acceptor_task :=
  match op with
  | IoAccept => TAccepted ec
  | IoRetryTimer _ => TRetryTimer ec
  | IoShutdownTimer _ => TShutdownTimer ec
  end.

Definition is_accept (op : io_op) : bool := match op with IoAccept => true | _ => false end.
Definition is_retry_timer (op : io_op) : bool := match op with IoRetryTimer _ => true | _ => false end.
Definition is_shutdown_timer (op : io_op) : bool :=
  match op with IoShutdownTimer _ => true | _ => false end.

(** Cancelling the operations of an I/O object queues their handlers with
    [operation_aborted].  A completion that is already queued is not affected. *)
Definition cancel_io (which : io_op -> bool) (w : aworld) : aworld :=
  let io := a_io (w_ext w) in
  set_w_queue
    (w_queue w ++ map (fun op => (listener_strand, TExt (io_completion op operation_aborted)))
                      (List.filter which io))
    (ext_update (set_a_io (List.filter (fun op => negb (which op)) io)) w).

Definition acceptor_cancel : AM unit := modify (cancel_io is_accept).

Definition acceptor_close : AM unit :=
  modify (cancel_io is_accept);; modify_ext (set_m_acceptor_open false).

Definition already_open : error_code := mk_error_code 1 (other_category 0).

Definition acceptor_open : AM error_code :=
  open <- get_ext m_acceptor_open;;
  ec <- asks (fun e => e_open (e_ext e));;
  if open : bool then ret already_open
  else if failed ec then ret ec
  else modify_ext (set_m_acceptor_open true);; ret success.

Definition retry_timer_cancel : AM unit := modify (cancel_io is_retry_timer).
Definition shutdown_timer_cancel : AM unit := modify (cancel_io is_shutdown_timer).

(** [expires_after] cancels the outstanding waits; [async_wait] may throw, or adds
    one. *)
Definition arm_retry_timer (delay : Z) : AM unit :=
  retry_timer_cancel;;
  may_throw (fun e => e_retry_timer (e_ext e));;
  modify_ext (fun a => set_a_io (a_io a ++ [IoRetryTimer delay]) a).

Definition arm_shutdown_timer (delay : Z) : AM unit :=
  shutdown_timer_cancel;;
  may_throw (fun e => e_shutdown_timer (e_ext e));;
  modify_ext (fun a => set_a_io (a_io a ++ [IoShutdownTimer delay]) a).

Section Listener.
Variable cfg : config.

Abbreviation options := (c_options cfg).

Definition sessions_full (w : aworld) : bool :=
  max_active_sessions options <=? Z.of_nat (length (m_sessions (w_ext w))).

(** ** Shutdown *)

Definition finish (ec : error_code) (reason : listener_stop_reason.t) : AM unit :=
  current <- state;;
  if bool_decide (current = listener_state.stopped) then ret tt
  else
    modify (set_m_terminal_error ec);;
    set_stop_reason reason;;
    keep_first_error ec;;
    acceptor_close;;
    retry_timer_cancel;;
    shutdown_timer_cancel;;
    transition_to cfg listener_state.stopped;;
    complete_waiters.

Definition maybe_finish : AM unit :=
  current <- state;;
  pending <- get_ext m_accept_pending;;
  sessions <- get_ext m_sessions;;
  terminal <- gets m_terminal_error;;
  reason <- stop_reason;;
  when (bool_decide (current = listener_state.stopping) && negb pending &&
        bool_decide (sessions = []))
    (finish terminal reason).

Definition begin_stop (ec : error_code) (reason : listener_stop_reason.t) : AM unit :=
  current <- state;;
  if bool_decide (current = listener_state.idle) then
    modify (set_m_terminal_error ec);;
    set_stop_reason reason;;
    transition_to cfg listener_state.stopping;;
    finish ec reason
  else if negb (bool_decide (current = listener_state.starting)) &&
          negb (bool_decide (current = listener_state.running)) then ret tt
  else
    modify (set_m_terminal_error ec);;
    set_stop_reason reason;;
    transition_to cfg listener_state.stopping;;
    acceptor_cancel;;
    acceptor_close;;
    retry_timer_cancel;;
    sessions <- get_ext m_sessions;;
    for_each sessions Connection.request_stop;;
    when (negb (bool_decide (sessions = [])))
      (try_catch (arm_shutdown_timer (shutdown_grace_period options))
         (fun _ => for_each sessions Connection.force_close));;
    maybe_finish.

Definition stop_on_strand : AM unit := begin_stop success listener_stop_reason.requested.

(** The completion handler of the shutdown timer. *)
Definition shutdown_deadline (timer_ec : error_code) : AM unit :=
  if failed timer_ec then ret tt
  else
    record_diagnostic timed_out None;;
    emit cfg shutdown_forced no_connection timed_out None;;
    sessions <- get_ext m_sessions;;
    for_each sessions Connection.force_close.

(** ** Accepting *)

Definition accept_next (failure_reason : listener_stop_reason.t) : AM error_code :=
  current <- state;;
  pending <- get_ext m_accept_pending;;
  full <- gets sessions_full;;
  if (negb (bool_decide (current = listener_state.starting)) &&
      negb (bool_decide (current = listener_state.running))) || pending then
    maybe_finish;; ret success
  else if full : bool then ret success
  else
    modify_ext (set_m_accept_pending true);;
    try_catch
      (may_throw (fun e => e_async_accept (e_ext e));;
       modify_ext (fun a => set_a_io (a_io a ++ [IoAccept]) a);;
       ret success)
      (fun x =>
         modify_ext (set_m_accept_pending false);;
         let ec := exception_to_error (Some x) in
         record_diagnostic ec (Some x);;
         emit cfg accept_failed no_connection ec (Some x);;
         begin_stop ec failure_reason;;
         ret ec).

Definition retry_accept (accept_ec : error_code) : AM unit :=
  record_diagnostic accept_ec None;;
  emit cfg accept_failed no_connection accept_ec None;;
  when (is_transient_accept_error accept_ec)
    (modify_ext (fun a =>
       set_m_consecutive_accept_errors (u64 (m_consecutive_accept_errors a + 1)) a));;
  errors <- get_ext m_consecutive_accept_errors;;
  if negb (is_transient_accept_error accept_ec) ||
     (max_consecutive_accept_errors options <=? errors) then
    begin_stop accept_ec listener_stop_reason.runtime_failure
  else
    try_catch (arm_retry_timer (accept_retry_delay options errors))
      (fun x =>
         let ec := exception_to_error (Some x) in
         record_diagnostic ec (Some x);;
         begin_stop ec listener_stop_reason.runtime_failure).

(** The completion handler of the retry timer. *)
Definition retry_timer_expired (ec : error_code) : AM unit :=
  if ec_eqb ec operation_aborted then maybe_finish
  else if failed ec then begin_stop ec listener_stop_reason.runtime_failure
  else accept_next listener_stop_reason.runtime_failure;; ret tt.

(** [endpoint_ec ? std::string{} : endpoint_string(endpoint)]. *)
Definition socket_endpoint (r : error_code + endpoint) : string :=
  match r with
  | inl _ => ""
  | inr e => endpoint_string e
  end.

Definition accepted (ec : error_code) : AM unit :=
  modify_ext (set_m_accept_pending false);;
  current <- state;;
  if negb (bool_decide (current = listener_state.running)) then maybe_finish
  else if failed ec then retry_accept ec
  else
    modify_ext (set_m_consecutive_accept_errors 0);;
    modify_ext (fun a => set_m_next_connection_id (u64 (m_next_connection_id a + 1)) a);;
    connection_id <- get_ext m_next_connection_id;;
    local <- asks (fun e => socket_endpoint (e_socket_local (e_ext e)));;
    remote <- asks (fun e => socket_endpoint (e_socket_remote (e_ext e)));;
    let info := mk_connection_info connection_id local remote in
    factory <- asks (fun e => e_factory (e_ext e));;
    match factory with
    | Some x =>
      let factory_ec := exception_to_error (Some x) in
      record_diagnostic factory_ec (Some x);;
      emit cfg session_factory_failed info factory_ec (Some x);;
      accept_next listener_stop_reason.runtime_failure;;
      ret tt
    | None =>
      connection <- get_ext (fun a => length (a_connections a));;
      modify_ext (fun a =>
        set_a_connections (a_connections a ++ [Connection.mk_connection info true false None false false]) a);;
      modify_ext (fun a => set_m_sessions (m_sessions a ++ [connection]) a);;
      modify (fun w => set_m_active_sessions (u64 (m_active_sessions w + 1)) w);;
      emit cfg session_started info success None;;
      try_catch (post (connection_strand connection) (TExt (TConnStart connection)))
        (fun _ => Connection.force_close connection);;
      accept_next listener_stop_reason.runtime_failure;;
      ret tt
    end.

(** [value->id() == info.id]. *)
Definition has_id (conns : list connection) (id : Z) (c : nat) : bool :=
  match conns !! c with
  | Some conn => info_id (Connection.cn_info conn) =? id
  | None => false
  end.

(** The closure [session_finished] posts to the listener strand. *)
Definition session_finished (info : connection_info) (ec : error_code) (ep : exception_ptr) : AM unit :=
  sessions <- get_ext m_sessions;;
  conns <- get_ext a_connections;;
  match find_first (has_id conns (info_id info)) sessions with
  | None => ret tt
  | Some _ =>
    modify_ext (set_m_sessions (erase_first (has_id conns (info_id info)) sessions));;
    modify (fun w => set_m_active_sessions (u64 (m_active_sessions w - 1)) w)
  end;;
  when (negb (ec_eqb ec operation_aborted) && (failed ec || bool_decide (ep <> None)))
    (record_diagnostic ec ep);;
  emit cfg session_stopped info ec ep;;
  current <- state;;
  (if bool_decide (current = listener_state.running)
   then accept_next listener_stop_reason.runtime_failure;; ret tt
   else ret tt);;
  maybe_finish.

(** ** Starting *)

(** [open], the IP options, [bind] and [listen], stopping at the first error. *)
Definition open_acceptor : AM error_code :=
  ec <- acceptor_open;;
  ec <- match c_configured_endpoint cfg with
        | ip_endpoint address _ =>
          ec <- (if negb (failed ec) && is_v6 address
                 then asks (fun e => e_v6_only (e_ext e)) else ret ec);;
          (if negb (failed ec) then asks (fun e => e_reuse_address (e_ext e)) else ret ec)
        | _ => ret ec
        end;;
  ec <- (if negb (failed ec) then asks (fun e => e_bind (e_ext e)) else ret ec);;
  if negb (failed ec) then asks (fun e => e_listen (e_ext e)) else ret ec.

Definition start_on_strand (handler : completion_handler) : AM unit :=
  current <- state;;
  if bool_decide (current = listener_state.running) then
    complete_on listener_strand (Some handler) success
  else if negb (bool_decide (current = listener_state.idle)) &&
          negb (bool_decide (current = listener_state.stopped)) then
    complete_on listener_strand (Some handler) operation_aborted
  else
    modify (fun w => set_m_generation (u64 (m_generation w + 1)) w);;
    modify (set_m_terminal_error success);;
    clear_diagnostics;;
    transition_to cfg listener_state.starting;;
    ec <- open_acceptor;;
    if failed ec then
      complete_on listener_strand (Some handler) ec;;
      finish ec listener_stop_reason.startup_failure
    else
      bound <- asks (fun e => e_local_endpoint (e_ext e));;
      match bound with
      | inl _ => ret tt
      | inr bound => modify (set_m_endpoint (endpoint_string bound))
      end;;
      accept_ec <- accept_next listener_stop_reason.startup_failure;;
      if failed accept_ec then complete_on listener_strand (Some handler) accept_ec
      else
        transition_to cfg listener_state.running;;
        complete_on listener_strand (Some handler) success.

(** ** The system around the listener *)

Definition run_task (t : task acceptor_task) : AM unit :=
  match t with
  | TStart h => run_start start_on_strand h
  | TWait id h => run_wait id h
  | TCancelWait id => cancel_wait id
  | TStop => stop_on_strand
  | TDispatch on h ec => run_dispatch on h ec
  | TExt (TAccepted ec) => accepted ec
  | TExt (TRetryTimer ec) => retry_timer_expired ec
  | TExt (TShutdownTimer ec) => shutdown_deadline ec
  | TExt (TSessionFinished info ec ep) => session_finished info ec ep
  | TExt (TConnStart c) => Connection.start c
  | TExt (TConnRequestStop c) => Connection.run_request_stop c
  | TExt (TConnForceClose c) => Connection.run_force_close c
  end.

(** One action of the system.  [ARun i] runs the posted task at position [i]:
    any pending task may be next.  [AIo i ec] completes the outstanding operation
    at position [i]; a timer that is not cancelled expires with success.
    [AObserve] and [AUnobserve] change the shared observer registry. *)
Inductive action :=
| AStart (ex : option executor) (alloc : option N) (slot : bool)
| AWait (ex : option executor) (alloc : option N) (slot : bool)
| ARequestStop
| ACancel (op : nat) (type : Z)
| AIo (i : nat) (ec : error_code)
| ASession (c : nat) (x : option exn) (ec : error_code)
| ARun (i : nat)
| AObserve (value : observer)
| AUnobserve (id : Z).

Definition complete_io (i : nat) (ec : error_code) : AM unit :=
  io <- get_ext a_io;;
  match io !! i with
  | None => ret tt
  | Some op =>
    modify_ext (set_a_io (remove_at i io));;
    modify (fun w => set_w_queue (w_queue w ++
      [(listener_strand, TExt (io_completion op (if is_accept op then ec else success)))]) w)
  end.

Definition run_posted (i : nat) : AM unit :=
  queue <- gets w_queue;;
  match queue !! i with
  | None => ret tt
  | Some (_, t) => modify (set_w_queue (remove_at i queue));; run_task t
  end.

Definition update_registry (f : observer_registry -> observer_registry) : AM unit :=
  modify (fun w => set_w_registry (f <$> w_registry w) w).

Definition exec (a : action) : AM unit :=
  match a with
  | AStart ex alloc slot => do_async_start ex alloc slot
  | AWait ex alloc slot => do_async_wait ex alloc slot
  | ARequestStop => request_stop
  | ACancel op type => emit_cancellation op type
  | AIo i ec => complete_io i ec
  | ASession c x ec => Connection.session_completes c x ec
  | ARun i => run_posted i
  | AObserve value => update_registry (fun r => snd (add value r))
  | AUnobserve id => update_registry (remove id)
  end.

(** A new listener: [registry] is the observer registry it is given.  The
    constructor throws when the options are invalid. *)
Definition initial_world (registry : option observer_registry) : aworld :=
  mk_world listener_state.idle listener_stop_reason.none success None
    (endpoint_string (c_configured_endpoint cfg)) 0 0 0 success []
    [] ∅ ∅ 0%nat [] registry [] []
    (Connection.mk_acceptor_state false 0 0 false [] [] []).

Definition make_listener (registry : option observer_registry) : exn + aworld :=
  match validate_acceptor_options options with
  | inl x => inl x
  | inr _ => inr (initial_world registry)
  end.

(** An exception that leaves a posted task propagates to the thread that runs the
    executor; the listener keeps the state it had reached.  [ok] restricts the
    answers of the environment: [any_env] allows everything. *)
Inductive step (ok : aenv -> Prop) : aworld -> aworld -> Prop :=
| step_ret e a w w' : ok e -> exec a e w = Ret tt w' -> step ok w w'
| step_throw e a w w' x : ok e -> exec a e w = Throw x w' -> step ok w w'.

(** [reach ok registry n w]: a constructed listener gets to [w] in [n] actions. *)
Inductive reach (ok : aenv -> Prop) (registry : option observer_registry) : nat -> aworld -> Prop :=
| reach_init w : make_listener registry = inr w -> reach ok registry 0 w
| reach_step n w w' : reach ok registry n w -> step ok w w' -> reach ok registry (S n) w'.

(** An execution as a function of the actions and the environment's answers. *)
Fixpoint run_trace (l : list (aenv * action)) (w : aworld) : option aworld :=
  match l with
  | [] => Some w
  | (e, a) :: l =>
    match exec a e w with
    | Ret _ w' | Throw _ w' => run_trace l w'
    | Terminate _ => None
    end
  end.
End Listener.

Definition any_env (e : aenv) : Prop := True.

(** The executor accepts every posted task. *)
Definition posts_ok (e : aenv) : Prop := forall ex t, e_post e ex t = None.

Lemma run_trace_reach cfg (ok : aenv -> Prop) registry l n w w' :
  Forall (fun x => ok (fst x)) l -> reach cfg ok registry n w -> run_trace cfg l w = Some w' ->
  reach cfg ok registry (n + length l) w'.
Proof.
  revert n w. induction l as [|[e a] l IH]; intros n w Hok Hr; simpl.
  - intros [= <-]. by rewrite Nat.add_0_r.
  - apply Forall_cons in Hok as [He Hok]. rewrite <- Nat.add_succ_comm.
    destruct (exec cfg a e w) as [[] w1|x w1|w1] eqn:E; [| |done].
    + apply IH; [done|]. eapply reach_step; [done|]. by eapply step_ret.
    + apply IH; [done|]. eapply reach_step; [done|]. by eapply step_throw.
Qed.
