(* ===== verification/Scenarios.v ===== *)
(** * Concrete executions of the acceptor listener

    A listener on 127.0.0.1:8080 that admits two sessions, an environment whose
    calls succeed, and the executions the witnesses of the listener's theorems
    refer to.  Each is evaluated by [run_trace]. *)

From S2P Require Import Prelude Errors Effect Options Endpoint Status Observers ListenerBase.
From S2P Require Import Connection Acceptor.

Local Open Scope Z_scope.

Definition demo_options : listener_options :=
  {| listen_backlog := 16; shutdown_grace_period := 1000; max_active_sessions := 2;
     accept_error_backoff := 10; max_accept_error_backoff := 100;
     max_consecutive_accept_errors := 3; v6_only := true; reuse_address := true |}.

Definition demo_endpoint : endpoint := ip_endpoint (mk_address "127.0.0.1" false) 8080.

Definition demo : config := mk_config 1 demo_endpoint demo_options.

Lemma demo_in_range : options_in_range (c_options demo).
Proof. repeat split; simpl; (lia || reflexivity || discriminate). Qed.

(** One registered observer. *)
Definition demo_registry : option observer_registry := Some (snd (add 7%N empty_registry)).

Definition calm_acceptor : acceptor_env :=
  {| e_open := success; e_v6_only := success; e_reuse_address := success; e_bind := success;
     e_listen := success; e_local_endpoint := inr demo_endpoint; e_async_accept := None;
     e_socket_local := inr demo_endpoint;
     e_socket_remote := inr (ip_endpoint (mk_address "10.0.0.9" false) 50000);
     e_factory := None; e_retry_timer := None; e_shutdown_timer := None; e_owner := true;
     e_session := fun _ => mk_session_run None None None |}.

(** Every call succeeds and sessions keep their handler. *)
Definition calm : aenv := mk_env (fun _ _ => None) calm_acceptor.

(** The executor refuses every posted task. *)
Definition refusing : aenv := mk_env (fun _ _ => Some (other_exception "no memory")) calm_acceptor.

Definition in_env (e : aenv) (l : list action) : list (aenv * action) := map (pair e) l.

(** A start with an observer and two waits, accepted and running. *)
Definition started : list action :=
  [AStart None None false; AWait None None true; AWait (Some (user_executor 3)) None false;
   ARun 0; ARun 0; ARun 0; ARun 0].

(** A first connection is accepted and its session runs. *)
Definition one_session : list action := started ++ [AIo 0 success; ARun 0; ARun 0].

(** A stop is requested while the session runs: the accept is cancelled, the
    session is asked to stop and the grace timer is armed. *)
Definition stopping_trace : list action := one_session ++ [ARequestStop; ARun 0].

(** The session completes and the listener reaches [stopped]. *)
Definition stopped_trace : list action :=
  stopping_trace ++ [ARun 0; ARun 0; ASession 0 None success; ARun 0; ARun 0; ARun 0; ARun 0].

Lemma calm_ok : posts_ok calm.
Proof. done. Qed.

Lemma in_env_ok (ok : aenv -> Prop) e l : ok e -> Forall (fun x => ok (fst x)) (in_env e l).
Proof. intros H. unfold in_env. induction l; simpl; constructor; auto. Qed.

Definition demo_start : aworld := initial_world demo demo_registry.

(** The world a list of actions in one environment leads to. *)
Definition after (e : aenv) (l : list action) : aworld :=
  default demo_start (run_trace demo (in_env e l) demo_start).

Lemma after_reach (ok : aenv -> Prop) e l :
  ok e -> bool_decide (run_trace demo (in_env e l) demo_start = None) = false ->
  reach demo ok demo_registry (length l) (after e l).
Proof.
  intros He Hl. unfold after. destruct (run_trace demo _ _) as [w|] eqn:E; [|done].
  rewrite <- (length_map (pair e) l).
  apply (run_trace_reach demo ok demo_registry _ 0 demo_start); [by apply in_env_ok | | done].
  by constructor.
Qed.
