(* ===== verification/ListenerFacts.v ===== *)
(** * Reasoning rules for the shared listener operations

    Symbolic-execution rules for [post], [emit] and [transition_to], and the
    interface [Insensitive]: a property of the world that does not depend on the
    diagnostics, the cancellation bookkeeping and the published events is kept by
    every shared operation whose posted tasks it tolerates. *)

From S2P Require Import Prelude Errors Effect Options Endpoint Status Observers ListenerBase.

Local Open Scope Z_scope.

Section Facts.
Context {T X Y : Type} (cfg : config).
Implicit Types (w : world T X) (e : env T Y).

Lemma wp_post ex t e w (Q : unit -> world T X -> Prop) (Z : exn -> world T X -> Prop) :
  (e_post e ex t = None -> Q tt (set_w_queue (w_queue w ++ [(ex, t)]) w)) ->
  (forall x, e_post e ex t = Some x -> Z x w) ->
  wp (post ex t) e w Q Z.
Proof. intros HQ HZ. unfold post. eff_step. eff_step; [eff_step; auto | auto]. Qed.

(** What [emit] publishes: nothing without a registry, else the event and one
    callback per registered observer. *)
Definition event_of (type : listener_event_type) (info : connection_info)
    (ec : error_code) (ep : exception_ptr) (w : world T X) : listener_event :=
  {| le_type := type; le_status := status_of cfg w; le_connection := info;
     le_error := ec; le_exception := ep |}.

Definition log_event (ev : listener_event) (w : world T X) : world T X :=
  set_w_calls
    (w_calls w ++ match w_registry w with
                  | None => []
                  | Some r => map (fun v => (v, ev)) (snapshot r)
                  end)
    (set_w_events
       (w_events w ++ match w_registry w with None => [] | Some _ => [ev] end) w).

Lemma log_event_none ev w : w_registry w = None -> log_event ev w = w.
Proof. destruct w. unfold log_event. simpl. intros ->. by rewrite !app_nil_r. Qed.

Lemma for_each_log (ev : listener_event) (l : list observer) e w :
  for_each l (fun value => try_catch
      (modify (fun w => set_w_calls (w_calls w ++ [(value, ev)]) w)) (fun _ => ret tt)) e w =
  Ret tt (set_w_calls (w_calls w ++ map (fun v => (v, ev)) l) w).
Proof.
  revert w. induction l as [|o l IH]; intros w; simpl.
  - rewrite app_nil_r. by destruct w.
  - unfold bind, try_catch, modify. rewrite IH. simpl. by rewrite <- app_assoc.
Qed.

Lemma notify_eq ev r e w :
  w_registry w = Some r -> notify ev e w = Ret tt (log_event ev w).
Proof.
  intros Hr. unfold notify, notify_each.
  set (f := fun value : observer => try_catch _ _).
  unfold bind, modify, noexcept, try_catch, gets, log_event. cbn [w_registry set_w_events].
  rewrite !Hr. simpl. destruct (snapshot r) as [|o l] eqn:Hs.
  - simpl. rewrite app_nil_r. reflexivity.
  - subst f. rewrite for_each_log. reflexivity.
Qed.

Lemma emit_eq type info ec ep e w :
  emit cfg type info ec ep e w = Ret tt (log_event (event_of type info ec ep w) w).
Proof.
  unfold emit, noexcept, bind, gets. destruct (w_registry w) as [r|] eqn:Hr.
  - unfold try_catch, bind, status, gets. by erewrite notify_eq.
  - by rewrite log_event_none.
Qed.

Lemma wp_emit type info ec ep e w (Q : unit -> world T X -> Prop) Z :
  Q tt (log_event (event_of type info ec ep w) w) -> wp (emit cfg type info ec ep) e w Q Z.
Proof. unfold wp. by rewrite emit_eq. Qed.

Definition enter (st : listener_state.t) (w : world T X) : world T X :=
  log_event (event_of state_changed no_connection success None (set_m_state st w))
            (set_m_state st w).

Lemma transition_to_eq st e w : transition_to cfg st e w = Ret tt (enter st w).
Proof. unfold transition_to, bind, modify. by rewrite emit_eq. Qed.

Lemma wp_transition_to st e w (Q : unit -> world T X -> Prop) Z :
  Q tt (enter st w) -> wp (transition_to cfg st) e w Q Z.
Proof. unfold wp. by rewrite transition_to_eq. Qed.

(** ** Properties that ignore the metadata *)

Definition base_task (t : task T) : bool := match t with TExt _ => false | _ => true end.

(** [P] ignores the published events. *)
Class LogInsensitive (P : world T X -> Prop) : Prop := {
  ins_log ev w : P w -> P (log_event ev w) }.

(** [P] ignores the diagnostics and the cancellation bookkeeping. *)
Class MetaInsensitive (P : world T X -> Prop) : Prop := {
  ins_stop_reason v w : P w -> P (set_m_stop_reason v w);
  ins_last_error v w : P w -> P (set_m_last_error v w);
  ins_last_exception v w : P w -> P (set_m_last_exception v w);
  ins_endpoint v w : P w -> P (set_m_endpoint v w);
  ins_next_waiter_id v w : P w -> P (set_m_next_waiter_id v w);
  ins_terminal_error v w : P w -> P (set_m_terminal_error v w);
  ins_cancelled v w : P w -> P (set_w_cancelled v w);
  ins_slots v w : P w -> P (set_w_slots v w) }.

(** [P] ignores, moreover, the waiters, the handlers and the tasks of this layer. *)
Class Insensitive (P : world T X -> Prop) : Prop := {
  ins_meta :: MetaInsensitive P;
  ins_waiters v w : P w -> P (set_m_waiters v w);
  ins_next_op v w : P w -> P (set_w_next_op v w);
  ins_completed v w : P w -> P (set_w_completed v w);
  ins_post ex t w : base_task t = true -> P w -> P (set_w_queue (w_queue w ++ [(ex, t)]) w) }.

Lemma nt_emit (P : world T X -> Prop) `{!LogInsensitive P} type info ec ep :
  nothrow (E := env T Y) P (emit cfg type info ec ep).
Proof. intros e w X' H. apply wp_emit. by apply ins_log. Qed.

Section Meta.
Context (P : world T X -> Prop) `{!MetaInsensitive P}.

Abbreviation nt m := (nothrow (E := env T Y) P m).

Lemma nt_clear_slot op : nt (clear_slot op).
Proof. intros e w X' H. apply wp_modify. by apply ins_slots. Qed.

Lemma nt_clear_diagnostics : nt clear_diagnostics.
Proof.
  intros e w X' H. apply wp_modify.
  by apply ins_last_exception, ins_last_error, ins_stop_reason.
Qed.

Lemma nt_record_diagnostic ec ep : nt (record_diagnostic ec ep).
Proof. intros e w X' H. apply wp_modify. by apply ins_last_exception, ins_last_error. Qed.

Lemma nt_set_stop_reason r : nt (set_stop_reason r).
Proof. intros e w X' H. apply wp_modify. by apply ins_stop_reason. Qed.

Lemma nt_set_terminal_error ec : nt (modify (set_m_terminal_error ec)).
Proof. intros e w X' H. apply wp_modify. by apply ins_terminal_error. Qed.

Lemma nt_keep_first_error ec : nt (keep_first_error ec).
Proof.
  intros e w X' H. unfold keep_first_error. eff_step; [|done]. apply wp_modify.
  case_match; [|done]. by apply ins_last_error.
Qed.

Lemma nt_assign_slot h f : nt (assign_slot h f).
Proof. intros e w X' H. unfold assign_slot. eff_step; [|done]. eff_step. by apply ins_slots. Qed.
End Meta.

Section Insensitive.
Context (P : world T X -> Prop) `{!Insensitive P}.

Abbreviation keeps m := (pres (E := env T Y) P m).
Abbreviation nt m := (nothrow (E := env T Y) P m).

Lemma pres_post ex t : base_task t = true -> keeps (post ex t).
Proof. intros Ht e w H. apply wp_post; [|done]. intros _. by apply ins_post. Qed.

Lemma pres_complete_on ex h ec : keeps (complete_on ex h ec).
Proof. by apply pres_post. Qed.

Lemma pres_complete_waiter i : keeps (complete_waiter i).
Proof.
  intros e w H. unfold complete_waiter, clear_slot. do 2 eff_step. eff_step; [|by eff_step].
  do 6 eff_step. apply pres_complete_on. by apply ins_waiters, ins_slots.
Qed.

Lemma pres_complete_waiters : keeps complete_waiters.
Proof.
  intros e w H. unfold complete_waiters. do 3 eff_step.
  eapply wp_mono;
    [by apply (wp_for_each _ _ e (fun _ => P) (fun _ => P)); [intros; by apply pres_complete_waiter|]
    | | done].
  intros [] w' H'. apply wp_modify. by apply ins_waiters.
Qed.

Lemma nt_request_stop : nt request_stop.
Proof.
  intros e w X' H. unfold request_stop, state. do 3 eff_step. eff_step; [by eff_step|].
  eff_step. eapply wp_pres; [by apply pres_post | done | done |]. intros ? ? ?. by eff_step.
Qed.

Lemma nt_fresh_op : nt fresh_op.
Proof. intros e w X' H. unfold fresh_op. do 5 eff_step. by apply ins_next_op. Qed.

Lemma pres_do_async_start ex alloc slot : keeps (do_async_start ex alloc slot).
Proof.
  intros e w H. unfold do_async_start. eff_step.
  eapply (wp_nothrow P); [apply nt_fresh_op | done |]. intros op w' H'. eff_step.
  eapply (wp_nothrow P); [by apply nt_assign_slot; apply _ | done |]. intros [] w'' H''. eff_step.
  eapply wp_mono; [by apply pres_post | done |]. intros x w3 H3. by apply pres_complete_on.
Qed.

Lemma pres_do_async_wait ex alloc slot : keeps (do_async_wait ex alloc slot).
Proof.
  intros e w H. unfold do_async_wait. eff_step.
  eapply (wp_nothrow P); [apply nt_fresh_op | done |]. intros op w' H'. do 5 eff_step.
  eapply (wp_nothrow P); [by apply nt_assign_slot; apply _ | by apply ins_next_waiter_id |].
  intros [] w'' H''. eff_step.
  eapply wp_mono; [by apply pres_post | done |]. intros x w3 H3. eff_step.
  eapply (wp_nothrow P); [by apply nt_clear_slot; apply _ | done |]. intros [] ? ?. by apply pres_complete_on.
Qed.

Lemma nt_emit_cancellation op type : nt (emit_cancellation op type).
Proof.
  intros e w X' H. unfold emit_cancellation. do 2 eff_step. eff_step; [eff_step|by eff_step].
  - eff_step; [|done]. eff_step. by apply ins_cancelled.
  - eff_step; [by eff_step|]. do 3 eff_step.
    eapply wp_pres; [by apply pres_post | by apply ins_cancelled | done |].
    intros ? ? ?. by eff_step.
Qed.

Lemma pres_run_wait id h : keeps (run_wait id h).
Proof.
  intros e w H. unfold run_wait, state. do 4 eff_step. eff_step.
  - eff_step. eapply (wp_nothrow P); [by apply nt_clear_slot; apply _ | done |].
    intros [] ? ?. by apply pres_complete_on.
  - eff_step.
    + eff_step. eapply (wp_nothrow P); [by apply nt_clear_slot; apply _ | done |].
      intros [] ? ?. do 2 eff_step. by apply pres_complete_on.
    + eff_step. by apply ins_waiters.
Qed.

Lemma pres_cancel_wait id : keeps (cancel_wait id).
Proof.
  intros e w H. unfold cancel_wait, clear_slot. do 2 eff_step. eff_step; [|by eff_step].
  do 4 eff_step. apply pres_complete_on. by apply ins_slots, ins_waiters.
Qed.

Lemma pres_run_dispatch on h ec : keeps (run_dispatch on h ec).
Proof.
  intros e w H. unfold run_dispatch. eff_step; eff_step; [|done]. by apply ins_completed.
Qed.

Lemma pres_run_start (start_on_strand : completion_handler -> M (env T Y) (world T X) unit) h :
  (forall h, keeps (start_on_strand h)) -> keeps (run_start start_on_strand h).
Proof.
  intros Hs e w H. unfold run_start, clear_slot. do 4 eff_step.
  eff_step; [apply pres_complete_on | apply Hs]; by apply ins_slots.
Qed.
End Insensitive.
End Facts.

(** ** With an executor that accepts work *)

Global Instance anywhere_insensitive {T X} : Insensitive (T := T) (X := X) anywhere.
Proof. repeat split. Qed.

Global Instance anywhere_log {T X} : LogInsensitive (T := T) (X := X) anywhere.
Proof. repeat split. Qed.

Section Accepting.
Context {T X Y : Type} (cfg : config).

Definition accepting (e : env T Y) : Prop := forall ex t, e_post e ex t = None.

Abbreviation quiet m := (total (E := env T Y) (S := world T X) accepting m).

Lemma total_post ex t : quiet (post ex t).
Proof. intros e w He. apply wp_post; [done|]. intros x Hx. by rewrite He in Hx. Qed.

Lemma total_complete_on ex h ec : quiet (complete_on ex h ec).
Proof. apply total_post. Qed.

Lemma total_emit type info ec ep : quiet (emit cfg type info ec ep).
Proof. apply total_nothrow, nt_emit, _. Qed.

Lemma total_transition_to st : quiet (transition_to cfg st).
Proof. intros e w He. by apply wp_transition_to. Qed.

Lemma total_complete_waiter i : quiet (complete_waiter i).
Proof. unfold complete_waiter, clear_slot. total_auto. apply total_complete_on. Qed.

Lemma total_complete_waiters : quiet complete_waiters.
Proof. unfold complete_waiters. total_auto. apply total_complete_waiter. Qed.

(** What [complete_waiters] does then: every waiter, in order, gets its slot
    cleared and its handler posted with the terminal error. *)
Definition waiter_dispatch (ec : error_code) (wo : wait_operation) : executor * task T :=
  (listener_strand,
   TDispatch (get_associated_executor (wo_handler wo) listener_strand) (wo_handler wo) ec).

Definition clear_slots (l : list wait_operation) (slots : gmap nat slot_handler) :=
  foldl (fun s wo => delete (wo_op wo) s) slots l.

Definition emptied (wo : wait_operation) : wait_operation := mk_wait (wo_id wo) (wo_op wo) None.

Definition waiters_posted (l : list wait_operation) (w : world T X) : world T X :=
  set_w_queue (w_queue w ++ map (waiter_dispatch (m_terminal_error w)) l)
    (set_w_slots (clear_slots l (w_slots w)) w).

Lemma complete_waiter_eq i wo (e : env T Y) (w : world T X) :
  accepting e -> m_waiters w !! i = Some wo ->
  complete_waiter i e w =
    Ret tt (waiters_posted [wo] (set_m_waiters (<[i := emptied wo]> (m_waiters w)) w)).
Proof.
  intros He Hi. unfold complete_waiter, bind, gets. rewrite Hi.
  unfold complete_on, post, clear_slot, modify, bind, may_throw. by rewrite He.
Qed.

Lemma for_each_waiters (e : env T Y) rest pre (w : world T X) :
  accepting e -> m_waiters w = pre ++ rest ->
  for_each (seq (length pre) (length rest)) complete_waiter e w =
    Ret tt (waiters_posted rest (set_m_waiters (pre ++ map emptied rest) w)).
Proof.
  intros He. revert pre w. induction rest as [|wo rest IH]; intros pre w Hw; simpl.
  - unfold waiters_posted. simpl. rewrite !app_nil_r. rewrite app_nil_r in Hw. destruct w.
    simpl in *. by subst.
  - unfold bind. rewrite (complete_waiter_eq _ wo).
    2: done. 2: { rewrite Hw. apply list_lookup_middle. done. }
    replace (S (length pre)) with (length (pre ++ [emptied wo])) by (rewrite length_app; simpl; lia).
    rewrite (IH (pre ++ [emptied wo])).
    2: { simpl. rewrite Hw, insert_app_r_alt, Nat.sub_diag by done. by rewrite <- app_assoc. }
    unfold waiters_posted, clear_slots. simpl. rewrite <- !app_assoc. done.
Qed.

Lemma complete_waiters_eq (e : env T Y) (w : world T X) :
  accepting e -> complete_waiters e w = Ret tt (set_m_waiters [] (waiters_posted (m_waiters w) w)).
Proof.
  intros He. unfold complete_waiters, bind at 1, gets. unfold bind.
  by rewrite (for_each_waiters e (m_waiters w) []).
Qed.

Lemma wp_complete_waiters (e : env T Y) (w : world T X) (Q : unit -> world T X -> Prop) Z :
  accepting e -> Q tt (set_m_waiters [] (waiters_posted (m_waiters w) w)) ->
  wp complete_waiters e w Q Z.
Proof. intros He H. unfold wp. by rewrite complete_waiters_eq. Qed.

Lemma total_keep_first_error ec : quiet (keep_first_error ec).
Proof. unfold keep_first_error. total_auto. Qed.

Lemma total_run_wait id h : quiet (run_wait id h).
Proof. unfold run_wait, state, clear_slot. total_auto; apply total_complete_on. Qed.

Lemma total_cancel_wait id : quiet (cancel_wait id).
Proof. unfold cancel_wait, clear_slot. total_auto. apply total_complete_on. Qed.
End Accepting.

#[export] Hint Resolve total_post total_complete_on total_emit total_transition_to
  total_complete_waiters total_keep_first_error : eff.
