(* ===== verification/AcceptorFacts.v ===== *)
(** * Reasoning rules for connections

    [ConnInsensitive]: a property of the world that does not look at the
    connection heap nor at the closures connections post is kept by every
    operation of a connection. *)

From S2P Require Import Prelude Errors Effect Options Endpoint Status Observers ListenerBase.
From S2P Require Import ListenerFacts Connection.
From S2P Require Acceptor.

Local Open Scope Z_scope.

Definition conn_task (t : task acceptor_task) : bool :=
  match t with
  | TExt (TSessionFinished _ _ _) | TExt (TConnStart _) | TExt (TConnRequestStop _)
  | TExt (TConnForceClose _) => true
  | _ => false
  end.

Class ConnInsensitive (P : aworld -> Prop) : Prop := {
  cins_connections v w : P w -> P (ext_update (set_a_connections v) w);
  cins_post ex t w : conn_task t = true -> P w -> P (set_w_queue (w_queue w ++ [(ex, t)]) w) }.

Section Connections.
Context (P : aworld -> Prop) `{!ConnInsensitive P}.

Abbreviation keeps m := (pres (E := aenv) P m).
Abbreviation nt m := (nothrow (E := aenv) P m).

Lemma conn_post ex t : conn_task t = true -> keeps (post ex t).
Proof. intros Ht e w H. apply wp_post; [|done]. intros _. by apply cins_post. Qed.

Lemma cins_update c f w : P w -> P (ext_update (update_connection c f) w).
Proof.
  intros H. unfold ext_update, update_connection.
  by apply (cins_connections (alter f c (a_connections (w_ext w)))) in H.
Qed.

Lemma conn_update c f : nt (modify_ext (update_connection c f)).
Proof. intros e w X H. apply wp_modify. by apply cins_update. Qed.

(** [finish], [force_close] and [request_stop] are [noexcept]: whatever is
    posted successfully or not, they return. *)
Lemma conn_finish c ec ep : nt (finish c ec ep).
Proof.
  intros e w X H. unfold finish, get_ext, close_now, modify_ext. do 3 eff_step.
  eff_step; [|by eff_step]. eff_step; [by eff_step|]. do 7 eff_step.
  assert (H' := cins_update c (set_cn_socket_open false) _ (cins_update c (set_cn_finished true) _ H)).
  eff_step; [|done].
  eapply wp_mono; [by apply conn_post | done |]. intros ? ? ?. by eff_step.
Qed.

Lemma conn_force_close c : nt (force_close c).
Proof.
  intros e w X H. unfold force_close. do 2 eff_step.
  eapply wp_mono; [by apply conn_post | done |]. intros ? ? ?. by apply conn_finish.
Qed.

Lemma conn_request_stop c : nt (request_stop c).
Proof.
  intros e w X H. unfold request_stop. do 2 eff_step.
  eapply wp_mono; [by apply conn_post | done |]. intros ? ? ?. by apply conn_force_close.
Qed.

(** The connection is started on its strand, or closed when that throws. *)
Lemma conn_post_start c :
  nt (try_catch (post (connection_strand c) (TExt (TConnStart c))) (fun _ => force_close c)).
Proof.
  intros e w X H. eff_step. eapply wp_pres; [by apply conn_post | done | done |].
  intros ? ? ?. by apply conn_force_close.
Qed.

Lemma conn_for_each (l : list nat) (f : nat -> AM unit) :
  (forall c, nt (f c)) -> nt (for_each l f).
Proof.
  intros Hf e w X H. apply (wp_for_each l f e (fun _ => P) X); [|done].
  intros. by apply Hf.
Qed.

Lemma conn_report c x : nt (report c x).
Proof. intros e w X H. unfold report. eff_step; [by apply conn_update | by eff_step]. Qed.

Lemma conn_session_handler c ec : nt (session_handler c ec).
Proof.
  intros e w X H. unfold session_handler, get_ext. do 2 eff_step. eff_step; [|by eff_step].
  eff_step. eapply wp_nothrow; [apply conn_update | done |].
  intros [] ? ?. by apply conn_finish.
Qed.

Lemma conn_start c : nt (start c).
Proof.
  intros e w X H. unfold start, async_run. do 4 eff_step.
  eapply wp_nothrow; [apply conn_report | done |]. intros [] w1 H1. eff_step.
  apply (wp_nothrow P); [| done |].
  - intros ????. eff_step; [by apply conn_session_handler | by apply conn_update].
  - intros [] w2 H2. eff_step; eff_step; [by apply conn_finish | done].
Qed.

Lemma conn_run_request_stop c : nt (run_request_stop c).
Proof. apply conn_update. Qed.

Lemma conn_run_force_close c : nt (run_force_close c).
Proof. intros e w X H. by apply conn_finish. Qed.

Lemma conn_session_completes c x ec : nt (session_completes c x ec).
Proof.
  intros e w X H. unfold session_completes, get_ext. do 2 eff_step. eff_step; [|by eff_step].
  eff_step; [|done]. eff_step. eapply wp_nothrow; [apply conn_update | done |].
  intros [] w1 H1. eff_step. eapply wp_nothrow; [apply conn_report | done |].
  intros [] w2 H2. by apply conn_session_handler.
Qed.
End Connections.

Global Instance anywhere_conn_insensitive : ConnInsensitive anywhere.
Proof. repeat split. Qed.

(** ** No exception leaves the listener while the executor accepts work *)

Section Accepting.
Import Acceptor.
Variable cfg : config.

Abbreviation quiet m := (total (E := aenv) (S := aworld) accepting m).

Lemma quiet_conn_request_stop c : quiet (Connection.request_stop c).
Proof. apply total_nothrow, conn_request_stop, _. Qed.

Lemma quiet_conn_force_close c : quiet (Connection.force_close c).
Proof. apply total_nothrow, conn_force_close, _. Qed.

Lemma quiet_cancel_io which : quiet (modify (cancel_io which)).
Proof. apply total_modify. Qed.

Lemma quiet_modify_ext f : quiet (modify_ext f).
Proof. apply total_modify. Qed.

Lemma quiet_get_ext {A} (f : acceptor_state -> A) : quiet (get_ext f).
Proof. apply total_gets. Qed.

#[local] Hint Resolve quiet_conn_request_stop quiet_conn_force_close quiet_cancel_io
  quiet_modify_ext quiet_get_ext kept_anywhere : eff.

Lemma quiet_finish ec reason : quiet (Acceptor.finish cfg ec reason).
Proof.
  unfold Acceptor.finish, state, set_stop_reason, acceptor_close, retry_timer_cancel,
    shutdown_timer_cancel. total_auto.
Qed.
#[local] Hint Resolve quiet_finish : eff.

Lemma quiet_maybe_finish : quiet (maybe_finish cfg).
Proof. unfold maybe_finish, state, stop_reason. total_auto. Qed.
#[local] Hint Resolve quiet_maybe_finish : eff.

Lemma kept_arm_shutdown_timer d : kept (E := aenv) accepting anywhere (arm_shutdown_timer d).
Proof. unfold arm_shutdown_timer, shutdown_timer_cancel. total_auto. Qed.

Lemma kept_arm_retry_timer d : kept (E := aenv) accepting anywhere (arm_retry_timer d).
Proof. unfold arm_retry_timer, retry_timer_cancel. total_auto. Qed.
#[local] Hint Resolve kept_arm_shutdown_timer kept_arm_retry_timer : eff.

Lemma quiet_begin_stop ec reason : quiet (begin_stop cfg ec reason).
Proof.
  unfold begin_stop, state, set_stop_reason, acceptor_cancel, acceptor_close, retry_timer_cancel.
  total_auto.
Qed.
#[local] Hint Resolve quiet_begin_stop : eff.

Lemma quiet_accept_next reason : quiet (accept_next cfg reason).
Proof. unfold accept_next, state, record_diagnostic. total_auto. Qed.
#[local] Hint Resolve quiet_accept_next : eff.

Lemma quiet_retry_accept ec : quiet (retry_accept cfg ec).
Proof. unfold retry_accept, record_diagnostic. total_auto. Qed.
#[local] Hint Resolve quiet_retry_accept : eff.

Lemma quiet_open_acceptor : quiet (open_acceptor cfg).
Proof. unfold open_acceptor, acceptor_open. total_auto. Qed.
#[local] Hint Resolve quiet_open_acceptor : eff.

Lemma quiet_start_on_strand h : quiet (start_on_strand cfg h).
Proof. unfold start_on_strand, state, clear_diagnostics. total_auto. Qed.
#[local] Hint Resolve quiet_start_on_strand : eff.

Lemma quiet_accepted ec : quiet (accepted cfg ec).
Proof. unfold accepted, state, record_diagnostic. total_auto. Qed.

Lemma quiet_session_finished info ec ep : quiet (session_finished cfg info ec ep).
Proof. unfold session_finished, state, record_diagnostic. total_auto. Qed.

Lemma quiet_shutdown_deadline ec : quiet (shutdown_deadline cfg ec).
Proof. unfold shutdown_deadline, record_diagnostic. total_auto. Qed.

Lemma quiet_retry_timer_expired ec : quiet (retry_timer_expired cfg ec).
Proof. unfold retry_timer_expired. total_auto. Qed.
End Accepting.
