(* ===== verification/AcceptorCore.v ===== *)
(** * The acceptor listener refines its lifecycle

    The abstract lifecycle of an acceptor listener is a machine over a [view]:
    the state, the session list with its published count, the accept-pending
    flag, whether the acceptor is open, and how many accept completions are
    outstanding or queued.  Every member function acts on the view as a small
    abstract operation, and every action of the system is a step of the abstract
    machine ([exec_refines]), whatever the environment answers and also when an
    exception leaves it.  The bookkeeping invariants are proved on the abstract
    machine. *)

From S2P Require Import Prelude Errors Effect Options Endpoint Status Observers ListenerBase.
From S2P Require Import ListenerFacts Connection AcceptorFacts Acceptor.

Local Open Scope Z_scope.

(** ** The abstract lifecycle machine *)

Record view := mk_view {
  v_state : listener_state.t;
  v_active : Z;
  v_pending : bool;
  v_sessions : list nat;
  v_open : bool;
  v_ops : nat }.

Definition v_set_state (s : listener_state.t) (v : view) : view :=
  mk_view s (v_active v) (v_pending v) (v_sessions v) (v_open v) (v_ops v).
Definition v_set_open (b : bool) (v : view) : view :=
  mk_view (v_state v) (v_active v) (v_pending v) (v_sessions v) b (v_ops v).

Definition v_finish (v : view) : view :=
  if bool_decide (v_state v = listener_state.stopped) then v
  else v_set_state listener_state.stopped (v_set_open false v).

Definition v_maybe_finish (v : view) : view :=
  if bool_decide (v_state v = listener_state.stopping) && negb (v_pending v) &&
     bool_decide (v_sessions v = [])
  then v_finish v else v.

Definition v_begin_stop (v : view) : view :=
  match v_state v with
  | listener_state.idle => v_finish (v_set_state listener_state.stopping v)
  | listener_state.starting | listener_state.running =>
    v_maybe_finish (v_set_state listener_state.stopping (v_set_open false v))
  | _ => v
  end.

Definition v_live (v : view) : bool :=
  bool_decide (v_state v = listener_state.starting) ||
  bool_decide (v_state v = listener_state.running).

(** [accept_next]; [throws]: initiating the accept throws. *)
Definition v_accept_next (limit : Z) (throws : bool) (v : view) : view :=
  if negb (v_live v) || v_pending v then v_maybe_finish v
  else if limit <=? Z.of_nat (length (v_sessions v)) then v
  else if throws then v_begin_stop v
  else mk_view (v_state v) (v_active v) true (v_sessions v) (v_open v) (S (v_ops v)).

(** A queued accept completion is taken. *)
Definition v_take (v : view) : view :=
  mk_view (v_state v) (v_active v) false (v_sessions v) (v_open v) (pred (v_ops v)).

Definition v_add_session (c : nat) (v : view) : view :=
  mk_view (v_state v) (u64 (v_active v + 1)) (v_pending v) (v_sessions v ++ [c]) (v_open v) (v_ops v).

Definition v_drop_session (p : nat -> bool) (v : view) : view :=
  match find_first p (v_sessions v) with
  | None => v
  | Some _ => mk_view (v_state v) (u64 (v_active v - 1)) (v_pending v)
                (erase_first p (v_sessions v)) (v_open v) (v_ops v)
  end.

(** Steps of the abstract machine with session limit [limit]. *)
Inductive v_step (limit : Z) : view -> view -> Prop :=
| vs_stutter v : v_step limit v v
| vs_maybe_finish v : v_step limit v (v_maybe_finish v)
| vs_begin_stop v : v_step limit v (v_begin_stop v)
| vs_accept_next b v : v_step limit v (v_accept_next limit b v)
| vs_accept_late v :
    (0 < v_ops v)%nat -> v_state v <> listener_state.running ->
    v_step limit v (v_maybe_finish (v_take v))
| vs_accept_retry v :
    (0 < v_ops v)%nat -> v_state v = listener_state.running ->
    v_step limit v (v_take v)
| vs_accept_fatal v :
    (0 < v_ops v)%nat -> v_state v = listener_state.running ->
    v_step limit v (v_begin_stop (v_take v))
| vs_factory_failed b v :
    (0 < v_ops v)%nat -> v_state v = listener_state.running ->
    v_step limit v (v_accept_next limit b (v_take v))
| vs_session_started b c v :
    (0 < v_ops v)%nat -> v_state v = listener_state.running ->
    v_step limit v (v_accept_next limit b (v_add_session c (v_take v)))
| vs_session_finished p v :
    v_state v <> listener_state.running ->
    v_step limit v (v_maybe_finish (v_drop_session p v))
| vs_session_finished_running b p v :
    v_state v = listener_state.running ->
    v_step limit v (v_maybe_finish (v_accept_next limit b (v_drop_session p v)))
| vs_session_finished_interrupted b p v :
    v_state v = listener_state.running ->
    v_step limit v (v_accept_next limit b (v_drop_session p v))
| vs_start_failed v o :
    v_state v = listener_state.idle \/ v_state v = listener_state.stopped ->
    v_step limit v (v_finish (v_set_state listener_state.starting (v_set_open o v)))
| vs_start_interrupted v o :
    v_state v = listener_state.idle \/ v_state v = listener_state.stopped ->
    v_step limit v (v_set_state listener_state.starting (v_set_open o v))
| vs_start_accept_failed v :
    v_state v = listener_state.idle \/ v_state v = listener_state.stopped ->
    v_step limit v (v_begin_stop (v_set_state listener_state.starting (v_set_open true v)))
| vs_started b v :
    v_state v = listener_state.idle \/ v_state v = listener_state.stopped ->
    v_step limit v
      (v_set_state listener_state.running
        (v_accept_next limit b (v_set_state listener_state.starting (v_set_open true v)))).

(** The bookkeeping invariant. *)
Record v_inv (limit : Z) (v : view) : Prop := {
  vi_active : v_active v = Z.of_nat (length (v_sessions v));
  vi_limit : Z.of_nat (length (v_sessions v)) + (if v_pending v then 1 else 0) <= limit;
  vi_ops : v_ops v = (if v_pending v then 1 else 0)%nat;
  vi_rest : v_state v = listener_state.idle \/ v_state v = listener_state.stopped ->
            v_sessions v = [] /\ v_pending v = false /\ v_open v = false;
  vi_starting : v_state v = listener_state.starting -> v_sessions v = [] }.

(** A listener that is stopping still waits for something. *)
Definition v_busy (v : view) : Prop :=
  v_state v = listener_state.stopping -> v_pending v = true \/ v_sessions v <> [].

Section Abstract.
Variable limit : Z.
Hypothesis Hlimit : 0 < limit < u64_modulus.

Ltac v_crush :=
  constructor; simpl in *; intuition (try congruence; try lia).

Lemma v_inv_finish v :
  v_inv limit v -> v_sessions v = [] -> v_pending v = false -> v_inv limit (v_finish v).
Proof.
  intros H Hs Hp. unfold v_finish, v_set_state, v_set_open. case_match; [done|].
  destruct v, H. simpl in *. subst. v_crush.
Qed.

Lemma v_inv_maybe_finish v : v_inv limit v -> v_inv limit (v_maybe_finish v).
Proof.
  intros H. unfold v_maybe_finish. case_match eqn:E; [|done].
  apply andb_true_iff in E as [[_ Hp]%andb_true_iff Hs].
  apply v_inv_finish; [done | by apply bool_decide_eq_true in Hs | by apply negb_true_iff in Hp].
Qed.

Lemma v_inv_begin_stop v : v_inv limit v -> v_inv limit (v_begin_stop v).
Proof.
  intros H. unfold v_begin_stop. destruct (v_state v) eqn:E; [| | |done..];
    destruct H as [Ha Hl Ho Hr Hs].
  - apply v_inv_finish; unfold v_set_state; simpl; try apply Hr; auto. v_crush.
  - apply v_inv_maybe_finish. unfold v_set_state, v_set_open. v_crush.
  - apply v_inv_maybe_finish. unfold v_set_state, v_set_open. v_crush.
Qed.

Lemma v_live_cases v :
  v_live v = true <-> v_state v = listener_state.starting \/ v_state v = listener_state.running.
Proof. unfold v_live. rewrite orb_true_iff, !bool_decide_eq_true. done. Qed.

Lemma v_inv_accept_next b v : v_inv limit v -> v_inv limit (v_accept_next limit b v).
Proof.
  intros H. unfold v_accept_next. case_match eqn:E; [by apply v_inv_maybe_finish|].
  apply orb_false_iff in E as [Hl%negb_false_iff%v_live_cases Hp].
  destruct (Z.leb_spec limit (Z.of_nat (length (v_sessions v)))); [done|].
  destruct b; [by apply v_inv_begin_stop|].
  destruct H. rewrite Hp in *. constructor; simpl; intuition (congruence || lia).
Qed.

Lemma v_inv_take v :
  v_inv limit v -> (0 < v_ops v)%nat ->
  v_inv limit (v_take v) /\ Z.of_nat (length (v_sessions v)) + 1 <= limit.
Proof.
  intros [Ha Hl Ho Hr Hs] Hp. destruct (v_pending v) eqn:E; [|lia]. split; [|lia].
  unfold v_take. constructor; simpl; intuition (congruence || lia).
Qed.

Lemma v_inv_add_session c v :
  v_inv limit v -> v_state v = listener_state.running -> v_pending v = false ->
  Z.of_nat (length (v_sessions v)) + 1 <= limit -> v_inv limit (v_add_session c v).
Proof.
  intros [Ha Hl Ho Hr Hs] Hst Hp Hb. unfold v_add_session.
  rewrite Hp in *. constructor; simpl; rewrite ?length_app; simpl;
    [rewrite u64_small; lia | lia | done | intuition congruence | congruence].
Qed.

Lemma v_inv_drop_session p v : v_inv limit v -> v_inv limit (v_drop_session p v).
Proof.
  intros H. unfold v_drop_session. case_match eqn:E; [|done].
  pose proof (erase_first_length _ _ _ E) as Hlen. destruct H as [Ha Hl Ho Hr Hs].
  assert (v_sessions v <> []) by (intros Hn; by rewrite Hn in E).
  assert (0 <= (if v_pending v then 1 else 0)) by (destruct (v_pending v); lia).
  constructor; simpl;
    [rewrite u64_small; lia | lia | done | intros ?; exfalso; intuition | intuition].
Qed.

Lemma v_inv_open_starting o v :
  v_inv limit v -> v_state v = listener_state.idle \/ v_state v = listener_state.stopped ->
  v_inv limit (v_set_state listener_state.starting (v_set_open o v)).
Proof.
  intros [Ha Hl Ho Hr Hs] Hst. apply Hr in Hst as (?&?&?).
  constructor; simpl; intuition congruence.
Qed.

Lemma v_inv_step v v' : v_inv limit v -> v_step limit v v' -> v_inv limit v'.
Proof.
  intros H Hst. destruct Hst as
    [v|v|v|b v|v Ho Hs|v Ho Hs|v Ho Hs|b v Ho Hs|b c v Ho Hs|p v Hs|b p v Hs|b p v Hs
    |v o Hs|v o Hs|v Hs|b v Hs];
    auto using v_inv_maybe_finish, v_inv_begin_stop, v_inv_accept_next, v_inv_drop_session,
      v_inv_open_starting.
  1-5: destruct (v_inv_take v H Ho) as [Ht Hb];
    auto using v_inv_maybe_finish, v_inv_begin_stop, v_inv_accept_next.
  - apply v_inv_accept_next, v_inv_add_session; auto.
  - pose proof (v_inv_open_starting o v H Hs) as H'. apply v_inv_finish; [done|..];
      apply H; tauto.
  - pose proof (v_inv_accept_next b _ (v_inv_open_starting true v H Hs)) as H'.
    destruct H' as [Ha Hl Ho Hr Hst]. constructor; simpl; auto; intuition congruence.
Qed.

Lemma v_busy_finish v : v_busy (v_finish v).
Proof. unfold v_busy, v_finish. case_bool_decide; simpl; congruence. Qed.

Lemma v_busy_maybe_finish v : v_busy (v_maybe_finish v).
Proof.
  unfold v_maybe_finish. destruct (_ && _ && _) eqn:E; [apply v_busy_finish|].
  intros Hs. rewrite bool_decide_eq_true_2 in E by done. destruct (v_pending v); [by left|].
  right. by apply bool_decide_eq_false in E.
Qed.

Lemma v_busy_begin_stop v : v_busy v -> v_busy (v_begin_stop v).
Proof.
  unfold v_begin_stop. destruct (v_state v); auto using v_busy_finish, v_busy_maybe_finish.
Qed.

Lemma v_busy_accept_next b v : v_busy v -> v_busy (v_accept_next limit b v).
Proof.
  intros H. unfold v_accept_next. destruct (_ || _); [apply v_busy_maybe_finish|].
  destruct (limit <=? _); [done|]. destruct b; [by apply v_busy_begin_stop | by left].
Qed.

Lemma v_busy_other v : v_state v <> listener_state.stopping -> v_busy v.
Proof. by intros H ?. Qed.

Lemma v_busy_step v v' : v_busy v -> v_step limit v v' -> v_busy v'.
Proof.
  assert (Hd : forall p v, v_state v = listener_state.running -> v_busy (v_drop_session p v)).
  { intros p u Hu. apply v_busy_other. unfold v_drop_session. case_match; simpl; congruence. }
  assert (Hr : forall v, v_state v = listener_state.running -> v_busy (v_take v)).
  { intros u Hu. apply v_busy_other. simpl. congruence. }
  intros H Hst. destruct Hst;
    auto using v_busy_finish, v_busy_maybe_finish, v_busy_begin_stop, v_busy_accept_next.
  - apply v_busy_accept_next, v_busy_other. simpl. congruence.
  - by apply v_busy_other.
  - by apply v_busy_begin_stop, v_busy_other.
  - by apply v_busy_other.
Qed.
End Abstract.

(** ** The view of a world *)

Definition accept_task (x : executor * task acceptor_task) : bool :=
  match snd x with
  | TExt (TAccepted _) => true
  | _ => false
  end.

Definition view_of (w : aworld) : view :=
  let a := w_ext w in
  mk_view (m_state w) (m_active_sessions w) (m_accept_pending a) (m_sessions a) (m_acceptor_open a)
    (countb accept_task (w_queue w) + countb is_accept (a_io a)).

Definition Viewed (v : view) (w : aworld) : Prop := view_of w = v.

Lemma viewed_push (q : list (executor * task acceptor_task)) x w v :
  accept_task x = false -> Viewed v w -> Viewed v (set_w_queue (w_queue w ++ [x]) w).
Proof.
  unfold Viewed, view_of. intros Hx <-. simpl. rewrite countb_app, countb_cons, Hx. simpl.
  by rewrite Nat.add_0_r.
Qed.

Global Instance viewed_insensitive v : Insensitive (Viewed v).
Proof.
  split; [split|..]; try (intros ? w H; exact H).
  intros ex t w Ht. apply viewed_push; [exact []|]. by destruct t.
Qed.

Global Instance viewed_log v : LogInsensitive (Viewed v).
Proof. split. intros ? w H; exact H. Qed.

Global Instance viewed_conn_insensitive v : ConnInsensitive (Viewed v).
Proof.
  split; [intros ? w H; exact H|].
  intros ex t w Ht. apply viewed_push; [exact []|].
  by destruct t as [| | | | |[]].
Qed.

(** Cancelled operations stay accounted for. *)
Lemma view_cancel_io which w : view_of (cancel_io which w) = view_of w.
Proof.
  unfold view_of. simpl. f_equal. rewrite countb_app, <- Nat.add_assoc. f_equal.
  induction (a_io (w_ext w)) as [|op io IH]; simpl; [done|].
  destruct (which op); simpl; rewrite !countb_cons; destruct op; simpl in *; lia.
Qed.

Lemma viewed_cancel_io which w v : Viewed v w -> Viewed v (cancel_io which w).
Proof. unfold Viewed. by rewrite view_cancel_io. Qed.

Lemma viewed_add_timer op w v :
  is_accept op = false -> Viewed v w ->
  Viewed v (ext_update (fun a => set_a_io (a_io a ++ [op]) a) w).
Proof.
  unfold Viewed, view_of. intros Hop <-. simpl. f_equal.
  rewrite countb_app, countb_cons, Hop, countb_nil. lia.
Qed.

Lemma viewed_enter cfg st w v : Viewed v w -> Viewed (v_set_state st v) (enter cfg st w).
Proof. by intros <-. Qed.

Section Refinement.
Variable cfg : config.

Abbreviation limit := (max_active_sessions (c_options cfg)).

(** [refines m f]: [m] acts on the view as [f], whether it returns or throws. *)
Definition refines {A} (m : AM A) (f : view -> view) : Prop :=
  forall e w v, Viewed v w -> wp m e w (fun _ => Viewed (f v)) (fun _ => Viewed (f v)).

Lemma refines_pres {A} (m : AM A) : (forall v, pres (Viewed v) m) -> refines m id.
Proof. intros H e w v. apply H. Qed.

Lemma wp_acceptor_close e w v (Q : unit -> aworld -> Prop) X :
  Viewed v w -> (forall w', Viewed (v_set_open false v) w' -> Q tt w') ->
  wp acceptor_close e w Q X.
Proof.
  intros H HQ. unfold acceptor_close, modify_ext. do 3 eff_step. apply HQ.
  unfold Viewed in *. rewrite <- H, <- (view_cancel_io is_accept w). done.
Qed.

Lemma viewed_state w v : Viewed v w -> m_state w = v_state v.
Proof. by intros <-. Qed.

Lemma refines_finish ec reason : refines (Acceptor.finish cfg ec reason) v_finish.
Proof.
  intros e w v H. unfold Acceptor.finish, state, v_finish. do 2 eff_step.
  rewrite (viewed_state _ _ H). case_bool_decide; [by eff_step|].
  unfold set_stop_reason. do 4 eff_step. eff_step.
  eapply wp_nothrow; [apply (nt_keep_first_error (Viewed v)) | exact H |].
  intros [] w1 H1. eff_step.
  eapply wp_acceptor_close; [done|]. intros w2 H2. unfold retry_timer_cancel, shutdown_timer_cancel. do 5 eff_step.
  apply wp_transition_to.
  apply (pres_complete_waiters (Viewed _)), viewed_enter. by do 2 apply viewed_cancel_io.
Qed.

Lemma refines_maybe_finish : refines (maybe_finish cfg) v_maybe_finish.
Proof.
  intros e w v H. unfold maybe_finish, state, get_ext, stop_reason, v_maybe_finish.
  do 10 eff_step. unfold when. rewrite <- H. simpl.
  case_match; [|by eff_step]. by apply refines_finish.
Qed.

(** The grace timer is armed, or the sessions are closed at once. *)
Lemma nt_arm_or_close v sessions d :
  nothrow (Viewed v)
    (when (negb (bool_decide (sessions = [])))
       (try_catch (arm_shutdown_timer d) (fun _ => for_each sessions force_close))).
Proof.
  intros e w X H. eff_step; [|done]. unfold arm_shutdown_timer, shutdown_timer_cancel, modify_ext.
  do 4 eff_step. apply (viewed_cancel_io is_shutdown_timer) in H. eff_step.
  - eff_step. by apply viewed_add_timer.
  - apply (conn_for_each (Viewed v)); [|done]. intros c. by apply (conn_force_close _ _).
Qed.

Lemma refines_begin_stop ec reason : refines (begin_stop cfg ec reason) v_begin_stop.
Proof.
  intros e w v H. unfold begin_stop, state, set_stop_reason, get_ext, acceptor_cancel,
    retry_timer_cancel, v_begin_stop. do 2 eff_step.
  rewrite (viewed_state _ _ H). case_bool_decide as Hi.
  { rewrite Hi. do 5 eff_step. apply wp_transition_to. apply refines_finish.
    by apply viewed_enter. }
  eff_step.
  { eff_step. by destruct (v_state v). }
  do 5 eff_step. apply wp_transition_to. do 3 eff_step.
  eapply wp_acceptor_close; [apply viewed_cancel_io, viewed_enter, H|]. intros w1 H1. do 5 eff_step.
  apply (viewed_cancel_io is_retry_timer) in H1. set (w2 := cancel_io is_retry_timer w1) in *.
  set (v1 := v_set_open false _) in *.
  eapply (wp_nothrow (Viewed v1)); [| done |].
  { apply conn_for_each; intros; by apply conn_request_stop; typeclasses eauto. }
  intros [] w3 H3. eff_step.
  eapply wp_nothrow; [apply (nt_arm_or_close v1) | done |].
  intros [] w4 H4.
  replace (match v_state v with listener_state.idle => _ | _ => _ end) with (v_maybe_finish v1).
  - by apply refines_maybe_finish.
  - by destruct (v_state v).
Qed.
(** [accept_next] throws only when [begin_stop] does; a failure it reports
    means it began the stop. *)
Definition accept_throws (e : aenv) : bool := bool_decide (e_async_accept (e_ext e) <> None).

Lemma wp_accept_next reason e w v (Q : error_code -> aworld -> Prop) (X : exn -> aworld -> Prop) :
  let v' := v_accept_next limit (accept_throws e) v in
  Viewed v w ->
  (forall ec w', Viewed v' w' -> failed ec = false \/ v' = v_begin_stop v -> Q ec w') ->
  (forall x w', Viewed v' w' -> v' = v_begin_stop v \/ v' = v_maybe_finish v -> X x w') ->
  wp (accept_next cfg reason) e w Q X.
Proof.
  intros v' H HQ HX. subst v'. unfold accept_next, state, get_ext, modify_ext, record_diagnostic.
  do 6 eff_step.
  rewrite (viewed_state _ _ H).
  replace (m_accept_pending (w_ext w)) with (v_pending v) by (by rewrite <- H).
  replace (sessions_full cfg w) with (limit <=? Z.of_nat (length (v_sessions v)))
    by (by rewrite <- H).
  unfold v_accept_next, v_live in *. rewrite negb_orb in *.
  destruct (_ || v_pending v) eqn:Hlive.
  { eff_step. eapply wp_mono; [by apply refines_maybe_finish | | auto].
    intros [] w1 H1. eff_step. by apply HQ; [|left]. }
  destruct (limit <=? _) eqn:Hfull; [eff_step; by apply HQ; [|left]|].
  do 4 eff_step. unfold accept_throws in *. eff_step.
  - do 3 eff_step. rewrite bool_decide_eq_false_2 in HQ by (by intros ?). apply HQ; [|by left].
    unfold Viewed in *. rewrite <- H. unfold view_of. simpl. rewrite countb_app, countb_cons. simpl.
    f_equal. rewrite countb_nil. lia.
  - rewrite bool_decide_eq_true_2 in HQ, HX by (by rewrite H0).
    do 5 eff_step. apply wp_emit. eff_step.
    apply orb_false_iff in Hlive as [_ Hp].
    eapply wp_mono; [apply (refines_begin_stop _ _ e _ v) | | by auto].
    + apply ins_log. unfold Viewed in *. rewrite <- H. unfold view_of. simpl.
      f_equal. by rewrite <- Hp, <- H.
    + intros [] w1 H1. eff_step. apply HQ; [done | by right].
Qed.
Lemma wp_retry_accept ec e w v :
  Viewed v w ->
  wp (retry_accept cfg ec) e w
    (fun _ w' => Viewed v w' \/ Viewed (v_begin_stop v) w')
    (fun _ w' => Viewed (v_begin_stop v) w').
Proof.
  intros H. unfold retry_accept, record_diagnostic, get_ext, modify_ext. do 3 eff_step.
  apply wp_emit. eff_step. apply (wp_nothrow (Viewed v)).
  { intros e' w' X' H'. by eff_step; [eff_step|]. }
  { by apply ins_log. }
  intros [] w1 H1. do 2 eff_step. eff_step.
  { eapply wp_mono; [by apply refines_begin_stop | by right | done]. }
  unfold arm_retry_timer, retry_timer_cancel, modify_ext. do 4 eff_step.
  apply (viewed_cancel_io is_retry_timer) in H1. eff_step.
  - eff_step. left. by apply viewed_add_timer.
  - do 2 eff_step. eapply wp_mono; [by apply refines_begin_stop | by right | done].
Qed.

(** ** The closures posted to the listener strand *)

Definition Steps (v : view) (w : aworld) : Prop := v_step limit v (view_of w).

Lemma steps_refines {A} (m : AM A) f e w v v0 :
  refines m f -> Viewed v w -> v_step limit v0 (f v) -> wp m e w (fun _ => Steps v0) (fun _ => Steps v0).
Proof.
  intros Hm H Hs. eapply wp_mono; [by apply Hm | |]; unfold Steps; intros ? w' Hw; rewrite Hw; done.
Qed.

(** A final [accept_next] whose result is discarded. *)
Lemma steps_accept_next reason e w v v0 :
  Viewed v w -> (forall b, v_step limit v0 (v_accept_next limit b v)) ->
  wp (accept_next cfg reason;; ret tt)%eff e w (fun _ => Steps v0) (fun _ => Steps v0).
Proof.
  intros H Hs. eff_step. eapply wp_accept_next; [exact H| |]; unfold Steps.
  - intros ec w' Hw _. eff_step. rewrite Hw. apply Hs.
  - intros x w' Hw _. rewrite Hw. apply Hs.
Qed.

Lemma steps_accepted ec e w v :
  (0 < v_ops v)%nat -> view_of (ext_update (set_m_accept_pending false) w) = v_take v ->
  wp (accepted cfg ec) e w (fun _ => Steps v) (fun _ => Steps v).
Proof.
  intros Ho H. unfold accepted, state, get_ext, modify_ext, record_diagnostic. do 4 eff_step.
  assert (Hst : m_state w = v_state v) by (change (v_state (view_of (ext_update (set_m_accept_pending false) w)) = v_state v); by rewrite H).
  set (w1 := ext_update (set_m_accept_pending false) w) in *.
  change (m_state w1) with (m_state w). rewrite Hst. change (Viewed (v_take v) w1) in H.
  case_bool_decide as Hr; simpl.
  2: { eapply steps_refines; [apply refines_maybe_finish | done | by constructor]. }
  eff_step.
  { eapply wp_mono; [by apply wp_retry_accept | |]; unfold Steps; simpl.
    - intros _ w' [Hw|Hw]; rewrite Hw; by constructor.
    - intros _ w' Hw. rewrite Hw. by constructor. }
  do 13 eff_step; [|].
  - do 2 eff_step. eff_step. apply wp_emit.
    eapply steps_accept_next; [by apply ins_log | intros; by constructor].
  - do 8 eff_step. eff_step. apply wp_emit.
    set (c := length _). eff_step.
    eapply (wp_nothrow (Viewed (v_add_session c (v_take v)))); [by apply conn_post_start; apply _ | |].
    { apply ins_log. unfold Viewed in *. by rewrite <- H. }
    intros [] w2 H2. eapply steps_accept_next; [done | intros; by constructor].
Qed.

Lemma wp_drop_session e w v p (Q : unit -> aworld -> Prop) X :
  Viewed v w -> (forall w', Viewed (v_drop_session p v) w' -> Q tt w') ->
  wp (match find_first p (v_sessions v) with
      | None => ret tt
      | Some _ =>
        modify_ext (set_m_sessions (erase_first p (v_sessions v)));;
        modify (fun w => set_m_active_sessions (u64 (m_active_sessions w - 1)) w)
      end)%eff e w Q X.
Proof.
  intros H HQ. unfold v_drop_session in HQ.
  destruct (find_first p (v_sessions v)); [|eff_step; by apply HQ].
  unfold modify_ext. do 3 eff_step. apply HQ. unfold Viewed in *. by rewrite <- H.
Qed.

Lemma steps_session_finished info ec ep e w v :
  Viewed v w ->
  wp (session_finished cfg info ec ep) e w (fun _ => Steps v) (fun _ => Steps v).
Proof.
  intros H. unfold session_finished, state, get_ext, record_diagnostic. do 4 eff_step.
  replace (m_sessions (w_ext w)) with (v_sessions v) by (by rewrite <- H).
  set (p := has_id _ _). eff_step. eapply wp_drop_session; [exact H|]. intros w1 H1.
  eff_step. apply (wp_nothrow (Viewed (v_drop_session p v))); [|done|].
  { intros ????. by eff_step; [eff_step|]. }
  intros [] w2 H2. eff_step. apply wp_emit. do 2 eff_step.
  apply (ins_log (event_of cfg session_stopped info ec ep w2)) in H2.
  change (m_state (log_event _ w2)) with (m_state w2).
  set (w3 := log_event _ w2) in *. change (m_state w2) with (m_state w3).
  rewrite (viewed_state _ _ H2).
  assert (Hd : v_state (v_drop_session p v) = v_state v).
  { unfold v_drop_session. by destruct (find_first _ _). }
  rewrite Hd. eff_step. case_bool_decide as Hr.
  - eff_step. eapply wp_accept_next; [exact H2 | |].
    + intros ec' w4 H4 _. eff_step.
      eapply steps_refines; [apply refines_maybe_finish | exact H4 | by constructor].
    + intros x w4 H4 _. unfold Steps. rewrite H4.
      by constructor.
  - eff_step. eapply steps_refines; [apply refines_maybe_finish | done | by constructor].
Qed.

Lemma nt_shutdown_deadline v ec : nothrow (Viewed v) (shutdown_deadline cfg ec).
Proof.
  intros e w X H. unfold shutdown_deadline, record_diagnostic, get_ext. eff_step; [by eff_step|].
  do 3 eff_step. apply wp_emit. do 2 eff_step.
  apply (conn_for_each (Viewed v)); [|by apply ins_log]. intros c. by apply conn_force_close; apply _.
Qed.

Lemma steps_retry_timer_expired ec e w v :
  Viewed v w -> wp (retry_timer_expired cfg ec) e w (fun _ => Steps v) (fun _ => Steps v).
Proof.
  intros H. unfold retry_timer_expired. eff_step; [|eff_step].
  - eapply steps_refines; [apply refines_maybe_finish | done | constructor].
  - eapply steps_refines; [apply refines_begin_stop | done | constructor].
  - eapply steps_accept_next; [done | constructor].
Qed.

(** [open_acceptor] succeeds only with the acceptor open. *)
Lemma wp_open_acceptor e w v (Q : error_code -> aworld -> Prop) X :
  Viewed v w -> v_open v = false ->
  (forall ec w' o, Viewed (v_set_open o v) w' -> (failed ec = false -> o = true) -> Q ec w') ->
  wp (open_acceptor cfg) e w Q X.
Proof.
  intros H Ho HQ. unfold open_acceptor, acceptor_open, get_ext, modify_ext. do 5 eff_step.
  replace (m_acceptor_open (w_ext w)) with (v_open v) by (by rewrite <- H). rewrite Ho.
  assert (Hclosed : Viewed (v_set_open false v) w).
  { unfold Viewed. rewrite H. destruct v. simpl in *. by subst. }
  assert (Hopen : Viewed (v_set_open true v) (ext_update (set_m_acceptor_open true) w)).
  { unfold Viewed. by rewrite <- H. }
  eff_step.
  - eff_step. rewrite Heqb. simpl.
    assert (Hq : Q (e_open (e_ext e)) w) by (apply (HQ _ _ false); [done | congruence]).
    destruct (c_configured_endpoint cfg); repeat first [rewrite Heqb; simpl | eff_step]; done.
  - do 3 eff_step.
    destruct (c_configured_endpoint cfg) as [a p| |]; simpl;
      [destruct (is_v6 a)|..]; simpl; repeat eff_step; by apply (HQ _ _ true).
Qed.
Lemma steps_complete_on h ec (e : aenv) w v0 :
  Steps v0 w -> wp (complete_on listener_strand h ec) e w (fun _ => Steps v0) (fun _ => Steps v0).
Proof.
  intros H. eapply wp_mono; [by apply (pres_complete_on (Viewed (view_of w)))| |];
    unfold Steps; intros ? w' ->; done.
Qed.

Lemma steps_start_on_strand h e w v :
  Viewed v w -> v_inv limit v ->
  wp (start_on_strand cfg h) e w (fun _ => Steps v) (fun _ => Steps v).
Proof.
  intros H Hinv. unfold start_on_strand, state, clear_diagnostics. do 2 eff_step.
  rewrite (viewed_state _ _ H).
  assert (Hstutter : Steps v w) by (unfold Steps; rewrite H; constructor).
  case_bool_decide; [by apply steps_complete_on|]. eff_step; [by apply steps_complete_on|].
  assert (Hst : v_state v = listener_state.idle \/ v_state v = listener_state.stopped).
  { apply andb_false_iff in Heqb. rewrite !negb_false_iff, !bool_decide_eq_true in Heqb. done. }
  destruct (vi_rest _ _ Hinv Hst) as (Hss & Hp & Ho).
  do 7 eff_step. apply wp_transition_to. eff_step.
  eapply wp_open_acceptor; [apply viewed_enter, H | done |].
  intros ec w1 o H1 Ho1. eff_step.
  { eff_step. eapply wp_pres; [eapply pres_complete_on, viewed_insensitive | exact H1 | |].
    - intros [] w2 H2. eapply steps_refines; [apply refines_finish | exact H2 |].
      by apply (vs_start_failed limit v o).
    - intros x w2 H2. unfold Steps. rewrite H2. by apply (vs_start_interrupted limit v o). }
  rewrite Ho1 in H1 by done. do 2 eff_step. eff_step.
  apply (wp_nothrow (Viewed (v_set_open true (v_set_state listener_state.starting v)))); [|done|].
  { intros ????. by eff_step; eff_step. }
  intros [] w2 H2. eff_step. eapply wp_accept_next; [exact H2 | |].
  - intros accept_ec w3 H3 Hec. eff_step.
    + destruct Hec as [Hec|Hec]; [congruence|]. apply steps_complete_on. unfold Steps.
      rewrite H3, Hec. by apply (vs_start_accept_failed limit v).
    + eff_step. apply wp_transition_to. apply steps_complete_on. unfold Steps.
      rewrite (viewed_enter _ _ _ _ H3). by apply (vs_started limit _ v).
  - intros x w3 H3 [E|E]; unfold Steps; rewrite H3, E.
    + by apply (vs_start_accept_failed limit v).
    + by apply (vs_start_interrupted limit v true).
Qed.
Lemma viewed_steps v w : Viewed v w -> Steps v w.
Proof. intros H. unfold Steps. rewrite H. constructor. Qed.

Lemma steps_pres {A} (m : AM A) e w v :
  (forall v, pres (Viewed v) m) -> Viewed v w -> wp m e w (fun _ => Steps v) (fun _ => Steps v).
Proof. intros Hm H. eapply wp_pres; [apply Hm | exact H | |]; auto using viewed_steps. Qed.

Lemma steps_nothrow {A} (m : AM A) e w v :
  (forall v, nothrow (Viewed v) m) -> Viewed v w -> wp m e w (fun _ => Steps v) (fun _ => Steps v).
Proof. intros Hm. apply steps_pres. intros v'. apply nothrow_pres, Hm. Qed.

(** A task that is not an accept completion leaves the queue. *)
Lemma viewed_dequeue i ex t w :
  w_queue w !! i = Some (ex, t) -> accept_task (ex, t) = false ->
  Viewed (view_of w) (set_w_queue (remove_at i (w_queue w)) w).
Proof.
  intros Hi Ht. unfold Viewed, view_of. simpl.
  by rewrite (countb_remove_at accept_task _ _ _ Hi), Ht.
Qed.

Lemma view_dequeue_accept i ex ec w :
  w_queue w !! i = Some (ex, TExt (TAccepted ec)) ->
  (0 < v_ops (view_of w))%nat /\
  view_of (ext_update (set_m_accept_pending false) (set_w_queue (remove_at i (w_queue w)) w)) =
    v_take (view_of w).
Proof.
  intros Hi. unfold view_of, v_take. simpl. rewrite (countb_remove_at accept_task _ _ _ Hi). simpl.
  split; [lia|done].
Qed.

Lemma steps_run_task t e w v :
  accept_task (listener_strand, t) = false -> Viewed v w -> v_inv limit v ->
  wp (run_task cfg t) e w (fun _ => Steps v) (fun _ => Steps v).
Proof.
  intros Ht H Hinv. destruct t as [h|id h|id| |on h ec|[]]; simpl; try done.
  - unfold run_start, clear_slot. do 4 eff_step. eff_step.
    + apply steps_complete_on. by apply viewed_steps.
    + by apply steps_start_on_strand.
  - apply steps_pres; [|done]. intros v'. apply pres_run_wait, _.
  - apply steps_pres; [|done]. intros v'. apply pres_cancel_wait, _.
  - unfold stop_on_strand. eapply steps_refines; [apply refines_begin_stop | exact H | constructor].
  - apply steps_pres; [|done]. intros v'. apply pres_run_dispatch, _.
  - by apply steps_retry_timer_expired.
  - apply steps_nothrow; [|done]. intros v'. apply nt_shutdown_deadline.
  - by apply steps_session_finished.
  - apply steps_nothrow; [|done]. intros v'. by apply conn_start; apply _.
  - apply steps_nothrow; [|done]. intros v'. by apply conn_run_request_stop; apply _.
  - apply steps_nothrow; [|done]. intros v'. by apply conn_run_force_close; apply _.
Qed.

Lemma view_complete_io i op ec w :
  a_io (w_ext w) !! i = Some op ->
  Viewed (view_of w)
    (set_w_queue (w_queue w ++ [(listener_strand, TExt (io_completion op ec))])
       (ext_update (set_a_io (remove_at i (a_io (w_ext w)))) w)).
Proof.
  intros Hi. unfold Viewed, view_of. simpl. f_equal.
  rewrite (countb_remove_at is_accept _ _ _ Hi), countb_app, countb_cons, countb_nil.
  destruct op; simpl; lia.
Qed.

Lemma steps_exec a e w :
  v_inv limit (view_of w) ->
  wp (exec cfg a) e w (fun _ => Steps (view_of w)) (fun _ => Steps (view_of w)).
Proof.
  intros Hinv. assert (H : Viewed (view_of w) w) by done.
  destruct a as [ex al sl|ex al sl| |op ty|i ec|c x ec|i|value|id]; simpl.
  - apply steps_pres; [|done]. intros v. apply pres_do_async_start, _.
  - apply steps_pres; [|done]. intros v. apply pres_do_async_wait, _.
  - apply steps_nothrow; [|done]. intros v. apply nt_request_stop, _.
  - apply steps_nothrow; [|done]. intros v. apply nt_emit_cancellation, _.
  - unfold complete_io, get_ext, modify_ext. do 2 eff_step. eff_step; [|eff_step; by apply viewed_steps].
    do 3 eff_step. apply viewed_steps.
    exact (view_complete_io i _ (if is_accept _ then ec else success) w Heqo).
  - apply steps_nothrow; [|done]. intros v. by apply conn_session_completes; apply _.
  - unfold run_posted. do 2 eff_step. eff_step; [|eff_step; by apply viewed_steps].
    destruct p as [ex t]. do 2 eff_step. destruct (accept_task (ex, t)) eqn:Ht.
    + destruct t as [| | | | |[]]; try done. destruct (view_dequeue_accept _ _ _ _ Heqo) as [Ho Hv].
      by apply steps_accepted.
    + apply steps_run_task; [by destruct t as [| | | | |[]] | by eapply viewed_dequeue | done].
  - unfold update_registry. eff_step. by apply viewed_steps.
  - unfold update_registry. eff_step. by apply viewed_steps.
Qed.
End Refinement.

(** ** Reachable listeners *)

Lemma initial_view cfg registry w :
  make_listener cfg registry = inr w ->
  valid_acceptor_options (c_options cfg) /\
  view_of w = mk_view listener_state.idle 0 false [] false 0.
Proof.
  unfold make_listener. destruct (validate_acceptor_options _) as [|[]] eqn:Hv; [done|].
  intros [= <-]. split; [by apply validate_acceptor_options_ok | done].
Qed.

Section Reachable.
Variable cfg : config.
Hypothesis Hrange : options_in_range (c_options cfg).

Abbreviation limit := (max_active_sessions (c_options cfg)).

Lemma limit_range registry w : make_listener cfg registry = inr w -> 0 < limit < u64_modulus.
Proof.
  intros [[] _]%initial_view. destruct Hrange as (_ & _ & ? & _). lia.
Qed.

Lemma step_refines_view ok w w' :
  v_inv limit (view_of w) -> step cfg ok w w' -> v_step limit (view_of w) (view_of w').
Proof.
  intros Hinv Hs. destruct Hs as [e a w1 w2 _ E | e a w1 w2 x _ E];
    pose proof (steps_exec cfg a e w1 Hinv) as H; unfold wp in H; by rewrite E in H.
Qed.

Lemma reach_view ok registry n w :
  reach cfg ok registry n w -> 0 < limit < u64_modulus /\ v_inv limit (view_of w).
Proof.
  induction 1 as [w Hw | n w w' _ [Hl IH] Hs].
  - split; [by eapply limit_range|]. destruct (initial_view _ _ _ Hw) as [Hv ->].
    pose proof (limit_range _ _ Hw). constructor; simpl; try done; lia.
  - split; [done|]. eapply v_inv_step; [done..|]. by eapply step_refines_view.
Qed.

Lemma reach_busy ok registry n w : reach cfg ok registry n w -> v_busy (view_of w).
Proof.
  induction 1 as [w Hw | n w w' Hr IH Hs].
  - destruct (initial_view _ _ _ Hw) as [_ ->]. by apply v_busy_other.
  - eapply v_busy_step; [exact IH|]. eapply step_refines_view; [|exact Hs]. by eapply reach_view.
Qed.
End Reachable.
