(* ===== verification/ListenerAccount.v ===== *)
(** * Where completion handlers are

    A completion handler is move-only.  At any time it is in exactly one place: a
    posted closure, a waiter of the listener, or dispatched to its executor.
    [accounted w] lists the operations whose handler is in one of these places.

    [Acct g held w]: together with the handlers [held] by the running function,
    they are, when [g] holds, exactly the operations initiated so far (as a
    permutation: none lost, none duplicated), and in any case among them, none
    twice.  [g] is the assumption that the executor accepts posted work.

    What must be accounted for is a parameter, a function of the number of
    operations initiated: [initiated] for the account of all of them, a constant
    to say that an action takes on no new one. *)

From S2P Require Import Prelude Errors Effect Options Endpoint Status Observers ListenerBase.
From S2P Require Import ListenerFacts.

(** All of [l] accounted for in [k], and conversely when [g]. *)
Definition conserves {A} (g : bool) (l k : list A) : Prop := if g then l ≡ₚ k else l ⊆+ k.

Lemma conserves_perm {A} g (l l' k : list A) : l' ≡ₚ l -> conserves g l k -> conserves g l' k.
Proof. intros Hl. destruct g; simpl; by rewrite Hl. Qed.

Lemma conserves_drop {A} (x : A) l k : conserves false (x :: l) k -> conserves false l k.
Proof. simpl. intros <-. by apply submseteq_cons. Qed.

Class Target := target : nat -> list nat.

Definition initiated : Target := seq 0.

(** A new operation is one more to account for. *)
Definition grows (tgt : Target) : Prop := forall n, target (S n) ≡ₚ n :: target n.

Lemma initiated_grows : grows initiated.
Proof. intros n. unfold target, initiated. rewrite seq_S. symmetry. apply Permutation_cons_append. Qed.

Lemma conserves_fresh {tgt : Target} g l n :
  grows tgt -> conserves g l (target n) -> conserves g (n :: l) (target (S n)).
Proof.
  intros Hg%(fun H => H n). destruct g; simpl; intros H; rewrite Hg; [by rewrite H | by apply submseteq_skip].
Qed.

Section Account.
Context {T X Y : Type} {tgt : Target} (cfg : config).
Implicit Types (w : world T X) (e : env T Y).

Definition handler_ops (h : option completion_handler) : list nat :=
  match h with Some h => [h_op h] | None => [] end.

Definition task_ops (x : executor * task T) : list nat :=
  match snd x with
  | TStart h | TWait _ h => [h_op h]
  | TDispatch _ h _ => handler_ops h
  | _ => []
  end.

Definition waiter_ops (x : wait_operation) : list nat := handler_ops (wo_handler x).

Definition accounted (w : world T X) : list nat :=
  flat_map task_ops (w_queue w) ++ flat_map waiter_ops (m_waiters w) ++
  map (fun x => snd (fst x)) (w_completed w).

Definition Acct (g : bool) (held : list nat) (w : world T X) : Prop :=
  conserves g (held ++ accounted w) (target (w_next_op w)).

(** The answers of the environment [g] assumes. *)
Definition acct_env (g : bool) (e : env T Y) : Prop :=
  g = true -> forall ex t, e_post e ex t = None.

Global Instance acct_meta g held : MetaInsensitive (Acct g held).
Proof. split; intros ? w H; exact H. Qed.

Global Instance acct_log g held : LogInsensitive (Acct g held).
Proof. split; intros ? w H; exact H. Qed.

Lemma accounted_push w x :
  accounted (set_w_queue (w_queue w ++ [x]) w) ≡ₚ task_ops x ++ accounted w.
Proof.
  unfold accounted. simpl. rewrite flat_map_app. simpl. rewrite app_nil_r.
  rewrite <- app_assoc. apply Permutation_app_swap_app.
Qed.

(** Posting a closure that owns the handlers [task_ops]. *)
Lemma acct_post g held ex t e w :
  acct_env g e -> Acct g (task_ops (ex, t) ++ held) w ->
  wp (post ex t) e w (fun _ => Acct g held) (fun _ w' => g = false /\ w' = w).
Proof.
  intros He H. apply wp_post.
  - intros _. unfold Acct in *. simpl. eapply conserves_perm; [|exact H].
    rewrite accounted_push, Permutation_app_swap_app. by rewrite <- app_assoc.
  - intros x Hx. destruct g; [|done]. by rewrite He in Hx.
Qed.

Lemma acct_drop held w x : Acct false (x ++ held) w -> Acct false held w.
Proof.
  unfold Acct. rewrite <- app_assoc. induction x as [|y x IH]; simpl; [done|].
  intros H. apply IH. by eapply conserves_drop.
Qed.

Lemma acct_complete_on g held ex h ec e w :
  acct_env g e -> Acct g (handler_ops h ++ held) w ->
  wp (complete_on ex h ec) e w (fun _ => Acct g held) (fun _ => Acct g held).
Proof.
  intros He H. eapply wp_mono; [by apply acct_post | done |].
  intros x w' [-> ->]. by eapply acct_drop.
Qed.

(** Taking the task at position [i] hands over the handlers it owns. *)
Lemma acct_dequeue g held i x w :
  w_queue w !! i = Some x -> Acct g held w ->
  Acct g (task_ops x ++ held) (set_w_queue (remove_at i (w_queue w)) w).
Proof.
  intros Hi H. unfold Acct in *. simpl. eapply conserves_perm; [|exact H].
  unfold accounted. simpl. rewrite (remove_at_perm _ _ _ Hi) at 2. simpl.
  rewrite <- !app_assoc. by rewrite Permutation_app_swap_app.
Qed.

Abbreviation akept g held m := (kept (E := env T Y) (acct_env g) (Acct g held) m).

(** [complete_on] only posts. *)
Lemma frame_complete_on ex h ec e w :
  wp (complete_on ex h ec) e w
    (fun _ w' => m_waiters w' = m_waiters w) (fun _ w' => m_waiters w' = m_waiters w).
Proof. by apply wp_post. Qed.

Lemma flat_map_waiters_nil l :
  (forall j wo, l !! j = Some wo -> wo_handler wo = None) -> flat_map waiter_ops l = [].
Proof.
  induction l as [|x l IH]; intros H; simpl; [done|].
  unfold waiter_ops at 1. rewrite (H 0 x eq_refl). simpl. apply IH. intros j. apply (H (S j)).
Qed.

Lemma acct_hold_waiter g held w i wo :
  m_waiters w !! i = Some wo -> Acct g held w ->
  Acct g (waiter_ops wo ++ held)
    (set_m_waiters (<[i := mk_wait (wo_id wo) (wo_op wo) None]> (m_waiters w)) w).
Proof.
  intros Hi H. unfold Acct in *. simpl. eapply conserves_perm; [|exact H].
  unfold accounted. simpl.
  rewrite <- (take_drop_middle (m_waiters w) i wo Hi) at 2.
  rewrite insert_take_drop by (by eapply lookup_lt_Some). rewrite !flat_map_app. simpl.
  unfold waiter_ops at 3. simpl. solve_Permutation.
Qed.

Lemma acct_complete_waiter g held i e w :
  acct_env g e -> Acct g held w ->
  wp (complete_waiter i) e w
    (fun _ w' => Acct g held w' /\ length (m_waiters w') = length (m_waiters w) /\
       forall j wo, m_waiters w' !! j = Some wo ->
         wo_handler wo = None \/ (j <> i /\ m_waiters w !! j = Some wo))
    (fun _ => Acct g held).
Proof.
  intros He H. unfold complete_waiter, clear_slot. do 2 eff_step.
  destruct (m_waiters w !! i) as [wo|] eqn:Hi.
  2: { eff_step. split_and!; [done | done |]. intros j wo Hj. right. split; [congruence | done]. }
  do 6 eff_step. apply (acct_hold_waiter _ _ _ _ _ Hi) in H.
  eapply wp_mono; [apply wp_conj; [by apply acct_complete_on | apply frame_complete_on] | |];
    simpl; [|tauto].
  intros _ w' [H' Hw]. rewrite Hw, length_insert. split_and!; [done | done |].
  intros j wo' [(-> & <- & _) | [Hne Hj]]%list_lookup_insert_Some; [by left | by right].
Qed.

Lemma acct_complete_waiters g held : akept g held complete_waiters.
Proof.
  intros e w He H. unfold complete_waiters. do 3 eff_step.
  set (n := length (m_waiters w)). eapply wp_mono.
  { apply (wp_for_each _ _ e (fun done w' => Acct g held w' /\ length (m_waiters w') = n /\
      forall j wo, j ∈ done -> m_waiters w' !! j = Some wo -> wo_handler wo = None)
      (fun _ => Acct g held)).
    - intros done x rest w' _ (H' & Hl & Hd).
      eapply wp_mono; [by apply acct_complete_waiter | | done].
      intros _ w2 (H2 & Hl2 & Hd2). split_and!; [done | congruence |].
      intros j wo Hj Hw. destruct (Hd2 j wo Hw) as [|[Hne Hw']]; [done|].
      apply elem_of_app in Hj as [Hj|Hj%list_elem_of_singleton]; [by eapply Hd | done].
    - split_and!; [done | done |]. intros j wo Hj. by apply elem_of_nil in Hj. }
  2: done.
  intros [] w' (H' & Hl & Hd). eff_step. unfold Acct in *. simpl.
  eapply conserves_perm; [|exact H']. unfold accounted. simpl.
  rewrite (flat_map_waiters_nil (m_waiters w')); [done|].
  intros j wo Hj. eapply Hd; [|done]. apply elem_of_seq. apply lookup_lt_Some in Hj. lia.
Qed.

(** Posting a closure that owns no handler. *)
Lemma acct_post_free g held ex t : task_ops (ex, t) = [] -> akept g held (post ex t).
Proof.
  intros Ht e w He H. eapply wp_mono; [apply (acct_post g held); [done|by rewrite Ht] | done |].
  by intros x w' [_ ->].
Qed.

Lemma acct_request_stop g held : akept g held request_stop.
Proof.
  intros e w He H. unfold request_stop, state. do 3 eff_step. eff_step; [by eff_step|].
  eff_step. eapply wp_mono; [by eapply acct_post_free | done |]. intros ? ? ?. by eff_step.
Qed.

Lemma acct_emit_cancellation g held op type : akept g held (emit_cancellation op type).
Proof.
  unfold emit_cancellation. kept_auto; try done. by apply acct_post_free.
Qed.

Lemma acct_fresh_op g e w (Q : nat -> world T X -> Prop) (Z : exn -> world T X -> Prop) :
  grows tgt -> Acct g [] w -> (forall op w', Acct g [op] w' -> Q op w') -> wp fresh_op e w Q Z.
Proof.
  intros Hg H HQ. unfold fresh_op. do 5 eff_step. apply HQ. by apply conserves_fresh.
Qed.

Lemma acct_do_async_start g ex alloc slot : grows tgt -> akept g [] (do_async_start ex alloc slot).
Proof.
  intros Hgr e w He H. unfold do_async_start. eff_step. apply (acct_fresh_op g); [done | done |].
  intros op w1 H1. eff_step.
  apply (wp_nothrow (Acct g [op])); [by apply nt_assign_slot; apply _ | done |]. intros [] w2 H2.
  eff_step. eapply wp_mono; [by apply (acct_post g []) | done |]. intros x w3 [Hg ->].
  by apply acct_complete_on.
Qed.

Lemma acct_do_async_wait g ex alloc slot : grows tgt -> akept g [] (do_async_wait ex alloc slot).
Proof.
  intros Hgr e w He H. unfold do_async_wait, clear_slot. eff_step. apply (acct_fresh_op g); [done | done |].
  intros op w1 H1. do 5 eff_step.
  apply (wp_nothrow (Acct g [op])); [by apply nt_assign_slot; apply _ | done |]. intros [] w2 H2.
  eff_step. eapply wp_mono; [by apply (acct_post g []) | done |]. intros x w3 [Hg ->].
  do 2 eff_step. by apply acct_complete_on.
Qed.

(** ** The posted closures: they own the handler they were posted with *)

Lemma acct_run_wait g id h e w :
  acct_env g e -> Acct g [h_op h] w ->
  wp (run_wait id h) e w (fun _ => Acct g []) (fun _ => Acct g []).
Proof.
  intros He H. unfold run_wait, state, clear_slot. do 4 eff_step. eff_step.
  - do 2 eff_step. by apply acct_complete_on.
  - eff_step; [do 4 eff_step; by apply acct_complete_on|]. eff_step.
    unfold Acct in *. simpl in *. eapply conserves_perm; [|exact H].
    unfold accounted. simpl. rewrite flat_map_app. simpl. solve_Permutation.
Qed.

Lemma acct_cancel_wait g held id : akept g held (cancel_wait id).
Proof.
  intros e w He H. unfold cancel_wait, clear_slot. do 2 eff_step.
  destruct (find_first _ _) as [wo|] eqn:Hf; [|by eff_step].
  do 4 eff_step. apply acct_complete_on; [done|].
  unfold Acct in *. simpl. eapply conserves_perm; [|exact H].
  unfold accounted. simpl. apply find_first_perm in Hf. rewrite Hf at 2. simpl.
  unfold waiter_ops at 2. solve_Permutation.
Qed.

Lemma acct_run_dispatch g on h ec e w :
  Acct g (handler_ops h) w ->
  wp (run_dispatch on h ec) e w (fun _ => Acct g []) (fun _ => Acct g []).
Proof.
  intros H. unfold run_dispatch. destruct h as [h|]; eff_step; [|done].
  unfold Acct in *. simpl in *. eapply conserves_perm; [|exact H].
  unfold accounted. simpl. rewrite map_app. simpl. solve_Permutation.
Qed.

Lemma acct_run_start g (start_on_strand : completion_handler -> M (env T Y) (world T X) unit) h e w :
  (forall w, Acct g [h_op h] w ->
     wp (start_on_strand h) e w (fun _ => Acct g []) (fun _ => Acct g [])) ->
  acct_env g e -> Acct g [h_op h] w ->
  wp (run_start start_on_strand h) e w (fun _ => Acct g []) (fun _ => Acct g []).
Proof.
  intros Hs He H. unfold run_start, clear_slot. do 4 eff_step.
  eff_step; [by apply acct_complete_on | by apply Hs].
Qed.
End Account.
