(* ===== verification/AcceptorAccount.v ===== *)
(** * Completions of the acceptor listener

    Every function of the listener keeps the account of completion handlers, so
    that each asynchronous operation completes at most once and, while the
    executor accepts work, its handler is never lost. *)

From S2P Require Import Prelude Errors Effect Options Endpoint Status Observers ListenerBase.
From S2P Require Import ListenerFacts ListenerAccount Connection AcceptorFacts Acceptor.

Local Open Scope Z_scope.

Global Instance acct_conn {tgt : Target} g held : ConnInsensitive (Acct g held).
Proof.
  split; [intros ? w H; exact H|].
  intros ex t w Ht H. unfold Acct in *. simpl. eapply conserves_perm; [|exact H].
  rewrite accounted_push. by destruct t as [| | | | |[]].
Qed.

Lemma acct_cancel_io {tgt : Target} g held which (w : aworld) : Acct g held w -> Acct g held (cancel_io which w).
Proof.
  unfold Acct, accounted. simpl. rewrite flat_map_app.
  replace (flat_map task_ops (map _ _)) with (@nil nat); [by rewrite app_nil_r|].
  by induction (List.filter which (a_io (w_ext w))).
Qed.

Lemma acct_enter {tgt : Target} cfg g held st (w : aworld) : Acct g held w -> Acct g held (enter cfg st w).
Proof. done. Qed.

#[export] Hint Resolve acct_cancel_io acct_enter : eff.

Section Listener.
Context {tgt : Target} (cfg : config) (g : bool).

Abbreviation akept held m := (kept (E := aenv) (S := aworld) (acct_env g) (Acct g held) m).

Lemma acct_transition_to held st : akept held (transition_to cfg st).
Proof. intros e w _ H. by apply wp_transition_to. Qed.

Lemma acct_emit held type info ec ep : akept held (emit cfg type info ec ep).
Proof. apply kept_nothrow, nt_emit, _. Qed.

Lemma acct_record_diagnostic held ec ep : akept held (record_diagnostic ec ep).
Proof. apply kept_nothrow, nt_record_diagnostic, _. Qed.

Lemma acct_set_stop_reason held r : akept held (set_stop_reason r).
Proof. apply kept_nothrow, nt_set_stop_reason, _. Qed.

Lemma acct_keep_first_error held ec : akept held (keep_first_error ec).
Proof. apply kept_nothrow, nt_keep_first_error, _. Qed.

Lemma acct_conn_request_stop held c : akept held (Connection.request_stop c).
Proof. apply kept_nothrow, conn_request_stop, _. Qed.

Lemma acct_conn_force_close held c : akept held (force_close c).
Proof. apply kept_nothrow, conn_force_close, _. Qed.

Lemma acct_waiters held : akept held complete_waiters.
Proof. apply acct_complete_waiters. Qed.

Lemma acct_modify_ext held f : akept held (modify_ext f).
Proof. by apply kept_modify. Qed.

Lemma acct_get_ext {A} held (f : acceptor_state -> A) : akept held (get_ext f).
Proof. apply kept_gets. Qed.

Lemma acct_post_start held c :
  akept held (post (connection_strand c) (TExt (TConnStart c))).
Proof. by apply acct_post_free. Qed.

#[local] Hint Resolve acct_transition_to acct_emit acct_record_diagnostic acct_set_stop_reason
  acct_keep_first_error acct_conn_request_stop acct_conn_force_close acct_waiters
  acct_modify_ext acct_get_ext acct_post_start : eff.

Ltac acct_auto := kept_auto; try exact I; auto with eff.

Lemma acct_acceptor_close held : akept held acceptor_close.
Proof. unfold acceptor_close. acct_auto. Qed.

Lemma acct_acceptor_cancel held : akept held acceptor_cancel.
Proof. unfold acceptor_cancel. acct_auto. Qed.

Lemma acct_retry_timer_cancel held : akept held retry_timer_cancel.
Proof. unfold retry_timer_cancel. acct_auto. Qed.

Lemma acct_shutdown_timer_cancel held : akept held shutdown_timer_cancel.
Proof. unfold shutdown_timer_cancel. acct_auto. Qed.

#[local] Hint Resolve acct_acceptor_close acct_acceptor_cancel acct_retry_timer_cancel
  acct_shutdown_timer_cancel : eff.

Lemma acct_finish held ec reason : akept held (Acceptor.finish cfg ec reason).
Proof. unfold Acceptor.finish, state. acct_auto. Qed.
#[local] Hint Resolve acct_finish : eff.

Lemma acct_maybe_finish held : akept held (maybe_finish cfg).
Proof. unfold maybe_finish, state, stop_reason. acct_auto. Qed.
#[local] Hint Resolve acct_maybe_finish : eff.

Lemma acct_begin_stop held ec reason : akept held (begin_stop cfg ec reason).
Proof. unfold begin_stop, state, arm_shutdown_timer. acct_auto. Qed.
#[local] Hint Resolve acct_begin_stop : eff.

Lemma acct_accept_next held reason : akept held (accept_next cfg reason).
Proof. unfold accept_next, state. acct_auto. Qed.
#[local] Hint Resolve acct_accept_next : eff.

Lemma acct_retry_accept held ec : akept held (retry_accept cfg ec).
Proof. unfold retry_accept, arm_retry_timer. acct_auto. Qed.
#[local] Hint Resolve acct_retry_accept : eff.

Lemma acct_accepted held ec : akept held (accepted cfg ec).
Proof. unfold accepted, state. acct_auto. Qed.

Lemma acct_session_finished held info ec ep : akept held (session_finished cfg info ec ep).
Proof. unfold session_finished, state. acct_auto. Qed.

Lemma acct_shutdown_deadline held ec : akept held (shutdown_deadline cfg ec).
Proof. unfold shutdown_deadline. acct_auto. Qed.

Lemma acct_retry_timer_expired held ec : akept held (retry_timer_expired cfg ec).
Proof. unfold retry_timer_expired. acct_auto. Qed.

Lemma acct_open_acceptor held : akept held (open_acceptor cfg).
Proof. unfold open_acceptor, acceptor_open. acct_auto. Qed.

(** Run a sub-computation that keeps the account. *)
Lemma wp_akept {A} held (m : AM A) e w (Q : A -> aworld -> Prop) (X : exn -> aworld -> Prop) :
  akept held m -> acct_env g e -> Acct g held w ->
  (forall a w', Acct g held w' -> Q a w') -> (forall x w', Acct g held w' -> X x w') ->
  wp m e w Q X.
Proof. intros Hm He H HQ HX. eapply wp_mono; [by apply Hm | |]; auto. Qed.

(** An exception that leaves while the start handler is held destroys it; with an
    executor that accepts work there is none. *)
Lemma wp_held {A} op (m : AM A) e w (Q : A -> aworld -> Prop) :
  akept [op] m -> total accepting m -> acct_env g e -> Acct g [op] w ->
  (forall a w', Acct g [op] w' -> Q a w') -> wp m e w Q (fun _ => Acct g []).
Proof.
  intros Hm Ht He H HQ. specialize (Hm e w He H). specialize (Ht e w). unfold wp in *.
  destruct (m e w) as [a w'| x w'|]; [by apply HQ | |done].
  destruct g; [exfalso; apply Ht; intros ??; by apply He|]. by apply (acct_drop [] w' [op]).
Qed.

Lemma acct_start_on_strand h e w :
  acct_env g e -> Acct g [h_op h] w ->
  wp (start_on_strand cfg h) e w (fun _ => Acct g []) (fun _ => Acct g []).
Proof.
  intros He H. unfold start_on_strand, state, clear_diagnostics. do 2 eff_step.
  eff_step; [by apply acct_complete_on|]. eff_step; [by apply acct_complete_on|].
  do 7 eff_step. apply wp_transition_to. eff_step.
  eapply wp_held; [apply acct_open_acceptor | apply quiet_open_acceptor | done | exact H |].
  intros ec w1 H1. eff_step.
  { eff_step. eapply wp_mono; [by apply (acct_complete_on g []) | | done].
    intros [] w2 H2. by apply acct_finish. }
  do 3 eff_step. eapply wp_held; [| | done | exact H1 |].
  { kept_auto. }
  { total_auto. }
  intros [] w2 H2. eff_step.
  eapply wp_held; [apply acct_accept_next | apply quiet_accept_next | done | exact H2 |].
  intros accept_ec w3 H3. eff_step; [by apply acct_complete_on|].
  eff_step. apply wp_transition_to. by apply acct_complete_on.
Qed.

Lemma acct_run_task x e w :
  acct_env g e -> Acct g (task_ops x ++ []) w ->
  wp (run_task cfg (snd x)) e w (fun _ => Acct g []) (fun _ => Acct g []).
Proof.
  rewrite app_nil_r. intros He H. destruct x as [ex [h|id h|id| |on h ec|[]]]; simpl in *.
  - apply acct_run_start; [|done|done]. intros. by apply acct_start_on_strand.
  - by apply acct_run_wait.
  - by apply acct_cancel_wait.
  - unfold stop_on_strand. by apply acct_begin_stop.
  - by apply acct_run_dispatch.
  - by apply acct_accepted.
  - by apply acct_retry_timer_expired.
  - by apply acct_shutdown_deadline.
  - by apply acct_session_finished.
  - by apply (conn_start (Acct g [])).
  - by apply (conn_run_request_stop (Acct g [])).
  - by apply (conn_run_force_close (Acct g [])).
Qed.

(** The actions that initiate an operation. *)
Definition initiates (a : action) : bool :=
  match a with AStart _ _ _ | AWait _ _ _ => true | _ => false end.

Lemma acct_exec a : (initiates a = true -> grows tgt) -> akept [] (exec cfg a).
Proof.
  intros Hgr e w He H. destruct a as [ex al sl|ex al sl| |op ty|i ec|c x ec|i|value|id]; simpl.
  - apply acct_do_async_start; [by apply Hgr | done | done].
  - apply acct_do_async_wait; [by apply Hgr | done | done].
  - by apply acct_request_stop.
  - by apply acct_emit_cancellation.
  - unfold complete_io, get_ext, modify_ext. do 2 eff_step. eff_step; [|by eff_step].
    do 3 eff_step. unfold Acct in *. eapply conserves_perm; [|exact H]. simpl.
    unfold accounted. simpl. rewrite flat_map_app. simpl. by rewrite app_nil_r.
  - by apply (conn_session_completes (Acct g [])).
  - unfold run_posted. do 2 eff_step. destruct (w_queue w !! i) as [[ex t]|] eqn:Hi; [|by eff_step].
    do 2 eff_step. apply (acct_run_task (ex, t)); [done|]. by apply acct_dequeue.
  - unfold update_registry. by eff_step.
  - unfold update_registry. by eff_step.
Qed.

End Listener.

Lemma acct_reach cfg g ok registry n w :
  (forall e, ok e -> acct_env g e) -> reach cfg ok registry n w -> Acct (tgt := initiated) g [] w.
Proof.
  intros Hok. induction 1 as [w Hw | n w w' _ IH Hs].
  - unfold make_listener in Hw. destruct (validate_acceptor_options _); simplify_eq.
    unfold Acct, accounted, conserves. simpl. by destruct g.
  - destruct Hs as [e a w1 w2 He E | e a w1 w2 x He E];
      pose proof (acct_exec (tgt := initiated) cfg g a (fun _ => initiated_grows) e w1 (Hok e He) IH) as H; unfold wp in H; by rewrite E in H.
Qed.

(** ** Waiters

    With an executor that accepts work, a stopped listener has completed its
    waiters, and neither a waiter nor a posted completion has lost its handler. *)

Section Waiters.
Variable cfg : config.

Definition owns_task (x : executor * task acceptor_task) : Prop :=
  match snd x with
  | TDispatch _ None _ => False
  | _ => True
  end.

Definition owns_waiter (wo : wait_operation) : Prop := is_Some (wo_handler wo).

Record Tidy (w : aworld) : Prop := {
  tidy_stopped : m_state w = listener_state.stopped -> m_waiters w = [];
  tidy_queue : Forall owns_task (w_queue w);
  tidy_waiters : Forall owns_waiter (m_waiters w) }.

Abbreviation tkept m := (kept (E := aenv) (S := aworld) accepting Tidy m).

Global Instance tidy_meta : MetaInsensitive Tidy.
Proof. split; intros ? w []; by split. Qed.

Global Instance tidy_log : LogInsensitive Tidy.
Proof. split; intros ? w []; by split. Qed.

Lemma tidy_push ex t w :
  owns_task (ex, t) -> Tidy w -> Tidy (set_w_queue (w_queue w ++ [(ex, t)]) w).
Proof. intros Ht []. split; simpl; [done | by apply Forall_app_2; [|constructor] | done]. Qed.

Global Instance tidy_conn : ConnInsensitive Tidy.
Proof.
  split; [intros ? w []; by split|]. intros ex t w Ht. apply tidy_push. by destruct t.
Qed.

Lemma tidy_ext f w : Tidy w -> Tidy (ext_update f w).
Proof. intros []. by split. Qed.

Lemma tidy_active v w : Tidy w -> Tidy (set_m_active_sessions v w).
Proof. intros []. by split. Qed.

Lemma tidy_cancel_io which w : Tidy w -> Tidy (cancel_io which w).
Proof.
  intros []. split; simpl; [done | | done]. apply Forall_app_2; [done|].
  apply Forall_map, Forall_true. by intros [].
Qed.

Lemma tidy_complete_waiters e w (Q : unit -> aworld -> Prop) X :
  accepting e -> Forall owns_task (w_queue w) -> Forall owns_waiter (m_waiters w) ->
  (forall w', Tidy w' -> Q tt w') -> wp (complete_waiters : AM unit) e w Q X.
Proof.
  intros He Hq Hw HQ. apply wp_complete_waiters; [done|]. apply HQ. split; simpl; [done | | done].
  apply Forall_app_2; [done|]. apply Forall_map. eapply Forall_impl; [exact Hw|].
  intros wo [h Hh]. unfold owns_task, compose. simpl. by rewrite Hh.
Qed.

Lemma tidy_cancel which : nothrow (E := aenv) Tidy (modify (cancel_io which)).
Proof. intros e w X H. apply wp_modify. by apply tidy_cancel_io. Qed.

Lemma tidy_acceptor_close : nothrow Tidy acceptor_close.
Proof.
  intros e w X H. unfold acceptor_close, modify_ext. do 3 eff_step.
  by apply tidy_ext, tidy_cancel_io.
Qed.

Lemma tidy_finish ec reason : tkept (Acceptor.finish cfg ec reason).
Proof.
  intros e w He H. unfold Acceptor.finish, state, set_stop_reason. do 2 eff_step.
  eff_step; [by eff_step|]. do 5 eff_step.
  apply (wp_nothrow Tidy); [by apply nt_keep_first_error; apply _ | |].
  { destruct H. by split. }
  intros [] w1 H1. eff_step. apply (wp_nothrow Tidy); [apply tidy_acceptor_close | done |].
  intros [] w2 H2. eff_step. apply (wp_nothrow Tidy); [apply tidy_cancel | done |].
  intros [] w3 H3. eff_step. apply (wp_nothrow Tidy); [apply tidy_cancel | done |].
  intros [] w4 [_ Hq Hw]. eff_step. apply wp_transition_to. by apply tidy_complete_waiters.
Qed.

Lemma tidy_enter st w : st <> listener_state.stopped -> Tidy w -> Tidy (enter cfg st w).
Proof. intros Hst []. by split. Qed.

Lemma tidy_transition_to st :
  st <> listener_state.stopped -> tkept (transition_to cfg st).
Proof. intros Hst e w He H. apply wp_transition_to. by apply tidy_enter. Qed.

Lemma tidy_emit type info ec ep : tkept (emit cfg type info ec ep).
Proof. apply kept_nothrow, nt_emit, _. Qed.

Lemma tidy_record ec ep : tkept (record_diagnostic ec ep).
Proof. apply kept_nothrow, nt_record_diagnostic, _. Qed.

Lemma tidy_set_stop_reason r : tkept (set_stop_reason r).
Proof. apply kept_nothrow, nt_set_stop_reason, _. Qed.

Lemma tidy_clear_diagnostics : tkept clear_diagnostics.
Proof. apply kept_nothrow, nt_clear_diagnostics, _. Qed.

Lemma tidy_clear_slot op : tkept (clear_slot op).
Proof. apply kept_nothrow, nt_clear_slot, _. Qed.

Lemma tidy_assign_slot h f : tkept (assign_slot h f).
Proof. apply kept_nothrow, nt_assign_slot, _. Qed.

Lemma tidy_request_stop c : tkept (Connection.request_stop c).
Proof. apply kept_nothrow, conn_request_stop, _. Qed.

Lemma tidy_force_close c : tkept (force_close c).
Proof. apply kept_nothrow, conn_force_close, _. Qed.

Lemma tidy_modify_ext f : tkept (modify_ext f).
Proof. apply kept_modify. intros. by apply tidy_ext. Qed.

Lemma tidy_get_ext {A} (f : acceptor_state -> A) : tkept (get_ext f).
Proof. apply kept_gets. Qed.

Lemma tidy_post ex t : owns_task (ex, t) -> tkept (post ex t).
Proof. intros Ht e w He H. apply wp_post; [|done]. intros _. by apply tidy_push. Qed.

Lemma tidy_complete_on ex h ec : is_Some h -> tkept (complete_on ex h ec).
Proof. intros [h' ->]. by apply tidy_post. Qed.

#[local] Hint Resolve tidy_finish tidy_emit tidy_record tidy_request_stop tidy_set_stop_reason
  tidy_clear_diagnostics tidy_clear_slot tidy_assign_slot
  tidy_force_close tidy_modify_ext tidy_get_ext tidy_cancel_io tidy_active : eff.
#[local] Hint Extern 1 (Tidy (_ _ _)) => match goal with H : Tidy _ |- _ => destruct H; by split end : eff.
#[local] Hint Extern 1 (kept _ _ (transition_to _ _)) => (apply tidy_transition_to; done) : eff.
#[local] Hint Extern 1 (kept _ _ (post _ _)) => (apply tidy_post; done) : eff.
#[local] Hint Extern 1 (kept _ _ (complete_on _ _ _)) => (apply tidy_complete_on; done) : eff.

Ltac tidy_auto := kept_auto; try done; auto with eff.

Lemma tidy_maybe_finish : tkept (maybe_finish cfg).
Proof. unfold maybe_finish, state, stop_reason. tidy_auto. Qed.
#[local] Hint Resolve tidy_maybe_finish : eff.

Lemma tidy_begin_stop ec reason : tkept (begin_stop cfg ec reason).
Proof.
  unfold begin_stop, state, arm_shutdown_timer, shutdown_timer_cancel,
    acceptor_cancel, acceptor_close, retry_timer_cancel. tidy_auto.
Qed.
#[local] Hint Resolve tidy_begin_stop : eff.

Lemma tidy_accept_next reason : tkept (accept_next cfg reason).
Proof. unfold accept_next, state. tidy_auto. Qed.
#[local] Hint Resolve tidy_accept_next : eff.

Lemma tidy_run_wait id h : tkept (run_wait id h).
Proof.
  intros e w He H. unfold run_wait, state, clear_slot. do 4 eff_step. eff_step.
  - do 2 eff_step. apply tidy_complete_on; [done | done |]. destruct H. by split.
  - eff_step; [do 4 eff_step; apply tidy_complete_on; [done | done |]; destruct H; by split|].
    eff_step. apply bool_decide_eq_false in Heqb0. destruct H. split; simpl; [done | done |].
    apply Forall_app_2; [done|]. constructor; [by eexists | done].
Qed.

Lemma tidy_cancel_wait id : tkept (cancel_wait id).
Proof.
  intros e w He H. unfold cancel_wait, clear_slot. do 2 eff_step.
  destruct (find_first _ _) as [wo|] eqn:Hf; [|by eff_step]. do 4 eff_step.
  pose proof (find_first_perm _ _ _ Hf) as Hp. destruct H as [Hs Hq Hw].
  rewrite Hp in Hw. apply Forall_cons in Hw as [Ho Hw].
  apply tidy_complete_on; [done | done |]. split; simpl; [|done | done].
  intros Hst. by rewrite (Hs Hst).
Qed.

Lemma tidy_retry_accept ec : tkept (retry_accept cfg ec).
Proof. unfold retry_accept, arm_retry_timer, retry_timer_cancel. tidy_auto. Qed.
#[local] Hint Resolve tidy_retry_accept : eff.

Lemma tidy_start_on_strand h : tkept (start_on_strand cfg h).
Proof. unfold start_on_strand, state, open_acceptor, acceptor_open. tidy_auto. Qed.

Lemma tidy_run_dispatch on h ec : tkept (run_dispatch on h ec).
Proof. destruct h; simpl; [|apply kept_throw]. apply kept_modify. intros w []. by split. Qed.

Lemma tidy_run_task t : tkept (run_task cfg t).
Proof.
  destruct t as [h|id h|id| |on h ec|[]]; simpl.
  - unfold run_start. tidy_auto. apply tidy_start_on_strand.
  - apply tidy_run_wait.
  - apply tidy_cancel_wait.
  - unfold stop_on_strand. tidy_auto.
  - apply tidy_run_dispatch.
  - unfold accepted, state. tidy_auto.
  - unfold retry_timer_expired. tidy_auto.
  - unfold shutdown_deadline. tidy_auto.
  - unfold session_finished, state. tidy_auto.
  - apply kept_nothrow, conn_start, _.
  - apply kept_nothrow, conn_run_request_stop, _.
  - apply kept_nothrow, conn_run_force_close, _.
Qed.

Lemma tidy_next_op v w : Tidy w -> Tidy (set_w_next_op v w).
Proof. intros []. by split. Qed.
#[local] Hint Resolve tidy_next_op : eff.

Lemma tidy_dequeue i w : Tidy w -> Tidy (set_w_queue (remove_at i (w_queue w)) w).
Proof.
  intros [Hs Hq Hw]. split; simpl; [done | | done]. unfold remove_at.
  apply Forall_app_2; [by apply Forall_take | by apply Forall_drop].
Qed.

Lemma tidy_exec a : tkept (exec cfg a).
Proof.
  destruct a as [ex al sl|ex al sl| |op ty|i ec|c x ec|i|value|id]; simpl.
  - unfold do_async_start, fresh_op, complete_on_associated. tidy_auto.
  - unfold do_async_wait, fresh_op, complete_on_associated. tidy_auto.
  - intros e w He H. unfold ListenerBase.request_stop, state. do 3 eff_step. eff_step; [by eff_step|].
    eff_step. apply wp_post; [|intros x Hx; by eff_step]. intros _. by apply tidy_push.
  - unfold emit_cancellation. tidy_auto.
  - unfold complete_io. kept_auto. by apply tidy_push.
  - apply kept_nothrow, conn_session_completes, _.
  - intros e w He H. unfold run_posted. do 2 eff_step. destruct (w_queue w !! i) as [[ex t]|]; [|by eff_step].
    do 2 eff_step. apply tidy_run_task; [done|]. by apply tidy_dequeue.
  - unfold update_registry. tidy_auto.
  - unfold update_registry. tidy_auto.
Qed.

Lemma tidy_reach registry n w : reach cfg posts_ok registry n w -> Tidy w.
Proof.
  induction 1 as [w Hw | n w w' _ IH Hs].
  - unfold make_listener in Hw. destruct (validate_acceptor_options _); simplify_eq. by split.
  - destruct Hs as [e a w1 w2 He E | e a w1 w2 x He E];
      pose proof (tidy_exec a e w1 He IH) as H; unfold wp in H; by rewrite E in H.
Qed.

(** No exception leaves an action of a tidy world. *)
Lemma quiet_run_task t e w :
  accepting e -> owns_task (listener_strand, t) ->
  wp (run_task cfg t) e w (fun _ _ => True) (fun _ _ => False).
Proof.
  intros He Ht. destruct t as [h|id h|id| |on h ec|[]]; simpl.
  - apply (total_bind accepting); [done | intros [] | done]. apply total_bind; [done | intros []].
    + apply total_complete_on.
    + apply quiet_start_on_strand.
  - by apply total_run_wait.
  - by apply total_cancel_wait.
  - unfold stop_on_strand. by apply quiet_begin_stop.
  - by destruct h.
  - by apply quiet_accepted.
  - by apply quiet_retry_timer_expired.
  - by apply quiet_shutdown_deadline.
  - by apply quiet_session_finished.
  - by apply (conn_start anywhere).
  - by apply (conn_run_request_stop anywhere).
  - by apply (conn_run_force_close anywhere).
Qed.

Lemma quiet_exec a e w :
  accepting e -> Tidy w -> wp (exec cfg a) e w (fun _ _ => True) (fun _ _ => False).
Proof.
  intros He H. destruct a as [ex al sl|ex al sl| |op ty|i ec|c x ec|i|value|id]; simpl.
  - clear H. revert e w He. change (total (E := aenv) (S := aworld) accepting (do_async_start ex al sl)).
    unfold do_async_start, fresh_op, assign_slot, complete_on_associated. total_auto; apply kept_anywhere, total_post.
  - clear H. revert e w He. change (total (E := aenv) (S := aworld) accepting (do_async_wait ex al sl)).
    unfold do_async_wait, fresh_op, assign_slot, clear_slot, complete_on_associated. total_auto;
    apply kept_anywhere, total_post.
  - by apply (nt_request_stop anywhere).
  - by apply (nt_emit_cancellation anywhere).
  - unfold complete_io, get_ext, modify_ext. do 2 eff_step. eff_step; [by do 3 eff_step | by eff_step].
  - by apply (conn_session_completes anywhere).
  - unfold run_posted. do 2 eff_step. destruct (w_queue w !! i) as [[ex t]|] eqn:Hi; [|by eff_step].
    do 2 eff_step. apply quiet_run_task; [done|].
    by apply (Forall_lookup_1 _ _ _ _ (tidy_queue _ H) Hi).
  - done.
  - done.
Qed.
End Waiters.
