(* ===== verification/ListenerPath.v ===== *)
(** * The published life cycle of a listener

    The [state_changed] events of a listener form a path of the documented life
    cycle that ends in its current state, and the generation counts the starts:
    [Lawful], with the rules both listener classes use to establish it. *)

From S2P Require Import Prelude Errors Effect Options Endpoint Status Observers ListenerBase.
From S2P Require Import ListenerFacts.

Local Open Scope Z_scope.

(** ** The history of a listener *)

(** The states published by [state_changed] events, in order. *)
Definition changes (l : list listener_event) : list listener_state.t :=
  flat_map (fun ev => if bool_decide (le_type ev = state_changed)
                      then [ls_state (le_status ev)] else []) l.

Record history := mk_history {
  hs_state : listener_state.t;
  hs_generation : Z;
  hs_observed : bool;
  hs_changes : list listener_state.t }.

Section History.
Context {T X : Type}.
Implicit Types (w : world T X).

Definition history_of (w : world T X) : history :=
  mk_history (m_state w) (m_generation w) (bool_decide (is_Some (w_registry w))) (changes (w_events w)).

Definition is_starting (s : listener_state.t) : bool := bool_decide (s = listener_state.starting).

Record lawful (h : history) : Prop := {
  lawful_path : lifecycle_path listener_state.idle (hs_changes h) (hs_state h);
  lawful_generation : hs_generation h = u64 (Z.of_nat (countb is_starting (hs_changes h))) }.

Definition Lawful (w : world T X) : Prop := hs_observed (history_of w) = true -> lawful (history_of w).

Definition At (h : history) (w : world T X) : Prop := history_of w = h.

Global Instance at_insensitive h : Insensitive (At h).
Proof. split; [split|..]; try (intros ? w H; exact H). by intros. Qed.

Lemma at_lawful h w : At h w -> (hs_observed h = true -> lawful h) -> Lawful w.
Proof. intros <-. done. Qed.

Lemma history_log cfg type info ec ep w :
  type <> state_changed -> history_of (log_event (event_of cfg type info ec ep w) w) = history_of w.
Proof.
  intros Ht. unfold history_of, changes. simpl. f_equal. rewrite flat_map_app.
  destruct (w_registry w); simpl; [|by rewrite app_nil_r].
  rewrite bool_decide_eq_false_2 by done. by rewrite !app_nil_r.
Qed.

(** Entering [st] publishes it. *)
Definition h_enter (st : listener_state.t) (h : history) : history :=
  mk_history st (hs_generation h) (hs_observed h)
    (hs_changes h ++ if hs_observed h then [st] else []).

Lemma history_enter cfg st w : history_of (enter cfg st w) = h_enter st (history_of w).
Proof.
  unfold history_of, h_enter, changes. simpl. f_equal. rewrite flat_map_app. f_equal.
  by destruct (w_registry w).
Qed.

Lemma lawful_enter st w :
  Lawful w -> lifecycle_edge (m_state w) st -> st <> listener_state.starting ->
  (hs_observed (history_of w) = true -> lawful (h_enter st (history_of w))).
Proof.
  intros H He Hst Ho. destruct (H Ho) as [Hp Hg]. unfold h_enter. rewrite Ho. split; simpl in *.
  - by econstructor.
  - rewrite countb_app, countb_cons. unfold is_starting at 2. rewrite bool_decide_eq_false_2 by done.
    by rewrite countb_nil, Nat.add_0_r.
Qed.

Lemma Lawful_enter cfg st w :
  Lawful w -> lifecycle_edge (m_state w) st -> st <> listener_state.starting ->
  Lawful (enter cfg st w).
Proof.
  intros H He Hst. eapply at_lawful; [apply history_enter|]. intros Ho. by apply lawful_enter.
Qed.

(** A start publishes [starting] and counts. *)
Lemma Lawful_start cfg w w' :
  Lawful w -> (m_state w = listener_state.idle \/ m_state w = listener_state.stopped) ->
  history_of w' = mk_history (m_state w) (u64 (m_generation w + 1))
                    (hs_observed (history_of w)) (hs_changes (history_of w)) ->
  Lawful (enter cfg listener_state.starting w').
Proof.
  intros H Hst Hw'. eapply at_lawful; [apply history_enter|]. rewrite Hw'. intros Ho.
  destruct (H Ho) as [Hp Hg]. unfold h_enter. simpl in *. rewrite Ho. split; simpl in *.
  - econstructor; [done|]. destruct Hst as [-> | ->]; constructor.
  - rewrite countb_app, countb_cons, countb_nil. unfold is_starting at 2.
    rewrite bool_decide_eq_true_2 by done. rewrite Hg. unfold u64.
    rewrite Zplus_mod_idemp_l. f_equal. lia.
Qed.
End History.

(** What [emit] of another event and the posting of tasks leave alone. *)
Section Rules.
Context {T X Y : Type} (cfg : config) (ok : env T Y -> Prop).

Abbreviation hkept m := (kept (E := env T Y) (S := world T X) ok Lawful m).

Lemma hkept_at {A} (m : M (env T Y) (world T X) A) : (forall h, pres (At h) m) -> hkept m.
Proof.
  intros Hm e w He H. eapply wp_pres; [apply (Hm (history_of w)) | done | |];
    intros ? w' Hw; (eapply at_lawful; [exact Hw | exact H]).
Qed.

Lemma hkept_nt {A} (m : M (env T Y) (world T X) A) : (forall h, nothrow (At h) m) -> hkept m.
Proof. intros Hm. apply hkept_at. intros h. apply nothrow_pres, Hm. Qed.

Lemma nt_at_emit h type info ec ep :
  type <> state_changed -> nothrow (E := env T Y) (At (T := T) (X := X) h) (emit cfg type info ec ep).
Proof. intros Ht e w Z H. apply wp_emit. unfold At. by rewrite history_log. Qed.

Lemma h_emit type info ec ep : type <> state_changed -> hkept (emit cfg type info ec ep).
Proof. intros Ht. apply hkept_nt. intros h. by apply nt_at_emit. Qed.

Lemma h_record ec ep : hkept (record_diagnostic ec ep).
Proof. apply hkept_nt. intros h. apply nt_record_diagnostic, _. Qed.

Lemma h_set_stop_reason r : hkept (set_stop_reason r).
Proof. apply hkept_nt. intros h. apply nt_set_stop_reason, _. Qed.

Lemma h_post ex t : hkept (post ex t).
Proof. apply hkept_at. intros h e w H. by apply wp_post. Qed.

Lemma h_complete_on ex h ec : hkept (complete_on ex h ec).
Proof. apply h_post. Qed.
End Rules.
