(* ===== verification/AcceptorPath.v ===== *)
(** * The published life cycle of the acceptor listener

    The [state_changed] events of a listener form a path of the documented life
    cycle that ends in its current state, and the generation counts the starts.
    The environment is [sound]: an exception thrown by [async_accept] carries an
    error code that signals failure. *)

From S2P Require Import Prelude Errors Effect Options Endpoint Status Observers ListenerBase.
From S2P Require Import ListenerFacts ListenerPath Connection AcceptorFacts Acceptor.

Local Open Scope Z_scope.

Definition sound (e : aenv) : Prop :=
  forall x, e_async_accept (e_ext e) = Some x -> exn_failed x = true.

Global Instance at_conn h : ConnInsensitive (At h).
Proof. split; [intros ? w H; exact H | by intros]. Qed.

Section Path.
Variable cfg : config.

Abbreviation hkept m := (kept (E := aenv) (S := aworld) sound Lawful m).

Lemma h_request_stop c : hkept (Connection.request_stop c).
Proof. apply hkept_nt. intros h. apply conn_request_stop, _. Qed.

Lemma h_force_close c : hkept (force_close c).
Proof. apply hkept_nt. intros h. apply conn_force_close, _. Qed.

Lemma h_modify_ext f : hkept (modify_ext f).
Proof. by apply kept_modify. Qed.

Lemma h_get_ext {A} (f : acceptor_state -> A) : hkept (get_ext f).
Proof. apply kept_gets. Qed.

#[local] Hint Resolve h_record h_set_stop_reason h_request_stop h_force_close h_post
  h_modify_ext h_get_ext h_complete_on : eff.
#[local] Hint Extern 1 (kept _ _ (emit _ _ _ _ _)) => (apply h_emit; done) : eff.

Ltac h_auto := kept_auto; try done; auto with eff.

Lemma h_finish ec reason e w :
  Lawful w -> m_state w <> listener_state.idle -> m_state w <> listener_state.running ->
  wp (Acceptor.finish cfg ec reason) e w (fun _ => Lawful) (fun _ => Lawful).
Proof.
  intros H Hi Hr. unfold Acceptor.finish, state, set_stop_reason. do 2 eff_step.
  eff_step; [by eff_step|]. apply bool_decide_eq_false in Heqb. do 5 eff_step.
  apply (wp_nothrow (At (history_of w))); [by apply nt_keep_first_error; apply _ | done |].
  intros [] w1 H1. eff_step.
  unfold acceptor_close, modify_ext, retry_timer_cancel, shutdown_timer_cancel. do 8 eff_step.
  apply wp_transition_to.
  apply (wp_pres (At (h_enter listener_state.stopped (history_of w))));
    [apply pres_complete_waiters, _ | | |].
  { unfold At. rewrite history_enter. by f_equal. }
  all: intros ? w2 H2; eapply at_lawful; [exact H2|]; apply lawful_enter; [done | | done].
  all: destruct (m_state w); done || constructor.
Qed.

Lemma h_maybe_finish : hkept (maybe_finish cfg).
Proof.
  intros e w _ H. unfold maybe_finish, state, get_ext, stop_reason. do 10 eff_step.
  eff_step; [|done]. apply andb_true_iff in H0 as [[Hs _]%andb_true_iff _].
  apply bool_decide_eq_true in Hs. apply h_finish; [done | congruence | congruence].
Qed.
#[local] Hint Resolve h_maybe_finish : eff.

Lemma h_begin_stop ec reason : hkept (begin_stop cfg ec reason).
Proof.
  intros e w He H. unfold begin_stop, state, set_stop_reason. do 2 eff_step. eff_step.
  { apply bool_decide_eq_true in Heqb. do 5 eff_step. apply wp_transition_to.
    apply h_finish; [|done|done]. apply Lawful_enter; [exact H | simpl; rewrite Heqb; constructor | done]. }
  apply bool_decide_eq_false in Heqb. eff_step; [by eff_step|]. do 5 eff_step.
  apply wp_transition_to.
  assert (H1 : Lawful (enter cfg listener_state.stopping
            (set_m_stop_reason reason (set_m_terminal_error ec w)))).
  { apply Lawful_enter; [exact H | simpl | done].
    destruct (m_state w); try done; constructor. }
  match goal with |- wp ?m _ _ _ _ => assert (Hk : hkept m); [|by apply Hk] end.
  unfold acceptor_cancel, acceptor_close, retry_timer_cancel, arm_shutdown_timer, shutdown_timer_cancel.
  h_auto.
Qed.
#[local] Hint Resolve h_begin_stop : eff.

(** A failure that [accept_next] does not report leaves the state alone. *)
Lemma h_accept_next_starting reason e w :
  sound e -> Lawful w -> m_state w = listener_state.starting ->
  wp (accept_next cfg reason) e w
    (fun ec w' => Lawful w' /\ (failed ec = false -> m_state w' = listener_state.starting))
    (fun _ => Lawful).
Proof.
  intros He H Hs. unfold accept_next, maybe_finish, state, get_ext, modify_ext, stop_reason.
  do 6 eff_step. rewrite Hs, bool_decide_eq_true_2 by done. cbn [negb andb orb]. eff_step.
  { do 11 eff_step. rewrite Hs. eff_step; [done|]. by eff_step. }
  eff_step; [by eff_step|]. do 4 eff_step. eff_step; [by do 3 eff_step|].
  do 2 eff_step. unfold record_diagnostic. do 3 eff_step. apply wp_emit. eff_step.
  set (w1 := log_event _ _). assert (H1 : Lawful w1).
  { eapply at_lawful; [by apply history_log | exact H]. }
  eapply wp_mono; [by apply h_begin_stop | | done].
  intros [] w2 H2. eff_step. split; [done|]. intros Hf. specialize (He x H0).
  unfold exn_failed in He. congruence.
Qed.

Lemma h_accept_next reason : hkept (accept_next cfg reason).
Proof. unfold accept_next, state. h_auto. Qed.
#[local] Hint Resolve h_accept_next : eff.

Lemma h_retry_accept ec : hkept (retry_accept cfg ec).
Proof. unfold retry_accept, arm_retry_timer, retry_timer_cancel. h_auto. Qed.
#[local] Hint Resolve h_retry_accept : eff.

Lemma at_open_acceptor h : pres (At h) (open_acceptor cfg).
Proof.
  assert (Hk : kept (E := aenv) (fun _ => True) (At h) (open_acceptor cfg)).
  { unfold open_acceptor, acceptor_open, get_ext, modify_ext. kept_auto; done. }
  intros e w H. by apply Hk.
Qed.

Lemma h_start_on_strand handler : hkept (start_on_strand cfg handler).
Proof.
  intros e w He H. unfold start_on_strand, state, clear_diagnostics. do 2 eff_step.
  eff_step; [by apply (h_complete_on sound)|]. eff_step; [by apply (h_complete_on sound)|].
  assert (Hst : m_state w = listener_state.idle \/ m_state w = listener_state.stopped).
  { destruct (m_state w); by auto. }
  do 7 eff_step. apply wp_transition_to. eff_step.
  set (w0 := set_m_last_exception _ _).
  assert (H0 : history_of w0 = mk_history (m_state w) (u64 (m_generation w + 1))
            (hs_observed (history_of w)) (hs_changes (history_of w))) by reflexivity.
  clearbody w0. set (w1 := enter _ _ _).
  assert (H1 : Lawful w1) by (by apply (Lawful_start cfg w)).
  assert (Hs : m_state w1 = listener_state.starting) by done. clearbody w1.
  apply (wp_pres (At (history_of w1))); [apply at_open_acceptor | done | |].
  2: { intros x w2 H2. eapply at_lawful; [exact H2 | exact H1]. }
  intros ec w2 H2. assert (H2' : Lawful w2) by (eapply at_lawful; [exact H2 | exact H1]).
  assert (Hs2 : m_state w2 = listener_state.starting) by (rewrite <- Hs; by injection H2).
  eff_step.
  { eff_step. apply (wp_pres (At (history_of w2))); [apply pres_complete_on, _ | done | |];
      intros ? w3 H3; assert (Lawful w3) by (eapply at_lawful; [exact H3 | exact H2']); [|done].
    assert (m_state w3 = listener_state.starting) by (rewrite <- Hs2; by injection H3).
    apply h_finish; [done | congruence | congruence]. }
  do 3 eff_step. apply (wp_nothrow (fun w => Lawful w /\ m_state w = listener_state.starting)).
  { intros ? w' ? [? ?]. eff_step; by eff_step. }
  { done. }
  intros [] w3 [H3 Hs3]. eff_step.
  eapply wp_mono; [by apply h_accept_next_starting | | done].
  intros accept_ec w4 [H4 Hs4]. eff_step; [by apply (h_complete_on sound)|]. eff_step.
  apply wp_transition_to. apply (h_complete_on sound); [done|].
  apply Lawful_enter; [done | rewrite (Hs4 eq_refl); constructor | done].
Qed.

Lemma h_run_task t : hkept (run_task cfg t).
Proof.
  destruct t as [h|id h|id| |on h ec|[]]; simpl.
  - unfold run_start, clear_slot. h_auto. apply h_start_on_strand.
  - apply hkept_at. intros h'. apply pres_run_wait, _.
  - apply hkept_at. intros h'. apply pres_cancel_wait, _.
  - unfold stop_on_strand. h_auto.
  - apply hkept_at. intros h'. apply pres_run_dispatch, _.
  - unfold accepted, state. h_auto.
  - unfold retry_timer_expired. h_auto.
  - unfold shutdown_deadline. h_auto.
  - unfold session_finished, state. h_auto.
  - apply hkept_nt. intros h'. apply conn_start, _.
  - apply hkept_nt. intros h'. apply conn_run_request_stop, _.
  - apply hkept_nt. intros h'. apply conn_run_force_close, _.
Qed.

Lemma h_update_registry f : hkept (update_registry f).
Proof.
  apply hkept_at. intros h e w <-. unfold update_registry. eff_step. unfold At, history_of. simpl. f_equal.
  by destruct (w_registry w).
Qed.

Lemma h_exec a : hkept (exec cfg a).
Proof.
  destruct a as [ex al sl|ex al sl| |op ty|i ec|c x ec|i|value|id]; simpl.
  - apply hkept_at. intros h'. apply pres_do_async_start, _.
  - apply hkept_at. intros h'. apply pres_do_async_wait, _.
  - apply hkept_nt. intros h'. apply nt_request_stop, _.
  - apply hkept_nt. intros h'. apply nt_emit_cancellation, _.
  - unfold complete_io. h_auto.
  - apply hkept_nt. intros h'. apply conn_session_completes, _.
  - unfold run_posted. h_auto. apply h_run_task.
  - apply h_update_registry.
  - apply h_update_registry.
Qed.

Lemma h_reach registry n w : reach cfg sound registry n w -> Lawful w.
Proof.
  induction 1 as [w Hw | n w w' _ IH Hs].
  - unfold make_listener in Hw. destruct (validate_acceptor_options _); simplify_eq.
    intros _. split; [constructor | done].
  - destruct Hs as [e a w1 w2 He E | e a w1 w2 x He E];
      pose proof (h_exec a e w1 He IH) as H; unfold wp in H; by rewrite E in H.
Qed.
End Path.
