(* ===== verification/AcceptorSessions.v ===== *)
(** * Sessions of the acceptor listener

    Connection ids are unique, and a session leaves [m_sessions] through its own
    completion: the ids of [m_sessions] are, as a multiset, those of the
    connections that are not finished and of the completions on their way to the
    listener strand.  The published [session_started] and [session_stopped]
    events tell the same story.

    The environment is [good]: the executor accepts posted work and the listener
    outlives its connections. *)

From S2P Require Import Prelude Errors Effect Options Endpoint Status Observers ListenerBase.
From S2P Require Import ListenerFacts Connection AcceptorFacts Acceptor.

Local Open Scope Z_scope.

Definition good (e : aenv) : Prop := posts_ok e /\ e_owner (e_ext e) = true.

(** ** The part of a world that concerns sessions *)

(** The completions of sessions among the posted tasks. *)
Definition finished_ids (q : list (executor * task acceptor_task)) : list Z :=
  flat_map (fun x => match snd x with
                     | TExt (TSessionFinished info _ _) => [info_id info]
                     | _ => []
                     end) q.

(** Connection ids of the published events of a type. *)
Definition event_ids (type : listener_event_type) (l : list listener_event) : list Z :=
  flat_map (fun ev => if bool_decide (le_type ev = type) then [info_id (le_connection ev)] else []) l.

Definition conn_key (c : connection) : Z * bool := (info_id (cn_info c), cn_finished c).

Record sview := mk_sview {
  sv_conns : list (Z * bool);
  sv_sessions : list nat;
  sv_next : Z;
  sv_queued : list Z;
  sv_observed : bool;
  sv_started : list Z;
  sv_stopped : list Z }.

Definition sview_of (w : aworld) : sview :=
  mk_sview (map conn_key (a_connections (w_ext w))) (m_sessions (w_ext w))
    (m_next_connection_id (w_ext w)) (finished_ids (w_queue w))
    (bool_decide (is_Some (w_registry w)))
    (event_ids session_started (w_events w)) (event_ids session_stopped (w_events w)).

Definition SV (v : sview) (w : aworld) : Prop := sview_of w = v.

Definition sv_ids (v : sview) : list Z := map fst (sv_conns v).
Definition sv_open (v : sview) : list Z := map fst (List.filter (fun x => negb (snd x)) (sv_conns v)).

(** The ids of the connections in [m_sessions]. *)
Definition sv_session_ids (v : sview) : list Z :=
  flat_map (fun c => match sv_conns v !! c with Some x => [fst x] | None => [] end) (sv_sessions v).

(** [held]: completions taken from the queue and not yet handled. *)
Record s_inv (held : list Z) (k : Z) (v : sview) : Prop := {
  si_nodup : NoDup (sv_ids v);
  si_bound : Forall (fun i => i <= sv_next v) (sv_ids v);
  si_next : 0 <= sv_next v <= k;
  si_sessions : NoDup (sv_sessions v);
  si_range : Forall (fun c => (c < length (sv_conns v))%nat) (sv_sessions v);
  si_account : sv_session_ids v ≡ₚ sv_open v ++ held ++ sv_queued v;
  si_started : sv_observed v = true -> sv_started v = sv_ids v;
  si_stopped : sv_observed v = true -> sv_stopped v ++ sv_session_ids v ≡ₚ sv_ids v }.

(** ** Operations on the view *)

Definition sv_set_conns x (v : sview) : sview :=
  mk_sview x (sv_sessions v) (sv_next v) (sv_queued v) (sv_observed v) (sv_started v) (sv_stopped v).
Definition sv_set_next x (v : sview) : sview :=
  mk_sview (sv_conns v) (sv_sessions v) x (sv_queued v) (sv_observed v) (sv_started v) (sv_stopped v).

(** [connection_state::finish]. *)
Definition sv_finish (c : nat) (v : sview) : sview :=
  match sv_conns v !! c with
  | Some (id, false) =>
    mk_sview (<[c := (id, true)]> (sv_conns v)) (sv_sessions v) (sv_next v) (sv_queued v ++ [id])
      (sv_observed v) (sv_started v) (sv_stopped v)
  | _ => v
  end.

(** A connection with the next id is added. *)
Definition sv_add (v : sview) : sview :=
  mk_sview (sv_conns v ++ [(sv_next v, false)]) (sv_sessions v ++ [length (sv_conns v)])
    (sv_next v) (sv_queued v) (sv_observed v)
    (sv_started v ++ if sv_observed v then [sv_next v] else []) (sv_stopped v).

Definition sv_has_id (v : sview) (id : Z) (c : nat) : bool :=
  match sv_conns v !! c with Some x => fst x =? id | None => false end.

(** [session_finished]. *)
Definition sv_drop (id : Z) (v : sview) : sview :=
  mk_sview (sv_conns v)
    (match find_first (sv_has_id v id) (sv_sessions v) with
     | Some _ => erase_first (sv_has_id v id) (sv_sessions v)
     | None => sv_sessions v
     end)
    (sv_next v) (sv_queued v) (sv_observed v) (sv_started v)
    (sv_stopped v ++ if sv_observed v then [id] else []).

(** ** The invariant is preserved *)

Lemma open_insert (l : list (Z * bool)) c id :
  l !! c = Some (id, false) ->
  id :: map fst (List.filter (fun x => negb (snd x)) (<[c := (id, true)]> l)) ≡ₚ
  map fst (List.filter (fun x => negb (snd x)) l).
Proof.
  revert c. induction l as [|[i b] l IH]; intros [|c]; simpl; try done.
  - intros [= -> ->]. done.
  - intros H. specialize (IH c H). destruct b; simpl; [done|]. rewrite <- IH. apply perm_swap.
Qed.

Lemma ids_insert (l : list (Z * bool)) c id b b' :
  l !! c = Some (id, b) -> map fst (<[c := (id, b')]> l) = map fst l.
Proof.
  intros H. apply list_eq. intros i. rewrite !list_lookup_fmap.
  destruct (decide (i = c)) as [->|Hne]; [|by rewrite list_lookup_insert_ne].
  rewrite list_lookup_insert_eq by (by eapply lookup_lt_Some). by rewrite H.
Qed.

Lemma session_ids_ext v v' :
  sv_sessions v = sv_sessions v' -> sv_ids v = sv_ids v' -> sv_session_ids v = sv_session_ids v'.
Proof.
  unfold sv_session_ids, sv_ids. intros -> Hi. induction (sv_sessions v') as [|c l IH]; simpl; [done|].
  rewrite IH. f_equal. assert (Hc : map fst (sv_conns v) !! c = map fst (sv_conns v') !! c)
    by (by rewrite Hi). rewrite !list_lookup_fmap in Hc.
  destruct (sv_conns v !! c) as [x|], (sv_conns v' !! c) as [x'|]; simpl in Hc; try done.
  by injection Hc as ->.
Qed.

Lemma s_inv_finish held k c v : s_inv held k v -> s_inv held k (sv_finish c v).
Proof.
  intros H. unfold sv_finish. destruct (sv_conns v !! c) as [[id []]|] eqn:Hc; [done| |done].
  set (v' := mk_sview _ _ _ _ _ _ _).
  assert (Hi : sv_ids v' = sv_ids v) by (by eapply ids_insert).
  assert (Hs : sv_session_ids v' = sv_session_ids v) by (by apply session_ids_ext).
  destruct H. split; rewrite ?Hi, ?Hs; simpl; try done.
  - by rewrite length_insert.
  - rewrite si_account0. rewrite <- (open_insert _ _ _ Hc). unfold sv_open. simpl. solve_Permutation.
Qed.

Lemma session_ids_add v l :
  sv_sessions v = l -> Forall (fun c => (c < length (sv_conns v))%nat) l ->
  sv_session_ids (sv_add v) = sv_session_ids v ++ [sv_next v].
Proof.
  intros Hl Hr. unfold sv_session_ids. simpl. rewrite flat_map_app. f_equal.
  - rewrite Hl. clear Hl. induction Hr as [|c r Hc Hr IH]; simpl; [done|].
    rewrite lookup_app_l by done. destruct (sv_conns v !! c); simpl; by rewrite IH.
  - simpl. by rewrite list_lookup_middle.
Qed.

(** A fresh id: the counter has just been incremented. *)
Lemma s_inv_add k v :
  s_inv [] k v -> k + 1 < u64_modulus ->
  s_inv [] (k + 1) (sv_add (sv_set_next (u64 (sv_next v + 1)) v)).
Proof.
  intros H Hk. destruct H as [Hnd Hb Hn Hs Hr Ha Hst Hsp].
  set (v1 := sv_set_next _ v). assert (Hnext : sv_next v1 = sv_next v + 1).
  { simpl. apply u64_small. lia. }
  assert (Hids : sv_ids (sv_add v1) = sv_ids v ++ [sv_next v + 1]).
  { unfold sv_ids at 1. simpl in *. by rewrite map_app, Hnext. }
  assert (Hses : sv_session_ids (sv_add v1) = sv_session_ids v ++ [sv_next v + 1]).
  { rewrite (session_ids_add v1 (sv_sessions v)) by done. by rewrite Hnext. }
  split; rewrite ?Hids, ?Hses.
  - apply NoDup_app. split_and!; [done | | by apply NoDup_singleton].
    intros i Hi [= ->]%list_elem_of_singleton. rewrite Forall_forall in Hb. specialize (Hb _ Hi). lia.
  - apply Forall_app_2; simpl in *; rewrite Hnext; [|constructor; [lia | done]].
    eapply Forall_impl; [exact Hb|]. intros; simpl in *; lia.
  - simpl in *. rewrite Hnext. lia.
  - simpl. apply NoDup_app. split_and!; [done | | by apply NoDup_singleton].
    intros i Hi ->%list_elem_of_singleton. rewrite Forall_forall in Hr. specialize (Hr _ Hi). lia.
  - simpl. rewrite length_app. simpl. apply Forall_app_2; [|constructor; [lia|done]].
    eapply Forall_impl; [exact Hr|]. intros; simpl in *; lia.
  - rewrite Ha. unfold sv_open. simpl in *. rewrite List.filter_app, map_app, Hnext. simpl.
    solve_Permutation.
  - intros Ho. simpl in *. rewrite Ho, Hnext. by rewrite Hst.
  - intros Ho. simpl in *. rewrite app_assoc. by rewrite Hsp.
Qed.

(** The factory failed: only the counter moved. *)
Lemma s_inv_skip k v :
  s_inv [] k v -> k + 1 < u64_modulus -> s_inv [] (k + 1) (sv_set_next (u64 (sv_next v + 1)) v).
Proof.
  intros [Hnd Hb Hn Hs Hr Ha Hst Hsp] Hk.
  assert (Hnext : u64 (sv_next v + 1) = sv_next v + 1) by (apply u64_small; lia).
  split; try done; simpl; rewrite Hnext.
  - eapply Forall_impl; [exact Hb|]. intros; simpl in *; lia.
  - lia.
Qed.

Lemma session_ids_erase v id c l :
  find_first (sv_has_id v id) l = Some c ->
  flat_map (fun c => match sv_conns v !! c with Some x => [fst x] | None => [] end) l ≡ₚ
  id :: flat_map (fun c => match sv_conns v !! c with Some x => [fst x] | None => [] end)
          (erase_first (sv_has_id v id) l).
Proof.
  intros H. destruct (find_first_true _ _ _ H) as [Hc _]. rewrite (find_first_perm _ _ _ H) at 1.
  simpl. unfold sv_has_id in Hc. destruct (sv_conns v !! c) as [x|]; [|done].
  apply Z.eqb_eq in Hc. by rewrite Hc.
Qed.

Lemma find_session v id :
  id ∈ sv_session_ids v -> is_Some (find_first (sv_has_id v id) (sv_sessions v)).
Proof.
  unfold sv_session_ids. intros Hin.
  destruct (find_first _ _) as [c|] eqn:Hf; [by eexists|].
  rewrite find_first_None in Hf. apply list_elem_of_In, in_flat_map in Hin as (c & Hc & Hx).
  apply list_elem_of_In in Hc. specialize (Hf c Hc). unfold sv_has_id in Hf.
  destruct (sv_conns v !! c) as [x|]; [|done]. destruct Hx as [Hx|[]]. lia.
Qed.

Lemma erase_first_sublist {A} (p : A -> bool) l : erase_first p l `sublist_of` l.
Proof.
  induction l as [|x l IH]; simpl; [done|]. destruct (p x); [by constructor | by constructor].
Qed.

Lemma s_inv_drop k id v : s_inv [id] k v -> s_inv [] k (sv_drop id v).
Proof.
  intros [Hnd Hb Hn Hs Hr Ha Hst Hsp].
  assert (Hin : id ∈ sv_session_ids v).
  { rewrite Ha. apply elem_of_app. right. by apply elem_of_app; left; apply list_elem_of_here. }
  destruct (find_session v id Hin) as [c Hf]. unfold sv_drop. rewrite Hf.
  set (v' := mk_sview _ _ _ _ _ _ _).
  assert (Hp : sv_session_ids v ≡ₚ id :: sv_session_ids v') by (by eapply session_ids_erase).
  split; simpl; try done.
  - eapply sublist_NoDup; [exact Hs | apply erase_first_sublist].
  - rewrite (find_first_perm _ _ _ Hf) in Hr. by apply Forall_cons in Hr as [_ Hr].
  - apply (Permutation_cons_inv (a := id)). rewrite <- Hp, Ha. unfold sv_open. simpl. solve_Permutation.
  - intros Ho. etrans; [|exact (Hsp Ho)]. rewrite Ho, Hp. fold (sv_session_ids v'). solve_Permutation.
Qed.

(** ** The listener acts on the view *)

Lemma sv_push ex t w v :
  finished_ids [(ex, t)] = [] -> SV v w -> SV v (set_w_queue (w_queue w ++ [(ex, t)]) w).
Proof.
  unfold SV, sview_of, finished_ids. intros Ht <-. simpl. f_equal.
  rewrite flat_map_app, Ht. apply app_nil_r.
Qed.

Global Instance sv_insensitive v : Insensitive (SV v).
Proof.
  split; [split|..]; try (intros ? w H; exact H). intros ex t w Ht. apply sv_push. by destruct t.
Qed.

Lemma sv_cancel_io which w v : SV v w -> SV v (cancel_io which w).
Proof.
  unfold SV, sview_of, finished_ids. intros <-. simpl. f_equal. rewrite flat_map_app.
  replace (flat_map _ (map _ _)) with (@nil Z); [by rewrite app_nil_r|].
  induction (List.filter which (a_io (w_ext w))) as [|[] l IH]; simpl; auto.
Qed.

Lemma event_ids_log cfg ty type info ec ep (w : aworld) :
  event_ids ty (w_events (log_event (event_of cfg type info ec ep w) w)) =
  event_ids ty (w_events w) ++
    (if bool_decide (is_Some (w_registry w)) && bool_decide (type = ty) then [info_id info] else []).
Proof.
  unfold event_ids. simpl. rewrite flat_map_app. f_equal.
  destruct (w_registry w); simpl; [|done]. by destruct (bool_decide _).
Qed.

Lemma sv_log cfg type info ec ep w v :
  type <> session_started -> type <> session_stopped ->
  SV v w -> SV v (log_event (event_of cfg type info ec ep w) w).
Proof.
  unfold SV, sview_of. intros H1 H2 <-. rewrite !event_ids_log.
  rewrite !(bool_decide_eq_false_2 (type = _)) by done. rewrite andb_false_r, !app_nil_r. done.
Qed.

Lemma sv_enter cfg st w v : SV v w -> SV v (enter cfg st w).
Proof. intros H. unfold enter. by apply sv_log. Qed.

Section View.
Variable cfg : config.
Variable v : sview.

Abbreviation skept m := (kept (E := aenv) (S := aworld) good (SV v) m).

Lemma s_emit type info ec ep :
  type <> session_started -> type <> session_stopped -> skept (emit cfg type info ec ep).
Proof. intros H1 H2 e w _ H. apply wp_emit. by apply sv_log. Qed.

Lemma s_transition_to st : skept (transition_to cfg st).
Proof. intros e w _ H. apply wp_transition_to. by apply sv_enter. Qed.

Lemma s_post ex t : finished_ids [(ex, t)] = [] -> skept (post ex t).
Proof. intros Ht e w He H. apply wp_post; [|done]. intros _. by apply sv_push. Qed.

(** With an executor that accepts work they only post. *)
Lemma s_force_close c : skept (force_close c).
Proof.
  intros e w [He _] H. unfold force_close. do 2 eff_step. apply wp_post.
  - intros _. by apply sv_push.
  - intros x Hx. by rewrite He in Hx.
Qed.

Lemma s_request_stop c : skept (Connection.request_stop c).
Proof.
  intros e w [He _] H. unfold Connection.request_stop. do 2 eff_step. apply wp_post.
  - intros _. by apply sv_push.
  - intros x Hx. by rewrite He in Hx.
Qed.

Lemma s_waiters : skept complete_waiters.
Proof. apply kept_pres, pres_complete_waiters, _. Qed.

Lemma s_keep_first_error ec : skept (keep_first_error ec).
Proof. apply kept_nothrow, nt_keep_first_error, _. Qed.

Lemma s_get_ext {A} (f : acceptor_state -> A) : skept (get_ext f).
Proof. apply kept_gets. Qed.

(** Fields outside the view. *)
Lemma s_modify_ext f :
  (forall a, map conn_key (a_connections (f a)) = map conn_key (a_connections a) /\
             m_sessions (f a) = m_sessions a /\
             m_next_connection_id (f a) = m_next_connection_id a) ->
  skept (modify_ext f).
Proof.
  intros Hf. apply kept_modify. intros w H. unfold SV, sview_of in *. simpl.
  destruct (Hf (w_ext w)) as (-> & -> & ->). done.
Qed.

#[local] Hint Resolve s_transition_to s_force_close s_request_stop s_waiters s_keep_first_error
  s_get_ext sv_cancel_io : eff.
#[local] Hint Extern 1 (kept _ _ (emit _ _ _ _ _)) => (apply s_emit; done) : eff.
#[local] Hint Extern 1 (kept _ _ (post _ _)) => (apply s_post; done) : eff.
#[local] Hint Extern 1 (kept _ _ (complete_on _ _ _)) => (apply s_post; done) : eff.
#[local] Hint Extern 1 (kept _ _ (modify_ext _)) => (apply s_modify_ext; done) : eff.

Ltac s_auto := kept_auto; try done; auto with eff.

Lemma s_finish ec reason : skept (Acceptor.finish cfg ec reason).
Proof.
  unfold Acceptor.finish, state, set_stop_reason, acceptor_close, retry_timer_cancel,
    shutdown_timer_cancel. s_auto.
Qed.
#[local] Hint Resolve s_finish : eff.

Lemma s_maybe_finish : skept (maybe_finish cfg).
Proof. unfold maybe_finish, state, stop_reason. s_auto. Qed.
#[local] Hint Resolve s_maybe_finish : eff.

Lemma s_begin_stop ec reason : skept (begin_stop cfg ec reason).
Proof.
  unfold begin_stop, state, set_stop_reason, acceptor_cancel, acceptor_close, retry_timer_cancel,
    arm_shutdown_timer, shutdown_timer_cancel. s_auto.
Qed.
#[local] Hint Resolve s_begin_stop : eff.

Lemma s_accept_next reason : skept (accept_next cfg reason).
Proof. unfold accept_next, state, record_diagnostic. s_auto. Qed.
#[local] Hint Resolve s_accept_next : eff.

Lemma s_retry_accept ec : skept (retry_accept cfg ec).
Proof. unfold retry_accept, record_diagnostic, arm_retry_timer, retry_timer_cancel. s_auto. Qed.
#[local] Hint Resolve s_retry_accept : eff.

Lemma s_retry_timer_expired ec : skept (retry_timer_expired cfg ec).
Proof. unfold retry_timer_expired. s_auto. Qed.

Lemma s_shutdown_deadline ec : skept (shutdown_deadline cfg ec).
Proof. unfold shutdown_deadline, record_diagnostic. s_auto. Qed.

Lemma s_start_on_strand h : skept (start_on_strand cfg h).
Proof.
  unfold start_on_strand, state, clear_diagnostics, open_acceptor, acceptor_open. s_auto.
Qed.

(** A connection update that keeps its id and its flag. *)
Lemma s_update c f :
  (forall x, conn_key (f x) = conn_key x) -> skept (modify_ext (update_connection c f)).
Proof.
  intros Hf. apply s_modify_ext. intros a. simpl. split_and!; [|done | done].
  apply list_eq. intros i. rewrite !list_lookup_fmap.
  destruct (decide (i = c)) as [->|Hne]; [|by rewrite list_lookup_alter_ne].
  rewrite list_lookup_alter_eq. by destruct (a_connections a !! c) as [x|]; simpl; rewrite ?Hf.
Qed.
End View.

Abbreviation sgood m v f :=
  (forall e w, good e -> SV v w -> wp (m : AM unit) e w (fun _ => SV f) (fun _ => SV f)).

Lemma key_alter (l : list connection) c x f :
  l !! c = Some x -> map conn_key (alter f c l) = <[c := conn_key (f x)]> (map conn_key l).
Proof.
  intros Hc. apply list_eq. intros i. rewrite list_lookup_fmap.
  destruct (decide (i = c)) as [->|Hne].
  - rewrite list_lookup_alter_eq, list_lookup_insert_eq, Hc; [done|].
    rewrite length_map. by eapply lookup_lt_Some.
  - rewrite list_lookup_alter_ne, list_lookup_insert_ne by done. by rewrite list_lookup_fmap.
Qed.

(** [connection_state::finish]. *)
Lemma s_conn_finish c ec ep v : sgood (Connection.finish c ec ep) v (sv_finish c v).
Proof.
  intros e w [He Ho] H. unfold Connection.finish, get_ext, close_now, modify_ext, session_finished_post. do 3 eff_step.
  assert (Hk : sv_conns v = map conn_key (a_connections (w_ext w))) by (by rewrite <- H).
  assert (Hl : sv_conns v !! c = conn_key <$> a_connections (w_ext w) !! c)
    by (rewrite Hk; apply list_lookup_fmap).
  unfold sv_finish. rewrite Hl. destruct (a_connections (w_ext w) !! c) as [x|] eqn:Hc; [|by eff_step].
  simpl. destruct (cn_finished x); [by eff_step|]. do 7 eff_step. rewrite Ho. eff_step; [|done].
  apply wp_post; [|intros x' Hx'; by rewrite He in Hx']. intros _.
  unfold SV, sview_of in *. subst v. simpl in *. f_equal.
  - rewrite (key_alter _ c (set_cn_finished true x)) by (by rewrite list_lookup_alter_eq, Hc).
    rewrite (key_alter _ _ _ _ Hc), list_insert_insert, decide_True by done. done.
  - unfold finished_ids. by rewrite flat_map_app.
Qed.

(** ** Reachable sessions *)

Definition Sess (held : list Z) (k : Z) (w : aworld) : Prop := s_inv held k (sview_of w).

Lemma s_inv_weaken held k k' v : k <= k' -> s_inv held k v -> s_inv held k' v.
Proof. intros Hk []. split; auto. lia. Qed.

Section Reachable.
Variable cfg : config.

Abbreviation ikept held k m := (kept (E := aenv) (S := aworld) good (Sess held k) m).

Lemma sess_sv {A} held k (m : AM A) : (forall v, kept good (SV v) m) -> ikept held k m.
Proof.
  intros Hm e w He H. eapply wp_mono; [by apply (Hm (sview_of w)) | |];
    intros ? w' Hw; unfold Sess; by rewrite Hw.
Qed.

Lemma sess_conn_finish held k c ec ep : ikept held k (Connection.finish c ec ep).
Proof.
  intros e w He H. eapply wp_mono; [by apply s_conn_finish | |]; intros ? w' Hw; unfold Sess;
    rewrite Hw; by apply s_inv_finish.
Qed.

Lemma sess_update held k c f :
  (forall x, conn_key (f x) = conn_key x) -> ikept held k (modify_ext (update_connection c f)).
Proof. intros Hf. apply sess_sv. intros v. by apply s_update. Qed.

Lemma sess_get_ext {A} held k (f : acceptor_state -> A) : ikept held k (get_ext f).
Proof. apply kept_gets. Qed.

#[local] Hint Resolve sess_conn_finish sess_get_ext : eff.
#[local] Hint Extern 1 (kept _ _ (modify_ext (update_connection _ _))) =>
  (apply sess_update; done) : eff.

Lemma sess_session_handler held k c ec : ikept held k (session_handler c ec).
Proof. unfold session_handler. kept_auto. Qed.
#[local] Hint Resolve sess_session_handler : eff.

Lemma sess_start held k c : ikept held k (start c).
Proof. unfold start, async_run, report. kept_auto. Qed.

Lemma sess_session_completes held k c x ec : ikept held k (session_completes c x ec).
Proof. unfold session_completes, report. kept_auto. Qed.

Lemma sess_accept_next held k reason : ikept held k (accept_next cfg reason).
Proof. apply sess_sv. intros v. apply s_accept_next. Qed.

Lemma sess_maybe_finish held k : ikept held k (maybe_finish cfg).
Proof. apply sess_sv. intros v. apply s_maybe_finish. Qed.

Lemma sess_retry_accept held k ec : ikept held k (retry_accept cfg ec).
Proof. apply sess_sv. intros v. apply s_retry_accept. Qed.

Lemma sess_post_start held k c :
  ikept held k (try_catch (post (connection_strand c) (TExt (TConnStart c))) (fun _ => force_close c)).
Proof. apply sess_sv. intros v. kept_auto; [by apply s_post | apply s_force_close]. Qed.

(** [accepted] numbers the connection. *)
Lemma sess_accepted k k' ec e w :
  good e -> Sess [] k w -> k <= k' ->
  (m_state w = listener_state.running -> k + 1 <= k' /\ k + 1 < u64_modulus) ->
  wp (accepted cfg ec) e w (fun _ => Sess [] k') (fun _ => Sess [] k').
Proof.
  intros He H Hle Hk. assert (Hw : Sess [] k' w) by (by eapply s_inv_weaken; [|exact H]).
  unfold accepted, state, get_ext, modify_ext, record_diagnostic. do 4 eff_step.
  eff_step; [by apply sess_maybe_finish|]. eff_step; [by apply sess_retry_accept|].
  apply negb_false_iff, bool_decide_eq_true in Heqb. destruct (Hk Heqb) as [Hle' Hk'].
  do 13 eff_step.
  - do 2 eff_step. eff_step. apply wp_emit. eff_step.
    eapply wp_mono; [apply (sess_accept_next [] k'); [done|] | |done].
    + unfold Sess. apply (s_inv_weaken _ (k + 1)); [done|].
      erewrite sv_log; [by apply s_inv_skip | done | done |]. done.
    + intros ? w' H'. by eff_step.
  - do 8 eff_step. eff_step. apply wp_emit. eff_step. set (c := length _). set (w1 := log_event _ _).
    assert (H1 : Sess [] k' w1).
    { unfold Sess, w1, sview_of. rewrite !event_ids_log. apply (s_inv_weaken _ (k + 1)); [done|].
      pose proof (s_inv_add k (sview_of w) H Hk') as Ha.
      eapply (eq_rect _ (s_inv [] (k + 1)) Ha). unfold sview_of, sv_add. simpl.
      rewrite map_app, length_map, !andb_true_r, !andb_false_r, app_nil_r. done. }
    clearbody w1.
    eapply wp_mono; [by apply (sess_post_start [] k') | | done]. intros [] w2 H2. eff_step.
    eapply wp_mono; [by apply (sess_accept_next [] k') | | done]. intros ? w3 H3. by eff_step.
Qed.

Lemma has_id_view w id c : has_id (a_connections (w_ext w)) id c = sv_has_id (sview_of w) id c.
Proof.
  unfold has_id, sv_has_id. simpl. rewrite list_lookup_fmap.
  by destruct (a_connections (w_ext w) !! c).
Qed.

Lemma find_first_ext {A} (p q : A -> bool) l :
  (forall x, p x = q x) -> find_first p l = find_first q l /\ erase_first p l = erase_first q l.
Proof.
  intros Hpq. induction l as [|x l [IH1 IH2]]; simpl; [done|]. rewrite <- Hpq.
  destruct (p x); [done|]. by rewrite IH1, IH2.
Qed.

(** What the removal of a session leaves alone. *)
Record same_work (w w' : aworld) : Prop := {
  sw_state : m_state w' = m_state w;
  sw_queue : w_queue w' = w_queue w;
  sw_io : a_io (w_ext w') = a_io (w_ext w);
  sw_pending : m_accept_pending (w_ext w') = m_accept_pending (w_ext w);
  sw_connections : a_connections (w_ext w') = a_connections (w_ext w) }.

Lemma same_work_trans w1 w2 w3 : same_work w1 w2 -> same_work w2 w3 -> same_work w1 w3.
Proof. intros [] []. split; congruence. Qed.

(** [session_finished] drops the session and continues. *)
Lemma wp_session_finished info ec ep e w (Q : unit -> aworld -> Prop) X :
  (forall w', SV (sv_drop (info_id info) (sview_of w)) w' -> same_work w w' ->
     wp ((if bool_decide (m_state w' = listener_state.running)
          then accept_next cfg listener_stop_reason.runtime_failure;; ret tt
          else ret tt);; maybe_finish cfg)%eff e w' Q X) ->
  wp (session_finished cfg info ec ep) e w Q X.
Proof.
  intros HQ. unfold session_finished, state, get_ext, modify_ext, record_diagnostic. do 4 eff_step.
  destruct (find_first_ext (has_id (a_connections (w_ext w)) (info_id info))
    (sv_has_id (sview_of w) (info_id info)) (m_sessions (w_ext w)) (has_id_view w _)) as [Hf He'].
  rewrite Hf, He'. eff_step.
  pose (v1 := mk_sview (sv_conns (sview_of w)) (sv_sessions (sv_drop (info_id info) (sview_of w)))
    (sv_next (sview_of w)) (sv_queued (sview_of w)) (sv_observed (sview_of w))
    (sv_started (sview_of w)) (sv_stopped (sview_of w))).
  pose (P := fun w' => SV v1 w' /\ same_work w w').
  assert (Hv1 : wp (match find_first (sv_has_id (sview_of w) (info_id info)) (m_sessions (w_ext w)) with
      | None => ret tt
      | Some _ =>
        modify (ext_update (set_m_sessions (erase_first (sv_has_id (sview_of w) (info_id info)) (m_sessions (w_ext w)))));;
        modify (fun w => set_m_active_sessions (u64 (m_active_sessions w - 1)) w)
      end)%eff e w (fun _ => P) (fun _ _ => False)).
  { unfold P, v1, sv_drop. change (sv_sessions (sview_of w)) with (m_sessions (w_ext w)).
    clear Hf He'. by destruct (find_first _ (m_sessions (w_ext w))). }
  eapply wp_mono; [exact Hv1 | | done]. intros [] w1 H1. eff_step.
  apply (wp_nothrow P); [|done|].
  { intros ? ? ? [H2 H3]. eff_step; [eff_step|]; (split; [exact H2|]); (eapply same_work_trans; [exact H3|done]). }
  intros [] w2 [H2 H3]. eff_step. apply wp_emit. do 2 eff_step. set (w3 := log_event _ _).
  apply HQ; [|eapply same_work_trans; [exact H3 | done]].
  unfold SV, w3, sview_of at 1. rewrite !event_ids_log. unfold SV in H2. simpl.
  injection H2 as -> -> -> -> -> -> ->. rewrite andb_true_r, andb_false_r, app_nil_r. done.
Qed.

Lemma sess_session_finished k info ec ep e w :
  good e -> Sess [info_id info] k w ->
  wp (session_finished cfg info ec ep) e w (fun _ => Sess [] k) (fun _ => Sess [] k).
Proof.
  intros He H. apply wp_session_finished. intros w' Hv _.
  assert (H' : Sess [] k w') by (unfold Sess; rewrite Hv; by apply s_inv_drop).
  apply (kept_bind good (Sess [] k)); [|intros; apply sess_maybe_finish | done | done].
  destruct (bool_decide _); [|apply kept_ret].
  apply kept_bind; [apply sess_accept_next | intros; apply kept_ret].
Qed.

Lemma sess_dequeue k i x w :
  w_queue w !! i = Some x -> Sess [] k w ->
  Sess (finished_ids [x]) k (set_w_queue (remove_at i (w_queue w)) w).
Proof.
  intros Hi H.
  assert (Hq : finished_ids (w_queue w) ≡ₚ finished_ids [x] ++ finished_ids (remove_at i (w_queue w))).
  { unfold finished_ids. rewrite <- flat_map_app. by rewrite (remove_at_perm _ _ _ Hi) at 1. }
  destruct H. split; try done. etrans; [exact si_account0|]. apply Permutation_app_head. exact Hq.
Qed.

Lemma sess_run_task k k' x e w :
  good e -> Sess (finished_ids [x]) k w -> k <= k' ->
  (m_state w = listener_state.running -> k + 1 <= k' /\ k + 1 < u64_modulus) ->
  wp (run_task cfg (snd x)) e w (fun _ => Sess [] k') (fun _ => Sess [] k').
Proof.
  intros He H Hk' Hk.
  destruct x as [ex [h|id h|id| |on h ec|t]]; simpl in *;
    [pose proof (s_inv_weaken _ _ _ _ Hk' H : Sess [] k' w) as H'..|].
  - apply (sess_sv [] k'); [intros v | done | done]. unfold run_start, clear_slot.
    kept_auto; try done; [by apply s_post | apply s_start_on_strand].
  - apply (sess_sv [] k'); [intros v | done | done]. apply kept_pres, pres_run_wait, _.
  - apply (sess_sv [] k'); [intros v | done | done]. apply kept_pres, pres_cancel_wait, _.
  - apply (sess_sv [] k'); [intros v | done | done]. unfold stop_on_strand. apply s_begin_stop.
  - apply (sess_sv [] k'); [intros v | done | done]. apply kept_pres, pres_run_dispatch, _.
  - destruct t as [ec|ec|ec|info ec ep|c|c|c]; simpl in *;
      try pose proof (s_inv_weaken _ _ _ _ Hk' H : Sess [] k' w) as H'.
    + by apply (sess_accepted k).
    + apply (sess_sv [] k'); [intros v | done | done]. apply s_retry_timer_expired.
    + apply (sess_sv [] k'); [intros v | done | done]. apply s_shutdown_deadline.
    + eapply wp_mono; [by apply sess_session_finished | |]; intros ? ?; by apply s_inv_weaken.
    + by apply sess_start.
    + by apply sess_update.
    + by apply sess_conn_finish.
Qed.

Lemma s_update_registry v f : kept good (SV v) (update_registry f).
Proof.
  intros e w _ <-. unfold update_registry. eff_step. unfold SV, sview_of. simpl. f_equal.
  by destruct (w_registry w).
Qed.

Lemma sess_exec k k' a e w :
  good e -> Sess [] k w -> k <= k' ->
  (m_state w = listener_state.running -> k + 1 <= k' /\ k + 1 < u64_modulus) ->
  wp (exec cfg a) e w (fun _ => Sess [] k') (fun _ => Sess [] k').
Proof.
  intros He H Hle Hk. assert (H' : Sess [] k' w) by (by eapply s_inv_weaken; [|exact H]).
  destruct a as [ex al sl|ex al sl| |op ty|i ec|c x ec|i|value|id]; simpl.
  - apply (sess_sv [] k'); [intros v | done | done]. apply kept_pres, pres_do_async_start, _.
  - apply (sess_sv [] k'); [intros v | done | done]. apply kept_pres, pres_do_async_wait, _.
  - apply (sess_sv [] k'); [intros v | done | done]. apply kept_nothrow, nt_request_stop, _.
  - apply (sess_sv [] k'); [intros v | done | done]. apply kept_nothrow, nt_emit_cancellation, _.
  - apply (sess_sv [] k'); [intros v | done | done]. unfold complete_io.
    kept_auto; [apply s_get_ext | by apply s_modify_ext |]. apply sv_push; [|done].
    match goal with op : io_op |- _ => by destruct op end.
  - by apply sess_session_completes.
  - unfold run_posted. do 2 eff_step. destruct (w_queue w !! i) as [x|] eqn:Hi; [|by eff_step].
    destruct x as [ex t]. do 2 eff_step. apply (sess_run_task k k' (ex, t)); [done | | done | done].
    by apply sess_dequeue.
  - apply (sess_sv [] k'); [intros v | done | done]. apply s_update_registry.
  - apply (sess_sv [] k'); [intros v | done | done]. apply s_update_registry.
Qed.

Lemma sess_reach registry n w :
  reach cfg good registry n w -> Z.of_nat n < u64_modulus -> Sess [] (Z.of_nat n) w.
Proof.
  induction 1 as [w Hw | n w w' _ IH Hs]; intros Hn.
  - unfold make_listener in Hw. destruct (validate_acceptor_options _); simplify_eq.
    split; simpl; try done; constructor.
  - assert (Hn' : Z.of_nat n < u64_modulus) by lia. specialize (IH Hn').
    replace (Z.of_nat (S n)) with (Z.of_nat n + 1) in * by lia.
    destruct Hs as [e a w1 w2 He E | e a w1 w2 x He E];
      (assert (H : wp (exec cfg a) e w1 (fun _ => Sess [] (Z.of_nat n + 1)) (fun _ => Sess [] (Z.of_nat n + 1)));
       [apply (sess_exec (Z.of_nat n)); [done | done | lia | lia] | unfold wp in H; by rewrite E in H]).
Qed.
End Reachable.
