(* ===== verification/AcceptorWork.v ===== *)
(** * Pending work of a stopping listener

    A listener that is stopping has no outstanding accept, and a deadline: the
    grace timer is armed, or it has expired and its completion is queued, or
    every connection that is not finished is about to be closed by force.  Every
    connection that is not finished is in [m_sessions]. *)

From S2P Require Import Prelude Errors Effect Options Endpoint Status Observers ListenerBase.
From S2P Require Import ListenerFacts Connection AcceptorFacts Acceptor AcceptorSessions.

Local Open Scope Z_scope.

Definition live (s : listener_state.t) : Prop :=
  s = listener_state.starting \/ s = listener_state.running.

Definition unfinished (w : aworld) (c : nat) : Prop :=
  exists x, a_connections (w_ext w) !! c = Some x /\ cn_finished x = false.

Definition queued (w : aworld) (t : acceptor_task) : Prop :=
  exists ex, (ex, TExt t) ∈ w_queue w.

Definition Covered (w : aworld) : Prop := forall c, unfinished w c -> c ∈ m_sessions (w_ext w).

Definition no_accept (w : aworld) : Prop := countb is_accept (a_io (w_ext w)) = 0%nat.

Definition Deadline (w : aworld) : Prop :=
  (exists d, IoShutdownTimer d ∈ a_io (w_ext w)) \/
  (exists ec, failed ec = false /\ queued w (TShutdownTimer ec)) \/
  (forall c, unfinished w c -> queued w (TConnForceClose c)).

Record Work (w : aworld) : Prop := {
  wk_covered : Covered w;
  wk_closed : ~ live (m_state w) -> no_accept w;
  wk_deadline : m_state w = listener_state.stopping -> Deadline w }.

(** ** Changes that keep it *)

Record frame (w w' : aworld) : Prop := {
  fr_state : m_state w' = m_state w;
  fr_io : a_io (w_ext w') = a_io (w_ext w);
  fr_queue x : x ∈ w_queue w -> x ∈ w_queue w';
  fr_sessions : m_sessions (w_ext w') = m_sessions (w_ext w);
  fr_open c : unfinished w' c -> unfinished w c }.

Lemma frame_refl w : frame w w.
Proof. by split. Qed.

Lemma frame_trans w1 w2 w3 : frame w1 w2 -> frame w2 w3 -> frame w1 w3.
Proof. intros [] []. split; (congruence || auto). Qed.

Lemma queued_frame w w' t : frame w w' -> queued w t -> queued w' t.
Proof. intros Hf [ex H]. exists ex. by apply (fr_queue _ _ Hf). Qed.

Lemma covered_frame w w' : frame w w' -> Covered w -> Covered w'.
Proof. intros Hf H c Hc. rewrite (fr_sessions _ _ Hf). by apply H, (fr_open _ _ Hf). Qed.

Lemma deadline_frame w w' : frame w w' -> Deadline w -> Deadline w'.
Proof.
  intros Hf [[d Hd]|[(ec & He & Hq)|Ha]].
  - left. exists d. by rewrite (fr_io _ _ Hf).
  - right; left. exists ec. split; [done|]. by eapply queued_frame.
  - right; right. intros c Hc. eapply queued_frame; [done|]. by apply Ha, (fr_open _ _ Hf).
Qed.

Lemma work_frame w w' : frame w w' -> Work w -> Work w'.
Proof.
  intros Hf [Hc Ha Hd]. split.
  - by eapply covered_frame.
  - rewrite (fr_state _ _ Hf). unfold no_accept. by rewrite (fr_io _ _ Hf).
  - rewrite (fr_state _ _ Hf). intros Hs. eapply deadline_frame; [exact Hf | by apply Hd].
Qed.

Definition Framed (w0 : aworld) (w : aworld) : Prop := frame w0 w.

Lemma frame_push w x : frame w (set_w_queue (w_queue w ++ [x]) w).
Proof. split; simpl; auto. intros y Hy. apply elem_of_app. by left. Qed.

Global Instance framed_insensitive w0 : Insensitive (Framed w0).
Proof.
  split; [split|..]; try (intros ? w H; eapply frame_trans; [exact H|]; by split).
  intros ex t w _ H. eapply frame_trans; [exact H|]. apply frame_push.
Qed.

Global Instance framed_log w0 : LogInsensitive (Framed w0).
Proof. split. intros ev w H. eapply frame_trans; [exact H|]. by split. Qed.

Lemma framed_update c f w0 w :
  (forall x, cn_finished x = true -> cn_finished (f x) = true) ->
  Framed w0 w -> Framed w0 (ext_update (update_connection c f) w).
Proof.
  intros Hf H. eapply frame_trans; [exact H|]. split; simpl; auto.
  intros c' (x & Hx & Hfin). simpl in Hx. destruct (decide (c' = c)) as [->|Hne].
  - rewrite list_lookup_alter_eq in Hx. destruct (a_connections (w_ext w) !! c) as [y|] eqn:Hy; [|done].
    simpl in Hx. injection Hx as <-. exists y. split; [done|].
    destruct (cn_finished y) eqn:E; [|done]. rewrite (Hf y E) in Hfin. done.
  - rewrite list_lookup_alter_ne in Hx by done. by exists x.
Qed.

(** Connection operations only finish connections and post. *)
Section Frames.
Variable w0 : aworld.
Abbreviation fkept m := (kept (E := aenv) (S := aworld) any_env (Framed w0) m).

Lemma f_post ex t : fkept (post ex t).
Proof.
  intros e w _ H. apply wp_post; [|done]. intros _. eapply frame_trans; [exact H|]. apply frame_push.
Qed.

Lemma f_update c f :
  (forall x, cn_finished x = true -> cn_finished (f x) = true) ->
  fkept (modify_ext (update_connection c f)).
Proof. intros Hf. apply kept_modify. intros w. by apply framed_update. Qed.

Lemma f_get_ext {A} (f : acceptor_state -> A) : fkept (get_ext f).
Proof. apply kept_gets. Qed.

#[local] Hint Resolve f_post f_get_ext : eff.
#[local] Hint Extern 1 (kept _ _ (modify_ext (update_connection _ _))) =>
  (apply f_update; done) : eff.

Lemma f_conn_finish c ec ep : fkept (Connection.finish c ec ep).
Proof.
  apply kept_noexcept; [apply (conn_finish anywhere)|].
  unfold close_now, session_finished_post. kept_auto.
Qed.
#[local] Hint Resolve f_conn_finish : eff.

Lemma f_force_close c : fkept (force_close c).
Proof. apply kept_noexcept; [apply (conn_force_close anywhere)|]. kept_auto. Qed.
#[local] Hint Resolve f_force_close : eff.

Lemma f_request_stop c : fkept (Connection.request_stop c).
Proof. apply kept_noexcept; [apply (conn_request_stop anywhere)|]. kept_auto. Qed.

Lemma f_session_handler c ec : fkept (session_handler c ec).
Proof. unfold session_handler. kept_auto. Qed.
#[local] Hint Resolve f_session_handler : eff.

Lemma f_start c : fkept (start c).
Proof. unfold start, async_run, report. kept_auto. Qed.

Lemma f_session_completes c x ec : fkept (session_completes c x ec).
Proof. unfold session_completes, report. kept_auto. Qed.
End Frames.

Lemma work_framed {A} (m : AM A) :
  (forall w0, kept any_env (Framed w0) m) -> kept good Work m.
Proof.
  intros Hm e w He H. apply (wp_mono _ _ _ (fun _ => Framed w) _ (fun _ => Framed w)).
  { apply (Hm w); [done | apply frame_refl]. }
  all: intros ? w' Hw; eapply work_frame; [exact Hw | exact H].
Qed.

(** ** Outstanding operations *)

Lemma countb_filter_zero {A} (p q : A -> bool) l : countb p l = 0%nat -> countb p (List.filter q l) = 0%nat.
Proof.
  induction l as [|x l IH]; [done|]. rewrite countb_cons. simpl.
  destruct (q x); rewrite ?countb_cons; destruct (p x); simpl; lia.
Qed.

Lemma countb_filter_negb {A} (p : A -> bool) l : countb p (List.filter (fun x => negb (p x)) l) = 0%nat.
Proof.
  induction l as [|x l IH]; [done|]. simpl. destruct (p x) eqn:E; simpl; [done|].
  by rewrite countb_cons, E.
Qed.

Lemma no_accept_cancel w : no_accept (cancel_io is_accept w).
Proof. apply countb_filter_negb. Qed.

Lemma no_accept_keep which w : no_accept w -> no_accept (cancel_io which w).
Proof. apply countb_filter_zero. Qed.

(** Covered and without accepts: the states of [finish] and [begin_stop]. *)
Definition Shut (w : aworld) : Prop := Covered w /\ no_accept w.

Lemma shut_enter cfg st w : Shut w -> Shut (enter cfg st w).
Proof. done. Qed.

Lemma shut_close w : Covered w -> Shut (ext_update (set_m_acceptor_open false) (cancel_io is_accept w)).
Proof. intros H. split; [exact H | exact (no_accept_cancel w)]. Qed.

Lemma shut_cancel which w : Shut w -> Shut (cancel_io which w).
Proof. intros [Hc Ha]. split; [exact Hc | by apply no_accept_keep]. Qed.

Lemma shut_waiters l w : Shut w -> Shut (set_m_waiters [] (waiters_posted l w)).
Proof. done. Qed.

Lemma covered_cancel which w : Covered w -> Covered (cancel_io which w).
Proof. done. Qed.

Lemma covered_enter cfg st w : Covered w -> Covered (enter cfg st w).
Proof. done. Qed.

(** Cancelling accepts or retries keeps the deadline. *)
Lemma work_cancel which w :
  (forall d, which (IoShutdownTimer d) = false) -> Work w -> Work (cancel_io which w).
Proof.
  intros Hw [Hc Ha Hd]. split; simpl.
  - exact Hc.
  - intros Hl. by apply no_accept_keep, Ha.
  - intros Hs. destruct (Hd Hs) as [[d H]|[(ec & He & ex & Hq)|H]].
    + left. exists d. simpl. apply list_elem_of_In, filter_In.
      split; [by apply list_elem_of_In | by rewrite Hw].
    + right; left. exists ec. split; [done|]. exists ex. simpl. apply elem_of_app. by left.
    + right; right. intros c Hx. destruct (H c Hx) as [ex Hq]. exists ex. simpl. apply elem_of_app. by left.
Qed.

(** ** The listener's functions *)

Section Listener.
Variable cfg : config.

Abbreviation wkept m := (kept (E := aenv) (S := aworld) good Work m).

Lemma w_emit type info ec ep : wkept (emit cfg type info ec ep).
Proof. apply work_framed. intros w0. apply kept_nothrow, nt_emit, _. Qed.

Lemma w_record ec ep : wkept (record_diagnostic ec ep).
Proof. apply work_framed. intros w0. apply kept_nothrow, nt_record_diagnostic, _. Qed.

Lemma w_set_stop_reason r : wkept (set_stop_reason r).
Proof. apply work_framed. intros w0. apply kept_nothrow, nt_set_stop_reason, _. Qed.

Lemma w_post ex t : wkept (post ex t).
Proof. apply work_framed. intros w0. apply f_post. Qed.

Lemma w_complete_on ex h ec : wkept (complete_on ex h ec).
Proof. apply w_post. Qed.

Lemma w_force_close c : wkept (force_close c).
Proof. apply work_framed. intros w0. apply f_force_close. Qed.

Lemma w_get_ext {A} (f : acceptor_state -> A) : wkept (get_ext f).
Proof. apply kept_gets. Qed.

(** A change outside the outstanding operations, the sessions and the connections. *)
Lemma w_modify_ext f :
  (forall a, a_io (f a) = a_io a /\ m_sessions (f a) = m_sessions a /\
             a_connections (f a) = a_connections a) ->
  wkept (modify_ext f).
Proof.
  intros Hf. apply kept_modify. intros w. destruct (Hf (w_ext w)) as (H1 & H2 & H3).
  apply work_frame. split; simpl; try done. intros c (x & Hx & H). exists x. simpl in Hx.
  by rewrite H3 in Hx.
Qed.

Lemma w_modify_base f : (forall w, frame w (f w)) -> wkept (modify f).
Proof. intros Hf. apply kept_modify. intros w. by apply work_frame. Qed.

(** Entering a live state. *)
Lemma work_enter_live st w : live st -> Covered w -> Work (enter cfg st w).
Proof.
  intros Hl Hc. split; [exact Hc | done |]. simpl. intros ->. by destruct Hl.
Qed.

Lemma w_transition_live st : live st -> wkept (transition_to cfg st).
Proof. intros Hl e w _ []. apply wp_transition_to. by apply work_enter_live. Qed.

(** [finish] leads to a stopped listener. *)
Lemma work_stopped w : Shut w -> m_state w = listener_state.stopped -> Work w.
Proof. intros [Hc Ha] Hs. split; [done | done | congruence]. Qed.

Lemma stopped_waiters l (w : aworld) :
  m_state (set_m_waiters [] (waiters_posted l (enter cfg listener_state.stopped w)))
  = listener_state.stopped.
Proof. done. Qed.

Lemma w_finish' ec reason e w :
  good e -> Covered w -> m_state w <> listener_state.stopped ->
  wp (Acceptor.finish cfg ec reason) e w (fun _ => Work) (fun _ => Work).
Proof.
  intros [He _] Hc Hs. unfold Acceptor.finish, state, set_stop_reason. do 2 eff_step.
  rewrite bool_decide_eq_false_2 by done. do 5 eff_step.
  apply (wp_nothrow (Framed w)); [by apply nt_keep_first_error; apply _ | by split |].
  intros [] w1 Hf. eff_step.
  unfold acceptor_close, modify_ext, retry_timer_cancel, shutdown_timer_cancel. do 8 eff_step.
  apply wp_transition_to. apply wp_complete_waiters; [done|]. apply work_stopped; [|apply stopped_waiters].
  apply shut_waiters, shut_enter, shut_cancel, shut_cancel, shut_close.
  by apply (covered_frame _ _ Hf).
Qed.

Lemma w_finish ec reason : wkept (Acceptor.finish cfg ec reason).
Proof.
  intros e w He H. destruct (decide (m_state w = listener_state.stopped)) as [Hs|Hs].
  - unfold Acceptor.finish, state. do 2 eff_step. rewrite bool_decide_eq_true_2 by done. by eff_step.
  - apply w_finish'; [done | apply H | done].
Qed.

#[local] Hint Resolve w_emit w_record w_set_stop_reason w_post w_complete_on w_force_close w_get_ext
  w_finish : eff.
#[local] Hint Extern 1 (kept _ _ (modify_ext _)) => (apply w_modify_ext; done) : eff.
#[local] Hint Extern 1 (kept _ _ (transition_to _ _)) =>
  (apply w_transition_live; unfold live; by auto) : eff.
#[local] Hint Extern 1 (Work (cancel_io _ _)) => (apply work_cancel; done) : eff.
#[local] Hint Extern 2 (Work (_ _ _)) =>
  match goal with H : Work ?w |- Work _ => apply (work_frame w); [by split | exact H] end : eff.

Ltac w_auto := kept_auto; auto with eff.

Lemma w_maybe_finish : wkept (maybe_finish cfg).
Proof. unfold maybe_finish, state, stop_reason. w_auto. Qed.
#[local] Hint Resolve w_maybe_finish : eff.

(** The sessions are closed by force: each gets its closure. *)
Lemma w_force_all (sessions : list nat) e w :
  good e ->
  wp (for_each sessions force_close) e w
    (fun _ w' => frame w w' /\ forall c, c ∈ sessions -> queued w' (TConnForceClose c))
    (fun _ _ => False).
Proof.
  intros [He _]. apply (wp_for_each sessions force_close e
    (fun l w' => frame w w' /\ forall c, c ∈ l -> queued w' (TConnForceClose c)) (fun _ _ => False)).
  - intros l c rest w' _ [Hf Hq]. unfold force_close. do 2 eff_step.
    apply wp_post; [|intros x Hx; by rewrite He in Hx]. intros _.
    assert (Hp := frame_push w' (connection_strand c, TExt (TConnForceClose c))).
    split; [by eapply frame_trans|]. intros c' [Hc|Hc%list_elem_of_singleton]%elem_of_app; [|subst c'].
    + eapply queued_frame; [exact Hp|]. by apply Hq.
    + exists (connection_strand c). simpl. apply elem_of_app. right. apply list_elem_of_here.
  - split; [apply frame_refl|]. intros c Hc. by apply elem_of_nil in Hc.
Qed.

Lemma deadline_all w w' :
  frame w w' -> Covered w -> (forall c, c ∈ m_sessions (w_ext w) -> queued w' (TConnForceClose c)) ->
  Deadline w'.
Proof. intros Hf Hc Hq. right; right. intros c Hu. by apply Hq, Hc, (fr_open _ _ Hf). Qed.

(** The world after the grace timer is armed, or its sessions are being closed. *)
Lemma w_arm_deadline e w d :
  good e -> Covered w -> no_accept w -> m_state w = listener_state.stopping ->
  wp (when (negb (bool_decide (m_sessions (w_ext w) = [])))
       (try_catch (arm_shutdown_timer d)
          (fun _ => for_each (m_sessions (w_ext w)) force_close))) e w (fun _ => Work) (fun _ => Work).
Proof.
  intros He Hc Ha Hs. eff_step.
  2: { apply negb_false_iff, bool_decide_eq_true in H. split; [done | done |]. intros _.
       right; right. intros c Hu%Hc. rewrite H in Hu. by apply elem_of_nil in Hu. }
  unfold arm_shutdown_timer, shutdown_timer_cancel, modify_ext. do 4 eff_step. eff_step.
  - eff_step. split; simpl; [exact Hc | |].
    + intros _. unfold no_accept. simpl. rewrite countb_app, countb_cons.
      by rewrite (no_accept_keep is_shutdown_timer _ Ha).
    + intros _. left. exists d. simpl. apply elem_of_app. right. apply list_elem_of_here.
  - set (w1 := cancel_io is_shutdown_timer w). change (m_sessions (w_ext w)) with (m_sessions (w_ext w1)).
    eapply wp_mono; [by apply w_force_all | | done]. intros [] w2 [Hf Hq]. split.
    + by apply (covered_frame _ _ Hf).
    + intros _. unfold no_accept. rewrite (fr_io _ _ Hf). by apply no_accept_keep.
    + intros _. by apply (deadline_all w1).
Qed.

Lemma w_begin_stop ec reason : wkept (begin_stop cfg ec reason).
Proof.
  intros e w He H. unfold begin_stop, state, set_stop_reason, get_ext, acceptor_cancel, acceptor_close,
    retry_timer_cancel, modify_ext. do 2 eff_step. eff_step.
  { do 5 eff_step. apply wp_transition_to. apply w_finish'; [done | apply H | done]. }
  eff_step; [by eff_step|]. do 5 eff_step. apply wp_transition_to. do 11 eff_step.
  set (w1 := cancel_io is_retry_timer _).
  assert (H1 : Shut w1) by (apply shut_cancel, shut_close, covered_cancel, covered_enter, H).
  assert (Hs : m_state w1 = listener_state.stopping) by done.
  clearbody w1.
  apply (wp_mono _ _ _ (fun _ => Framed w1) _ (fun _ _ => False)).
  { apply (wp_for_each _ _ e (fun _ => Framed w1) (fun _ _ => False)); [|apply frame_refl].
    intros done c rest w' _ Hw. destruct He as [He _]. unfold Connection.request_stop. do 2 eff_step.
    apply wp_post; [|intros x Hx; by rewrite He in Hx]. intros _.
    eapply frame_trans; [exact Hw | apply frame_push]. }
  2: done.
  intros [] w2 Hf. eff_step. destruct H1 as [Hc Ha]. rewrite <- (fr_sessions _ _ Hf).
  eapply wp_mono; [apply w_arm_deadline; [done| | |] | intros [] w3 H3; by apply w_maybe_finish | done].
  - by apply (covered_frame _ _ Hf).
  - unfold no_accept. by rewrite (fr_io _ _ Hf).
  - by rewrite (fr_state _ _ Hf).
Qed.
#[local] Hint Resolve w_begin_stop : eff.

(** An accept is only added in a live state. *)
Lemma w_accept_next reason : wkept (accept_next cfg reason).
Proof.
  intros e w He H. unfold accept_next, state, get_ext, modify_ext. do 6 eff_step.
  destruct (_ || m_accept_pending (w_ext w)) eqn:Hl.
  { apply (kept_bind good Work); [apply w_maybe_finish | intros; apply kept_ret | done | done]. }
  eff_step; [by eff_step|]. do 4 eff_step. eff_step.
  - do 3 eff_step. apply orb_false_iff in Hl as [Hl _].
    assert (live (m_state w)) by (unfold live; destruct (m_state w); by auto).
    split; simpl; [apply H | done |]. intros Hs. rewrite Hs in *. by destruct H1.
  - do 2 eff_step. unfold record_diagnostic. do 3 eff_step. apply wp_emit. eff_step.
    eapply wp_mono; [apply w_begin_stop; [done|] | intros; by eff_step | done].
    apply (work_frame w); [by split | exact H].
Qed.
#[local] Hint Resolve w_accept_next : eff.

Lemma w_arm_retry_timer d : wkept (arm_retry_timer d).
Proof.
  unfold arm_retry_timer, retry_timer_cancel, modify_ext. w_auto.
  match goal with H : Work ?w |- _ => destruct H as [Hc Ha Hd] end. split; simpl; [exact Hc | |].
  - intros Hl. unfold no_accept. simpl. rewrite countb_app, countb_cons. by rewrite (Ha Hl).
  - intros Hs. destruct (Hd Hs) as [[d' Hi]|Hr]; [left | by right].
    exists d'. simpl. apply elem_of_app. by left.
Qed.
#[local] Hint Resolve w_arm_retry_timer : eff.

Lemma w_retry_accept ec : wkept (retry_accept cfg ec).
Proof. unfold retry_accept. w_auto. Qed.
#[local] Hint Resolve w_retry_accept : eff.

Lemma w_retry_timer_expired ec : wkept (retry_timer_expired cfg ec).
Proof. unfold retry_timer_expired. w_auto. Qed.

(** The queued deadline may be the task that runs. *)
Lemma w_shutdown_deadline ec e w :
  good e -> Covered w -> (~ live (m_state w) -> no_accept w) ->
  (failed ec = true -> Work w) ->
  wp (shutdown_deadline cfg ec) e w (fun _ => Work) (fun _ => Work).
Proof.
  intros He Hc Ha Hw. unfold shutdown_deadline, record_diagnostic, get_ext. eff_step; [eff_step; auto|].
  do 3 eff_step. apply wp_emit. do 2 eff_step. set (w1 := log_event _ _).
  assert (Hf1 : frame w w1) by (by split). clearbody w1.
  eapply wp_mono; [by apply w_force_all | | done]. intros [] w2 [Hf Hq].
  assert (Hc1 := covered_frame _ _ Hf1 Hc). split.
  - by apply (covered_frame _ _ Hf).
  - unfold no_accept. by rewrite (fr_state _ _ Hf), (fr_io _ _ Hf), (fr_state _ _ Hf1), (fr_io _ _ Hf1).
  - intros _. by apply (deadline_all w1).
Qed.

Lemma w_open_acceptor : wkept (open_acceptor cfg).
Proof. unfold open_acceptor, acceptor_open. w_auto. Qed.
#[local] Hint Resolve w_open_acceptor : eff.

Lemma w_start_on_strand h : wkept (start_on_strand cfg h).
Proof. unfold start_on_strand, state, clear_diagnostics. w_auto. Qed.

(** A new connection is in [m_sessions]. *)
Lemma covered_add w info :
  Covered w ->
  Covered (ext_update (fun a => set_m_sessions (m_sessions a ++ [length (a_connections (w_ext w))]) a)
    (ext_update (fun a => set_a_connections (a_connections a ++ [mk_connection info true false None false false]) a) w)).
Proof.
  intros H c (x & Hx & Hfin). simpl in *. apply elem_of_app.
  apply lookup_app_Some in Hx as [Hx|[Hlen Hx]].
  - left. apply H. by exists x.
  - right. apply list_elem_of_singleton. apply list_lookup_singleton_Some in Hx as [? _]. lia.
Qed.

Lemma work_running w : Covered w -> m_state w = listener_state.running -> Work w.
Proof.
  intros Hc Hs. split; [done | | congruence]. intros Hl. destruct Hl. by right.
Qed.

Lemma w_accepted ec : wkept (accepted cfg ec).
Proof.
  intros e w He H. unfold accepted, state, get_ext, modify_ext, record_diagnostic. do 4 eff_step.
  assert (H1 : Work (ext_update (set_m_accept_pending false) w)).
  { apply (work_frame w); [by split | exact H]. }
  eff_step; [by apply w_maybe_finish|]. eff_step; [by apply w_retry_accept|].
  apply negb_false_iff, bool_decide_eq_true in Heqb. do 13 eff_step.
  - do 2 eff_step. eff_step. apply wp_emit. eff_step.
    eapply wp_mono; [apply w_accept_next; [done|] | intros; by eff_step | done].
    apply work_running; [exact (wk_covered _ H) | exact Heqb].
  - do 8 eff_step. eff_step. apply wp_emit. eff_step.
    set (w1 := log_event _ _). assert (H2 : Work w1).
    { apply work_running; [|exact Heqb]. exact (covered_add w _ (wk_covered _ H)). }
    clearbody w1.
    eapply wp_mono; [apply (kept_try good Work); [apply w_post | intros; apply w_force_close | done | done]
      | | done].
    intros [] w2 H3. eff_step. eapply wp_mono; [by apply w_accept_next | intros; by eff_step | done].
Qed.

(** Uniqueness of ids: connections that are not finished are sessions. *)
Lemma covered_sess k w : Sess [] k w -> Covered w.
Proof.
  intros H c (x & Hx & Hfin).
  assert (Hk : sv_conns (sview_of w) !! c = Some (conn_key x)) by (simpl; by rewrite list_lookup_fmap, Hx).
  assert (Hin : info_id (cn_info x) ∈ sv_session_ids (sview_of w)).
  { rewrite (si_account _ _ _ H). apply elem_of_app. left. unfold sv_open.
    apply list_elem_of_In, in_map_iff. exists (conn_key x). split; [done|]. apply filter_In.
    split; [|simpl; by rewrite Hfin]. apply list_elem_of_In. by eapply list_elem_of_lookup_2. }
  apply find_session in Hin as [c' Hf]. destruct (find_first_true _ _ _ Hf) as [Hid Hc'].
  unfold sv_has_id in Hid. destruct (sv_conns (sview_of w) !! c') as [y|] eqn:Hy; [|done].
  apply Z.eqb_eq in Hid. replace c with c'; [done|].
  eapply (NoDup_lookup (sv_ids (sview_of w))); [apply H | |].
  - unfold sv_ids. by rewrite list_lookup_fmap, Hy.
  - unfold sv_ids. rewrite list_lookup_fmap, Hk. simpl. by rewrite Hid.
Qed.

Lemma w_session_finished k info ec ep e w :
  good e -> Work w -> Sess [info_id info] k w ->
  wp (session_finished cfg info ec ep) e w (fun _ => Work) (fun _ => Work).
Proof.
  intros He H Hs. apply wp_session_finished. intros w' Hv Hw.
  assert (Hs' : Sess [] k w') by (unfold Sess; rewrite Hv; by apply s_inv_drop).
  assert (H' : Work w').
  { destruct H as [Hc Ha Hd], Hw as [H1 H2 H3 H4 H5]. split.
    - by eapply covered_sess.
    - unfold no_accept. by rewrite H1, H3.
    - unfold Deadline, queued, unfinished. by rewrite H1, H2, H3, H5. }
  apply (kept_bind good Work); [|intros; apply w_maybe_finish | done | done].
  destruct (bool_decide _); [|apply kept_ret].
  apply kept_bind; [apply w_accept_next | intros; apply kept_ret].
Qed.

(** ** Actions *)

(** A task leaves the queue; the deadline depends on two kinds of tasks. *)
Definition deadline_task (t : task acceptor_task) : bool :=
  match t with
  | TExt (TShutdownTimer ec) => negb (failed ec)
  | TExt (TConnForceClose _) => true
  | _ => false
  end.

Lemma work_dequeue i ex t w :
  w_queue w !! i = Some (ex, t) -> deadline_task t = false -> Work w ->
  Work (set_w_queue (remove_at i (w_queue w)) w).
Proof.
  intros Hi Ht [Hc Ha Hd]. split; [exact Hc | exact Ha |]. intros Hs.
  assert (Hq : forall t', deadline_task (TExt t') = true -> queued w t' ->
                 queued (set_w_queue (remove_at i (w_queue w)) w) t').
  { intros t' Ht' [ex' Hq]. exists ex'. simpl. eapply elem_of_remove_at; [done..|].
    intros [= _ <-]. congruence. }
  destruct (Hd Hs) as [Hl|[(ec & He & H)|H]]; [by left | right; left | right; right].
  - exists ec. split; [done|]. apply Hq; [|done]. simpl. by rewrite He.
  - intros c Hu. by apply Hq, H.
Qed.

(** The forced close of [c] runs: [c] is finished afterwards. *)
Lemma w_run_force_close i ex c e w :
  good e -> Work w -> w_queue w !! i = Some (ex, TExt (TConnForceClose c)) ->
  wp (run_force_close c) e (set_w_queue (remove_at i (w_queue w)) w) (fun _ => Work) (fun _ => Work).
Proof.
  intros He [Hc Ha Hd] Hi. set (w1 := set_w_queue _ w).
  assert (Hfin : wp (run_force_close c) e w1 (fun _ w' => ~ unfinished w' c) (fun _ w' => ~ unfinished w' c)).
  { apply (wp_mono _ _ _ (fun _ => SV (sv_finish c (sview_of w1))) _ (fun _ => SV (sv_finish c (sview_of w1))));
      [by apply s_conn_finish | |]; intros ? w' Hw (x & Hx & Hf); unfold SV in Hw.
    all: assert (Hk : sv_conns (sview_of w') !! c = Some (conn_key x)) by (simpl; by rewrite list_lookup_fmap, Hx).
    all: rewrite Hw in Hk; unfold sv_finish, conn_key in Hk; rewrite Hf in Hk.
    all: destruct (sv_conns (sview_of w1) !! c) as [[id []]|] eqn:E; cbn [sv_conns] in Hk; try congruence.
    all: rewrite list_lookup_insert_eq in Hk by (by eapply lookup_lt_Some); congruence. }
  pose proof (f_conn_finish w1 c operation_aborted None e w1 I (frame_refl w1)) as Hfr.
  eapply wp_mono; [apply (wp_conj _ _ _ _ _ _ _ Hfin Hfr) | |]; simpl; intros ? w' [Hn Hf].
  all: split; [by apply (covered_frame _ _ Hf) | |].
  all: try (unfold no_accept; rewrite (fr_state _ _ Hf), (fr_io _ _ Hf); exact Ha).
  all: rewrite (fr_state _ _ Hf); intros Hs; destruct (Hd Hs) as [[d Hl]|[(ec & He' & ex' & H)|H]].
  all: try (left; exists d; by rewrite (fr_io _ _ Hf)).
  all: try (right; left; exists ec; split; [done|]; exists ex'; apply (fr_queue _ _ Hf);
            by eapply elem_of_remove_at).
  all: right; right; intros c' Hu; destruct (decide (c' = c)) as [->|Hne]; [done|].
  all: destruct (H c' (fr_open _ _ Hf c' Hu)) as [ex' Hq]; exists ex'; apply (fr_queue _ _ Hf).
  all: eapply elem_of_remove_at; [done | done | congruence].
Qed.

Lemma w_run_task k i ex t e w :
  good e -> Work w -> Sess [] k w -> w_queue w !! i = Some (ex, t) ->
  wp (run_task cfg t) e (set_w_queue (remove_at i (w_queue w)) w) (fun _ => Work) (fun _ => Work).
Proof.
  intros He H Hs Hi. destruct (deadline_task t) eqn:Hd.
  { destruct t as [| | | | |[| |ec| | | |c]]; try done.
    - destruct H as [Hc Ha _]. apply w_shutdown_deadline; [done | exact Hc | exact Ha|].
      simpl in Hd. intros Hf. by rewrite Hf in Hd.
    - by apply (w_run_force_close i ex c). }
  assert (H1 := work_dequeue _ _ _ _ Hi Hd H). assert (Hs1 := sess_dequeue _ _ _ _ Hi Hs).
  destruct t as [h|id h|id| |on h ec|[]]; simpl; try done.
  - revert H1. generalize (set_w_queue (remove_at i (w_queue w)) w). clear - He. intros w H.
    unfold run_start, clear_slot.
    match goal with |- wp ?m _ _ _ _ => assert (Hk : wkept m); [|by apply Hk] end.
    w_auto. apply w_start_on_strand.
  - apply work_framed; [|done|done]. intros w0. apply kept_pres, pres_run_wait, _.
  - apply work_framed; [|done|done]. intros w0. apply kept_pres, pres_cancel_wait, _.
  - unfold stop_on_strand. by apply w_begin_stop.
  - apply work_framed; [|done|done]. intros w0. apply kept_pres, pres_run_dispatch, _.
  - by apply w_accepted.
  - by apply w_retry_timer_expired.
  - destruct H1 as [Hc Ha Hw]. apply w_shutdown_deadline; [done | exact Hc | exact Ha | by split].
  - by apply (w_session_finished k).
  - apply work_framed; [|done|done]. intros w0. apply f_start.
  - apply work_framed; [|done|done]. intros w0. by apply f_update.
Qed.

Lemma work_complete_io i op ec w :
  a_io (w_ext w) !! i = Some op -> Work w ->
  Work (set_w_queue (w_queue w ++
      [(listener_strand, TExt (io_completion op (if is_accept op then ec else success)))])
    (ext_update (set_a_io (remove_at i (a_io (w_ext w)))) w)).
Proof.
  intros Hi [Hc Ha Hd]. split; [exact Hc | |].
  - intros Hl. specialize (Ha Hl). unfold no_accept in *. simpl.
    rewrite (countb_remove_at is_accept _ _ _ Hi) in Ha. lia.
  - intros Hs. destruct (Hd Hs) as [[d H]|[(ec' & He & ex & Hq)|H]].
    + destruct (decide (op = IoShutdownTimer d)) as [->|Hne].
      * right; left. exists success. split; [done|]. exists listener_strand. simpl.
        apply elem_of_app. right. apply list_elem_of_here.
      * left. exists d. simpl. by eapply elem_of_remove_at.
    + right; left. exists ec'. split; [done|]. exists ex. simpl. apply elem_of_app. by left.
    + right; right. intros c Hu. destruct (H c Hu) as [ex Hq]. exists ex. simpl. apply elem_of_app. by left.
Qed.

Lemma w_exec k a e w :
  good e -> Work w -> Sess [] k w -> wp (exec cfg a) e w (fun _ => Work) (fun _ => Work).
Proof.
  intros He H Hs. destruct a as [ex al sl|ex al sl| |op ty|i ec|c x ec|i|value|id]; simpl.
  - apply work_framed; [|done|done]. intros w0. apply kept_pres, pres_do_async_start, _.
  - apply work_framed; [|done|done]. intros w0. apply kept_pres, pres_do_async_wait, _.
  - apply work_framed; [|done|done]. intros w0. apply kept_nothrow, nt_request_stop, _.
  - apply work_framed; [|done|done]. intros w0. apply kept_nothrow, nt_emit_cancellation, _.
  - unfold complete_io, get_ext, modify_ext. do 2 eff_step. eff_step; [|by eff_step].
    do 3 eff_step. exact (work_complete_io i _ ec w Heqo H).
  - apply work_framed; [|done|done]. intros w0. apply f_session_completes.
  - unfold run_posted. do 2 eff_step. destruct (w_queue w !! i) as [[ex t]|] eqn:Hi; [|by eff_step].
    do 2 eff_step. by apply (w_run_task k i ex).
  - unfold update_registry. eff_step. apply (work_frame w); [by split | exact H].
  - unfold update_registry. eff_step. apply (work_frame w); [by split | exact H].
Qed.

Lemma work_reach registry n w :
  reach cfg good registry n w -> Z.of_nat n < u64_modulus -> Work w.
Proof.
  induction 1 as [w Hw | n w w' Hr IH Hs]; intros Hn.
  - unfold make_listener in Hw. destruct (validate_acceptor_options _); simplify_eq.
    split; [|done | done]. intros c (x & Hx & _). by destruct c.
  - assert (Hn' : Z.of_nat n < u64_modulus) by lia.
    pose proof (sess_reach cfg registry n w Hr Hn') as Hse. specialize (IH Hn').
    destruct Hs as [e a w1 w2 He E | e a w1 w2 x He E];
      pose proof (w_exec (Z.of_nat n) a e w1 He IH Hse) as H; unfold wp in H; by rewrite E in H.
Qed.
End Listener.
