(* ===== verification/AcceptorLiveness.v ===== *)
(** * A listener that is stopping stops

    From a stopping listener every internal action (a posted task, the completion
    of an outstanding operation, a session that completes) decreases a measure or
    reaches [stopped], and one is always possible.  So, whatever order the
    executor chooses and whatever the sessions do, the listener stops. *)

From S2P Require Import Prelude Errors Effect Options Endpoint Status Observers ListenerBase.
From S2P Require Import ListenerFacts Connection AcceptorFacts Acceptor Scenarios AcceptorCore.
From S2P Require Import AcceptorSessions AcceptorWork Budget.

(** ** The measure *)

(** The most work a task can leave behind; [m] is the number of sessions. *)
Definition task_weight (m : nat) (t : task acceptor_task) : nat :=
  match t with
  | TStart _ | TWait _ _ | TCancelWait _ => 2
  | TStop | TDispatch _ _ _ => 1
  | TExt (TShutdownTimer _) => 1 + 2 * m
  | TExt (TConnStart _) => 4
  | TExt (TConnForceClose _) => 2
  | TExt _ => 1
  end.

Definition io_weight (m : nat) (op : io_op) : nat :=
  S (task_weight m (TExt (io_completion op success))).

(** A session that holds its completion handler may complete. *)
Definition conn_weight (x : connection) : nat := if cn_session x then 2 else 0.

Definition sessions_of (w : aworld) : nat := length (m_sessions (w_ext w)).

Definition measure (w : aworld) : nat :=
  sum_list_with (fun x => task_weight (sessions_of w) (snd x)) (w_queue w) +
  sum_list_with (io_weight (sessions_of w)) (a_io (w_ext w)) +
  sum_list_with conn_weight (a_connections (w_ext w)).

(** [Bud b w]: the listener has stopped, or is stopping within the budget. *)
Definition Bud (b : nat) (w : aworld) : Prop :=
  m_state w = listener_state.stopped \/ (m_state w = listener_state.stopping /\ measure w <= b).

Lemma bud_mono b b' w : b <= b' -> Bud b w -> Bud b' w.
Proof. intros Hb [H|[H ?]]; [by left | right; split; [done|lia]]. Qed.

Lemma measure_push ex t w :
  measure (set_w_queue (w_queue w ++ [(ex, t)]) w) = measure w + task_weight (sessions_of w) t.
Proof. unfold measure. simpl. rewrite sum_list_with_app. simpl. unfold sessions_of. simpl. lia. Qed.

(** A task whose weight does not depend on the sessions. *)
Lemma bud_push b d ex t w :
  (forall m, task_weight m t <= d) -> Bud b w ->
  Bud (b + d) (set_w_queue (w_queue w ++ [(ex, t)]) w).
Proof.
  intros Ht [H|[H Hb]]; [by left | right]. split; [done|]. rewrite measure_push.
  specialize (Ht (sessions_of w)). lia.
Qed.

Lemma measure_dequeue i ex t w :
  w_queue w !! i = Some (ex, t) ->
  measure w = task_weight (sessions_of w) t + measure (set_w_queue (remove_at i (w_queue w)) w).
Proof.
  intros Hi. unfold measure. simpl. rewrite (sum_remove_at _ _ _ _ Hi) at 1.
  unfold sessions_of. simpl. lia.
Qed.

Lemma weight_mono m m' t : m <= m' -> task_weight m t <= task_weight m' t.
Proof. intros H. destruct t as [| | | | |[]]; simpl; lia. Qed.

(** Sessions only become fewer. *)
Lemma measure_same_work w w' :
  same_work w w' -> sessions_of w' <= sessions_of w -> measure w' <= measure w.
Proof.
  intros [_ H1 H2 _ H3] Hs. unfold measure. rewrite H1, H2, H3.
  assert (Hq := sum_mono (fun x => task_weight (sessions_of w') (snd x))
    (fun x => task_weight (sessions_of w) (snd x)) (w_queue w) (fun x => weight_mono _ _ (snd x) Hs)).
  assert (Hi := sum_mono (io_weight (sessions_of w')) (io_weight (sessions_of w)) (a_io (w_ext w))
    (fun x => le_n_S _ _ (weight_mono _ _ _ Hs))). lia.
Qed.

Lemma bud_update b d c f w :
  (forall x, conn_weight (f x) <= conn_weight x + d) -> Bud b w ->
  Bud (b + d) (ext_update (update_connection c f) w).
Proof.
  intros Hf [H|[H Hb]]; [by left | right]. split; [done|]. unfold measure in *. simpl.
  pose proof (sum_alter conn_weight f d c (a_connections (w_ext w)) Hf).
  unfold sessions_of in *. simpl. lia.
Qed.

(** ** What a computation adds to the measure *)

Global Instance bud_meta b : MetaInsensitive (Bud b).
Proof. split; intros ? w H; exact H. Qed.

Global Instance bud_log b : LogInsensitive (Bud b).
Proof. split; intros ? w H; exact H. Qed.

Global Instance bud_graded : Graded Bud.
Proof. intros b b' w. apply bud_mono. Qed.

Abbreviation spends d m := (Budget.spends good Bud d m).

Lemma spends_post ex t d : (forall m, task_weight m t <= d) -> spends d (post ex t).
Proof.
  intros Ht b e w He H. apply wp_post; [intros _; by apply bud_push|].
  intros x _. eapply bud_mono; [|exact H]. lia.
Qed.

Lemma spends_update c f d :
  (forall x, conn_weight (f x) <= conn_weight x + d) -> spends d (modify_ext (update_connection c f)).
Proof. intros Hf b e w He H. unfold modify_ext. eff_step. by apply bud_update. Qed.

Ltac weigh := intros; unfold conn_weight; simpl; lia.

(** *** Connections *)

Lemma spends_conn_finish c ec ep : spends 1 (Connection.finish c ec ep).
Proof.
  intros b e w He H. unfold Connection.finish, close_now, session_finished_post, get_ext, modify_ext.
  assert (H' : Bud (b + 1) w) by (eapply bud_mono; [|exact H]; lia).
  do 3 eff_step. eff_step; [|by eff_step]. eff_step; [by eff_step|]. do 7 eff_step.
  assert (H1 : Bud b (ext_update (update_connection c (set_cn_socket_open false))
                       (ext_update (update_connection c (set_cn_finished true)) w))).
  { rewrite <- (Nat.add_0_r b), <- (Nat.add_0_r (b + 0)). apply bud_update; [weigh|].
    apply bud_update; [weigh | done]. }
  eff_step; [|eapply bud_mono; [|exact H1]; lia]. apply wp_post.
  - intros _. apply bud_push; [simpl; lia | done].
  - intros x _. eff_step. eapply bud_mono; [|exact H1]; lia.
Qed.

Lemma spends_session_handler c ec : spends 1 (session_handler c ec).
Proof.
  unfold session_handler. apply (spends_bind 0 1); [apply spends_gets|]. intros conns.
  destruct (conns !! c); [|by eapply spends_mono; [|apply spends_ret]; lia].
  apply (spends_bind 0 1); [apply spends_update; weigh | intros; apply spends_conn_finish].
Qed.

Lemma spends_report c x : spends 0 (report c x).
Proof. destruct x; [apply spends_update; weigh | apply spends_ret]. Qed.

Lemma spends_start c : spends 3 (start c).
Proof.
  unfold start, async_run. apply (spends_try 2 1); [|intros; apply spends_conn_finish].
  apply (spends_bind 0 2); [apply spends_asks|]. intros run.
  apply (spends_bind 0 2); [apply spends_report|]. intros _.
  apply (spends_bind 2 0).
  - destruct (s_complete run).
    + eapply spends_mono; [|apply spends_session_handler]. lia.
    + apply spends_update. intros x. unfold conn_weight. simpl. destruct (cn_session x); lia.
  - intros _. destruct (s_throw run); [apply spends_throw | apply spends_ret].
Qed.

(** The session completes: its handler is spent. *)
Lemma spends_session_completes c x ec e w b y :
  good e -> m_state w = listener_state.stopping -> measure w <= S b ->
  a_connections (w_ext w) !! c = Some y -> cn_session y = true ->
  wp (session_completes c x ec) e w (fun _ => Bud b) (fun _ => Bud b).
Proof.
  intros He Hst Hb Hy Hs. unfold session_completes, get_ext, modify_ext. do 2 eff_step.
  rewrite Hy, Hs. unfold when. do 2 eff_step. set (w1 := ext_update _ w).
  assert (Hm : measure w1 + 2 = measure w).
  { assert (E := sum_spend conn_weight (set_cn_session false) 2 c _ y Hy).
    unfold conn_weight in E at 1 2. simpl in E. rewrite Hs in E. specialize (E eq_refl).
    unfold measure, sessions_of in *. simpl. lia. }
  assert (H1 : Bud (pred b) w1) by (right; split; [exact Hst | lia]).
  replace b with (pred b + (0 + 1)) by lia.
  apply (spends_bind (ok := good) 0 1); [apply spends_report | intros; apply spends_session_handler | done | done].
Qed.

(** *** The listener *)

Section Listener.
Variable cfg : config.

Lemma spends_get_ext {A} (f : acceptor_state -> A) : spends 0 (get_ext f).
Proof. apply spends_gets. Qed.

(** [finish] stops the listener. *)
Lemma finish_stops ec reason e w :
  wp (Acceptor.finish cfg ec reason) e w
    (fun _ w' => m_state w' = listener_state.stopped) (fun _ w' => m_state w' = listener_state.stopped).
Proof.
  assert (Hv : v_state (v_finish (view_of w)) = listener_state.stopped).
  { unfold v_finish. case_bool_decide as E; [exact E | reflexivity]. }
  eapply wp_mono; [by apply (refines_finish cfg ec reason e w (view_of w)) | |];
    intros ? w' Hw; by rewrite (viewed_state _ _ Hw).
Qed.

Lemma spends_maybe_finish : spends 0 (maybe_finish cfg).
Proof.
  intros b e w He H. rewrite Nat.add_0_r. unfold maybe_finish, state, get_ext, stop_reason.
  do 10 eff_step. eff_step; [|done].
  eapply wp_mono; [apply finish_stops | |]; by left.
Qed.

(** A stop is already in progress. *)
Lemma spends_begin_stop ec reason : spends 0 (begin_stop cfg ec reason).
Proof.
  intros b e w He H. rewrite Nat.add_0_r. unfold begin_stop, state. do 2 eff_step.
  rewrite !bool_decide_eq_false_2; [by eff_step | | |]; destruct H as [->|[-> _]]; done.
Qed.

Lemma spends_accept_next reason : spends 0 (accept_next cfg reason).
Proof.
  intros b e w He H. unfold accept_next, state, get_ext. do 6 eff_step.
  rewrite !bool_decide_eq_false_2 by (destruct H as [->|[-> _]]; done). simpl.
  apply (spends_bind (ok := good) 0 0); [apply spends_maybe_finish | intros; apply spends_ret | done | done].
Qed.

Lemma spends_complete_on ex h ec : spends 1 (complete_on ex h ec).
Proof. apply spends_post. simpl. lia. Qed.

Lemma spends_clear_slot op : spends 0 (clear_slot op).
Proof. apply spends_nothrow. intros b. apply nt_clear_slot, _. Qed.

(** The tasks a stopping listener may run: [d] is what is left of their weight. *)
Definition spent (d : nat) (m : AM unit) : Prop :=
  forall b e w, good e -> m_state w = listener_state.stopping -> measure w <= b ->
    wp m e w (fun _ => Bud (b + d)) (fun _ => Bud (b + d)).

Lemma spends_spent d m : spends d m -> spent d m.
Proof. intros Hm b e w He Hs Hb. apply Hm; [done|]. by right. Qed.

Lemma spent_run_start h : spent 1 (run_start (start_on_strand cfg) h).
Proof.
  intros b e w He Hs Hb. unfold run_start, start_on_strand, clear_slot, state. do 4 eff_step.
  assert (H : Bud b (set_w_slots (delete (h_op h) (w_slots w)) w)) by (right; split; [exact Hs | exact Hb]).
  eff_step; [by apply spends_complete_on|]. do 2 eff_step.
  change (m_state (set_w_slots (delete (h_op h) (w_slots w)) w)) with (m_state w). rewrite Hs.
  rewrite !bool_decide_eq_false_2 by done. simpl. by apply spends_complete_on.
Qed.

Lemma spent_run_wait id h : spent 1 (run_wait id h).
Proof.
  intros b e w He Hs Hb. unfold run_wait, state, clear_slot. do 4 eff_step.
  assert (H : forall s, Bud b (set_w_slots s w)) by (intros; right; split; [exact Hs | exact Hb]).
  eff_step; [do 2 eff_step; by apply spends_complete_on|].
  rewrite Hs. rewrite !bool_decide_eq_false_2 by done. eff_step.
  right. split; [exact Hs|]. unfold measure, sessions_of in *. simpl. lia.
Qed.

Lemma spent_cancel_wait id : spent 1 (cancel_wait id).
Proof.
  intros b e w He Hs Hb. unfold cancel_wait, clear_slot. do 2 eff_step.
  eff_step; [|eff_step; right; split; [done|lia]]. do 4 eff_step.
  apply spends_complete_on; [done|]. right. split; [exact Hs | exact Hb].
Qed.

Lemma spent_run_dispatch on h ec : spent 0 (run_dispatch on h ec).
Proof.
  intros b e w He Hs Hb. rewrite Nat.add_0_r. unfold run_dispatch. eff_step; eff_step; right; done.
Qed.

Lemma spent_accepted ec : spent 0 (accepted cfg ec).
Proof.
  intros b e w He Hs Hb. unfold accepted, state, get_ext, modify_ext. do 4 eff_step.
  change (m_state (ext_update (set_m_accept_pending false) w)) with (m_state w). rewrite Hs.
  rewrite !bool_decide_eq_false_2 by done. simpl. apply spends_maybe_finish; [done|].
  right. split; [exact Hs | exact Hb].
Qed.

Lemma spends_retry_timer_expired ec : spends 0 (retry_timer_expired cfg ec).
Proof.
  unfold retry_timer_expired. destruct (ec_eqb _ _); [apply spends_maybe_finish|].
  destruct (failed ec); [apply spends_begin_stop|].
  apply (spends_bind 0 0); [apply spends_accept_next | intros; apply spends_ret].
Qed.

Lemma spends_force_all (l : list nat) : spends (2 * length l) (for_each l force_close).
Proof.
  induction l as [|c l IH]; simpl; [apply spends_ret|].
  replace (S (length l + S (length l + 0))) with (2 + 2 * length l) by lia.
  apply spends_bind; [|intros; apply IH].
  intros b e w [He Ho] H. unfold force_close. do 2 eff_step. apply wp_post.
  - intros _. apply bud_push; [simpl; lia | done].
  - intros x Hx. by rewrite He in Hx.
Qed.

Lemma spent_shutdown_deadline ec w b e :
  good e -> m_state w = listener_state.stopping -> measure w <= b ->
  wp (shutdown_deadline cfg ec) e w (fun _ => Bud (b + 2 * sessions_of w)) (fun _ => Bud (b + 2 * sessions_of w)).
Proof.
  intros He Hs Hb. unfold shutdown_deadline, record_diagnostic, get_ext.
  eff_step; [eff_step; right; split; [done|lia]|]. do 3 eff_step. apply wp_emit. do 2 eff_step.
  apply spends_force_all; [done|]. right. split; [exact Hs | exact Hb].
Qed.

Lemma spent_session_finished info ec ep : spent 0 (session_finished cfg info ec ep).
Proof.
  intros b e w He Hs Hb. apply wp_session_finished. intros w' Hv Hw. rewrite (sw_state _ _ Hw), Hs.
  rewrite bool_decide_eq_false_2 by done. do 2 eff_step. apply spends_maybe_finish; [done|].
  right. rewrite (sw_state _ _ Hw). split; [done|]. transitivity (measure w); [|done].
  apply measure_same_work; [done|]. unfold sessions_of.
  assert (E : m_sessions (w_ext w') = sv_sessions (sv_drop (info_id info) (sview_of w))) by (by rewrite <- Hv).
  rewrite E. unfold sv_drop. simpl. destruct (find_first _ _) as [c|] eqn:Hf; [|lia].
  pose proof (erase_first_length _ _ _ Hf). simpl in *. lia.
Qed.

(** A task from the queue. *)
Lemma spent_run_posted i e w x :
  good e -> m_state w = listener_state.stopping -> w_queue w !! i = Some x ->
  wp (run_posted cfg i) e w (fun _ => Bud (pred (measure w))) (fun _ => Bud (pred (measure w))).
Proof.
  intros He Hs Hi. destruct x as [ex t]. unfold run_posted. do 2 eff_step. rewrite Hi. do 2 eff_step.
  set (w1 := set_w_queue _ w). assert (Hm := measure_dequeue _ _ _ _ Hi). fold w1 in Hm.
  assert (Hs1 : m_state w1 = listener_state.stopping) by done.
  assert (Hn : sessions_of w1 = sessions_of w) by done. clearbody w1.
  apply (wp_mono _ _ _ (fun _ => Bud (measure w1 + pred (task_weight (sessions_of w) t))) _
                       (fun _ => Bud (measure w1 + pred (task_weight (sessions_of w) t)))).
  2,3: intros ? w'; apply bud_mono; rewrite Hm; destruct t as [| | | | |[]]; simpl; lia.
  destruct t as [h|id h|id| |on h ec|[]]; simpl.
  - by apply spent_run_start.
  - by apply spent_run_wait.
  - by apply spent_cancel_wait.
  - unfold stop_on_strand. apply (spends_spent 0); [apply spends_begin_stop | done | done | done].
  - by apply spent_run_dispatch.
  - by apply spent_accepted.
  - apply (spends_spent 0); [apply spends_retry_timer_expired | done | done | done].
  - replace (sessions_of w + (sessions_of w + 0)) with (2 * sessions_of w1) by lia.
    by apply spent_shutdown_deadline.
  - by apply spent_session_finished.
  - apply (spends_spent 3); [apply spends_start | done | done | done].
  - apply (spends_spent 0); [apply spends_update; weigh | done | done | done].
  - apply (spends_spent 1); [apply spends_conn_finish | done | done | done].
Qed.

(** An outstanding operation completes. *)
Lemma spent_complete_io i ec e w op :
  m_state w = listener_state.stopping -> a_io (w_ext w) !! i = Some op ->
  wp (complete_io i ec) e w (fun _ => Bud (pred (measure w))) (fun _ => Bud (pred (measure w))).
Proof.
  intros Hs Hi. unfold complete_io, get_ext, modify_ext. do 2 eff_step. rewrite Hi. do 3 eff_step.
  right. split; [exact Hs|]. unfold measure. simpl. rewrite sum_list_with_app. simpl.
  rewrite (sum_remove_at _ _ _ _ Hi). unfold sessions_of, io_weight. simpl. destruct op; simpl; lia.
Qed.

(** ** Internal actions *)

Inductive internal_action (w : aworld) : action -> Prop :=
| internal_run i : i < length (w_queue w) -> internal_action w (ARun i)
| internal_io i ec : i < length (a_io (w_ext w)) -> internal_action w (AIo i ec)
| internal_session c x ec y :
    a_connections (w_ext w) !! c = Some y -> cn_session y = true ->
    internal_action w (ASession c x ec).

Inductive internal_step (w w' : aworld) : Prop :=
| internal_ret e a : good e -> internal_action w a -> exec cfg a e w = Ret tt w' -> internal_step w w'
| internal_throw e a x :
    good e -> internal_action w a -> exec cfg a e w = Throw x w' -> internal_step w w'.

(** Every sequence of internal actions passes through [stopped], and none gets
    stuck before. *)
Inductive inevitably_stopped (w : aworld) : Prop :=
| already_stopped : m_state w = listener_state.stopped -> inevitably_stopped w
| still_stopping :
    m_state w = listener_state.stopping ->
    (exists w', internal_step w w') ->
    (forall w', internal_step w w' -> inevitably_stopped w') ->
    inevitably_stopped w.

Abbreviation limit := (max_active_sessions (c_options cfg)).

Record stop_inv (k : Z) (w : aworld) : Prop := {
  st_view : v_inv limit (view_of w);
  st_busy : v_busy (view_of w);
  st_work : Work w;
  st_sess : Sess [] k w }.

Hypothesis Hlimit : (0 < limit < u64_modulus)%Z.

Lemma internal_wp k a e w :
  good e -> internal_action w a -> stop_inv k w -> m_state w = listener_state.stopping ->
  wp (exec cfg a) e w
    (fun _ w' => stop_inv k w' /\ Bud (pred (measure w)) w')
    (fun _ w' => stop_inv k w' /\ Bud (pred (measure w)) w').
Proof.
  intros He Ha [Hv Hb Hw Hs] Hst.
  assert (Hbud : wp (exec cfg a) e w (fun _ => Bud (pred (measure w))) (fun _ => Bud (pred (measure w)))).
  { destruct Ha as [i Hi|i ec Hi|c x ec y Hy Hc]; simpl.
    - apply lookup_lt_is_Some in Hi as [t Hi]. by eapply spent_run_posted.
    - apply lookup_lt_is_Some in Hi as [t Hi]. by eapply spent_complete_io.
    - eapply spends_session_completes; [done | done | | done | done]. lia. }
  assert (Hsess : wp (exec cfg a) e w (fun _ => Sess [] k) (fun _ => Sess [] k)).
  { apply (sess_exec cfg k); [done | done | lia | congruence]. }
  pose proof (steps_exec cfg a e w Hv) as Hstep. pose proof (w_exec cfg k a e w He Hw Hs) as Hwork.
  unfold wp in *. destruct (exec cfg a e w) as [r w'|x w'|]; [| |done].
  all: split; [split; [by eapply v_inv_step | by eapply v_busy_step | done | done] | done].
Qed.

(** There is always something to do. *)
Lemma internal_progress k w :
  stop_inv k w -> m_state w = listener_state.stopping -> exists a, internal_action w a.
Proof.
  intros [Hv Hb Hw Hs] Hst.
  assert (Hq : w_queue w <> [] \/ a_io (w_ext w) <> []).
  { destruct (wk_deadline _ Hw Hst) as [[d H]|[(ec & _ & ex & H)|H]].
    - right. intros E. rewrite E in H. by apply elem_of_nil in H.
    - left. intros E. rewrite E in H. by apply elem_of_nil in H.
    - destruct (Hb Hst) as [Hp|Hse]; simpl in *.
      + destruct (w_queue w) eqn:Eq; [|by left]. destruct (a_io (w_ext w)) eqn:Ei; [|by right].
        pose proof (vi_ops _ _ Hv) as Ho. simpl in Ho. by rewrite Hp, Eq, Ei in Ho.
      + left. intros E. pose proof (si_account _ _ _ Hs) as Ha.
        simpl in Ha. rewrite E in Ha. simpl in Ha. rewrite app_nil_r in Ha.
        destruct (m_sessions (w_ext w)) as [|c l] eqn:El; [done|].
        assert (Hc : (c < length (sv_conns (sview_of w)))%nat).
        { pose proof (si_range _ _ _ Hs) as Hr. simpl in Hr. rewrite El in Hr. by apply Forall_cons in Hr as [? _]. }
        apply lookup_lt_is_Some in Hc as [x Hx].
        assert (Hin : fst x ∈ sv_open (sview_of w)).
        { rewrite <- Ha. unfold sv_session_ids. simpl. rewrite El. simpl in *. rewrite Hx. simpl.
          apply list_elem_of_here. }
        unfold sv_open in Hin. apply list_elem_of_In, in_map_iff in Hin as (z & _ & Hz).
        apply filter_In in Hz as [Hz Hf]. apply list_elem_of_In, list_elem_of_lookup in Hz as [j Hz].
        simpl in Hz. rewrite list_lookup_fmap in Hz.
        destruct (a_connections (w_ext w) !! j) as [y|] eqn:Hy; [|done]. simpl in Hz. injection Hz as <-.
        simpl in Hf. apply negb_true_iff in Hf.
        destruct (H j (ex_intro _ y (conj Hy Hf))) as [ex Hq]. rewrite E in Hq. by apply elem_of_nil in Hq. }
  destruct Hq as [Hq|Hq].
  - exists (ARun 0). constructor. destruct (w_queue w); [done | simpl; lia].
  - exists (AIo 0 success). constructor. destruct (a_io (w_ext w)); [done | simpl; lia].
Qed.

Lemma internal_exists k w :
  stop_inv k w -> m_state w = listener_state.stopping -> exists w', internal_step w w'.
Proof.
  intros Hi Hst. destruct (internal_progress k w Hi Hst) as [a Ha].
  assert (Hg : good calm) by (split; [apply calm_ok | done]).
  pose proof (internal_wp k a calm w Hg Ha Hi Hst) as H. unfold wp in H.
  destruct (exec cfg a calm w) as [[] w'|x w'|w'] eqn:E; [| |done].
  - exists w'. by eapply internal_ret.
  - exists w'. by eapply internal_throw.
Qed.

Lemma measure_pos w a : internal_action w a -> 0 < measure w.
Proof.
  unfold measure. intros [i Hi|i ec Hi|c x ec y Hy Hc].
  - apply lookup_lt_is_Some in Hi as [[ex t] Hi]. rewrite (sum_remove_at _ _ _ _ Hi).
    destruct t as [| | | | |[]]; simpl; lia.
  - apply lookup_lt_is_Some in Hi as [op Hi]. rewrite (sum_remove_at _ (a_io _) _ _ Hi).
    unfold io_weight. lia.
  - rewrite (sum_remove_at conn_weight _ _ _ Hy). unfold conn_weight at 1. rewrite Hc. lia.
Qed.

Lemma stopping_stops b k w :
  measure w <= b -> stop_inv k w -> m_state w = listener_state.stopping -> inevitably_stopped w.
Proof.
  revert w. induction b as [|b IH]; intros w Hm Hi Hst.
  { destruct (internal_progress k w Hi Hst) as [a Ha%measure_pos]. lia. }
  apply still_stopping; [done | by eapply internal_exists |]. intros w' Hs.
  assert (H : stop_inv k w' /\ Bud (pred (measure w)) w') by
    (destruct Hs as [e a He Ha E | e a x He Ha E];
     pose proof (internal_wp k a e w He Ha Hi Hst) as H; unfold wp in H; by rewrite E in H).
  destruct H as [Hi' [Hs'|[Hs' Hb]]]; [by apply already_stopped | apply IH; [lia | done | done]].
Qed.
End Listener.

(** The invariants of a reachable listener. *)
Lemma stop_inv_reach cfg registry n w :
  options_in_range (c_options cfg) -> reach cfg good registry n w -> (Z.of_nat n < u64_modulus)%Z ->
  (0 < max_active_sessions (c_options cfg) < u64_modulus)%Z /\ stop_inv cfg (Z.of_nat n) w.
Proof.
  intros Ho Hr Hn. destruct (reach_view cfg Ho good registry n w Hr) as [Hl Hv]. split; [done|]. split.
  - done.
  - by eapply reach_busy.
  - by eapply work_reach.
  - by eapply sess_reach.
Qed.
