(* ===== verification/AcceptorTheorems.v ===== *)
(** * The acceptor listener: what it guarantees

    The properties of [basic_acceptor_listener], stated on reachable listeners,
    with the executions of [Scenarios] as witnesses. *)

From S2P Require Import Prelude Errors Effect Options Endpoint Status Observers ListenerBase.
From S2P Require Import ListenerFacts Connection AcceptorFacts Acceptor Scenarios AcceptorCore.
From S2P Require Import ListenerAccount ListenerPath AcceptorAccount AcceptorPath AcceptorSessions.
From S2P Require Import AcceptorWork AcceptorLiveness.

Local Open Scope Z_scope.

Lemma calm_good : good calm.
Proof. split; [apply calm_ok | done]. Qed.

Lemma calm_sound : sound calm.
Proof. done. Qed.

(** ** Shutdown *)

(** C1: a listener that is stopping stops.  Whatever order the executor runs the
    posted tasks in, whenever the timers expire and however the sessions behave,
    every sequence of internal actions reaches [stopped], and some internal action
    is possible until then, provided the executor accepts posted work, the listener is
    alive, its options are in their documented ranges and fewer than 2^64 actions
    preceded. *)
Theorem stopping_listener_stops cfg registry n w :
  options_in_range (c_options cfg) -> reach cfg good registry n w -> Z.of_nat n < u64_modulus ->
  m_state w = listener_state.stopping -> inevitably_stopped cfg w.
Proof.
  intros Ho Hr Hn Hs. destruct (stop_inv_reach cfg registry n w Ho Hr Hn) as [Hl Hi].
  by eapply stopping_stops.
Qed.

Lemma stopping_listener_stops_witness :
  m_state (after calm stopping_trace) = listener_state.stopping /\
  inevitably_stopped demo (after calm stopping_trace).
Proof.
  split; [by vm_compute|].
  apply (stopping_listener_stops demo demo_registry (length stopping_trace) (after calm stopping_trace)
    demo_in_range (after_reach good calm stopping_trace calm_good eq_refl)); by vm_compute.
Defined.

(** ** Refinement *)

(** C2: every action of the system, also one that ends in an exception, is a step
    of the abstract lifecycle machine, whatever the environment answers. *)
Theorem acceptor_refines_lifecycle cfg registry n w w' :
  options_in_range (c_options cfg) -> reach cfg any_env registry n w -> step cfg any_env w w' ->
  v_step (max_active_sessions (c_options cfg)) (view_of w) (view_of w').
Proof.
  intros Ho Hr Hs. eapply step_refines_view; [|exact Hs]. by eapply reach_view.
Qed.

Lemma acceptor_refines_lifecycle_witness :
  v_step 2 (view_of (after calm one_session)) (view_of (after calm (one_session ++ [ARequestStop]))).
Proof.
  apply (acceptor_refines_lifecycle demo demo_registry (length one_session) _ _
    demo_in_range (after_reach any_env calm one_session I eq_refl)).
  apply (step_ret demo any_env calm ARequestStop); [done | by vm_compute].
Defined.

(** C10: the published session count is the length of [m_sessions], and together
    with the accept in flight it never exceeds [max_active_sessions]. *)
Theorem session_admission cfg registry n w :
  options_in_range (c_options cfg) -> reach cfg any_env registry n w ->
  m_active_sessions w = Z.of_nat (length (m_sessions (w_ext w))) /\
  Z.of_nat (length (m_sessions (w_ext w))) + (if m_accept_pending (w_ext w) then 1 else 0)
    <= max_active_sessions (c_options cfg).
Proof.
  intros Ho Hr. destruct (reach_view cfg Ho _ _ _ _ Hr) as [_ [Ha Hl _ _ _]]. done.
Qed.

Lemma session_admission_witness :
  m_active_sessions (after calm one_session) = 1.
Proof.
  exact (proj1 (session_admission demo demo_registry (length one_session) (after calm one_session)
    demo_in_range (after_reach any_env calm one_session I eq_refl))).
Defined.

(** [m_accept_pending] holds exactly while one accept is outstanding or its
    completion is queued; there is never a second one. *)
Theorem single_accept cfg registry n w :
  options_in_range (c_options cfg) -> reach cfg any_env registry n w ->
  (countb accept_task (w_queue w) + countb is_accept (a_io (w_ext w)) =
    if m_accept_pending (w_ext w) then 1 else 0)%nat.
Proof. intros Ho Hr. by destruct (reach_view cfg Ho _ _ _ _ Hr) as [_ [_ _ H _ _]]. Qed.

Lemma single_accept_witness :
  countb is_accept (a_io (w_ext (after calm one_session))) = 1%nat /\
  (countb accept_task (w_queue (after calm one_session)) +
   countb is_accept (a_io (w_ext (after calm one_session))) = 1)%nat.
Proof.
  split; [by vm_compute|].
  exact (single_accept demo demo_registry (length one_session) (after calm one_session)
    demo_in_range (after_reach any_env calm one_session I eq_refl)).
Defined.

(** C11: a listener that has not started or has stopped is quiescent: it has no
    session, no accept in flight, and its acceptor is closed. *)
Theorem stopped_is_quiescent cfg registry n w :
  options_in_range (c_options cfg) -> reach cfg any_env registry n w ->
  m_state w = listener_state.idle \/ m_state w = listener_state.stopped ->
  m_sessions (w_ext w) = [] /\ m_active_sessions w = 0 /\ m_acceptor_open (w_ext w) = false /\
  m_accept_pending (w_ext w) = false /\ countb accept_task (w_queue w) = 0%nat /\
  countb is_accept (a_io (w_ext w)) = 0%nat.
Proof.
  intros Ho Hr Hs. destruct (reach_view cfg Ho _ _ _ _ Hr) as [_ [Ha _ Hops Hrest _]].
  destruct (Hrest Hs) as (H1 & H2 & H3). simpl in *. rewrite H1 in Ha. rewrite H2 in Hops.
  split_and!; (done || lia).
Qed.

Lemma stopped_is_quiescent_witness :
  m_state (after calm stopped_trace) = listener_state.stopped /\
  m_sessions (w_ext (after calm stopped_trace)) = [].
Proof.
  split; [by vm_compute|].
  apply (stopped_is_quiescent demo demo_registry (length stopped_trace) (after calm stopped_trace)
    demo_in_range (after_reach any_env calm stopped_trace I eq_refl)).
  right. by vm_compute.
Defined.

(** ** Sessions *)

(** C3: provided the executor has accepted every post and the listener is alive, and
    fewer than 2^64 actions preceded: connection ids are unique, and sessions are
    neither lost nor leaked, that is, the ids in [m_sessions] are exactly those of the
    connections that are not finished and of the completions on their way to the
    listener strand.  (When a post is refused, a connection that finishes swallows the
    exception, and its session stays in [m_sessions].) *)
Theorem sessions_accounted cfg registry n w :
  reach cfg good registry n w -> Z.of_nat n < u64_modulus ->
  NoDup (sv_ids (sview_of w)) /\ NoDup (m_sessions (w_ext w)) /\
  sv_session_ids (sview_of w) ≡ₚ sv_open (sview_of w) ++ finished_ids (w_queue w).
Proof. intros Hr Hn. destruct (sess_reach cfg registry n w Hr Hn). done. Qed.

Lemma sessions_accounted_witness :
  sv_open (sview_of (after calm one_session)) = [1] /\
  sv_session_ids (sview_of (after calm one_session)) ≡ₚ
    sv_open (sview_of (after calm one_session)) ++ finished_ids (w_queue (after calm one_session)).
Proof.
  split; [by vm_compute|].
  apply (sessions_accounted demo demo_registry (length one_session) (after calm one_session)
    (after_reach good calm one_session calm_good eq_refl)). by vm_compute.
Defined.

(** C13: the events an observer sees, provided the executor has accepted every post, the
    listener and the observer registry of its server are alive and fewer than 2^64
    actions preceded: one [session_started] per connection, in order, and one
    [session_stopped] for each of them that is no longer active. *)
Theorem session_events_paired cfg registry n w :
  reach cfg good registry n w -> Z.of_nat n < u64_modulus -> is_Some (w_registry w) ->
  event_ids session_started (w_events w) = sv_ids (sview_of w) /\
  event_ids session_stopped (w_events w) ++ sv_session_ids (sview_of w) ≡ₚ
    event_ids session_started (w_events w).
Proof.
  intros Hr Hn Ho. destruct (sess_reach cfg registry n w Hr Hn) as [_ _ _ _ _ _ H1 H2]. simpl in *.
  rewrite bool_decide_eq_true_2 in H1, H2 by done. rewrite (H1 eq_refl). split; [done | by apply H2].
Qed.

Lemma session_events_paired_witness :
  event_ids session_started (w_events (after calm stopped_trace)) = [1] /\
  event_ids session_stopped (w_events (after calm stopped_trace)) ++
    sv_session_ids (sview_of (after calm stopped_trace)) ≡ₚ
  event_ids session_started (w_events (after calm stopped_trace)).
Proof.
  split; [by vm_compute|].
  apply (session_events_paired demo demo_registry (length stopped_trace)
    (after calm stopped_trace) (after_reach good calm stopped_trace calm_good eq_refl)).
  - by vm_compute.
  - eexists. by vm_compute.
Defined.

(** ** Completion handlers *)

(** The operations whose handler has been dispatched to its executor. *)
Definition completed_ops (w : aworld) : list nat := map (fun x => snd (fst x)) (w_completed w).

(** C4: with an executor that accepts work, every operation initiated so far is
    in exactly one place: completed, a pending waiter, or a posted closure that
    owns its handler.  No completion is lost or duplicated. *)
Theorem completions_exactly_once cfg registry n w :
  reach cfg posts_ok registry n w -> accounted w ≡ₚ seq 0 (w_next_op w).
Proof. intros Hr. apply (acct_reach cfg true posts_ok registry n); [by intros e He ? |done]. Qed.

Lemma completions_exactly_once_witness :
  accounted (after calm stopping_trace) ≡ₚ seq 0 3.
Proof.
  exact (completions_exactly_once demo demo_registry (length stopping_trace) (after calm stopping_trace)
    (after_reach posts_ok calm stopping_trace calm_ok eq_refl)).
Defined.

(** Whatever fails, no operation completes twice and none completes that was
    not initiated. *)
Theorem completions_at_most_once cfg registry n w :
  reach cfg any_env registry n w ->
  NoDup (completed_ops w) /\ Forall (fun op => (op < w_next_op w)%nat) (completed_ops w).
Proof.
  intros Hr. assert (H := acct_reach cfg false any_env registry n w ltac:(done) Hr).
  unfold Acct, conserves in H. simpl in H.
  assert (Hs : completed_ops w ⊆+ seq 0 (w_next_op w)).
  { etrans; [|exact H]. unfold accounted, completed_ops. do 2 apply submseteq_inserts_l. done. }
  split.
  - destruct (submseteq_Permutation _ _ Hs) as [rest Hp]. assert (Hd := NoDup_seq 0 (w_next_op w)).
    rewrite Hp in Hd. by apply NoDup_app in Hd as [Hd _].
  - apply Forall_forall. intros op Hop. eapply elem_of_submseteq in Hop; [|exact Hs].
    apply elem_of_seq in Hop. lia.
Qed.

Lemma completions_at_most_once_witness :
  completed_ops (after calm stopped_trace) = [0; 1; 2]%nat /\
  NoDup (completed_ops (after calm stopped_trace)).
Proof.
  split; [by vm_compute|].
  exact (proj1 (completions_at_most_once demo demo_registry (length stopped_trace)
    (after calm stopped_trace) (after_reach any_env calm stopped_trace I eq_refl))).
Defined.

(** When a stopped listener has run its posted tasks, every start and wait
    operation initiated so far has completed exactly once. *)
Theorem stopped_completes_all cfg registry n w :
  reach cfg posts_ok registry n w -> m_state w = listener_state.stopped -> w_queue w = [] ->
  completed_ops w ≡ₚ seq 0 (w_next_op w).
Proof.
  intros Hr Hs Hq. assert (H := acct_reach cfg true posts_ok registry n w ltac:(by intros e He ?) Hr).
  unfold Acct, conserves, accounted in H. simpl in H.
  rewrite Hq, (tidy_stopped _ (tidy_reach cfg registry n w Hr) Hs) in H. exact H.
Qed.

Lemma stopped_completes_all_witness :
  completed_ops (after calm stopped_trace) ≡ₚ seq 0 3.
Proof.
  apply (stopped_completes_all demo demo_registry (length stopped_trace) (after calm stopped_trace)
    (after_reach posts_ok calm stopped_trace calm_ok eq_refl)); by vm_compute.
Defined.

(** ** Exceptions *)

(** C14: while the executor accepts work, no action of a reachable listener lets an
    exception escape: every action returns. *)
Theorem actions_do_not_throw cfg registry n w e a :
  reach cfg posts_ok registry n w -> posts_ok e -> exists w', exec cfg a e w = Ret tt w'.
Proof.
  intros Hr He. pose proof (quiet_exec cfg a e w He (tidy_reach cfg registry n w Hr)) as H.
  unfold wp in H. destruct (exec cfg a e w) as [[] w'| |]; [by exists w' | done | done].
Qed.

Lemma actions_do_not_throw_witness :
  exists w', exec demo (ARun 0) calm (after calm stopping_trace) = Ret tt w'.
Proof.
  apply (actions_do_not_throw demo demo_registry (length stopping_trace));
    [apply (after_reach posts_ok calm stopping_trace calm_ok eq_refl) | apply calm_ok].
Defined.

(** C15: no action of a reachable listener calls [std::terminate], whatever the
    environment answers: no exception leaves a [noexcept] function. *)
Theorem actions_do_not_terminate cfg registry n w e a w' :
  reach cfg any_env registry n w -> exec cfg a e w <> Terminate w'.
Proof.
  intros Hr E. assert (H := acct_reach cfg false any_env registry n w ltac:(done) Hr).
  pose proof (acct_exec (tgt := initiated) cfg false a (fun _ => initiated_grows) e w ltac:(done) H) as Hw. unfold wp in Hw. by rewrite E in Hw.
Qed.

Lemma actions_do_not_terminate_witness :
  exec demo ARequestStop refusing (after calm one_session) <> Terminate (after calm one_session).
Proof.
  apply (actions_do_not_terminate demo demo_registry (length one_session)),
    (after_reach any_env calm one_session I eq_refl).
Defined.

(** ** Published life cycle *)

(** C12: for a listener whose server has an observer registry, and provided an exception
    that leaves [async_accept] carries a failing error code (one of code zero leaves the
    life cycle, see [zero_code_start_accepts_nothing]): the states published by
    [state_changed] events follow the documented life cycle from [idle] to the current
    state, and the generation is the number of starts, as an unsigned 64-bit count. *)
Theorem published_lifecycle cfg registry n w :
  reach cfg sound registry n w -> is_Some (w_registry w) ->
  lifecycle_path listener_state.idle (changes (w_events w)) (m_state w) /\
  m_generation w = u64 (Z.of_nat (countb is_starting (changes (w_events w)))).
Proof.
  intros Hr Ho. destruct (h_reach cfg registry n w Hr) as [Hp Hg]; [|done].
  simpl. by apply bool_decide_eq_true.
Qed.

Lemma published_lifecycle_witness :
  changes (w_events (after calm stopped_trace)) =
    [listener_state.starting; listener_state.running; listener_state.stopping; listener_state.stopped] /\
  m_generation (after calm stopped_trace) = u64 (Z.of_nat 1).
Proof.
  split; [by vm_compute|].
  apply (published_lifecycle demo demo_registry (length stopped_trace) (after calm stopped_trace)
    (after_reach sound calm stopped_trace calm_sound eq_refl)).
  eexists. by vm_compute.
Defined.
