(* ===== verification/AcceptorBehaviour.v ===== *)
(** * Behaviour of the acceptor listener's operations

    What single operations do, branch by branch: accept errors and their backoff,
    the outcome of a stop, the completion of the waiters; and executions
    that show behaviour a reader of the code may not expect. *)

From S2P Require Import Prelude Errors Effect Options Endpoint Status Observers ListenerBase.
From S2P Require Import ListenerFacts Connection AcceptorFacts Acceptor Scenarios AcceptorCore.
From S2P Require Import AcceptorSessions.

Local Open Scope Z_scope.

(** ** The outcome of a stop *)

(** The recorded reason and terminal error. *)
Definition Outcome (ec : error_code) (reason : listener_stop_reason.t) (w : aworld) : Prop :=
  m_terminal_error w = ec /\ m_stop_reason w = reason.

Global Instance outcome_log ec r : LogInsensitive (Outcome ec r).
Proof. split. intros ? w H; exact H. Qed.

Global Instance outcome_conn ec r : ConnInsensitive (Outcome ec r).
Proof. split; [intros ? w H; exact H | by intros]. Qed.

Section Stop.
Variables (cfg : config) (ec : error_code) (reason : listener_stop_reason.t).

Abbreviation okept m := (kept (E := aenv) (S := aworld) any_env (Outcome ec reason) m).

Lemma o_waiters : okept complete_waiters.
Proof.
  unfold complete_waiters. kept_auto; try done. unfold complete_waiter, clear_slot, complete_on, post.
  kept_auto; done.
Qed.

Lemma o_finish : okept (Acceptor.finish cfg ec reason).
Proof.
  intros e w _ H. unfold Acceptor.finish, state, set_stop_reason, acceptor_close, retry_timer_cancel,
    shutdown_timer_cancel, modify_ext. do 2 eff_step. eff_step; [by eff_step|]. do 5 eff_step.
  apply (wp_nothrow (Outcome ec reason)); [|done|].
  { intros e' w' X' H'. unfold keep_first_error. eff_step; [|done]. eff_step. by case_match. }
  intros [] w1 H1. eff_step. do 8 eff_step. apply wp_transition_to. by apply o_waiters.
Qed.

Lemma o_maybe_finish : okept (maybe_finish cfg).
Proof.
  intros e w _ [H1 H2]. unfold maybe_finish, state, get_ext, stop_reason. do 10 eff_step.
  eff_step; [|done]. rewrite H1, H2. by apply o_finish.
Qed.

Lemma o_begin_stop e w :
  v_live (view_of w) = true ->
  wp (begin_stop cfg ec reason) e w (fun _ => Outcome ec reason) (fun _ => Outcome ec reason).
Proof.
  intros Hl%v_live_cases. unfold begin_stop, state, set_stop_reason, get_ext, acceptor_cancel,
    acceptor_close, retry_timer_cancel, arm_shutdown_timer, shutdown_timer_cancel, modify_ext. do 2 eff_step.
  change (v_state (view_of w)) with (m_state w) in Hl.
  rewrite (bool_decide_eq_false_2 (m_state w = listener_state.idle)) by (destruct Hl; congruence).
  eff_step; [exfalso; apply andb_true_iff in Heqb as [H1%negb_true_iff H2%negb_true_iff];
             apply bool_decide_eq_false in H1, H2; tauto|].
  do 5 eff_step. apply wp_transition_to. do 11 eff_step.
  set (w1 := cancel_io is_retry_timer _).
  assert (H1 : Outcome ec reason w1) by done. clearbody w1.
  apply (wp_nothrow (Outcome ec reason)); [|done|].
  { apply conn_for_each; intros; by apply conn_request_stop; apply _. }
  intros [] w2 H2. eff_step. apply (wp_nothrow (Outcome ec reason)); [|done|].
  { intros e' w' X' H'. eff_step; [|done]. do 4 eff_step. eff_step; [by eff_step|].
    apply (conn_for_each (Outcome ec reason)); [|done]. intros c. by apply conn_force_close; apply _. }
  intros [] w3 H3. by apply o_maybe_finish.
Qed.

Lemma v_begin_stop_state v :
  v_live v = true ->
  v_state (v_begin_stop v) = listener_state.stopping \/ v_state (v_begin_stop v) = listener_state.stopped.
Proof.
  intros Hl%v_live_cases. unfold v_begin_stop, v_maybe_finish, v_finish, v_set_state.
  destruct Hl as [-> | ->]; simpl; destruct (_ && _); simpl; auto.
Qed.

(** A live listener that stops records why, whether or not it throws on the way. *)
Lemma wp_begin_stop e w :
  v_live (view_of w) = true ->
  let post w' := (m_state w' = listener_state.stopping \/ m_state w' = listener_state.stopped) /\
                 Outcome ec reason w' in
  wp (begin_stop cfg ec reason) e w (fun _ => post) (fun _ => post).
Proof.
  intros Hl post. pose proof (refines_begin_stop cfg ec reason e w (view_of w) eq_refl) as H1.
  pose proof (o_begin_stop e w Hl) as H2.
  eapply wp_mono; [apply (wp_conj _ _ _ _ _ _ _ H1 H2) | |]; simpl; intros ? w' [Hv Ho]; split; try done.
  all: rewrite (viewed_state _ _ Hv); by apply v_begin_stop_state.
Qed.
End Stop.

(** ** Accept errors *)

(** C18: a transient accept error short of the limit leaves the listener running
    with no accept in flight, counts the error, records it, and arms the retry
    timer with the exponential delay, replacing an earlier wait. *)
Theorem transient_error_backs_off cfg ec e w :
  m_state w = listener_state.running -> failed ec = true -> is_transient_accept_error ec = true ->
  0 <= m_consecutive_accept_errors (w_ext w) ->
  m_consecutive_accept_errors (w_ext w) + 1 < max_consecutive_accept_errors (c_options cfg) < u64_modulus ->
  e_retry_timer (e_ext e) = None ->
  let n := m_consecutive_accept_errors (w_ext w) + 1 in
  wp (accepted cfg ec) e w
    (fun _ w' => m_state w' = listener_state.running /\ m_accept_pending (w_ext w') = false /\
       m_consecutive_accept_errors (w_ext w') = n /\ m_last_error w' = ec /\
       m_sessions (w_ext w') = m_sessions (w_ext w) /\
       a_io (w_ext w') = List.filter (fun op => negb (is_retry_timer op)) (a_io (w_ext w)) ++
                         [IoRetryTimer (accept_retry_delay (c_options cfg) n)])
    (fun _ _ => False).
Proof.
  intros Hs Hf Ht H0 Hn Htimer n. unfold accepted, retry_accept, state, get_ext, modify_ext, record_diagnostic.
  do 4 eff_step. change (m_state (ext_update (set_m_accept_pending false) w)) with (m_state w).
  rewrite Hs, Hf, (bool_decide_eq_true_2 (_ = _)) by done. cbn [negb]. do 3 eff_step. apply wp_emit.
  set (w1 := log_event _ _).
  assert (Hw1 : m_state w1 = listener_state.running /\ m_accept_pending (w_ext w1) = false /\
    m_consecutive_accept_errors (w_ext w1) = m_consecutive_accept_errors (w_ext w) /\ m_last_error w1 = ec /\
    m_sessions (w_ext w1) = m_sessions (w_ext w) /\ a_io (w_ext w1) = a_io (w_ext w)) by done.
  clearbody w1. destruct Hw1 as (Hs1 & Hp1 & Hc1 & Hl1 & Hm1 & Hi1). rewrite Ht. unfold when. do 4 eff_step.
  set (w2 := ext_update _ w1). assert (Hn2 : m_consecutive_accept_errors (w_ext w2) = n).
  { unfold w2. simpl. rewrite Hc1. apply u64_small. lia. }
  rewrite Hn2. destruct (Z.leb_spec (max_consecutive_accept_errors (c_options cfg)) n); [lia|]. cbn [negb orb].
  unfold arm_retry_timer, retry_timer_cancel, modify_ext. do 4 eff_step. eff_step; [|congruence]. eff_step.
  split_and!; try done. simpl. by rewrite Hi1.
Qed.

(** A running listener whose accept completion is about to run. *)
Lemma transient_error_backs_off_witness :
  wp (accepted demo no_descriptors) calm (after calm started)
    (fun _ w' => a_io (w_ext w') = [IoAccept; IoRetryTimer 10]) (fun _ _ => False).
Proof.
  eapply wp_mono;
    [apply (transient_error_backs_off demo no_descriptors calm (after calm started));
       try reflexivity; try (by vm_compute); split; by vm_compute | | by intros].
  intros [] w' (_ & _ & _ & _ & _ & H). rewrite H. by vm_compute.
Defined.

(** An accept error that is not transient, or is one too many in a row, stops
    the listener with reason [runtime_failure] and this error. *)
Theorem fatal_accept_error_stops cfg ec e w :
  m_state w = listener_state.running -> failed ec = true ->
  is_transient_accept_error ec = false \/
    max_consecutive_accept_errors (c_options cfg) <= u64 (m_consecutive_accept_errors (w_ext w) + 1) ->
  let stops w' := (m_state w' = listener_state.stopping \/ m_state w' = listener_state.stopped) /\
                  m_terminal_error w' = ec /\ m_stop_reason w' = listener_stop_reason.runtime_failure in
  wp (accepted cfg ec) e w (fun _ => stops) (fun _ => stops).
Proof.
  intros Hs Hf Ht stops. unfold accepted, retry_accept, state, get_ext, modify_ext, record_diagnostic.
  do 4 eff_step. change (m_state (ext_update (set_m_accept_pending false) w)) with (m_state w).
  rewrite Hs, Hf, (bool_decide_eq_true_2 (_ = _)) by done. cbn [negb]. do 3 eff_step. apply wp_emit. eff_step.
  set (w1 := log_event _ _).
  assert (Hw1 : m_state w1 = listener_state.running /\
    m_consecutive_accept_errors (w_ext w1) = m_consecutive_accept_errors (w_ext w)) by done.
  clearbody w1. destruct Hw1 as [Hs1 Hc1].
  apply (wp_mono _ _ _ (fun _ w2 => m_state w2 = listener_state.running /\
    (is_transient_accept_error ec = false \/
     max_consecutive_accept_errors (c_options cfg) <= m_consecutive_accept_errors (w_ext w2))) _ (fun _ _ => False));
    [| |done].
  { eff_step; [eff_step|]; (split; [done|]); simpl; rewrite ?Hc1; [|by left].
    destruct Ht as [Ht|Ht]; [congruence | by right]. }
  intros [] w2 [Hs2 Hd]. do 2 eff_step.
  replace (negb _ || _) with true.
  2: { symmetry. apply orb_true_iff. destruct Hd as [->|Hd]; [by left | right; by apply Z.leb_le]. }
  apply wp_begin_stop. apply v_live_cases. by right.
Qed.

Lemma fatal_accept_error_stops_witness :
  wp (accepted demo io_error) calm (after calm started)
    (fun _ w' => m_stop_reason w' = listener_stop_reason.runtime_failure) (fun _ w' => True).
Proof.
  eapply wp_mono;
    [apply (fatal_accept_error_stops demo io_error calm (after calm started));
       [by vm_compute | reflexivity | left; reflexivity] | | done].
  by intros [] w' (_ & _ & H).
Defined.

(** ** Waiters *)

(** What [cancel_io] queues. *)
Definition aborted (ops : list io_op) : list (executor * task acceptor_task) :=
  map (fun op => (listener_strand, TExt (io_completion op operation_aborted))) ops.

(** What [finish ec reason] leaves. *)
Record Finished (ec : error_code) (reason : listener_stop_reason.t) (w w' : aworld) : Prop := {
  f_state : m_state w' = listener_state.stopped;
  f_waiters : m_waiters w' = [];
  f_terminal : m_terminal_error w' = ec;
  f_reason : m_stop_reason w' = reason;
  f_closed : m_acceptor_open (w_ext w') = false;
  f_first : failed ec = true -> m_last_error w = success -> m_last_exception w = None -> m_last_error w' = ec;
  f_queue : exists ops,
    w_queue w' = w_queue w ++ aborted ops ++ map (waiter_dispatch ec) (m_waiters w) }.

Lemma wp_finish cfg ec reason e w (Q : unit -> aworld -> Prop) X :
  posts_ok e -> m_state w <> listener_state.stopped ->
  (forall w', Finished ec reason w w' -> Q tt w') -> wp (Acceptor.finish cfg ec reason) e w Q X.
Proof.
  intros He Hs HQ. unfold Acceptor.finish, state, set_stop_reason, acceptor_close, retry_timer_cancel,
    shutdown_timer_cancel, modify_ext. do 2 eff_step. rewrite bool_decide_eq_false_2 by done. do 5 eff_step.
  set (w0 := set_m_stop_reason _ _).
  pose (P := fun w' => w_queue w' = w_queue w /\ m_waiters w' = m_waiters w /\ Outcome ec reason w' /\
    (failed ec = true -> m_last_error w = success -> m_last_exception w = None -> m_last_error w' = ec)).
  assert (HP : wp (keep_first_error ec) e w0 (fun _ => P) (fun _ _ => False)).
  { unfold keep_first_error, wp, when, bind, gets, modify, ret. simpl.
    destruct (failed ec) eqn:Hf; simpl; [|by split_and!].
    destruct (negb _ && _) eqn:Hc; simpl; [by split_and!|]. split_and!; [done..|]. intros _ Hl Hx.
    rewrite Hl, Hx in Hc. done. }
  clearbody w0. eapply wp_mono; [exact HP | | done]. intros [] w1 (Hq & Hw & (Ho1 & Ho2) & Hl).
  clear HP. do 9 eff_step. apply wp_transition_to. apply wp_complete_waiters; [done|]. apply HQ.
  split; simpl; try done.
  exists (List.filter is_accept (a_io (w_ext w1)) ++
     (List.filter is_retry_timer (List.filter (fun op => negb (is_accept op)) (a_io (w_ext w1))) ++
      List.filter is_shutdown_timer
        (List.filter (fun op => negb (is_retry_timer op))
           (List.filter (fun op => negb (is_accept op)) (a_io (w_ext w1)))))).
  unfold aborted. rewrite !map_app, Hq, Hw, Ho1, <- !app_assoc. done.
Qed.

(** When a listener finishes, every pending wait is completed, in the order
    the waits were made, with the terminal error, after the completions of the
    operations it cancels. *)
Theorem finish_completes_waiters cfg ec reason e w :
  posts_ok e -> m_state w <> listener_state.stopped ->
  wp (Acceptor.finish cfg ec reason) e w
    (fun _ w' => m_state w' = listener_state.stopped /\ m_waiters w' = [] /\
       m_terminal_error w' = ec /\ m_stop_reason w' = reason /\
       exists ops, w_queue w' = w_queue w ++ aborted ops ++ map (waiter_dispatch ec) (m_waiters w))
    (fun _ _ => False).
Proof. intros He Hs. by apply wp_finish; [..|intros w' []]. Qed.

Lemma finish_completes_waiters_witness :
  length (m_waiters (after calm started)) = 2%nat /\
  wp (Acceptor.finish demo timed_out listener_stop_reason.requested) calm (after calm started)
    (fun _ w' => m_waiters w' = []) (fun _ _ => False).
Proof.
  split; [by vm_compute|]. eapply wp_mono;
    [apply (finish_completes_waiters demo timed_out listener_stop_reason.requested calm (after calm started));
       [apply calm_ok | by vm_compute] | | done].
  by intros [] w' (_ & H & _).
Defined.

(** ** Starting *)

(** The results of opening the acceptor, in the order the calls are made. *)
Definition startup_codes (cfg : config) (e : aenv) : list error_code :=
  let x := e_ext e in
  e_open x :: match c_configured_endpoint cfg with
              | ip_endpoint address _ => (if is_v6 address then [e_v6_only x] else []) ++ [e_reuse_address x]
              | _ => []
              end ++ [e_bind x; e_listen x].

(** The first failure. *)
Definition startup_error (cfg : config) (e : aenv) : option error_code :=
  find_first failed (startup_codes cfg e).

Lemma open_acceptor_spec cfg e w (Q : error_code -> aworld -> Prop) X :
  m_acceptor_open (w_ext w) = false ->
  (forall ec b, match startup_error cfg e with
                | Some err => ec = err
                | None => failed ec = false /\ b = true
                end -> Q ec (ext_update (set_m_acceptor_open b) w)) ->
  wp (open_acceptor cfg) e w Q X.
Proof.
  intros Ho HQ. assert (Hw : ext_update (set_m_acceptor_open false) w = w).
  { destruct w as [? ? ? ? ? ? ? ? ? ? ? ? ? ? ? ? ? ? []]. simpl in *. by subst. }
  assert (Hfail : forall ec, startup_error cfg e = Some ec -> Q ec w).
  { intros ec Hec. rewrite <- Hw. apply (HQ ec false). by rewrite Hec. }
  assert (Hlate : forall ec, startup_error cfg e = Some ec -> Q ec (ext_update (set_m_acceptor_open true) w)).
  { intros ec Hec. apply (HQ ec true). by rewrite Hec. }
  assert (Hopen : forall ec, startup_error cfg e = None -> failed ec = false ->
    Q ec (ext_update (set_m_acceptor_open true) w)).
  { intros ec Hec Hf. apply (HQ ec true). by rewrite Hec. }
  clear HQ. revert Hfail Hlate Hopen. unfold startup_error, startup_codes.
  unfold wp, open_acceptor, acceptor_open, get_ext, modify_ext, bind, gets, asks, modify, ret. rewrite Ho.
  destruct (c_configured_endpoint cfg) as [a p|path|]; [destruct (is_v6 a)|..]; simpl.
  all: repeat match goal with |- context [failed (?f (e_ext ?x))] =>
         destruct (failed (f (e_ext x))) eqn:?; simpl end; first [congruence | auto].
Qed.

Lemma enter_ext cfg st (w : aworld) : w_ext (enter cfg st w) = w_ext w.
Proof. done. Qed.

(** C37: a start of an idle or stopped acceptor listener whose acceptor cannot be opened,
    configured, bound or made to listen, while the executor accepts posts, leaves the
    listener stopped with reason [startup_failure] and the acceptor closed; the first of
    those failures is recorded and posted to the caller's handler. *)
Theorem failed_start_reports cfg h e w ec :
  posts_ok e -> m_state w = listener_state.idle \/ m_state w = listener_state.stopped ->
  m_acceptor_open (w_ext w) = false -> startup_error cfg e = Some ec ->
  wp (start_on_strand cfg h) e w
    (fun _ w' => m_state w' = listener_state.stopped /\
       m_stop_reason w' = listener_stop_reason.startup_failure /\ m_terminal_error w' = ec /\
       m_last_error w' = ec /\ m_acceptor_open (w_ext w') = false /\
       (listener_strand, TDispatch (get_associated_executor (Some h) listener_strand) (Some h) ec)
         ∈ w_queue w')
    (fun _ _ => False).
Proof.
  intros He Hst Ho Hec. assert (Hf : failed ec = true) by (by destruct (find_first_true _ _ _ Hec)).
  unfold start_on_strand, state, clear_diagnostics. do 2 eff_step.
  rewrite (bool_decide_eq_false_2 (m_state w = listener_state.running)) by (destruct Hst; congruence).
  replace (negb _ && negb _) with false.
  2: { symmetry. destruct Hst as [-> | ->]; [done | by rewrite andb_false_r]. }
  do 7 eff_step. set (w0 := set_m_last_exception _ _).
  assert (H0 : w_ext w0 = w_ext w /\ m_last_error w0 = success /\ m_last_exception w0 = None)
    by (split_and!; reflexivity).
  clearbody w0. destruct H0 as (Hx0 & Hl0 & He0). apply wp_transition_to. eff_step.
  apply open_acceptor_spec; [rewrite enter_ext; congruence|]. rewrite Hec. intros ec' b ->. rewrite Hf. eff_step.
  set (w1 := ext_update _ _).
  assert (Hs1 : m_state w1 = listener_state.starting) by reflexivity.
  assert (Hl1 : m_last_error w1 = success) by exact Hl0.
  assert (Hx1 : m_last_exception w1 = None) by exact He0.
  clearbody w1. apply wp_post; [|intros x Hx; by rewrite He in Hx]. intros _.
  apply wp_finish; [done | simpl; congruence |]. intros w' [? ? ? ? ? Hl [ops Hq]].
  split_and!; try done; [by apply Hl|]. rewrite Hq. simpl. apply elem_of_app. left.
  apply elem_of_app. right. apply list_elem_of_here.
Qed.

Definition bind_fails : aenv :=
  mk_env (fun _ _ => None)
    {| e_open := success; e_v6_only := success; e_reuse_address := success;
       e_bind := system_error_code 98; e_listen := success; e_local_endpoint := inr demo_endpoint;
       e_async_accept := None; e_socket_local := inr demo_endpoint; e_socket_remote := inr demo_endpoint;
       e_factory := None; e_retry_timer := None; e_shutdown_timer := None; e_owner := true;
       e_session := fun _ => mk_session_run None None None |}.

Lemma failed_start_reports_witness :
  wp (start_on_strand demo (mk_handler 0 None None false None)) bind_fails demo_start
    (fun _ w' => m_last_error w' = system_error_code 98) (fun _ _ => False).
Proof.
  eapply wp_mono;
    [apply (failed_start_reports demo (mk_handler 0 None None false None) bind_fails demo_start
       (system_error_code 98)); [done | by left | done | by vm_compute] | | done].
  by intros [] w' (_ & _ & _ & H & _).
Defined.

(** ** Executions worth knowing

    Reachable states in which the listener behaves in a way its documentation does
    not suggest; each is the end of a concrete execution in which the executor accepts
    all work. *)

Definition begin_listening : list action := [AStart None None false; ARun 0; ARun 0].

Definition accept_one : list action := [AIo 0 success; ARun 0; ARun 0].

(** One transient error, then a stop and a new start. *)
Definition restarted_after_error : list action :=
  begin_listening ++ [AIo 0 connection_aborted; ARun 0; ARequestStop; ARun 0; ARun 0] ++ begin_listening.

(** A restart leaves the count of consecutive accept errors of the generation
    before, although no accept of this one has failed. *)
Theorem restart_keeps_error_count :
  let w := after calm restarted_after_error in
  reach demo posts_ok demo_registry (length restarted_after_error) w /\
  m_state w = listener_state.running /\ m_generation w = 2 /\
  m_consecutive_accept_errors (w_ext w) = 1 /\ a_io (w_ext w) = [IoAccept].
Proof.
  split; [apply (after_reach posts_ok calm _ calm_ok); vm_compute; reflexivity|].
  vm_compute. repeat split; reflexivity.
Qed.

(** The grace timer expires, but before its completion runs the session ends, the
    listener stops, starts again, accepts a session and is asked to stop. *)
Definition stale_deadline : list action :=
  begin_listening ++ accept_one ++
  [ARequestStop; ARun 0; ARun 0; AIo 0 success; ARun 0; ASession 0 None success; ARun 1; ARun 1;
   AStart None None false; ARun 1; ARun 1; AIo 0 success; ARun 1; ARun 1;
   ARequestStop; ARun 1; ARun 1; ARun 1; ARun 0; ARun 0].

(** The completion of the old timer closes the session of the new generation by
    force while the new grace period, whose timer is pending, has not expired. *)
Theorem stale_deadline_closes_new_session :
  let w := after calm stale_deadline in
  reach demo posts_ok demo_registry (length stale_deadline) w /\
  m_generation w = 2 /\ a_io (w_ext w) = [IoShutdownTimer 1000] /\ m_sessions (w_ext w) = [1%nat] /\
  map cn_finished (a_connections (w_ext w)) = [true; true] /\
  map cn_session (a_connections (w_ext w)) = [false; true].
Proof.
  split; [apply (after_reach posts_ok calm _ calm_ok); vm_compute; reflexivity|].
  vm_compute. repeat split; reflexivity.
Qed.

(** A transient error while a session runs; the session then ends. *)
Definition session_ends_in_backoff : list action :=
  begin_listening ++ accept_one ++ [AIo 0 connection_aborted; ARun 0; ASession 0 None success; ARun 0].

(** The next accept is submitted although the retry timer is still pending. *)
Theorem session_end_skips_backoff :
  let w := after calm session_ends_in_backoff in
  reach demo posts_ok demo_registry (length session_ends_in_backoff) w /\
  m_consecutive_accept_errors (w_ext w) = 1 /\ a_io (w_ext w) = [IoRetryTimer 10; IoAccept].
Proof.
  split; [apply (after_reach posts_ok calm _ calm_ok); vm_compute; reflexivity|].
  vm_compute. repeat split; reflexivity.
Qed.

(** [async_accept] throws a [system_error] whose code is zero. *)
Definition zero_code : aenv := mk_env (fun _ _ => None)
  {| e_open := success; e_v6_only := success; e_reuse_address := success; e_bind := success;
     e_listen := success; e_local_endpoint := inr demo_endpoint;
     e_async_accept := Some (system_error success); e_socket_local := inr demo_endpoint;
     e_socket_remote := inr demo_endpoint; e_factory := None; e_retry_timer := None;
     e_shutdown_timer := None; e_owner := true; e_session := fun _ => mk_session_run None None None |}.

(** The start then succeeds: the listener runs and accepts nothing. *)
Theorem zero_code_start_accepts_nothing :
  exists w, run_trace demo [(calm, AStart None None false); (zero_code, ARun 0); (calm, ARun 0)] demo_start = Some w /\
    m_state w = listener_state.running /\ a_io (w_ext w) = [] /\ w_queue w = [] /\
    map snd (w_completed w) = [success].
Proof. eexists. split; [vm_compute; reflexivity|]. vm_compute. repeat split; reflexivity. Qed.
