(* ===== verification/SocketListener.v ===== *)
(** * The bound-socket listener

    [detail::basic_socket_listener] of include/serveza/detail/basic_socket_listener.h:
    a listener for a protocol without connections, which owns one session on its
    bound socket.  Its metadata, waiters and completion machinery are those of
    [ListenerBase]; this file adds its nested [session_state], its member
    functions and the system around it. *)

From S2P Require Import Prelude Errors Effect Options Endpoint Status Observers ListenerBase.

Local Open Scope Z_scope.
Local Open Scope eff_scope.

(** [session_state].  [bs_session]: the user's session holds the handler. *)
Record bound_session := mk_bound_session {
  bs_local_endpoint : string;
  bs_socket_open : bool;
  bs_signalled : bool;
  bs_ep : exception_ptr;
  bs_finished : bool;
  bs_session : bool }.

Definition set_bs_socket_open (v : bool) (b : bound_session) : bound_session :=
  mk_bound_session (bs_local_endpoint b) v (bs_signalled b) (bs_ep b) (bs_finished b) (bs_session b).

Definition set_bs_signalled (v : bool) (b : bound_session) : bound_session :=
  mk_bound_session (bs_local_endpoint b) (bs_socket_open b) v (bs_ep b) (bs_finished b) (bs_session b).

Definition set_bs_ep (v : exception_ptr) (b : bound_session) : bound_session :=
  mk_bound_session (bs_local_endpoint b) (bs_socket_open b) (bs_signalled b) v (bs_finished b) (bs_session b).

Definition set_bs_finished (v : bool) (b : bound_session) : bound_session :=
  mk_bound_session (bs_local_endpoint b) (bs_socket_open b) (bs_signalled b) (bs_ep b) v (bs_session b).

Definition set_bs_session (v : bool) (b : bound_session) : bound_session :=
  mk_bound_session (bs_local_endpoint b) (bs_socket_open b) (bs_signalled b) (bs_ep b) (bs_finished b) v.

Inductive socket_task :=
| TShutdownTimer (ec : error_code)
| TSessionFinished (ec : error_code) (ep : exception_ptr)
| TSessionStart (s : nat)
| TSessionRequestStop (s : nat)
| TSessionForceClose (s : nat).

(** [m_session], the heap of session objects, and the outstanding waits of
    [m_shutdown_timer] by their delay. *)
Record socket_state := mk_socket_state {
  m_session : option nat;
  b_sessions : list bound_session;
  b_timers : list Z }.

Definition set_m_session (v : option nat) (x : socket_state) : socket_state :=
  mk_socket_state v (b_sessions x) (b_timers x).

Definition set_b_sessions (v : list bound_session) (x : socket_state) : socket_state :=
  mk_socket_state (m_session x) v (b_timers x).

Definition set_b_timers (v : list Z) (x : socket_state) : socket_state :=
  mk_socket_state (m_session x) (b_sessions x) v.

(** What the user's session does inside [async_run]. *)
Record session_run := mk_session_run {
  s_report : option exn;
  s_complete : option error_code;
  s_throw : option exn }.

(** Answers of the code outside the repository during one step. *)
Record socket_env := mk_socket_env {
  e_socket : option exn;
  e_open : error_code;
  e_v6_only : error_code;
  e_reuse_address : error_code;
  e_bind : error_code;
  e_local_endpoint : error_code + endpoint;
  e_factory : option exn;
  e_shutdown_timer : option exn;
  e_owner : bool;
  e_session : nat -> session_run }.

Abbreviation sworld := (world socket_task socket_state).
Abbreviation senv := (env socket_task socket_env).
Abbreviation SM := (M senv sworld).

Definition ext_update (f : socket_state -> socket_state) (w : sworld) : sworld :=
  set_w_ext (f (w_ext w)) w.

Definition modify_ext (f : socket_state -> socket_state) : SM unit := modify (ext_update f).

Definition get_ext {A} (f : socket_state -> A) : SM A := gets (fun w => f (w_ext w)).

Definition update_session (s : nat) (f : bound_session -> bound_session) (x : socket_state) : socket_state :=
  set_b_sessions (alter f s (b_sessions x)) x.

(** ** [session_state] *)

(** [owner->session_finished(ec, ep)] posts its body to the listener strand. *)
Definition session_finished_post (ec : error_code) (ep : exception_ptr) : SM unit :=
  post listener_strand (TExt (TSessionFinished ec ep)).

Definition close_now (s : nat) : SM unit :=
  modify_ext (update_session s (set_bs_socket_open false)).

Definition session_finish (s : nat) (ec : error_code) (ep : exception_ptr) : SM unit :=
  noexcept (
    sessions <- get_ext b_sessions;;
    match sessions !! s with
    | None => ret tt
    | Some session =>
      if bs_finished session then ret tt
      else
        modify_ext (update_session s (set_bs_finished true));;
        close_now s;;
        try_catch
          (owner <- asks (fun e => e_owner (e_ext e));;
           when owner (session_finished_post ec ep))
          (fun _ => ret tt)
    end).

(** The completion handler given to the session: [m_ep] is moved out. *)
Definition session_handler (s : nat) (ec : error_code) : SM unit :=
  sessions <- get_ext b_sessions;;
  match sessions !! s with
  | None => ret tt
  | Some session =>
    modify_ext (update_session s (set_bs_ep None));;
    session_finish s ec (bs_ep session)
  end.

Definition report (s : nat) (x : option exn) : SM unit :=
  match x with
  | None => ret tt
  | Some x => modify_ext (update_session s (set_bs_ep (Some x)))
  end.

Definition async_run (s : nat) : SM unit :=
  run <- asks (fun e => e_session (e_ext e) s);;
  report s (s_report run);;
  match s_complete run with
  | Some ec => session_handler s ec
  | None => modify_ext (update_session s (set_bs_session true))
  end;;
  match s_throw run with
  | Some x => throw x
  | None => ret tt
  end.

Definition session_start (s : nat) : SM unit :=
  try_catch (async_run s)
    (fun x => session_finish s (exception_to_error (Some x)) (Some x)).

Definition session_force_close (s : nat) : SM unit :=
  noexcept (
    try_catch (post (connection_strand s) (TExt (TSessionForceClose s)))
      (fun _ => session_finish s operation_aborted None)).

Definition session_request_stop (s : nat) : SM unit :=
  noexcept (
    try_catch (post (connection_strand s) (TExt (TSessionRequestStop s)))
      (fun _ => session_force_close s)).

(** The closures they post. *)
Definition run_request_stop (s : nat) : SM unit :=
  modify_ext (update_session s (set_bs_signalled true)).

Definition run_force_close (s : nat) : SM unit := session_finish s operation_aborted None.

(** The session completes its handler later, possibly after reporting an
    exception through its context; a handler is invoked at most once. *)
Definition session_completes (s : nat) (x : option exn) (ec : error_code) : SM unit :=
  sessions <- get_ext b_sessions;;
  match sessions !! s with
  | None => ret tt
  | Some session =>
    when (bs_session session)
      (modify_ext (update_session s (set_bs_session false));;
       report s x;;
       session_handler s ec)
  end.

(** ** The shutdown timer *)

(** Cancelling queues the outstanding waits with [operation_aborted]. *)
Definition cancel_timers (w : sworld) : sworld :=
  set_w_queue
    (w_queue w ++ map (fun _ => (listener_strand, TExt (TShutdownTimer operation_aborted)))
                      (b_timers (w_ext w)))
    (ext_update (set_b_timers []) w).

Definition shutdown_timer_cancel : SM unit := modify cancel_timers.

Definition arm_shutdown_timer (delay : Z) : SM unit :=
  shutdown_timer_cancel;;
  may_throw (fun e => e_shutdown_timer (e_ext e));;
  modify_ext (fun x => set_b_timers (b_timers x ++ [delay]) x).

Section Listener.
Variable cfg : config.

Abbreviation options := (c_options cfg).

(** [emit(type, ec, ep)]: no connection info. *)
Definition emit (type : listener_event_type) (ec : error_code) (ep : exception_ptr) : SM unit :=
  ListenerBase.emit cfg type no_connection ec ep.

Definition finish (ec : error_code) (reason : listener_stop_reason.t) : SM unit :=
  current <- state;;
  if bool_decide (current = listener_state.stopped) then ret tt
  else
    modify (set_m_terminal_error ec);;
    set_stop_reason reason;;
    keep_first_error ec;;
    shutdown_timer_cancel;;
    transition_to cfg listener_state.stopped;;
    complete_waiters.

Definition maybe_finish : SM unit :=
  current <- state;;
  session <- get_ext m_session;;
  terminal <- gets m_terminal_error;;
  reason <- stop_reason;;
  when (bool_decide (current = listener_state.stopping) && bool_decide (session = None))
    (finish terminal reason).

Definition stop_on_strand : SM unit :=
  current <- state;;
  if bool_decide (current = listener_state.idle) then
    set_stop_reason listener_stop_reason.requested;;
    transition_to cfg listener_state.stopping;;
    finish success listener_stop_reason.requested
  else if negb (bool_decide (current = listener_state.starting)) &&
          negb (bool_decide (current = listener_state.running)) then ret tt
  else
    set_stop_reason listener_stop_reason.requested;;
    transition_to cfg listener_state.stopping;;
    session <- get_ext m_session;;
    match session with
    | Some s =>
      session_request_stop s;;
      arm_shutdown_timer (shutdown_grace_period options)
    | None => ret tt
    end;;
    maybe_finish.

(** The completion handler of the shutdown timer. *)
Definition shutdown_deadline (ec : error_code) : SM unit :=
  if failed ec then ret tt
  else
    record_diagnostic timed_out None;;
    emit shutdown_forced timed_out None;;
    session <- get_ext m_session;;
    match session with
    | Some s => session_force_close s
    | None => ret tt
    end.

(** The closure [session_finished] posts to the listener strand. *)
Definition session_finished (ec : error_code) (ep : exception_ptr) : SM unit :=
  modify_ext (set_m_session None);;
  modify (set_m_active_sessions 0);;
  when (negb (ec_eqb ec operation_aborted) && (failed ec || bool_decide (ep <> None)))
    (record_diagnostic ec ep);;
  emit session_stopped ec ep;;
  current <- state;;
  if bool_decide (current = listener_state.running) then
    transition_to cfg listener_state.stopping;;
    finish ec (if failed ec then listener_stop_reason.runtime_failure
               else listener_stop_reason.completed)
  else maybe_finish.

(** [open], the IP options and [bind], stopping at the first error. *)
Definition bind_socket : SM error_code :=
  ec <- asks (fun e => e_open (e_ext e));;
  ec <- match c_configured_endpoint cfg with
        | ip_endpoint address _ =>
          ec <- (if negb (failed ec) && is_v6 address
                 then asks (fun e => e_v6_only (e_ext e)) else ret ec);;
          (if negb (failed ec) then asks (fun e => e_reuse_address (e_ext e)) else ret ec)
        | _ => ret ec
        end;;
  if negb (failed ec) then asks (fun e => e_bind (e_ext e)) else ret ec.

Definition start_on_strand (handler : completion_handler) : SM unit :=
  current <- state;;
  if bool_decide (current = listener_state.running) then
    complete_on listener_strand (Some handler) success
  else if negb (bool_decide (current = listener_state.idle)) &&
          negb (bool_decide (current = listener_state.stopped)) then
    complete_on listener_strand (Some handler) operation_aborted
  else
    modify (fun w => set_m_generation (u64 (m_generation w + 1)) w);;
    modify (set_m_terminal_error success);;
    clear_diagnostics;;
    transition_to cfg listener_state.starting;;
    may_throw (fun e => e_socket (e_ext e));;
    ec <- bind_socket;;
    if failed ec then
      complete_on listener_strand (Some handler) ec;;
      finish ec listener_stop_reason.startup_failure
    else
      bound_endpoint <- asks (fun e => match e_local_endpoint (e_ext e) with
                                       | inl _ => endpoint_string (c_configured_endpoint cfg)
                                       | inr bound => endpoint_string bound
                                       end);;
      modify (set_m_endpoint bound_endpoint);;
      factory <- asks (fun e => e_factory (e_ext e));;
      match factory with
      | Some x =>
        let factory_ec := exception_to_error (Some x) in
        record_diagnostic factory_ec (Some x);;
        emit session_factory_failed factory_ec (Some x);;
        complete_on listener_strand (Some handler) factory_ec;;
        finish factory_ec listener_stop_reason.startup_failure
      | None =>
        session <- get_ext (fun x => length (b_sessions x));;
        modify_ext (fun x => set_m_session (Some session)
          (set_b_sessions (b_sessions x ++ [mk_bound_session bound_endpoint true false None false false]) x));;
        modify (set_m_active_sessions 1);;
        transition_to cfg listener_state.running;;
        emit session_started success None;;
        complete_on listener_strand (Some handler) success;;
        post (connection_strand session) (TExt (TSessionStart session))
      end.

(** ** Members written out again in this class

    They are the acceptor listener's, at the types of this one. *)

Definition request_stop : SM unit := ListenerBase.request_stop.

Definition status : SM listener_status := ListenerBase.status cfg.

Definition do_async_start : option executor -> option N -> bool -> SM unit := ListenerBase.do_async_start.

Definition do_async_wait : option executor -> option N -> bool -> SM unit := ListenerBase.do_async_wait.

Definition cancel_wait : Z -> SM unit := ListenerBase.cancel_wait.

(** ** The system around the listener *)

Definition run_task (t : task socket_task) : SM unit :=
  match t with
  | TStart h => run_start start_on_strand h
  | TWait id h => run_wait id h
  | TCancelWait id => cancel_wait id
  | TStop => stop_on_strand
  | TDispatch on h ec => run_dispatch on h ec
  | TExt (TShutdownTimer ec) => shutdown_deadline ec
  | TExt (TSessionFinished ec ep) => session_finished ec ep
  | TExt (TSessionStart s) => session_start s
  | TExt (TSessionRequestStop s) => run_request_stop s
  | TExt (TSessionForceClose s) => run_force_close s
  end.

Inductive action :=
| AStart (ex : option executor) (alloc : option N) (slot : bool)
| AWait (ex : option executor) (alloc : option N) (slot : bool)
| ARequestStop
| ACancel (op : nat) (type : Z)
| ATimer (i : nat)
| ASession (s : nat) (x : option exn) (ec : error_code)
| ARun (i : nat)
| AObserve (value : observer)
| AUnobserve (id : Z).

(** A wait of the shutdown timer expires. *)
Definition expire_timer (i : nat) : SM unit :=
  timers <- get_ext b_timers;;
  match timers !! i with
  | None => ret tt
  | Some _ =>
    modify_ext (set_b_timers (remove_at i timers));;
    modify (fun w => set_w_queue (w_queue w ++
      [(listener_strand, TExt (TShutdownTimer success))]) w)
  end.

Definition run_posted (i : nat) : SM unit :=
  queue <- gets w_queue;;
  match queue !! i with
  | None => ret tt
  | Some (_, t) => modify (set_w_queue (remove_at i queue));; run_task t
  end.

Definition update_registry (f : observer_registry -> observer_registry) : SM unit :=
  modify (fun w => set_w_registry (f <$> w_registry w) w).

Definition exec (a : action) : SM unit :=
  match a with
  | AStart ex alloc slot => do_async_start ex alloc slot
  | AWait ex alloc slot => do_async_wait ex alloc slot
  | ARequestStop => request_stop
  | ACancel op type => emit_cancellation op type
  | ATimer i => expire_timer i
  | ASession s x ec => session_completes s x ec
  | ARun i => run_posted i
  | AObserve value => update_registry (fun r => snd (add value r))
  | AUnobserve id => update_registry (remove id)
  end.

Definition initial_world (registry : option observer_registry) : sworld :=
  mk_world listener_state.idle listener_stop_reason.none success None
    (endpoint_string (c_configured_endpoint cfg)) 0 0 0 success []
    [] ∅ ∅ 0%nat [] registry [] [] (mk_socket_state None [] []).

Definition make_listener (registry : option observer_registry) : exn + sworld :=
  match validate_socket_options options with
  | inl x => inl x
  | inr _ => inr (initial_world registry)
  end.

Inductive step (ok : senv -> Prop) : sworld -> sworld -> Prop :=
| step_ret e a w w' : ok e -> exec a e w = Ret tt w' -> step ok w w'
| step_throw e a w w' x : ok e -> exec a e w = Throw x w' -> step ok w w'.

Inductive reach (ok : senv -> Prop) (registry : option observer_registry) : nat -> sworld -> Prop :=
| reach_init w : make_listener registry = inr w -> reach ok registry 0 w
| reach_step n w w' : reach ok registry n w -> step ok w w' -> reach ok registry (S n) w'.

Fixpoint run_trace (l : list (senv * action)) (w : sworld) : option sworld :=
  match l with
  | [] => Some w
  | (e, a) :: l =>
    match exec a e w with
    | Ret _ w' | Throw _ w' => run_trace l w'
    | Terminate _ => None
    end
  end.
End Listener.

Definition any_env (e : senv) : Prop := True.

Definition posts_ok (e : senv) : Prop := forall ex t, e_post e ex t = None.

Lemma sock_run_trace_reach cfg (ok : senv -> Prop) registry l n w w' :
  Forall (fun x => ok (fst x)) l -> reach cfg ok registry n w -> run_trace cfg l w = Some w' ->
  reach cfg ok registry (n + length l) w'.
Proof.
  revert n w. induction l as [|[e a] l IH]; intros n w Hok Hr; simpl.
  - intros [= <-]. by rewrite Nat.add_0_r.
  - apply Forall_cons in Hok as [He Hok]. rewrite <- Nat.add_succ_comm.
    destruct (exec cfg a e w) as [[] w1|x w1|w1] eqn:E; [| |done].
    + apply IH; [done|]. eapply reach_step; [done|]. by eapply step_ret.
    + apply IH; [done|]. eapply reach_step; [done|]. by eapply step_throw.
Qed.
