(* ===== verification/SocketFacts.v ===== *)
(** * Invariants of the bound-socket listener

    [Kept g held]: the session objects that are not finished, and the session
    completions posted to the listener strand, number at most one, and exactly
    one (when [g]: the executor accepts work and the listener is alive) while
    [m_session] is set; [m_active_sessions] says whether it is.  [Placed]: the
    session is present exactly in the states [running] and [stopping]. *)

From S2P Require Import Prelude Errors Effect Options Endpoint Status Observers ListenerBase.
From S2P Require Import ListenerFacts ListenerPath ListenerAccount SocketListener.

Definition good (e : senv) : Prop := posts_ok e /\ e_owner (e_ext e) = true.

Definition env_ok (g : bool) (e : senv) : Prop := g = true -> good e.

Definition finished_task (x : executor * task socket_task) : bool :=
  match snd x with
  | TExt (TSessionFinished _ _) => true
  | _ => false
  end.

Definition open_session (b : bound_session) : bool := negb (bs_finished b).

Definition open_count (w : sworld) : nat := countb open_session (b_sessions (w_ext w)).
Definition finished_count (w : sworld) : nat := countb finished_task (w_queue w).
Definition present (w : sworld) : nat := if m_session (w_ext w) is Some _ then 1 else 0.

Definition rel (g : bool) (a b : nat) : Prop := if g then a = b else a <= b.

Record Kept (g : bool) (held : nat) (w : sworld) : Prop := {
  kp_count : rel g (open_count w + held + finished_count w) (present w);
  kp_active : m_active_sessions w = Z.of_nat (present w);
  kp_bound : forall s, m_session (w_ext w) = Some s -> s < length (b_sessions (w_ext w)) }.

Definition Placed (w : sworld) : Prop :=
  match m_state w with
  | listener_state.running | listener_state.stopping => is_Some (m_session (w_ext w))
  | _ => m_session (w_ext w) = None
  end.

(** ** The counts *)

Lemma finished_push w x :
  finished_count (set_w_queue (w_queue w ++ [x]) w) =
  finished_count w + (if finished_task x then 1 else 0).
Proof.
  unfold finished_count. simpl. rewrite countb_app, countb_cons, countb_nil.
  by rewrite Nat.add_0_r.
Qed.

Lemma kept_push g held ex t w :
  finished_task (ex, t) = false -> Kept g held w -> Kept g held (set_w_queue (w_queue w ++ [(ex, t)]) w).
Proof.
  intros Ht []. split; [|done | done]. rewrite finished_push, Ht, Nat.add_0_r. exact kp_count0.
Qed.

Global Instance kept_insensitive g held : Insensitive (Kept g held).
Proof.
  split; [split|..]; try (intros ? w []; by split). intros ex t w Ht. apply kept_push. by destruct t.
Qed.

Global Instance kept_log g held : LogInsensitive (Kept g held).
Proof. split. intros ? w []. by split. Qed.

Lemma kept_state cfg g held st w : Kept g held w -> Kept g held (enter cfg st w).
Proof. intros []. by split. Qed.

Lemma kept_cancel g held w : Kept g held w -> Kept g held (cancel_timers w).
Proof.
  intros []. split; [|done | done]. unfold finished_count, cancel_timers in *. simpl.
  rewrite countb_app. replace (countb finished_task (map _ _)) with 0; [by rewrite Nat.add_0_r|].
  by induction (b_timers (w_ext w)).
Qed.

Lemma kept_timers g held f w :
  Kept g held w -> Kept g held (ext_update (fun x => set_b_timers (f x) x) w).
Proof. intros []. by split. Qed.

Lemma countb_alter {A} (p : A -> bool) f i (l : list A) :
  (forall x, p (f x) = p x) -> countb p (alter f i l) = countb p l.
Proof.
  intros Hf. revert i. induction l as [|x l IH]; intros [|i]; simpl; rewrite ?countb_cons; try done.
  - by rewrite Hf.
  - f_equal. apply IH.
Qed.

Lemma countb_alter_off {A} (p : A -> bool) f i (l : list A) x :
  l !! i = Some x -> p x = true -> p (f x) = false -> countb p l = S (countb p (alter f i l)).
Proof.
  revert i. induction l as [|y l IH]; intros [|i]; simpl; try done; rewrite ?countb_cons.
  - intros [= ->] -> ->. done.
  - intros Hi Hx Hf. rewrite (IH i Hi Hx Hf). unfold alter. lia.
Qed.

Section Sessions.
Variables (g : bool) (held : nat).

Abbreviation kkept m := (kept (E := senv) (S := sworld) (env_ok g) (Kept g held) m).

Lemma k_update s f : (forall x, open_session (f x) = open_session x) -> kkept (modify_ext (update_session s f)).
Proof.
  intros Hf. apply kept_modify. intros w [H1 H2 H3]. split; [|done|].
  - unfold open_count in *. simpl. by rewrite countb_alter.
  - simpl. intros s' Hs. rewrite length_alter. by apply H3.
Qed.

Lemma k_get_ext {A} (f : socket_state -> A) : kkept (get_ext f).
Proof. apply kept_gets. Qed.

Lemma k_post ex t : finished_task (ex, t) = false -> kkept (post ex t).
Proof. intros Ht e w He H. apply wp_post; [|done]. intros _. by apply kept_push. Qed.

(** [session_state::finish]: the completion takes the place of the session. *)
Lemma wp_session_finish s ec ep e w X :
  env_ok g e -> Kept g held w -> wp (session_finish s ec ep) e w (fun _ => Kept g held) X.
Proof.
  intros He H. unfold session_finish, close_now, get_ext, modify_ext, session_finished_post. do 3 eff_step.
  eff_step; [|by eff_step]. eff_step; [by eff_step|]. do 7 eff_step.
  set (w1 := ext_update _ _).
  assert (H1 : S (open_count w1) = open_count w /\ finished_count w1 = finished_count w /\
               present w1 = present w /\ m_active_sessions w1 = m_active_sessions w /\
               forall s', m_session (w_ext w1) = Some s' -> s' < length (b_sessions (w_ext w1))).
  { split_and!; try done.
    - unfold w1, open_count. simpl. rewrite countb_alter by done. symmetry.
      eapply countb_alter_off; [done | | done]. unfold open_session. by rewrite Heqb0.
    - intros s' Hs'. unfold w1. simpl. rewrite !length_alter. by apply (kp_bound _ _ _ H). }
  clearbody w1. destruct H1 as (Ho & Hf & Hp & Ha & Hb). destruct H as [H1 H2 H3].
  assert (Hlost : g = false -> Kept g held w1).
  { intros Hg. split; [|congruence | done]. rewrite Hg in *. simpl in *. lia. }
  eff_step.
  - apply wp_post.
    + intros _. split; [|change (m_active_sessions w1 = Z.of_nat (present w1)); congruence | done].
      rewrite finished_push. simpl. unfold open_count, present in *. simpl in *. destruct g; simpl in *; lia.
    + intros x Hx. eff_step. apply Hlost. destruct g; [|done]. destruct (He eq_refl) as [Hok _].
      by rewrite Hok in Hx.
  - apply Hlost. destruct g; [|done]. destruct (He eq_refl) as [_ Hok]. by rewrite Hok in H.
Qed.

Lemma k_session_finish s ec ep : kkept (session_finish s ec ep).
Proof. intros e w He H. by apply wp_session_finish. Qed.

#[local] Hint Resolve k_session_finish k_get_ext : eff.
#[local] Hint Extern 1 (kept _ _ (modify_ext (update_session _ _))) => (apply k_update; done) : eff.
#[local] Hint Extern 1 (kept _ _ (post _ _)) => (apply k_post; done) : eff.

Lemma k_session_handler s ec : kkept (session_handler s ec).
Proof. unfold session_handler. kept_auto. Qed.
#[local] Hint Resolve k_session_handler : eff.

Lemma k_session_start s : kkept (session_start s).
Proof. unfold session_start, async_run, report. kept_auto. Qed.

Lemma wp_force_close s e w X :
  env_ok g e -> Kept g held w -> wp (session_force_close s) e w (fun _ => Kept g held) X.
Proof.
  intros He H. unfold session_force_close. do 2 eff_step. apply wp_post.
  - intros _. by apply kept_push.
  - intros x _. by apply wp_session_finish.
Qed.

Lemma wp_request_stop s e w X :
  env_ok g e -> Kept g held w -> wp (session_request_stop s) e w (fun _ => Kept g held) X.
Proof.
  intros He H. unfold session_request_stop. do 2 eff_step. apply wp_post.
  - intros _. by apply kept_push.
  - intros x _. by apply wp_force_close.
Qed.

Lemma k_session_completes s x ec : kkept (session_completes s x ec).
Proof. unfold session_completes, report. kept_auto. Qed.
End Sessions.

(** Session operations leave the state and [m_session] alone. *)
Definition framed (w0 w : sworld) : Prop :=
  m_state w = m_state w0 /\ m_session (w_ext w) = m_session (w_ext w0) /\ b_timers (w_ext w) = b_timers (w_ext w0).

Section Frames.
Variable w0 : sworld.
Abbreviation fkept m := (kept (E := senv) (S := sworld) any_env (framed w0) m).

Lemma sock_f_post ex t : fkept (post ex t).
Proof. intros e w _ H. by apply wp_post. Qed.

Lemma sock_f_update s f : fkept (modify_ext (update_session s f)).
Proof. by apply kept_modify. Qed.

Lemma sock_f_get_ext {A} (f : socket_state -> A) : fkept (get_ext f).
Proof. apply kept_gets. Qed.

#[local] Hint Resolve sock_f_post sock_f_update sock_f_get_ext : eff.

Lemma nt_session_finish s ec ep : nothrow (E := senv) anywhere (session_finish s ec ep).
Proof.
  intros e w X _. unfold session_finish, close_now, get_ext, modify_ext, session_finished_post. do 3 eff_step.
  eff_step; [|by eff_step]. eff_step; [by eff_step|]. do 7 eff_step. eff_step; [|done].
  apply wp_post; [done|]. intros. by eff_step.
Qed.

Lemma nt_force_close s : nothrow (E := senv) anywhere (session_force_close s).
Proof.
  intros e w X _. unfold session_force_close. do 2 eff_step. apply wp_post; [done|].
  intros. by apply nt_session_finish.
Qed.

Lemma nt_request_stop' s : nothrow (E := senv) anywhere (session_request_stop s).
Proof.
  intros e w X _. unfold session_request_stop. do 2 eff_step. apply wp_post; [done|].
  intros. by apply nt_force_close.
Qed.

Lemma f_session_finish s ec ep : fkept (session_finish s ec ep).
Proof.
  apply kept_noexcept; [apply nt_session_finish|]. unfold close_now, session_finished_post. kept_auto.
Qed.
#[local] Hint Resolve f_session_finish : eff.

Lemma sock_f_force_close s : fkept (session_force_close s).
Proof. apply kept_noexcept; [apply nt_force_close|]. kept_auto. Qed.
#[local] Hint Resolve sock_f_force_close : eff.

Lemma sock_f_request_stop s : fkept (session_request_stop s).
Proof. apply kept_noexcept; [apply nt_request_stop'|]. kept_auto. Qed.

Lemma sock_f_session_handler s ec : fkept (session_handler s ec).
Proof. unfold session_handler. kept_auto. Qed.
#[local] Hint Resolve sock_f_session_handler : eff.

Lemma f_session_start s : fkept (session_start s).
Proof. unfold session_start, async_run, report. kept_auto. Qed.

Lemma sock_f_session_completes s x ec : fkept (session_completes s x ec).
Proof. unfold session_completes, report. kept_auto. Qed.
End Frames.

(** ** The listener *)

Record Inv (g : bool) (w : sworld) : Prop := { inv_kept : Kept g 0 w; inv_placed : Placed w }.

Section Listener.
Variables (cfg : config) (g : bool).

Abbreviation ikept m := (kept (E := senv) (S := sworld) (env_ok g) (Inv g) m).

(** The state and the session, which [Placed] looks at. *)
Definition Where (st : listener_state.t) (o : option nat) (w : sworld) : Prop :=
  m_state w = st /\ m_session (w_ext w) = o.

Global Instance where_insensitive st o : Insensitive (Where st o).
Proof. split; [split|..]; try (intros ? w H; exact H). by intros. Qed.

Global Instance where_log st o : LogInsensitive (Where st o).
Proof. split. intros ? w H; exact H. Qed.

Definition At (st : listener_state.t) (o : option nat) (w : sworld) : Prop := Kept g 0 w /\ Where st o w.

Lemma at_where w : Kept g 0 w -> At (m_state w) (m_session (w_ext w)) w.
Proof. by intros H. Qed.

Global Instance at_insensitive st o : Insensitive (At st o).
Proof.
  split; [split|..]; try (intros ? w [[H1 H2 H3] H4]; split; [by split | exact H4]).
  intros ex t w Ht [H1 H2]. split; [|done]. apply kept_push; [by destruct t | done].
Qed.

Global Instance at_log st o : LogInsensitive (At st o).
Proof. split. intros ? w [[H1 H2 H3] H4]; split; [by split | exact H4]. Qed.

Lemma at_enter st st' o w : At st o w -> At st' o (enter cfg st' w).
Proof. intros [H [_ Ho]]. split; [by apply kept_state | by split]. Qed.

Lemma at_inv st o w :
  At st o w ->
  match st with
  | listener_state.running | listener_state.stopping => is_Some o
  | _ => o = None
  end -> Inv g w.
Proof. intros [H [Hs Ho]] Hp. split; [done|]. unfold Placed. by rewrite Hs, Ho. Qed.

Lemma at_cancel st o w : At st o w -> At st o (cancel_timers w).
Proof. intros [H Hw]. split; [by apply kept_cancel | done]. Qed.

Lemma i_finish ec reason e w st :
  At st None w -> st <> listener_state.stopped ->
  wp (finish cfg ec reason) e w (fun _ => Inv g) (fun _ => Inv g).
Proof.
  intros H Hs. unfold finish, state, set_stop_reason, shutdown_timer_cancel. do 2 eff_step.
  assert (Hst : m_state w = st) by apply H. rewrite Hst, bool_decide_eq_false_2 by done. do 5 eff_step.
  apply (wp_nothrow (At st None)); [by apply nt_keep_first_error; apply _ | |].
  { by apply ins_stop_reason, ins_terminal_error. }
  intros [] w1 H1. do 3 eff_step. apply wp_transition_to.
  apply (wp_pres (At listener_state.stopped None)); [apply pres_complete_waiters, _ | | |].
  - by apply (at_enter st), at_cancel.
  - intros ? w2 H2. by apply (at_inv _ _ _ H2).
  - intros ? w2 H2. by apply (at_inv _ _ _ H2).
Qed.

Lemma i_maybe_finish e w :
  Kept g 0 w -> (m_state w = listener_state.stopping \/ Placed w) ->
  wp (maybe_finish cfg) e w (fun _ => Inv g) (fun _ => Inv g).
Proof.
  intros H Hp. unfold maybe_finish, state, get_ext, stop_reason. do 8 eff_step.
  destruct (bool_decide (m_state w = listener_state.stopping)) eqn:Hs; simpl.
  - apply bool_decide_eq_true in Hs. eff_step.
    + apply bool_decide_eq_true in H0. apply (i_finish _ _ e w listener_state.stopping); [|done].
      split; [done | by split].
    + apply bool_decide_eq_false in H0. split; [done|]. unfold Placed. rewrite Hs.
      by destruct (m_session (w_ext w)).
  - apply bool_decide_eq_false in Hs. unfold when. eff_step. split; [done|]. by destruct Hp.
Qed.

Lemma i_stop_on_strand : ikept (stop_on_strand cfg).
Proof.
  intros e w He [H Hp]. unfold stop_on_strand, state, set_stop_reason, get_ext. do 2 eff_step. eff_step.
  { apply bool_decide_eq_true in Heqb. do 3 eff_step. apply wp_transition_to.
    unfold Placed in Hp. rewrite Heqb in Hp.
    apply (i_finish _ _ e _ listener_state.stopping); [|done].
    apply (at_enter listener_state.idle), ins_stop_reason. split; [done | by split]. }
  eff_step; [by eff_step|]. do 3 eff_step. apply wp_transition_to. do 3 eff_step.
  set (w1 := enter _ _ _).
  assert (H1 : At listener_state.stopping (m_session (w_ext w)) w1).
  { by apply (at_enter (m_state w)), ins_stop_reason, at_where. }
  assert (Hw1 : m_session (w_ext w1) = m_session (w_ext w)) by apply H1.
  rewrite Hw1. clearbody w1. destruct (m_session (w_ext w)) as [s|].
  2: { eff_step. apply i_maybe_finish; [apply H1 | left; apply H1]. }
  eff_step. apply (wp_mono _ _ _ (fun _ => At listener_state.stopping (Some s)) _ (fun _ _ => False)).
  { assert (Hk := wp_request_stop g 0 s e w1 (fun _ _ => False) He (proj1 H1)).
    assert (Hf := sock_f_request_stop w1 s e w1 I (conj eq_refl (conj eq_refl eq_refl))).
    eapply wp_mono; [apply (wp_conj _ _ _ _ _ _ _ Hk Hf) | | by intros ? ? []].
    intros [] w2 [H2 (Hf1 & Hf2 & _)]. split; [done|]. destruct H1 as [_ [H3 H4]]. split; congruence. }
  2: done.
  intros [] w2 H2. unfold arm_shutdown_timer, shutdown_timer_cancel, modify_ext. do 3 eff_step.
  apply at_cancel in H2. eff_step.
  - eff_step. apply i_maybe_finish; [apply kept_timers, H2 | left; apply H2].
  - by apply (at_inv _ _ _ H2).
Qed.

(** A computation that keeps the counts and the frame keeps the invariant. *)
Lemma i_session {A} (m : SM A) :
  (forall held, kept (env_ok g) (Kept g held) m) -> (forall w0, kept any_env (framed w0) m) -> ikept m.
Proof.
  intros Hk Hf e w He [H Hp]. pose proof (Hk 0 e w He H) as H1.
  pose proof (Hf w e w I (conj eq_refl (conj eq_refl eq_refl))) as H2.
  eapply wp_mono; [apply (wp_conj _ _ _ _ _ _ _ H1 H2) | |]; simpl; intros ? w' [H3 (Hs & Hm & _)];
    (split; [done|]; unfold Placed; by rewrite Hs, Hm).
Qed.

Lemma i_meta {A} (m : SM A) : (forall st o, nothrow (At st o) m) -> ikept m.
Proof.
  intros Hm e w He [H Hp]. apply (wp_nothrow (At (m_state w) (m_session (w_ext w)))); [apply Hm | by apply at_where |].
  intros a w' H'. by apply (at_inv _ _ _ H').
Qed.

Lemma i_base {A} (m : SM A) : (forall st o, pres (At st o) m) -> ikept m.
Proof.
  intros Hm e w He [H Hp].
  apply (wp_pres (At (m_state w) (m_session (w_ext w)))); [apply Hm | by apply at_where | |];
    intros a w' H'; by apply (at_inv _ _ _ H').
Qed.

Lemma i_shutdown_deadline ec : ikept (shutdown_deadline cfg ec).
Proof.
  unfold shutdown_deadline, emit. kept_step; [apply kept_ret|].
  apply kept_bind; [|intros _]. { apply i_meta. intros. apply nt_record_diagnostic, _. }
  apply kept_bind; [|intros _]. { apply i_meta. intros. apply nt_emit, _. }
  apply kept_bind; [apply kept_gets|]. intros [s|]; [|apply kept_ret].
  apply i_session; [|intros; apply sock_f_force_close]. intros held e w He H. by apply wp_force_close.
Qed.

(** The session is gone: nothing is open and no completion is queued. *)
Lemma drop_session w :
  Kept g 1 w -> At (m_state w) None (set_m_active_sessions 0 (ext_update (set_m_session None) w)).
Proof.
  intros [H1 H2 H3]. split; [|done]. split; [|done | done].
  unfold open_count, finished_count, present in *. simpl in *.
  destruct (m_session (w_ext w)), g; simpl in *; lia.
Qed.

Lemma i_session_finished ec ep e w :
  Kept g 1 w -> wp (session_finished cfg ec ep) e w (fun _ => Inv g) (fun _ => Inv g).
Proof.
  intros H%drop_session. unfold session_finished, modify_ext, emit, state. do 4 eff_step.
  set (w1 := set_m_active_sessions _ _) in *. clearbody w1. set (st := m_state w) in *. clearbody st.
  eff_step. apply (wp_nothrow (At st None)); [|done|].
  { intros ????. eff_step; [|done]. by apply nt_record_diagnostic; [apply _|]. }
  intros [] w2 H2. eff_step. apply (wp_nothrow (At st None)); [by apply nt_emit; apply _ | done |].
  intros [] w3 H3. do 2 eff_step. assert (Hst : m_state w3 = st) by apply H3. rewrite Hst. eff_step.
  - eff_step. apply wp_transition_to. apply (i_finish _ _ e _ listener_state.stopping); [|done].
    by apply (at_enter st).
  - apply bool_decide_eq_false in Heqb. apply i_maybe_finish; [apply H3|]. rewrite Hst. unfold Placed.
    rewrite Hst, (proj2 (proj2 H3)). destruct st; by auto.
Qed.

Lemma i_bind_socket st o : nothrow (At st o) (bind_socket cfg).
Proof.
  intros e w X H. unfold bind_socket. do 2 eff_step. eff_step.
  apply (wp_nothrow (At st o)); [|done|].
  - intros ????. destruct (c_configured_endpoint cfg) as [a p| |]; [|by eff_step..].
    eff_step. apply (wp_nothrow (At st o)); [|done|].
    + intros ????. eff_step; by eff_step.
    + intros ? ? ?. eff_step; by eff_step.
  - intros ? ? ?. eff_step; by eff_step.
Qed.

(** A new session object is the only open one. *)
Lemma at_new_session w ep :
  At listener_state.starting None w ->
  At listener_state.starting (Some (length (b_sessions (w_ext w))))
    (set_m_active_sessions 1 (ext_update (fun x => set_m_session (Some (length (b_sessions (w_ext w))))
       (set_b_sessions (b_sessions x ++ [mk_bound_session ep true false None false false]) x)) w)).
Proof.
  intros [[H1 H2 H3] [Hs Ho]]. split; [|by split]. split; simpl; [|done|].
  - unfold open_count, finished_count, present in *. simpl in *. rewrite Ho in H1.
    rewrite countb_app, countb_cons, countb_nil. simpl. destruct g; simpl in *; lia.
  - intros s [= <-]. rewrite length_app. simpl. lia.
Qed.

Lemma i_start_on_strand h : ikept (start_on_strand cfg h).
Proof.
  intros e w He [H Hp]. unfold start_on_strand, state, clear_diagnostics, emit, get_ext, modify_ext.
  assert (Hc : forall w ec, Inv g w ->
    wp (complete_on listener_strand (Some h) ec) e w (fun _ => Inv g) (fun _ => Inv g)).
  { intros w' ec [Hk Hp']. by apply wp_post; [split; [by apply kept_push|]|]. }
  do 2 eff_step. eff_step; [by apply Hc|]. eff_step; [by apply Hc|].
  assert (Ho : m_session (w_ext w) = None).
  { unfold Placed in Hp. by destruct (m_state w). }
  assert (Ha := at_where w H). rewrite Ho in Ha.
  do 7 eff_step. apply wp_transition_to. set (w1 := enter _ _ _).
  assert (H1 : At listener_state.starting None w1).
  { apply (at_enter (m_state w)). destruct Ha as [[] ?]. split; [by split | done]. }
  clearbody w1. clear - H1 He Hc. eff_step. eff_step; [|by apply (at_inv _ _ _ H1)]. eff_step.
  apply (wp_nothrow (At listener_state.starting None)); [apply i_bind_socket | done |].
  intros ec w2 H2.
  assert (Hfail : forall w ec, At listener_state.starting None w ->
    wp (complete_on listener_strand (Some h) ec;; finish cfg ec listener_stop_reason.startup_failure)%eff
      e w (fun _ => Inv g) (fun _ => Inv g)).
  { intros w' ec' H'. eff_step. apply (wp_pres (At listener_state.starting None));
      [apply pres_complete_on, _ | done | | intros x w3 H3; by apply (at_inv _ _ _ H3)].
    intros [] w3 H3. by apply (i_finish _ _ e w3 listener_state.starting). }
  eff_step; [by apply Hfail|]. do 2 eff_step.
  generalize (match e_local_endpoint (e_ext e) with
              | inl _ => endpoint_string (c_configured_endpoint cfg)
              | inr bound => endpoint_string bound
              end). intros ep. do 4 eff_step.
  apply (ins_endpoint ep) in H2. set (w3 := set_m_endpoint ep w2) in *. clearbody w3. eff_step.
  - unfold record_diagnostic. do 3 eff_step. apply wp_emit. apply Hfail. by apply ins_log, ins_last_exception, ins_last_error.
  - do 6 eff_step. apply (at_new_session w3 ep) in H2. set (s := length _) in *.
    set (w4 := set_m_active_sessions _ _) in *. clearbody w4. eff_step. apply wp_transition_to. eff_step.
    apply wp_emit. apply (at_enter _ listener_state.running) in H2.
    set (w5 := log_event _ _). assert (H5 : At listener_state.running (Some s) w5) by (by apply ins_log).
    clearbody w5. eff_step. apply (wp_pres (At listener_state.running (Some s)));
      [apply pres_complete_on, _ | done | | intros x w6 H6; by apply (at_inv _ _ _ H6)].
    intros [] w6 H6. apply wp_post; [|intros ? _; by apply (at_inv _ _ _ H6)]. intros _.
    apply (at_inv listener_state.running (Some s)); [|done].
    split; [apply kept_push; [done | apply H6] | apply H6].
Qed.

(** A session completion leaves the queue. *)
Lemma kept_dequeue i x w :
  w_queue w !! i = Some x -> Kept g 0 w ->
  Kept g (if finished_task x then 1 else 0) (set_w_queue (remove_at i (w_queue w)) w).
Proof.
  intros Hi [H1 H2 H3]. split; [|done|done]. unfold finished_count, open_count, present in *. simpl.
  rewrite (countb_remove_at finished_task _ _ _ Hi) in H1. destruct g; simpl in *; lia.
Qed.

Lemma i_run_task x e w :
  env_ok g e -> Kept g (if finished_task x then 1 else 0) w -> Placed w ->
  wp (run_task cfg (snd x)) e w (fun _ => Inv g) (fun _ => Inv g).
Proof.
  intros He H Hp. destruct x as [ex t]. destruct (finished_task (ex, t)) eqn:Ht.
  { destruct t as [| | | | |[]]; try done. by apply i_session_finished. }
  assert (Hi : Inv g w) by (by split). destruct t as [h|id h|id| |on h ec|[]]; simpl; try done.
  - unfold run_start, clear_slot. do 4 eff_step.
    assert (H' : Inv g (set_w_slots (delete (h_op h) (w_slots w)) w)).
    { destruct H. split; [by split | exact Hp]. }
    eff_step; [|by apply i_start_on_strand].
    destruct H' as [H' Hp']. apply wp_post; [|by split]. intros _. split; [by apply kept_push | done].
  - apply (i_base (run_wait id h)); [intros; apply pres_run_wait, _ | done | done].
  - apply (i_base (cancel_wait id)); [intros; apply pres_cancel_wait, _ | done | done].
  - by apply i_stop_on_strand.
  - apply (i_base (run_dispatch on h ec)); [intros; apply pres_run_dispatch, _ | done | done].
  - by apply i_shutdown_deadline.
  - apply (i_session (session_start s)); [intros; apply k_session_start | intros; apply f_session_start | done | done].
  - apply (i_session (run_request_stop s)); [intros; by apply k_update | intros; apply sock_f_update | done | done].
  - apply (i_session (run_force_close s)); [intros; apply k_session_finish | intros; apply f_session_finish | done | done].
Qed.

Lemma i_update_registry f : ikept (update_registry f).
Proof. intros e w _ [[] Hp]. unfold update_registry. eff_step. split; [by split | exact Hp]. Qed.

Lemma i_exec a : ikept (exec cfg a).
Proof.
  intros e w He H. destruct a as [ex al sl|ex al sl| |op ty|i|s x ec|i|v|id]; simpl.
  - apply (i_base (do_async_start ex al sl)); [intros; apply pres_do_async_start, _ | done | done].
  - apply (i_base (do_async_wait ex al sl)); [intros; apply pres_do_async_wait, _ | done | done].
  - apply (i_base request_stop); [intros; apply nothrow_pres, nt_request_stop, _ | done | done].
  - apply (i_base (emit_cancellation op ty)); [intros; apply nothrow_pres, nt_emit_cancellation, _ | done | done].
  - unfold expire_timer, get_ext, modify_ext. do 2 eff_step. eff_step; [|by eff_step]. do 3 eff_step.
    destruct H as [H Hp]. split; [|exact Hp]. apply (kept_push g 0); [done|]. destruct H. by split.
  - apply (i_session (session_completes s x ec));
      [intros; apply k_session_completes | intros; apply sock_f_session_completes | done | done].
  - unfold run_posted. do 2 eff_step. destruct (w_queue w !! i) as [[ex t]|] eqn:Hi; [|by eff_step].
    do 2 eff_step. apply (i_run_task (ex, t)); [done | | apply H]. apply (kept_dequeue i); [done | apply H].
  - by apply i_update_registry.
  - by apply i_update_registry.
Qed.

Lemma i_reach ok registry n w :
  (forall e, ok e -> env_ok g e) -> reach cfg ok registry n w -> Inv g w.
Proof.
  intros Hok. induction 1 as [w Hw | n w w' _ IH Hs].
  - unfold make_listener in Hw. destruct (validate_socket_options _); simplify_eq.
    split; [|done]. split; [|done|done]. unfold open_count, finished_count, present. simpl. by destruct g.
  - destruct Hs as [e a w1 w2 He E | e a w1 w2 x He E];
      pose proof (i_exec a e w1 (Hok e He) IH) as H; unfold wp in H; by rewrite E in H.
Qed.
End Listener.
