(* ===== verification/SocketAccount.v ===== *)
(** * Completions and life cycle of the bound-socket listener

    Its completion handlers are accounted for like those of the acceptor
    listener, and its published states follow the documented life cycle. *)

From S2P Require Import Prelude Errors Effect Options Endpoint Status Observers ListenerBase.
From S2P Require Import ListenerFacts ListenerPath ListenerAccount SocketListener SocketFacts.

(** The executor accepts work and sockets can be created. *)
Definition calm_start (e : senv) : Prop := posts_ok e /\ e_socket (e_ext e) = None.

Definition acct_ok (g : bool) (e : senv) : Prop := g = true -> calm_start e.

Lemma acct_ok_env g e : acct_ok g e -> acct_env g e.
Proof. intros H Hg. by apply H. Qed.

Section Account.
Context {tgt : Target} (cfg : config) (g : bool).

Abbreviation akept held m := (kept (E := senv) (S := sworld) (acct_ok g) (Acct g held) m).

Lemma a_env {A} held (m : SM A) : kept (acct_env g) (Acct g held) m -> akept held m.
Proof. intros Hm e w He. apply Hm. by apply acct_ok_env. Qed.

Lemma a_post held ex t : task_ops (ex, t) = [] -> akept held (post ex t).
Proof. intros Ht. apply a_env. by apply acct_post_free. Qed.

Lemma a_update held s f : akept held (modify_ext (update_session s f)).
Proof. by apply kept_modify. Qed.

Lemma a_modify_ext held f : akept held (modify_ext f).
Proof. by apply kept_modify. Qed.

Lemma a_get_ext {A} held (f : socket_state -> A) : akept held (get_ext f).
Proof. apply kept_gets. Qed.

#[local] Hint Resolve a_update a_modify_ext a_get_ext : eff.
#[local] Hint Extern 1 (kept _ _ (post _ _)) => (apply a_post; done) : eff.

Lemma a_session_finish held s ec ep : akept held (session_finish s ec ep).
Proof.
  apply kept_noexcept; [apply nt_session_finish|]. unfold close_now, session_finished_post. kept_auto.
Qed.
#[local] Hint Resolve a_session_finish : eff.

Lemma a_force_close held s : akept held (session_force_close s).
Proof. apply kept_noexcept; [apply nt_force_close|]. kept_auto. Qed.
#[local] Hint Resolve a_force_close : eff.

Lemma a_request_stop held s : akept held (session_request_stop s).
Proof. apply kept_noexcept; [apply nt_request_stop'|]. kept_auto. Qed.

Lemma a_session_handler held s ec : akept held (session_handler s ec).
Proof. unfold session_handler. kept_auto. Qed.
#[local] Hint Resolve a_session_handler : eff.

Lemma a_session_start held s : akept held (session_start s).
Proof. unfold session_start, async_run, report. kept_auto. Qed.

Lemma a_session_completes held s x ec : akept held (session_completes s x ec).
Proof. unfold session_completes, report. kept_auto. Qed.

Lemma a_cancel_timers held w : Acct g held w -> Acct g held (cancel_timers w).
Proof.
  unfold Acct, accounted. simpl. rewrite flat_map_app.
  replace (flat_map task_ops (map _ _)) with (@nil nat); [by rewrite app_nil_r|].
  by induction (b_timers (w_ext w)).
Qed.

Lemma a_transition_to held st : akept held (transition_to cfg st).
Proof. intros e w _ H. by apply wp_transition_to. Qed.

Lemma a_emit held type ec ep : akept held (emit cfg type ec ep).
Proof. unfold emit. apply kept_nothrow, nt_emit, _. Qed.

Lemma a_record held ec ep : akept held (record_diagnostic ec ep).
Proof. apply kept_nothrow, nt_record_diagnostic, _. Qed.

Lemma a_set_stop_reason held r : akept held (set_stop_reason r).
Proof. apply kept_nothrow, nt_set_stop_reason, _. Qed.

Lemma a_keep_first_error held ec : akept held (keep_first_error ec).
Proof. apply kept_nothrow, nt_keep_first_error, _. Qed.

Lemma a_waiters held : akept held complete_waiters.
Proof. apply a_env, acct_complete_waiters. Qed.

#[local] Hint Resolve a_request_stop a_cancel_timers a_transition_to a_emit a_record a_set_stop_reason
  a_keep_first_error a_waiters : eff.

Ltac a_auto := kept_auto; try exact I; auto with eff.

Lemma a_finish held ec reason : akept held (finish cfg ec reason).
Proof. unfold finish, state, shutdown_timer_cancel. a_auto. Qed.
#[local] Hint Resolve a_finish : eff.

Lemma a_maybe_finish held : akept held (maybe_finish cfg).
Proof. unfold maybe_finish, state, stop_reason. a_auto. Qed.
#[local] Hint Resolve a_maybe_finish : eff.

Lemma a_stop_on_strand held : akept held (stop_on_strand cfg).
Proof. unfold stop_on_strand, state, arm_shutdown_timer, shutdown_timer_cancel. a_auto. Qed.

Lemma a_shutdown_deadline held ec : akept held (shutdown_deadline cfg ec).
Proof. unfold shutdown_deadline. a_auto. Qed.

Lemma a_session_finished held ec ep : akept held (session_finished cfg ec ep).
Proof. unfold session_finished, state. a_auto. Qed.

Lemma a_bind_socket held : akept held (bind_socket cfg).
Proof. unfold bind_socket. a_auto. Qed.

(** The handler is held until it is posted with the result of the start. *)
Lemma a_complete h ec e w (k : SM unit) :
  acct_ok g e -> Acct g [h_op h] w -> akept [] k ->
  wp (complete_on listener_strand (Some h) ec;; k)%eff e w (fun _ => Acct g []) (fun _ => Acct g []).
Proof.
  intros He H Hk. eff_step. eapply wp_mono; [apply (acct_complete_on g []); [by apply acct_ok_env | exact H] | |done].
  intros [] w' H'. by apply Hk.
Qed.

Lemma a_start_on_strand h e w :
  acct_ok g e -> Acct g [h_op h] w ->
  wp (start_on_strand cfg h) e w (fun _ => Acct g []) (fun _ => Acct g []).
Proof.
  intros He H. assert (He' := acct_ok_env _ _ He).
  unfold start_on_strand, state, clear_diagnostics, emit, get_ext, modify_ext. do 2 eff_step.
  eff_step; [by apply acct_complete_on|]. eff_step; [by apply acct_complete_on|].
  do 7 eff_step. apply wp_transition_to. eff_step. eff_step.
  2: { destruct g eqn:Hg; [|by apply (acct_drop [] _ [h_op h])]. destruct (He eq_refl) as [_ Hs]. congruence. }
  set (w1 := enter _ _ _). assert (H1 : Acct g [h_op h] w1) by exact H. clearbody w1. eff_step.
  apply (wp_nothrow (Acct g [h_op h])); [|exact H1|].
  { intros e' w' X' Hw. unfold bind_socket. do 2 eff_step. eff_step.
    destruct (c_configured_endpoint cfg) as [a p| |]; repeat eff_step; done. }
  intros ec w2 H2. eff_step; [apply a_complete; [done | done | apply a_finish]|].
  do 7 eff_step.
  - unfold record_diagnostic. do 3 eff_step. apply wp_emit. apply a_complete; [done | exact H2 | apply a_finish].
  - do 7 eff_step. apply wp_transition_to. eff_step. apply wp_emit.
    apply a_complete; [done | exact H2 | by apply a_post].
Qed.

Lemma a_run_task x e w :
  acct_ok g e -> Acct g (task_ops x ++ []) w ->
  wp (run_task cfg (snd x)) e w (fun _ => Acct g []) (fun _ => Acct g []).
Proof.
  rewrite app_nil_r. intros He H. assert (He' := acct_ok_env _ _ He).
  destruct x as [ex [h|id h|id| |on h ec|[]]]; simpl in *.
  - apply acct_run_start; [|done|done]. intros. by apply a_start_on_strand.
  - by apply acct_run_wait.
  - by apply acct_cancel_wait.
  - by apply a_stop_on_strand.
  - by apply acct_run_dispatch.
  - by apply a_shutdown_deadline.
  - by apply a_session_finished.
  - by apply a_session_start.
  - by apply a_update.
  - by apply a_session_finish.
Qed.

Definition sock_initiates (a : action) : bool :=
  match a with AStart _ _ _ | AWait _ _ _ => true | _ => false end.

Lemma a_exec a : (sock_initiates a = true -> grows tgt) -> akept [] (exec cfg a).
Proof.
  intros Hgr e w He H. assert (He' := acct_ok_env _ _ He).
  destruct a as [ex al sl|ex al sl| |op ty|i|s x ec|i|v|id]; simpl.
  - apply acct_do_async_start; [by apply Hgr | done | done].
  - apply acct_do_async_wait; [by apply Hgr | done | done].
  - by apply acct_request_stop.
  - by apply acct_emit_cancellation.
  - unfold expire_timer, get_ext, modify_ext. do 2 eff_step. eff_step; [|by eff_step].
    do 3 eff_step. unfold Acct in *. eapply conserves_perm; [|exact H]. simpl.
    unfold accounted. simpl. rewrite flat_map_app. simpl. by rewrite app_nil_r.
  - by apply a_session_completes.
  - unfold run_posted. do 2 eff_step. destruct (w_queue w !! i) as [[ex t]|] eqn:Hi; [|by eff_step].
    do 2 eff_step. apply (a_run_task (ex, t)); [done|]. by apply acct_dequeue.
  - unfold update_registry. by eff_step.
  - unfold update_registry. by eff_step.
Qed.

End Account.

Lemma a_reach cfg g ok registry n w :
  (forall e, ok e -> acct_ok g e) -> reach cfg ok registry n w -> Acct (tgt := initiated) g [] w.
Proof.
  intros Hok. induction 1 as [w Hw | n w w' _ IH Hs].
  - unfold make_listener in Hw. destruct (validate_socket_options _); simplify_eq.
    unfold Acct, accounted, conserves. simpl. by destruct g.
  - destruct Hs as [e a w1 w2 He E | e a w1 w2 x He E];
      pose proof (a_exec (tgt := initiated) cfg g a (fun _ => initiated_grows) e w1 (Hok e He) IH) as H; unfold wp in H; by rewrite E in H.
Qed.

(** ** The published life cycle *)

Section Path.
Variable cfg : config.

Abbreviation hkept m := (kept (E := senv) (S := sworld) any_env ListenerPath.Lawful m).
Abbreviation HAt := ListenerPath.At.

Lemma p_emit type ec ep : type <> state_changed -> hkept (emit cfg type ec ep).
Proof. intros Ht. unfold emit. by apply h_emit. Qed.

Lemma p_modify_ext f : hkept (modify_ext f).
Proof. by apply kept_modify. Qed.

Lemma p_get_ext {A} (f : socket_state -> A) : hkept (get_ext f).
Proof. apply kept_gets. Qed.

#[local] Hint Resolve h_record h_set_stop_reason h_post h_complete_on p_modify_ext p_get_ext : eff.

Lemma p_session_finish s ec ep : hkept (session_finish s ec ep).
Proof.
  apply kept_noexcept; [apply nt_session_finish|]. unfold close_now, session_finished_post. kept_auto.
Qed.
#[local] Hint Resolve p_session_finish : eff.

Lemma p_force_close s : hkept (session_force_close s).
Proof. apply kept_noexcept; [apply nt_force_close|]. kept_auto. Qed.
#[local] Hint Resolve p_force_close : eff.

Lemma p_request_stop s : hkept (session_request_stop s).
Proof. apply kept_noexcept; [apply nt_request_stop'|]. kept_auto. Qed.

Lemma p_session_handler s ec : hkept (session_handler s ec).
Proof. unfold session_handler. kept_auto. Qed.
#[local] Hint Resolve p_session_handler p_request_stop : eff.
#[local] Hint Extern 1 (kept _ _ (emit _ _ _ _)) => (apply p_emit; done) : eff.

Lemma p_finish ec reason e w :
  ListenerPath.Lawful w -> m_state w <> listener_state.idle -> m_state w <> listener_state.running ->
  wp (finish cfg ec reason) e w (fun _ => ListenerPath.Lawful) (fun _ => ListenerPath.Lawful).
Proof.
  intros H Hi Hr. unfold finish, state, set_stop_reason, shutdown_timer_cancel. do 2 eff_step.
  eff_step; [by eff_step|]. apply bool_decide_eq_false in Heqb. do 5 eff_step.
  apply (wp_nothrow (HAt (history_of w))); [by apply nt_keep_first_error; apply _ | done |].
  intros [] w1 H1. do 3 eff_step. apply wp_transition_to.
  apply (wp_pres (HAt (h_enter listener_state.stopped (history_of w))));
    [apply pres_complete_waiters, _ | | |].
  { unfold HAt. rewrite history_enter. by f_equal. }
  all: intros ? w2 H2; eapply at_lawful; [exact H2|]; apply lawful_enter; [done | | done].
  all: destruct (m_state w); done || constructor.
Qed.

Lemma p_maybe_finish : hkept (maybe_finish cfg).
Proof.
  intros e w _ H. unfold maybe_finish, state, get_ext, stop_reason. do 8 eff_step.
  eff_step; [|done]. apply andb_true_iff in H0 as [Hs _]. apply bool_decide_eq_true in Hs.
  apply p_finish; [done | congruence | congruence].
Qed.
#[local] Hint Resolve p_maybe_finish : eff.

Lemma p_stop_on_strand : hkept (stop_on_strand cfg).
Proof.
  intros e w He H. unfold stop_on_strand, state, set_stop_reason. do 2 eff_step. eff_step.
  { apply bool_decide_eq_true in Heqb. do 3 eff_step. apply wp_transition_to.
    apply p_finish; [|done|done]. apply Lawful_enter; [exact H | simpl; rewrite Heqb; constructor | done]. }
  apply bool_decide_eq_false in Heqb. eff_step; [by eff_step|]. do 3 eff_step. apply wp_transition_to.
  assert (H1 : ListenerPath.Lawful (enter cfg listener_state.stopping
                 (set_m_stop_reason listener_stop_reason.requested w))).
  { apply Lawful_enter; [exact H | simpl | done]. destruct (m_state w); try done; constructor. }
  match goal with |- wp ?m _ _ _ _ => assert (Hk : hkept m); [|by apply Hk] end.
  unfold arm_shutdown_timer, shutdown_timer_cancel. kept_auto; done.
Qed.

Lemma p_shutdown_deadline ec : hkept (shutdown_deadline cfg ec).
Proof. unfold shutdown_deadline. kept_auto. Qed.

Lemma p_session_finished ec ep : hkept (session_finished cfg ec ep).
Proof.
  intros e w He H. unfold session_finished, modify_ext, emit, state. do 4 eff_step. eff_step.
  apply (wp_nothrow (HAt (history_of w))); [|done|].
  { intros ????. eff_step; [|done]. by apply nt_record_diagnostic; [apply _|]. }
  intros [] w1 H1. eff_step. apply (wp_nothrow (HAt (history_of w))); [by apply nt_at_emit | done |].
  intros [] w2 H2. assert (HL : ListenerPath.Lawful w2) by (eapply at_lawful; [exact H2 | exact H]).
  do 2 eff_step. eff_step; [|by apply p_maybe_finish]. apply bool_decide_eq_true in Heqb. eff_step.
  apply wp_transition_to. apply p_finish; [|done|done].
  apply Lawful_enter; [done | rewrite Heqb; constructor | done].
Qed.

Lemma p_bind_socket h : nothrow (HAt h) (bind_socket cfg).
Proof.
  intros e w X H. unfold bind_socket. do 2 eff_step. eff_step.
  destruct (c_configured_endpoint cfg) as [a p| |]; repeat eff_step; done.
Qed.

(** The handler is completed and the start has failed. *)
Lemma p_fail h ec reason e w :
  ListenerPath.Lawful w -> m_state w = listener_state.starting ->
  wp (complete_on listener_strand h ec;; finish cfg ec reason)%eff e w
    (fun _ => ListenerPath.Lawful) (fun _ => ListenerPath.Lawful).
Proof.
  intros H Hs. eff_step. apply (wp_pres (HAt (history_of w))); [apply pres_complete_on, _ | done | |];
    intros ? w1 H1; assert (ListenerPath.Lawful w1) by (eapply at_lawful; [exact H1 | exact H]); [|done].
  assert (m_state w1 = listener_state.starting) by (rewrite <- Hs; by injection H1).
  apply p_finish; [done | congruence | congruence].
Qed.

Lemma p_start_on_strand h : hkept (start_on_strand cfg h).
Proof.
  intros e w He H. unfold start_on_strand, state, clear_diagnostics, emit, get_ext, modify_ext. do 2 eff_step.
  eff_step; [by apply (h_complete_on any_env)|]. eff_step; [by apply (h_complete_on any_env)|].
  assert (Hst : m_state w = listener_state.idle \/ m_state w = listener_state.stopped).
  { destruct (m_state w); by auto. }
  do 7 eff_step. apply wp_transition_to. eff_step. set (w0 := set_m_last_exception _ _).
  assert (H0 : history_of w0 = mk_history (m_state w) (u64 (m_generation w + 1))
            (hs_observed (history_of w)) (hs_changes (history_of w))) by reflexivity.
  clearbody w0. set (w1 := enter _ _ _).
  assert (H1 : ListenerPath.Lawful w1) by (by apply (Lawful_start cfg w)).
  assert (Hs : m_state w1 = listener_state.starting) by done. clearbody w1. clear - H1 Hs.
  eff_step; [|done]. eff_step. apply (wp_nothrow (HAt (history_of w1))); [apply p_bind_socket | done |].
  intros ec w2 H2. assert (H2' : ListenerPath.Lawful w2) by (eapply at_lawful; [exact H2 | exact H1]).
  assert (Hs2 : m_state w2 = listener_state.starting) by (rewrite <- Hs; by injection H2).
  clear - H2' Hs2. eff_step; [by apply p_fail|]. do 7 eff_step.
  - unfold record_diagnostic. do 3 eff_step. apply wp_emit. apply p_fail; [|done].
    eapply at_lawful; [by apply history_log | exact H2'].
  - do 7 eff_step. apply wp_transition_to. eff_step. apply wp_emit. set (w3 := log_event _ _).
    assert (H3 : ListenerPath.Lawful w3).
    { eapply at_lawful; [by apply history_log|].
      apply Lawful_enter; [exact H2' | change (lifecycle_edge (m_state w2) listener_state.running) | done].
      rewrite Hs2. constructor. }
    clearbody w3. apply (kept_bind any_env ListenerPath.Lawful);
      [apply h_complete_on | intros; apply h_post | done | done].
Qed.

Lemma p_run_task t : hkept (run_task cfg t).
Proof.
  destruct t as [h|id h|id| |on h ec|[]]; simpl.
  - unfold run_start, clear_slot. kept_auto; try done. apply p_start_on_strand.
  - apply hkept_at. intros h'. apply pres_run_wait, _.
  - apply hkept_at. intros h'. apply pres_cancel_wait, _.
  - apply p_stop_on_strand.
  - apply hkept_at. intros h'. apply pres_run_dispatch, _.
  - apply p_shutdown_deadline.
  - apply p_session_finished.
  - unfold session_start, async_run, report. kept_auto.
  - apply p_modify_ext.
  - apply p_session_finish.
Qed.

Lemma p_update_registry f : hkept (update_registry f).
Proof.
  apply hkept_at. intros h e w <-. unfold update_registry. eff_step. unfold ListenerPath.At, history_of. simpl. f_equal.
  by destruct (w_registry w).
Qed.

Lemma p_exec a : hkept (exec cfg a).
Proof.
  destruct a as [ex al sl|ex al sl| |op ty|i|s x ec|i|v|id]; simpl.
  - apply hkept_at. intros h'. apply pres_do_async_start, _.
  - apply hkept_at. intros h'. apply pres_do_async_wait, _.
  - apply hkept_nt. intros h'. apply nt_request_stop, _.
  - apply hkept_nt. intros h'. apply nt_emit_cancellation, _.
  - unfold expire_timer. kept_auto; done.
  - unfold session_completes, report. kept_auto.
  - unfold run_posted. kept_auto; try done; apply p_run_task.
  - apply p_update_registry.
  - apply p_update_registry.
Qed.

Lemma p_reach registry n w : reach cfg any_env registry n w -> ListenerPath.Lawful w.
Proof.
  induction 1 as [w Hw | n w w' _ IH Hs].
  - unfold make_listener in Hw. destruct (validate_socket_options _); simplify_eq.
    intros _. split; [constructor | done].
  - destruct Hs as [e a w1 w2 He E | e a w1 w2 x He E];
      pose proof (p_exec a e w1 He IH) as H; unfold wp in H; by rewrite E in H.
Qed.
End Path.
