(* ===== verification/SocketLiveness.v ===== *)
(** * A bound-socket listener that is stopping stops

    As for the acceptor listener: a stopping listener has a deadline, every
    internal action decreases a measure or reaches [stopped], and one is always
    possible.  The environment is [lively]: the executor accepts work, the
    listener is alive and the grace timer can be armed. *)

From S2P Require Import Prelude Errors Effect Options Endpoint Status Observers ListenerBase.
From S2P Require Import ListenerFacts SocketListener SocketFacts Budget.

Definition lively (e : senv) : Prop := good e /\ e_shutdown_timer (e_ext e) = None.

Lemma lively_ok e : lively e -> env_ok true e.
Proof. by intros [? _] _. Qed.

Definition unfinished (w : sworld) (s : nat) : Prop :=
  exists x, b_sessions (w_ext w) !! s = Some x /\ bs_finished x = false.

Definition queued (w : sworld) (t : socket_task) : Prop := exists ex, (ex, TExt t) ∈ w_queue w.

Definition Covered (w : sworld) : Prop := forall s, unfinished w s -> m_session (w_ext w) = Some s.

Definition Deadline (w : sworld) : Prop :=
  b_timers (w_ext w) <> [] \/
  (exists ec, failed ec = false /\ queued w (TShutdownTimer ec)) \/
  (forall s, unfinished w s -> queued w (TSessionForceClose s)).

Record Work (w : sworld) : Prop := {
  wk_covered : Covered w;
  wk_deadline : m_state w = listener_state.stopping -> Deadline w }.

(** ** Changes that keep it *)

Record frame (w w' : sworld) : Prop := {
  fr_state : m_state w' = m_state w;
  fr_session : m_session (w_ext w') = m_session (w_ext w);
  fr_timers : b_timers (w_ext w') = b_timers (w_ext w);
  fr_queue x : x ∈ w_queue w -> x ∈ w_queue w';
  fr_open s : unfinished w' s -> unfinished w s }.

Lemma sock_frame_refl w : frame w w.
Proof. by split. Qed.

Lemma sock_frame_trans w1 w2 w3 : frame w1 w2 -> frame w2 w3 -> frame w1 w3.
Proof. intros [] []. split; (congruence || auto). Qed.

Lemma sock_queued_frame w w' t : frame w w' -> queued w t -> queued w' t.
Proof. intros Hf [ex H]. exists ex. by apply (fr_queue _ _ Hf). Qed.

Lemma sock_covered_frame w w' : frame w w' -> Covered w -> Covered w'.
Proof. intros Hf H s Hs. rewrite (fr_session _ _ Hf). by apply H, (fr_open _ _ Hf). Qed.

Lemma sock_work_frame w w' : frame w w' -> Work w -> Work w'.
Proof.
  intros Hf [Hc Hd]. split; [by apply (sock_covered_frame _ _ Hf)|]. rewrite (fr_state _ _ Hf). intros Hs.
  destruct (Hd Hs) as [Ht|[(ec & He & Hq)|Ha]].
  - left. by rewrite (fr_timers _ _ Hf).
  - right; left. exists ec. split; [done|]. by eapply sock_queued_frame.
  - right; right. intros s Hu. eapply sock_queued_frame; [done|]. by apply Ha, (fr_open _ _ Hf).
Qed.

(** No session is open. *)
Lemma work_none w : (forall s, ~ unfinished w s) -> Work w.
Proof. intros H. split; [intros s Hs; by destruct (H s) | right; right; intros s Hs; by destruct (H s)]. Qed.

Lemma none_unfinished w : open_count w = 0 -> forall s, ~ unfinished w s.
Proof.
  unfold open_count. intros H s (x & Hx & Hf). rewrite (countb_remove_at _ _ _ _ Hx) in H.
  unfold open_session in H. by rewrite Hf in H.
Qed.

Definition Framed (w0 : sworld) (w : sworld) : Prop := frame w0 w.

Lemma sock_frame_push w x : frame w (set_w_queue (w_queue w ++ [x]) w).
Proof. split; simpl; auto. intros y Hy. apply elem_of_app. by left. Qed.

Global Instance framed_insensitive w0 : Insensitive (Framed w0).
Proof.
  split; [split|..]; try (intros ? w H; eapply sock_frame_trans; [exact H|]; by split).
  intros ex t w _ H. eapply sock_frame_trans; [exact H|]. apply sock_frame_push.
Qed.

Global Instance framed_log w0 : LogInsensitive (Framed w0).
Proof. split. intros ev w H. eapply sock_frame_trans; [exact H|]. by split. Qed.

Lemma sock_framed_update s f w0 w :
  (forall x, bs_finished x = true -> bs_finished (f x) = true) ->
  Framed w0 w -> Framed w0 (ext_update (update_session s f) w).
Proof.
  intros Hf H. eapply sock_frame_trans; [exact H|]. split; simpl; auto.
  intros s' (x & Hx & Hfin). simpl in Hx. destruct (decide (s' = s)) as [->|Hne].
  - rewrite list_lookup_alter_eq in Hx. destruct (b_sessions (w_ext w) !! s) as [y|] eqn:Hy; [|done].
    simpl in Hx. injection Hx as <-. exists y. split; [done|].
    destruct (bs_finished y) eqn:E; [|done]. rewrite (Hf y E) in Hfin. done.
  - rewrite list_lookup_alter_ne in Hx by done. by exists x.
Qed.

Section Frames.
Variable w0 : sworld.
Abbreviation fkept m := (kept (E := senv) (S := sworld) any_env (Framed w0) m).

Lemma g_post ex t : fkept (post ex t).
Proof.
  intros e w _ H. apply wp_post; [|done]. intros _. eapply sock_frame_trans; [exact H|]. apply sock_frame_push.
Qed.

Lemma g_update s f :
  (forall x, bs_finished x = true -> bs_finished (f x) = true) ->
  fkept (modify_ext (update_session s f)).
Proof. intros Hf. apply kept_modify. intros w. by apply sock_framed_update. Qed.

Lemma g_get_ext {A} (f : socket_state -> A) : fkept (get_ext f).
Proof. apply kept_gets. Qed.

#[local] Hint Resolve g_post g_get_ext : eff.
#[local] Hint Extern 1 (kept _ _ (modify_ext (update_session _ _))) => (apply g_update; done) : eff.

Lemma g_session_finish s ec ep : fkept (session_finish s ec ep).
Proof.
  apply kept_noexcept; [apply nt_session_finish|]. unfold close_now, session_finished_post. kept_auto.
Qed.
#[local] Hint Resolve g_session_finish : eff.

Lemma g_force_close s : fkept (session_force_close s).
Proof. apply kept_noexcept; [apply nt_force_close|]. kept_auto. Qed.
#[local] Hint Resolve g_force_close : eff.

Lemma g_request_stop s : fkept (session_request_stop s).
Proof. apply kept_noexcept; [apply nt_request_stop'|]. kept_auto. Qed.

Lemma g_session_handler s ec : fkept (session_handler s ec).
Proof. unfold session_handler. kept_auto. Qed.
#[local] Hint Resolve g_session_handler : eff.

Lemma g_session_start s : fkept (session_start s).
Proof. unfold session_start, async_run, report. kept_auto. Qed.

Lemma g_session_completes s x ec : fkept (session_completes s x ec).
Proof. unfold session_completes, report. kept_auto. Qed.
End Frames.

Lemma sock_work_framed {A} (m : SM A) e w :
  (forall w0, kept any_env (Framed w0) m) -> Work w -> wp m e w (fun _ => Work) (fun _ => Work).
Proof.
  intros Hm H. apply (wp_mono _ _ _ (fun _ => Framed w) _ (fun _ => Framed w)).
  { apply (Hm w); [done | apply sock_frame_refl]. }
  all: intros ? w' Hw; eapply sock_work_frame; [exact Hw | exact H].
Qed.

(** ** The listener *)

Section Listener.
Variable cfg : config.

Lemma sock_covered_enter st w : Covered w -> Covered (enter cfg st w).
Proof. done. Qed.

Lemma sock_covered_cancel w : Covered w -> Covered (cancel_timers w).
Proof. done. Qed.

Lemma covered_waiters l w : Covered w -> Covered (set_m_waiters [] (waiters_posted l w)).
Proof. done. Qed.

Lemma sock_stopped_waiters l (w : sworld) :
  m_state (set_m_waiters [] (waiters_posted l (enter cfg listener_state.stopped w))) = listener_state.stopped.
Proof. done. Qed.

Lemma sock_w_finish ec reason e w :
  lively e -> Covered w -> m_state w <> listener_state.stopped ->
  wp (finish cfg ec reason) e w
    (fun _ w' => Work w' /\ m_state w' = listener_state.stopped) (fun _ _ => False).
Proof.
  intros [[He _] _] Hc Hs. unfold finish, state, set_stop_reason, shutdown_timer_cancel. do 2 eff_step.
  rewrite bool_decide_eq_false_2 by done. do 5 eff_step.
  apply (wp_nothrow (Framed w)); [by apply nt_keep_first_error; apply _ | by split |].
  intros [] w1 Hf. do 3 eff_step. apply wp_transition_to. apply wp_complete_waiters; [done|].
  split; [|apply sock_stopped_waiters]. split; [|by rewrite sock_stopped_waiters].
  apply covered_waiters, sock_covered_enter, sock_covered_cancel. by apply (sock_covered_frame _ _ Hf).
Qed.

Lemma sock_w_maybe_finish e w :
  lively e -> Work w ->
  wp (maybe_finish cfg) e w
    (fun _ w' => Work w' /\ (w' = w \/ m_state w' = listener_state.stopped)) (fun _ _ => False).
Proof.
  intros He H. unfold maybe_finish, state, get_ext, stop_reason. do 8 eff_step. eff_step; [|by auto].
  apply andb_true_iff in H0 as [Hs _]. apply bool_decide_eq_true in Hs.
  eapply wp_mono; [apply sock_w_finish; [done | apply H | congruence] | | done]. intros ? ? []. auto.
Qed.

Lemma w_stop_on_strand e w :
  lively e -> Work w -> wp (stop_on_strand cfg) e w (fun _ => Work) (fun _ _ => False).
Proof.
  intros He H. unfold stop_on_strand, state, set_stop_reason, get_ext. do 2 eff_step. eff_step.
  { do 3 eff_step. apply wp_transition_to.
    eapply wp_mono; [apply sock_w_finish; [done | apply H | done] | by intros ? ? [] | done]. }
  eff_step; [by eff_step|]. do 3 eff_step. apply wp_transition_to. do 3 eff_step.
  set (w1 := enter _ _ _). assert (H1 : Covered w1) by exact (wk_covered _ H).
  assert (Hs1 : m_state w1 = listener_state.stopping) by done. clearbody w1. clear - H1 Hs1 He.
  assert (Hend : forall w, Work w -> wp (maybe_finish cfg) e w (fun _ => Work) (fun _ _ => False)).
  { intros w' Hw. eapply wp_mono; [by apply sock_w_maybe_finish | by intros ? ? [] | done]. }
  destruct (m_session (w_ext w1)) as [s|] eqn:Hm.
  2: { eff_step. apply Hend, work_none. intros s Hs%H1. congruence. }
  eff_step.
  eapply (wp_mono _ _ _ (fun _ => Framed w1) _ (fun _ _ => False)); [| |done].
  { destruct He as [[He _] _]. unfold session_request_stop. do 2 eff_step.
    apply wp_post; [intros _; apply sock_frame_push | intros x Hx; by rewrite He in Hx]. }
  intros [] w2 Hf. unfold arm_shutdown_timer, shutdown_timer_cancel, modify_ext. do 4 eff_step.
  - eff_step. apply Hend. split; [exact (sock_covered_frame _ _ Hf H1)|]. intros _. left. simpl. discriminate.
  - destruct He as [_ He]. congruence.
Qed.

Lemma sock_w_shutdown_deadline ec e w :
  lively e -> Covered w -> (failed ec = true -> Work w) ->
  wp (shutdown_deadline cfg ec) e w (fun _ => Work) (fun _ _ => False).
Proof.
  intros [[He _] _] Hc Hw. unfold shutdown_deadline, record_diagnostic, emit, get_ext.
  eff_step; [eff_step; auto|]. do 3 eff_step. apply wp_emit. do 2 eff_step. set (w1 := log_event _ _).
  assert (H1 : Covered w1) by exact Hc. clearbody w1. destruct (m_session (w_ext w1)) as [s|] eqn:Hm.
  - unfold session_force_close. do 2 eff_step. apply wp_post; [|intros x Hx; by rewrite He in Hx].
    intros _. split; [exact H1|]. intros _. right; right. intros s' Hs. apply H1 in Hs. rewrite Hm in Hs.
    injection Hs as <-. exists (connection_strand s). simpl. apply elem_of_app. right. apply list_elem_of_here.
  - eff_step. apply work_none. intros s Hs%H1. congruence.
Qed.

(** Once the session is gone the listener stops. *)
Lemma sock_w_session_finished ec ep e w :
  lively e -> Kept true 1 w ->
  wp (session_finished cfg ec ep) e w
    (fun _ w' => Work w' /\ m_state w' <> listener_state.stopping) (fun _ _ => False).
Proof.
  intros He H. apply drop_session in H. unfold session_finished, modify_ext, emit, state. do 4 eff_step.
  set (w1 := set_m_active_sessions _ _) in *.
  assert (Hn : m_session (w_ext w1) = None /\ forall s, ~ unfinished w1 s).
  { split; [done|]. apply none_unfinished. destruct H as [[Hk _ _] _]. unfold present in Hk. simpl in Hk.
    unfold w1, open_count in *. simpl in *. lia. }
  clearbody w1. clear H. eff_step. apply (wp_nothrow (Framed w1)); [|apply sock_frame_refl|].
  { intros ????. eff_step; [|done]. by apply nt_record_diagnostic; [apply _|]. }
  intros [] w2 H2. eff_step. apply (wp_nothrow (Framed w1)); [by apply nt_emit; apply _ | done |].
  intros [] w3 H3. destruct Hn as [Hn1 Hn2].
  assert (Hn : forall s, ~ unfinished w3 s) by (intros s Hs; by apply (Hn2 s), (fr_open _ _ H3)).
  do 2 eff_step. eff_step.
  - eff_step. apply wp_transition_to. eapply wp_mono; [apply sock_w_finish; [done | | done] | | done].
    + intros s Hs. by destruct (Hn s).
    + intros ? w4 [H4 Hs4]. split; [done | congruence].
  - unfold maybe_finish, state, get_ext, stop_reason. do 8 eff_step.
    rewrite (fr_session _ _ H3), Hn1, (bool_decide_eq_true_2 (None = None)), andb_true_r by done.
    eff_step.
    + apply bool_decide_eq_true in H. eapply wp_mono; [apply sock_w_finish; [done | | congruence] | | done].
      * intros s Hs. by destruct (Hn s).
      * intros ? w4 [H4 Hs4]. split; [done | congruence].
    + apply bool_decide_eq_false in H. split; [by apply work_none | done].
Qed.

(** The session of a stopping listener completes. *)
Lemma session_finished_stops ec ep e w :
  lively e -> m_state w = listener_state.stopping ->
  wp (session_finished cfg ec ep) e w
    (fun _ w' => m_state w' = listener_state.stopped) (fun _ _ => False).
Proof.
  intros He Hs. unfold session_finished, modify_ext, emit, state. do 4 eff_step.
  set (w1 := set_m_active_sessions _ _). assert (H1 : Where listener_state.stopping None w1) by done.
  clearbody w1. eff_step. apply (wp_nothrow (Where listener_state.stopping None)); [|done|].
  { intros ????. eff_step; [|done]. by apply nt_record_diagnostic; [apply _|]. }
  intros [] w2 H2. eff_step.
  apply (wp_nothrow (Where listener_state.stopping None)); [by apply nt_emit; apply _ | done |].
  intros [] w3 [Hs3 Hn3]. do 2 eff_step. rewrite Hs3, bool_decide_eq_false_2 by done.
  unfold maybe_finish, state, get_ext, stop_reason. do 8 eff_step. rewrite Hs3, Hn3.
  rewrite !bool_decide_eq_true_2 by done. unfold when, finish, state, set_stop_reason, shutdown_timer_cancel.
  simpl. do 2 eff_step. rewrite bool_decide_eq_false_2 by congruence. do 5 eff_step.
  apply (wp_nothrow anywhere); [by apply nt_keep_first_error; apply _ | done |].
  intros [] w4 _. do 3 eff_step. apply wp_transition_to.
  destruct He as [[He _] _]. by apply wp_complete_waiters.
Qed.

Lemma work_other w : Covered w -> m_state w <> listener_state.stopping -> Work w.
Proof. intros Hc Hs. by split. Qed.

(** A failed start: the handler is completed and the listener stops. *)
Lemma w_fail h ec e w :
  lively e -> Covered w -> m_state w = listener_state.starting ->
  wp (complete_on listener_strand h ec;; finish cfg ec listener_stop_reason.startup_failure)%eff e w
    (fun _ => Work) (fun _ => Work).
Proof.
  intros He Hc Hs. eff_step. apply (wp_pres (Framed w)); [apply pres_complete_on, _ | apply sock_frame_refl | |].
  - intros [] w1 Hf. eapply wp_mono; [apply sock_w_finish; [done | by apply (sock_covered_frame _ _ Hf) |] | |done].
    + rewrite (fr_state _ _ Hf). congruence.
    + by intros ? ? [].
  - intros x w1 Hf. apply work_other; [by apply (sock_covered_frame _ _ Hf) | rewrite (fr_state _ _ Hf); congruence].
Qed.

Lemma sock_w_start_on_strand h e w :
  lively e -> Work w -> Inv true w -> wp (start_on_strand cfg h) e w (fun _ => Work) (fun _ => Work).
Proof.
  intros He H [[Hk _ _] Hp]. unfold start_on_strand, state, clear_diagnostics, emit, get_ext, modify_ext.
  do 2 eff_step. eff_step; [by apply (sock_work_framed (complete_on _ _ _)); [intros; apply g_post|]|].
  eff_step; [by apply (sock_work_framed (complete_on _ _ _)); [intros; apply g_post|]|].
  assert (Hn : forall s, ~ unfinished w s).
  { apply none_unfinished. unfold Placed, present in *.
    assert (Ho : m_session (w_ext w) = None) by (by destruct (m_state w)). rewrite Ho in Hk. simpl in Hk. lia. }
  do 7 eff_step. apply wp_transition_to. set (w0 := set_m_last_exception _ _).
  assert (H0 : forall s, ~ unfinished w0 s) by exact Hn. clearbody w0.
  assert (H1 : forall s, ~ unfinished (enter cfg listener_state.starting w0) s) by exact H0.
  assert (Hs1 : m_state (enter cfg listener_state.starting w0) = listener_state.starting) by done.
  revert H1 Hs1. generalize (enter cfg listener_state.starting w0). clear - He. intros w1 H1 Hs1.
  eff_step. eff_step; [|by apply work_none]. eff_step.
  apply (wp_nothrow (fun w => w = w1)); [|done|].
  { intros e' w' X' Hw. unfold bind_socket. do 2 eff_step. eff_step.
    destruct (c_configured_endpoint cfg) as [a p| |]; repeat eff_step; done. }
  intros ec w2 ->. assert (Hc1 : Covered w1) by (intros s Hs; by destruct (H1 s)).
  eff_step; [by apply w_fail|]. do 7 eff_step.
  - unfold record_diagnostic. do 3 eff_step. apply wp_emit. by apply w_fail.
  - do 7 eff_step. set (w2 := set_m_active_sessions _ _). assert (H2 : Covered w2).
    { intros s (x & Hx & Hf). simpl in *. f_equal.
      apply lookup_app_Some in Hx as [Hx|[Hlen Hx]]; [by destruct (H1 s); exists x|].
      apply list_lookup_singleton_Some in Hx as [? _]. lia. }
    clearbody w2. apply wp_transition_to. eff_step. apply wp_emit.
    assert (H3 : Work (log_event (event_of cfg session_started no_connection success None
                         (enter cfg listener_state.running w2)) (enter cfg listener_state.running w2))).
    { by apply work_other. }
    revert H3. generalize (log_event (event_of cfg session_started no_connection success None
      (enter cfg listener_state.running w2)) (enter cfg listener_state.running w2)). intros w3 H3. apply (sock_work_framed (_ ;; _)%eff); [|done]. intros w0.
    apply kept_bind; [apply g_post | intros; apply g_post].
Qed.

Definition deadline_task (t : task socket_task) : bool :=
  match t with
  | TExt (TShutdownTimer ec) => negb (failed ec)
  | TExt (TSessionForceClose _) => true
  | _ => false
  end.

Lemma sock_work_dequeue i ex t w :
  w_queue w !! i = Some (ex, t) -> deadline_task t = false -> Work w ->
  Work (set_w_queue (remove_at i (w_queue w)) w).
Proof.
  intros Hi Ht [Hc Hd]. split; [exact Hc|]. intros Hs.
  assert (Hq : forall t', deadline_task (TExt t') = true -> queued w t' ->
                 queued (set_w_queue (remove_at i (w_queue w)) w) t').
  { intros t' Ht' [ex' Hq]. exists ex'. simpl. eapply elem_of_remove_at; [done..|].
    intros [= _ <-]. congruence. }
  destruct (Hd Hs) as [Hl|[(ec & He & H)|H]]; [by left | right; left | right; right].
  - exists ec. split; [done|]. apply Hq; [|done]. simpl. by rewrite He.
  - intros s Hu. by apply Hq, H.
Qed.

(** The forced close of the session runs. *)
Lemma sock_w_run_force_close i ex s e w :
  lively e -> Work w -> w_queue w !! i = Some (ex, TExt (TSessionForceClose s)) ->
  wp (run_force_close s) e (set_w_queue (remove_at i (w_queue w)) w) (fun _ => Work) (fun _ => Work).
Proof.
  intros [[He Ho] _] [Hc Hd] Hi. set (w1 := set_w_queue _ w).
  assert (Hfr := g_session_finish w1 s operation_aborted None e w1 I (sock_frame_refl w1)).
  assert (Hfin : wp (run_force_close s) e w1 (fun _ w' => ~ unfinished w' s) (fun _ w' => ~ unfinished w' s)).
  { unfold run_force_close, session_finish, close_now, get_ext, modify_ext, session_finished_post. do 3 eff_step.
    destruct (b_sessions (w_ext w1) !! s) as [x|] eqn:Hx.
    2: { eff_step. intros (y & Hy & _). congruence. }
    destruct (bs_finished x) eqn:Hf; [eff_step; intros (y & Hy & Hyf); congruence|].
    do 7 eff_step. rewrite Ho. eff_step; [|done]. apply wp_post; [|intros y Hy; by rewrite He in Hy].
    intros _ (y & Hy & Hyf). simpl in Hy. rewrite !list_lookup_alter_eq in Hy.
    change (b_sessions (w_ext w) !! s = Some x) in Hx. rewrite Hx in Hy. simpl in Hy. by injection Hy as <-. }
  eapply wp_mono; [apply (wp_conj _ _ _ _ _ _ _ Hfin Hfr) | |]; simpl; intros ? w' [Hn Hf].
  all: split; [by apply (sock_covered_frame _ _ Hf)|].
  all: rewrite (fr_state _ _ Hf); intros Hs; destruct (Hd Hs) as [Hl|[(ec & He' & ex' & H)|H]].
  all: try (left; by rewrite (fr_timers _ _ Hf)).
  all: try (right; left; exists ec; split; [done|]; exists ex'; apply (fr_queue _ _ Hf);
            by eapply elem_of_remove_at).
  all: right; right; intros s' Hu; destruct (decide (s' = s)) as [->|Hne]; [done|].
  all: destruct (H s' (fr_open _ _ Hf s' Hu)) as [ex' Hq]; exists ex'; apply (fr_queue _ _ Hf).
  all: eapply elem_of_remove_at; [done | done | congruence].
Qed.

Lemma sock_w_run_task i ex t e w :
  lively e -> Work w -> Inv true w -> w_queue w !! i = Some (ex, t) ->
  wp (run_task cfg t) e (set_w_queue (remove_at i (w_queue w)) w) (fun _ => Work) (fun _ => Work).
Proof.
  intros He H [Hk Hp] Hi. destruct (deadline_task t) eqn:Hd.
  { destruct t as [| | | | |[ec| | | |s]]; try done.
    - eapply wp_mono; [apply sock_w_shutdown_deadline; [done | exact (wk_covered _ H) |] | done | done].
      simpl in Hd. intros Hf. by rewrite Hf in Hd.
    - by apply (sock_w_run_force_close i ex s). }
  assert (H1 := sock_work_dequeue _ _ _ _ Hi Hd H). assert (Hk1 := kept_dequeue true _ _ _ Hi Hk).
  set (w1 := set_w_queue _ w) in *. assert (Hp1 : Placed w1) by exact Hp. clearbody w1.
  destruct t as [h|id h|id| |on h ec|[]]; simpl in *; try done.
  - unfold run_start, clear_slot. do 4 eff_step.
    set (w2 := set_w_slots _ w1). assert (Hf : frame w1 w2) by (by split).
    assert (H2 : Work w2) by (by apply (sock_work_frame _ _ Hf)).
    assert (Hi2 : Inv true w2) by (destruct Hk1; split; [by split | exact Hp1]). clearbody w2.
    eff_step; [by apply (sock_work_framed (complete_on _ _ _)); [intros; apply g_post|]|].
    by apply sock_w_start_on_strand.
  - apply sock_work_framed; [intros w0; apply kept_pres, pres_run_wait, _ | done].
  - apply sock_work_framed; [intros w0; apply kept_pres, pres_cancel_wait, _ | done].
  - eapply wp_mono; [by apply w_stop_on_strand | done | done].
  - apply sock_work_framed; [intros w0; apply kept_pres, pres_run_dispatch, _ | done].
  - eapply wp_mono; [apply sock_w_shutdown_deadline; [done | exact (wk_covered _ H1) | done] | done | done].
  - eapply wp_mono; [by apply sock_w_session_finished | by intros ? ? [] | done].
  - apply sock_work_framed; [intros w0; apply g_session_start | done].
  - apply sock_work_framed; [intros w0; by apply g_update | done].
Qed.

Lemma work_expire i d w :
  b_timers (w_ext w) !! i = Some d -> Work w ->
  Work (set_w_queue (w_queue w ++ [(listener_strand, TExt (TShutdownTimer success))])
    (ext_update (set_b_timers (remove_at i (b_timers (w_ext w)))) w)).
Proof.
  intros Hi [Hc Hd]. split; [exact Hc|]. intros Hs. right; left. exists success. split; [done|].
  exists listener_strand. simpl. apply elem_of_app. right. apply list_elem_of_here.
Qed.

Lemma sock_w_exec a e w :
  lively e -> Work w -> Inv true w -> wp (exec cfg a) e w (fun _ => Work) (fun _ => Work).
Proof.
  intros He H Hi. destruct a as [ex al sl|ex al sl| |op ty|i|s x ec|i|v|id]; simpl.
  - apply sock_work_framed; [intros w0; apply kept_pres, pres_do_async_start, _ | done].
  - apply sock_work_framed; [intros w0; apply kept_pres, pres_do_async_wait, _ | done].
  - apply sock_work_framed; [intros w0; apply kept_nothrow, nt_request_stop, _ | done].
  - apply sock_work_framed; [intros w0; apply kept_nothrow, nt_emit_cancellation, _ | done].
  - unfold expire_timer, get_ext, modify_ext. do 2 eff_step. eff_step; [|by eff_step].
    do 3 eff_step. exact (work_expire i _ w Heqo H).
  - apply sock_work_framed; [intros w0; apply g_session_completes | done].
  - unfold run_posted. do 2 eff_step. destruct (w_queue w !! i) as [[ex t]|] eqn:Hq; [|by eff_step].
    do 2 eff_step. by apply (sock_w_run_task i ex).
  - unfold update_registry. eff_step. apply (sock_work_frame w); [by split | exact H].
  - unfold update_registry. eff_step. apply (sock_work_frame w); [by split | exact H].
Qed.

(** ** The measure *)

Definition task_weight (t : task socket_task) : nat :=
  match t with
  | TStart _ | TWait _ _ | TCancelWait _ => 2
  | TStop | TDispatch _ _ _ => 1
  | TExt (TShutdownTimer _) => 3
  | TExt (TSessionStart _) => 4
  | TExt (TSessionForceClose _) => 2
  | TExt _ => 1
  end.

Definition session_weight (x : bound_session) : nat := if bs_session x then 2 else 0.

Definition measure (w : sworld) : nat :=
  sum_list_with (fun x => task_weight (snd x)) (w_queue w) + 4 * length (b_timers (w_ext w)) +
  sum_list_with session_weight (b_sessions (w_ext w)).

Definition Bud (b : nat) (w : sworld) : Prop :=
  m_state w = listener_state.stopped \/ (m_state w = listener_state.stopping /\ measure w <= b).

Global Instance bud_graded : Graded Bud.
Proof. intros b b' w Hb [H|[H ?]]; [by left | right; split; [done|lia]]. Qed.

Global Instance bud_meta b : MetaInsensitive (Bud b).
Proof. split; intros ? w H; exact H. Qed.

Abbreviation spends d m := (Budget.spends lively Bud d m).

Lemma sock_bud_push b ex t w :
  Bud b w -> Bud (b + task_weight t) (set_w_queue (w_queue w ++ [(ex, t)]) w).
Proof.
  intros [H|[H Hb]]; [by left | right]. split; [done|]. unfold measure in *. simpl.
  rewrite sum_list_with_app. simpl. lia.
Qed.

Lemma sock_spends_post ex t : spends (task_weight t) (post ex t).
Proof.
  intros b e w He H. apply wp_post; [intros _; by apply sock_bud_push|].
  intros x _. eapply graded_mono; [|exact H]. lia.
Qed.

Lemma sock_bud_update b d s f w :
  (forall x, session_weight (f x) <= session_weight x + d) -> Bud b w ->
  Bud (b + d) (ext_update (update_session s f) w).
Proof.
  intros Hf [H|[H Hb]]; [by left | right]. split; [done|]. unfold measure in *. simpl.
  pose proof (sum_alter session_weight f d s (b_sessions (w_ext w)) Hf). lia.
Qed.

Lemma sock_spends_update s f d :
  (forall x, session_weight (f x) <= session_weight x + d) -> spends d (modify_ext (update_session s f)).
Proof. intros Hf b e w He H. unfold modify_ext. eff_step. by apply sock_bud_update. Qed.

Ltac weigh := intros; unfold session_weight; simpl; lia.

Lemma spends_finish s ec ep : spends 1 (session_finish s ec ep).
Proof.
  intros b e w He H. unfold session_finish, close_now, session_finished_post, get_ext, modify_ext.
  assert (H' : Bud (b + 1) w) by (eapply graded_mono; [|exact H]; lia).
  do 3 eff_step. eff_step; [|by eff_step]. eff_step; [by eff_step|]. do 7 eff_step.
  assert (H1 : Bud b (ext_update (update_session s (set_bs_socket_open false))
                       (ext_update (update_session s (set_bs_finished true)) w))).
  { rewrite <- (Nat.add_0_r b), <- (Nat.add_0_r (b + 0)). apply sock_bud_update; [weigh|].
    apply sock_bud_update; [weigh | done]. }
  eff_step; [|eapply graded_mono; [|exact H1]; lia]. apply wp_post.
  - intros _. by apply (sock_bud_push b listener_strand (TExt (TSessionFinished ec ep))).
  - intros x _. eff_step. eapply graded_mono; [|exact H1]; lia.
Qed.

Lemma spends_handler s ec : spends 1 (session_handler s ec).
Proof.
  unfold session_handler. apply (spends_bind 0 1); [apply spends_gets|]. intros l.
  destruct (l !! s); [|by eapply spends_mono; [|apply spends_ret]; lia].
  apply (spends_bind 0 1); [apply sock_spends_update; weigh | intros; apply spends_finish].
Qed.

Lemma sock_spends_report s x : spends 0 (report s x).
Proof. destruct x; [apply sock_spends_update; weigh | apply spends_ret]. Qed.

Lemma spends_session_start s : spends 3 (session_start s).
Proof.
  unfold session_start, async_run. apply (spends_try 2 1); [|intros; apply spends_finish].
  apply (spends_bind 0 2); [apply spends_asks|]. intros run.
  apply (spends_bind 0 2); [apply sock_spends_report|]. intros _. apply (spends_bind 2 0).
  - destruct (s_complete run).
    + eapply spends_mono; [|apply spends_handler]. lia.
    + apply sock_spends_update. intros x. unfold session_weight. simpl. destruct (bs_session x); lia.
  - intros _. destruct (s_throw run); [apply spends_throw | apply spends_ret].
Qed.

Lemma sock_spends_session_completes s x ec e w b y :
  lively e -> m_state w = listener_state.stopping -> measure w <= S b ->
  b_sessions (w_ext w) !! s = Some y -> bs_session y = true ->
  wp (session_completes s x ec) e w (fun _ => Bud b) (fun _ => Bud b).
Proof.
  intros He Hst Hb Hy Hs. unfold session_completes, get_ext, modify_ext. do 2 eff_step.
  rewrite Hy, Hs. unfold when. do 2 eff_step. set (w1 := ext_update _ w).
  assert (Hm : measure w1 + 2 = measure w).
  { assert (E := sum_spend session_weight (set_bs_session false) 2 s _ y Hy).
    unfold session_weight in E at 1 2. simpl in E. rewrite Hs in E. specialize (E eq_refl).
    unfold measure in *. simpl. lia. }
  assert (H1 : Bud (pred b) w1) by (right; split; [exact Hst | lia]).
  replace b with (pred b + (0 + 1)) by lia.
  apply (spends_bind (ok := lively) 0 1); [apply sock_spends_report | intros; apply spends_handler | done | done].
Qed.

(** ** Tasks of a stopping listener *)

Lemma sock_spends_complete_on ex h ec : spends 1 (complete_on ex h ec).
Proof. apply sock_spends_post. Qed.

Lemma bud_stopping b w : m_state w = listener_state.stopping -> measure w <= b -> Bud b w.
Proof. by right. Qed.

Lemma sock_measure_dequeue i ex t w :
  w_queue w !! i = Some (ex, t) ->
  measure w = task_weight t + measure (set_w_queue (remove_at i (w_queue w)) w).
Proof. intros Hi. unfold measure. simpl. rewrite (sum_remove_at _ _ _ _ Hi) at 1. simpl. lia. Qed.

Lemma sock_spent_run_start h b e w :
  lively e -> m_state w = listener_state.stopping -> measure w <= b ->
  wp (run_start (start_on_strand cfg) h) e w (fun _ => Bud (b + 1)) (fun _ => Bud (b + 1)).
Proof.
  intros He Hs Hb. unfold run_start, start_on_strand, clear_slot, state. do 4 eff_step.
  assert (H : Bud b (set_w_slots (delete (h_op h) (w_slots w)) w)) by (right; split; [exact Hs | exact Hb]).
  eff_step; [by apply sock_spends_complete_on|]. do 2 eff_step.
  change (m_state (set_w_slots (delete (h_op h) (w_slots w)) w)) with (m_state w). rewrite Hs.
  rewrite !bool_decide_eq_false_2 by done. simpl. by apply sock_spends_complete_on.
Qed.

Lemma sock_spent_run_wait id h b e w :
  lively e -> m_state w = listener_state.stopping -> measure w <= b ->
  wp (run_wait id h) e w (fun _ => Bud (b + 1)) (fun _ => Bud (b + 1)).
Proof.
  intros He Hs Hb. unfold run_wait, state, clear_slot. do 4 eff_step.
  assert (H : forall l, Bud b (set_w_slots l w)) by (intros; right; split; [exact Hs | exact Hb]).
  eff_step; [do 2 eff_step; by apply sock_spends_complete_on|].
  rewrite Hs. rewrite !bool_decide_eq_false_2 by done. eff_step.
  right. split; [exact Hs|]. unfold measure in *. simpl. lia.
Qed.

Lemma sock_spent_cancel_wait id b e w :
  lively e -> m_state w = listener_state.stopping -> measure w <= b ->
  wp (cancel_wait id) e w (fun _ => Bud (b + 1)) (fun _ => Bud (b + 1)).
Proof.
  intros He Hs Hb. unfold cancel_wait, ListenerBase.cancel_wait, clear_slot. do 2 eff_step.
  eff_step; [|eff_step; right; split; [done|lia]]. do 4 eff_step.
  apply sock_spends_complete_on; [done|]. right. split; [exact Hs | exact Hb].
Qed.

Lemma sock_spent_shutdown_deadline ec b e w :
  lively e -> m_state w = listener_state.stopping -> measure w <= b ->
  wp (shutdown_deadline cfg ec) e w (fun _ => Bud (b + 2)) (fun _ => Bud (b + 2)).
Proof.
  intros [[He _] _] Hs Hb. unfold shutdown_deadline, record_diagnostic, emit, get_ext.
  eff_step; [eff_step; right; split; [done|lia]|]. do 3 eff_step. apply wp_emit. do 2 eff_step.
  set (w1 := log_event _ _). assert (H1 : Bud b w1) by (right; split; [exact Hs | exact Hb]). clearbody w1.
  eff_step; [|eff_step; eapply graded_mono; [|exact H1]; lia].
  unfold session_force_close. do 2 eff_step. apply wp_post; [|intros x Hx; by rewrite He in Hx].
  intros _. exact (sock_bud_push b _ (TExt (TSessionForceClose n)) w1 H1).
Qed.

Lemma sock_spent_run_posted i e w x :
  lively e -> Inv true w -> m_state w = listener_state.stopping -> w_queue w !! i = Some x ->
  wp (run_posted cfg i) e w (fun _ => Bud (pred (measure w))) (fun _ => Bud (pred (measure w))).
Proof.
  intros He [Hk Hp] Hs Hi. destruct x as [ex t]. unfold run_posted. do 2 eff_step. rewrite Hi. do 2 eff_step.
  assert (Hk1 := kept_dequeue true _ _ _ Hi Hk).
  set (w1 := set_w_queue _ w) in *. assert (Hm := sock_measure_dequeue _ _ _ _ Hi). fold w1 in Hm.
  assert (Hs1 : m_state w1 = listener_state.stopping) by done. clearbody w1.
  apply (wp_mono _ _ _ (fun _ => Bud (measure w1 + pred (task_weight t))) _
                       (fun _ => Bud (measure w1 + pred (task_weight t)))).
  2,3: intros ? w' H'; (eapply (bud_le (Bud := Bud)); [|exact H']); rewrite Hm; destruct t as [| | | | |[]]; simpl; lia.
  assert (H1 : Bud (measure w1) w1) by (by right).
  destruct t as [h|id h|id| |on h ec|[]]; simpl in *.
  - by apply sock_spent_run_start.
  - by apply sock_spent_run_wait.
  - by apply sock_spent_cancel_wait.
  - unfold stop_on_strand, state. do 2 eff_step. rewrite Hs1, !bool_decide_eq_false_2 by done. simpl. eff_step.
    by rewrite Nat.add_0_r.
  - rewrite Nat.add_0_r. unfold run_dispatch. eff_step; by eff_step.
  - by apply sock_spent_shutdown_deadline.
  - eapply wp_mono; [by apply session_finished_stops | by left | done].
  - by apply (spends_session_start s).
  - apply (sock_spends_update s (set_bs_signalled true) 0); [weigh | done | done].
  - by apply (spends_finish s).
Qed.

Lemma spent_expire i e w d :
  m_state w = listener_state.stopping -> b_timers (w_ext w) !! i = Some d ->
  wp (expire_timer i) e w (fun _ => Bud (pred (measure w))) (fun _ => Bud (pred (measure w))).
Proof.
  intros Hs Hi. unfold expire_timer, get_ext, modify_ext. do 2 eff_step. rewrite Hi. do 3 eff_step.
  right. split; [exact Hs|]. unfold measure. simpl. rewrite sum_list_with_app. simpl.
  pose proof (Permutation_length (remove_at_perm _ _ _ Hi)) as Hl. simpl in Hl. lia.
Qed.

(** ** Inevitability *)

Inductive internal_action (w : sworld) : action -> Prop :=
| internal_run i : i < length (w_queue w) -> internal_action w (ARun i)
| internal_timer i : i < length (b_timers (w_ext w)) -> internal_action w (ATimer i)
| internal_session s x ec y :
    b_sessions (w_ext w) !! s = Some y -> bs_session y = true -> internal_action w (ASession s x ec).

Inductive internal_step (w w' : sworld) : Prop :=
| internal_ret e a : lively e -> internal_action w a -> exec cfg a e w = Ret tt w' -> internal_step w w'
| internal_throw e a x :
    lively e -> internal_action w a -> exec cfg a e w = Throw x w' -> internal_step w w'.

Inductive inevitably_stopped (w : sworld) : Prop :=
| already_stopped : m_state w = listener_state.stopped -> inevitably_stopped w
| still_stopping :
    m_state w = listener_state.stopping ->
    (exists w', internal_step w w') ->
    (forall w', internal_step w w' -> inevitably_stopped w') ->
    inevitably_stopped w.

Lemma sock_internal_wp a e w :
  lively e -> internal_action w a -> Work w -> Inv true w -> m_state w = listener_state.stopping ->
  wp (exec cfg a) e w
    (fun _ w' => (Work w' /\ Inv true w') /\ Bud (pred (measure w)) w')
    (fun _ w' => (Work w' /\ Inv true w') /\ Bud (pred (measure w)) w').
Proof.
  intros He Ha Hw Hi Hst.
  assert (Hbud : wp (exec cfg a) e w (fun _ => Bud (pred (measure w))) (fun _ => Bud (pred (measure w)))).
  { destruct Ha as [i Hx|i Hx|s x ec y Hy Hc]; simpl.
    - apply lookup_lt_is_Some in Hx as [t Hx]. by eapply sock_spent_run_posted.
    - apply lookup_lt_is_Some in Hx as [t Hx]. by eapply spent_expire.
    - eapply sock_spends_session_completes; [done | done | | done | done]. lia. }
  pose proof (sock_w_exec a e w He Hw Hi) as H1. pose proof (i_exec cfg true a e w (lively_ok _ He) Hi) as H2.
  unfold wp in *. destruct (exec cfg a e w); done.
Qed.

Lemma sock_internal_progress w :
  Work w -> Inv true w -> m_state w = listener_state.stopping -> exists a, internal_action w a.
Proof.
  intros [Hc Hd] [[Hk _ Hb] Hp] Hst.
  assert (Hq : w_queue w <> [] \/ b_timers (w_ext w) <> []).
  { destruct (Hd Hst) as [H|[(ec & _ & ex & H)|H]]; [by right | |].
    - left. intros E. rewrite E in H. by apply elem_of_nil in H.
    - left. intros E. unfold Placed in Hp. rewrite Hst in Hp. destruct Hp as [s Hs].
      unfold present, finished_count in Hk. rewrite Hs, E, countb_nil in Hk. simpl in Hk.
      assert (Ho : open_count w = 1) by lia. unfold open_count, countb in Ho.
      destruct (List.filter open_session (b_sessions (w_ext w))) as [|y l] eqn:Ef; [done|].
      assert (Hy : y ∈ List.filter open_session (b_sessions (w_ext w))) by (rewrite Ef; apply list_elem_of_here).
      apply list_elem_of_In, filter_In in Hy as [Hy Hf].
      apply list_elem_of_In, list_elem_of_lookup in Hy as [j Hy].
      unfold open_session in Hf. apply negb_true_iff in Hf.
      destruct (H j (ex_intro _ y (conj Hy Hf))) as [ex Hq]. rewrite E in Hq. by apply elem_of_nil in Hq. }
  destruct Hq as [Hq|Hq].
  - exists (ARun 0). constructor. destruct (w_queue w); [done | simpl; lia].
  - exists (ATimer 0). constructor. destruct (b_timers (w_ext w)); [done | simpl; lia].
Qed.

Lemma sock_measure_pos w a : internal_action w a -> 0 < measure w.
Proof.
  unfold measure. intros [i Hi|i Hi|s x ec y Hy Hc].
  - apply lookup_lt_is_Some in Hi as [[ex t] Hi]. rewrite (sum_remove_at _ _ _ _ Hi).
    destruct t as [| | | | |[]]; simpl; lia.
  - lia.
  - rewrite (sum_remove_at session_weight _ _ _ Hy). unfold session_weight at 1. rewrite Hc. lia.
Qed.

Lemma sock_stopping_stops b w :
  measure w <= b -> Work w -> Inv true w -> m_state w = listener_state.stopping ->
  (exists e, lively e) -> inevitably_stopped w.
Proof.
  intros Hm Hw Hi Hst [e0 He0]. revert w Hm Hw Hi Hst. induction b as [|b IH]; intros w Hm Hw Hi Hst.
  { destruct (sock_internal_progress w Hw Hi Hst) as [a Ha%sock_measure_pos]. lia. }
  apply still_stopping; [done | |].
  - destruct (sock_internal_progress w Hw Hi Hst) as [a Ha].
    pose proof (sock_internal_wp a e0 w He0 Ha Hw Hi Hst) as H. unfold wp in H.
    destruct (exec cfg a e0 w) as [[] w'|x w'|w'] eqn:E; [| |done].
    + exists w'. by eapply internal_ret.
    + exists w'. by eapply internal_throw.
  - intros w' Hs.
    assert (H : (Work w' /\ Inv true w') /\ Bud (pred (measure w)) w') by
      (destruct Hs as [e a He Ha E | e a x He Ha E];
       pose proof (sock_internal_wp a e w He Ha Hw Hi Hst) as H; unfold wp in H; by rewrite E in H).
    destruct H as [[Hw' Hi'] [Hs'|[Hs' Hb]]]; [by apply already_stopped | apply IH; [lia | done..]].
Qed.

Lemma sock_work_reach registry n w : reach cfg lively registry n w -> Work w /\ Inv true w.
Proof.
  intros Hr. assert (Hi : Inv true w) by (eapply (i_reach cfg true lively); [apply lively_ok | exact Hr]).
  split; [|done]. clear Hi. induction Hr as [w Hw | n w w' Hr IH Hs].
  - unfold make_listener in Hw. destruct (validate_socket_options _); simplify_eq.
    apply work_none. intros s (x & Hx & _). by destruct s.
  - assert (Hi : Inv true w) by (eapply (i_reach cfg true lively); [apply lively_ok | exact Hr]).
    destruct Hs as [e a w1 w2 He E | e a w1 w2 x He E];
      pose proof (sock_w_exec a e w1 He IH Hi) as H; unfold wp in H; by rewrite E in H.
Qed.
End Listener.
