(* ===== verification/SocketTheorems.v ===== *)
(** * The bound-socket listener: what it guarantees

    The properties of [basic_socket_listener] on reachable listeners, and the
    concrete executions their witnesses use; executions worth knowing. *)

From S2P Require Import Prelude Errors Effect Options Endpoint Status Observers ListenerBase.
From S2P Require Import ListenerFacts ListenerPath ListenerAccount SocketListener SocketFacts.
From S2P Require Import SocketAccount SocketLiveness.

Local Open Scope Z_scope.

(** ** A concrete listener *)

Definition socket_demo : config :=
  mk_config 2 (ip_endpoint (mk_address "::1" true) 9000) default_options.

Definition socket_calm : senv :=
  mk_env (fun _ _ => None)
    {| e_socket := None; e_open := success; e_v6_only := success; e_reuse_address := success;
       e_bind := success; e_local_endpoint := inr (ip_endpoint (mk_address "::1" true) 9000);
       e_factory := None; e_shutdown_timer := None; e_owner := true;
       e_session := fun _ => mk_session_run None None None |}.

Definition socket_registry : option observer_registry := Some (snd (add 1%N empty_registry)).

Definition socket_begin : sworld := initial_world socket_demo socket_registry.

Definition socket_after (l : list action) : sworld :=
  default socket_begin (run_trace socket_demo (map (pair socket_calm) l) socket_begin).

(** Started with one wait pending; asked to stop; stopped after its session
    completes. *)
Definition socket_running : list action :=
  [AStart None None false; AWait None None false; ARun 0; ARun 0; ARun 0; ARun 0].
Definition socket_stopping : list action := socket_running ++ [ARequestStop; ARun 0].
Definition socket_stopped : list action :=
  socket_stopping ++ [ARun 0; ASession 0 None success; ARun 0; ARun 0; ARun 0].

Lemma socket_after_reach (ok : senv -> Prop) l :
  ok socket_calm ->
  bool_decide (run_trace socket_demo (map (pair socket_calm) l) socket_begin = None) = false ->
  reach socket_demo ok socket_registry (length l) (socket_after l).
Proof.
  intros He Hl. unfold socket_after. destruct (run_trace socket_demo _ _) as [w|] eqn:E; [|done].
  rewrite <- (length_map (pair socket_calm) l).
  apply (sock_run_trace_reach socket_demo ok socket_registry _ 0 socket_begin); [|by constructor | done].
  apply Forall_map, Forall_true. by intros.
Qed.

Lemma socket_calm_lively : lively socket_calm.
Proof. by repeat split. Qed.

(** ** Theorems *)

(** C5: a bound-socket listener that is stopping stops, provided the executor accepts
    every post, the listener is alive and the grace timer can be armed (an exception of
    the timer escapes, see [grace_timer_exception_escapes]): every sequence of internal
    actions reaches [stopped], and one is possible until then. *)
Theorem stopping_socket_stops cfg registry n w :
  reach cfg lively registry n w -> m_state w = listener_state.stopping -> inevitably_stopped cfg w.
Proof.
  intros Hr Hs. destruct (sock_work_reach cfg registry n w Hr) as [Hw Hi].
  eapply sock_stopping_stops; [done | done | done | done |]. exists socket_calm. apply socket_calm_lively.
Qed.

Lemma stopping_socket_stops_witness :
  m_state (socket_after socket_stopping) = listener_state.stopping /\
  inevitably_stopped socket_demo (socket_after socket_stopping).
Proof.
  split; [by vm_compute|].
  apply (stopping_socket_stops socket_demo socket_registry (length socket_stopping)
    (socket_after socket_stopping) (socket_after_reach lively socket_stopping socket_calm_lively eq_refl)).
  by vm_compute.
Defined.

(** C16: whatever fails, the listener has a session exactly in the states
    [running] and [stopping], [active_sessions] is 1 then and 0 otherwise, and
    at most one session object is not finished. *)
Theorem socket_has_one_session cfg registry n w :
  reach cfg any_env registry n w ->
  (m_session (w_ext w) <> None <->
     m_state w = listener_state.running \/ m_state w = listener_state.stopping) /\
  m_active_sessions w = (if m_session (w_ext w) is Some _ then 1 else 0) /\
  (open_count w <= 1)%nat.
Proof.
  intros Hr. destruct (i_reach cfg false any_env registry n w ltac:(done) Hr) as [[Hk Ha _] Hp].
  unfold Placed, present in *. simpl in Hk. split_and!.
  - destruct (m_state w), (m_session (w_ext w)); split; intros; destruct_or?; try done; (by left) || by right.
  - rewrite Ha. by destruct (m_session (w_ext w)).
  - destruct (m_session (w_ext w)); lia.
Qed.

Lemma socket_has_one_session_witness :
  m_session (w_ext (socket_after socket_stopping)) = Some 0%nat /\
  m_active_sessions (socket_after socket_stopping) = 1.
Proof.
  split; [by vm_compute|].
  exact (proj1 (proj2 (socket_has_one_session socket_demo socket_registry (length socket_stopping)
    (socket_after socket_stopping) (socket_after_reach any_env socket_stopping I eq_refl)))).
Defined.

(** C17: every operation initiated on a bound-socket listener is in exactly one
    place: completed, a pending waiter, or a posted closure that owns its
    handler, while the executor accepts work and sockets can be created. *)
Theorem socket_completions_exactly_once cfg registry n w :
  reach cfg calm_start registry n w -> accounted w ≡ₚ seq 0 (w_next_op w).
Proof. intros Hr. apply (a_reach cfg true calm_start registry n); [by intros e He _ | done]. Qed.

Lemma socket_completions_exactly_once_witness :
  accounted (socket_after socket_stopped) ≡ₚ seq 0 2.
Proof.
  exact (socket_completions_exactly_once socket_demo socket_registry (length socket_stopped)
    (socket_after socket_stopped)
    (socket_after_reach calm_start socket_stopped (conj (fun _ _ => eq_refl) eq_refl) eq_refl)).
Defined.

(** The states a bound-socket listener publishes follow the documented life
    cycle from [idle] to its current state, and its generation counts its starts,
    whatever the environment answers. *)
Theorem socket_published_lifecycle cfg registry n w :
  reach cfg any_env registry n w -> is_Some (w_registry w) ->
  lifecycle_path listener_state.idle (changes (w_events w)) (m_state w) /\
  m_generation w = u64 (Z.of_nat (countb is_starting (changes (w_events w)))).
Proof.
  intros Hr Ho. destruct (p_reach cfg registry n w Hr) as [Hp Hg]; [|done].
  simpl. by apply bool_decide_eq_true.
Qed.

Lemma socket_published_lifecycle_witness :
  changes (w_events (socket_after socket_stopped)) =
    [listener_state.starting; listener_state.running; listener_state.stopping; listener_state.stopped] /\
  m_generation (socket_after socket_stopped) = u64 (Z.of_nat 1).
Proof.
  split; [by vm_compute|].
  apply (socket_published_lifecycle socket_demo socket_registry (length socket_stopped)
    (socket_after socket_stopped) (socket_after_reach any_env socket_stopped I eq_refl)).
  eexists. by vm_compute.
Defined.

(** ** Executions worth knowing *)

Definition socket_answers (socket timer : option exn) : senv :=
  mk_env (fun _ _ => None)
    {| e_socket := socket; e_open := success; e_v6_only := success; e_reuse_address := success;
       e_bind := success; e_local_endpoint := inr (ip_endpoint (mk_address "::1" true) 9000);
       e_factory := None; e_shutdown_timer := timer; e_owner := true;
       e_session := fun _ => mk_session_run None None None |}.

(** When the construction of the socket throws, the start is not completed: its
    handler is in no place of the listener any more, which stays [starting]. *)
Theorem socket_exception_drops_start :
  exists w, run_trace socket_demo
      [(socket_calm, AStart None None false);
       (socket_answers (Some (other_exception "no strand")) None, ARun 0)] socket_begin = Some w /\
    m_state w = listener_state.starting /\ w_queue w = [] /\ m_waiters w = [] /\ w_completed w = [] /\
    w_next_op w = 1%nat.
Proof. eexists. split; [vm_compute; reflexivity|]. vm_compute. repeat split; reflexivity. Qed.

(** When the grace timer cannot be armed, the exception leaves the task and no
    deadline is pending for the session, which keeps its handler. *)
Theorem grace_timer_exception_escapes :
  exists w w' x, run_trace socket_demo (map (pair socket_calm) (socket_running ++ [ARequestStop])) socket_begin = Some w /\
    exec socket_demo (ARun 0) (socket_answers None (Some (other_exception "no memory"))) w = Throw x w' /\
    m_state w' = listener_state.stopping /\ b_timers (w_ext w') = [] /\
    map bs_session (b_sessions (w_ext w')) = [true].
Proof. eexists _, _, _. split; [vm_compute; reflexivity|]. split; [vm_compute; reflexivity|]. vm_compute. repeat split; reflexivity. Qed.
