(* ===== verification/ListenerLedger.v ===== *)
(** * The completion log of a listener only grows

    [Ledger c n w]: [n] operations have been initiated and the handlers dispatched
    so far extend [c].  Every action keeps it; an initiation counts one more
    operation. *)

From S2P Require Import Prelude Errors Effect Options Endpoint Status Observers ListenerBase.
From S2P Require Import ListenerFacts ListenerAccount.

Section Base.
Context {T X Y : Type} (cfg : config).
Implicit Types (w : world T X) (e : env T Y).

Definition Ledger (c : list (executor * nat * error_code)) (n : nat) (w : world T X) : Prop :=
  c `prefix_of` w_completed w /\ w_next_op w = n.

Global Instance ledger_meta c n : MetaInsensitive (Ledger c n).
Proof. split; intros ? w H; exact H. Qed.

Global Instance ledger_log c n : LogInsensitive (Ledger c n).
Proof. split; intros ? w H; exact H. Qed.

Abbreviation lkept c n m := (kept (E := env T Y) (fun _ => True) (Ledger c n) m).

Lemma l_post c n ex t : lkept c n (post ex t).
Proof. intros e w _ H. by apply wp_post. Qed.

Lemma l_emit c n type info ec ep : lkept c n (emit cfg type info ec ep).
Proof. apply kept_nothrow, nt_emit, _. Qed.

Lemma l_transition_to c n st : lkept c n (transition_to cfg st).
Proof. intros e w _ H. by apply wp_transition_to. Qed.

Lemma l_complete_on c n ex h ec : lkept c n (complete_on ex h ec).
Proof. apply l_post. Qed.

Lemma l_complete_waiter c n i : lkept c n (complete_waiter i).
Proof. unfold complete_waiter, clear_slot. kept_auto; try done; apply l_complete_on. Qed.

Lemma l_complete_waiters c n : lkept c n complete_waiters.
Proof. unfold complete_waiters. kept_auto; try done; apply l_complete_waiter. Qed.

Lemma l_keep_first_error c n ec : lkept c n (keep_first_error ec).
Proof. apply kept_nothrow, nt_keep_first_error, _. Qed.

Lemma l_run_dispatch c n on h ec : lkept c n (run_dispatch on h ec).
Proof.
  unfold run_dispatch. destruct h; [|apply kept_throw]. apply kept_modify. intros w [H <-].
  split; [|done]. simpl. by apply prefix_app_r.
Qed.

Lemma l_run_start c n (f : completion_handler -> M (env T Y) (world T X) unit) h :
  lkept c n (f h) -> lkept c n (run_start f h).
Proof. intros Hf. unfold run_start, clear_slot. kept_auto; try done; apply l_complete_on. Qed.

Lemma l_run_wait c n id h : lkept c n (run_wait id h).
Proof. unfold run_wait, state, clear_slot. kept_auto; try done; apply l_complete_on. Qed.

Lemma l_cancel_wait c n id : lkept c n (cancel_wait id).
Proof. unfold cancel_wait, clear_slot. kept_auto; try done; apply l_complete_on. Qed.

Lemma l_request_stop c n : lkept c n ListenerBase.request_stop.
Proof.
  intros e w _ H. unfold ListenerBase.request_stop, state. do 3 eff_step. eff_step; [by eff_step|]. eff_step.
  eapply wp_mono; [by apply l_post | done |]. intros x w' H'. by eff_step.
Qed.

Lemma l_emit_cancellation c n op type : lkept c n (emit_cancellation op type).
Proof. unfold emit_cancellation. kept_auto; try done; apply l_post. Qed.

(** An initiation that throws has dropped the handler. *)
Lemma l_initiate (start : bool) ex alloc slot e w :
  wp (if start then do_async_start ex alloc slot else do_async_wait ex alloc slot) e w
    (fun _ w' => Ledger (w_completed w) (S (w_next_op w)) w' /\ accounted w' ≡ₚ w_next_op w :: accounted w)
    (fun _ w' => Ledger (w_completed w) (S (w_next_op w)) w' /\ accounted w' = accounted w /\
       ~ (forall ex t, e_post e ex t = None)).
Proof.
  set (n := w_next_op w). set (k := accounted w). set (c := w_completed w).
  assert (Hdone : forall ex t w', Ledger c (S n) w' /\ accounted w' = k -> task_ops (ex, t) = [n] ->
    wp (post ex t) e w' (fun _ w'' => Ledger c (S n) w'' /\ accounted w'' ≡ₚ n :: k)
      (fun _ w'' => (Ledger c (S n) w'' /\ accounted w'' = k) /\ ~ (forall ex t, e_post e ex t = None))).
  { intros ex' t w' [Hl Hk] Ht. apply wp_post.
    - intros _. split; [exact Hl|]. rewrite accounted_push, Ht, Hk. done.
    - intros x Hx. split; [done|]. intros Hp. by rewrite Hp in Hx. }
  assert (Hs : forall h f w', Ledger c (S n) w' /\ accounted w' = k ->
    wp (assign_slot h f) e w' (fun _ w'' => Ledger c (S n) w'' /\ accounted w'' = k) (fun _ _ => False)).
  { intros h f w' H. unfold assign_slot. eff_step; [|done]. by eff_step. }
  destruct start; unfold do_async_start, do_async_wait, fresh_op, complete_on_associated, clear_slot.
  - do 7 eff_step. eapply wp_mono; [apply Hs; done | | done]. intros [] w1 H1. eff_step.
    eapply wp_mono; [by apply Hdone | done |]. intros x w2 [H2 _].
    eapply wp_mono; [by apply Hdone | done |]. by intros y w3 [[??] ?].
  - do 11 eff_step. eapply wp_mono; [apply Hs; done | | done]. intros [] w1 H1. eff_step.
    eapply wp_mono; [by apply Hdone | done |]. intros x w2 [H2 _]. do 2 eff_step.
    eapply wp_mono; [by apply Hdone | done |]. by intros y w3 [[??] ?].
Qed.

(** A call from outside only posts: no completion handler runs inside it. *)
Abbreviation nkept c m := (kept (E := env T Y) (fun _ => True) (fun w => w_completed w = c) m).

Lemma n_post c ex t : nkept c (post ex t).
Proof. intros e w _ H. by apply wp_post. Qed.

Lemma n_request_stop c : nkept c ListenerBase.request_stop.
Proof.
  intros e w _ H. unfold ListenerBase.request_stop, state. do 3 eff_step. eff_step; [by eff_step|]. eff_step.
  eapply wp_mono; [by apply n_post | done |]. intros x w' H'. by eff_step.
Qed.

Lemma n_emit_cancellation c op type : nkept c (emit_cancellation op type).
Proof. unfold emit_cancellation. kept_auto; try done; apply n_post. Qed.

Lemma n_do_async_start c ex alloc slot : nkept c (do_async_start ex alloc slot).
Proof. unfold do_async_start, fresh_op, assign_slot, complete_on_associated. kept_auto; try done; apply n_post. Qed.

Lemma n_do_async_wait c ex alloc slot : nkept c (do_async_wait ex alloc slot).
Proof.
  unfold do_async_wait, fresh_op, assign_slot, clear_slot, complete_on_associated.
  kept_auto; try done; apply n_post.
Qed.

(** ** What an action does to the books *)

Record Booked (g initiates returned : bool) (w w' : world T X) : Prop := {
  bk_inv : Acct (tgt := initiated) false [] w';
  bk_log : w_completed w `prefix_of` w_completed w';
  bk_next : w_next_op w' = if initiates then S (w_next_op w) else w_next_op w;
  bk_owed : conserves g (accounted w')
    (if initiates && returned then w_next_op w :: accounted w else accounted w) }.

Lemma booked_initiate g (start : bool) ex alloc slot e w :
  acct_env g e -> Acct (tgt := initiated) false [] w ->
  wp (if start then do_async_start ex alloc slot else do_async_wait ex alloc slot) e w
    (fun _ => Booked g true true w) (fun _ w' => Booked g true false w w' /\ g = false).
Proof.
  intros He H. eapply wp_mono; [apply wp_conj; [apply l_initiate|]| |].
  - instantiate (1 := fun _ => Acct (tgt := initiated) false []).
    instantiate (1 := fun _ => Acct (tgt := initiated) false []).
    destruct start; [apply acct_do_async_start | apply acct_do_async_wait]; done || apply initiated_grows.
  - intros [] w' [[[Hl Hn] Ha] Hi]. split; [done..|]. simpl. destruct g; simpl; by rewrite Ha.
  - intros x w' [([Hl Hn] & Ha & Hp) Hi].
    assert (g = false) as -> by (destruct g; [exfalso; by apply Hp, He | done]).
    split; [|done]. split; [done..|]. simpl. by rewrite Ha.
Qed.

Lemma booked_other g (m : M (env T Y) (world T X) unit) e w :
  wp m e w (fun _ => Acct (tgt := initiated) false []) (fun _ => Acct (tgt := initiated) false []) ->
  wp m e w (fun _ => Acct (tgt := fun _ => accounted w) g []) (fun _ => Acct (tgt := fun _ => accounted w) g []) ->
  wp m e w (fun _ => Ledger (w_completed w) (w_next_op w)) (fun _ => Ledger (w_completed w) (w_next_op w)) ->
  wp m e w (fun _ => Booked g false true w) (fun _ => Booked g false false w).
Proof.
  unfold wp. destruct (m e w) as [[] w'|x w'|w']; [| |done]; intros Hi Ha [Hl Hn]; by split.
Qed.
End Base.

#[export] Hint Resolve l_post l_emit l_transition_to l_complete_on l_complete_waiters l_keep_first_error : eff.

(** ** Work

    A listener with nothing posted and no wait pending owes nothing. *)

Lemma work_owed {T X} (w : world T X) op :
  length (w_queue w) = 0 -> length (m_waiters w) = 0 -> op ∈ accounted w -> op ∈ map (fun x => snd (fst x)) (w_completed w).
Proof.
  intros Hq%nil_length_inv Hw%nil_length_inv. unfold accounted. by rewrite Hq, Hw.
Qed.
