(* ===== verification/ListenerStop.v ===== *)
(** * A stop behind every start

    What becomes of a request to stop a listener: [request_stop] posts [stop_on_strand]
    to the listener's strand, behind the starts that were posted before, unless the
    listener is stopped at the moment of the call.  [stop_due]: once the posted starts
    and stops have run, in the order they were posted, the listener does not run.  What
    both listener classes share keeps it. *)

From S2P Require Import Prelude Errors Effect EffectLogic Options Endpoint Status Observers ListenerBase.

Local Open Scope eff_scope.

Section Stop.
Context {T X Y : Type} (cfg : config).

Implicit Types (w : world T X) (q : list (executor * task T)).

(** A posted start is [true], a posted stop [false]. *)
Definition mark (t : task T) : option bool :=
  match t with TStart _ => Some true | TStop => Some false | _ => None end.

Definition marks q : list bool := flat_map (fun x => option_list (mark (snd x))) q.

Definition is_up (st : listener_state.t) : bool :=
  bool_decide (st = listener_state.starting) || bool_decide (st = listener_state.running).

Definition stop_due w : bool :=
  match last (marks (w_queue w)) with
  | Some start => negb start
  | None => negb (is_up (m_state w))
  end.

(** The strand runs posted starts and stops in the order they were posted. *)
Definition in_order w (i : nat) : bool :=
  match w_queue w !! i with
  | Some (_, t) => bool_decide (mark t = None) || bool_decide (marks (take i (w_queue w)) = [])
  | None => true
  end.

Lemma marks_app q q' : marks (q ++ q') = marks q ++ marks q'.
Proof. apply flat_map_app. Qed.

(** The posted starts and stops are [m]; with [d], the listener is not up. *)
Definition Down (m : list bool) (d : bool) w : Prop :=
  marks (w_queue w) = m /\ (d = true -> is_up (m_state w) = false).

Lemma down_due w w' : stop_due w = true -> (forall d, Down (marks (w_queue w)) d w -> Down (marks (w_queue w)) d w') -> stop_due w' = true.
Proof.
  intros Hw H. destruct (H (negb (is_up (m_state w)))) as [Hm Hd].
  { split; [done|]. by destruct (is_up (m_state w)). }
  unfold stop_due in *. rewrite Hm. destruct (last _); [done|]. by rewrite Hd.
Qed.

(** ** A posted task runs *)

Lemma marks_middle q i ex t :
  q !! i = Some (ex, t) -> marks q = marks (take i q) ++ option_list (mark t) ++ marks (drop (S i) q).
Proof.
  intros Hi. rewrite <- (take_drop_middle q i _ Hi) at 1. rewrite marks_app. f_equal.
Qed.

Lemma marks_remove q i : marks (remove_at i q) = marks (take i q) ++ marks (drop (S i) q).
Proof. apply marks_app. Qed.

(** The posted starts and stops after the task at [i] was taken. *)
Definition rest_marks w (i : nat) : list bool := marks (remove_at i (w_queue w)).

Lemma stop_due_run w i ex t w' :
  w_queue w !! i = Some (ex, t) -> in_order w i = true -> stop_due w = true ->
  (forall d, (mark t = None /\ (d = true -> is_up (m_state w) = false)) \/ mark t = Some false \/ d = false ->
     Down (rest_marks w i) d w') ->
  stop_due w' = true.
Proof.
  intros Hi Ho Hw H. unfold in_order in Ho. rewrite Hi in Ho. unfold rest_marks in H.
  rewrite marks_remove in H. unfold stop_due in Hw. rewrite (marks_middle _ _ _ _ Hi) in Hw.
  assert (Ho' : mark t = None \/ marks (take i (w_queue w)) = []).
  { apply orb_true_iff in Ho as [Ho|Ho]; apply bool_decide_eq_true in Ho; auto. }
  destruct (mark t) as [start|] eqn:Ht.
  - destruct Ho' as [|Ho']; [done|]. rewrite Ho' in *. simpl in *. unfold stop_due.
    destruct (H (negb start)) as [Hm Hd]; [by destruct start; auto|]. rewrite Hm.
    destruct (marks (drop (S i) (w_queue w))) as [|b m].
    + simpl in *. by rewrite Hd.
    + rewrite last_cons_cons in Hw. destruct (last (b :: m)) eqn:Hl; [done|]. by apply last_None in Hl.
  - destruct (H (negb (is_up (m_state w)))) as [Hm Hd].
    { left. split; [done|]. by destruct (is_up (m_state w)). }
    unfold stop_due. rewrite Hm. simpl in Hw. destruct (last _); [done|]. by rewrite Hd.
Qed.

(** A stop: the listener leaves the states in which it is up. *)
Lemma leads_down m st :
  is_up st = false -> leads (E := env T Y) (fun _ => True) (Down m true) (Down m false) (Down m true) (transition_to cfg st).
Proof.
  intros Hst. unfold transition_to. apply (leads_bind _ _ _ (Down m true)).
  - apply leads_modify. intros w []. by split.
  - intros _. apply leads_keep; [|done|done]. unfold emit, status, notify, notify_each. typed_auto;
      apply typed_modify; intros w []; by split.
Qed.

Lemma leads_meta m (f : world T X -> world T X) :
  (forall w, w_queue (f w) = w_queue w) ->
  leads (E := env T Y) (fun _ => True) (Down m true) (Down m false) (Down m false) (modify f).
Proof. intros Hf. apply leads_modify. intros w []. split; [by rewrite Hf | done]. Qed.

(** [request_stop], where the executor accepts work. *)
Lemma stop_due_posted (e : env T Y) w :
  (forall ex t, e_post e ex t = None) -> m_state w <> listener_state.stopped ->
  exists w', request_stop e w = Ret tt w' /\ stop_due w' = true.
Proof.
  intros He Hs. unfold request_stop, noexcept, state, bind, gets, try_catch, post, may_throw, modify, ret.
  rewrite bool_decide_eq_false_2 by done. unfold bind. rewrite He. eexists. split; [reflexivity|].
  unfold stop_due. simpl. rewrite marks_app. change (marks [_]) with [false]. by rewrite last_snoc.
Qed.

(** A request in any case. *)
Lemma stop_due_requested (e : env T Y) w :
  stop_due w = true ->
  match request_stop e w with Ret _ w' | Throw _ w' => stop_due w' = true | Terminate _ => True end.
Proof.
  intros Hw. unfold request_stop, noexcept, state, bind, gets, try_catch, post, may_throw, modify, ret, bind.
  case_bool_decide; [done|]. destruct (e_post e _ _); [done|].
  unfold stop_due. simpl. rewrite marks_app. change (marks [_]) with [false]. by rewrite last_snoc.
Qed.

Lemma stop_due_kept {A} (p : M (env T Y) (world T X) A) e w :
  (forall m d, typed (Down m d) any p) -> stop_due w = true ->
  match p e w with Ret _ w' | Throw _ w' => stop_due w' = true | Terminate _ => True end.
Proof.
  intros Hp Hw. destruct (p e w) as [a w'|x w'|w'] eqn:E; [..|done]; (apply (down_due w w' Hw); intros d Hd;
    specialize (Hp (marks (w_queue w)) d e w Hd); rewrite E in Hp); [by destruct Hp | done].
Qed.

(** The task at [i] is taken and runs. *)
Lemma stop_due_posted_task (run_task : task T -> M (env T Y) (world T X) unit) i e w :
  (forall m d t, mark t <> Some true -> typed (Down m d) any (run_task t)) ->
  (forall m h, typed (Down m false) any (run_task (TStart h))) ->
  (forall m, leads (fun _ => True) (Down m true) (Down m false) (Down m true) (run_task TStop)) ->
  in_order w i = true -> stop_due w = true ->
  match (queue <- gets w_queue;;
         match queue !! i with
         | None => ret tt
         | Some (_, t) => modify (set_w_queue (remove_at i queue));; run_task t
         end) e w with Ret _ w' | Throw _ w' => stop_due w' = true | Terminate _ => True end.
Proof.
  intros Hother Hstart Hstop Ho Hw. unfold bind, gets, modify. destruct (w_queue w !! i) as [[ex t]|] eqn:Hi; [|done].
  set (w0 := set_w_queue (remove_at i (w_queue w)) w). set (m := rest_marks w i).
  assert (H : forall d, (mark t = None /\ (d = true -> is_up (m_state w) = false)) \/ mark t = Some false \/ d = false ->
    match run_task t e w0 with Ret _ w' | Throw _ w' => Down m d w' | Terminate _ => True end).
  { intros d Hd. destruct (decide (mark t = Some true)) as [Ht|Ht]; [|destruct (decide (mark t = Some false)) as [Hf|Hf]].
    - assert (d = false) as -> by (destruct Hd as [[? _]|[?|?]]; congruence). destruct t as [h| | | | |]; try done.
      assert (H := Hstart m h e w0). destruct (run_task _ e w0); [by apply H | by apply H | done].
    - destruct t as [| | | | |]; try done. assert (H := Hstop m e w0 I).
      destruct (run_task TStop e w0) as [? w'|? w'|w']; [..|done];
        (destruct H as [H1 H2]; [by split|]; split; [done|]; intros _; by apply H2).
    - assert (H := Hother m d t Ht e w0). assert (Hw0 : Down m d w0).
      { split; [done|]. destruct Hd as [[_ Hd]|[?| ->]]; [exact Hd | congruence | done]. }
      destruct (run_task t e w0); [by apply H | by apply H | done]. }
  destruct (run_task t e w0) as [? w'|? w'|w'] eqn:E; [..|done];
    (apply (stop_due_run w i ex t w' Hi Ho Hw); intros d Hd; exact (H d Hd)).
Qed.

(** ** What both classes share *)

Context (m : list bool) (d : bool).

Abbreviation dkeeps p := (typed (E := env T Y) (S := world T X) (Down m d) any p).

Lemma d_modify f :
  (forall w, marks (w_queue (f w)) = marks (w_queue w) /\ m_state (f w) = m_state w) -> dkeeps (modify f).
Proof. intros Hf. apply typed_modify. intros w []. destruct (Hf w) as [E1 E2]. split; [by rewrite E1 | by rewrite E2]. Qed.

Lemma d_post ex t : mark t = None -> dkeeps (post ex t).
Proof.
  intros Ht. unfold post. apply (typed_bind _ _ _ any); [apply typed_may_throw | intros _ _].
  apply d_modify. intros w. simpl. rewrite marks_app. simpl. by rewrite Ht, !app_nil_r.
Qed.

(** The leaves: posted tasks that are neither a start nor a stop, and updates of
    something else. *)
Ltac d_auto := typed_auto; first [by apply d_modify | by apply d_post].

Lemma d_complete_on ex h ec : dkeeps (complete_on ex h ec).
Proof. by apply d_post. Qed.

Lemma d_complete_on_associated h ec : dkeeps (complete_on_associated h ec).
Proof. by apply d_post. Qed.

Lemma d_clear_slot op : dkeeps (clear_slot op).
Proof. by apply d_modify. Qed.

Lemma d_emit type info ec ep : dkeeps (emit cfg type info ec ep).
Proof. unfold emit, status, notify, notify_each. d_auto. Qed.

Hint Resolve d_complete_on d_complete_on_associated d_clear_slot d_emit : typed.

Lemma d_transition_to st : (d = true -> is_up st = false) -> dkeeps (transition_to cfg st).
Proof.
  intros Hst. unfold transition_to. apply (typed_bind _ _ _ any); [|intros _ _; apply d_emit].
  apply typed_modify. intros w []. by split.
Qed.

Lemma d_diagnostics ec ep : dkeeps (record_diagnostic ec ep).
Proof. by apply d_modify. Qed.

Lemma d_clear_diagnostics : dkeeps clear_diagnostics.
Proof. by apply d_modify. Qed.

Lemma d_set_stop_reason r : dkeeps (set_stop_reason r).
Proof. by apply d_modify. Qed.

Lemma d_keep_first_error ec : dkeeps (keep_first_error ec).
Proof. unfold keep_first_error. typed_auto; apply d_modify; intros w; by repeat case_match. Qed.

Lemma d_complete_waiters : dkeeps complete_waiters.
Proof. unfold complete_waiters, complete_waiter. d_auto. Qed.

Lemma d_assign_slot h f : dkeeps (assign_slot h f).
Proof. unfold assign_slot. d_auto. Qed.

Lemma d_fresh_op : dkeeps fresh_op.
Proof. unfold fresh_op. d_auto. Qed.

Hint Resolve d_diagnostics d_clear_diagnostics d_set_stop_reason d_keep_first_error d_complete_waiters
  d_assign_slot d_fresh_op : typed.

Lemma d_run_wait id h : dkeeps (run_wait id h).
Proof. unfold run_wait, state. d_auto. Qed.

Lemma d_cancel_wait id : dkeeps (cancel_wait id).
Proof. unfold cancel_wait. d_auto. Qed.

Lemma d_run_dispatch on h ec : dkeeps (run_dispatch on h ec).
Proof. unfold run_dispatch. d_auto. Qed.

Lemma d_do_async_wait ex alloc slot : dkeeps (do_async_wait ex alloc slot).
Proof. unfold do_async_wait. d_auto. Qed.

Lemma d_emit_cancellation op type : dkeeps (emit_cancellation op type).
Proof. unfold emit_cancellation. d_auto. Qed.

Lemma d_run_start start h : (forall h, dkeeps (start h)) -> dkeeps (run_start start h).
Proof. intros Hs. unfold run_start. typed_auto. Qed.
End Stop.

#[export] Hint Resolve d_complete_on d_complete_on_associated d_clear_slot d_emit d_diagnostics d_clear_diagnostics
  d_set_stop_reason d_keep_first_error d_complete_waiters d_run_wait d_cancel_wait d_run_dispatch d_do_async_wait
  d_emit_cancellation : typed.
