(* ===== verification/ListenerInterface.v ===== *)
(** * What a listener promises to a server

    [class listener] of include/serveza/listener.h: the operations a server uses on
    a listener it holds through a pointer to the base class, and the laws its own
    correctness rests on.  The two listener classes are instances
    (AcceptorObject.v, SocketObject.v), and so is their disjoint union,
    the dynamic type behind the pointer. *)

From S2P Require Import Prelude Errors Effect Options Endpoint Status Observers ListenerBase.
From S2P Require Import ListenerAccount.

(** What can happen to a listener: the public operations, and an action [a] of the
    listener's own (a completed I/O operation, a posted task, a session). *)
Inductive listener_action (A : Type) :=
| LStart (ex : option executor) (alloc : option N) (slot : bool)
| LWait (ex : option executor) (alloc : option N) (slot : bool)
| LRequestStop
| LCancel (op : nat) (type : Z)
| LOwn (a : A).
Arguments LStart {A}.
Arguments LWait {A}.
Arguments LRequestStop {A}.
Arguments LCancel {A}.
Arguments LOwn {A}.

(** [L]: objects; [E]: answers of the outside world; [A]: own actions. *)
Class Listener (L E A : Type) := {
  l_status : L -> listener_status;
  l_next_op : L -> nat;
  l_completed : L -> list (executor * nat * error_code);
  l_exec : listener_action A -> E -> L -> outcome L unit;
  l_set_registry : option observer_registry -> L -> L;
  (** own actions by which another client initiates an operation *)
  l_initiates : L -> A -> bool;
  (** the operations whose handler is in the listener or was dispatched *)
  l_owed : L -> list nat;
  (** when the posted starts and stops have run, the listener does not run *)
  l_stop_due : L -> bool;
  (** own actions that run posted starts and stops in order, and start nothing *)
  l_orderly : L -> A -> bool;
  (** the executor has something to do for the listener, or to wait for *)
  l_work : L -> bool;
  (** the reachable objects *)
  l_inv : L -> Prop;
  (** with [true]: the executor accepts work *)
  l_ok : bool -> E -> Prop }.

Definition initiation {A} (own : A -> bool) (a : listener_action A) : bool :=
  match a with
  | LStart _ _ _ | LWait _ _ _ => true
  | LRequestStop | LCancel _ _ => false
  | LOwn a => own a
  end.

(** How an action changes the log of completions and the operations owed.  A call of
    the public interface only posts: handlers run later, never inline. *)
Record Progress {L E A} `{Listener L E A} (g : bool) (a : listener_action A) (returned : bool) (l l' : L)
    : Prop := {
  pr_inv : l_inv l';
  pr_log : l_completed l `prefix_of` l_completed l';
  pr_inline : match a with LOwn _ => True | _ => l_completed l' = l_completed l end;
  pr_next : l_next_op l' = if initiation (l_initiates l) a then S (l_next_op l) else l_next_op l;
  pr_owed : conserves g (l_owed l')
    (if initiation (l_initiates l) a && returned then l_next_op l :: l_owed l else l_owed l) }.

(** [request_stop] and a cancellation do not throw, and an initiation only when the
    executor refuses work. *)
Definition may_fail {A} (g : bool) (a : listener_action A) : Prop :=
  match a with
  | LStart _ _ _ | LWait _ _ _ => g = false
  | LRequestStop | LCancel _ _ => False
  | LOwn _ => True
  end.

(** Actions after which a stop that was due still is. *)
Definition keeps_stop {A} (orderly : A -> bool) (a : listener_action A) : bool :=
  match a with
  | LStart _ _ _ => false
  | LWait _ _ _ | LRequestStop | LCancel _ _ => true
  | LOwn a => orderly a
  end.

Class ListenerLaws {L E A} `(Listener L E A) : Prop := {
  law_unique l : l_inv l -> l_owed l ⊆+ seq 0 (l_next_op l);
  law_completed l : map (fun x => snd (fst x)) (l_completed l) ⊆+ l_owed l;
  law_exec g a e l :
    l_ok g e -> l_inv l ->
    match l_exec a e l with
    | Ret _ l' => Progress g a true l l'
    | Throw _ l' => Progress g a false l l' /\ may_fail g a
    | Terminate _ => False
    end;
  law_registry r l : l_inv l -> l_inv (l_set_registry r l) /\ l_next_op (l_set_registry r l) = l_next_op l /\
    l_completed (l_set_registry r l) = l_completed l /\ l_owed (l_set_registry r l) = l_owed l;
  law_stop_kept a e l :
    keeps_stop (l_orderly l) a = true -> l_stop_due l = true ->
    match l_exec a e l with Ret _ l' | Throw _ l' => l_stop_due l' = true | Terminate _ => True end;
  (** [request_stop] returns at once when the listener is stopped *)
  law_stop_posted e l :
    l_ok true e -> ls_state (l_status l) <> listener_state.stopped ->
    match l_exec LRequestStop e l with Ret _ l' => l_stop_due l' = true | _ => False end;
  law_stop_registry r l : l_stop_due (l_set_registry r l) = l_stop_due l;
  law_work l op : l_work l = false -> op ∈ l_owed l -> op ∈ map (fun x => snd (fst x)) (l_completed l) }.

(** An object is a configuration and a world; its configuration does not change. *)
Definition on_world {C W A} (c : C) (o : outcome W A) : outcome (C * W) A :=
  match o with
  | Ret a w => Ret a (c, w)
  | Throw x w => Throw x (c, w)
  | Terminate w => Terminate (c, w)
  end.

(** ** Dynamic types

    A pointer to the base class refers to an object of one class or of the other;
    an own action of the other class does not concern it. *)

Section Sum.
Context {L1 E1 A1 L2 E2 A2 : Type} `{H1 : Listener L1 E1 A1} `{H2 : Listener L2 E2 A2}.

Definition map_outcome {L L' A} (f : L -> L') (o : outcome L A) : outcome L' A :=
  match o with
  | Ret a l => Ret a (f l)
  | Throw x l => Throw x (f l)
  | Terminate l => Terminate (f l)
  end.

(** The action as the class of the object sees it. *)
Definition route {B B'} (own : B -> option B') (a : listener_action B) : option (listener_action B') :=
  match a with
  | LStart ex alloc slot => Some (LStart ex alloc slot)
  | LWait ex alloc slot => Some (LWait ex alloc slot)
  | LRequestStop => Some LRequestStop
  | LCancel op type => Some (LCancel op type)
  | LOwn a => LOwn <$> own a
  end.

Definition own_left (a : A1 + A2) : option A1 := match a with inl a => Some a | inr _ => None end.
Definition own_right (a : A1 + A2) : option A2 := match a with inl _ => None | inr a => Some a end.

Definition sum_exec (a : listener_action (A1 + A2)) (e : E1 * E2) (l : L1 + L2) : outcome (L1 + L2) unit :=
  match l with
  | inl l => match route own_left a with
             | Some a => map_outcome inl (l_exec a (fst e) l)
             | None => Ret tt (inl l)
             end
  | inr l => match route own_right a with
             | Some a => map_outcome inr (l_exec a (snd e) l)
             | None => Ret tt (inr l)
             end
  end.

Definition sum_initiates (l : L1 + L2) (a : A1 + A2) : bool :=
  match l, a with
  | inl l, inl a => l_initiates l a
  | inr l, inr a => l_initiates l a
  | _, _ => false
  end.

Definition sum_listener : Listener (L1 + L2) (E1 * E2) (A1 + A2) := {|
  l_status l := match l with inl l => l_status l | inr l => l_status l end;
  l_next_op l := match l with inl l => l_next_op l | inr l => l_next_op l end;
  l_completed l := match l with inl l => l_completed l | inr l => l_completed l end;
  l_exec := sum_exec;
  l_set_registry r l := match l with inl l => inl (l_set_registry r l) | inr l => inr (l_set_registry r l) end;
  l_initiates := sum_initiates;
  l_owed l := match l with inl l => l_owed l | inr l => l_owed l end;
  l_stop_due l := match l with inl l => l_stop_due l | inr l => l_stop_due l end;
  l_orderly l a := match l, a with
                   | inl l, inl a => l_orderly l a
                   | inr l, inr a => l_orderly l a
                   | _, _ => true
                   end;
  l_work l := match l with inl l => l_work l | inr l => l_work l end;
  l_inv l := match l with inl l => l_inv l | inr l => l_inv l end;
  l_ok g e := l_ok g (fst e) /\ l_ok g (snd e) |}.

Lemma route_initiation {B B'} (own : B -> option B') (p : B -> bool) (p' : B' -> bool) a a' :
  (forall b b', own b = Some b' -> p b = p' b') -> route own a = Some a' -> initiation p a = initiation p' a'.
Proof.
  intros Ho. destruct a; simpl; intros H; simplify_eq; try done.
  destruct (own a) eqn:E; simplify_eq/=. by apply Ho.
Qed.

Lemma route_may_fail {B B'} (own : B -> option B') g a a' :
  route own a = Some a' -> may_fail g a' -> may_fail g a.
Proof. destruct a; simpl; intros H; simplify_eq; try done. Qed.

Lemma route_inline {B B'} (own : B -> option B') (a : listener_action B) (a' : listener_action B') (Q : Prop) :
  route own a = Some a' -> match a' with LOwn _ => True | _ => Q end -> match a with LOwn _ => True | _ => Q end.
Proof. destruct a; simpl; intros H; simplify_eq; done. Qed.

Lemma route_none {B B'} (own : B -> option B') a :
  route own a = None -> exists b, a = LOwn b /\ own b = None.
Proof. destruct a; simpl; try done. destruct (own a) eqn:E; [done|]. eauto. Qed.

Lemma sum_laws : ListenerLaws H1 -> ListenerLaws H2 -> ListenerLaws sum_listener.
Proof.
  intros K1 K2. split.
  - intros [l|l]; [exact (@law_unique _ _ _ _ K1 l) | exact (@law_unique _ _ _ _ K2 l)].
  - intros [l|l]; [exact (@law_completed _ _ _ _ K1 l) | exact (@law_completed _ _ _ _ K2 l)].
  - intros g a e l [He1 He2] Hi. destruct l as [l|l]; simpl.
    + destruct (route own_left a) as [a'|] eqn:Er.
      * assert (H := law_exec g a' (fst e) l He1 Hi).
        assert (Ha : initiation (sum_initiates (inl l)) a = initiation (l_initiates l) a').
        { eapply route_initiation; [|done]. intros [b|b] b' [=]; by subst. }
        destruct (l_exec a' (fst e) l); simpl; [| |done].
        -- destruct H. split; simpl; rewrite ?Ha; try done. by eapply route_inline.
        -- destruct H as [[] ?]. split; [|by eapply route_may_fail].
           split; simpl; rewrite ?Ha; try done. by eapply route_inline.
      * apply route_none in Er as ([b|b] & -> & [=]). split; simpl; try done. by destruct g.
    + destruct (route own_right a) as [a'|] eqn:Er.
      * assert (H := law_exec g a' (snd e) l He2 Hi).
        assert (Ha : initiation (sum_initiates (inr l)) a = initiation (l_initiates l) a').
        { eapply route_initiation; [|done]. intros [b|b] b' [=]; by subst. }
        destruct (l_exec a' (snd e) l); simpl; [| |done].
        -- destruct H. split; simpl; rewrite ?Ha; try done. by eapply route_inline.
        -- destruct H as [[] ?]. split; [|by eapply route_may_fail].
           split; simpl; rewrite ?Ha; try done. by eapply route_inline.
      * apply route_none in Er as ([b|b] & -> & [=]). split; simpl; try done. by destruct g.
  - intros r [l|l] Hi; [exact (@law_registry _ _ _ _ K1 r l Hi) | exact (@law_registry _ _ _ _ K2 r l Hi)].
  - intros a e [l|l] Ha Hl; simpl in *.
    + destruct (route own_left a) as [a'|] eqn:Er; [|done].
      assert (H := @law_stop_kept _ _ _ _ K1 a' (fst e) l). destruct (l_exec a' (fst e) l); simpl in *; [..|done];
        (apply H; [|done]); by destruct a as [| | | |[]]; simplify_eq/=.
    + destruct (route own_right a) as [a'|] eqn:Er; [|done].
      assert (H := @law_stop_kept _ _ _ _ K2 a' (snd e) l). destruct (l_exec a' (snd e) l); simpl in *; [..|done];
        (apply H; [|done]); by destruct a as [| | | |[]]; simplify_eq/=.
  - intros e [l|l] [He1 He2] Hs; simpl in *.
    + assert (H := @law_stop_posted _ _ _ _ K1 (fst e) l He1 Hs). by destruct (l_exec LRequestStop (fst e) l).
    + assert (H := @law_stop_posted _ _ _ _ K2 (snd e) l He2 Hs). by destruct (l_exec LRequestStop (snd e) l).
  - intros r [l|l]; [exact (@law_stop_registry _ _ _ _ K1 r l) | exact (@law_stop_registry _ _ _ _ K2 r l)].
  - intros [l|l] op; [exact (@law_work _ _ _ _ K1 l op) | exact (@law_work _ _ _ _ K2 l op)].
Qed.
End Sum.
