(* ===== verification/AcceptorObject.v ===== *)
(** * The acceptor listener as a listener

    The instance of [Listener] for [basic_acceptor_listener]: an object is its
    configuration and its world, and the laws follow from the account of its
    completion handlers and from the order of its posted starts and stops. *)

From S2P Require Import Prelude Errors Effect EffectLogic Options Endpoint Status Observers ListenerBase.
From S2P Require Import ListenerFacts ListenerAccount ListenerLedger ListenerStop ListenerInterface.
From S2P Require Import Connection AcceptorFacts Acceptor AcceptorAccount.

(** ** The ledger *)

Global Instance ledger_conn c n : ConnInsensitive (Ledger c n).
Proof. split; [intros ? w H | intros ex t w _ H]; exact H. Qed.

Section Ledger.
Variable cfg : config.

Abbreviation lkept c n m := (kept (E := aenv) (S := aworld) (fun _ => True) (Ledger c n) m).

Lemma l_conn_request_stop c n k : lkept c n (Connection.request_stop k).
Proof. apply kept_nothrow, conn_request_stop, _. Qed.

Lemma l_conn_force_close c n k : lkept c n (force_close k).
Proof. apply kept_nothrow, conn_force_close, _. Qed.
#[local] Hint Resolve l_conn_request_stop l_conn_force_close : eff.

Ltac l_auto := kept_auto; try done; auto with eff.

Lemma l_finish c n ec reason : lkept c n (Acceptor.finish cfg ec reason).
Proof.
  unfold Acceptor.finish, state, set_stop_reason, acceptor_close, retry_timer_cancel,
    shutdown_timer_cancel, modify_ext. l_auto.
Qed.
#[local] Hint Resolve l_finish : eff.

Lemma l_maybe_finish c n : lkept c n (maybe_finish cfg).
Proof. unfold maybe_finish, state, get_ext, stop_reason. l_auto. Qed.
#[local] Hint Resolve l_maybe_finish : eff.

Lemma l_begin_stop c n ec reason : lkept c n (begin_stop cfg ec reason).
Proof.
  unfold begin_stop, state, set_stop_reason, acceptor_cancel, acceptor_close, retry_timer_cancel,
    arm_shutdown_timer, shutdown_timer_cancel, modify_ext, get_ext. l_auto.
Qed.
#[local] Hint Resolve l_begin_stop : eff.

Lemma l_accept_next c n reason : lkept c n (accept_next cfg reason).
Proof. unfold accept_next, state, record_diagnostic, modify_ext, get_ext. l_auto. Qed.
#[local] Hint Resolve l_accept_next : eff.

Lemma acceptor_task_ledger c n t : lkept c n (run_task cfg t).
Proof.
  destruct t as [h|id h|id| |on h ec|[]]; simpl.
  - apply l_run_start. unfold start_on_strand, state, clear_diagnostics, open_acceptor, acceptor_open,
      modify_ext, get_ext. l_auto.
  - apply l_run_wait.
  - apply l_cancel_wait.
  - unfold stop_on_strand. l_auto.
  - apply l_run_dispatch.
  - unfold accepted, retry_accept, arm_retry_timer, retry_timer_cancel, record_diagnostic, state,
      modify_ext, get_ext. l_auto.
  - unfold retry_timer_expired. l_auto.
  - unfold shutdown_deadline, record_diagnostic, get_ext. l_auto.
  - unfold session_finished, record_diagnostic, state, modify_ext, get_ext. l_auto.
  - apply kept_nothrow, conn_start, _.
  - apply kept_nothrow, conn_run_request_stop, _.
  - apply kept_nothrow, conn_run_force_close, _.
Qed.

Lemma acceptor_ledger c n a : initiates a = false -> lkept c n (exec cfg a).
Proof.
  destruct a as [ex al sl|ex al sl| |op ty|i ec|k x ec|i|v|id]; simpl; intros Ha; try done.
  - apply l_request_stop.
  - apply l_emit_cancellation.
  - unfold complete_io, get_ext, modify_ext. l_auto.
  - apply kept_nothrow, conn_session_completes, _.
  - unfold run_posted. kept_auto; try done; apply acceptor_task_ledger.
  - unfold update_registry. l_auto.
  - unfold update_registry. l_auto.
Qed.
End Ledger.

(** ** Stops *)

Section Stop.
Variable cfg : config.

Section Kept.
Variables (m : list bool) (d : bool).

Abbreviation dkeeps p := (typed (E := aenv) (S := aworld) (Down m d) any p).

Lemma d_update c f : dkeeps (modify_ext (update_connection c f)).
Proof. by apply d_modify. Qed.

Ltac d_auto :=
  typed_auto; first [by apply d_modify | by apply d_post | by apply d_update | by apply d_transition_to].

Lemma d_conn_finish c ec ep : dkeeps (Connection.finish c ec ep).
Proof. unfold Connection.finish, get_ext, close_now, session_finished_post. d_auto. Qed.
Hint Resolve d_conn_finish : typed.

Lemma d_session_handler c ec : dkeeps (session_handler c ec).
Proof. unfold session_handler, get_ext. d_auto. Qed.

Lemma d_report c x : dkeeps (report c x).
Proof. unfold report. d_auto. Qed.

Lemma d_force_close c : dkeeps (force_close c).
Proof. unfold force_close. d_auto. Qed.
Hint Resolve d_session_handler d_report d_force_close : typed.

Lemma d_conn_request_stop c : dkeeps (Connection.request_stop c).
Proof. unfold Connection.request_stop. d_auto. Qed.

Lemma d_conn_start c : dkeeps (Connection.start c).
Proof. unfold Connection.start, async_run. d_auto. Qed.

Lemma d_session_completes c x ec : dkeeps (session_completes c x ec).
Proof. unfold session_completes, get_ext. d_auto. Qed.

Lemma d_cancel_io which : dkeeps (modify (cancel_io which)).
Proof.
  apply d_modify. intros w. simpl. rewrite marks_app. split; [|done].
  rewrite <- (app_nil_r (marks (w_queue w))) at 2. f_equal. by induction (List.filter which _).
Qed.
Hint Resolve d_conn_request_stop d_conn_start d_session_completes d_cancel_io : typed.

Lemma d_finish ec r : dkeeps (Acceptor.finish cfg ec r).
Proof.
  unfold Acceptor.finish, state, acceptor_close, retry_timer_cancel, shutdown_timer_cancel. d_auto.
Qed.
Hint Resolve d_finish : typed.

Lemma d_maybe_finish : dkeeps (maybe_finish cfg).
Proof. unfold maybe_finish, state, get_ext, stop_reason. typed_auto. Qed.
Hint Resolve d_maybe_finish : typed.

Lemma d_begin_stop ec r : dkeeps (begin_stop cfg ec r).
Proof.
  unfold begin_stop, state, get_ext, acceptor_cancel, acceptor_close, retry_timer_cancel, arm_shutdown_timer,
    shutdown_timer_cancel. d_auto.
Qed.
Hint Resolve d_begin_stop : typed.

Lemma d_accept_next r : dkeeps (accept_next cfg r).
Proof. unfold accept_next, state, get_ext. d_auto. Qed.
Hint Resolve d_accept_next : typed.

Lemma d_retry_accept ec : dkeeps (retry_accept cfg ec).
Proof. unfold retry_accept, get_ext, arm_retry_timer, retry_timer_cancel. d_auto. Qed.
Hint Resolve d_retry_accept : typed.

(** Every posted task but a start keeps the marks and does not make the listener run. *)
Lemma d_run_task t : mark t <> Some true -> dkeeps (run_task cfg t).
Proof.
  intros Ht. destruct t as [h|id h|id| |on h ec|[]]; [by destruct Ht|..]; unfold run_task.
  - apply d_run_wait.
  - apply d_cancel_wait.
  - unfold stop_on_strand. typed_auto.
  - apply d_run_dispatch.
  - unfold accepted, state, get_ext. d_auto.
  - unfold retry_timer_expired. typed_auto.
  - unfold shutdown_deadline, get_ext. typed_auto.
  - unfold session_finished, state, get_ext. d_auto.
  - typed_auto.
  - apply d_update.
  - unfold run_force_close. typed_auto.
Qed.
End Kept.

Abbreviation starting m p := (typed (E := aenv) (S := aworld) (Down m false) any p).

Lemma d_start m h : starting m (run_start (start_on_strand cfg) h).
Proof.
  apply d_run_start. intros h'. unfold start_on_strand, open_acceptor, acceptor_open, state, get_ext.
  typed_auto; first [by apply d_modify | by apply d_transition_to | by apply d_finish | by apply d_accept_next].
Qed.

(** After a stop the listener is not up. *)
Lemma d_stop m : leads (E := aenv) (fun _ => True) (Down m true) (Down m false) (Down m true) (stop_on_strand cfg).
Proof.
  unfold stop_on_strand, begin_stop, state. apply leads_gets. intros st. case_bool_decide as Hi.
  - apply (leads_bind _ _ _ (Down m false)); [|intros _]. { apply leads_modify. by intros w [[] _]. }
    apply (leads_bind _ _ _ (Down m false)); [by apply leads_meta | intros _].
    apply (leads_bind _ _ _ (Down m true)); [by apply leads_down | intros _].
    apply leads_keep; [apply d_finish | done | done].
  - destruct (_ && _) eqn:Hd.
    + apply leads_keep; [by apply typed_ret | intros w [[] Hs] | intros w [[] Hs]]; (split; [done|]); intros _; unfold is_up;
        rewrite Hs; apply andb_true_iff in Hd as [Hd1%negb_true_iff Hd2%negb_true_iff]; by rewrite Hd1, Hd2.
    + apply (leads_bind _ _ _ (Down m false)); [|intros _]. { apply leads_modify. by intros w [[] _]. }
      apply (leads_bind _ _ _ (Down m false)); [by apply leads_meta | intros _].
      apply (leads_bind _ _ _ (Down m true)); [by apply leads_down | intros _].
      apply leads_keep; [|done|done].
      unfold acceptor_cancel, acceptor_close, retry_timer_cancel, arm_shutdown_timer, shutdown_timer_cancel, get_ext.
      typed_auto; first [by apply d_modify | by apply d_cancel_io | by apply d_conn_request_stop | by apply d_force_close |
        by apply d_maybe_finish].
Qed.

Lemma acceptor_run_due i e w :
  in_order w i = true -> stop_due w = true ->
  match run_posted cfg i e w with Ret _ w' | Throw _ w' => stop_due w' = true | Terminate _ => True end.
Proof.
  apply (stop_due_posted_task (run_task cfg)); [intros m d t | intros m h | intros m].
  - apply d_run_task.
  - apply d_start.
  - apply d_stop.
Qed.

(** Actions that start nothing and run posted starts and stops in order. *)
Definition acceptor_orderly (w : aworld) (a : action) : bool :=
  match a with
  | AStart _ _ _ => false
  | ARun i => in_order w i
  | _ => true
  end.

Lemma acceptor_keeps_due a e w :
  acceptor_orderly w a = true -> stop_due w = true ->
  match exec cfg a e w with Ret _ w' | Throw _ w' => stop_due w' = true | Terminate _ => True end.
Proof.
  intros Ha Hw. destruct a as [ex al sl|ex al sl| |op ty|i ec|c x ec|i|v|id]; simpl in Ha; unfold exec; [done|..].
  - apply stop_due_kept; [intros; apply d_do_async_wait | done].
  - by apply stop_due_requested.
  - apply stop_due_kept; [intros; apply d_emit_cancellation | done].
  - apply stop_due_kept; [|done]. intros m d. unfold complete_io, get_ext. typed_auto; [by apply d_modify|].
    apply d_modify. intros w'. simpl. rewrite marks_app. split; [|done]. destruct i0; simpl; by rewrite app_nil_r.
  - apply stop_due_kept; [intros; apply d_session_completes | done].
  - by apply acceptor_run_due.
  - exact Hw.
  - exact Hw.
Qed.
End Stop.

(** ** The instance *)

Definition acceptor_object : Type := config * aworld.

Definition acceptor_action (a : listener_action action) : action :=
  match a with
  | LStart ex alloc slot => AStart ex alloc slot
  | LWait ex alloc slot => AWait ex alloc slot
  | LRequestStop => ARequestStop
  | LCancel op type => ACancel op type
  | LOwn a => a
  end.

(** Posted tasks, waits whose handler keeps the executor busy, I/O and timers, sessions
    that hold their handler. *)
Definition acceptor_work (w : aworld) : bool :=
  negb (bool_decide (length (w_queue w) = 0)) || negb (bool_decide (length (m_waiters w) = 0)) ||
  negb (bool_decide (length (a_io (w_ext w)) = 0)) || existsb cn_session (a_connections (w_ext w)).

Global Instance acceptor_listener : Listener acceptor_object aenv action := {
  l_status l := status_of (fst l) (snd l);
  l_next_op l := w_next_op (snd l);
  l_completed l := w_completed (snd l);
  l_exec a e l := on_world (fst l) (exec (fst l) (acceptor_action a) e (snd l));
  l_set_registry r l := (fst l, set_w_registry r (snd l));
  l_initiates _ := initiates;
  l_owed l := accounted (snd l);
  l_stop_due l := stop_due (snd l);
  l_orderly l := acceptor_orderly (snd l);
  l_work l := acceptor_work (snd l);
  l_inv l := Acct (tgt := initiated) false [] (snd l);
  l_ok := acct_env }.

Lemma acceptor_initiation a :
  initiation initiates a = initiates (acceptor_action a).
Proof. by destruct a. Qed.

Lemma acceptor_books g a e cfg w :
  acct_env g e -> Acct (tgt := initiated) false [] w ->
  wp (exec cfg a) e w (fun _ => Booked g (initiates a) true w)
    (fun _ w' => Booked g (initiates a) false w w' /\ (initiates a = true -> g = false)).
Proof.
  intros He H. destruct (initiates a) eqn:Ha.
  - destruct a as [ex al sl|ex al sl| | | | | | |]; try done; simpl.
    + eapply wp_mono; [by apply (booked_initiate g true) | done | by intros x w' [? ->]].
    + eapply wp_mono; [by apply (booked_initiate g false) | done | by intros x w' [? ->]].
  - eapply wp_mono; [apply (booked_other g) | done | done].
    + apply acct_exec; [by rewrite Ha | done | done].
    + apply acct_exec; [by rewrite Ha | done |]. unfold Acct. simpl. by destruct g.
    + by apply acceptor_ledger.
Qed.

(** [request_stop] and a cancellation return. *)
Lemma acceptor_calls_return cfg a e w :
  a = ARequestStop \/ (exists op type, a = ACancel op type) ->
  wp (exec cfg a) e w (fun _ _ => True) (fun _ _ => False).
Proof.
  intros [-> | (op & type & ->)]; simpl.
  - apply (wp_nothrow anywhere); [apply nt_request_stop, _ | done | done].
  - apply (wp_nothrow anywhere); [apply nt_emit_cancellation, _ | done | done].
Qed.

Lemma acceptor_not_inline cfg a e w :
  match a with LOwn _ => True | _ =>
    wp (exec cfg (acceptor_action a)) e w (fun _ w' => w_completed w' = w_completed w)
      (fun _ w' => w_completed w' = w_completed w) end.
Proof.
  destruct a; simpl; try done;
    [by apply n_do_async_start | by apply n_do_async_wait | by apply n_request_stop | by apply n_emit_cancellation].
Qed.

Global Instance acceptor_laws : ListenerLaws acceptor_listener.
Proof.
  split.
  - intros [cfg w] H. exact H.
  - intros [cfg w]. simpl. unfold accounted. apply submseteq_inserts_l, submseteq_inserts_l. done.
  - intros g a e [cfg w] He H. simpl.
    assert (Hb := acceptor_books g (acceptor_action a) e cfg w He H).
    assert (Hn := acceptor_not_inline cfg a e w). unfold wp in Hb, Hn. destruct (exec cfg (acceptor_action a) e w) as [[] w'|x w'|w'] eqn:E; simpl; [| |done].
    + destruct Hb. split; simpl; rewrite ?acceptor_initiation; done.
    + destruct Hb as [[] Hg]. split.
      { split; simpl; rewrite ?acceptor_initiation; done. }
      destruct a as [ex al sl|ex al sl| |op ty|a]; simpl in *; [by apply Hg | by apply Hg | | | done].
      * assert (Hr := acceptor_calls_return cfg ARequestStop e w (or_introl eq_refl)).
        unfold wp in Hr. simpl in Hr. by rewrite E in Hr.
      * assert (Hr := acceptor_calls_return cfg (ACancel op ty) e w ltac:(eauto)).
        unfold wp in Hr. simpl in Hr. by rewrite E in Hr.
  - intros r [cfg w] H. done.
  - intros a e [cfg w] Ha Hw. assert (H := acceptor_keeps_due cfg (acceptor_action a) e w). simpl in *.
    destruct (exec cfg (acceptor_action a) e w); simpl; [apply H | apply H | done]; by destruct a.
  - intros e [cfg w] He Hs. destruct (stop_due_posted e w (He eq_refl) Hs) as (w' & Hr & Hd). simpl. by rewrite Hr.
  - by intros r [cfg w].
  - intros [cfg w] op Hw Ho. simpl in *. unfold acceptor_work in Hw.
    apply orb_false_iff in Hw as [[[Hq Hm]%orb_false_iff _]%orb_false_iff _].
    apply negb_false_iff, bool_decide_eq_true in Hq, Hm. by apply work_owed.
Qed.
