(* ===== verification/SocketObject.v ===== *)
(** * The bound-socket listener as a listener

    The instance of [Listener] for [basic_socket_listener]. *)

From S2P Require Import Prelude Errors Effect EffectLogic Options Endpoint Status Observers ListenerBase.
From S2P Require Import ListenerFacts ListenerAccount ListenerLedger ListenerStop ListenerInterface.
From S2P Require Import SocketListener SocketFacts SocketAccount.

(** ** The ledger *)

Section Ledger.
Variable cfg : config.

Abbreviation lkept c n m := (kept (E := senv) (S := sworld) (fun _ => True) (Ledger c n) m).

Lemma l_update c n s f : lkept c n (modify_ext (update_session s f)).
Proof. by apply kept_modify. Qed.
#[local] Hint Resolve l_update : eff.

Lemma l_session_finish c n s ec ep : lkept c n (session_finish s ec ep).
Proof.
  apply kept_noexcept; [apply nt_session_finish|].
  unfold close_now, session_finished_post, get_ext. kept_auto.
Qed.
#[local] Hint Resolve l_session_finish : eff.

Lemma l_session_force_close c n s : lkept c n (session_force_close s).
Proof. apply kept_noexcept; [apply nt_force_close|]. kept_auto. Qed.
#[local] Hint Resolve l_session_force_close : eff.

Lemma l_session_request_stop c n s : lkept c n (session_request_stop s).
Proof. apply kept_noexcept; [apply nt_request_stop'|]. kept_auto. Qed.
#[local] Hint Resolve l_session_request_stop : eff.

Lemma l_session_handler c n s ec : lkept c n (session_handler s ec).
Proof. unfold session_handler, get_ext. kept_auto. Qed.
#[local] Hint Resolve l_session_handler : eff.

Lemma l_report c n s x : lkept c n (report s x).
Proof. unfold report. kept_auto. Qed.
#[local] Hint Resolve l_report : eff.

Ltac l_auto := kept_auto; try done; auto with eff.

Lemma l_socket_finish c n ec reason : lkept c n (SocketListener.finish cfg ec reason).
Proof. unfold SocketListener.finish, state, set_stop_reason, shutdown_timer_cancel. l_auto. Qed.
#[local] Hint Resolve l_socket_finish : eff.

Lemma l_socket_maybe_finish c n : lkept c n (maybe_finish cfg).
Proof. unfold maybe_finish, state, get_ext, stop_reason. l_auto. Qed.
#[local] Hint Resolve l_socket_maybe_finish : eff.

Lemma socket_task_ledger c n t : lkept c n (run_task cfg t).
Proof.
  destruct t as [h|id h|id| |on h ec|[]]; simpl.
  - apply l_run_start. unfold start_on_strand, bind_socket, state, clear_diagnostics, record_diagnostic,
      SocketListener.emit, modify_ext, get_ext. l_auto.
  - apply l_run_wait.
  - apply l_cancel_wait.
  - unfold stop_on_strand, state, set_stop_reason, arm_shutdown_timer, shutdown_timer_cancel, modify_ext,
      get_ext. l_auto.
  - apply l_run_dispatch.
  - unfold shutdown_deadline, record_diagnostic, SocketListener.emit, get_ext. l_auto.
  - unfold session_finished, record_diagnostic, SocketListener.emit, state, modify_ext. l_auto.
  - unfold session_start, async_run. l_auto.
  - unfold run_request_stop. l_auto.
  - unfold run_force_close. l_auto.
Qed.

Lemma socket_ledger c n a : sock_initiates a = false -> lkept c n (exec cfg a).
Proof.
  destruct a as [ex al sl|ex al sl| |op ty|i|k x ec|i|v|id]; simpl; intros Ha; try done.
  - apply l_request_stop.
  - apply l_emit_cancellation.
  - unfold expire_timer, get_ext, modify_ext. l_auto.
  - unfold session_completes, get_ext. l_auto.
  - unfold run_posted. kept_auto; try done; apply socket_task_ledger.
  - unfold update_registry. l_auto.
  - unfold update_registry. l_auto.
Qed.
End Ledger.

(** ** Stops *)

Section Stop.
Variable cfg : config.

Section Kept.
Variables (m : list bool) (d : bool).

Abbreviation dkeeps p := (typed (E := senv) (S := sworld) (Down m d) any p).

Lemma ds_update s f : dkeeps (modify_ext (update_session s f)).
Proof. by apply d_modify. Qed.

Ltac ds_auto :=
  typed_auto; first [by apply d_modify | by apply d_post | by apply ds_update | by apply d_transition_to].

Lemma ds_session_finish s ec ep : dkeeps (session_finish s ec ep).
Proof. unfold session_finish, get_ext, close_now, session_finished_post. ds_auto. Qed.
Hint Resolve ds_session_finish : typed.

Lemma ds_session_handler s ec : dkeeps (session_handler s ec).
Proof. unfold session_handler, get_ext. ds_auto. Qed.

Lemma ds_report s x : dkeeps (report s x).
Proof. unfold report. ds_auto. Qed.

Lemma ds_session_force_close s : dkeeps (session_force_close s).
Proof. unfold session_force_close. ds_auto. Qed.
Hint Resolve ds_session_handler ds_report ds_session_force_close : typed.

Lemma ds_session_request_stop s : dkeeps (session_request_stop s).
Proof. unfold session_request_stop. ds_auto. Qed.

Lemma ds_session_start s : dkeeps (session_start s).
Proof. unfold session_start, async_run. ds_auto. Qed.

Lemma ds_session_completes s x ec : dkeeps (session_completes s x ec).
Proof. unfold session_completes, get_ext. ds_auto. Qed.

Lemma ds_cancel_timers : dkeeps shutdown_timer_cancel.
Proof.
  apply d_modify. intros w. simpl. rewrite marks_app. split; [|done].
  rewrite <- (app_nil_r (marks (w_queue w))) at 2. f_equal. by induction (b_timers _).
Qed.

Lemma ds_emit type ec ep : dkeeps (emit cfg type ec ep).
Proof. apply d_emit. Qed.
Hint Resolve ds_session_request_stop ds_session_start ds_session_completes ds_cancel_timers ds_emit : typed.

Lemma ds_finish ec r : dkeeps (SocketListener.finish cfg ec r).
Proof. unfold SocketListener.finish, state. ds_auto. Qed.
Hint Resolve ds_finish : typed.

Lemma ds_maybe_finish : dkeeps (maybe_finish cfg).
Proof. unfold maybe_finish, state, get_ext, stop_reason. typed_auto. Qed.
Hint Resolve ds_maybe_finish : typed.

(** What follows the transition to [stopping]. *)
Lemma ds_stop : dkeeps (stop_on_strand cfg).
Proof. unfold stop_on_strand, state, get_ext, arm_shutdown_timer. ds_auto. Qed.

(** Every posted task but a start keeps the marks and does not make the listener run. *)
Lemma ds_run_task t : mark t <> Some true -> dkeeps (run_task cfg t).
Proof.
  intros Ht. destruct t as [h|id h|id| |on h ec|[]]; [by destruct Ht|..]; unfold run_task.
  - apply d_run_wait.
  - apply d_cancel_wait.
  - apply ds_stop.
  - apply d_run_dispatch.
  - unfold shutdown_deadline, get_ext. typed_auto.
  - unfold session_finished, state. ds_auto.
  - typed_auto.
  - apply ds_update.
  - unfold run_force_close. typed_auto.
Qed.
End Kept.

Abbreviation starting m p := (typed (E := senv) (S := sworld) (Down m false) any p).

Lemma ds_start m h : starting m (run_start (start_on_strand cfg) h).
Proof.
  apply d_run_start. intros h'. unfold start_on_strand, bind_socket, state, get_ext.
  typed_auto; first [by apply d_modify | by apply d_transition_to | by apply d_post | by apply ds_finish | by apply ds_emit].
Qed.

(** After a stop the listener is not up, also when the grace timer could not be armed. *)
Lemma ds_stopped m : leads (E := senv) (fun _ => True) (Down m true) (Down m false) (Down m true) (stop_on_strand cfg).
Proof.
  unfold stop_on_strand, state. apply leads_gets. intros st. case_bool_decide as Hi.
  - apply (leads_bind _ _ _ (Down m false)); [|intros _]. { apply leads_modify. by intros w [[] _]. }
    apply (leads_bind _ _ _ (Down m true)); [by apply leads_down | intros _].
    apply leads_keep; [apply ds_finish | done | done].
  - destruct (_ && _) eqn:Hd.
    + apply leads_keep; [by apply typed_ret | intros w [[] Hs] | intros w [[] Hs]]; (split; [done|]); intros _; unfold is_up;
        rewrite Hs; apply andb_true_iff in Hd as [Hd1%negb_true_iff Hd2%negb_true_iff]; by rewrite Hd1, Hd2.
    + apply (leads_bind _ _ _ (Down m false)); [|intros _]. { apply leads_modify. by intros w [[] _]. }
      apply (leads_bind _ _ _ (Down m true)); [by apply leads_down | intros _].
      apply leads_keep; [|done|done]. unfold get_ext, arm_shutdown_timer.
      typed_auto; first [by apply d_modify | by apply ds_session_request_stop | by apply ds_cancel_timers |
        by apply ds_maybe_finish].
Qed.

Lemma socket_run_due i e w :
  in_order w i = true -> stop_due w = true ->
  match run_posted cfg i e w with Ret _ w' | Throw _ w' => stop_due w' = true | Terminate _ => True end.
Proof.
  apply (stop_due_posted_task (run_task cfg)); [intros m d t | intros m h | intros m].
  - apply ds_run_task.
  - apply ds_start.
  - apply ds_stopped.
Qed.

(** Actions that start nothing and run posted starts and stops in order. *)
Definition socket_orderly (w : sworld) (a : action) : bool :=
  match a with
  | AStart _ _ _ => false
  | ARun i => in_order w i
  | _ => true
  end.

Lemma socket_keeps_due a e w :
  socket_orderly w a = true -> stop_due w = true ->
  match exec cfg a e w with Ret _ w' | Throw _ w' => stop_due w' = true | Terminate _ => True end.
Proof.
  intros Ha Hw. destruct a as [ex al sl|ex al sl| |op ty|i|s x ec|i|v|id]; simpl in Ha; unfold exec; [done|..].
  - apply stop_due_kept; [intros; apply d_do_async_wait | done].
  - by apply stop_due_requested.
  - apply stop_due_kept; [intros; apply d_emit_cancellation | done].
  - apply stop_due_kept; [|done]. intros m d. unfold expire_timer, get_ext. typed_auto; [by apply d_modify|].
    apply d_modify. intros w'. simpl. rewrite marks_app. split; [|done]. simpl. by rewrite app_nil_r.
  - apply stop_due_kept; [intros; apply ds_session_completes | done].
  - by apply socket_run_due.
  - exact Hw.
  - exact Hw.
Qed.
End Stop.

(** ** The instance *)

Definition socket_object : Type := config * sworld.

Definition socket_action (a : listener_action action) : action :=
  match a with
  | LStart ex alloc slot => AStart ex alloc slot
  | LWait ex alloc slot => AWait ex alloc slot
  | LRequestStop => ARequestStop
  | LCancel op type => ACancel op type
  | LOwn a => a
  end.

(** Posted tasks, waits whose handler keeps the executor busy, timers, a session that
    holds its handler. *)
Definition socket_work (w : sworld) : bool :=
  negb (bool_decide (length (w_queue w) = 0)) || negb (bool_decide (length (m_waiters w) = 0)) ||
  negb (bool_decide (length (b_timers (w_ext w)) = 0)) || existsb bs_session (b_sessions (w_ext w)).

Global Instance socket_listener : Listener socket_object senv action := {
  l_status l := status_of (fst l) (snd l);
  l_next_op l := w_next_op (snd l);
  l_completed l := w_completed (snd l);
  l_exec a e l := on_world (fst l) (exec (fst l) (socket_action a) e (snd l));
  l_set_registry r l := (fst l, set_w_registry r (snd l));
  l_initiates _ := sock_initiates;
  l_owed l := accounted (snd l);
  l_stop_due l := stop_due (snd l);
  l_orderly l := socket_orderly (snd l);
  l_work l := socket_work (snd l);
  l_inv l := Acct (tgt := initiated) false [] (snd l);
  l_ok := acct_ok }.

Lemma socket_initiation a :
  initiation sock_initiates a = sock_initiates (socket_action a).
Proof. by destruct a. Qed.

Lemma socket_books g a e cfg w :
  acct_ok g e -> Acct (tgt := initiated) false [] w ->
  wp (exec cfg a) e w (fun _ => Booked g (sock_initiates a) true w)
    (fun _ w' => Booked g (sock_initiates a) false w w' /\ (sock_initiates a = true -> g = false)).
Proof.
  intros He H. assert (He' := acct_ok_env _ _ He). destruct (sock_initiates a) eqn:Ha.
  - destruct a as [ex al sl|ex al sl| | | | | | |]; try done; simpl.
    + eapply wp_mono; [by apply (booked_initiate g true) | done | by intros x w' [? ->]].
    + eapply wp_mono; [by apply (booked_initiate g false) | done | by intros x w' [? ->]].
  - eapply wp_mono; [apply (booked_other g) | done | done].
    + apply a_exec; [by rewrite Ha | done | done].
    + apply a_exec; [by rewrite Ha | done |]. unfold Acct. simpl. by destruct g.
    + by apply socket_ledger.
Qed.

(** [request_stop] and a cancellation return. *)
Lemma socket_calls_return cfg a e w :
  a = ARequestStop \/ (exists op type, a = ACancel op type) ->
  wp (exec cfg a) e w (fun _ _ => True) (fun _ _ => False).
Proof.
  intros [-> | (op & type & ->)]; simpl.
  - apply (wp_nothrow anywhere); [apply nt_request_stop, _ | done | done].
  - apply (wp_nothrow anywhere); [apply nt_emit_cancellation, _ | done | done].
Qed.

Lemma socket_not_inline cfg a e w :
  match a with LOwn _ => True | _ =>
    wp (exec cfg (socket_action a)) e w (fun _ w' => w_completed w' = w_completed w)
      (fun _ w' => w_completed w' = w_completed w) end.
Proof.
  destruct a; simpl; try done;
    [by apply n_do_async_start | by apply n_do_async_wait | by apply n_request_stop | by apply n_emit_cancellation].
Qed.

Global Instance socket_laws : ListenerLaws socket_listener.
Proof.
  split.
  - intros [cfg w] H. exact H.
  - intros [cfg w]. simpl. unfold accounted. apply submseteq_inserts_l, submseteq_inserts_l. done.
  - intros g a e [cfg w] He H. simpl.
    assert (Hb := socket_books g (socket_action a) e cfg w He H).
    assert (Hn := socket_not_inline cfg a e w). unfold wp in Hb, Hn. destruct (exec cfg (socket_action a) e w) as [[] w'|x w'|w'] eqn:E; simpl; [| |done].
    + destruct Hb. split; simpl; rewrite ?socket_initiation; done.
    + destruct Hb as [[] Hg]. split.
      { split; simpl; rewrite ?socket_initiation; done. }
      destruct a as [ex al sl|ex al sl| |op ty|a]; simpl in *; [by apply Hg | by apply Hg | | | done].
      * assert (Hr := socket_calls_return cfg ARequestStop e w (or_introl eq_refl)).
        unfold wp in Hr. simpl in Hr. by rewrite E in Hr.
      * assert (Hr := socket_calls_return cfg (ACancel op ty) e w ltac:(eauto)).
        unfold wp in Hr. simpl in Hr. by rewrite E in Hr.
  - intros r [cfg w] H. done.
  - intros a e [cfg w] Ha Hw. assert (H := socket_keeps_due cfg (socket_action a) e w). simpl in *.
    destruct (exec cfg (socket_action a) e w); simpl; [apply H | apply H | done]; by destruct a.
  - intros e [cfg w] He Hs. apply acct_ok_env in He. destruct (stop_due_posted e w (He eq_refl) Hs) as (w' & Hr & Hd).
    simpl. unfold request_stop. by rewrite Hr.
  - by intros r [cfg w].
  - intros [cfg w] op Hw Ho. simpl in *. unfold socket_work in Hw.
    apply orb_false_iff in Hw as [[[Hq Hm]%orb_false_iff _]%orb_false_iff _].
    apply negb_false_iff, bool_decide_eq_true in Hq, Hm. by apply work_owed.
Qed.
