(* ===== verification/Threads.v ===== *)
(** * Threads and atomic actions

    src/server.cpp is called from any thread: it synchronises with atomics,
    compare-and-exchange loops and short critical sections.  Such code is a
    program [prog E W A] over a shared state [W]: a sequence of atomic actions
    between which other threads run.  [step] performs one step of a program;
    [E] is what the outside world answers in this step.  A loop without a bound
    ([for (;;)], [while]) is [PIter].

    [wpt n p r Q X] is the correctness of a program that owns the tokens [r] for
    its next [n] steps, against every interference that keeps the invariant: [Inv
    s r] relates the shared state to all the tokens there are, those of the
    program and those of the other threads.  An action may change its own tokens
    only. *)

From S2P Require Import Prelude Errors.

Inductive prog (E W : Type) : Type -> Type :=
| PRet {A} (a : A) : prog E W A
| PThrow {A} (x : exn) : prog E W A
| PAtomic {A} (f : E -> W -> (exn + A) * W) : prog E W A
| PBind {A B} (p : prog E W A) (k : A -> prog E W B) : prog E W B
| PTry {A} (p : prog E W A) (h : exn -> prog E W A) : prog E W A
| PIter {A B} (body : A -> prog E W (A + B)) (a : A) : prog E W B.
Arguments PRet {E W A}.
Arguments PThrow {E W A}.
Arguments PAtomic {E W A}.
Arguments PBind {E W A B}.
Arguments PTry {E W A}.
Arguments PIter {E W A B}.

Inductive progress (E W A : Type) :=
| Returned (a : A)
| Raised (x : exn)
| Continues (p : prog E W A) (s : W).
Arguments Returned {E W A}.
Arguments Raised {E W A}.
Arguments Continues {E W A}.

Fixpoint step {E W A} (p : prog E W A) (e : E) (s : W) : progress E W A :=
  match p with
  | PRet a => Returned a
  | PThrow x => Raised x
  | PAtomic f =>
    match f e s with
    | (inl x, s') => Continues (PThrow x) s'
    | (inr a, s') => Continues (PRet a) s'
    end
  | PBind p k =>
    match step p e s with
    | Returned a => Continues (k a) s
    | Raised x => Continues (PThrow x) s
    | Continues p' s' => Continues (PBind p' k) s'
    end
  | PTry p h =>
    match step p e s with
    | Returned a => Continues (PRet a) s
    | Raised x => Continues (h x) s
    | Continues p' s' => Continues (PTry p' h) s'
    end
  | PIter body a =>
    Continues (PBind (body a) (fun r => match r with
                                        | inl a' => PIter body a'
                                        | inr b => PRet b
                                        end)) s
  end.

Declare Scope prog_scope.
Delimit Scope prog_scope with prog.
Bind Scope prog_scope with prog.

Notation "x <- m ;; k" := (PBind m (fun x => k))
  (at level 100, m at next level, right associativity) : prog_scope.
Notation "m ;; k" := (PBind m (fun _ => k))
  (at level 100, right associativity) : prog_scope.

Section Actions.
Context {E W : Type}.

Definition read {A} (f : W -> A) : prog E W A := PAtomic (fun _ s => (inr (f s), s)).

Definition write (f : W -> W) : prog E W unit := PAtomic (fun _ s => (inr tt, f s)).

Definition guarded (b : bool) (p : prog E W unit) : prog E W unit := if b then p else PRet tt.

(** A range [for] over a container that does not change. *)
Fixpoint each {A} (l : list A) (f : A -> prog E W unit) : prog E W unit :=
  match l with
  | [] => PRet tt
  | x :: l => PBind (f x) (fun _ => each l f)
  end.

(** The program alone, for at most [n] steps of the given answers. *)
Fixpoint solo {A} (l : list E) (p : prog E W A) (s : W) : option ((exn + A) * W) :=
  match l with
  | [] => None
  | e :: l =>
    match step p e s with
    | Returned a => Some (inr a, s)
    | Raised x => Some (inl x, s)
    | Continues p' s' => solo l p' s'
    end
  end.

(** The program among others: before each of its steps they change the state. *)
Fixpoint disturbed {A} (l : list (E * (W -> W))) (p : prog E W A) (s : W) : option ((exn + A) * W) :=
  match l with
  | [] => None
  | (e, f) :: l =>
    match step p e (f s) with
    | Returned a => Some (inr a, f s)
    | Raised x => Some (inl x, f s)
    | Continues p' s' => disturbed l p' s'
    end
  end.
End Actions.

(** ** A logic of tokens *)

Section Logic.
Context {E W tok : Type} (ok : E -> Prop) (Inv : W -> list tok -> Prop).
Implicit Types (r f : list tok).

Fixpoint wpt (n : nat) {A} (p : prog E W A) (r : list tok)
    (Q : A -> list tok -> Prop) (X : exn -> list tok -> Prop) : Prop :=
  match n with
  | O => True
  | S n =>
    forall e s f, ok e -> Inv s (r ++ f) ->
    match step p e s with
    | Returned a => Q a r
    | Raised x => X x r
    | Continues p' s' => exists r', Inv s' (r' ++ f) /\ wpt n p' r' Q X
    end
  end.

Lemma wpt_mono {A} n m (p : prog E W A) r (Q Q' : A -> list tok -> Prop) (X X' : exn -> list tok -> Prop) :
  m <= n -> wpt n p r Q X -> (forall a r, Q a r -> Q' a r) -> (forall x r, X x r -> X' x r) ->
  wpt m p r Q' X'.
Proof.
  intros Hm H HQ HX. revert n p r Hm H. induction m as [|m IH]; intros n p r Hm H; [done|].
  destruct n as [|n]; [lia|]. intros e s f He Hi. specialize (H e s f He Hi).
  destruct (step p e s); [by apply HQ | by apply HX |]. destruct H as (r' & Hi' & H).
  exists r'. split; [done|]. apply (IH n); [lia | done].
Qed.

Lemma wpt_ret {A} n (a : A) r (Q : A -> list tok -> Prop) X : Q a r -> wpt n (PRet a) r Q X.
Proof. destruct n; [done|]. by intros H e s f _ _. Qed.

Lemma wpt_throw {A} n x r (Q : A -> list tok -> Prop) (X : exn -> list tok -> Prop) :
  X x r -> wpt n (PThrow x) r Q X.
Proof. destruct n; [done|]. by intros H e s f _ _. Qed.

Lemma wpt_atomic {A} n (g : E -> W -> (exn + A) * W) r (Q : A -> list tok -> Prop) (X : exn -> list tok -> Prop) :
  (forall e s f, ok e -> Inv s (r ++ f) ->
     match g e s with
     | (inl x, s') => exists r', Inv s' (r' ++ f) /\ X x r'
     | (inr a, s') => exists r', Inv s' (r' ++ f) /\ Q a r'
     end) ->
  wpt n (PAtomic g) r Q X.
Proof.
  destruct n as [|n]; [done|]. intros H e s f He Hi. specialize (H e s f He Hi). simpl.
  destruct (g e s) as [[x|a] s']; destruct H as (r' & Hi' & H); exists r'; (split; [done|]);
    [by apply wpt_throw | by apply wpt_ret].
Qed.

Lemma wpt_bind {A B} n (p : prog E W A) (k : A -> prog E W B) r Q (X : exn -> list tok -> Prop) :
  wpt n p r (fun a r' => wpt n (k a) r' Q X) X -> wpt n (PBind p k) r Q X.
Proof.
  intros H. cut (forall m, m <= n -> wpt m p r (fun a r' => wpt n (k a) r' Q X) X -> wpt m (PBind p k) r Q X).
  { intros Hc. by apply Hc. }
  clear H. intros m. revert p r. induction m as [|m IH]; intros p r Hm H; [done|].
  intros e s f He Hi. specialize (H e s f He Hi). simpl. destruct (step p e s) as [a|x|p' s'].
  - exists r. split; [done|]. eapply wpt_mono; [|exact H|done|done]. lia.
  - exists r. split; [done|]. by apply wpt_throw.
  - destruct H as (r' & Hi' & H). exists r'. split; [done|]. apply IH; [lia | done].
Qed.

Lemma wpt_try {A} n (p : prog E W A) h r (Q : A -> list tok -> Prop) (X : exn -> list tok -> Prop) :
  wpt n p r Q (fun x r' => wpt n (h x) r' Q X) -> wpt n (PTry p h) r Q X.
Proof.
  intros H. cut (forall m, m <= n -> wpt m p r Q (fun x r' => wpt n (h x) r' Q X) -> wpt m (PTry p h) r Q X).
  { intros Hc. by apply Hc. }
  clear H. intros m. revert p r. induction m as [|m IH]; intros p r Hm H; [done|].
  intros e s f He Hi. specialize (H e s f He Hi). simpl. destruct (step p e s) as [a|x|p' s'].
  - exists r. split; [done|]. by apply wpt_ret.
  - exists r. split; [done|]. eapply wpt_mono; [|exact H|done|done]. lia.
  - destruct H as (r' & Hi' & H). exists r'. split; [done|]. apply IH; [lia | done].
Qed.

(** Loops: [J] holds at the head of every iteration. *)
Lemma wpt_iter {A B} n (body : A -> prog E W (A + B)) a r (Q : B -> list tok -> Prop) X
    (J : A -> list tok -> Prop) :
  (forall a r m, J a r ->
     wpt m (body a) r (fun res r' => match res with inl a' => J a' r' | inr b => Q b r' end) X) ->
  J a r -> wpt n (PIter body a) r Q X.
Proof.
  intros Hb. revert a r. induction n as [|n IH]; intros a r HJ; [done|].
  intros e s f He Hi. simpl. exists r. split; [done|]. apply wpt_bind.
  eapply wpt_mono; [apply Nat.le_refl | by apply Hb | | done].
  intros [a'|b] r' H; [by apply IH | by apply wpt_ret].
Qed.

Lemma wpt_read {A} n (g : W -> A) r (Q : A -> list tok -> Prop) X :
  (forall a, Q a r) -> wpt n (read g) r Q X.
Proof. intros H. apply wpt_atomic. intros e s f _ Hi. by exists r. Qed.

Lemma wpt_guarded n b (p : prog E W unit) r (Q : unit -> list tok -> Prop) X :
  (b = true -> wpt n p r Q X) -> (b = false -> Q tt r) -> wpt n (guarded b p) r Q X.
Proof. intros H1 H2. destruct b; simpl; [by apply H1 | apply wpt_ret; by apply H2]. Qed.

(** [P rest] is what holds when the elements [rest] are still to visit. *)
Lemma wpt_each {A} (l : list A) (g : A -> prog E W unit) n r (P : list A -> list tok -> Prop) X :
  (forall x rest r m, P (x :: rest) r -> wpt m (g x) r (fun _ => P rest) X) ->
  P l r -> wpt n (each l g) r (fun _ => P []) X.
Proof.
  intros Hg. revert n r. induction l as [|x l IH]; intros n r H; simpl; [by apply wpt_ret|].
  apply wpt_bind. eapply wpt_mono; [apply Nat.le_refl | by apply Hg | | done].
  intros [] r' H'. by apply IH.
Qed.

(** What [wpt] says of a program among others that keep the invariant. *)
Lemma wpt_disturbed {A} (l : list (E * (W -> W))) (p : prog E W A) r (Q : A -> list tok -> Prop) X s res s' :
  Forall (fun x => ok (fst x) /\ forall s r, Inv s r -> Inv (snd x s) r) l ->
  (forall n, wpt n p r Q X) -> Inv s r -> disturbed l p s = Some (res, s') ->
  match res with inl x => exists r', X x r' | inr a => exists r', Q a r' end.
Proof.
  intros Hl Hp. specialize (Hp (length l)). revert p r s Hp.
  induction Hl as [|[e f] l [He Hf] _ IH]; intros p r s Hp Hi; simpl; [done|]. simpl in *.
  assert (Hi' : Inv (f s) (r ++ [])) by (rewrite app_nil_r; by apply Hf).
  specialize (Hp e (f s) [] He Hi'). destruct (step p e (f s)) as [a|x|p' s1].
  - intros [= <- _]. eauto.
  - intros [= <- _]. eauto.
  - destruct Hp as (r' & Hi1 & Hp). rewrite app_nil_r in Hi1. by apply IH with r'.
Qed.

(** ** Programs that leave the tokens alone

    [Fail] is what an exception shows, [F] what the result satisfies. *)

Definition neutral (Fail : Prop) {A} (p : prog E W A) (F : A -> Prop) : Prop :=
  forall n r, wpt n p r (fun a r' => r' = r /\ F a) (fun _ r' => r' = r /\ Fail).

Section Neutral.
Context (Fail : Prop).

Abbreviation neutral p F := (neutral Fail p F).

Lemma neutral_mono {A} (p : prog E W A) (F G : A -> Prop) :
  neutral p F -> (forall a, F a -> G a) -> neutral p G.
Proof. intros H HG n r. eapply wpt_mono; [done | apply H | intros a r' [-> ?]; auto | done]. Qed.

Lemma neutral_ret {A} (a : A) (F : A -> Prop) : F a -> neutral (PRet a) F.
Proof. intros H n r. by apply wpt_ret. Qed.

Lemma neutral_throw {A} x (F : A -> Prop) : Fail -> neutral (PThrow x) F.
Proof. intros H n r. by apply wpt_throw. Qed.

Lemma neutral_atomic {A} (g : E -> W -> (exn + A) * W) (F : A -> Prop) :
  (forall e s r, ok e -> Inv s r ->
     Inv (snd (g e s)) r /\ match fst (g e s) with inl _ => Fail | inr a => F a end) ->
  neutral (PAtomic g) F.
Proof.
  intros H n r. apply wpt_atomic. intros e s f He Hi. destruct (H e s (r ++ f) He Hi) as [Hi' Hf].
  destruct (g e s) as [[x|a] s']; by exists r.
Qed.

Lemma neutral_read {A} (g : W -> A) : neutral (read g) (fun _ => True).
Proof. apply neutral_atomic. by intros e s r _ Hi. Qed.

Lemma neutral_write (g : W -> W) : (forall s r, Inv s r -> Inv (g s) r) -> neutral (write g) (fun _ => True).
Proof. intros H. apply neutral_atomic. intros e s r _ Hi. simpl. auto. Qed.

Lemma neutral_bind {A B} (p : prog E W A) (k : A -> prog E W B) (F : A -> Prop) (G : B -> Prop) :
  neutral p F -> (forall a, F a -> neutral (k a) G) -> neutral (PBind p k) G.
Proof.
  intros Hp Hk n r. apply wpt_bind. eapply wpt_mono; [done | apply Hp | | done].
  intros a r' [-> Ha]. by apply Hk.
Qed.

Lemma neutral_try {A} (p : prog E W A) h (F : A -> Prop) :
  neutral p F -> (forall x, Fail -> neutral (h x) F) -> neutral (PTry p h) F.
Proof.
  intros Hp Hk n r. apply wpt_try. eapply wpt_mono; [done | apply Hp | done |].
  intros x r' [-> Hx]. by apply Hk.
Qed.

Lemma neutral_iter {A B} (body : A -> prog E W (A + B)) a (F : B -> Prop) :
  (forall a, neutral (body a) (fun res => match res with inl _ => True | inr b => F b end)) ->
  neutral (PIter body a) F.
Proof.
  intros Hb n r. apply (wpt_iter n body a r _ _ (fun _ r' => r' = r)); [|done].
  intros a' r' m ->. eapply wpt_mono; [done | apply Hb | | done]. by intros [a''|b] r' [-> H].
Qed.

Lemma neutral_each {A} (l : list A) (g : A -> prog E W unit) :
  (forall x, neutral (g x) (fun _ => True)) -> neutral (each l g) (fun _ => True).
Proof.
  intros Hg. induction l as [|x l IH]; simpl; [by apply neutral_ret|]. by eapply neutral_bind.
Qed.

Lemma neutral_guarded b (p : prog E W unit) :
  neutral p (fun _ => True) -> neutral (guarded b p) (fun _ => True).
Proof. intros H. destruct b; [done | by apply neutral_ret]. Qed.
End Neutral.

Lemma neutral_weaken {A} (Fail Fail' : Prop) (p : prog E W A) F :
  (Fail -> Fail') -> neutral Fail p F -> neutral Fail' p F.
Proof. intros HF H n r. eapply wpt_mono; [done | apply H | done |]. intros x r' [-> ?]. auto. Qed.

(** Use a neutral program inside a proof. *)
Lemma wpt_neutral {A} Fail n (p : prog E W A) F r (Q : A -> list tok -> Prop) (X : exn -> list tok -> Prop) :
  neutral Fail p F -> (forall a, F a -> Q a r) -> (forall x, Fail -> X x r) -> wpt n p r Q X.
Proof.
  intros H HQ HX. eapply wpt_mono; [done | apply H | |]; intros ? r' [-> ?]; auto.
Qed.

(** ** Thread pools *)

Context (droppable : tok -> Prop).
Hypothesis Inv_perm : forall s r r', r ≡ₚ r' -> Inv s r -> Inv s r'.
Hypothesis Inv_drop : forall s t f, droppable t -> Inv s (t :: f) -> Inv s f.

(** A thread owns only tokens that may be dropped when it ends. *)
Definition thread_ok (n : nat) (p : prog E W unit) (r : list tok) : Prop :=
  wpt n p r (fun _ r' => Forall droppable r') (fun _ r' => Forall droppable r').

(** [kept]: tokens that no thread owns. *)
Definition pool_with (kept : list tok) (n : nat) (s : W) (ts : list (prog E W unit)) : Prop :=
  exists rs, Inv s (kept ++ concat rs) /\ Forall2 (thread_ok n) ts rs.

Definition pool_ok (n : nat) (s : W) (ts : list (prog E W unit)) : Prop := pool_with [] n s ts.

(** A thread takes a step; a thread that ends, normally or with an exception,
    leaves the pool. *)
Definition run_thread (t : nat) (e : E) (s : W) (ts : list (prog E W unit)) : W * list (prog E W unit) :=
  match ts !! t with
  | None => (s, ts)
  | Some p =>
    match step p e s with
    | Returned _ | Raised _ => (s, remove_at t ts)
    | Continues p' s' => (s', <[t := p']> ts)
    end
  end.

Lemma pool_mono kept n m s ts : m <= n -> pool_with kept n s ts -> pool_with kept m s ts.
Proof.
  intros Hm (rs & Hi & H). exists rs. split; [done|]. eapply Forall2_impl; [exact H|].
  intros p r Hp. by eapply wpt_mono.
Qed.

Lemma drop_all s r f : Forall droppable r -> Inv s (r ++ f) -> Inv s f.
Proof. induction 1 as [|x r Hx _ IH]; simpl; [done|]. intros H. by apply IH, (Inv_drop _ x). Qed.

Lemma pool_run_with kept n t e s ts s' ts' :
  ok e -> pool_with kept (S n) s ts -> run_thread t e s ts = (s', ts') -> pool_with kept n s' ts'.
Proof.
  intros He Hp. unfold run_thread.
  destruct (ts !! t) as [p|] eqn:Ht; [|intros [= <- <-]; eapply pool_mono; [|exact Hp]; lia].
  destruct Hp as (rs & Hi & H).
  destruct (Forall2_lookup_l _ _ _ _ _ H Ht) as (r & Hr & Hw).
  assert (Hperm : kept ++ concat rs ≡ₚ r ++ kept ++ concat (take t rs ++ drop (S t) rs)).
  { rewrite <- (take_drop_middle rs t r Hr) at 1. rewrite !concat_app. simpl. solve_Permutation. }
  specialize (Hw e s _ He (Inv_perm _ _ _ Hperm Hi)).
  assert (Hl : Forall2 (thread_ok n) ts rs).
  { eapply Forall2_impl; [exact H|]. intros q r' Hq. eapply wpt_mono; [|exact Hq|done|done]. lia. }
  assert (Hrm : Inv s (kept ++ concat (take t rs ++ drop (S t) rs)) -> pool_with kept n s (remove_at t ts)).
  { intros Hi'. exists (take t rs ++ drop (S t) rs). split; [done|].
    apply Forall2_app; [by apply Forall2_take | by apply Forall2_drop]. }
  destruct (step p e s) as [a|x|p' s1]; intros [= <- <-].
  - apply Hrm, (drop_all _ r _ Hw). by apply (Inv_perm _ _ _ Hperm).
  - apply Hrm, (drop_all _ r _ Hw). by apply (Inv_perm _ _ _ Hperm).
  - destruct Hw as (r' & Hi' & Hw). exists (<[t := r']> rs). split; [|by apply Forall2_insert].
    eapply Inv_perm; [|exact Hi']. rewrite insert_take_drop by (by eapply lookup_lt_Some).
    rewrite !concat_app. simpl. solve_Permutation.
Qed.

Lemma pool_run n t e s ts s' ts' :
  ok e -> pool_ok (S n) s ts -> run_thread t e s ts = (s', ts') -> pool_ok n s' ts'.
Proof. apply pool_run_with. Qed.

Lemma pool_spawn_with kept kept' n s s' ts ps ts' :
  pool_with kept n s ts -> Forall2 (thread_ok n) ps ts' ->
  (forall f, Inv s (kept ++ f) -> Inv s' (kept' ++ concat ts' ++ f)) ->
  pool_with kept' n s' (ts ++ ps).
Proof.
  intros (rs & Hi & H) Hp Hs. exists (rs ++ ts'). split; [|by apply Forall2_app].
  eapply Inv_perm; [|by apply Hs]. rewrite concat_app. solve_Permutation.
Qed.

Lemma pool_spawn n s s' ts ps ts' :
  pool_ok n s ts -> Forall2 (thread_ok n) ps ts' -> (forall f, Inv s f -> Inv s' (concat ts' ++ f)) ->
  pool_ok n s' (ts ++ ps).
Proof. apply (pool_spawn_with [] []). Qed.

Lemma pool_spawn_one n s s' ts p r :
  pool_ok n s ts -> thread_ok n p r -> (forall f, Inv s f -> Inv s' (r ++ f)) -> pool_ok n s' (ts ++ [p]).
Proof.
  intros H Hp Hs. apply (pool_spawn n s s' ts [p] [r]); [done | by repeat constructor|].
  intros f Hf. simpl. rewrite app_nil_r. by apply Hs.
Qed.

Lemma pool_update_with kept n s s' ts :
  pool_with kept n s ts -> (forall f, Inv s f -> Inv s' f) -> pool_with kept n s' ts.
Proof. intros (rs & Hi & H) Hs. exists rs. auto. Qed.

Lemma pool_update n s s' ts :
  pool_ok n s ts -> (forall f, Inv s f -> Inv s' f) -> pool_ok n s' ts.
Proof. apply pool_update_with. Qed.
End Logic.

(** ** A thread alone

    [ends p s Q]: with no interference [p] ends, whatever the outside world answers,
    and [Q] holds of its result and the final state. *)

Section Alone.
Context {E W : Type} (ok : E -> Prop).

Inductive ends {A} (Q : exn + A -> W -> Prop) : prog E W A -> W -> Prop :=
| ends_step p s :
    (forall e a, ok e -> step p e s = Returned a -> Q (inr a) s) ->
    (forall e x, ok e -> step p e s = Raised x -> Q (inl x) s) ->
    (forall e p' s', ok e -> step p e s = Continues p' s' -> ends Q p' s') ->
    ends Q p s.

(** So the thread finishes in every infinite sequence of answers. *)
Lemma ends_solo {A} (Q : exn + A -> W -> Prop) p s :
  ends Q p s -> forall f : nat -> E, (forall i, ok (f i)) ->
  exists n r s', solo (map f (seq 0 n)) p s = Some (r, s') /\ Q r s'.
Proof.
  induction 1 as [p s Hr Hx _ IH]. intros f Hf. destruct (step p (f 0) s) as [a|x|p' s1] eqn:Hs.
  - exists 1, (inr a), s. simpl. rewrite Hs. eauto.
  - exists 1, (inl x), s. simpl. rewrite Hs. eauto.
  - destruct (IH _ _ _ (Hf 0) Hs (fun i => f (S i)) (fun i => Hf (S i))) as (n & r & s' & Hsolo & HQ).
    exists (S n), r, s'. split; [|done]. simpl. rewrite Hs, <- Hsolo, <- seq_shift, map_map. done.
Qed.

Lemma ends_mono {A} (Q Q' : exn + A -> W -> Prop) p s :
  ends Q p s -> (forall r s', Q r s' -> Q' r s') -> ends Q' p s.
Proof. intros H HQ. induction H as [p s Hr Hx _ IH]. apply ends_step; eauto. Qed.

Lemma ends_ret {A} (Q : exn + A -> W -> Prop) a s : Q (inr a) s -> ends Q (PRet a) s.
Proof. intros H. apply ends_step; intros; simplify_eq/=; done. Qed.

Lemma ends_throw {A} (Q : exn + A -> W -> Prop) x s : Q (inl x) s -> ends Q (PThrow x) s.
Proof. intros H. apply ends_step; intros; simplify_eq/=; done. Qed.

Lemma ends_atomic {A} (Q : exn + A -> W -> Prop) g s :
  (forall e, ok e -> Q (fst (g e s)) (snd (g e s))) -> ends Q (PAtomic g) s.
Proof.
  intros H. apply ends_step; simpl.
  - intros e a He Hs. by destruct (g e s) as [[]].
  - intros e x He Hs. by destruct (g e s) as [[]].
  - intros e p' s' He Hs. specialize (H e He). destruct (g e s) as [[x|a] s1]; injection Hs as <- <-;
      [by apply ends_throw | by apply ends_ret].
Qed.

Lemma ends_read {A} (Q : exn + A -> W -> Prop) g s : Q (inr (g s)) s -> ends Q (read g) s.
Proof. intros H. by apply ends_atomic. Qed.

Lemma ends_write (Q : exn + unit -> W -> Prop) g s : Q (inr tt) (g s) -> ends Q (write g) s.
Proof. intros H. by apply ends_atomic. Qed.

Lemma ends_bind {A B} (Q : exn + B -> W -> Prop) (p : prog E W A) k s :
  ends (fun r s' => match r with inl x => Q (inl x) s' | inr a => ends Q (k a) s' end) p s -> ends Q (PBind p k) s.
Proof.
  induction 1 as [p s Hr Hx _ IH]. apply ends_step; simpl.
  - intros e b He Hs. by destruct (step p e s).
  - intros e x He Hs. by destruct (step p e s).
  - intros e q s' He Hs. destruct (step p e s) as [a|x|p' s1] eqn:Hp; injection Hs as <- <-;
      [exact (Hr _ _ He Hp) | apply ends_throw; exact (Hx _ _ He Hp) | exact (IH _ _ _ He Hp)].
Qed.

Lemma ends_try {A} (Q : exn + A -> W -> Prop) p h s :
  ends (fun r s' => match r with inl x => ends Q (h x) s' | inr a => Q (inr a) s' end) p s -> ends Q (PTry p h) s.
Proof.
  induction 1 as [p s Hr Hx _ IH]. apply ends_step; simpl.
  - intros e b He Hs. by destruct (step p e s).
  - intros e x He Hs. by destruct (step p e s).
  - intros e q s' He Hs. destruct (step p e s) as [a|x|p' s1] eqn:Hp; injection Hs as <- <-;
      [apply ends_ret; exact (Hr _ _ He Hp) | exact (Hx _ _ He Hp) | exact (IH _ _ _ He Hp)].
Qed.

Lemma ends_iter {A B} (Q : exn + B -> W -> Prop) (body : A -> prog E W (A + B)) a s :
  ends (fun r s' => match r with
                    | inl x => Q (inl x) s'
                    | inr (inl a') => ends Q (PIter body a') s'
                    | inr (inr b) => Q (inr b) s'
                    end) (body a) s -> ends Q (PIter body a) s.
Proof.
  intros H. apply ends_step; simpl; [done | done|]. intros e q s' _ [= <- <-]. apply ends_bind.
  eapply ends_mono; [exact H|]. intros [x|[a'|b]] s'; [done | done|]. by apply ends_ret.
Qed.

(** [J rest] holds when the elements [rest] are still to visit. *)
Lemma ends_each {A} (J : list A -> W -> Prop) (Q : exn + unit -> W -> Prop) l (g : A -> prog E W unit) s :
  (forall x rest s, J (x :: rest) s -> ends (fun r s' => r = inr tt /\ J rest s') (g x) s) ->
  (forall s, J [] s -> Q (inr tt) s) -> J l s -> ends Q (each l g) s.
Proof.
  intros Hg HQ. revert s. induction l as [|x l IH]; intros s HJ; simpl; [by apply ends_ret, HQ|].
  apply ends_bind. eapply ends_mono; [by apply Hg|]. intros r s' [-> HJ']. by apply IH.
Qed.
End Alone.

(** Decompose a program; actions and calls are left to the hints. *)
Ltac neutral_step :=
  lazymatch goal with
  | |- neutral _ _ _ (PBind _ _) _ => eapply neutral_bind; [|intros ? ?]
  | |- neutral _ _ _ (PRet _) _ => apply neutral_ret
  | |- neutral _ _ _ (read _) _ => eapply neutral_mono; [apply neutral_read | intros ? _]
  | |- neutral _ _ _ (PTry _ _) _ => apply neutral_try; [|intros ? ?]
  | |- neutral _ _ _ (PIter _ _) _ => apply neutral_iter; intros ?
  | |- neutral _ _ _ (each _ _) _ => eapply neutral_mono; [apply neutral_each; intros ? | intros ? _]
  | |- neutral _ _ _ (guarded _ _) _ => eapply neutral_mono; [apply neutral_guarded | intros ? _]
  | |- neutral _ _ _ (if ?b then _ else _) _ => destruct b
  | |- neutral _ _ _ (match ?x with _ => _ end) _ => destruct x
  end.

Create HintDb neutral discriminated.

Ltac neutral_auto := repeat (neutral_step || exact I || (solve [eauto with neutral]) || done).
