(* ===== verification/ServerState.v ===== *)
(** * The state of a server

    What src/server.cpp keeps: the atomics of [server_control], the fields of
    [server_implementation], the heap of [listener_operation_group]s, the listeners
    (objects of any class with a [Listener] instance, referred to by their position
    in [m_listeners], which only grows), and what surrounds them: the tasks posted
    to the server's executor, the cancellation slots of the pending operations and
    the completion handlers the groups gave to the listeners.

    Server functions run on any thread: they are [prog]rams, one atomic action per
    access to shared state.  A call of a listener is one action: it only posts to
    the listener's strand. *)

From S2P Require Import Prelude Errors Effect Options Endpoint Status Observers ListenerBase.
From S2P Require Import ListenerInterface Threads.

(** A closure posted to the server's executor. *)
Inductive server_task :=
| SNotify (event : server_event)                                          (* server_control::emit *)
| SDispatch (on : executor) (h : option completion_handler) (ec : error_code). (* complete_on *)

(** [listener_operation_group].  [g_listeners]: addresses of the listeners;
    [g_signals]: for each cancellation signal, the operation that connected its
    slot; [g_wait]: [m_finished] is the closure of [do_async_wait]. *)
Record group := mk_group {
  g_listeners : list nat;
  g_signals : list (option nat);
  g_remaining : Z;
  g_initiation_ecs : list error_code;
  g_first_ec : error_code;
  g_cancelled : Z;
  g_stop_on_error : bool;
  g_wait : bool;
  g_completion : option completion_handler }.

Definition set_g_listeners (v : list nat) (g : group) : group :=
  mk_group v (g_signals g) (g_remaining g) (g_initiation_ecs g) (g_first_ec g) (g_cancelled g)
    (g_stop_on_error g) (g_wait g) (g_completion g).

Definition set_g_signals (v : list (option nat)) (g : group) : group :=
  mk_group (g_listeners g) v (g_remaining g) (g_initiation_ecs g) (g_first_ec g) (g_cancelled g)
    (g_stop_on_error g) (g_wait g) (g_completion g).

Definition set_g_remaining (v : Z) (g : group) : group :=
  mk_group (g_listeners g) (g_signals g) v (g_initiation_ecs g) (g_first_ec g) (g_cancelled g)
    (g_stop_on_error g) (g_wait g) (g_completion g).

Definition set_g_initiation_ecs (v : list error_code) (g : group) : group :=
  mk_group (g_listeners g) (g_signals g) (g_remaining g) v (g_first_ec g) (g_cancelled g)
    (g_stop_on_error g) (g_wait g) (g_completion g).

Definition set_g_first_ec (v : error_code) (g : group) : group :=
  mk_group (g_listeners g) (g_signals g) (g_remaining g) (g_initiation_ecs g) v (g_cancelled g)
    (g_stop_on_error g) (g_wait g) (g_completion g).

Definition set_g_cancelled (v : Z) (g : group) : group :=
  mk_group (g_listeners g) (g_signals g) (g_remaining g) (g_initiation_ecs g) (g_first_ec g) v
    (g_stop_on_error g) (g_wait g) (g_completion g).

Definition set_g_stop_on_error (v : bool) (g : group) : group :=
  mk_group (g_listeners g) (g_signals g) (g_remaining g) (g_initiation_ecs g) (g_first_ec g)
    (g_cancelled g) v (g_wait g) (g_completion g).

Definition set_g_wait (v : bool) (g : group) : group :=
  mk_group (g_listeners g) (g_signals g) (g_remaining g) (g_initiation_ecs g) (g_first_ec g)
    (g_cancelled g) (g_stop_on_error g) v (g_completion g).

Definition set_g_completion (v : option completion_handler) (g : group) : group :=
  mk_group (g_listeners g) (g_signals g) (g_remaining g) (g_initiation_ecs g) (g_first_ec g)
    (g_cancelled g) (g_stop_on_error g) (g_wait g) v.

(** [v_children]: (listener, operation, group) for every handler a group gave to a
    listener.  The last four fields are history, which the code does not read: the
    states [m_state] went through, whether [request_stop] was the last to make the
    server stop, the listeners a group started and nobody has asked to stop since, and
    those that were stopped at the moment of the last request, which they ignore. *)
Record server_world (L : Type) := mk_server_world {
  v_state : server_state.t;
  v_generation : Z;
  v_locked : bool;
  v_listeners : list L;
  v_next_listener_id : Z;
  v_registry : observer_registry;
  v_groups : list group;
  v_slots : gmap nat nat;
  v_children : list (nat * nat * nat);
  v_next_op : nat;
  v_queue : list server_task;
  v_completed : list (executor * nat * error_code);
  v_events : list server_event;
  v_calls : list (observer * server_event);
  v_path : list server_state.t;
  v_stop_requested : bool;
  v_armed : gset nat;
  v_skipped : gset nat }.
Arguments mk_server_world {L}.
Arguments v_state {L}.
Arguments v_generation {L}.
Arguments v_locked {L}.
Arguments v_listeners {L}.
Arguments v_next_listener_id {L}.
Arguments v_registry {L}.
Arguments v_groups {L}.
Arguments v_slots {L}.
Arguments v_children {L}.
Arguments v_next_op {L}.
Arguments v_queue {L}.
Arguments v_completed {L}.
Arguments v_events {L}.
Arguments v_calls {L}.
Arguments v_path {L}.
Arguments v_stop_requested {L}.
Arguments v_armed {L}.
Arguments v_skipped {L}.

Section Setters.
Context {L : Type}.

Definition set_v_state (v : server_state.t) (s : server_world L) : server_world L :=
  mk_server_world v (v_generation s) (v_locked s) (v_listeners s) (v_next_listener_id s)
    (v_registry s) (v_groups s) (v_slots s) (v_children s) (v_next_op s) (v_queue s)
    (v_completed s) (v_events s) (v_calls s) (v_path s) (v_stop_requested s) (v_armed s) (v_skipped s).

Definition set_v_generation (v : Z) (s : server_world L) : server_world L :=
  mk_server_world (v_state s) v (v_locked s) (v_listeners s) (v_next_listener_id s) (v_registry s)
    (v_groups s) (v_slots s) (v_children s) (v_next_op s) (v_queue s) (v_completed s) (v_events s)
    (v_calls s) (v_path s) (v_stop_requested s) (v_armed s) (v_skipped s).

Definition set_v_locked (v : bool) (s : server_world L) : server_world L :=
  mk_server_world (v_state s) (v_generation s) v (v_listeners s) (v_next_listener_id s)
    (v_registry s) (v_groups s) (v_slots s) (v_children s) (v_next_op s) (v_queue s)
    (v_completed s) (v_events s) (v_calls s) (v_path s) (v_stop_requested s) (v_armed s) (v_skipped s).

Definition set_v_listeners (v : list L) (s : server_world L) : server_world L :=
  mk_server_world (v_state s) (v_generation s) (v_locked s) v (v_next_listener_id s) (v_registry s)
    (v_groups s) (v_slots s) (v_children s) (v_next_op s) (v_queue s) (v_completed s) (v_events s)
    (v_calls s) (v_path s) (v_stop_requested s) (v_armed s) (v_skipped s).

Definition set_v_next_listener_id (v : Z) (s : server_world L) : server_world L :=
  mk_server_world (v_state s) (v_generation s) (v_locked s) (v_listeners s) v (v_registry s)
    (v_groups s) (v_slots s) (v_children s) (v_next_op s) (v_queue s) (v_completed s) (v_events s)
    (v_calls s) (v_path s) (v_stop_requested s) (v_armed s) (v_skipped s).

Definition set_v_registry (v : observer_registry) (s : server_world L) : server_world L :=
  mk_server_world (v_state s) (v_generation s) (v_locked s) (v_listeners s) (v_next_listener_id s)
    v (v_groups s) (v_slots s) (v_children s) (v_next_op s) (v_queue s) (v_completed s)
    (v_events s) (v_calls s) (v_path s) (v_stop_requested s) (v_armed s) (v_skipped s).

Definition set_v_groups (v : list group) (s : server_world L) : server_world L :=
  mk_server_world (v_state s) (v_generation s) (v_locked s) (v_listeners s) (v_next_listener_id s)
    (v_registry s) v (v_slots s) (v_children s) (v_next_op s) (v_queue s) (v_completed s)
    (v_events s) (v_calls s) (v_path s) (v_stop_requested s) (v_armed s) (v_skipped s).

Definition set_v_slots (v : gmap nat nat) (s : server_world L) : server_world L :=
  mk_server_world (v_state s) (v_generation s) (v_locked s) (v_listeners s) (v_next_listener_id s)
    (v_registry s) (v_groups s) v (v_children s) (v_next_op s) (v_queue s) (v_completed s)
    (v_events s) (v_calls s) (v_path s) (v_stop_requested s) (v_armed s) (v_skipped s).

Definition set_v_children (v : list (nat * nat * nat)) (s : server_world L) : server_world L :=
  mk_server_world (v_state s) (v_generation s) (v_locked s) (v_listeners s) (v_next_listener_id s)
    (v_registry s) (v_groups s) (v_slots s) v (v_next_op s) (v_queue s) (v_completed s)
    (v_events s) (v_calls s) (v_path s) (v_stop_requested s) (v_armed s) (v_skipped s).

Definition set_v_next_op (v : nat) (s : server_world L) : server_world L :=
  mk_server_world (v_state s) (v_generation s) (v_locked s) (v_listeners s) (v_next_listener_id s)
    (v_registry s) (v_groups s) (v_slots s) (v_children s) v (v_queue s) (v_completed s)
    (v_events s) (v_calls s) (v_path s) (v_stop_requested s) (v_armed s) (v_skipped s).

Definition set_v_queue (v : list server_task) (s : server_world L) : server_world L :=
  mk_server_world (v_state s) (v_generation s) (v_locked s) (v_listeners s) (v_next_listener_id s)
    (v_registry s) (v_groups s) (v_slots s) (v_children s) (v_next_op s) v (v_completed s)
    (v_events s) (v_calls s) (v_path s) (v_stop_requested s) (v_armed s) (v_skipped s).

Definition set_v_completed (v : list (executor * nat * error_code)) (s : server_world L) : server_world L :=
  mk_server_world (v_state s) (v_generation s) (v_locked s) (v_listeners s) (v_next_listener_id s)
    (v_registry s) (v_groups s) (v_slots s) (v_children s) (v_next_op s) (v_queue s) v (v_events s)
    (v_calls s) (v_path s) (v_stop_requested s) (v_armed s) (v_skipped s).

Definition set_v_events (v : list server_event) (s : server_world L) : server_world L :=
  mk_server_world (v_state s) (v_generation s) (v_locked s) (v_listeners s) (v_next_listener_id s)
    (v_registry s) (v_groups s) (v_slots s) (v_children s) (v_next_op s) (v_queue s)
    (v_completed s) v (v_calls s) (v_path s) (v_stop_requested s) (v_armed s) (v_skipped s).

Definition set_v_calls (v : list (observer * server_event)) (s : server_world L) : server_world L :=
  mk_server_world (v_state s) (v_generation s) (v_locked s) (v_listeners s) (v_next_listener_id s)
    (v_registry s) (v_groups s) (v_slots s) (v_children s) (v_next_op s) (v_queue s)
    (v_completed s) (v_events s) v (v_path s) (v_stop_requested s) (v_armed s) (v_skipped s).

Definition set_v_path (v : list server_state.t) (s : server_world L) : server_world L :=
  mk_server_world (v_state s) (v_generation s) (v_locked s) (v_listeners s) (v_next_listener_id s)
    (v_registry s) (v_groups s) (v_slots s) (v_children s) (v_next_op s) (v_queue s)
    (v_completed s) (v_events s) (v_calls s) v (v_stop_requested s) (v_armed s) (v_skipped s).

Definition set_v_stop_requested (v : bool) (s : server_world L) : server_world L :=
  mk_server_world (v_state s) (v_generation s) (v_locked s) (v_listeners s) (v_next_listener_id s)
    (v_registry s) (v_groups s) (v_slots s) (v_children s) (v_next_op s) (v_queue s)
    (v_completed s) (v_events s) (v_calls s) (v_path s) v (v_armed s) (v_skipped s).

Definition set_v_armed (v : gset nat) (s : server_world L) : server_world L :=
  mk_server_world (v_state s) (v_generation s) (v_locked s) (v_listeners s) (v_next_listener_id s)
    (v_registry s) (v_groups s) (v_slots s) (v_children s) (v_next_op s) (v_queue s)
    (v_completed s) (v_events s) (v_calls s) (v_path s) (v_stop_requested s) v (v_skipped s).

Definition set_v_skipped (v : gset nat) (s : server_world L) : server_world L :=
  mk_server_world (v_state s) (v_generation s) (v_locked s) (v_listeners s) (v_next_listener_id s)
    (v_registry s) (v_groups s) (v_slots s) (v_children s) (v_next_op s) (v_queue s)
    (v_completed s) (v_events s) (v_calls s) (v_path s) (v_stop_requested s) (v_armed s) v.
End Setters.

(** Answers of the outside world during one action. *)
Record server_env (E : Type) := mk_server_env {
  x_spurious : bool;                        (* compare_exchange_weak fails spuriously *)
  x_post : server_task -> option exn;
  x_listener : E }.
Arguments mk_server_env {E}.
Arguments x_spurious {E}.
Arguments x_post {E}.
Arguments x_listener {E}.

(** ** Actions on the shared state *)

Section Actions.
Context {L E A : Type} `{Listener L E A}.

Abbreviation P := (prog (server_env E) (server_world L)).

Definition set_listener (i : nat) (l : L) (s : server_world L) : server_world L :=
  set_v_listeners (<[i := l]> (v_listeners s)) s.

Definition update_group (k : nat) (f : group -> group) (s : server_world L) : server_world L :=
  set_v_groups (alter f k (v_groups s)) s.

(** [boost::asio::post(m_executor, t)]. *)
Definition post_server (t : server_task) : P unit :=
  PAtomic (fun e s => match x_post e t with
                      | Some x => (inl x, s)
                      | None => (inr tt, set_v_queue (v_queue s ++ [t]) s)
                      end).

(** A call of listener [i].  A listener never calls [std::terminate]; were it to, no
    thread would go on. *)
Definition call_listener (i : nat) (a : listener_action A) : P unit :=
  PAtomic (fun e s =>
    match v_listeners s !! i with
    | None => (inr tt, s)
    | Some l =>
      match l_exec a (x_listener e) l with
      | Ret _ l' => (inr tt, set_listener i l' s)
      | Throw x l' => (inl x, set_listener i l' s)
      | Terminate l' => (inl (other_exception "std::terminate"), set_listener i l' s)
      end
    end).

(** The history of a request: a listener that is stopped ignores it. *)
Definition asked_to_stop (i : nat) (l : L) (s : server_world L) : server_world L :=
  set_v_armed (v_armed s ∖ {[i]})
    (set_v_skipped (if bool_decide (ls_state (l_status l) = listener_state.stopped)
                    then {[i]} ∪ v_skipped s else v_skipped s ∖ {[i]}) s).

(** [value->request_stop()]. *)
Definition stop_listener (i : nat) : P unit :=
  PAtomic (fun e s =>
    match v_listeners s !! i with
    | None => (inr tt, s)
    | Some l =>
      match l_exec LRequestStop (x_listener e) l with
      | Ret _ l' => (inr tt, asked_to_stop i l (set_listener i l' s))
      | Throw _ l' | Terminate l' => (inl (other_exception "std::terminate"), set_listener i l' s)
      end
    end).

(** [m_impl->m_mutex]. *)
Definition lock : P unit :=
  PIter (fun _ : unit =>
    PAtomic (fun _ s => if v_locked s then (inr (inl tt), s) else (inr (inr tt), set_v_locked true s))) tt.

Definition unlock : P unit := write (set_v_locked false).
End Actions.
