(* ===== verification/ServerControl.v ===== *)
(** * The coordinated server state

    [server_control] of src/server.cpp: the server state and generation, changed by
    compare-and-exchange loops that any thread may run, and the events that
    announce each change.  The event is built from separate reads after the change,
    so its status may already show a later state. *)

From S2P Require Import Prelude Errors Effect Options Endpoint Status Observers ListenerBase.
From S2P Require Import ListenerInterface Threads ServerState.

Local Open Scope Z_scope.
Local Open Scope prog_scope.

Section Control.
Context {L E A : Type} `{Listener L E A}.

Abbreviation P := (prog (server_env E) (server_world L)).

(** ** Atomics *)

Definition load_state : P server_state.t := read v_state.

(** [m_state] takes the value [next]; [requested]: [request_stop] did it. *)
Definition enter_state (next : server_state.t) (requested : bool) (s : server_world L) : server_world L :=
  set_v_stop_requested requested (set_v_path (v_path s ++ [next]) (set_v_state next s)).

(** [compare_exchange_weak(expected, next)]: [None] on success, else the value
    [expected] is updated with.  It may fail spuriously. *)
Definition compare_exchange_weak (expected next : server_state.t) (requested : bool)
    : P (option server_state.t) :=
  PAtomic (fun e s =>
    if bool_decide (v_state s = expected) && negb (x_spurious e)
    then (inr None, enter_state next requested s)
    else (inr (Some (v_state s)), s)).

Definition compare_exchange_strong (expected next : server_state.t) : P (option server_state.t) :=
  PAtomic (fun _ s =>
    if bool_decide (v_state s = expected)
    then (inr None, enter_state next false s)
    else (inr (Some (v_state s)), s)).

(** [exchange(next)]; a change of state only is recorded. *)
Definition exchange_state (next : server_state.t) : P server_state.t :=
  PAtomic (fun _ s =>
    (inr (v_state s), if bool_decide (v_state s = next) then s else enter_state next false s)).

(** ** Status *)

(** [item->status()]. *)
Definition listener_status_of (i : nat) : P (option listener_status) :=
  read (fun s => match v_listeners s !! i with Some l => Some (l_status l) | None => None end).

(** The loop of [status]: the listeners still to visit and the value so far. *)
Fixpoint status_loop (listeners : list nat) (value : server_status) : P server_status :=
  match listeners with
  | [] => PRet value
  | i :: listeners =>
    item <- listener_status_of i;;
    status_loop listeners
      (match item with
       | None => value
       | Some st =>
         {| ss_state := ss_state value;
            ss_generation := ss_generation value;
            ss_active_sessions := u64 (ss_active_sessions value + ls_active_sessions st);
            ss_ready := ss_ready value && bool_decide (ls_state st = listener_state.running);
            ss_listeners := ss_listeners value ++ [st] |}
       end)
  end.

Definition status (listeners : list nat) : P server_status :=
  st <- load_state;;
  generation <- read v_generation;;
  status_loop listeners
    {| ss_state := st; ss_generation := generation; ss_active_sessions := 0;
       ss_ready := negb (bool_decide (listeners = [])) && bool_decide (st = server_state.running);
       ss_listeners := [] |}.

Definition emit (type : server_event_type) (listeners : list nat) (ec : error_code) : P unit :=
  PTry
    (st <- status listeners;;
     post_server (SNotify {| se_type := type; se_status := st; se_error := ec |}))
    (fun _ => PRet tt).

(** ** Transitions *)

Definition begin_start (listeners : list nat) : P bool :=
  current <- load_state;;
  PIter (fun current =>
    if bool_decide (current = server_state.starting) || bool_decide (current = server_state.running)
    then PRet (inr true)
    else if bool_decide (current = server_state.stopping) then PRet (inr false)
    else
      r <- compare_exchange_weak current server_state.starting false;;
      match r with
      | None =>
        write (fun s => set_v_generation (u64 (v_generation s + 1)) s);;
        emit ev_starting listeners success;;
        PRet (inr true)
      | Some current => PRet (inl current)
      end) current.

(** [while (current != stopping && current != stopped)] with the exchange to
    [stopping] in its body; [after] runs when it succeeds. *)
Definition stopping_loop (requested : bool) (after : P unit) : P unit :=
  current <- load_state;;
  PIter (fun current =>
    if bool_decide (current = server_state.stopping) || bool_decide (current = server_state.stopped)
    then PRet (inr tt)
    else
      r <- compare_exchange_weak current server_state.stopping requested;;
      match r with
      | None => after;; PRet (inr tt)
      | Some current => PRet (inl current)
      end) current.

Definition finish_start (listeners : list nat) (ec : error_code) : P error_code :=
  if failed ec then
    stopping_loop false (emit ev_stopping listeners ec);;
    PRet ec
  else
    r <- compare_exchange_strong server_state.starting server_state.running;;
    match r with
    | None => emit ev_running listeners success;; PRet success
    | Some expected =>
      if bool_decide (expected = server_state.running) then PRet success
      else PRet operation_aborted
    end.

Definition control_request_stop (listeners : list nat) : P unit :=
  PTry (stopping_loop true (emit ev_stopping listeners success)) (fun _ => PRet tt).

Definition finish_wait (listeners : list nat) (ec : error_code) : P error_code :=
  previous <- exchange_state server_state.stopped;;
  guarded (negb (bool_decide (previous = server_state.stopped))) (emit ev_stopped listeners ec);;
  PRet ec.

Definition stop_requested : P bool :=
  current <- load_state;;
  PRet (bool_decide (current = server_state.stopping) || bool_decide (current = server_state.stopped)).
End Control.
