(* ===== verification/OperationGroup.v ===== *)
(** * Operations on several listeners

    [listener_operation_group] of src/server.cpp: one asynchronous operation on each
    listener of a snapshot, joined into one completion.  A critical section under
    [m_mutex] is one action. *)

From S2P Require Import Prelude Errors Effect Options Endpoint Status Observers ListenerBase.
From S2P Require Import ListenerInterface Threads ServerState ServerControl.

Local Open Scope Z_scope.
Local Open Scope prog_scope.

Section Group.
Context {L E A : Type} `{Listener L E A} (m_executor : executor).

Abbreviation P := (prog (server_env E) (server_world L)).

(** [detail::complete_on(m_executor, handler, ec)]. *)
Definition complete_on_server (h : option completion_handler) (ec : error_code) : P unit :=
  post_server (SDispatch (get_associated_executor h m_executor) h ec).

(** [std::make_shared<listener_operation_group>(...)]. *)
Definition make_group (listeners : list nat) (stop_on_error wait : bool) (h : completion_handler) : group :=
  {| g_listeners := listeners;
     g_signals := replicate (length listeners) None;
     g_remaining := Z.of_nat (length listeners);
     g_initiation_ecs := replicate (length listeners) success;
     g_first_ec := success;
     g_cancelled := 0;
     g_stop_on_error := stop_on_error;
     g_wait := wait;
     g_completion := Some h |}.

Definition new_group (listeners : list nat) (stop_on_error wait : bool) (h : completion_handler) : P nat :=
  PAtomic (fun _ s =>
    (inr (length (v_groups s)),
     set_v_groups (v_groups s ++ [make_group listeners stop_on_error wait h]) s)).

Definition prepare (k : nat) (h : completion_handler) : P unit :=
  guarded (h_slot h) (write (fun s => set_v_slots (<[h_op h := k]> (v_slots s)) s)).

Definition group_listeners (k : nat) : P (list nat) :=
  read (fun s => match v_groups s !! k with Some gr => g_listeners gr | None => [] end).

Definition group_request_stop (k : nat) : P unit :=
  listeners <- group_listeners k;;
  each listeners stop_listener.

(** [m_cancellation.clear()] and [std::move(m_completion)]. *)
Definition take_completion (k : nat) (s : server_world L) : option completion_handler * server_world L :=
  match v_groups s !! k with
  | None => (None, s)
  | Some gr =>
    (g_completion gr,
     update_group k (set_g_completion None)
       (match g_completion gr with
        | Some h => set_v_slots (delete (h_op h) (v_slots s)) s
        | None => s
        end))
  end.

(** The critical section of [one]: whether to stop the listeners, and the handler
    with its result when this was the last operation. *)
Definition count_one (k : nat) (ec : error_code)
    : P (bool * option (option completion_handler * error_code)) :=
  PAtomic (fun _ s =>
    match v_groups s !! k with
    | None => (inr (false, None), s)
    | Some gr =>
      let first := failed ec && negb (failed (g_first_ec gr)) in
      let first_ec := if first then ec else g_first_ec gr in
      let remaining := u64 (g_remaining gr - 1) in
      let s := update_group k (fun gr => set_g_remaining remaining (set_g_first_ec first_ec gr)) s in
      if remaining =? 0 then
        let '(ready, s) := take_completion k s in
        (inr (first && g_stop_on_error gr, Some (ready, first_ec)), s)
      else (inr (first && g_stop_on_error gr, None), s)
    end).

(** [m_finished(result)]. *)
Definition finished (k : nat) (result : error_code) : P error_code :=
  listeners <- group_listeners k;;
  wait <- read (fun s => match v_groups s !! k with Some gr => g_wait gr | None => false end);;
  if wait : bool then finish_wait listeners result else finish_start listeners result.

Definition one (k : nat) (ec : error_code) : P unit :=
  r <- count_one k ec;;
  guarded (fst r) (group_request_stop k);;
  match snd r with
  | None => PRet tt
  | Some (ready, result) =>
    result <- PTry (finished k result) (fun _ => PRet result);;
    complete_on_server ready result
  end.

(** [m_listeners[j]->async_wait(done)] or [async_start(done)], where [done] calls
    [one] and its slot is that of [m_cancellations[j]]. *)
Definition initiate (k j i : nat) (wait : bool) : P unit :=
  PAtomic (fun e s =>
    match v_listeners s !! i with
    | None => (inr tt, s)
    | Some l =>
      let connected l' :=
        update_group k (fun gr => set_g_signals (<[j := Some (l_next_op l)]> (g_signals gr)) gr)
          (set_v_children (v_children s ++ [(i, l_next_op l, k)])
             (set_v_armed (if wait then v_armed s else {[i]} ∪ v_armed s) (set_listener i l' s))) in
      match l_exec (if wait then LWait None None true else LStart None None true) (x_listener e) l with
      | Ret _ l' => (inr tt, connected l')
      | Throw x l' => (inl x, set_listener i l' s)
      | Terminate l' => (inl (other_exception "std::terminate"), set_listener i l' s)
      end
    end).

(** [m_cancellations[j]->emit(type)]. *)
Definition emit_signal (k j : nat) (type : Z) : P unit :=
  op <- read (fun s => match v_groups s !! k with
                       | Some gr => match g_listeners gr !! j, g_signals gr !! j with
                                    | Some i, Some (Some op) => Some (i, op)
                                    | _, _ => None
                                    end
                       | None => None
                       end);;
  match op with
  | Some (i, op) => call_listener i (LCancel op type)
  | None => PRet tt
  end.

(** The body of the loop of [start]. *)
Definition start_one (k : nat) (wait : bool) (x : nat * nat) : P unit :=
  let '(j, i) := x in
  PTry
    (initiate k j i wait;;
     cancelled <- read (fun s => match v_groups s !! k with Some gr => g_cancelled gr | None => 0 end);;
     guarded (negb (cancelled =? 0)) (emit_signal k j cancelled))
    (fun x => write (update_group k (fun gr =>
       set_g_initiation_ecs (<[j := exception_to_error (Some x)]> (g_initiation_ecs gr)) gr))).

(** The initiation errors are written by this thread only. *)
Definition start_group (k : nat) (wait : bool) : P unit :=
  listeners <- group_listeners k;;
  each (imap pair listeners) (start_one k wait);;
  ecs <- read (fun s => match v_groups s !! k with Some gr => g_initiation_ecs gr | None => [] end);;
  each ecs (fun ec => guarded (failed ec) (one k ec)).

Definition reject (k : nat) (ec : error_code) : P unit :=
  h <- PAtomic (fun _ s => let '(h, s) := take_completion k s in (inr h, s));;
  complete_on_server h ec.

Definition cancel_group (k : nat) (type : Z) : P unit :=
  if type =? 0 then PRet tt
  else
    PTry
      (write (update_group k (fun gr => set_g_cancelled (Z.lor (g_cancelled gr) type) gr));;
       listeners <- group_listeners k;;
       each (seq 0 (length listeners)) (fun j => emit_signal k j type))
      (fun _ => PRet tt).
End Group.
