(* ===== verification/Server.v ===== *)
(** * The server

    [server] of src/server.cpp and include/serveza/server.h, over the threads that
    call it, and the system around it: the listeners' own actions, the completion
    handlers they dispatch and the tasks posted to the server's executor. *)

From S2P Require Import Prelude Errors Effect Options Endpoint Status Observers ListenerBase.
From S2P Require Import ListenerInterface Threads ServerState ServerControl OperationGroup.

Local Open Scope Z_scope.
Local Open Scope prog_scope.

Section Server.
Context {L E A : Type} `{Listener L E A} (m_executor : executor).

Abbreviation P := (prog (server_env E) (server_world L)).
Abbreviation complete_on_server := (complete_on_server m_executor).

(** ** Listeners *)

(** [server_implementation::snapshot]: the addresses of the registered listeners. *)
Definition snapshot : P (list nat) :=
  lock;;
  values <- read (fun s => seq 0 (length (v_listeners s)));;
  unlock;;
  PRet values.

Definition next_listener_id : P Z :=
  PAtomic (fun _ s =>
    let id := u64 (v_next_listener_id s + 1) in (inr id, set_v_next_listener_id id s)).

(** [std::vector<std::shared_ptr<T>>::max_size()]. *)
Definition vector_max_size : Z := 576460752303423487.

(** [push_back], which throws when the vector is full.  The listener refers to the
    server's observer registry. *)
Definition add_listener (value : L) : P unit :=
  lock;;
  PTry
    (PAtomic (fun _ s =>
       if vector_max_size <=? Z.of_nat (length (v_listeners s))
       then (inl (other_exception "vector::_M_realloc_append"), s)
       else (inr tt, set_v_listeners (v_listeners s ++ [l_set_registry (Some (v_registry s)) value]) s)))
    (fun x => unlock;; PThrow x);;
  unlock.

(** [listen] and [bind]: [make id] constructs the listener, or throws when its
    options are invalid. *)
Definition add_new_listener (make : Z -> exn + L) : P unit :=
  id <- next_listener_id;;
  match make id with
  | inl x => PThrow x
  | inr value => add_listener value
  end.

(** ** Observers *)

(** The registry is shared by the server and its listeners. *)
Definition set_registry (r : observer_registry) (s : server_world L) : server_world L :=
  set_v_listeners (map (l_set_registry (Some r)) (v_listeners s)) (set_v_registry r s).

(** [server::observe], and the registration's removal. *)
Definition observe_server (value : option observer) : P observer_subscription :=
  PAtomic (fun _ s =>
    match observe value (v_registry s) with
    | inl x => (inl x, s)
    | inr (subscription, r) => (inr subscription, set_registry r s)
    end).

Definition unobserve (id : Z) : P unit :=
  write (fun s => set_registry (remove id (v_registry s)) s).

(** [observers->notify(event)] on the server's executor; the callbacks are logged. *)
Definition notify_server (event : server_event) : M (server_env E) (server_world L) unit :=
  (modify (fun s => set_v_events (v_events s ++ [event]) s);;
   notify_each v_registry
     (fun value => modify (fun s => set_v_calls (v_calls s ++ [(value, event)]) s)))%eff.

(** ** Operations *)

Definition server_request_stop : P unit :=
  lock;;
  listeners <- read (fun s => seq 0 (length (v_listeners s)));;
  control_request_stop listeners;;
  each listeners stop_listener;;
  unlock.

Definition server_status_now : P server_status :=
  listeners <- snapshot;;
  status listeners.

Definition is_ready : P bool := st <- server_status_now;; PRet (ss_ready st).

Definition active_sessions : P Z := st <- server_status_now;; PRet (ss_active_sessions st).

Definition server_async_start (handler : completion_handler) : P unit :=
  let handler := track_completion_work m_executor handler in
  values <- snapshot;;
  if bool_decide (values = []) then
    started <- begin_start values;;
    if started : bool then
      ec <- finish_start values success;;
      complete_on_server (Some handler) ec
    else complete_on_server (Some handler) operation_aborted
  else
    state <- new_group values true false handler;;
    prepare state handler;;
    started <- begin_start values;;
    if started : bool then
      start_group m_executor state false;;
      stop <- stop_requested;;
      guarded stop (group_request_stop state)
    else reject m_executor state operation_aborted.

Definition server_async_wait (handler : completion_handler) : P unit :=
  let handler := track_completion_work m_executor handler in
  values <- snapshot;;
  if bool_decide (values = []) then
    ec <- finish_wait values success;;
    complete_on_server (Some handler) ec
  else
    state <- new_group values false true handler;;
    prepare state handler;;
    start_group m_executor state true.

(** ** The system *)

(** The shared state and the running threads. *)
Definition system : Type := server_world L * list (P unit).

Definition initial_server : system :=
  (mk_server_world server_state.idle 0 false [] 0 empty_registry [] ∅ [] 0%nat [] [] [] [] [] false ∅ ∅, []).

Inductive server_action :=
| YStart (ex : option executor) (alloc : option N) (slot : bool)
| YWait (ex : option executor) (alloc : option N) (slot : bool)
| YRequestStop                                  (* request_stop, also from the destructor *)
| YCancel (op : nat) (type : Z)                 (* the caller cancels a pending operation *)
| YListen (make : Z -> exn + L)
| YObserve (value : option observer)
| YUnobserve (id : Z)
| YListener (i : nat) (a : A)                   (* an action of a listener's own *)
| YTask (n : nat)                               (* a task posted to the executor runs *)
| YThread (t : nat).                            (* a thread performs its next action *)

(** A new operation of the server. *)
Definition fresh_handler (ex : option executor) (alloc : option N) (slot : bool) (s : server_world L)
    : completion_handler * server_world L :=
  (mk_handler (v_next_op s) ex alloc slot None, set_v_next_op (S (v_next_op s)) s).

(** The result a completion log has for an operation. *)
Definition result_of (log : list (executor * nat * error_code)) (op : nat) : option error_code :=
  snd <$> find_first (fun x => bool_decide (snd (fst x) = op)) log.

(** The handlers a listener dispatches run: those of a group call [one]. *)
Definition ready_ones (i : nat) (new : list (executor * nat * error_code)) (s : server_world L)
    : list (nat * error_code) :=
  flat_map (fun x : nat * nat * nat =>
    let '(i', op, k) := x in
    if bool_decide (i' = i) then
      match result_of new op with Some ec => [(k, ec)] | None => [] end
    else []) (v_children s).

Definition listener_runs (i : nat) (a : A) (e : server_env E) (s : server_world L)
    : server_world L * list (nat * error_code) :=
  match v_listeners s !! i with
  | None => (s, [])
  | Some l =>
    match l_exec (LOwn a) (x_listener e) l with
    | Ret _ l' | Throw _ l' | Terminate l' =>
      (set_listener i l' s, ready_ones i (drop (length (l_completed l)) (l_completed l')) s)
    end
  end.

(** A task of the executor: an event is delivered, or a completion handler is
    dispatched; a moved-from handler throws. *)
Definition run_server_task (n : nat) (e : server_env E) (s : server_world L) : server_world L :=
  match v_queue s !! n with
  | None => s
  | Some t =>
    let s := set_v_queue (remove_at n (v_queue s)) s in
    match t with
    | SNotify event =>
      match notify_server event e s with
      | Ret _ s' | Throw _ s' | Terminate s' => s'
      end
    | SDispatch on h ec =>
      match h with
      | Some h => set_v_completed (v_completed s ++ [(on, h_op h, ec)]) s
      | None => s
      end
    end
  end.

Definition exec_server (a : server_action) (e : server_env E) (y : system) : system :=
  let '(s, ts) := y in
  match a with
  | YStart ex alloc slot =>
    let '(h, s) := fresh_handler ex alloc slot s in (s, ts ++ [server_async_start h])
  | YWait ex alloc slot =>
    let '(h, s) := fresh_handler ex alloc slot s in (s, ts ++ [server_async_wait h])
  | YRequestStop => (s, ts ++ [server_request_stop])
  | YCancel op type =>
    match v_slots s !! op with
    | Some k => (s, ts ++ [cancel_group k type])
    | None => (s, ts)
    end
  | YListen make => (s, ts ++ [add_new_listener make])
  | YObserve value => (s, ts ++ [observe_server value;; PRet tt])
  | YUnobserve id => (s, ts ++ [unobserve id])
  | YListener i a =>
    let '(s, ready) := listener_runs i a e s in
    (s, ts ++ map (fun x => one m_executor (fst x) (snd x)) ready)
  | YTask n => (run_server_task n e s, ts)
  | YThread t => run_thread t e s ts
  end.

Fixpoint run_server (l : list (server_env E * server_action)) (y : system) : system :=
  match l with
  | [] => y
  | (e, a) :: l => run_server l (exec_server a e y)
  end.

(** [make] constructs an idle listener that owes nothing. *)
Definition fresh_listener (l : L) : Prop :=
  l_inv l /\ l_next_op l = 0%nat /\ l_completed l = [] /\ l_owed l = [] /\ l_stop_due l = true.

Definition action_ok (a : server_action) : Prop :=
  match a with
  | YListen make => forall id l, make id = inr l -> fresh_listener l
  | _ => True
  end.

(** The states a new server can get to; [ok] restricts the answers of the outside
    world. *)
Inductive server_reach (ok : server_env E -> Prop) : system -> Prop :=
| sreach_init : server_reach ok initial_server
| sreach_step y e a :
    server_reach ok y -> ok e -> action_ok a -> server_reach ok (exec_server a e y).

Lemma run_server_reach ok l y :
  Forall (fun x => ok (fst x) /\ action_ok (snd x)) l -> server_reach ok y -> server_reach ok (run_server l y).
Proof.
  intros Hl. revert y. induction Hl as [|[e a] l [He Ha] _ IH]; intros y Hy; simpl; [done|].
  apply IH. by apply sreach_step.
Qed.
End Server.
