(* ===== verification/ServerCompletions.v ===== *)
(** * Completions of the server's operations

    Every thread of a server keeps [Books]: a group counts exactly the operations
    it still waits for, a server operation's handler is in one place, and the
    listeners keep their own promise.  A thread owns a token for what it still has
    to do: report one operation to a group, complete a handler.

    [exact] assumes executors that accept work; without it nothing completes
    twice, with it nothing is lost. *)

From S2P Require Import Prelude Errors Effect Options Endpoint Status Observers ListenerBase.
From S2P Require Import ListenerAccount ListenerInterface Threads ServerState ServerControl.
From S2P Require Import OperationGroup Server.

Local Open Scope Z_scope.

#[local] Arguments countb : simpl never.

Section Completions.
Context {L E A : Type} `{HL : Listener L E A} `{!ListenerLaws HL} (m_executor : executor) (exact : bool).

Abbreviation P := (prog (server_env E) (server_world L)).
Implicit Types (s : server_world L) (e : server_env E).

Definition server_ok (e : server_env E) : Prop :=
  l_ok exact (x_listener e) /\ (exact = true -> forall t, x_post e t = None).

(** ** Tokens *)

(** [KChild k]: report one operation to group [k]; [KHandler op]: complete the
    handler of [op].  The others are knowledge: [KBound m], there are at least [m]
    listeners; [KInfo k vals], [KCodes k ecs], the listeners of group [k] and its
    initiation errors, which only its own thread writes. *)
Inductive token :=
| KChild (k : nat)
| KHandler (op : nat)
| KBound (m : nat)
| KInfo (k : nat) (vals : list nat)
| KCodes (k : nat) (ecs : list error_code).

Definition droppable (t : token) : Prop :=
  match t with
  | KChild _ | KHandler _ => exact = false
  | KBound _ | KInfo _ _ | KCodes _ _ => True
  end.

Definition is_child (k : nat) (t : token) : bool :=
  match t with KChild k' => bool_decide (k' = k) | _ => false end.

Definition is_codes (k : nat) (t : token) : bool :=
  match t with KCodes k' _ => bool_decide (k' = k) | _ => false end.

Definition token_ops (t : token) : list nat :=
  match t with KHandler op => [op] | _ => [] end.

(** ** The invariant *)

Definition log_ops (l : L) : list nat := map (fun x => snd (fst x)) (l_completed l).

(** The handler of operation [op] of listener [i] was dispatched. *)
Definition dispatched (s : server_world L) (i op : nat) : bool :=
  match v_listeners s !! i with
  | Some l => bool_decide (op ∈ log_ops l)
  | None => false
  end.

Definition waits_for (s : server_world L) (k : nat) (x : nat * nat * nat) : bool :=
  let '(i, op, k') := x in bool_decide (k' = k) && negb (dispatched s i op).

(** The operations group [k] still has in the listeners. *)
Definition pending (s : server_world L) (k : nat) : nat := countb (waits_for s k) (v_children s).

Definition task_handler_ops (t : server_task) : list nat :=
  match t with
  | SNotify _ => []
  | SDispatch _ h _ => handler_ops h
  end.

(** Where the handlers of the server's operations are. *)
Definition held (s : server_world L) : list nat :=
  flat_map (fun gr => handler_ops (g_completion gr)) (v_groups s) ++
  flat_map task_handler_ops (v_queue s) ++ map (fun x => snd (fst x)) (v_completed s).

Definition rel (a b : Z) : Prop := if exact then a = b else a <= b.

(** A group that has its handler waits for [g_remaining] operations, more than
    none; a group without it waits for none. *)
Definition group_inv (s : server_world L) (r : list token) (k : nat) : Prop :=
  let n := Z.of_nat (pending s k + countb (is_child k) r) in
  match v_groups s !! k with
  | None => n = 0
  | Some gr =>
    match g_completion gr with
    | Some _ => rel n (g_remaining gr) /\ 0 < g_remaining gr
    | None => n = 0
    end /\ g_remaining gr <= Z.of_nat (length (g_listeners gr)) <= vector_max_size
  end.

Record Books (s : server_world L) (r : list token) : Prop := {
  b_listeners : Forall l_inv (v_listeners s);
  b_size : Z.of_nat (length (v_listeners s)) <= vector_max_size;
  b_fresh : Forall (fun x : nat * nat * nat =>
    let '(i, op, _) := x in exists l, v_listeners s !! i = Some l /\ (op < l_next_op l)%nat) (v_children s);
  b_children : NoDup (map fst (v_children s));
  b_groups k : group_inv s r k;
  b_handlers : conserves exact (flat_map token_ops r ++ held s) (seq 0 (v_next_op s));
  b_bound m : KBound m ∈ r -> (m <= length (v_listeners s))%nat;
  b_info k vals : KInfo k vals ∈ r ->
    (exists gr, v_groups s !! k = Some gr /\ g_listeners gr = vals) /\
    Forall (fun i => (i < length (v_listeners s))%nat) vals;
  b_codes k ecs : KCodes k ecs ∈ r -> exists gr, v_groups s !! k = Some gr /\ g_initiation_ecs gr = ecs;
  b_codes_once k : (countb (is_codes k) r <= 1)%nat }.

(** An exception shows that an executor refuses work. *)
Abbreviation wpt n p r Q := (Threads.wpt server_ok Books n p r Q (fun _ _ => exact = false)).
Abbreviation neutral p F := (Threads.neutral server_ok Books (exact = false) p F).

Lemma books_perm s r r' : r ≡ₚ r' -> Books s r -> Books s r'.
Proof.
  intros Hr []. split; try done.
  - intros k. specialize (b_groups0 k). unfold group_inv in *. by rewrite <- (countb_perm _ _ _ Hr).
  - eapply conserves_perm; [|exact b_handlers0]. by rewrite Hr.
  - intros m. rewrite <- Hr. apply b_bound0.
  - intros k vals. rewrite <- Hr. apply b_info0.
  - intros k ecs. rewrite <- Hr. apply b_codes0.
  - intros k. by rewrite <- (countb_perm _ _ _ Hr).
Qed.

Lemma books_drop s t f : droppable t -> Books s (t :: f) -> Books s f.
Proof.
  intros Ht []. split; try done.
  - intros k. specialize (b_groups0 k). unfold group_inv in *. rewrite countb_cons in b_groups0.
    destruct t; simpl in *; try done. unfold rel in *. rewrite Ht in *.
    repeat case_match; try done; lia.
  - destruct t; simpl in *; try done. rewrite Ht in *. by eapply conserves_drop.
  - intros m Hm. apply b_bound0. by right.
  - intros k vals Hk. apply b_info0. by right.
  - intros k ecs Hk. apply b_codes0. by right.
  - intros k. specialize (b_codes_once0 k). rewrite countb_cons in b_codes_once0. lia.
Qed.

(** ** Changes that leave the books alone *)

Lemma books_frame s s' r :
  v_listeners s' = v_listeners s -> v_groups s' = v_groups s -> v_children s' = v_children s ->
  v_next_op s' = v_next_op s -> held s' ≡ₚ held s -> Books s r -> Books s' r.
Proof.
  intros H1 H2 H3 H4 H5 []. split; rewrite ?H1, ?H2, ?H3, ?H4; try done.
  - intros k. specialize (b_groups0 k). unfold group_inv, pending, waits_for, dispatched in *. by rewrite H1, H2, H3.
  - eapply conserves_perm; [|exact b_handlers0]. by rewrite H5.
Qed.

(** The listeners change, but their logs do not and none is forgotten. *)
Lemma books_listeners s s' r :
  (forall i op, dispatched s' i op = dispatched s i op) ->
  (forall i l, v_listeners s !! i = Some l -> exists l', v_listeners s' !! i = Some l' /\ (l_next_op l <= l_next_op l')%nat) ->
  Forall l_inv (v_listeners s') -> Z.of_nat (length (v_listeners s')) <= vector_max_size ->
  (length (v_listeners s) <= length (v_listeners s'))%nat ->
  v_groups s' = v_groups s -> v_children s' = v_children s ->
  v_next_op s' = v_next_op s -> held s' ≡ₚ held s -> Books s r -> Books s' r.
Proof.
  intros Hd Hl Hi Hs Hn H2 H3 H4 H5 []. split; rewrite ?H2, ?H3, ?H4; try done.
  - eapply Forall_impl; [exact b_fresh0|]. intros [[i op] k] (l & Hx & Hop).
    destruct (Hl i l Hx) as (l' & Hl' & ?). exists l'. split; [done | lia].
  - intros k. specialize (b_groups0 k). unfold group_inv in *. rewrite H2.
    replace (pending s' k) with (pending s k); [done|]. unfold pending. rewrite H3.
    apply countb_ext. intros [[i op] k'] _. unfold waits_for. by rewrite Hd.
  - eapply conserves_perm; [|exact b_handlers0]. by rewrite H5.
  - intros m Hm. specialize (b_bound0 m Hm). lia.
  - intros k vals Hk. destruct (b_info0 k vals Hk) as [? Hv]. split; [done|].
    eapply Forall_impl; [exact Hv|]. simpl. lia.
Qed.

Lemma books_listener s r i l l' :
  v_listeners s !! i = Some l -> l_inv l' -> l_completed l' = l_completed l ->
  (l_next_op l <= l_next_op l')%nat -> Books s r -> Books (set_listener i l' s) r.
Proof.
  intros Hi Hinv Hc Hn H. eapply (books_listeners s); try done; simpl.
  - intros j op. unfold dispatched, log_ops. simpl. destruct (decide (j = i)) as [->|Hne].
    + rewrite list_lookup_insert_eq by (by eapply lookup_lt_Some). by rewrite Hi, Hc.
    + by rewrite list_lookup_insert_ne.
  - intros j lj Hj. destruct (decide (j = i)) as [->|Hne].
    + exists l'. rewrite list_lookup_insert_eq by (by eapply lookup_lt_Some). simplify_eq. done.
    + exists lj. by rewrite list_lookup_insert_ne.
  - apply Forall_insert; [apply H | done].
  - rewrite length_insert. apply H.
  - by rewrite length_insert.
Qed.

(** A call of the public interface that initiates nothing new for a group. *)
Lemma books_call s r i l a l' ret :
  v_listeners s !! i = Some l -> Progress exact a ret l l' -> (forall b, a <> LOwn b) ->
  Books s r -> Books (set_listener i l' s) r.
Proof.
  intros Hi [Hinv _ Hin Hn _] Ha H. eapply books_listener; [done | done | | | done].
  - destruct a; try done. by exfalso; eapply Ha.
  - rewrite Hn. destruct (initiation _ _); lia.
Qed.

Lemma group_ops_alter (l : list group) k f :
  (forall gr, g_completion (f gr) = g_completion gr) ->
  flat_map (fun gr => handler_ops (g_completion gr)) (alter f k l) =
  flat_map (fun gr => handler_ops (g_completion gr)) l.
Proof.
  intros Hf. revert k. induction l as [|gr l IH]; intros [|k]; cbn; try done; [by rewrite Hf | by f_equal].
Qed.

(** A field of a group that the books do not mention. *)
Lemma books_group s r k f :
  (forall gr, g_completion (f gr) = g_completion gr /\ g_remaining (f gr) = g_remaining gr /\
     g_listeners (f gr) = g_listeners gr /\ g_initiation_ecs (f gr) = g_initiation_ecs gr) ->
  Books s r -> Books (update_group k f s) r.
Proof.
  intros Hf []. split; try done; simpl.
  - intros j. specialize (b_groups0 j). unfold group_inv in *. simpl.
    change (pending (update_group k f s) j) with (pending s j).
    destruct (decide (j = k)) as [->|Hne]; [|by rewrite list_lookup_alter_ne].
    rewrite list_lookup_alter_eq. destruct (v_groups s !! k) as [gr|]; simpl; [|done].
    destruct (Hf gr) as (-> & -> & -> & _). done.
  - eapply conserves_perm; [|exact b_handlers0]. apply Permutation_app_head. unfold held. simpl.
    by rewrite (group_ops_alter _ _ _ (fun gr => proj1 (Hf gr))).
  - intros j vals Hj. destruct (b_info0 j vals Hj) as [(gr & Hgr & <-) Hv]. split; [|done].
    destruct (decide (j = k)) as [->|Hne]; [|rewrite list_lookup_alter_ne; eauto].
    rewrite list_lookup_alter_eq, Hgr. simpl. exists (f gr). split; [done|]. apply (Hf gr).
  - intros j ecs Hj. destruct (b_codes0 j ecs Hj) as (gr & Hgr & <-).
    destruct (decide (j = k)) as [->|Hne]; [|rewrite list_lookup_alter_ne; eauto].
    rewrite list_lookup_alter_eq, Hgr. simpl. exists (f gr). split; [done|]. apply (Hf gr).
Qed.

(** ** Neutral programs *)

Lemma listener_law s r i l a e :
  server_ok e -> Books s r -> v_listeners s !! i = Some l ->
  match l_exec a (x_listener e) l with
  | Ret _ l' => Progress exact a true l l'
  | Throw _ l' => Progress exact a false l l' /\ may_fail exact a
  | Terminate _ => False
  end.
Proof. intros [He _] H Hi. apply law_exec; [done|]. eapply Forall_lookup_1; [apply H | done]. Qed.

Lemma n_call_listener i a :
  (forall ex al sl, a <> LStart ex al sl /\ a <> LWait ex al sl) -> (forall b, a <> LOwn b) ->
  Threads.neutral server_ok Books False (call_listener i a) (fun _ => True).
Proof.
  intros Ha Hb. apply neutral_atomic. intros e s r He H. destruct (v_listeners s !! i) as [l|] eqn:Hi; [|done].
  assert (Hl := listener_law s r i l a e He H Hi).
  destruct (l_exec a (x_listener e) l) as [[] l'|x l'|l']; simpl; [| |done].
  - split; [|done]. by eapply books_call.
  - destruct Hl as [_ Hf]. exfalso. destruct a; simpl in Hf; try done; [by destruct (Ha ex alloc slot) | by destruct (Ha ex alloc slot) | by eapply Hb].
Qed.

Lemma n_stop_listener i : neutral (stop_listener i) (fun _ => True).
Proof.
  apply neutral_atomic. intros e s r He H. destruct (v_listeners s !! i) as [l|] eqn:Hi; [|done].
  assert (Hl := listener_law s r i l LRequestStop e He H Hi).
  destruct (l_exec LRequestStop (x_listener e) l) as [[] l'|x l'|l']; simpl; [| |done].
  - split; [|done]. eapply (books_frame (set_listener i l' s)); try done. by eapply books_call.
  - by destruct Hl.
Qed.

Lemma n_lock : neutral lock (fun _ => True).
Proof.
  apply neutral_iter. intros []. apply neutral_atomic. intros e s r He H.
  destruct (v_locked s); simpl; [done|]. split; [|done]. by apply (books_frame s).
Qed.

Lemma n_unlock : neutral unlock (fun _ => True).
Proof. apply neutral_write. intros s r H. by apply (books_frame s). Qed.

Lemma n_load_state : neutral load_state (fun _ => True).
Proof. apply neutral_read. Qed.

Lemma n_compare_exchange_weak a b c : neutral (compare_exchange_weak a b c) (fun _ => True).
Proof.
  apply neutral_atomic. intros e s r He H. destruct (_ && _); simpl; [|done]. split; [|done].
  by apply (books_frame s).
Qed.

Lemma n_compare_exchange_strong a b : neutral (compare_exchange_strong a b) (fun _ => True).
Proof.
  apply neutral_atomic. intros e s r He H. destruct (bool_decide _); simpl; [|done]. split; [|done].
  by apply (books_frame s).
Qed.

Lemma n_exchange_state a : neutral (exchange_state a) (fun _ => True).
Proof.
  apply neutral_atomic. intros e s r He H. simpl. split; [|done]. destruct (bool_decide _); [done|].
  by apply (books_frame s).
Qed.

Lemma n_notify ev : neutral (post_server (SNotify ev)) (fun _ => True).
Proof.
  apply neutral_atomic. intros e s r He H. destruct (x_post e _) as [x|] eqn:Hx; simpl.
  - split; [done|]. destruct exact eqn:Hex; [|done]. destruct He as [_ He]. by rewrite He in Hx.
  - split; [|done]. apply (books_frame s); try done. unfold held. simpl.
    by rewrite flat_map_app, app_nil_r.
Qed.

#[local] Hint Resolve n_stop_listener n_lock n_unlock n_load_state n_compare_exchange_weak
  n_compare_exchange_strong n_exchange_state n_notify : neutral.

Lemma n_status_loop l v : neutral (status_loop l v) (fun _ => True).
Proof.
  revert v. induction l as [|i l IH]; intros v; simpl; [by apply neutral_ret|].
  eapply neutral_bind; [apply neutral_read|]. intros item _. apply IH.
Qed.
#[local] Hint Resolve n_status_loop : neutral.

Lemma n_emit t l ec : neutral (emit t l ec) (fun _ => True).
Proof. unfold emit, status. neutral_auto. Qed.
#[local] Hint Resolve n_emit : neutral.

Lemma n_begin_start l : neutral (begin_start l) (fun _ => True).
Proof.
  unfold begin_start. neutral_auto. apply neutral_write. intros s r Hs. by apply (books_frame s).
Qed.

Lemma n_stopping_loop b p : neutral p (fun _ => True) -> neutral (stopping_loop b p) (fun _ => True).
Proof. intros Hp. unfold stopping_loop. neutral_auto. Qed.

Lemma n_finish_start l ec : neutral (finish_start l ec) (fun _ => True).
Proof. unfold finish_start. neutral_auto. eapply n_stopping_loop. neutral_auto. Qed.

Lemma n_control_request_stop l : neutral (control_request_stop l) (fun _ => True).
Proof. unfold control_request_stop. neutral_auto. apply n_stopping_loop. neutral_auto. Qed.

Lemma n_finish_wait l ec : neutral (finish_wait l ec) (fun _ => True).
Proof. unfold finish_wait. neutral_auto. Qed.

Lemma n_stop_requested : neutral stop_requested (fun _ => True).
Proof. unfold stop_requested. neutral_auto. Qed.

Lemma n_group_request_stop k : neutral (group_request_stop k) (fun _ => True).
Proof. unfold group_request_stop, group_listeners. neutral_auto. Qed.

#[local] Hint Resolve n_begin_start n_finish_start n_control_request_stop n_finish_wait n_stop_requested
  n_group_request_stop : neutral.

Lemma n_finished k ec : neutral (finished k ec) (fun _ => True).
Proof. unfold finished, group_listeners. neutral_auto. Qed.

(** A cancellation signal does not throw. *)
Lemma n_emit_signal_nothrow k j type : Threads.neutral server_ok Books False (emit_signal k j type) (fun _ => True).
Proof. unfold emit_signal. neutral_auto. by apply n_call_listener. Qed.

Lemma n_emit_signal k j type : neutral (emit_signal k j type) (fun _ => True).
Proof. eapply neutral_weaken; [|apply n_emit_signal_nothrow]. done. Qed.

Lemma n_prepare k h : neutral (prepare k h) (fun _ => True).
Proof. unfold prepare. neutral_auto. apply neutral_write. intros s r Hs. by apply (books_frame s). Qed.

#[local] Hint Resolve n_finished n_emit_signal n_prepare : neutral.

Lemma n_cancel_group k type : neutral (cancel_group k type) (fun _ => True).
Proof.
  unfold cancel_group, group_listeners. neutral_auto. apply neutral_write. intros s r Hs. by apply books_group.
Qed.

Lemma n_server_request_stop : neutral server_request_stop (fun _ => True).
Proof. unfold server_request_stop. neutral_auto. Qed.

(** A snapshot is bounded, and its listeners stay registered. *)
Lemma wpt_snapshot n r (Q : list nat -> list token -> Prop) :
  (forall m, Z.of_nat m <= vector_max_size -> Q (seq 0 m) (r ++ [KBound m])) -> wpt n snapshot r Q.
Proof.
  intros HQ. unfold snapshot. apply wpt_bind. eapply wpt_neutral; [apply n_lock | intros _ _ | done].
  apply wpt_bind, wpt_atomic. intros e s f He H. simpl. set (m := length (v_listeners s)).
  exists (r ++ [KBound m]). split.
  - apply (books_perm _ (KBound m :: r ++ f)); [solve_Permutation|]. destruct H. split; try done.
    + intros m' [[= ->]|Hm]%elem_of_cons; [done | by apply b_bound0].
    + intros k vals [?|Hk]%elem_of_cons; [done | by apply b_info0].
    + intros k ecs [?|Hk]%elem_of_cons; [done | by apply b_codes0].
  - apply wpt_bind. eapply wpt_neutral; [apply n_unlock | intros _ _ | done]. apply wpt_ret, HQ. apply H.
Qed.

Lemma books_set_registry s r reg : Books s r -> Books (set_registry reg s) r.
Proof.
  intros H. eapply (books_listeners s); try done; simpl; rewrite ?length_map; try done; try apply H.
  - intros i op. unfold dispatched, log_ops. simpl. rewrite list_lookup_fmap.
    destruct (v_listeners s !! i) as [l|] eqn:Hi; simpl; [|done].
    assert (Hl := Forall_lookup_1 _ _ _ _ (b_listeners _ _ H) Hi).
    by destruct (law_registry (Some reg) l Hl) as (_ & _ & -> & _).
  - intros i l Hi. exists (l_set_registry (Some reg) l). rewrite list_lookup_fmap, Hi. split; [done|].
    assert (Hl := Forall_lookup_1 _ _ _ _ (b_listeners _ _ H) Hi).
    by destruct (law_registry (Some reg) l Hl) as (_ & -> & _).
  - apply Forall_fmap. eapply Forall_impl; [apply H|]. intros l Hl. by apply law_registry.
Qed.

(** [observe], [listen] and [bind] may throw to their caller. *)
Abbreviation throwing p F := (Threads.neutral server_ok Books True p F).

Lemma n_observe_server v : throwing (observe_server v;; PRet tt)%prog (fun _ => True).
Proof.
  eapply neutral_bind; [|intros ??; by apply neutral_ret].
  apply neutral_atomic with (F := fun _ => True). intros e s r He H. destruct v as [v|]; simpl; [|done].
  split; [|done]. by apply books_set_registry.
Qed.

Lemma n_unobserve id : neutral (unobserve id) (fun _ => True).
Proof. apply neutral_write. intros s r H. by apply books_set_registry. Qed.

Lemma books_push s r l :
  fresh_listener l -> Z.of_nat (length (v_listeners s)) < vector_max_size -> Books s r ->
  Books (set_v_listeners (v_listeners s ++ [l_set_registry (Some (v_registry s)) l]) s) r.
Proof.
  intros (Hi & Hn & Hc & _) Hs H. destruct (law_registry (Some (v_registry s)) l Hi) as (Hi' & _ & Hc' & _).
  eapply (books_listeners s); try done; simpl; rewrite ?length_app; simpl; try lia.
  - intros i op. unfold dispatched, log_ops. simpl. destruct (v_listeners s !! i) as [li|] eqn:Hli.
    + by rewrite (lookup_app_l_Some _ _ _ _ Hli).
    + destruct ((v_listeners s ++ [_]) !! i) as [li|] eqn:Hli'; [|done].
      apply lookup_app_Some in Hli' as [Hli'|[_ Hli']]; [congruence|].
      apply list_lookup_singleton_Some in Hli' as [_ <-]. by rewrite Hc', Hc.
  - intros i li Hli. exists li. by rewrite (lookup_app_l_Some _ _ _ _ Hli).
  - apply Forall_app. split; [apply H | by apply Forall_singleton].
Qed.

Lemma n_add_new_listener make :
  (forall id l, make id = inr l -> fresh_listener l) -> throwing (add_new_listener make) (fun _ => True).
Proof.
  intros Hm. unfold add_new_listener. eapply neutral_bind with (F := fun _ => True).
  { apply neutral_atomic. intros e s r He H. simpl. split; [|done]. by apply (books_frame s). }
  intros id _. destruct (make id) as [x|l] eqn:Hl; [by apply neutral_throw|]. unfold add_listener.
  assert (Hu : throwing unlock (fun _ => True)) by (eapply neutral_weaken; [done | apply n_unlock]).
  eapply neutral_bind; [eapply neutral_weaken; [done | apply n_lock] | intros _ _].
  eapply neutral_bind; [|by intros _ _].
  apply neutral_try with (F := fun _ => True).
  - apply neutral_atomic. intros e s r He H. destruct (_ <=? _) eqn:Hs; simpl; [done|]. split; [|done].
    apply Z.leb_gt in Hs. apply books_push; [by eapply Hm | done | done].
  - intros x _. eapply neutral_bind; [done | intros _ _]. by apply neutral_throw.
Qed.

(** ** Tokens change hands *)

Ltac tok_cases H :=
  repeat first [rewrite elem_of_app in H | rewrite elem_of_cons in H | rewrite elem_of_replicate in H];
  decompose [or and] H; simplify_eq; repeat first [rewrite elem_of_cons | rewrite elem_of_app]; tauto.

Lemma pending_frame s s' k :
  v_listeners s' = v_listeners s -> v_children s' = v_children s -> pending s' k = pending s k.
Proof. intros H1 H2. unfold pending, waits_for, dispatched. by rewrite H1, H2. Qed.

(** A new group takes the handler and hands out one token per listener. *)
Lemma wpt_new_group n m b w h r (Q : nat -> list token -> Prop) :
  m <> 0%nat -> Z.of_nat m <= vector_max_size ->
  (forall k, Q k (replicate m (KChild k) ++ KInfo k (seq 0 m) :: KCodes k (replicate m success) :: r)) ->
  wpt n (new_group (seq 0 m) b w h) (KHandler (h_op h) :: KBound m :: r) Q.
Proof.
  intros Hm Hs HQ. apply wpt_atomic. intros e s f He H. simpl. set (k := length (v_groups s)).
  eexists. split; [|apply HQ]. destruct H.
  assert (Hk : v_groups s !! k = None) by (apply lookup_ge_None; done).
  set (s' := set_v_groups _ s).
  assert (Hsame : forall j gr, v_groups s !! j = Some gr -> v_groups s' !! j = Some gr).
  { intros j gr Hj. by apply lookup_app_l_Some. }
  assert (Hnew : v_groups s' !! k = Some (make_group (seq 0 m) b w h)).
  { by apply list_lookup_middle. }
  split; try done.
  - intros j. specialize (b_groups0 j). unfold group_inv in *. rewrite (pending_frame s s') by done.
    autorewrite with countb in b_groups0 |- *. rewrite countb_replicate. simpl in *. destruct (decide (j = k)) as [->|Hne].
    + rewrite Hk in b_groups0. rewrite Hnew. simpl. rewrite length_seq, bool_decide_eq_true_2 by done.
      unfold rel. destruct exact; lia.
    + rewrite bool_decide_eq_false_2 by done. destruct (v_groups s !! j) as [gr|] eqn:Hj.
      * by rewrite (Hsame _ _ Hj).
      * replace (v_groups s' !! j) with (@None group); [done|]. symmetry. apply lookup_ge_None.
        apply lookup_ge_None in Hj. simpl. rewrite length_app. simpl. lia.
  - eapply conserves_perm; [|exact b_handlers0]. unfold held. simpl.
    repeat (rewrite ?flat_map_app, ?flat_map_replicate_nil by done; simpl). solve_Permutation.
  - intros m' Hm'. apply b_bound0. tok_cases Hm'.
  - intros j vals Hj. assert (Hv : j = k /\ vals = seq 0 m \/ KInfo j vals ∈ KHandler (h_op h) :: KBound m :: r ++ f).
    { tok_cases Hj. }
    destruct Hv as [[-> ->]|Hj'].
    + split; [eauto|]. apply Forall_seq. intros i Hi. assert (Hb := b_bound0 m ltac:(by right; left)). simpl. lia.
    + destruct (b_info0 j vals Hj') as [(gr & Hgr & <-) Hv]. eauto.
  - intros j ecs Hj. assert (Hv : j = k /\ ecs = replicate m success \/ KCodes j ecs ∈ KHandler (h_op h) :: KBound m :: r ++ f).
    { tok_cases Hj. }
    destruct Hv as [[-> ->]|Hj'].
    + eexists. split; [exact Hnew|]. simpl. by rewrite length_seq.
    + destruct (b_codes0 j ecs Hj') as (gr & Hgr & <-). eauto.
  - intros j. specialize (b_codes_once0 j). autorewrite with countb in b_codes_once0 |- *.
    rewrite countb_replicate. simpl in *. case_bool_decide as Hj; simpl; [|lia]. subst j.
    assert (Hz : countb (is_codes k) (r ++ f) = 0%nat); [|rewrite countb_app in Hz; lia].
    apply countb_zero. intros t Ht. destruct t as [| | | |k' ecs]; try done. simpl.
    apply bool_decide_eq_false. intros ->. destruct (b_codes0 k ecs) as (gr & Hgr & _); [by do 2 right|].
    congruence.
Qed.

(** The tokens that are knowledge. *)
Definition knowledge (t : token) : bool :=
  match t with KChild _ | KHandler _ => false | _ => true end.

Lemma group_ops_alter_perm (l : list group) k f gr :
  l !! k = Some gr ->
  handler_ops (g_completion gr) ++ flat_map (fun gr => handler_ops (g_completion gr)) (alter f k l) ≡ₚ
  handler_ops (g_completion (f gr)) ++ flat_map (fun gr => handler_ops (g_completion gr)) l.
Proof.
  revert k. induction l as [|x l IH]; intros [|k] Hk; cbn in *; simplify_eq.
  - solve_Permutation.
  - specialize (IH k Hk). rewrite (Permutation_app_swap_app (handler_ops (g_completion gr))).
    rewrite (Permutation_app_swap_app (handler_ops (g_completion (f gr)))). by rewrite IH.
Qed.

(** Group [k] changes together with the tokens of its operations and handler. *)
Lemma books_regroup s s' k f gr r r' :
  v_groups s !! k = Some gr -> v_groups s' = alter f k (v_groups s) ->
  v_listeners s' = v_listeners s -> v_children s' = v_children s -> v_next_op s' = v_next_op s ->
  v_queue s' = v_queue s -> v_completed s' = v_completed s ->
  g_listeners (f gr) = g_listeners gr -> g_initiation_ecs (f gr) = g_initiation_ecs gr ->
  group_inv s' r' k -> (forall j, j <> k -> countb (is_child j) r' = countb (is_child j) r) ->
  flat_map token_ops r' ++ handler_ops (g_completion (f gr)) ≡ₚ
    flat_map token_ops r ++ handler_ops (g_completion gr) ->
  List.filter knowledge r' ≡ₚ List.filter knowledge r ->
  Books s r -> Books s' r'.
Proof.
  intros Hk Hg Hl Hc Hn Hq Hd Hfl Hfe Hgi Hch Hops Hkn [].
  assert (Hin : forall t, knowledge t = true -> t ∈ r' -> t ∈ r).
  { intros t Ht Hr'. assert (Hf : t ∈ List.filter knowledge r').
    { apply list_elem_of_In, List.filter_In. by rewrite <- list_elem_of_In. }
    rewrite Hkn in Hf. apply list_elem_of_In, List.filter_In in Hf as [Hf _]. by apply list_elem_of_In. }
  assert (Hlk : forall j x, v_groups s !! j = Some x -> exists y, v_groups s' !! j = Some y /\
    g_listeners y = g_listeners x /\ g_initiation_ecs y = g_initiation_ecs x).
  { intros j x Hj. rewrite Hg. destruct (decide (j = k)) as [->|Hne].
    - rewrite list_lookup_alter_eq, Hk. simpl. simplify_eq. eauto.
    - rewrite list_lookup_alter_ne by done. eauto. }
  split; rewrite ?Hl, ?Hc, ?Hn; try done.
  - intros j. destruct (decide (j = k)) as [->|Hne]; [done|]. specialize (b_groups0 j).
    unfold group_inv in *. rewrite (pending_frame s s'), Hg, list_lookup_alter_ne, Hch by done. done.
  - eapply conserves_perm; [|exact b_handlers0]. unfold held. rewrite Hg, Hq, Hd.
    assert (Hp := group_ops_alter_perm (v_groups s) k f gr Hk).
    rewrite !app_assoc. do 2 apply Permutation_app_tail.
    apply (Permutation_app_inv_l (handler_ops (g_completion gr))).
    rewrite Permutation_app_swap_app, Hp, app_assoc, Hops, <- app_assoc. solve_Permutation.
  - intros m Hm. by apply b_bound0, Hin.
  - intros j vals Hj. destruct (b_info0 j vals (Hin (KInfo j vals) eq_refl Hj)) as [(x & Hx & <-) Hv]. split; [|done].
    destruct (Hlk j x Hx) as (y & ? & ? & ?). eauto.
  - intros j ecs Hj. destruct (b_codes0 j ecs (Hin (KCodes j ecs) eq_refl Hj)) as (x & Hx & <-).
    destruct (Hlk j x Hx) as (y & ? & ? & ?). eauto.
  - intros j. assert (Hcd : forall l, countb (is_codes j) l = countb (is_codes j) (List.filter knowledge l)).
    { intros l. induction l as [|t l IH]; [done|]. simpl. destruct t; simpl; rewrite !countb_cons, IH; done. }
    rewrite Hcd, Hkn, <- Hcd. apply b_codes_once0.
Qed.

Lemma wpt_complete_on n h ec r : wpt n (complete_on_server m_executor (Some h) ec) (KHandler (h_op h) :: r) (fun _ r' => r' = r).
Proof.
  apply wpt_atomic. intros e s f He H. destruct (x_post e _) as [x|] eqn:Hx.
  - exists (KHandler (h_op h) :: r). split; [done|]. destruct exact eqn:Hex; [|done].
    destruct He as [_ He]. by rewrite He in Hx.
  - exists r. split; [|done]. destruct H. split; try done.
    + eapply conserves_perm; [|exact b_handlers0]. unfold held. simpl. rewrite !flat_map_app. simpl. solve_Permutation.
    + intros m Hm. apply b_bound0. by right.
    + intros k vals Hk. apply b_info0. by right.
    + intros k ecs Hk. apply b_codes0. by right.
Qed.

(** A token of group [k] shows that the group still has its handler. *)
Lemma books_child s k r :
  Books s (KChild k :: r) ->
  exists gr h, v_groups s !! k = Some gr /\ g_completion gr = Some h /\
    rel (Z.of_nat (pending s k + S (countb (is_child k) r))) (g_remaining gr) /\ 0 < g_remaining gr /\
    g_remaining gr <= Z.of_nat (length (g_listeners gr)) <= vector_max_size.
Proof.
  intros H. assert (Hg := b_groups _ _ H k). unfold group_inv in Hg. rewrite countb_cons in Hg. simpl in Hg.
  rewrite bool_decide_eq_true_2 in Hg by done.
  destruct (v_groups s !! k) as [gr|] eqn:Hk; [|lia]. destruct Hg as [Hg Hs].
  destruct (g_completion gr) as [h|] eqn:Hh; [|lia]. destruct Hg as [Hr Hp]. exists gr, h. split_and!; try done; lia.
Qed.

Lemma wpt_count_one n k ec r :
  wpt n (count_one k ec) (KChild k :: r) (fun res r' =>
    match snd res with
    | None => r' = r
    | Some (ready, _) => exists h, ready = Some h /\ r' = KHandler (h_op h) :: r
    end).
Proof.
  apply wpt_atomic. intros e s f He H. destruct (books_child s k (r ++ f) H) as (gr & h & Hk & Hh & Hr & Hp & Hb & Hmax).
  rewrite Hk. unfold vector_max_size in Hmax.
  assert (Hu : u64 (g_remaining gr - 1) = g_remaining gr - 1) by (apply u64_small; unfold u64_modulus; lia).
  rewrite Hu. cbv zeta. set (first_ec := if failed ec && negb (failed (g_first_ec gr)) then ec else g_first_ec gr).
  set (F := fun gr' => set_g_remaining (g_remaining gr - 1) (set_g_first_ec first_ec gr')).
  destruct (g_remaining gr - 1 =? 0) eqn:Hz.
  - apply Z.eqb_eq in Hz. unfold take_completion. simpl. rewrite list_lookup_alter_eq, Hk. simpl. rewrite Hh. simpl.
    exists (KHandler (h_op h) :: r). split; [|by exists h].
    eapply (books_regroup s _ k (fun x => set_g_completion None (F x)) gr (KChild k :: r ++ f)); try done; simpl.
    + by rewrite list_alter_alter_eq.
    + unfold group_inv. simpl. rewrite list_alter_alter_eq, list_lookup_alter_eq, Hk. simpl. rewrite countb_cons. simpl.
      rewrite (pending_frame s) by done. unfold rel in Hr. split; [destruct exact; lia | unfold vector_max_size; lia].
    + intros j Hj. rewrite !countb_cons. simpl. by rewrite bool_decide_eq_false_2.
    + rewrite Hh. simpl. rewrite app_nil_r. apply Permutation_cons_append.
  - apply Z.eqb_neq in Hz. exists r. split; [|done].
    eapply (books_regroup s _ k F gr (KChild k :: r ++ f)); try done; simpl.
    + unfold group_inv. simpl. rewrite list_lookup_alter_eq, Hk. simpl. rewrite Hh.
      rewrite (pending_frame s) by done. unfold rel in *. split; [destruct exact; lia | unfold vector_max_size; lia].
    + intros j Hj. rewrite !countb_cons. simpl. by rewrite bool_decide_eq_false_2.
Qed.

(** [one] uses up one token, whatever happens. *)
Lemma wpt_one n k ec r : wpt n (one m_executor k ec) (KChild k :: r) (fun _ r' => r' = r).
Proof.
  unfold one. apply wpt_bind. eapply wpt_mono; [done | apply wpt_count_one | | done].
  intros [stop res] r' Hres. apply wpt_bind.
  eapply wpt_neutral; [apply neutral_guarded, n_group_request_stop | intros _ _ | done].
  destruct res as [[ready result]|]; simpl in *; [|by apply wpt_ret]. destruct Hres as (h & -> & ->).
  apply wpt_bind. apply (wpt_neutral _ _ (exact = false) _ _ (fun _ => True));
    [| intros result' _; apply wpt_complete_on | done].
  apply neutral_try; [apply n_finished | intros ??; by apply neutral_ret].
Qed.

(** [reject] takes back the handler of a group that was not started. *)
Lemma wpt_reject n k ec m r vals :
  length vals = m -> m <> 0%nat ->
  wpt n (reject m_executor k ec) (replicate m (KChild k) ++ KInfo k vals :: r)
    (fun _ r' => r' = KInfo k vals :: r).
Proof.
  intros Hv Hm. destruct m as [|m]; [done|]. unfold reject. apply wpt_bind, wpt_atomic. intros e s f He H.
  destruct (books_child s k ((replicate m (KChild k) ++ KInfo k vals :: r) ++ f) H) as (gr & h & Hk & Hh & Hr & Hp & Hb & Hmax).
  destruct (b_info _ _ H k vals) as [(gr' & Hk' & Hl) _].
  { right. apply elem_of_app. left. apply elem_of_app. right. by left. }
  assert (gr' = gr) as -> by congruence. clear Hk'. rewrite Hl, Hv in Hb.
  rewrite <- app_assoc in Hr. rewrite !countb_app, countb_replicate, countb_cons in Hr. simpl in Hr.
  rewrite bool_decide_eq_true_2 in Hr by done.
  unfold take_completion. rewrite Hk, Hh. exists (KHandler (h_op h) :: KInfo k vals :: r). split.
  2: { eapply wpt_mono; [done | apply wpt_complete_on | done | done]. }
  eapply (books_regroup s _ k (set_g_completion None) gr
    (KChild k :: (replicate m (KChild k) ++ KInfo k vals :: r) ++ f) _ Hk); try done; simpl.
  - unfold group_inv. simpl. rewrite list_lookup_alter_eq, Hk. simpl. rewrite !countb_cons, countb_app. simpl.
    rewrite (pending_frame s) by done. unfold rel in Hr.
    assert (Hn : Z.of_nat (length (g_listeners gr)) = Z.of_nat (S m)) by (by rewrite Hl, Hv). destruct exact; lia.
  - intros j Hj. autorewrite with countb. rewrite countb_replicate. simpl. by rewrite bool_decide_eq_false_2.
  - rewrite Hh. simpl. repeat (rewrite ?flat_map_app, ?flat_map_replicate_nil by done; simpl). solve_Permutation.
  - rewrite !List.filter_app. simpl. replace (List.filter knowledge (replicate m (KChild k))) with (@nil token); [done|].
    clear. by induction m.
Qed.
End Completions.
