(* ===== verification/ServerScenarios.v ===== *)
(** * Concrete executions of a server with two acceptor listeners *)

From S2P Require Import Prelude Errors Effect Options Endpoint Status Observers ListenerBase.
From S2P Require Import ListenerInterface Threads ServerState ServerControl OperationGroup Server.
From S2P Require Import ListenerAccount ServerCompletions.
From S2P Require Import Connection Acceptor Scenarios AcceptorBehaviour AcceptorObject.

Local Open Scope Z_scope.

(** The environment of a listener's step; the server's executor accepts work. *)
Definition answers (e : aenv) : server_env aenv := mk_server_env false (fun _ => None) e.

Definition idle_acceptor (id : Z) : exn + acceptor_object :=
  match make_listener (mk_config id (c_configured_endpoint demo) (c_options demo)) None with
  | inl x => inl x
  | inr w => inr (mk_config id (c_configured_endpoint demo) (c_options demo), w)
  end.

Abbreviation server_step := (server_action (L := acceptor_object) (A := action)).

(** A script: what happens, and how the outside of the listener answers. *)
Definition play (l : list (aenv * server_step)) : system (L := acceptor_object) (E := aenv) :=
  run_server (L := acceptor_object) system_executor (map (fun x => (answers (fst x), snd x)) l) initial_server.

(** [n] actions of thread [t]. *)
Definition thread (t n : nat) : list (aenv * server_step) := replicate n (calm, YThread t).

Definition two_listeners : list (aenv * server_step) :=
  [(calm, YListen idle_acceptor)] ++ thread 0 40 ++ [(calm, YListen idle_acceptor)] ++ thread 0 40.

Definition tasks (n : nat) : list (aenv * server_step) := replicate n (calm, YTask 0).

(** [n] posted tasks of listener [i] run. *)
Definition listener (i n : nat) : list (aenv * server_step) := replicate n (calm, YListener i (ARun 0)).

(** A start of both listeners. *)
Definition start_both : list (aenv * server_step) :=
  two_listeners ++ [(calm, YStart None None false)] ++ thread 0 100 ++ listener 0 2 ++ listener 1 2 ++
  thread 0 60 ++ thread 0 60 ++ tasks 3.

(** The first listener started, the second not yet. *)
Definition half_started : list (aenv * server_step) :=
  two_listeners ++ [(calm, YStart None None false)] ++ thread 0 100 ++ listener 0 2 ++ thread 0 60.

(** A stop is requested when the start has submitted the first listener only. *)
Definition stop_races_start : list (aenv * server_step) :=
  two_listeners ++ [(calm, YStart None None false)] ++ thread 0 40 ++ [(calm, YRequestStop)] ++
  thread 1 60 ++ thread 0 100.

(** The first listener fails to bind before the second is submitted. *)
Definition failing_start : list (aenv * server_step) :=
  two_listeners ++ [(calm, YStart None None false)] ++ thread 0 40 ++
  [(bind_fails, YListener 0 (ARun 0))] ++ listener 0 1 ++ thread 1 60 ++ listener 1 1 ++ thread 0 60 ++
  listener 1 2 ++ thread 0 60 ++ tasks 4.

(** A wait on the running server is cancelled. *)
Definition cancelled_wait : list (aenv * server_step) :=
  start_both ++ [(calm, YWait None None true)] ++ thread 0 100 ++ listener 0 1 ++ listener 1 1 ++
  [(calm, YCancel 1 1)] ++ thread 0 60 ++ listener 0 4 ++ listener 1 4 ++ thread 0 60 ++ thread 0 60 ++ tasks 5.

Definition step_ok (x : aenv * server_step) : Prop := acct_env true (fst x) /\ action_ok (snd x).

Lemma answers_ok exact e : acct_env true e -> server_ok exact (answers e).
Proof. intros He. split; [|done]. destruct exact; [done | by intros ?]. Qed.

Lemma play_reach exact l : Forall step_ok l -> server_reach system_executor (server_ok exact) (play l).
Proof.
  intros H. apply run_server_reach; [|constructor]. apply Forall_map. eapply Forall_impl; [exact H|].
  intros [e a] [He Ha]. split; [by apply answers_ok | done].
Qed.

Lemma idle_acceptor_fresh id l : idle_acceptor id = inr l -> fresh_listener l.
Proof. intros [= <-]. split_and!; [apply submseteq_nil_l | done..]. Qed.

Lemma step_listen : step_ok (calm, YListen idle_acceptor).
Proof. split; [done|]. exact idle_acceptor_fresh. Qed.

(** Every other step is allowed. *)
Ltac script :=
  repeat first
    [ apply Forall_nil_2
    | apply Forall_app; split
    | apply Forall_cons; split; [first [exact step_listen | split; done]|]
    | apply Forall_replicate; split; done ].

Lemma start_both_ok : Forall step_ok start_both.
Proof. script. Qed.

Lemma half_started_ok : Forall step_ok half_started.
Proof. script. Qed.

Lemma stop_races_start_ok : Forall step_ok stop_races_start.
Proof. script. Qed.

Lemma failing_start_ok : Forall step_ok failing_start.
Proof. script. Qed.

Lemma cancelled_wait_ok : Forall step_ok cancelled_wait.
Proof. script. Qed.

Lemma play_pair exact l :
  Forall step_ok l -> server_reach system_executor (server_ok exact) (fst (play l), snd (play l)).
Proof. intros H. rewrite <- surjective_pairing. by apply play_reach. Qed.

(** The same when all threads have returned. *)
Lemma play_quiet exact l :
  Forall step_ok l -> snd (play l) = [] -> server_reach system_executor (server_ok exact) (fst (play l), []).
Proof. intros H <-. by apply play_pair. Qed.
