(* ===== verification/ServerThreads.v ===== *)
(** * The threads of a server keep its books

    Every function of src/server.cpp a thread may run uses up the tokens it owns:
    a start or a wait hands the handler of its operation to a group and one token
    per listener to the listeners, and [one] turns the last token back into the
    handler. *)

From S2P Require Import Prelude Errors Effect Options Endpoint Status Observers ListenerBase.
From S2P Require Import ListenerAccount ListenerInterface Threads ServerState ServerControl.
From S2P Require Import OperationGroup Server ServerCompletions.

Local Open Scope Z_scope.

#[local] Arguments countb : simpl never.

Section ServerThreads.
Context {L E A : Type} `{HL : Listener L E A} `{!ListenerLaws HL} (m_executor : executor) (exact : bool).

Implicit Types (s : server_world L) (e : server_env E).

Abbreviation server_ok := (server_ok exact).
Abbreviation Books := (Books exact).
Abbreviation droppable := (droppable exact).
Abbreviation wpt n p r Q := (Threads.wpt server_ok Books n p r Q (fun _ _ => exact = false)).
Abbreviation neutral p F := (Threads.neutral server_ok Books (exact = false) p F).

(** ** A group hands an operation to a listener *)

Lemma log_bound l op : l_inv l -> op ∈ log_ops l -> (op < l_next_op l)%nat.
Proof.
  intros Hi Hop. assert (Hs : log_ops l ⊆+ seq 0 (l_next_op l)).
  { etrans; [apply law_completed | by apply law_unique]. }
  apply (elem_of_submseteq _ _ _ Hop) in Hs. apply elem_of_seq in Hs. lia.
Qed.

Lemma books_initiated s r k i l op :
  v_listeners s !! i = Some l -> (op < l_next_op l)%nat -> op ∉ log_ops l -> (i, op) ∉ map fst (v_children s) ->
  Books s (KChild k :: r) -> Books (set_v_children (v_children s ++ [(i, op, k)]) s) r.
Proof.
  intros Hi Hop Hlog Hnew []. split; try done; simpl.
  - apply Forall_app. split; [done|]. apply Forall_singleton. eauto.
  - rewrite map_app. simpl. apply NoDup_app. split_and!; [done | | apply NoDup_singleton].
    intros x Hx Hx'. apply list_elem_of_singleton in Hx' as ->. done.
  - intros j. specialize (b_groups j). unfold group_inv in *. rewrite countb_cons in b_groups. simpl in *.
    replace (pending (set_v_children (v_children s ++ [(i, op, k)]) s) j)
      with (pending s j + (if bool_decide (k = j) then 1 else 0))%nat.
    { by rewrite <- Nat.add_assoc. }
    set (s' := set_v_children _ s). assert (Hw : waits_for (HL := HL) s' j (i, op, k) = bool_decide (k = j)).
    { unfold waits_for, dispatched. simpl. rewrite Hi, (bool_decide_eq_false_2 (op ∈ _)) by done. apply andb_true_r. }
    unfold pending. simpl. rewrite countb_app, countb_cons, countb_nil, Hw. simpl. rewrite Nat.add_0_r. done.
  - intros m Hm. apply b_bound. by right.
  - intros j vals Hj. apply b_info. by right.
  - intros j ecs Hj. apply b_codes. by right.
Qed.

Lemma wpt_initiate n k j i wait r vals :
  KInfo k vals ∈ r -> i ∈ vals ->
  Threads.wpt server_ok Books n (initiate k j i wait) (KChild k :: r) (fun _ r' => r' = r)
    (fun _ r' => r' = KChild k :: r /\ exact = false).
Proof.
  intros Hk Hv. apply wpt_atomic. intros e s f He H.
  destruct (b_info _ _ _ H k vals) as [_ Hlen]; [by right; apply elem_of_app; left|].
  apply (proj1 (Forall_forall _ _) Hlen) in Hv as [l Hi]%lookup_lt_is_Some. rewrite Hi.
  set (a := if wait then LWait None None true else LStart None None true).
  assert (Ha : forall b, a <> LOwn b) by (by destruct wait).
  assert (Hin : initiation (l_initiates l) a = true) by (by destruct wait).
  assert (Hl := listener_law _ _ _ _ _ a _ He H Hi).
  assert (Hlt := lookup_lt_Some _ _ _ Hi).
  assert (Hinv := Forall_lookup_1 _ _ _ _ (b_listeners _ _ _ H) Hi).
  destruct (l_exec a (x_listener e) l) as [[] l'|x l'|l']; [| |done].
  - exists r. split; [|done]. apply books_group; [done|].
    assert (Hlog : log_ops l' = log_ops l) by (destruct Hl; unfold log_ops; destruct wait; congruence).
    set (s1 := set_v_armed _ (set_listener i l' s)). apply (books_initiated s1 (r ++ f) k i l' (l_next_op l)); simpl.
    + by rewrite list_lookup_insert_eq.
    + rewrite (pr_next _ _ _ _ _ Hl), Hin. lia.
    + rewrite Hlog. intros Hop%log_bound; [lia | done].
    + intros Hc%list_elem_of_fmap. destruct Hc as ([[i' op'] k'] & [= <- <-] & Hc).
      apply (proj1 (Forall_forall _ _) (b_fresh _ _ _ H)) in Hc as (l0 & Hl0 & Hop). simplify_eq. lia.
    + eapply (books_frame exact (set_listener i l' s)); try done. by eapply books_call.
  - destruct Hl as [Hl Hf]. exists (KChild k :: r). split; [by eapply books_call|].
    split; [done|]. by destruct wait.
Qed.

(** The initiation errors of a group change hands with its token. *)
Lemma books_record s r k f ecs :
  Books s (KCodes k ecs :: r) ->
  Books (update_group k (fun gr => set_g_initiation_ecs (f (g_initiation_ecs gr)) gr) s) (KCodes k (f ecs) :: r).
Proof.
  intros []. destruct (b_codes k ecs) as (gr & Hk & He); [by left|].
  assert (Hno : forall ecs', KCodes k ecs' ∉ r).
  { intros ecs' Hin. specialize (b_codes_once k). rewrite countb_cons in b_codes_once. simpl in b_codes_once.
    rewrite bool_decide_eq_true_2 in b_codes_once by done.
    apply elem_of_Permutation in Hin as [r' Hr]. rewrite (countb_perm _ _ _ Hr), countb_cons in b_codes_once. simpl in b_codes_once.
    rewrite bool_decide_eq_true_2 in b_codes_once by done. lia. }
  split; try done; simpl.
  - intros j. specialize (b_groups j). unfold group_inv in *. rewrite countb_cons in b_groups |- *. simpl.
    rewrite (pending_frame s) by done. destruct (decide (j = k)) as [->|Hne]; [|by rewrite list_lookup_alter_ne].
    rewrite list_lookup_alter_eq, Hk. simpl in *. by rewrite Hk in b_groups.
  - eapply conserves_perm; [|exact b_handlers]. apply Permutation_app_head. unfold held. simpl.
    by rewrite group_ops_alter.
  - intros m [?|Hm]%elem_of_cons; [done|]. apply b_bound. by right.
  - intros j vals [?|Hj]%elem_of_cons; [done|]. destruct (b_info j vals) as [(x & Hx & <-) Hv]; [by right|].
    split; [|done]. destruct (decide (j = k)) as [->|Hne]; [|rewrite list_lookup_alter_ne; eauto].
    rewrite list_lookup_alter_eq, Hx. simpl. eauto.
  - intros j ecs' [[= -> ->]|Hj]%elem_of_cons.
    + rewrite list_lookup_alter_eq, Hk. simpl. eexists. split; [done|]. simpl. by rewrite He.
    + destruct (decide (j = k)) as [->|Hne]; [by apply Hno in Hj|].
      rewrite list_lookup_alter_ne by done. apply b_codes. by right.
  - intros j. specialize (b_codes_once j). rewrite countb_cons in *. done.
Qed.

(** The tokens of a thread that starts group [k]: [c] operations to account for. *)
Definition starting (k c : nat) (vals : list nat) (ecs : list error_code) (r : list token) : list token :=
  replicate c (KChild k) ++ KInfo k vals :: KCodes k ecs :: r.

(** Enough tokens for [todo] initiations and the errors recorded so far. *)
Definition covers (todo c : nat) (ecs : list error_code) : Prop :=
  (todo + countb failed ecs <= c)%nat /\ (exact = true -> c = (todo + countb failed ecs)%nat).

Lemma countb_insert_le {B} (p : B -> bool) j x l : (countb p (<[j := x]> l) <= S (countb p l))%nat.
Proof.
  revert j. induction l as [|y l IH]; intros [|j]; simpl; rewrite ?countb_nil; try lia; rewrite !countb_cons.
  - destruct (p x), (p y); lia.
  - specialize (IH j). lia.
Qed.

Lemma wpt_record n k j x c vals ecs r :
  wpt n (write (update_group k (fun gr => set_g_initiation_ecs (<[j := x]> (g_initiation_ecs gr)) gr)))
    (starting k c vals ecs r) (fun _ r' => r' = starting k c vals (<[j := x]> ecs) r).
Proof.
  apply wpt_atomic. intros e s f He H. simpl. exists (starting k c vals (<[j := x]> ecs) r). split; [|done].
  apply (books_perm _ _ (KCodes k (<[j := x]> ecs) :: replicate c (KChild k) ++ KInfo k vals :: r ++ f));
    [unfold starting; solve_Permutation|].
  apply (books_record _ _ _ (fun ecs => <[j := x]> ecs)). eapply books_perm; [|exact H].
  unfold starting. solve_Permutation.
Qed.

Lemma wpt_start_one n k wait j i c todo vals ecs r :
  i ∈ vals -> covers (S todo) c ecs ->
  wpt n (start_one k wait (j, i)) (starting k c vals ecs r)
    (fun _ r' => exists c' ecs', r' = starting k c' vals ecs' r /\ covers todo c' ecs').
Proof.
  intros Hi [Hc Hx]. destruct c as [|c]; [lia|]. unfold start_one. apply wpt_try, wpt_bind.
  eapply wpt_mono; [done | apply (wpt_initiate _ _ _ _ _ _ vals) | |]; [| done | |].
  - apply elem_of_app. right. by left.
  - intros [] r' ->. apply wpt_bind, wpt_read. intros cancelled.
    eapply wpt_neutral; [apply neutral_guarded, n_emit_signal_nothrow | | done].
    intros _ _. exists c, ecs. split; [done|]. split; [lia|]. intros Hex. specialize (Hx Hex). lia.
  - intros x r' [-> Hex]. eapply wpt_mono; [done | apply (wpt_record _ _ _ _ (S c)) | | done].
    intros _ r' ->. eexists _, _. split; [done|]. split; [|congruence].
    pose proof (countb_insert_le failed j (exception_to_error (Some x)) ecs). lia.
Qed.

Lemma wpt_start_group n k wait m r :
  Forall droppable r ->
  wpt n (start_group m_executor k wait) (starting k m (seq 0 m) (replicate m success) r)
    (fun _ => Forall droppable).
Proof.
  intros Hr. unfold start_group. apply wpt_bind. unfold group_listeners.
  apply wpt_atomic. intros e s f He H. eexists. split; [exact H|].
  destruct (b_info _ _ _ H k (seq 0 m)) as [(gr & Hk & Hl) _].
  { apply elem_of_app. left. apply elem_of_app. right. by left. }
  rewrite Hk, Hl. clear Hk Hl gr H He f s e. apply wpt_bind.
  eapply wpt_mono; [done | apply (wpt_each _ _ _ _ _ _ (fun rest r' => Forall (fun x => snd x ∈ seq 0 m) rest /\
    exists c ecs, r' = starting k c (seq 0 m) ecs r /\ covers (length rest) c ecs) (fun _ _ => exact = false)) | | done].
  - intros [j i] rest r' n' [[Hi Hrest]%Forall_cons (c & ecs & -> & Hc)].
    eapply wpt_mono; [done | by eapply wpt_start_one | | done]. intros _ r' (c' & ecs' & -> & Hc'). eauto 6.
  - split.
    + apply Forall_forall. intros [j i] Hin. simpl. apply elem_of_lookup_imap in Hin as (? & ? & [= -> ->] & Hin).
      by eapply list_elem_of_lookup_2.
    + exists m, (replicate m success). split; [done|]. rewrite length_imap, length_seq. split; intros;
        rewrite countb_replicate; simpl; lia.
  - intros [] r' [_ (c & ecs & -> & Hc)]. apply wpt_bind, wpt_atomic. intros e s f He H.
    eexists. split; [exact H|]. destruct (b_codes _ _ _ H k ecs) as (gr & Hk & <-).
    { apply elem_of_app. left. apply elem_of_app. right. right. by left. }
    rewrite Hk. clear Hk H He f s e. destruct Hc as [Hc Hx]. simpl in Hc, Hx.
    set (r0 := KInfo k (seq 0 m) :: KCodes k (g_initiation_ecs gr) :: r).
    eapply wpt_mono; [done | apply (wpt_each _ _ _ _ _ _ (fun rest r' => exists c, r' = replicate c (KChild k) ++ r0 /\
      (countb failed rest <= c)%nat /\ (exact = true -> c = countb failed rest)) (fun _ _ => exact = false)) | | done]; [|by exists c|].
    + intros ec rest r' n' (c' & -> & Hle & Heq). rewrite countb_cons in Hle, Heq.
      destruct (failed ec) eqn:Hf; simpl in *.
      * destruct c' as [|c']; [lia|]. eapply wpt_mono; [done | apply wpt_one | | done].
        intros _ r' ->. exists c'. split; [done|]. split; [lia|]. intros Hex. specialize (Heq Hex). lia.
      * apply wpt_ret. eauto.
    + intros _ r' (c' & -> & _ & Heq). apply Forall_app. split; [|by repeat constructor].
      destruct exact eqn:Hex; [by rewrite (Heq eq_refl) | by apply Forall_replicate].
Qed.

(** ** Threads *)

Abbreviation thread_ok n p r := (Threads.thread_ok server_ok Books droppable n p r).

Lemma droppable_all r : exact = false -> Forall droppable r.
Proof. intros ->. apply Forall_forall. intros [] _; done. Qed.

Lemma thread_intro n p r : wpt n p r (fun _ => Forall droppable) -> thread_ok n p r.
Proof. intros H. eapply wpt_mono; [done | exact H | done | intros x r' Hex; by apply droppable_all]. Qed.

Lemma thread_neutral n (Fail : Prop) p F : Threads.neutral server_ok Books Fail p F -> thread_ok n p [].
Proof. intros H. eapply wpt_neutral; [exact H | intros; constructor | intros; constructor]. Qed.

Lemma thread_one n k ec : thread_ok n (one m_executor k ec) [KChild k].
Proof. apply thread_intro. eapply wpt_mono; [done | apply wpt_one | | done]. by intros _ r ->. Qed.

Lemma wpt_complete n h ec r :
  Forall droppable r ->
  wpt n (complete_on_server m_executor (Some h) ec) (KHandler (h_op h) :: r) (fun _ => Forall droppable).
Proof. intros Hr. eapply wpt_mono; [done | apply wpt_complete_on | | done]. by intros _ r' ->. Qed.

(** The snapshot a start or a wait works on. *)
Lemma wpt_snapshot_cases n op (k : list nat -> prog (server_env E) (server_world L) unit) Q :
  wpt n (k []) [KHandler op; KBound 0] Q ->
  (forall m, m <> 0%nat -> Z.of_nat m <= vector_max_size -> wpt n (k (seq 0 m)) [KHandler op; KBound m] Q) ->
  wpt n (PBind snapshot k) [KHandler op] Q.
Proof. intros H0 Hm. apply wpt_bind, wpt_snapshot. intros [|m] Hs; [done|]. by apply Hm. Qed.

Lemma thread_async_wait n h : thread_ok n (server_async_wait m_executor h) [KHandler (h_op h)].
Proof.
  apply thread_intro. unfold server_async_wait. cbv zeta.
  change (h_op h) with (h_op (track_completion_work m_executor h)).
  generalize (track_completion_work m_executor h). clear h. intros h.
  apply wpt_snapshot_cases; [|intros m Hm Hs].
  - rewrite bool_decide_eq_true_2 by done. apply wpt_bind. eapply wpt_neutral; [apply n_finish_wait | intros ec _ | done].
    apply wpt_complete. by repeat constructor.
  - rewrite bool_decide_eq_false_2 by (by destruct m). apply wpt_bind. apply wpt_new_group; [done | done | intros k].
    apply wpt_bind. eapply wpt_neutral; [apply n_prepare | intros _ _ | done].
    apply wpt_start_group. constructor.
Qed.

Lemma thread_async_start n h : thread_ok n (server_async_start m_executor h) [KHandler (h_op h)].
Proof.
  apply thread_intro. unfold server_async_start. cbv zeta.
  change (h_op h) with (h_op (track_completion_work m_executor h)).
  generalize (track_completion_work m_executor h). clear h. intros h.
  apply wpt_snapshot_cases; [|intros m Hm Hs].
  - rewrite bool_decide_eq_true_2 by done. apply wpt_bind. eapply wpt_neutral; [apply n_begin_start | intros [] _ | done].
    + apply wpt_bind. eapply wpt_neutral; [apply n_finish_start | intros ec _ | done].
      apply wpt_complete. by repeat constructor.
    + apply wpt_complete. by repeat constructor.
  - rewrite bool_decide_eq_false_2 by (by destruct m). apply wpt_bind. apply wpt_new_group; [done | done | intros k].
    apply wpt_bind. eapply wpt_neutral; [apply n_prepare | intros _ _ | done].
    apply wpt_bind. eapply wpt_neutral; [apply n_begin_start | intros [] _ | done].
    + apply wpt_bind. eapply wpt_mono; [done | apply (wpt_start_group n k false m []), Forall_nil; done | intros [] r Hr | done].
      apply wpt_bind. eapply wpt_neutral; [apply n_stop_requested | intros stop _ | done].
      eapply wpt_neutral; [apply neutral_guarded, n_group_request_stop | by intros _ _ | done].
    + eapply wpt_mono; [done | apply wpt_reject; [apply length_seq | done] | intros _ r -> | done]. by repeat constructor.
Qed.
End ServerThreads.
