(* ===== verification/ServerTheorems.v ===== *)
(** * Every operation of a server completes exactly once

    The system of Server.v keeps the books: every action, of a caller, of a thread,
    of a listener or of the executor, preserves them.  From the books follow what
    the callers of a server rely on. *)

From S2P Require Import Prelude Errors Effect Options Endpoint Status Observers ListenerBase.
From S2P Require Import ListenerAccount ListenerInterface Threads ServerState ServerControl.
From S2P Require Import OperationGroup Server ServerCompletions ServerThreads.
From S2P Require Import ServerScenarios.

Local Open Scope Z_scope.

#[local] Arguments countb : simpl never.

Section System.
Context {L E A : Type} `{HL : Listener L E A} `{!ListenerLaws HL} (m_executor : executor) (exact : bool).

Implicit Types (s : server_world L) (e : server_env E).

Abbreviation server_ok := (server_ok exact).
Abbreviation Books := (Books exact).
Abbreviation pool_ok := (Threads.pool_ok server_ok Books (droppable exact)).

(** ** A new operation *)

Lemma books_fresh_handler s r : Books s r -> Books (set_v_next_op (S (v_next_op s)) s) (KHandler (v_next_op s) :: r).
Proof.
  intros []. split; try done; simpl.
  - apply (conserves_fresh (tgt := initiated)); [apply initiated_grows | exact b_handlers].
  - intros m [?|Hm]%elem_of_cons; [done | by apply b_bound].
  - intros k vals [?|Hk]%elem_of_cons; [done | by apply b_info].
  - intros k ecs [?|Hk]%elem_of_cons; [done | by apply b_codes].
Qed.

(** ** The handlers a listener dispatches *)

Lemma result_of_logged log op :
  bool_decide (op ∈ map (fun x : executor * nat * error_code => snd (fst x)) log) =
  match result_of log op with Some _ => true | None => false end.
Proof.
  unfold result_of. destruct (find_first _ log) as [[[ex op'] ec]|] eqn:Hf; simpl.
  - apply find_first_true in Hf as [Ht Hin]. apply bool_decide_eq_true in Ht. simpl in Ht. subst op'.
    apply bool_decide_eq_true_2. apply list_elem_of_fmap. by exists (ex, op, ec).
  - apply bool_decide_eq_false_2. intros ([[ex op'] ec] & -> & Hx)%list_elem_of_fmap.
    assert (Hn := proj1 (find_first_None _ _) Hf _ Hx). by apply bool_decide_eq_false in Hn.
Qed.

Lemma logged_app {B} `{EqDecision B} (x : B) (l k : list B) :
  bool_decide (x ∈ l ++ k) = bool_decide (x ∈ l) || bool_decide (x ∈ k).
Proof. rewrite <- bool_decide_or. apply bool_decide_ext, elem_of_app. Qed.

Definition one_tokens (ready : list (nat * error_code)) : list token := map (fun x => KChild (fst x)) ready.

(** An operation of a group is waited for until its handler was dispatched. *)
Lemma waits_for_listener s i l l' new k x :
  v_listeners s !! i = Some l -> l_completed l' = l_completed l ++ new -> NoDup (log_ops l') ->
  ((if waits_for s k x then 1 else 0) = (if waits_for (set_listener i l' s) k x then 1 else 0) +
    countb (is_child k) (one_tokens (ready_ones i new (set_v_children [x] s))))%nat.
Proof.
  intros Hi Hlog Hnd. destruct x as [[i' op] k']. unfold waits_for, dispatched, ready_ones. simpl. rewrite app_nil_r.
  assert (Hlt := lookup_lt_Some _ _ _ Hi). destruct (decide (i' = i)) as [->|Hne].
  - rewrite list_lookup_insert_eq, Hi, (bool_decide_eq_true_2 (i = i)) by done. unfold log_ops in *.
    rewrite Hlog, map_app in Hnd |- *. apply NoDup_app in Hnd as (_ & Hd & _).
    rewrite logged_app, (result_of_logged new). specialize (Hd op). rewrite <- (bool_decide_eq_true (op ∈ map _ new)) in Hd.
    rewrite (result_of_logged new) in Hd. destruct (result_of new op) as [ec|] in Hd |- *; simpl.
    + rewrite orb_true_r, andb_false_r. rewrite countb_cons, countb_nil. simpl. rewrite (bool_decide_eq_false_2 (op ∈ _)), andb_true_r by (intros Hin; by apply Hd). lia.
    + rewrite orb_false_r, countb_nil. lia.
  - rewrite list_lookup_insert_ne, (bool_decide_eq_false_2 (i' = i)) by done. simpl. rewrite countb_nil. lia.
Qed.

Lemma pending_listener s i l l' new k :
  v_listeners s !! i = Some l -> l_completed l' = l_completed l ++ new -> NoDup (log_ops l') ->
  pending s k = (pending (set_listener i l' s) k + countb (is_child k) (one_tokens (ready_ones i new s)))%nat.
Proof.
  intros Hi Hlog Hnd. unfold pending, ready_ones. simpl.
  assert (Hx := fun x => waits_for_listener s i l l' new k x Hi Hlog Hnd).
  unfold ready_ones in Hx. simpl in Hx. induction (v_children s) as [|x cs IH]; [by rewrite !countb_nil|].
  rewrite !countb_cons, IH, Hx. simpl. unfold one_tokens. rewrite !map_app, !countb_app. simpl. rewrite countb_nil. lia.
Qed.

Lemma ops_nodup (l : list nat) n : l ⊆+ seq 0 n -> NoDup l /\ Forall (fun op => (op < n)%nat) l.
Proof.
  intros [k Hk]%submseteq_Permutation. assert (Hd := NoDup_seq 0 n). rewrite Hk in Hd. apply NoDup_app in Hd as [Hd _].
  split; [done|]. apply Forall_forall. intros op Hop. assert (Hs : op ∈ l ++ k) by (apply elem_of_app; by left).
  rewrite <- Hk in Hs. apply elem_of_seq in Hs. lia.
Qed.

Lemma log_nodup l : l_inv l -> NoDup (log_ops l).
Proof.
  intros Hi. eapply (ops_nodup _ (l_next_op l)). etrans; [apply law_completed | by apply law_unique].
Qed.

(** A listener acts on its own: every handler of a group it dispatches becomes a
    thread that reports to the group. *)
Lemma books_listener_runs s r i a e s' ready :
  server_ok e -> Books s r -> listener_runs i a e s = (s', ready) -> Books s' (one_tokens ready ++ r).
Proof.
  intros He H. unfold listener_runs. destruct (v_listeners s !! i) as [l|] eqn:Hi; [|by intros [= <- <-]].
  assert (Hp : exists ret l', Progress exact (LOwn a) ret l l' /\
    match l_exec (LOwn a) (x_listener e) l with Ret _ l' | Throw _ l' | Terminate l' => l' end = l').
  { assert (Hl := listener_law _ _ _ _ _ (LOwn a) _ He H Hi).
    destruct (l_exec (LOwn a) (x_listener e) l) as [[] l'|x l'|l']; [eauto | destruct Hl; eauto | done]. }
  destruct Hp as (ret & l' & [Hinv [new Hlog] _ Hn _] & Hl').
  assert (Hnd := log_nodup l' Hinv).
  intros Hrun. assert (s' = set_listener i l' s /\ ready = ready_ones i new s) as [-> ->].
  { assert (Hd : drop (length (l_completed l)) (l_completed l') = new) by (by rewrite Hlog, drop_app_length).
    destruct (l_exec (LOwn a) (x_listener e) l); rewrite Hl', Hd in Hrun; by injection Hrun as <- <-. }
  clear Hrun Hl' He. destruct H. assert (Hlt := lookup_lt_Some _ _ _ Hi).
  assert (Hnext : (l_next_op l <= l_next_op l')%nat) by (rewrite Hn; destruct (initiation _ _); lia).
  assert (Hone : forall t, t ∈ one_tokens (ready_ones i new s) ++ r -> knowledge t = true -> t ∈ r).
  { intros t [([k ec] & -> & _)%list_elem_of_fmap|Ht]%elem_of_app Hk; done. }
  split; try done; simpl; rewrite ?length_insert; try done.
  - by apply Forall_insert.
  - eapply Forall_impl; [exact b_fresh|]. intros [[i' op] k] (x & Hx & Hop).
    destruct (decide (i' = i)) as [->|Hne]; [|rewrite list_lookup_insert_ne by done; eauto].
    rewrite list_lookup_insert_eq by done. simplify_eq. exists l'. split; [done | lia].
  - intros k. specialize (b_groups k). unfold group_inv in *. rewrite (pending_listener s i l l' new k) in b_groups by done.
    rewrite countb_app, Nat.add_assoc. exact b_groups.
  - eapply conserves_perm; [|exact b_handlers]. rewrite flat_map_app.
    replace (flat_map token_ops (one_tokens _)) with (@nil nat); [done|].
    clear. by induction (ready_ones i new s).
  - intros m Hm. apply b_bound. by apply Hone.
  - intros k vals Hk. apply b_info. by apply Hone.
  - intros k ecs Hk. apply b_codes. by apply Hone.
  - intros k. rewrite countb_app. rewrite countb_zero; [apply b_codes_once|].
    by intros t ([k' ec] & -> & _)%list_elem_of_fmap.
Qed.

(** ** The executor *)

Lemma for_each_calls (ev : server_event) (l : list observer) e s :
  for_each l (fun value => try_catch
      (modify (fun s => set_v_calls (v_calls s ++ [(value, ev)]) s)) (fun _ => ret tt)) e s =
  Ret tt (set_v_calls (v_calls s ++ map (fun v => (v, ev)) l) s).
Proof.
  revert s. induction l as [|o l IH]; intros s; simpl.
  - rewrite app_nil_r. by destruct s.
  - unfold bind, try_catch, modify. rewrite IH. simpl. by rewrite <- app_assoc.
Qed.

(** Every observer registered now sees the event. *)
Lemma notify_server_eq ev e s :
  notify_server ev e s =
  Ret tt (set_v_calls (v_calls s ++ map (fun v => (v, ev)) (Observers.snapshot (v_registry s)))
            (set_v_events (v_events s ++ [ev]) s)).
Proof.
  unfold notify_server, notify_each. set (f := fun value : observer => try_catch _ _).
  unfold bind, modify, noexcept, try_catch, gets. cbn [v_registry set_v_events].
  destruct (Observers.snapshot (v_registry s)) as [|o l].
  - simpl. rewrite app_nil_r. reflexivity.
  - subst f. rewrite for_each_calls. reflexivity.
Qed.

Lemma held_dequeue s n t :
  v_queue s !! n = Some t ->
  held s ≡ₚ task_handler_ops t ++ held (set_v_queue (remove_at n (v_queue s)) s).
Proof.
  intros Hn. unfold held. simpl. rewrite (remove_at_perm n _ t Hn) at 1. simpl. solve_Permutation.
Qed.

Lemma books_run_task s r n e : Books s r -> Books (run_server_task n e s) r.
Proof.
  intros H. unfold run_server_task. destruct (v_queue s !! n) as [t|] eqn:Hn; [|done].
  assert (Hh := held_dequeue s n t Hn). destruct t as [event|on [h|] ec].
  - rewrite notify_server_eq. by apply (books_frame exact s).
  - apply (books_frame exact s); try done. rewrite Hh. unfold held. simpl. rewrite map_app. simpl. solve_Permutation.
  - apply (books_frame exact s); done.
Qed.

(** ** Every action of the system keeps the books *)

Definition system_ok (y : system) : Prop := forall n, pool_ok n (fst y) (snd y).

Lemma system_initial : system_ok initial_server.
Proof.
  intros n. exists []. split; [|constructor]. split; simpl; try done.
  - constructor.
  - by destruct exact.
  - by intros m ?%elem_of_nil.
  - by intros k vals ?%elem_of_nil.
  - by intros k ecs ?%elem_of_nil.
  - intros k. rewrite countb_nil. lia.
Qed.

Lemma spawn_neutral n s ts (Fail : Prop) p F :
  pool_ok n s ts -> Threads.neutral server_ok Books Fail p F -> pool_ok n s (ts ++ [p]).
Proof.
  intros H Hp. eapply pool_spawn_one; [apply books_perm | done | by eapply thread_neutral | done].
Qed.

Lemma system_step y e a : server_ok e -> action_ok a -> system_ok y -> system_ok (exec_server m_executor a e y).
Proof.
  intros He Ha Hy n. destruct y as [s ts]. assert (H := Hy n). simpl in H. destruct a; simpl.
  - eapply pool_spawn_one; [apply books_perm | done | by apply thread_async_start |].
    intros f Hf. by apply books_fresh_handler.
  - eapply pool_spawn_one; [apply books_perm | done | by apply thread_async_wait |].
    intros f Hf. by apply books_fresh_handler.
  - eapply spawn_neutral; [done | apply n_server_request_stop].
  - destruct (v_slots s !! op) as [k|]; [|done]. eapply spawn_neutral; [done | apply n_cancel_group].
  - eapply spawn_neutral; [done | by apply n_add_new_listener].
  - eapply spawn_neutral; [done | apply n_observe_server].
  - eapply spawn_neutral; [done | apply n_unobserve].
  - destruct (listener_runs i a e s) as [s' ready] eqn:Hr.
    eapply (pool_spawn _ _ _ (books_perm exact) _ _ _ _ _ (map (fun x => [KChild (fst x)]) ready)); [done | |].
    + clear Hr. induction ready as [|x ready IH]; simpl; constructor; [apply thread_one | done].
    + intros f Hf. replace (concat _) with (one_tokens ready); [by eapply books_listener_runs|].
      clear Hr. induction ready as [|x ready IH]; simpl; [done | by f_equal].
  - eapply pool_update; [done|]. intros f Hf. by apply books_run_task.
  - destruct (run_thread t e s ts) as [s' ts'] eqn:Hr. simpl.
    eapply pool_run; [apply books_perm | apply books_drop | done | apply (Hy (S n)) | done].
Qed.

Lemma reach_ok y : server_reach m_executor server_ok y -> system_ok y.
Proof. induction 1; [apply system_initial | by apply system_step]. Qed.
End System.

(** ** What the callers rely on *)

Section Completion.
Context {L E A : Type} `{HL : Listener L E A} `{!ListenerLaws HL} (m_executor : executor).

Definition completed_ops (s : server_world L) : list nat := map (fun x => snd (fst x)) (v_completed s).

Lemma reach_books exact s ts :
  server_reach m_executor (server_ok exact) (s, ts) -> exists r, Books exact s r /\ (ts = [] -> r = []).
Proof.
  intros H. destruct (reach_ok m_executor exact _ H 0%nat) as (rs & Hb & Hr). exists (concat rs). split; [done|].
  intros ->. apply Forall2_nil_inv_l in Hr. by subst.
Qed.

(** No start or wait of a server completes twice, and nothing completes that
    was not initiated, however threads interleave and whatever the executors refuse. *)
Theorem server_completes_at_most_once s ts :
  server_reach m_executor (server_ok false) (s, ts) ->
  NoDup (completed_ops s) /\ Forall (fun op => (op < v_next_op s)%nat) (completed_ops s).
Proof.
  intros H. apply reach_books in H as (r & Hb & _). apply ops_nodup.
  etrans; [|apply (b_handlers _ _ _ Hb)]. unfold held. do 3 apply submseteq_inserts_l. done.
Qed.

Lemma all_completed s :
  server_reach m_executor (server_ok true) (s, []) -> v_queue s = [] ->
  Forall (fun x : nat * nat * nat => let '(i, op, _) := x in dispatched s i op = true) (v_children s) ->
  completed_ops s ≡ₚ seq 0 (v_next_op s).
Proof.
  intros H Hq Hc. apply reach_books in H as (r & Hb & Hr). specialize (Hr eq_refl) as ->.
  assert (Hp : forall k, pending s k = 0%nat).
  { intros k. apply countb_zero. intros [[i op] k'] Hx. unfold waits_for.
    apply (proj1 (Forall_forall _ _) Hc) in Hx. rewrite Hx. apply andb_false_r. }
  assert (Hg : flat_map (fun gr => handler_ops (g_completion gr)) (v_groups s) = []).
  { assert (Hk := b_groups _ _ _ Hb). unfold group_inv in Hk. clear -Hp Hk.
    assert (Hn : forall gr, gr ∈ v_groups s -> g_completion gr = None).
    { intros gr [k Hgr]%list_elem_of_lookup. specialize (Hk k). rewrite Hgr, Hp, countb_nil in Hk.
      destruct (g_completion gr); [|done]. unfold rel in Hk. lia. }
    clear Hk. induction (v_groups s) as [|gr l IH]; [done|]. simpl. rewrite (Hn gr) by (by left).
    apply IH. intros gr' ?. apply Hn. by right. }
  assert (Hh := b_handlers _ _ _ Hb). unfold held in Hh. rewrite Hg, Hq in Hh. exact Hh.
Qed.

(** C7: while the executors accept work, no start or wait is lost: when the threads
    have returned, the listeners have dispatched what the groups gave them and the
    executor has run its tasks, every operation initiated has completed, once. *)
Theorem server_completes_exactly_once s :
  server_reach m_executor (server_ok true) (s, []) -> v_queue s = [] ->
  Forall (fun x : nat * nat * nat => let '(i, op, _) := x in dispatched s i op = true) (v_children s) ->
  completed_ops s ≡ₚ seq 0 (v_next_op s).
Proof. apply all_completed. Qed.

(** C27: a group counts exactly the operations it still waits for.  While the executors
    accept work, whenever no call of the server is in progress, [m_remaining] of a group
    whose handler is pending is the number of operations that the listeners have not yet
    completed, and it is not zero; a group that gave its handler away waits for none. *)
Theorem group_counts_pending s k gr :
  server_reach m_executor (server_ok true) (s, []) -> v_groups s !! k = Some gr ->
  match g_completion gr with
  | Some _ => g_remaining gr = Z.of_nat (pending s k) /\ 0 < g_remaining gr
  | None => pending s k = 0%nat
  end.
Proof.
  intros H Hk. apply reach_books in H as (r & Hb & Hr). specialize (Hr eq_refl) as ->.
  assert (Hg := b_groups _ _ _ Hb k). unfold group_inv, rel in Hg. rewrite Hk, countb_nil in Hg.
  destruct (g_completion gr); lia.
Qed.
End Completion.

(** ** Witnesses *)

Lemma server_completes_at_most_once_witness :
  completed_ops (fst (play start_both)) = [0%nat] /\
  NoDup (completed_ops (fst (play start_both))) /\
  Forall (fun op => (op < v_next_op (fst (play start_both)))%nat) (completed_ops (fst (play start_both))).
Proof.
  split; [vm_compute; reflexivity|].
  exact (server_completes_at_most_once system_executor _ _ (play_pair false _ start_both_ok)).
Defined.

Lemma server_completes_exactly_once_witness :
  v_next_op (fst (play start_both)) = 1%nat /\
  completed_ops (fst (play start_both)) ≡ₚ seq 0 (v_next_op (fst (play start_both))).
Proof.
  split; [vm_compute; reflexivity|]. apply (server_completes_exactly_once system_executor).
  - apply (play_quiet true _ start_both_ok). vm_compute. reflexivity.
  - vm_compute. reflexivity.
  - vm_compute. repeat constructor.
Defined.

Lemma group_counts_pending_witness :
  exists gr, v_groups (fst (play half_started)) !! 0%nat = Some gr /\ g_remaining gr = 1 /\
    match g_completion gr with
    | Some _ => g_remaining gr = Z.of_nat (pending (fst (play half_started)) 0) /\ 0 < g_remaining gr
    | None => pending (fst (play half_started)) 0 = 0%nat
    end.
Proof.
  eexists. split; [vm_compute; reflexivity|]. split; [reflexivity|].
  apply (group_counts_pending system_executor).
  - apply (play_quiet true _ half_started_ok). vm_compute. reflexivity.
  - vm_compute. reflexivity.
Defined.
