(* ===== verification/ServerLifecycle.v ===== *)
(** * The life cycle of a server

    What the compare-and-exchange loops of src/server.cpp guarantee together: the
    states follow the documented order, every change is announced and every start
    counted once, and a requested stop is passed on to every listener, those included
    whose start another thread is just submitting (what the listeners make of it:
    StopReaches.v).

    A thread owns a duty for what it still has to do, from the action that incurs it
    (a successful exchange, a lock) to the one that discharges it. *)

From S2P Require Import Prelude Errors Effect Options Endpoint Status Observers ListenerBase.
From S2P Require Import ListenerAccount ListenerInterface Threads ServerState ServerControl.
From S2P Require Import OperationGroup Server ServerCompletions.

Local Open Scope Z_scope.

#[local] Arguments countb : simpl never.

(** ** The order of the states *)

Inductive server_edge : server_state.t -> server_state.t -> Prop :=
| sedge_starting a : a = server_state.idle \/ a = server_state.stopped -> server_edge a server_state.starting
| sedge_running : server_edge server_state.starting server_state.running
| sedge_stopping a : a <> server_state.stopping -> a <> server_state.stopped -> server_edge a server_state.stopping
| sedge_stopped a : a <> server_state.stopped -> server_edge a server_state.stopped.

Inductive server_path : list server_state.t -> server_state.t -> Prop :=
| spath_nil : server_path [] server_state.idle
| spath_snoc l a b : server_path l a -> server_edge a b -> server_path (l ++ [b]) b.

(** The event that announces a state. *)
Definition announce (a : server_state.t) : list server_event_type :=
  match a with
  | server_state.idle => []
  | server_state.starting => [ev_starting]
  | server_state.running => [ev_running]
  | server_state.stopping => [ev_stopping]
  | server_state.stopped => [ev_stopped]
  end.

Definition is_starting (a : server_state.t) : bool := bool_decide (a = server_state.starting).

Definition task_events (t : server_task) : list server_event_type :=
  match t with SNotify ev => [se_type ev] | SDispatch _ _ _ => [] end.

(** The events posted or delivered. *)
Definition event_types {L} (s : server_world L) : list server_event_type :=
  flat_map task_events (v_queue s) ++ map se_type (v_events s).

(** ** Duties *)

(** [DLock m]: release the mutex, until when there are [m] listeners; [DCount]:
    count a generation; [DEmit]: post an event; [DGuard vals]: check, after starting
    [vals], whether a stop was requested; [DSweep vals]: ask [vals] to stop.
    [DVals k vals] is knowledge: the listeners of group [k]. *)
Inductive duty :=
| DLock (m : nat)
| DCount
| DEmit (type : server_event_type)
| DGuard (vals : list nat)
| DSweep (vals : list nat)
| DVals (k : nat) (vals : list nat).

Definition duty_events (t : duty) : list server_event_type :=
  match t with DEmit type => [type] | _ => [] end.

Definition is_lock (t : duty) : bool := match t with DLock _ => true | _ => false end.
Definition is_count (t : duty) : bool := match t with DCount => true | _ => false end.

Definition covers (t : duty) (i : nat) : Prop :=
  match t with DGuard vals | DSweep vals => i ∈ vals | _ => False end.

Section Lifecycle.
Context {L E A : Type} `{HL : Listener L E A} `{!ListenerLaws HL} (m_executor : executor) (exact : bool).

Implicit Types (s : server_world L) (e : server_env E) (r f : list duty).

Abbreviation server_ok := (server_ok exact).

Definition may_drop (t : duty) : Prop :=
  match t with
  | DLock _ | DCount => False
  | DEmit _ | DGuard _ => exact = false
  | DSweep vals => exact = false \/ vals = []
  | DVals _ _ => True
  end.

(** A requested stop is under way: who will stop listener [i]? *)
Definition stop_covered (s : server_world L) (r : list duty) : Prop :=
  exact = true -> v_state s = server_state.stopping -> v_stop_requested s = true ->
  forall i, i ∈ v_armed s -> exists t, t ∈ r /\ covers t i.

Record Life (s : server_world L) (r : list duty) : Prop := {
  lf_listeners : Forall l_inv (v_listeners s);
  lf_path : server_path (v_path s) (v_state s);
  lf_generation : u64 (v_generation s) = v_generation s /\
    u64 (v_generation s + Z.of_nat (countb is_count r)) = u64 (Z.of_nat (countb is_starting (v_path s)));
  lf_events : conserves exact (flat_map duty_events r ++ event_types s) (flat_map announce (v_path s));
  lf_lock : countb is_lock r = if v_locked s then 1%nat else 0%nat;
  lf_length m : DLock m ∈ r -> length (v_listeners s) = m;
  lf_vals k vals : DVals k vals ∈ r -> exists gr, v_groups s !! k = Some gr /\ g_listeners gr = vals;
  lf_armed i : i ∈ v_armed s -> (i < length (v_listeners s))%nat;
  lf_stop : stop_covered s r }.

Abbreviation wpt n p r Q := (Threads.wpt server_ok Life n p r Q (fun _ _ => exact = false)).
Abbreviation neutral p F := (Threads.neutral server_ok Life (exact = false) p F).

Lemma life_perm s r r' : r ≡ₚ r' -> Life s r -> Life s r'.
Proof.
  intros Hr []. split; rewrite <- ?(countb_perm _ _ _ Hr); try done.
  - eapply conserves_perm; [|exact lf_events0]. by rewrite Hr.
  - intros m. rewrite <- Hr. apply lf_length0.
  - intros k vals. rewrite <- Hr. apply lf_vals0.
  - intros Hx H1 H2 i Hi. destruct (lf_stop0 Hx H1 H2 i Hi) as (t & Ht & Hc). exists t. by rewrite <- Hr.
Qed.

Lemma life_drop s t f : may_drop t -> Life s (t :: f) -> Life s f.
Proof.
  intros Ht []. rewrite countb_cons in lf_generation0, lf_lock0. split; try done.
  - by destruct t.
  - destruct t; simpl in *; try done. rewrite Ht in *. by eapply conserves_drop.
  - by destruct t.
  - intros m Hm. apply lf_length0. by right.
  - intros k vals Hk. apply lf_vals0. by right.
  - intros Hx H1 H2 i Hi. destruct (lf_stop0 Hx H1 H2 i Hi) as (t' & [->|Ht']%elem_of_cons & Hc); [|eauto].
    exfalso. destruct t; simpl in *; try done; try congruence. destruct Ht as [?| ->]; [congruence|].
    by apply elem_of_nil in Hc.
Qed.

(** ** Changes outside the life cycle *)

(** Groups keep their listeners. *)
Definition groups_kept (s s' : server_world L) : Prop :=
  forall k gr, v_groups s !! k = Some gr -> exists gr', v_groups s' !! k = Some gr' /\ g_listeners gr' = g_listeners gr.

Lemma life_frame s s' r :
  Forall l_inv (v_listeners s') -> length (v_listeners s') = length (v_listeners s) ->
  v_path s' = v_path s -> v_state s' = v_state s -> v_generation s' = v_generation s ->
  v_locked s' = v_locked s -> v_stop_requested s' = v_stop_requested s -> v_armed s' ⊆ v_armed s ->
  event_types s' ≡ₚ event_types s -> groups_kept s s' -> Life s r -> Life s' r.
Proof.
  intros Hl Hn Hp Hs Hg Hk Hr Ha He Hgr []. split; rewrite ?Hp, ?Hs, ?Hg, ?Hk, ?Hn; try done.
  - eapply conserves_perm; [|exact lf_events0]. by rewrite He.
  - intros k vals Hv. destruct (lf_vals0 k vals Hv) as (gr & Hgr' & <-).
    destruct (Hgr k gr Hgr') as (gr' & ? & ?). eauto.
  - intros i Hi. apply lf_armed0. by eapply elem_of_weaken.
  - intros Hx. rewrite Hs, Hr. intros H1 H2 i Hi. apply lf_stop0; [done..|]. by eapply elem_of_weaken.
Qed.

Lemma groups_same s s' : v_groups s' = v_groups s -> groups_kept s s'.
Proof. intros H k gr Hk. rewrite H. eauto. Qed.

Lemma groups_update s s' k g :
  v_groups s' = alter g k (v_groups s) -> (forall gr, g_listeners (g gr) = g_listeners gr) -> groups_kept s s'.
Proof.
  intros Hs Hf j gr Hj. rewrite Hs. destruct (decide (j = k)) as [->|Hne]; [|rewrite list_lookup_alter_ne; eauto].
  rewrite list_lookup_alter_eq, Hj. simpl. eauto.
Qed.

Lemma groups_app s gs : groups_kept s (set_v_groups (v_groups s ++ gs) s).
Proof. intros k gr Hk. simpl. rewrite (lookup_app_l_Some _ _ _ _ Hk). eauto. Qed.

(** Nothing the life cycle mentions changes. *)
Ltac frame_life s :=
  apply (life_frame s); simpl; rewrite ?length_insert, ?length_map; try done;
  try solve [by apply groups_same | by eapply groups_update | by apply groups_app].

Lemma life_listener s r i l' : l_inv l' -> Life s r -> Life (set_listener i l' s) r.
Proof. intros Hl H. frame_life s. apply Forall_insert; [apply H | done]. Qed.

Lemma life_law s r i l a e :
  server_ok e -> Life s r -> v_listeners s !! i = Some l ->
  match l_exec a (x_listener e) l with
  | Ret _ l' => l_inv l'
  | Throw _ l' => l_inv l' /\ may_fail exact a
  | Terminate _ => False
  end.
Proof.
  intros [He _] H Hi. assert (Hl := law_exec exact a (x_listener e) l He (Forall_lookup_1 _ _ _ _ (lf_listeners _ _ H) Hi)).
  destruct (l_exec a (x_listener e) l); [apply Hl | | done]. destruct Hl as [[] ?]. done.
Qed.

Lemma lf_call_listener i a : (forall b, a <> LOwn b) -> neutral (call_listener i a) (fun _ => True).
Proof.
  intros Hb. apply neutral_atomic. intros e s r He H. destruct (v_listeners s !! i) as [l|] eqn:Hi; [|done].
  assert (Hl := life_law s r i l a e He H Hi).
  destruct (l_exec a (x_listener e) l) as [[] l'|x l'|l']; simpl; [by split; [apply life_listener|] | | done].
  destruct Hl as [Hl Hf]. split; [by apply life_listener|]. destruct a; simpl in Hf; try done. by destruct (Hb a).
Qed.

Lemma life_armed s r X : X ⊆ v_armed s -> Life s r -> Life (set_v_armed X s) r.
Proof. intros HX H. frame_life s. apply H. Qed.

Lemma life_asked s r i l : Life s r -> Life (asked_to_stop i l s) r.
Proof. intros H. frame_life s; [apply H | by apply subseteq_difference_l]. Qed.

Lemma lf_stop_listener Fail i : Threads.neutral server_ok Life Fail (stop_listener i) (fun _ => True).
Proof.
  apply neutral_atomic. intros e s r He H. destruct (v_listeners s !! i) as [l|] eqn:Hi; [|done].
  assert (Hl := life_law s r i l LRequestStop e He H Hi).
  destruct (l_exec LRequestStop (x_listener e) l) as [[] l'|x l'|l']; simpl; [| by destruct Hl | done].
  split; [|done]. by apply life_asked, life_listener.
Qed.

(** The sweep has one listener less to stop. *)
Lemma life_swept s r i vals :
  i ∉ v_armed s -> Life s (DSweep (i :: vals) :: r) -> Life s (DSweep vals :: r).
Proof.
  intros Ha []. split; try done.
  - intros m [?|Hm]%elem_of_cons; [done|]. apply lf_length0. by right.
  - intros k v [?|Hm]%elem_of_cons; [done|]. apply lf_vals0. by right.
  - intros Hx H1 H2 j Hj. destruct (lf_stop0 Hx H1 H2 j Hj) as (t & [->|Ht]%elem_of_cons & Hc); [|eexists; split; [by right | done]].
    exists (DSweep vals). split; [by left|]. simpl in *. apply elem_of_cons in Hc as [->|?]; done.
Qed.

Lemma wpt_sweep_one n i vals r X :
  Threads.wpt server_ok Life n (stop_listener i) (DSweep (i :: vals) :: r) (fun _ r' => r' = DSweep vals :: r) X.
Proof.
  apply wpt_atomic. intros e s f He H. destruct (v_listeners s !! i) as [l|] eqn:Hi.
  - assert (Hl := life_law _ _ i l LRequestStop e He H Hi).
    destruct (l_exec LRequestStop (x_listener e) l) as [[] l'|x l'|l']; simpl; [| by destruct Hl | done].
    exists (DSweep vals :: r). split; [|done]. apply (life_swept _ _ i); [by simpl; intros [_ Hn]%elem_of_difference; apply Hn, elem_of_singleton|].
    by apply life_asked, life_listener.
  - exists (DSweep vals :: r). split; [|done]. apply (life_swept _ _ i); [|done].
    intros Hn%(lf_armed _ _ H). apply lookup_ge_None in Hi. lia.
Qed.

Lemma wpt_sweep n vals r X :
  Threads.wpt server_ok Life n (each vals stop_listener) (DSweep vals :: r) (fun _ r' => r' = DSweep [] :: r) X.
Proof.
  apply (wpt_each _ _ _ _ _ _ (fun rest r' => r' = DSweep rest :: r)); [|done].
  intros i rest r' m ->. apply wpt_sweep_one.
Qed.

(** ** The mutex *)

Lemma wpt_lock n r (Q : unit -> list duty -> Prop) X :
  (forall m, Q tt (DLock m :: r)) -> Threads.wpt server_ok Life n lock r Q X.
Proof.
  intros HQ. apply (wpt_iter _ _ _ _ _ _ _ _ (fun _ r' => r' = r)); [|done]. intros [] r' m ->.
  apply wpt_atomic. intros e s f He H. destruct (v_locked s) eqn:Hl; [by exists r|].
  set (n0 := length (v_listeners s)). exists (DLock n0 :: r). split; [|apply HQ].
  destruct H. rewrite Hl in *. split; try done; simpl.
  - by rewrite countb_cons, lf_lock0.
  - intros k [[= ->]|Hk]%elem_of_cons; [done | by apply lf_length0].
  - intros k vals [?|Hk]%elem_of_cons; [done | by apply lf_vals0].
  - intros Hx H1 H2 i Hi. destruct (lf_stop0 Hx H1 H2 i Hi) as (t & Ht & Hc). exists t. split; [by right | done].
Qed.

Lemma life_unlock s m r : Life s (DLock m :: r) -> Life (set_v_locked false s) r.
Proof.
  intros []. split; try done; simpl.
  - rewrite countb_cons in lf_lock0. simpl in lf_lock0. destruct (v_locked s); lia.
  - intros k Hk. apply lf_length0. by right.
  - intros k vals Hk. apply lf_vals0. by right.
  - intros Hx H1 H2 i Hi. destruct (lf_stop0 Hx H1 H2 i Hi) as (t & [->|Ht]%elem_of_cons & Hc); [done | eauto].
Qed.

Lemma wpt_unlock n m r X : Threads.wpt server_ok Life n unlock (DLock m :: r) (fun _ r' => r' = r) X.
Proof. apply wpt_atomic. intros e s f He H. exists r. split; [by eapply life_unlock | done]. Qed.

(** Nobody else adds a listener while the mutex is held. *)
Lemma life_push s l m r :
  l_inv l -> Life s (DLock m :: r) -> Life (set_v_listeners (v_listeners s ++ [l]) s) (DLock (S m) :: r).
Proof.
  intros Hl []. rewrite !countb_cons in *. simpl in *. split; try done; simpl; rewrite ?length_app; simpl.
  - by apply Forall_app; split; [|apply Forall_singleton].
  - intros k [[= ->]|Hk]%elem_of_cons; [rewrite (lf_length0 m) by (by left); lia|]. exfalso.
    apply elem_of_Permutation in Hk as [r' Hr]. rewrite (countb_perm _ _ _ Hr), countb_cons in lf_lock0. simpl in lf_lock0.
    destruct (v_locked s); lia.
  - intros k vals [?|Hk]%elem_of_cons; [done|]. apply lf_vals0. by right.
  - intros i Hi. specialize (lf_armed0 i Hi). lia.
  - intros Hx H1 H2 i Hi. destruct (lf_stop0 Hx H1 H2 i Hi) as (t & [->|Ht]%elem_of_cons & Hc); [done|].
    exists t. split; [by right | done].
Qed.

(** ** Events *)

Lemma lf_post_dispatch on h ec : neutral (post_server (SDispatch on h ec)) (fun _ => True).
Proof.
  apply neutral_atomic. intros e s r He H. destruct (x_post e _) as [x|] eqn:Hx; simpl.
  - split; [done|]. destruct exact; [|done]. destruct He as [_ He]. by rewrite He in Hx.
  - split; [|done]. frame_life s; [apply H|]. unfold event_types. simpl. by rewrite flat_map_app, app_nil_r.
Qed.

Lemma wpt_notify n ev r X :
  (forall x, exact = false -> X x r) ->
  Threads.wpt server_ok Life n (post_server (SNotify ev)) (DEmit (se_type ev) :: r) (fun _ r' => r' = r) X.
Proof.
  intros HX. apply wpt_atomic. intros e s f He H. destruct (x_post e _) as [x|] eqn:Hx; exists r.
  - assert (Hex : exact = false). { destruct exact; [|done]. destruct He as [_ He]. by rewrite He in Hx. }
    split; [by apply (life_drop _ (DEmit (se_type ev)))|]. by apply HX.
  - split; [|done]. destruct H. split; try done; simpl.
    + eapply conserves_perm; [|exact lf_events0]. unfold event_types. simpl. rewrite !flat_map_app. simpl. solve_Permutation.
    + intros m Hm. apply lf_length0. by right.
    + intros k vals Hk. apply lf_vals0. by right.
    + intros Hy H1 H2 i Hi. destruct (lf_stop0 Hy H1 H2 i Hi) as (t & [->|Ht]%elem_of_cons & Hc); [done | eauto].
Qed.

Lemma lf_status_loop Fail l v : Threads.neutral server_ok Life Fail (status_loop l v) (fun _ => True).
Proof.
  revert v. induction l as [|i l IH]; intros v; simpl; [by apply neutral_ret|].
  eapply neutral_bind; [apply neutral_read|]. intros item _. apply IH.
Qed.

Lemma lf_status Fail l : Threads.neutral server_ok Life Fail (status l) (fun _ => True).
Proof.
  unfold status, load_state. do 2 (eapply neutral_bind; [apply neutral_read | intros ? _]). apply lf_status_loop.
Qed.

Section Quiet.
Context (X : exn -> list duty -> Prop).

(** The operations of [server_control] let no exception out. *)
Abbreviation quiet n p r Q := (Threads.wpt server_ok Life n p r Q X).

(** [emit] posts the event, or nothing when the executor refuses. *)
Lemma wpt_emit n type l ec r : quiet n (emit type l ec) (DEmit type :: r) (fun _ r' => r' = r).
Proof.
  unfold emit. apply wpt_try, wpt_bind. eapply wpt_neutral; [apply (lf_status False) | intros st _ | done].
  apply (wpt_notify _ {| se_type := type; se_status := st; se_error := ec |}). intros x Hx. by apply wpt_ret.
Qed.

(** ** Transitions *)

(** What a thread has to do when it changed the state. *)
Definition duties (a : server_state.t) : list duty :=
  match a with
  | server_state.idle => []
  | server_state.starting => [DCount; DEmit ev_starting]
  | server_state.running => [DEmit ev_running]
  | server_state.stopping => [DEmit ev_stopping]
  | server_state.stopped => [DEmit ev_stopped]
  end.

Lemma duties_knowledge a t : t ∈ duties a -> (forall m, t <> DLock m) /\ (forall k vals, t <> DVals k vals).
Proof. destruct a; simpl; intros H; repeat apply elem_of_cons in H as [->|H]; try (by apply elem_of_nil in H); done. Qed.

Lemma conserves_more {B} g (x l k : list B) : conserves g l k -> conserves g (x ++ l) (k ++ x).
Proof.
  intros H. destruct g; simpl in *; [rewrite H; apply Permutation_app_comm|].
  rewrite (Permutation_app_comm k). by apply submseteq_skips_l.
Qed.

Lemma u64_succ a b : u64 a = u64 b -> u64 (1 + a) = u64 (1 + b).
Proof. unfold u64. intros H. by rewrite <- Zplus_mod_idemp_r, H, Zplus_mod_idemp_r. Qed.

Lemma life_enter s r next requested :
  server_edge (v_state s) next ->
  (next = server_state.stopping -> requested = true -> forall i, i ∈ v_armed s -> exists t, t ∈ r /\ covers t i) ->
  Life s r -> Life (enter_state next requested s) (duties next ++ r).
Proof.
  intros He Hst []. destruct lf_generation0 as [Hg1 Hg2]. split; try done; simpl.
  - by eapply spath_snoc.
  - split; [done|]. rewrite !countb_app, countb_cons, countb_nil.
    destruct next; simpl; rewrite ?countb_cons, ?countb_nil; simpl; rewrite ?Nat.add_0_r; try done.
    apply u64_succ in Hg2. etrans; [|etrans; [exact Hg2|]]; f_equal; lia.
  - rewrite !flat_map_app. simpl. rewrite app_nil_r, <- app_assoc.
    replace (announce next) with (flat_map duty_events (duties next)) by (by destruct next).
    by apply conserves_more.
  - rewrite countb_app, <- lf_lock0. by destruct next.
  - intros m [Hm|Hm]%elem_of_app; [|by apply lf_length0]. by apply duties_knowledge in Hm as [Hm _]; destruct (Hm m).
  - intros k vals [Hk|Hk]%elem_of_app; [|by apply lf_vals0]. by apply duties_knowledge in Hk as [_ Hk]; destruct (Hk k vals).
  - intros _ H1 H2 i Hi. simpl in *. destruct (Hst H1 H2 i Hi) as (t & Ht & Hc). exists t.
    split; [|done]. apply elem_of_app. by right.
Qed.

Lemma wpt_cas_weak n current next r (Q : option server_state.t -> list duty -> Prop) :
  server_edge current next -> Q None (duties next ++ r) -> (forall a, Q (Some a) r) ->
  quiet n (compare_exchange_weak current next false) r Q.
Proof.
  intros He HN HS. apply wpt_atomic. intros e s f Hok H. case_bool_decide as Hc; [|by exists r].
  destruct (negb _); simpl; [|by exists r]. subst current. exists (duties next ++ r). split; [|done].
  rewrite <- app_assoc. by apply life_enter.
Qed.

Lemma lf_load_state Fail : Threads.neutral server_ok Life Fail load_state (fun _ => True).
Proof. apply neutral_read. Qed.

Lemma wpt_count n r :
  quiet n (write (fun s => set_v_generation (u64 (v_generation s + 1)) s)) (DCount :: r) (fun _ r' => r' = r).
Proof.
  apply wpt_atomic. intros e s f He H. exists r. split; [|done]. destruct H. destruct lf_generation0 as [_ Hg]. split; try done; simpl.
  - simpl in Hg. rewrite countb_cons in Hg. simpl in Hg. split; [unfold u64; by rewrite Zmod_mod|]. rewrite <- Hg.
    unfold u64. rewrite Zplus_mod_idemp_l. f_equal. lia.
  - intros m Hm. apply lf_length0. by right.
  - intros k vals Hk. apply lf_vals0. by right.
  - intros Hx H1 H2 i Hi. destruct (lf_stop0 Hx H1 H2 i Hi) as (t & [->|Ht]%elem_of_cons & Hc); [done | eauto].
Qed.

Lemma lf_begin_start n l r : quiet n (begin_start l) r (fun _ r' => r' = r).
Proof.
  unfold begin_start. apply wpt_bind. eapply wpt_neutral; [apply (lf_load_state False) | intros current _ | done].
  apply (wpt_iter _ _ _ _ _ _ _ _ (fun _ r' => r' = r)); [|done]. clear current n. intros current r' n ->.
  destruct (_ || _) eqn:H1; [by apply wpt_ret|].
  destruct (bool_decide (current = server_state.stopping)) eqn:H2; [by apply wpt_ret|]. apply bool_decide_eq_false in H2.
  apply wpt_bind. apply wpt_cas_weak; [| |intros a; by apply wpt_ret].
  - apply sedge_starting. apply orb_false_iff in H1 as [?%bool_decide_eq_false ?%bool_decide_eq_false].
    destruct current; try done; auto.
  - apply wpt_bind. eapply wpt_mono; [done | apply wpt_count | intros [] r' -> | done].
    apply wpt_bind. eapply wpt_mono; [done | apply wpt_emit | intros [] r' -> | done]. by apply wpt_ret.
Qed.

(** The common loop of a failed start and of [request_stop]: [add] are the duties
    the exchange to [stopping] incurs besides the announcement. *)
Lemma wpt_stopping_loop n requested after r add :
  (forall n current, current <> server_state.stopping -> current <> server_state.stopped ->
     quiet n (compare_exchange_weak current server_state.stopping requested) r
       (fun res r' => match res with None => r' = DEmit ev_stopping :: add ++ r | Some _ => r' = r end)) ->
  (forall n, quiet n after (DEmit ev_stopping :: add ++ r) (fun _ r' => r' = add ++ r)) ->
  quiet n (stopping_loop requested after) r (fun _ r' => r' = r \/ r' = add ++ r).
Proof.
  intros Hcas Hafter. unfold stopping_loop. apply wpt_bind.
  eapply wpt_neutral; [apply (lf_load_state False) | intros current _ | done].
  apply (wpt_iter _ _ _ _ _ _ _ _ (fun _ r' => r' = r)); [|done]. clear current n. intros current r' n ->.
  destruct (_ || _) eqn:H1; [by apply wpt_ret; left|].
  apply orb_false_iff in H1 as [?%bool_decide_eq_false ?%bool_decide_eq_false].
  apply wpt_bind. eapply wpt_mono; [done | by apply Hcas | | done]. intros [a|] r' ->; [by apply wpt_ret|].
  apply wpt_bind. eapply wpt_mono; [done | apply Hafter | intros [] r' -> | done]. apply wpt_ret. by right.
Qed.

Lemma lf_finish_start n l ec r : quiet n (finish_start l ec) r (fun _ r' => r' = r).
Proof.
  unfold finish_start. destruct (failed ec).
  - apply wpt_bind. eapply wpt_mono; [done | apply (wpt_stopping_loop _ _ _ _ []) | | done].
    + intros m current H1 H2. apply wpt_cas_weak; [by constructor | done | done].
    + intros m. apply wpt_emit.
    + intros [] r' Hr. apply wpt_ret. by destruct Hr.
  - apply wpt_bind, wpt_atomic. intros e s f He H. case_bool_decide as Hs.
    + exists (DEmit ev_running :: r). split; [by apply (life_enter s (r ++ f) server_state.running); [rewrite Hs; constructor | |]|].
      apply wpt_bind. eapply wpt_mono; [done | apply wpt_emit | intros [] r' -> | done]. by apply wpt_ret.
    + exists r. split; [done|]. case_bool_decide; by apply wpt_ret.
Qed.

Lemma lf_finish_wait n l ec r : quiet n (finish_wait l ec) r (fun _ r' => r' = r).
Proof.
  unfold finish_wait. apply wpt_bind, wpt_atomic. intros e s f He H. case_bool_decide as Hs.
  - exists r. split; [done|]. apply wpt_bind, wpt_ret. by apply wpt_ret.
  - exists (DEmit ev_stopped :: r). split; [by apply (life_enter s (r ++ f) server_state.stopped); [constructor | |]|].
    apply wpt_bind.
    eapply wpt_mono; [done | apply wpt_emit | intros [] r' -> | done]. by apply wpt_ret.
Qed.

End Quiet.

(** [request_stop] knows all listeners, so it can promise to stop them. *)
Lemma wpt_control_request_stop n m r X :
  Threads.wpt server_ok Life n (control_request_stop (seq 0 m)) (DLock m :: r)
    (fun _ r' => r' = DLock m :: r \/ r' = DSweep (seq 0 m) :: DLock m :: r) X.
Proof.
  unfold control_request_stop. apply wpt_try.
  eapply wpt_mono; [done | apply (wpt_stopping_loop (fun _ _ => False) _ _ _ _ [DSweep (seq 0 m)]) | | ].
  - intros n' current H1 H2. apply wpt_atomic. intros e s f He H. case_bool_decide as Hc; [|by exists (DLock m :: r)].
    destruct (negb _); simpl; [|by exists (DLock m :: r)]. subst current. eexists. split; [|done].
    apply (life_enter s (DSweep (seq 0 m) :: DLock m :: r ++ f) server_state.stopping); [by constructor | |].
    + intros _ _ i Hi. exists (DSweep (seq 0 m)). split; [by left|]. simpl. apply elem_of_seq.
      apply (lf_armed _ _ H) in Hi. rewrite (lf_length _ _ H m) in Hi by (by left). lia.
    + destruct H. split; try done; simpl.
      * intros k [?|Hk]%elem_of_cons; [done | by apply lf_length0].
      * intros k vals [?|Hk]%elem_of_cons; [done | by apply lf_vals0].
      * intros Hx Ha Hb i Hi. destruct (lf_stop0 Hx Ha Hb i Hi) as (t & Ht & Hc). exists t. split; [by right | done].
  - intros n'. apply wpt_emit.
  - intros [] r' Hr. done.
  - done.
Qed.

(** ** Threads *)

Abbreviation thread_ok n p r := (Threads.thread_ok server_ok Life may_drop n p r).

Lemma neutral_quiet {B} (p : prog (server_env E) (server_world L) B) :
  (forall n r X, Threads.wpt server_ok Life n p r (fun _ r' => r' = r) X) -> neutral p (fun _ => True).
Proof. intros H n r. eapply wpt_mono; [done | apply (H n r (fun _ _ => False)) | by intros | done]. Qed.

Lemma lf_n_begin_start l : neutral (begin_start l) (fun _ => True).
Proof. apply neutral_quiet. intros n r X. apply lf_begin_start. Qed.

Lemma lf_n_finish_start l ec : neutral (finish_start l ec) (fun _ => True).
Proof. apply neutral_quiet. intros n r X. apply lf_finish_start. Qed.

Lemma lf_n_finish_wait l ec : neutral (finish_wait l ec) (fun _ => True).
Proof. apply neutral_quiet. intros n r X. apply lf_finish_wait. Qed.

Lemma lf_n_complete h ec : neutral (complete_on_server m_executor h ec) (fun _ => True).
Proof. apply lf_post_dispatch. Qed.

#[local] Hint Resolve lf_n_begin_start lf_n_finish_start lf_n_finish_wait lf_n_complete lf_stop_listener
  lf_call_listener : neutral.

Lemma lf_group_request_stop k : neutral (group_request_stop k) (fun _ => True).
Proof. unfold group_request_stop, group_listeners. neutral_auto. Qed.

Lemma life_take_completion s r k : Life s r -> Life (snd (take_completion k s)) r.
Proof.
  intros H. unfold take_completion. destruct (v_groups s !! k) as [gr|]; [|done]. simpl.
  destruct (g_completion gr); frame_life s; apply H.
Qed.

Lemma lf_count_one k ec : neutral (count_one k ec) (fun _ => True).
Proof.
  apply neutral_atomic. intros e s r He H. destruct (v_groups s !! k) as [gr|]; [|done]. cbv zeta.
  set (s1 := update_group k _ s). assert (H1 : Life s1 r) by (unfold s1; frame_life s; apply H).
  destruct (_ =? 0); [|done]. assert (H2 := life_take_completion s1 r k H1).
  by destruct (take_completion k s1) in H2 |- *.
Qed.

Lemma lf_finished k ec : neutral (finished k ec) (fun _ => True).
Proof. unfold finished, group_listeners. neutral_auto. Qed.

#[local] Hint Resolve lf_group_request_stop lf_count_one lf_finished : neutral.

Lemma lf_one k ec : neutral (one m_executor k ec) (fun _ => True).
Proof. unfold one. neutral_auto. Qed.

Lemma lf_emit_signal k j type : neutral (emit_signal k j type) (fun _ => True).
Proof. unfold emit_signal. neutral_auto. Qed.

Lemma lf_reject k ec : neutral (reject m_executor k ec) (fun _ => True).
Proof.
  unfold reject. eapply (neutral_bind _ _ _ _ _ (fun _ => True)); [|intros h _; apply lf_n_complete]. apply neutral_atomic. intros e s r He H.
  assert (H2 := life_take_completion s r k H). by destruct (take_completion k s) in H2 |- *.
Qed.

Lemma lf_prepare k h : neutral (prepare k h) (fun _ => True).
Proof. unfold prepare. neutral_auto. apply neutral_write. intros s r H. frame_life s. apply H. Qed.

#[local] Hint Resolve lf_one lf_emit_signal lf_reject lf_prepare : neutral.

Lemma lf_cancel_group k type : neutral (cancel_group k type) (fun _ => True).
Proof.
  unfold cancel_group, group_listeners. neutral_auto. apply neutral_write. intros s r H. frame_life s. apply H.
Qed.

Lemma lf_snapshot : neutral snapshot (fun _ => True).
Proof.
  apply neutral_quiet. intros n r X. unfold snapshot. apply wpt_bind, wpt_lock. intros m.
  apply wpt_bind, wpt_read. intros values. apply wpt_bind.
  eapply wpt_mono; [done | apply (wpt_unlock _ _ _ X) | intros [] r' -> | done]. by apply wpt_ret.
Qed.

#[local] Hint Resolve lf_cancel_group lf_snapshot : neutral.

(** A stop sweeps all listeners, whoever changed the state. *)
Lemma wpt_request_stop n X : Threads.wpt server_ok Life n server_request_stop [] (fun _ => Forall may_drop) X.
Proof.
  unfold server_request_stop. apply wpt_bind, wpt_lock. intros m.
  apply wpt_bind, wpt_atomic. intros e s f He H. exists [DLock m]. split; [done|].
  rewrite (lf_length _ _ H m) by (by left). clear H He f s e. apply wpt_bind.
  eapply wpt_mono; [done | apply (wpt_control_request_stop _ _ _ (fun _ _ => False)) | | done].
  intros [] r' [->| ->]; apply wpt_bind.
  - eapply wpt_neutral; [apply neutral_each; intros i; apply (lf_stop_listener False) | intros [] _ | done].
    eapply wpt_mono; [done | apply (wpt_unlock _ _ _ (fun _ _ => False)) | intros _ r' -> | done]. constructor.
  - eapply wpt_mono; [done | apply (wpt_sweep _ _ _ (fun _ _ => False)) | intros [] r' -> | done].
    apply wpt_atomic. intros e s f He H. exists [DSweep []]. split; [|by repeat constructor; right].
    apply (life_unlock _ m). eapply life_perm; [|exact H]. simpl. apply perm_swap.
Qed.

(** [listen] and [bind] hold the mutex while they add the listener. *)
Lemma thread_add_new_listener n make :
  (forall id l, make id = inr l -> fresh_listener l) -> thread_ok n (add_new_listener make) [].
Proof.
  intros Hm. unfold add_new_listener. apply wpt_bind, wpt_atomic. intros e s f He H. exists [].
  split; [frame_life s; apply H|]. clear H. destruct (make _) as [x|l] eqn:Hl; [by apply wpt_throw|].
  unfold add_listener. apply wpt_bind, wpt_lock. intros m. apply wpt_bind, wpt_try, wpt_atomic.
  clear e f He. intros e s' f He H. destruct (_ <=? _).
  - exists [DLock m]. split; [done|]. apply wpt_bind.
    eapply wpt_mono; [done | apply (wpt_unlock _ _ _ (fun _ _ => False)) | intros [] r' -> | done]. by apply wpt_throw.
  - exists [DLock (S m)]. split.
    + apply life_push; [|done]. destruct (Hm _ _ Hl) as [Hi _]. by apply law_registry.
    + eapply wpt_mono; [done | apply (wpt_unlock _ _ _ (fun _ _ => False)) | intros [] r' -> | done]. constructor.
Qed.

(** ** A start and the stop that overtakes it *)

(** A start submits listener [i] of its group while it still has to check. *)
Lemma wpt_guarded_initiate n k j i wait vals r :
  DGuard vals ∈ r -> i ∈ vals ->
  Threads.wpt server_ok Life n (initiate k j i wait) r (fun _ r' => r' = r) (fun _ r' => r' = r /\ exact = false).
Proof.
  intros Hg Hv. apply wpt_atomic. intros e s f He H. destruct (v_listeners s !! i) as [l|] eqn:Hi; [|by exists r].
  set (a := if wait then LWait None None true else LStart None None true).
  assert (Hl := life_law _ _ _ _ a _ He H Hi). assert (Hlt := lookup_lt_Some _ _ _ Hi).
  destruct (l_exec a (x_listener e) l) as [[] l'|x l'|l']; [| |done]; exists r; cycle 1.
  - destruct Hl as [Hl Hf]. split; [by apply life_listener|]. by destruct wait.
  - split; [|done]. apply (life_listener _ _ i l' Hl) in H. set (s1 := set_listener i l' s) in *.
    set (s2 := set_v_armed (if wait then v_armed s else {[i]} ∪ v_armed s) s1).
    assert (H2 : Life s2 (r ++ f)).
    { destruct wait; [apply (life_armed s1); done|]. destruct H. split; try done.
      - simpl. intros i' [->%elem_of_singleton|Hi']%elem_of_union; [by rewrite length_insert | by apply lf_armed0].
      - unfold stop_covered. simpl. intros Hx H1 H2 i' [->%elem_of_singleton|Hi']%elem_of_union; [|by apply lf_stop0].
        exists (DGuard vals). split; [apply elem_of_app; by left | done]. }
    assert (H3 : Life (set_v_children (v_children s ++ [(i, l_next_op l, k)]) s2) (r ++ f)).
    { frame_life s2. apply H2. }
    frame_life (set_v_children (v_children s ++ [(i, l_next_op l, k)]) s2). apply H3.
Qed.

(** A wait starts nothing. *)
Lemma lf_initiate_wait k j i : neutral (initiate k j i true) (fun _ => True).
Proof.
  apply neutral_atomic. intros e s r He H. destruct (v_listeners s !! i) as [l|] eqn:Hi; [|done].
  assert (Hl := life_law _ _ _ _ (LWait None None true) _ He H Hi).
  destruct (l_exec _ (x_listener e) l) as [[] l'|x l'|l']; simpl; [| |done].
  - split; [|done]. apply (life_listener _ _ i l' Hl) in H. frame_life (set_listener i l' s). apply H.
  - destruct Hl. split; [by apply life_listener | done].
Qed.

Lemma life_record s r k ecs : Life s r -> Life (update_group k (fun gr => set_g_initiation_ecs (ecs gr) gr) s) r.
Proof. intros H. frame_life s. apply H. Qed.

(** A thread may take on a check at any time. *)
Lemma life_more s r vals : Life s r -> Life s (DGuard vals :: r).
Proof.
  intros []. split; try done.
  - intros m [?|Hm]%elem_of_cons; [done | by apply lf_length0].
  - intros k v [?|Hk]%elem_of_cons; [done | by apply lf_vals0].
  - intros Hx H1 H2 i Hi. destruct (lf_stop0 Hx H1 H2 i Hi) as (t & Ht & Hc). exists t. split; [by right | done].
Qed.

(** The loop of [start]; the check is due afterwards. *)
Lemma wpt_start_all n k wait vals r (X : exn -> list duty -> Prop) :
  DVals k vals ∈ r -> (forall x, exact = false -> X x (DGuard vals :: r)) ->
  Threads.wpt server_ok Life n (start_group m_executor k wait) r (fun _ r' => r' = DGuard vals :: r) X.
Proof.
  intros Hk HX. unfold start_group, group_listeners. apply wpt_bind, wpt_atomic. intros e s f He H. exists (DGuard vals :: r).
  split; [by apply life_more|].
  destruct (lf_vals _ _ H k vals) as (gr & -> & ->); [by apply elem_of_app; left|]. clear H He f s e.
  assert (Hg : DGuard vals ∈ DGuard vals :: r) by (by left). revert Hg HX. generalize (DGuard vals :: r). clear r Hk. intros r Hg HX.
  apply wpt_bind.
  eapply wpt_mono; [done | apply (wpt_each _ _ _ _ _ _ (fun rest r' => Forall (fun x => snd x ∈ vals) rest /\ r' = r)
    (fun _ _ => False)) | | done].
  - intros [j i] rest r' n' [[Hi Hrest]%Forall_cons ->]. unfold start_one. apply wpt_try, wpt_bind.
    eapply wpt_mono; [done | by eapply wpt_guarded_initiate | |].
    + intros [] r' ->. apply wpt_bind, wpt_read. intros cancelled.
      eapply wpt_mono; [done | apply neutral_guarded, lf_emit_signal | by intros _ r' [-> _] |].
      intros x r' [-> Hx]. apply wpt_atomic. intros e s f He H. exists r. split; [by apply life_record | done].
    + intros x r' [-> Hx]. apply wpt_atomic. intros e s f He H. exists r. split; [by apply life_record | done].
  - split; [|done]. apply Forall_forall. intros [j i] Hin. apply elem_of_lookup_imap in Hin as (? & ? & [= -> ->] & Hin).
    by eapply list_elem_of_lookup_2.
  - intros [] r' [_ ->]. apply wpt_bind, wpt_read. intros ecs.
    eapply wpt_neutral; [apply neutral_each; intros ec; apply neutral_guarded, lf_one | done | done].
Qed.

Lemma lf_start_wait k : neutral (start_group m_executor k true) (fun _ => True).
Proof.
  unfold start_group, start_one, group_listeners. neutral_auto.
  - apply lf_initiate_wait.
  - apply neutral_write. intros s r Hs. by apply life_record.
Qed.

(** A new group, whose listeners its thread knows. *)
Lemma wpt_known_group n vals b w h r (Q : nat -> list duty -> Prop) X :
  (forall k, Q k (DVals k vals :: r)) -> Threads.wpt server_ok Life n (new_group vals b w h) r Q X.
Proof.
  intros HQ. apply wpt_atomic. intros e s f He H. simpl. set (k := length (v_groups s)). exists (DVals k vals :: r).
  split; [|apply HQ]. set (s' := set_v_groups _ s). assert (H' : Life s' (r ++ f)) by (unfold s'; frame_life s; apply H).
  destruct H'. split; try done.
  - intros m [?|Hm]%elem_of_cons; [done | by apply lf_length0].
  - intros j v [[= -> ->]|Hj]%elem_of_cons; [|by apply lf_vals0]. eexists. split; [by apply list_lookup_middle | done].
  - intros Hx H1 H2 i Hi. destruct (lf_stop0 Hx H1 H2 i Hi) as (t & Ht & Hc). exists t. split; [by right | done].
Qed.

(** The check: when a stop is under way the thread takes it over, else nobody needs
    it, since a later stop sees the listeners. *)
Lemma wpt_check n vals r (Q : bool -> list duty -> Prop) X :
  Q true (DSweep vals :: r) -> Q false r -> Threads.wpt server_ok Life n stop_requested (DGuard vals :: r) Q X.
Proof.
  intros HT HF. unfold stop_requested, load_state. apply wpt_bind, wpt_atomic. intros e s f He H.
  destruct (bool_decide (v_state s = server_state.stopping) || bool_decide (v_state s = server_state.stopped)) eqn:Hs.
  - exists (DSweep vals :: r). split; [|by apply wpt_ret]. destruct H. split; try done.
    + intros m [?|Hm]%elem_of_cons; [done|]. apply lf_length0. by right.
    + intros k v [?|Hk]%elem_of_cons; [done|]. apply lf_vals0. by right.
    + intros Hx H1 H2 i Hi. destruct (lf_stop0 Hx H1 H2 i Hi) as (t & [->|Ht]%elem_of_cons & Hc).
      * exists (DSweep vals). split; [by left | done].
      * exists t. split; [by right | done].
  - exists r. split; [|by apply wpt_ret]. destruct H. split; try done.
    + intros m Hm. apply lf_length0. by right.
    + intros k v Hk. apply lf_vals0. by right.
    + intros Hx H1. by rewrite H1 in Hs.
Qed.

Lemma thread_start n h : thread_ok n (server_async_start m_executor h) [].
Proof.
  unfold server_async_start. cbv zeta. generalize (track_completion_work m_executor h). clear h. intros h.
  apply wpt_bind. eapply wpt_neutral; [apply lf_snapshot | intros values _ | intros; constructor]. case_bool_decide as Hv.
  - apply (wpt_neutral _ _ (exact = false) _ _ (fun _ => True)); [neutral_auto | intros; constructor | intros; constructor].
  - apply wpt_bind. apply wpt_known_group. intros k.
    apply wpt_bind. eapply wpt_neutral; [apply lf_prepare | intros _ _ | intros; by repeat constructor].
    apply wpt_bind. eapply wpt_neutral; [apply lf_n_begin_start | intros [] _ | intros; by repeat constructor].
    + apply wpt_bind.
      eapply wpt_mono; [done | apply (wpt_start_all _ _ _ values _ (fun _ => Forall may_drop)); [by left|] | intros [] r -> | done].
      { intros x Hx. by repeat constructor. }
      apply wpt_bind, wpt_check; [|apply wpt_ret; by repeat constructor]. unfold group_request_stop, group_listeners.
      apply wpt_bind, wpt_atomic. intros e s f He H. eexists. split; [exact H|].
      destruct (lf_vals _ _ H k values) as (gr & -> & ->); [right; by left|].
      eapply wpt_mono; [done | apply (wpt_sweep _ _ _ (fun _ _ => False)) | intros _ r -> | done]. repeat constructor; by right.
    + eapply wpt_neutral; [apply lf_reject | by repeat constructor | by repeat constructor].
Qed.

Lemma lf_async_wait h : neutral (server_async_wait m_executor h) (fun _ => True).
Proof.
  unfold server_async_wait. cbv zeta. generalize (track_completion_work m_executor h). clear h. intros h.
  eapply neutral_bind; [apply lf_snapshot | intros values _]. case_bool_decide; [neutral_auto|].
  apply (neutral_bind _ _ _ _ _ (fun _ => True)).
  - apply neutral_atomic. intros e s r He Hs. split; [|done]. frame_life s. apply Hs.
  - intros k _. eapply neutral_bind; [apply lf_prepare | intros _ _; apply lf_start_wait].
Qed.
End Lifecycle.
