(* ===== verification/ServerStop.v ===== *)
(** * The life cycle of a server: its theorems

    Every action of the system of Server.v keeps the duties of ServerLifecycle.v,
    and what follows for a reachable server. *)

From S2P Require Import Prelude Errors Effect Options Endpoint Status Observers ListenerBase.
From S2P Require Import ListenerAccount ListenerInterface Threads ServerState ServerControl.
From S2P Require Import OperationGroup Server ServerCompletions ServerLifecycle ServerThreads ServerScenarios ServerTheorems.

Local Open Scope Z_scope.

#[local] Arguments countb : simpl never.

Section System.
Context {L E A : Type} `{HL : Listener L E A} `{!ListenerLaws HL} (m_executor : executor) (exact : bool).

Implicit Types (s : server_world L) (e : server_env E).

Abbreviation server_ok := (server_ok exact).
Abbreviation Life := (Life exact).
Abbreviation pool_ok := (Threads.pool_ok server_ok Life (may_drop exact)).

Lemma life_registry s r reg : Life s r -> Life (set_registry reg s) r.
Proof.
  intros H. apply (life_frame exact s); simpl; rewrite ?length_map; try done; [|by apply groups_same].
  apply Forall_fmap. eapply Forall_impl; [apply H|]. intros l Hl. by apply law_registry.
Qed.

Lemma life_listener_runs s r i a e s' ready :
  server_ok e -> Life s r -> listener_runs i a e s = (s', ready) -> Life s' r.
Proof.
  intros He H. unfold listener_runs. destruct (v_listeners s !! i) as [l|] eqn:Hi; [|by intros [= <- _]].
  assert (Hl := life_law exact s r i l (LOwn a) e He H Hi).
  destruct (l_exec (LOwn a) (x_listener e) l) as [[] l'|x l'|l']; [| destruct Hl as [Hl _] |done];
    intros [= <- _]; by apply life_listener.
Qed.

Lemma events_dequeue s n t :
  v_queue s !! n = Some t ->
  event_types s ≡ₚ task_events t ++ event_types (set_v_queue (remove_at n (v_queue s)) s).
Proof.
  intros Hn. unfold event_types. simpl. rewrite (remove_at_perm n _ t Hn) at 1. simpl. solve_Permutation.
Qed.

Lemma life_run_task s r n e : Life s r -> Life (run_server_task n e s) r.
Proof.
  intros H. unfold run_server_task. destruct (v_queue s !! n) as [t|] eqn:Hn; [|done].
  assert (Hq := events_dequeue s n t Hn). destruct t as [event|on [h|] ec]; [rewrite notify_server_eq| |];
    (apply (life_frame exact s); try done; try apply H; try (by apply groups_same)); rewrite Hq; try done.
  unfold event_types. simpl. rewrite map_app. simpl. solve_Permutation.
Qed.

Definition lifecycle_ok (y : system) : Prop := forall n, pool_ok n (fst y) (snd y).

Lemma lifecycle_initial : lifecycle_ok initial_server.
Proof.
  intros n. exists []. split; [|constructor]. split; simpl; try done.
  - constructor.
  - by destruct exact.
  - by intros m ?%elem_of_nil.
  - by intros k vals ?%elem_of_nil.
Qed.

Lemma spawn_duty_free n s ts (Fail : Prop) p F :
  pool_ok n s ts -> Threads.neutral server_ok Life Fail p F -> pool_ok n s (ts ++ [p]).
Proof.
  intros H Hp. apply (pool_spawn_one _ _ _ (life_perm exact) n s s ts p []); [done | | done].
  eapply wpt_neutral; [exact Hp | intros; constructor | intros; constructor].
Qed.

Lemma spawn_thread n s ts p :
  pool_ok n s ts -> Threads.thread_ok server_ok Life (may_drop exact) n p [] -> pool_ok n s (ts ++ [p]).
Proof. intros H Hp. by apply (pool_spawn_one _ _ _ (life_perm exact) n s s ts p []). Qed.

Lemma lifecycle_step y e a : server_ok e -> action_ok a -> lifecycle_ok y -> lifecycle_ok (exec_server m_executor a e y).
Proof.
  intros He Ha Hy n. destruct y as [s ts]. assert (H := Hy n). simpl in H.
  assert (Hop : pool_ok n (set_v_next_op (S (v_next_op s)) s) ts).
  { eapply pool_update; [done|]. intros f Hf. apply (life_frame exact s); try done; [apply Hf | by apply groups_same]. }
  destruct a; simpl.
  - apply spawn_thread; [done | apply thread_start].
  - eapply spawn_duty_free; [done | apply lf_async_wait].
  - apply spawn_thread; [done | apply wpt_request_stop].
  - destruct (v_slots s !! op) as [k|]; [|done]. eapply spawn_duty_free; [done | apply lf_cancel_group].
  - apply spawn_thread; [done | by apply thread_add_new_listener].
  - eapply (spawn_duty_free _ _ _ True _ (fun _ => True)); [done|].
    apply (neutral_bind _ _ _ _ _ (fun _ => True)); [|intros ??; by apply neutral_ret].
    apply neutral_atomic. intros e' s' r _ Hs. destruct value as [v|]; simpl; [|done]. split; [by apply life_registry | done].
  - eapply (spawn_duty_free _ _ _ True); [done|]. apply neutral_write. intros s' r Hs. by apply life_registry.
  - destruct (listener_runs i a e s) as [s' ready] eqn:Hr. simpl.
    apply (pool_spawn _ _ _ (life_perm exact) n s s' ts _ (map (fun _ => []) ready)); [done | |].
    + clear Hr. induction ready as [|x ready IH]; simpl; constructor; [|done].
      eapply wpt_neutral; [apply lf_one | intros; constructor | intros; constructor].
    + intros f Hf. replace (concat _) with (@nil duty); [exact (life_listener_runs s f i a e s' ready He Hf Hr)|].
      clear Hr. by induction ready.
  - eapply pool_update; [exact H|]. intros f Hf. by apply life_run_task.
  - destruct (run_thread t e s ts) as [s' ts'] eqn:Hr. simpl.
    eapply pool_run; [apply life_perm | apply life_drop | done | apply (Hy (S n)) | done].
Qed.

Lemma reach_life s ts :
  server_reach m_executor server_ok (s, ts) -> exists r, Life s r /\ (ts = [] -> r = []).
Proof.
  intros H. assert (Hy : lifecycle_ok (s, ts)).
  { remember (s, ts) as y. clear Heqy. induction H; [apply lifecycle_initial | by apply lifecycle_step]. }
  destruct (Hy 0%nat) as (rs & Hb & Hr). exists (concat rs). split; [done|].
  intros ->. apply Forall2_nil_inv_l in Hr. by subst.
Qed.
End System.

Section Theorems.
Context {L E A : Type} `{HL : Listener L E A} `{!ListenerLaws HL} (m_executor : executor).

Implicit Types (s : server_world L).

(** C9: however the threads that start, stop and wait for a server interleave, the
    states of the server follow the documented order: a start begins from idle or
    stopped, running follows starting, stopping is entered once, and never from
    stopped. *)
Theorem server_states_in_order s ts :
  server_reach m_executor (server_ok false) (s, ts) -> server_path (v_path s) (v_state s).
Proof. intros H. apply reach_life in H as (r & Hl & _). apply Hl. Qed.

(** C8: when the executors have accepted every post and all threads have returned from
    the server's operations, every change of the server's state has been announced by
    exactly one event (an announcement that is refused is dropped, and one may still be
    on its way while a thread runs); and the generation is the number of starts, as an
    unsigned 64-bit count. *)
Theorem server_announces_once s :
  server_reach m_executor (server_ok true) (s, []) ->
  event_types s ≡ₚ flat_map announce (v_path s) /\
  v_generation s = u64 (Z.of_nat (countb is_starting (v_path s))).
Proof.
  intros H. apply reach_life in H as (r & [] & Hr). specialize (Hr eq_refl) as ->. split; [exact lf_events|].
  destruct lf_generation as [Hu Hg]. rewrite countb_nil, Z.add_0_r in Hg. congruence.
Qed.

End Theorems.

(** ** Witnesses *)

Lemma server_states_in_order_witness :
  v_path (fst (play start_both)) = [server_state.starting; server_state.running] /\
  server_path (v_path (fst (play start_both))) (v_state (fst (play start_both))).
Proof.
  split; [vm_compute; reflexivity|].
  exact (server_states_in_order system_executor _ _ (play_pair false _ start_both_ok)).
Defined.

Lemma server_announces_once_witness :
  map se_type (v_events (fst (play start_both))) = [ev_starting; ev_running] /\
  event_types (fst (play start_both)) ≡ₚ flat_map announce (v_path (fst (play start_both))) /\
  v_generation (fst (play start_both)) = u64 (Z.of_nat (countb is_starting (v_path (fst (play start_both))))).
Proof.
  split; [vm_compute; reflexivity|]. apply (server_announces_once system_executor).
  apply (play_quiet true _ start_both_ok). vm_compute. reflexivity.
Defined.

(** ** Executions that the documentation does not suggest *)

(** A start that fails may leave a listener running.  When the first listener
    fails while [start] is still submitting, the request to stop reaches the second
    listener before its start does: the start completes with the error, every thread
    has returned, nothing is posted any more and the second listener runs. *)
Theorem failed_start_leaves_listener_running :
  exists s, server_reach system_executor (server_ok true) (s, []) /\
    v_state s = server_state.stopping /\ v_queue s = [] /\
    map (fun x => failed (snd x)) (v_completed s) = [true] /\
    map (fun l => ls_state (l_status l)) (v_listeners s) = [listener_state.stopped; listener_state.running] /\
    elements (v_armed s) = [1%nat].
Proof.
  exists (fst (play failing_start)). split; [|vm_compute; repeat split; reflexivity].
  apply (play_quiet true _ failing_start_ok). vm_compute. reflexivity.
Qed.

(** Cancelling a wait stops no listener, but the server reports that it is
    stopped while both of its listeners run. *)
Theorem cancelled_wait_reports_stopped :
  exists s, server_reach system_executor (server_ok true) (s, []) /\
    v_state s = server_state.stopped /\ v_queue s = [] /\
    map (fun x => snd x) (v_completed s) = [success; operation_aborted] /\
    map (fun l => ls_state (l_status l)) (v_listeners s) = [listener_state.running; listener_state.running].
Proof.
  exists (fst (play cancelled_wait)). split; [|vm_compute; repeat split; reflexivity].
  apply (play_quiet true _ cancelled_wait_ok). vm_compute. reflexivity.
Qed.
