(* ===== verification/ServerBehaviour.v ===== *)
(** * What the operations of a server do

    The operations of src/server.cpp with no other thread in between: each returns,
    and its result and effect on every state.  A snapshot of the status is the
    aggregate of the listeners' own.  How a group joins the reports of its listeners. *)

From S2P Require Import Prelude Errors Effect Options Endpoint Status Observers ListenerBase.
From S2P Require Import ListenerAccount ListenerInterface Threads ServerState ServerControl.
From S2P Require Import OperationGroup Server Connection Scenarios ServerCompletions ServerScenarios AcceptorObject.
From S2P Require Import ServerLifecycle ServerStop.

Local Open Scope Z_scope.

(** The status of a server from those of its listeners. *)
Definition aggregate (state : server_state.t) (generation : Z) (items : list listener_status) : server_status :=
  {| ss_state := state;
     ss_generation := generation;
     ss_active_sessions := u64 (foldr Z.add 0 (map ls_active_sessions items));
     ss_ready := negb (bool_decide (items = [])) && bool_decide (state = server_state.running) &&
       forallb (fun item => bool_decide (ls_state item = listener_state.running)) items;
     ss_listeners := items |}.

Section Behaviour.
Context {L E A : Type} `{HL : Listener L E A} `{!ListenerLaws HL}.

Implicit Types (s : server_world L) (e : server_env E).

(** No exchange fails spuriously and the executors accept work. *)
Definition steady (e : server_env E) : Prop := x_spurious e = false /\ server_ok true e.

Abbreviation ends Q p s := (Threads.ends steady Q p s).

(** ** Status *)

Definition items s : list listener_status := map l_status (v_listeners s).

Definition with_item (value : server_status) (item : listener_status) : server_status :=
  {| ss_state := ss_state value;
     ss_generation := ss_generation value;
     ss_active_sessions := u64 (ss_active_sessions value + ls_active_sessions item);
     ss_ready := ss_ready value && bool_decide (ls_state item = listener_state.running);
     ss_listeners := ss_listeners value ++ [item] |}.

Lemma ends_status_loop (before after : list L) s value (Q : exn + server_status -> server_world L -> Prop) :
  v_listeners s = before ++ after ->
  Q (inr (foldl with_item value (map l_status after))) s ->
  ends Q (status_loop (seq (length before) (length after)) value) s.
Proof.
  revert before value. induction after as [|l after IH]; intros before value Hs HQ; simpl; [by apply ends_ret|].
  apply ends_bind, ends_read. rewrite Hs, list_lookup_middle by done.
  replace (S (length before)) with (length (before ++ [l])) by (rewrite length_app; simpl; lia).
  apply IH; [by rewrite <- app_assoc | done].
Qed.

Lemma foldl_with_item state generation active ready before l :
  foldl with_item {| ss_state := state; ss_generation := generation; ss_active_sessions := u64 active;
                     ss_ready := ready; ss_listeners := before |} l =
  {| ss_state := state; ss_generation := generation;
     ss_active_sessions := u64 (active + foldr Z.add 0 (map ls_active_sessions l));
     ss_ready := ready && forallb (fun item => bool_decide (ls_state item = listener_state.running)) l;
     ss_listeners := before ++ l |}.
Proof.
  revert active ready before. induction l as [|item l IH]; intros active ready before; simpl.
  - by rewrite Z.add_0_r, andb_true_r, app_nil_r.
  - unfold with_item at 2. simpl. replace (u64 (u64 active + ls_active_sessions item)) with (u64 (active + ls_active_sessions item))
      by (unfold u64; by rewrite Zplus_mod_idemp_l).
    rewrite IH, <- app_assoc, <- andb_assoc, <- Z.add_assoc. done.
Qed.

Lemma ends_status s (Q : exn + server_status -> server_world L -> Prop) :
  Q (inr (aggregate (v_state s) (v_generation s) (items s))) s ->
  ends Q (status (seq 0 (length (v_listeners s)))) s.
Proof.
  intros HQ. unfold status. apply ends_bind, ends_read, ends_bind, ends_read.
  apply (ends_status_loop [] (v_listeners s)); [done|]. change 0 with (u64 0) at 1.
  rewrite foldl_with_item. unfold aggregate, items in *. simpl.
  replace (bool_decide (seq 0 (length (v_listeners s)) = [])) with (bool_decide (map l_status (v_listeners s) = [])); [done|].
  apply bool_decide_ext. by destruct (v_listeners s).
Qed.

Lemma ends_snapshot s (Q : exn + list nat -> server_world L -> Prop) :
  v_locked s = false -> Q (inr (seq 0 (length (v_listeners s)))) s -> ends Q snapshot s.
Proof.
  intros Hl HQ. unfold snapshot, lock, unlock. apply ends_bind, ends_iter, ends_atomic. intros e _. rewrite Hl.
  apply ends_bind, ends_read, ends_bind, ends_write, ends_ret. simpl.
  replace (set_v_locked false (set_v_locked true s)) with s; [done|]. destruct s. simpl in *. by subst.
Qed.

(** *** Among other threads

    A thread knows that there are at least as many listeners as it has seen, and that
    the state has a property [R] that every thread keeps. *)

Section Among.
Variable R : server_world L -> Prop.
Hypothesis R_locked : forall b s, R s -> R (set_v_locked b s).

Definition Listed s (r : list nat) : Prop := R s /\ Forall (fun m => (m <= length (v_listeners s))%nat) r.

Abbreviation shared n p r Q := (Threads.wpt (fun _ : server_env E => True) Listed n p r Q (fun _ _ => False)).

Lemma shared_read {B} n (g : server_world L -> B) r (Q : B -> list nat -> Prop) :
  (forall s, R s -> Q (g s) r) -> shared n (read g) r Q.
Proof.
  intros H. apply wpt_atomic. intros e s f _ Hi. exists r. split; [done | apply H, Hi].
Qed.

Lemma shared_snapshot n (Q : list nat -> list nat -> Prop) :
  (forall s, R s -> Q (seq 0 (length (v_listeners s))) [length (v_listeners s)]) -> shared n snapshot [] Q.
Proof.
  intros HQ. unfold snapshot, lock, unlock. apply wpt_bind, (wpt_iter _ _ _ _ _ _ _ _ (fun _ r => r = [])); [|done].
  intros [] r m ->. apply wpt_atomic. intros e s f _ [Hr Hi].
  destruct (v_locked s); exists []; (split; [split; [by try apply R_locked | done]|]); [done|].
  apply wpt_bind, wpt_atomic. intros e' s' f' _ [Hr' Hi']. exists [length (v_listeners s')].
  split; [split; [done | by constructor]|]. apply wpt_bind, wpt_atomic. intros e2 s2 f2 _ [Hr2 Hi2]. eexists.
  split; [split; [by apply R_locked | exact Hi2]|]. by apply wpt_ret, HQ.
Qed.

(** A status that listener [i] had. *)
Definition status_seen (i : nat) (item : listener_status) : Prop :=
  exists s l, R s /\ v_listeners s !! i = Some l /\ item = l_status l.

Lemma shared_status_loop n m l value (Q : server_status -> list nat -> Prop) :
  Forall (fun i => (i < m)%nat) l ->
  (forall items, Forall2 status_seen l items -> Q (foldl with_item value items) [m]) ->
  shared n (status_loop l value) [m] Q.
Proof.
  intros Hl. revert value. induction Hl as [|i l Hi _ IH]; intros value HQ; simpl; [by apply wpt_ret, (HQ [])|].
  apply wpt_bind, wpt_atomic. intros e s f _ Hs. exists [m]. split; [done|]. destruct Hs as [Hr Hs].
  apply Forall_cons in Hs as [Hm _]. assert (is_Some (v_listeners s !! i)) as [l' Hl'] by (apply lookup_lt_is_Some; lia).
  rewrite Hl'. apply IH. intros items Hn. apply (HQ (l_status l' :: items)). constructor; [|done]. by exists s, l'.
Qed.

(** The aggregate of what was read in states that have the property. *)
Definition aggregate_seen (st : server_status) : Prop :=
  exists s0 s1 s2 items, R s0 /\ R s1 /\ R s2 /\
    Forall2 status_seen (seq 0 (length (v_listeners s0))) items /\
    st = aggregate (v_state s1) (v_generation s2) items.

Lemma shared_status n : shared n server_status_now [] (fun st _ => aggregate_seen st).
Proof.
  apply wpt_bind, shared_snapshot. intros s0 H0. unfold status, load_state.
  apply wpt_bind, shared_read. intros s1 H1. apply wpt_bind, shared_read. intros s2 H2.
  apply shared_status_loop; [apply Forall_seq; lia|]. intros items Hn. exists s0, s1, s2, items.
  split_and!; try done. change 0 with (u64 0) at 1. rewrite foldl_with_item. unfold aggregate. simpl.
  apply Forall2_length in Hn. rewrite length_seq in Hn. set (m := length (v_listeners s0)) in *.
  replace (bool_decide (seq 0 m = [])) with (bool_decide (items = [])); [done|].
  apply bool_decide_ext. by destruct items, m.
Qed.
End Among.

(** C21: a status of the server is an aggregate: the sum of the active sessions of its
    listeners (modulo 2^64), ready exactly when the server and every listener, at least
    one, are running, and the listeners' own statuses in registration order.  Whatever
    other threads that remove no listener do in between, it is the aggregate of a state
    and a generation of the server and of one status of every listener, each read in some
    state of the execution (a state with any property [R] that the threads keep), but not
    necessarily in the same; with no other thread in between, the mutex free, the call
    returns, the values are those of the present state, and it does not change that. *)
Theorem server_status_aggregates s :
  (forall (R : server_world L -> Prop) l r s',
     (forall b s, R s -> R (set_v_locked b s)) ->
     Forall (fun x : server_env E * (server_world L -> server_world L) =>
       forall s, (length (v_listeners s) <= length (v_listeners (snd x s)))%nat /\ (R s -> R (snd x s))) l ->
     R s -> disturbed l server_status_now s = Some (r, s') ->
     exists st, r = inr st /\ aggregate_seen R st) /\
  (v_locked s = false ->
   ends (fun r s' => r = inr (aggregate (v_state s) (v_generation s) (items s)) /\ s' = s) server_status_now s).
Proof.
  split.
  - intros R l r s' HR Hl Hs Hd.
    eapply (wpt_disturbed (fun _ => True) (Listed R)) in Hd; [| |by apply shared_status|by split].
    + destruct r as [x|st]; [by destruct Hd as [_ []]|]. destruct Hd as (_ & Hd). eauto.
    + eapply Forall_impl; [exact Hl|]. intros x Hx. split; [done|]. intros s1 r1 [H0 H1]. split; [by apply Hx|].
      eapply Forall_impl; [exact H1|]. intros m Hm. simpl in *. destruct (Hx s1). lia.
  - intros Hl. apply ends_bind, ends_snapshot; [done|]. by apply ends_status.
Qed.

(** ** Transitions *)

Abbreviation all s := (seq 0 (length (v_listeners s))).

(** The event that announces the present state of the server. *)
Definition event_now (type : server_event_type) (ec : error_code) s : server_event :=
  {| se_type := type; se_status := aggregate (v_state s) (v_generation s) (items s); se_error := ec |}.

Definition announced (type : server_event_type) (ec : error_code) s : server_world L :=
  set_v_queue (v_queue s ++ [SNotify (event_now type ec s)]) s.

(** [l] was the snapshot of the listeners when the operation began. *)
Lemma ends_emit type ec s l (Q : exn + unit -> server_world L -> Prop) :
  l = all s -> Q (inr tt) (announced type ec s) -> ends Q (emit type l ec) s.
Proof.
  intros -> HQ. unfold emit. apply ends_try, ends_bind, ends_status, ends_atomic. intros e (_ & _ & He).
  rewrite He by done. exact HQ.
Qed.

Lemma ends_exchange current next requested s (Q : exn + option server_state.t -> server_world L -> Prop) :
  v_state s = current -> Q (inr None) (enter_state next requested s) ->
  ends Q (compare_exchange_weak current next requested) s.
Proof.
  intros Hs HQ. apply ends_atomic. intros e [He _]. by rewrite bool_decide_eq_true_2, He.
Qed.

(** The state after a start was begun. *)
Definition begun s : server_world L :=
  let s := enter_state server_state.starting false s in
  announced ev_starting success (set_v_generation (u64 (v_generation s + 1)) s).

Lemma ends_begin_start s (Q : exn + bool -> server_world L -> Prop) :
  match v_state s with
  | server_state.idle | server_state.stopped => Q (inr true) (begun s)
  | server_state.starting | server_state.running => Q (inr true) s
  | server_state.stopping => Q (inr false) s
  end -> ends Q (begin_start (all s)) s.
Proof.
  intros HQ. unfold begin_start. apply ends_bind, ends_read, ends_iter.
  destruct (v_state s) eqn:Hs; [|apply ends_ret; exact HQ..|];
    (apply ends_bind, ends_exchange; [exact Hs|]; apply ends_bind, ends_write, ends_bind, ends_emit; [reflexivity|];
     apply ends_ret; exact HQ).
Qed.

(** A stop is under way after [stopping_loop], whoever began it. *)
Definition stopping_now (requested : bool) (ec : error_code) s : server_world L :=
  match v_state s with
  | server_state.stopping | server_state.stopped => s
  | _ => announced ev_stopping ec (enter_state server_state.stopping requested s)
  end.

Lemma ends_stopping_loop requested ec s (Q : exn + unit -> server_world L -> Prop) :
  Q (inr tt) (stopping_now requested ec s) ->
  ends Q (stopping_loop requested (emit ev_stopping (all s) ec)) s.
Proof.
  intros HQ. unfold stopping_loop, stopping_now in *. apply ends_bind, ends_read, ends_iter.
  destruct (v_state s) eqn:Hs; [| | |apply ends_ret; exact HQ..];
    (apply ends_bind, ends_exchange; [exact Hs|]; apply ends_bind, ends_emit; [reflexivity|]; apply ends_ret; exact HQ).
Qed.

(** The outcome of a start whose listeners all reported.  An error makes the
    server stop and is reported unchanged; a success makes a starting server run, is
    a success again when it runs already, and is reported as aborted when a stop came
    first.  Every change is announced with the aggregate status. *)
Theorem finish_start_outcome s ec :
  ends (fun r s' =>
    match failed ec, v_state s with
    | true, _ => r = inr ec /\ s' = stopping_now false ec s
    | false, server_state.starting =>
      r = inr success /\ s' = announced ev_running success (enter_state server_state.running false s)
    | false, server_state.running => r = inr success /\ s' = s
    | false, _ => r = inr operation_aborted /\ s' = s
    end) (finish_start (all s) ec) s.
Proof.
  unfold finish_start. destruct (failed ec).
  - apply ends_bind, ends_stopping_loop, ends_ret. split; reflexivity.
  - apply ends_bind, ends_atomic. intros e _.
    destruct (v_state s) eqn:Hs; [apply ends_ret; split; reflexivity | | apply ends_ret; split; reflexivity..].
    apply ends_bind, ends_emit; [reflexivity|]. apply ends_ret. split; reflexivity.
Qed.

(** Listener [l] was asked to stop once: it posted the stop unless it was stopped. *)
Definition asked (l l' : L) : Prop :=
  (exists e : E, l_ok true e /\ l_exec LRequestStop e l = Ret tt l') /\
  (ls_state (l_status l) <> listener_state.stopped -> l_stop_due l' = true).

(** What a sweep over the listeners has done when [rest] are left. *)
Definition sweeping s (rest : list nat) s' : Prop :=
  NoDup rest /\ length (v_listeners s') = length (v_listeners s) /\
  (forall i l, v_listeners s !! i = Some l -> exists l', v_listeners s' !! i = Some l' /\
     if decide (i ∈ rest) then l' = l else asked l l') /\
  v_state s' = v_state s /\ v_queue s' = v_queue s.

Lemma ends_stop_listener s i rest s1 :
  Forall l_inv (v_listeners s) -> sweeping s (i :: rest) s1 ->
  ends (fun r s' => r = inr tt /\ sweeping s rest s') (stop_listener i) s1.
Proof.
  intros Hi ([Hn Hd]%NoDup_cons & Hlen & Ha & Hs & Hq). apply ends_atomic. intros e [_ [He _]].
  destruct (v_listeners s1 !! i) as [l|] eqn:Hl.
  - assert (Hl0 : v_listeners s !! i = Some l).
    { assert (is_Some (v_listeners s !! i)) as [l0 Hl0].
      { apply lookup_lt_is_Some. rewrite <- Hlen. by eapply lookup_lt_Some. }
      destruct (Ha i l0 Hl0) as (l' & Hl' & H). rewrite decide_True in H by (by left). congruence. }
    assert (Hlaw := law_exec true LRequestStop (x_listener e) l He (Forall_lookup_1 _ _ _ _ Hi Hl0)).
    assert (Hp := law_stop_posted (x_listener e) l He).
    destruct (l_exec LRequestStop (x_listener e) l) as [[] l'|x l'|l'] eqn:Hx; [| by destruct Hlaw | done].
    split; [done|]. unfold sweeping. simpl. rewrite length_insert. split_and!; try done.
    intros j lj Hj. destruct (decide (i = j)) as [<-|Hne].
    + exists l'. rewrite list_lookup_insert_eq by (by eapply lookup_lt_Some). split; [done|].
      rewrite decide_False by done. assert (lj = l) as -> by congruence. split; [by exists (x_listener e) | done].
    + rewrite list_lookup_insert_ne by done. destruct (Ha j lj Hj) as (l2 & Hl2 & H). exists l2. split; [done|].
      destruct (decide (j ∈ rest)); [rewrite decide_True in H by (by right); done|].
      rewrite decide_False in H; [done|]. by intros [?|?]%elem_of_cons.
  - split; [done|]. unfold sweeping. split_and!; try done. intros j lj Hj.
    destruct (Ha j lj Hj) as (l2 & Hl2 & H). exists l2. split; [done|]. assert (j <> i) by (intros ->; congruence).
    destruct (decide (j ∈ rest)); [rewrite decide_True in H by (by right); done|].
    rewrite decide_False in H; [done|]. by intros [?|?]%elem_of_cons.
Qed.

Lemma ends_stop_all s l (Q : exn + unit -> server_world L -> Prop) :
  l = all s -> Forall l_inv (v_listeners s) ->
  (forall s', Forall2 asked (v_listeners s) (v_listeners s') -> v_state s' = v_state s -> v_queue s' = v_queue s -> Q (inr tt) s') ->
  ends Q (each l stop_listener) s.
Proof.
  intros -> Hi HQ. apply (ends_each _ (sweeping s)); [intros x rest s1; by apply ends_stop_listener | |].
  - intros s' (_ & Hlen & Ha & Hs & Hq). apply HQ; [|done|done]. apply Forall2_same_length_lookup. split; [done|].
    intros i l l' Hl Hl'. destruct (Ha i l Hl) as (l2 & Hl2 & H).
    rewrite decide_False in H by apply not_elem_of_nil. congruence.
  - split_and!; try done; [apply NoDup_seq|]. intros i l Hl. exists l. split; [done|].
    rewrite decide_True; [done|]. apply elem_of_seq. apply lookup_lt_Some in Hl. lia.
Qed.

(** C19: with no other thread in between, no exchange that fails spuriously, the mutex
    free and executors that accept work, [request_stop] returns; it asked every listener
    to stop exactly once, so that each one that was not stopped at that moment has the
    stop posted behind its starts; it made the server stop unless it was stopping or
    stopped already, and announced that change once. *)
Theorem request_stop_outcome s :
  v_locked s = false -> Forall l_inv (v_listeners s) ->
  ends (fun r s' =>
    r = inr tt /\ v_locked s' = false /\ Forall2 asked (v_listeners s) (v_listeners s') /\
    v_state s' = v_state (stopping_now true success s) /\
    v_queue s' = v_queue (stopping_now true success s)) server_request_stop s.
Proof.
  intros Hl Hi. unfold server_request_stop, lock, unlock, control_request_stop.
  apply ends_bind, ends_iter, ends_atomic. intros e _. rewrite Hl.
  apply ends_bind, ends_read, ends_bind, ends_try, (ends_stopping_loop true success (set_v_locked true s)).
  assert (Hsame : stopping_now true success (set_v_locked true s) = set_v_locked true (stopping_now true success s)).
  { unfold stopping_now. simpl. by destruct (v_state s). }
  assert (Hk : v_listeners (stopping_now true success s) = v_listeners s) by (unfold stopping_now; by destruct (v_state s)).
  rewrite Hsame. clear Hsame. generalize dependent (stopping_now true success s). intros s1 Hk.
  apply ends_bind, ends_stop_all; simpl; rewrite ?Hk; [done..|].
  intros s' H1 H2 H3. apply ends_write. done.
Qed.

Lemma ends_complete m_executor h ec s (Q : exn + unit -> server_world L -> Prop) :
  Q (inr tt) (set_v_queue (v_queue s ++ [SDispatch (get_associated_executor h m_executor) h ec]) s) ->
  ends Q (complete_on_server m_executor h ec) s.
Proof. intros HQ. apply ends_atomic. intros e (_ & _ & He). rewrite He by done. exact HQ. Qed.

Lemma ends_begin_stopping l s (Q : exn + bool -> server_world L -> Prop) :
  v_state s = server_state.stopping -> Q (inr false) s -> ends Q (begin_start l) s.
Proof. intros Hs HQ. unfold begin_start. apply ends_bind, ends_read, ends_iter. rewrite Hs. by apply ends_ret. Qed.

(** A server that is stopping rejects a start: the operation completes once with
    [operation_aborted], on the executor its handler asks for, no listener is started
    and the state is as before. *)
Theorem stopping_server_rejects_start m_executor h s :
  v_locked s = false -> v_state s = server_state.stopping ->
  let h' := Some (track_completion_work m_executor h) in
  ends (fun r s' =>
    r = inr tt /\ v_listeners s' = v_listeners s /\ v_children s' = v_children s /\
    v_state s' = server_state.stopping /\ v_generation s' = v_generation s /\
    v_queue s' = v_queue s ++ [SDispatch (get_associated_executor h' m_executor) h' operation_aborted])
    (server_async_start m_executor h) s.
Proof.
  intros Hl Hs h'. unfold server_async_start. cbv zeta. fold h'. subst h'.
  generalize (track_completion_work m_executor h). clear h. intros h.
  apply ends_bind, ends_snapshot; [done|]. case_bool_decide as Hv.
  - apply ends_bind, ends_begin_stopping; [done|]. by apply ends_complete.
  - apply ends_bind, ends_atomic. intros e _. set (k := length (v_groups s)). simpl. apply ends_bind.
    set (gr := make_group _ true false h). set (s1 := set_v_groups (v_groups s ++ [gr]) s).
    assert (Hp : forall s2, v_state s2 = server_state.stopping -> v_listeners s2 = v_listeners s -> v_children s2 = v_children s ->
      v_generation s2 = v_generation s -> v_queue s2 = v_queue s -> v_groups s2 !! k = Some gr ->
      ends (fun r s' => r = inr tt /\ v_listeners s' = v_listeners s /\ v_children s' = v_children s /\
        v_state s' = server_state.stopping /\ v_generation s' = v_generation s /\
        v_queue s' = v_queue s ++ [SDispatch (get_associated_executor (Some h) m_executor) (Some h) operation_aborted])
        (started <- begin_start (all s);;
         if started : bool
         then start_group m_executor k false;; stop <- stop_requested;; guarded stop (group_request_stop k)
         else reject m_executor k operation_aborted)%prog s2).
    { intros s2 H1 H2 H3 H4 H5 H6. apply ends_bind, ends_begin_stopping; [done|]. unfold reject.
      apply ends_bind, ends_atomic. intros e' _. unfold take_completion. rewrite H6. simpl.
      apply ends_complete. simpl. by rewrite H5. }
    assert (Hk : v_groups s1 !! k = Some gr) by (by apply list_lookup_middle).
    unfold prepare. destruct (h_slot h); simpl.
    + apply ends_write. by apply Hp.
    + apply ends_ret. by apply Hp.
Qed.
End Behaviour.

(** ** Witnesses *)

(** Another thread moves the generation between two steps of the call. *)
Definition generation_moves : list (server_env aenv * (server_world acceptor_object -> server_world acceptor_object)) :=
  replicate 20 (answers calm, fun s => set_v_generation (v_generation s + 2) s).

Lemma server_status_aggregates_witness :
  (exists st s', disturbed generation_moves server_status_now (fst (play start_both)) = Some (inr st, s') /\
     aggregate_seen (fun s => Z.odd (v_generation s) = true) st) /\
  ss_ready (aggregate server_state.running 1 (items (fst (play start_both)))) = true /\
  ends steady (fun r s' =>
      r = inr (aggregate (v_state (fst (play start_both))) (v_generation (fst (play start_both)))
                 (items (fst (play start_both)))) /\ s' = fst (play start_both))
    server_status_now (fst (play start_both)).
Proof.
  destruct (server_status_aggregates (fst (play start_both))) as [H1 H2].
  split; [|split; [vm_compute; reflexivity | apply H2; vm_compute; reflexivity]].
  destruct (disturbed generation_moves server_status_now (fst (play start_both))) as [[r s']|] eqn:Hd;
    [|vm_compute in Hd; discriminate].
  destruct (H1 (fun s => Z.odd (v_generation s) = true) generation_moves r s') as (st & -> & Hst); [done | | | exact Hd |].
  - apply Forall_replicate. intros s. split; [done|]. simpl. intros Ho. by rewrite Z.odd_add, Ho.
  - vm_compute. reflexivity.
  - exists st, s'. split; [reflexivity | exact Hst].
Defined.

Lemma request_stop_outcome_witness :
  map (fun l => ls_state (l_status l)) (v_listeners (fst (play start_both))) = [listener_state.running; listener_state.running] /\
  ends steady (fun r s' =>
    r = inr tt /\ v_locked s' = false /\ Forall2 asked (v_listeners (fst (play start_both))) (v_listeners s') /\
    v_state s' = v_state (stopping_now true success (fst (play start_both))) /\
    v_queue s' = v_queue (stopping_now true success (fst (play start_both))))
    server_request_stop (fst (play start_both)).
Proof.
  split; [vm_compute; reflexivity|].
  destruct (reach_life system_executor true _ _ (play_pair true _ start_both_ok)) as (r & Hlife & _).
  apply request_stop_outcome; [vm_compute; reflexivity | apply Hlife].
Defined.

Lemma stopping_server_rejects_start_witness :
  v_state (fst (play stop_races_start)) = server_state.stopping /\
  ends steady (fun r s' =>
    r = inr tt /\ v_listeners s' = v_listeners (fst (play stop_races_start)) /\
    v_children s' = v_children (fst (play stop_races_start)) /\
    v_state s' = server_state.stopping /\ v_generation s' = v_generation (fst (play stop_races_start)) /\
    v_queue s' = v_queue (fst (play stop_races_start)) ++
      [SDispatch (user_executor 3)
         (Some (track_completion_work system_executor (mk_handler 1 (Some (user_executor 3)) None true None)))
         operation_aborted])
    (server_async_start system_executor (mk_handler 1 (Some (user_executor 3)) None true None))
    (fst (play stop_races_start)).
Proof.
  split; [vm_compute; reflexivity|].
  apply (stopping_server_rejects_start system_executor (mk_handler 1 (Some (user_executor 3)) None true None));
    vm_compute; reflexivity.
Defined.

(** ** How a group joins its operations

    The critical section of [listener_operation_group::one], once for every listener,
    as the reports arrive. *)

#[local] Arguments countb : simpl never.

(** The first error among [ecs], unless [ec] is one already. *)
Definition first_failed (ec : error_code) (ecs : list error_code) : error_code :=
  foldl (fun a ec => if failed ec && negb (failed a) then ec else a) ec ecs.

Section Join.
Context {L E A : Type} `{HL : Listener L E A}.

Implicit Types (s : server_world L).

(** The reports [ecs] in this order, and what each of them is told to do. *)
Fixpoint report_all (k : nat) (ecs : list error_code)
    : prog (server_env E) (server_world L) (list (bool * option (option completion_handler * error_code))) :=
  match ecs with
  | [] => PRet []
  | ec :: ecs => (r <- count_one k ec;; rs <- report_all k ecs;; PRet (r :: rs))%prog
  end.

(** [n] reports after which the group is not complete, and one that completes it. *)
Definition joined (n : nat) (h : completion_handler) (result : error_code)
    : list (option (option completion_handler * error_code)) :=
  replicate n None ++ [Some (Some h, result)].

Definition stops (gr : group) (ecs : list error_code) : nat :=
  if g_stop_on_error gr && negb (failed (g_first_ec gr)) && existsb failed ecs then 1 else 0.

(** C20: a group reports once and reports the first error.  However many listeners
    report to it and in whatever order, only the last report completes the group: it
    gets the handler and the first error that arrived, or success; and with
    [stop_on_error] exactly one report, the first with an error, is told to stop the
    other listeners. *)
Theorem group_reports_first_error ec ecs s k gr h :
  v_groups s !! k = Some gr -> g_completion gr = Some h ->
  g_remaining gr = Z.of_nat (length (ec :: ecs)) -> g_remaining gr <= vector_max_size ->
  ends (fun _ : server_env E => True) (fun r s' => exists rs gr',
    r = inr rs /\ map snd rs = joined (length ecs) h (first_failed (g_first_ec gr) (ec :: ecs)) /\
    countb fst rs = stops gr (ec :: ecs) /\
    v_groups s' !! k = Some gr' /\ g_completion gr' = None /\ g_remaining gr' = 0) (report_all k (ec :: ecs)) s.
Proof.
  revert ec s gr. induction ecs as [|ec2 ecs IH]; intros ec s gr Hk Hh Hr Hm.
  - cbn [report_all]. apply ends_bind, ends_atomic. intros e _. rewrite Hk, Hr. simpl.
    unfold take_completion. simpl. rewrite list_lookup_alter_eq, Hk. simpl. rewrite Hh.
    apply ends_bind, ends_ret, ends_ret. eexists _, _. split; [done|]. split; [done|]. simpl.
    rewrite list_alter_alter_eq, list_lookup_alter_eq, Hk. split; [|done].
    rewrite countb_cons, countb_nil. unfold stops. simpl. rewrite orb_false_r.
    by destruct (failed ec), (failed (g_first_ec gr)), (g_stop_on_error gr).
  - set (rest := ec2 :: ecs) in *. cbn [report_all]. fold rest. apply ends_bind, ends_atomic. intros e _. rewrite Hk.
    assert (Hrest : Z.of_nat (length rest) <> 0) by (simpl; lia).
    assert (Hu : u64 (g_remaining gr - 1) = Z.of_nat (length rest)).
    { rewrite Hr. unfold vector_max_size in Hm. rewrite u64_small; simpl in *; unfold u64_modulus; lia. }
    rewrite Hu. cbv zeta. rewrite (proj2 (Z.eqb_neq _ _) Hrest). cbn [fst snd].
    set (first_ec := if failed ec && negb (failed (g_first_ec gr)) then ec else g_first_ec gr).
    set (gr1 := set_g_remaining (Z.of_nat (length rest)) (set_g_first_ec first_ec gr)).
    apply ends_bind. eapply ends_mono; [apply (IH ec2 _ gr1) | ]; [| exact Hh | done | simpl in *; lia |].
    + simpl. rewrite list_lookup_alter_eq, Hk. done.
    + intros r s' (rs & gr' & -> & Hs & Hc & Hg). apply ends_ret. eexists _, gr'. split; [done|].
      split; [simpl; by rewrite Hs|]. split; [|done]. rewrite countb_cons, Hc. simpl. unfold stops, gr1, first_ec. simpl.
      destruct (failed ec) eqn:Hec, (failed (g_first_ec gr)) eqn:Hfe, (g_stop_on_error gr); simpl; rewrite ?Hec, ?Hfe; try done.
Qed.

End Join.

(** Two listeners were started; the first reports an error, the second success. *)
Definition two_starting : server_world acceptor_object :=
  set_v_groups [make_group [0%nat; 1%nat] true false (mk_handler 0 None None false None)] (fst (play two_listeners)).

Lemma group_reports_first_error_witness :
  first_failed success [connection_aborted; success] = connection_aborted /\
  ends (fun _ : server_env aenv => True) (fun r s' => exists rs gr', r = inr rs /\
    map snd rs = joined 1 (mk_handler 0 None None false None) connection_aborted /\
    countb fst rs = 1%nat /\
    v_groups s' !! 0%nat = Some gr' /\ g_completion gr' = None /\ g_remaining gr' = 0)
    (report_all (E := aenv) 0 [connection_aborted; success]) two_starting.
Proof.
  split; [reflexivity|].
  apply (group_reports_first_error connection_aborted [success] two_starting 0
    (make_group [0%nat; 1%nat] true false (mk_handler 0 None None false None)));
    [reflexivity | reflexivity | reflexivity | vm_compute; discriminate].
Defined.
