(* ===== verification/Sessions.v ===== *)
(** * Session contexts and adapters

    [report_exception] of src/exception.cpp; the contexts a session is given
    (include/serveza/session_context.h, bound_socket_context.h) and the adapters
    that turn a function into a session (callback_session.h, yield_session.h,
    awaitable_session.h).

    [boost::asio::spawn] and [co_spawn] are given an executor, a coroutine and a
    completion handler.  A coroutine is a frame that the executor resumes: it runs on
    until it suspends in a new frame or ends, and when it ends the completion handler is
    called with the exception it ended with, or a null pointer.  Anything may happen
    between two resumptions.  What a frame does is a parameter. *)

From S2P Require Import Prelude Errors Effect Options Endpoint Status Observers ListenerBase.
From S2P Require Import Connection Acceptor Scenarios.

Local Open Scope eff_scope.

(** [detail::report_exception]: an empty [std::function] is [None]. *)
Definition report_exception {E S} (reporter : option (exception_ptr -> M E S unit)) (ep : exception_ptr)
    : M E S unit :=
  noexcept (match reporter with
            | None => ret tt
            | Some reporter => try_catch (reporter ep) (fun _ => ret tt)
            end).

(** The two context classes; [I] is [connection_info] or the local endpoint.  The
    socket and the cancellation slot belong to the object at address [ctx_socket]. *)
Record context (E S I : Type) := mk_context {
  ctx_socket : nat;
  ctx_listener_id : Z;
  ctx_info : I;
  ctx_cancellation : nat;
  ctx_report_exception : option (exception_ptr -> M E S unit) }.
Arguments mk_context {E S I}.
Arguments ctx_socket {E S I}.
Arguments ctx_listener_id {E S I}.
Arguments ctx_info {E S I}.
Arguments ctx_cancellation {E S I}.
Arguments ctx_report_exception {E S I}.

Definition session_context (E S : Type) : Type := context E S connection_info.
Definition bound_socket_context (E S : Type) : Type := context E S string.

(** [get_executor]: the executor of the socket. *)
Definition ctx_get_executor {E S I} (ctx : context E S I) : executor := connection_strand (ctx_socket ctx).

Section Adapters.
Context {E S I : Type}.

Abbreviation handler := (error_code -> M E S unit).

Definition callback_session (function : context E S I -> handler -> M E S unit) (ctx : context E S I)
    (h : handler) : M E S unit :=
  function ctx h.

(** The completion of the coroutine that [yield_session] and [awaitable_session] start. *)
Definition coroutine_completion (ctx : context E S I) (h : handler) (ep : exception_ptr) : M E S unit :=
  let ec := exception_to_error ep in
  report_exception (ctx_report_exception ctx) ep;;
  h ec.

Section Spawn.
Context {C : Type}.

(** What [spawn] and [co_spawn] are called with. *)
Record spawned := mk_spawned {
  sp_executor : executor;
  sp_frame : C;
  sp_completion : exception_ptr -> M E S unit }.

Definition yield_session (function : context E S I -> C) (ctx : context E S I) (h : handler) : spawned :=
  mk_spawned (ctx_get_executor ctx) (function ctx) (coroutine_completion ctx h).

(** [m_function(ctx)] makes the awaitable, and may throw. *)
Definition awaitable_session (function : context E S I -> M E S C) (ctx : context E S I) (h : handler)
    : M E S spawned :=
  awaitable <- function ctx;;
  ret (mk_spawned (ctx_get_executor ctx) awaitable (coroutine_completion ctx h)).

(** *** The life of a coroutine *)

Inductive segment := Suspends (frame : C) | Ends (ep : exception_ptr).

(** A resumed frame runs to its next suspension or to its end. *)
Context (resume : C -> E -> S -> segment * S).

Definition resumed (k : exception_ptr -> M E S unit) (frame : C) (e : E) (s : S) : option C * S :=
  match resume frame e s with
  | (Suspends frame, s) => (Some frame, s)
  | (Ends ep, s) =>
    match k ep e s with Ret _ s' | Throw _ s' | Terminate s' => (None, s') end
  end.

(** Something else happens, then the coroutine is resumed if it has not ended. *)
Definition turn (k : exception_ptr -> M E S unit) (x : E * (S -> S)) (y : option C * S) : option C * S :=
  match y with
  | (Some frame, s) => resumed k frame (fst x) (snd x s)
  | (None, s) => (None, snd x s)
  end.

Definition run_spawned (sp : spawned) (l : list (E * (S -> S))) (s : S) : option C * S :=
  foldl (fun y x => turn (sp_completion sp) x y) (Some (sp_frame sp), s) l.

(** The coroutine ends with [ep] in the turn [x]: [s1] is the state before its
    completion handler. *)
Definition ends_in (sp : spawned) (l : list (E * (S -> S))) (x : E * (S -> S)) (ep : exception_ptr) (s s1 : S) : Prop :=
  exists frame s0, run_spawned sp l s = (Some frame, s0) /\ resume frame (fst x) (snd x s0) = (Ends ep, s1).

Lemma ended_stays k l s :
  foldl (fun y x => turn k x y) (None, s) l = (None, foldl (fun s x => snd x s) s l).
Proof. revert s. induction l as [|x l IH]; intros s; simpl; [done | apply IH]. Qed.

Lemma coroutine_ended sp l s :
  fst (run_spawned sp l s) = None -> exists l1 x l2 ep s1, l = l1 ++ x :: l2 /\ ends_in sp l1 x ep s s1.
Proof.
  induction l as [|x l IH] using rev_ind; [done|]. intros H.
  destruct (run_spawned sp l s) as [[frame|] s0] eqn:E0.
  - exists l, x, []. unfold run_spawned in H. rewrite foldl_app in H. unfold run_spawned in E0. rewrite E0 in H.
    simpl in H. unfold resumed in H. destruct (resume frame (fst x) (snd x s0)) as [[frame'|ep] s1] eqn:E1; [done|].
    exists ep, s1. split; [done|]. by exists frame, s0.
  - destruct (IH eq_refl) as (l1 & x' & l2 & ep & s1 & -> & H'). exists l1, x', (l2 ++ [x]), ep, s1.
    by rewrite <- app_assoc.
Qed.

(** The completion handler runs in the turn the coroutine ends in, and in no other. *)
Lemma coroutine_completes sp l1 x l2 ep s s1 s2 :
  ends_in sp l1 x ep s s1 -> sp_completion sp ep (fst x) s1 = Ret tt s2 ->
  run_spawned sp (l1 ++ x :: l2) s = (None, foldl (fun s x => snd x s) s2 l2).
Proof.
  intros (frame & s0 & Hr & Hs) Hk. unfold run_spawned in *. rewrite foldl_app, Hr. simpl.
  unfold resumed. rewrite Hs, Hk. apply ended_stays.
Qed.
End Spawn.
End Adapters.
Arguments spawned : clear implicits.
Arguments segment : clear implicits.

(** ** The context of a connection *)

(** As [connection_state] constructs it: the reporter stores [m_ep]. *)
Definition connection_context (listener_id : Z) (c : nat) (info : connection_info) : session_context aenv aworld :=
  mk_context c listener_id info c (Some (fun ep => modify_ext (update_connection c (set_cn_ep ep)))).

(** A coroutine session of a connection that is not finished ends with [ep]. *)
Definition session_ended (c : nat) (conn : connection) (ep : exception_ptr) (w w' : aworld) : Prop :=
  w_queue w' = w_queue w ++ [(listener_strand, TExt (TSessionFinished (cn_info conn) (exception_to_error ep) ep))] /\
  a_connections (w_ext w') !! c = Some (mk_connection (cn_info conn) false (cn_signalled conn) None true (cn_session conn)).

Lemma completion_ends c conn listener_id ep e w :
  posts_ok e -> e_owner (e_ext e) = true ->
  a_connections (w_ext w) !! c = Some conn -> cn_finished conn = false ->
  wp (coroutine_completion (connection_context listener_id c (cn_info conn)) (session_handler c) ep) e w
    (fun _ => session_ended c conn ep w) (fun _ _ => False).
Proof.
  intros He Ho Hc Hf. unfold coroutine_completion, report_exception, session_handler, Connection.finish, session_finished_post, close_now, post.
  simpl. unfold modify_ext, get_ext.
  do 6 eff_step. simpl. rewrite list_lookup_alter_eq, Hc. simpl.
  do 5 eff_step. simpl. rewrite !list_lookup_alter_eq, Hc. simpl. rewrite Hf.
  do 8 eff_step; [|congruence]. eff_step. eff_step; [|by rewrite He in *]. eff_step. split; [done|].
  simpl. by rewrite !list_lookup_alter_eq, Hc.
Qed.

(** The function of an [awaitable_session] throws: [connection_state::start] reports. *)
Lemma construction_ends c conn x e w :
  posts_ok e -> e_owner (e_ext e) = true ->
  a_connections (w_ext w) !! c = Some conn -> cn_finished conn = false -> cn_ep conn = None ->
  wp (Connection.finish c (exception_to_error (Some x)) (Some x)) e w
    (fun _ => session_ended c conn (Some x) w) (fun _ _ => False).
Proof.
  intros He Ho Hc Hf Hep. unfold Connection.finish, session_finished_post, close_now, post, modify_ext, get_ext.
  do 3 eff_step. simpl. rewrite Hc, Hf. do 8 eff_step; [|congruence]. eff_step. eff_step; [|by rewrite He in *]. eff_step.
  split; [done|]. simpl. rewrite !list_lookup_alter_eq, Hc. by destruct conn; simpl in *; subst.
Qed.

Section Outcome.
Context {C : Type} (resume : C -> aenv -> aworld -> segment C * aworld).

(** C40: a coroutine session keeps its promise, however often it suspends and whatever
    happens in between.  When the function given to [yield_session] or
    [awaitable_session] ends, normally or with an exception, its completion handler runs
    once, in the turn it ends in: if the connection is not finished then, the executor
    accepts the work and the listener is alive, the connection closes its socket and
    posts one report to the listener, with the error the exception stands for and the
    exception itself for the observers.  Both adapters start the same coroutine; when
    making the awaitable throws, nothing is spawned and the exception is reported the
    same way. *)
Theorem coroutine_session_outcome (function : session_context aenv aworld -> C) c conn listener_id w :
  let ctx := connection_context listener_id c (cn_info conn) in
  let sp := yield_session function ctx (session_handler c) in
  (forall e, awaitable_session (fun ctx => ret (function ctx)) ctx (session_handler c) e w = Ret sp w) /\
  (forall l, fst (run_spawned resume sp l w) = None ->
     exists l1 x l2 ep w1, l = l1 ++ x :: l2 /\ ends_in resume sp l1 x ep w w1) /\
  (forall l1 x l2 ep w1, ends_in resume sp l1 x ep w w1 -> posts_ok (fst x) -> e_owner (e_ext (fst x)) = true ->
     a_connections (w_ext w1) !! c = Some conn -> cn_finished conn = false ->
     exists w2, run_spawned resume sp (l1 ++ x :: l2) w = (None, foldl (fun w x => snd x w) w2 l2) /\
       session_ended c conn ep w1 w2) /\
  (forall make e x w1, make ctx e w = Throw x w1 -> posts_ok e -> e_owner (e_ext e) = true ->
     a_connections (w_ext w1) !! c = Some conn -> cn_finished conn = false -> cn_ep conn = None ->
     exists w2, try_catch (awaitable_session (C := C) make ctx (session_handler c);; ret tt)
         (fun x => Connection.finish c (exception_to_error (Some x)) (Some x)) e w = Ret tt w2 /\
       session_ended c conn (Some x) w1 w2).
Proof.
  intros ctx sp. split_and!; [done | intros l; apply coroutine_ended | |].
  - intros l1 x l2 ep w1 Hend He Ho Hc Hf. assert (H := completion_ends c conn listener_id ep (fst x) w1 He Ho Hc Hf).
    fold ctx in H. unfold wp in H.
    destruct (coroutine_completion ctx (session_handler c) ep (fst x) w1) as [[] w2|y w2|w2] eqn:Hk; [|done|done].
    exists w2. split; [|done]. by apply (coroutine_completes resume sp l1 x l2 ep w w1 w2).
  - intros make e x w1 Hm He Ho Hc Hf Hep. assert (H := construction_ends c conn x e w1 He Ho Hc Hf Hep).
    unfold try_catch, awaitable_session, bind. rewrite Hm. unfold wp in H.
    destruct (Connection.finish _ _ _ e w1) as [[] w'|x' w'|w']; [by exists w' | done | done].
Qed.
End Outcome.

Definition demo_connection : connection :=
  mk_connection (mk_connection_info 1 "127.0.0.1:8080" "10.0.0.9:50000") true false None false true.

(** A coroutine that suspends twice and then throws. *)
Definition demo_resume (n : nat) (e : aenv) (w : aworld) : segment nat * aworld :=
  (match n with O => Ends (Some (other_exception "closed")) | Datatypes.S n => Suspends n end, w).

Definition demo_turn : aenv * (aworld -> aworld) := (calm, fun w => w).

Lemma coroutine_session_outcome_witness :
  let ctx := connection_context 1 0 (cn_info demo_connection) in
  let sp := yield_session (fun _ => 2%nat) ctx (session_handler 0) in
  let w := after calm one_session in
  exists w2, run_spawned demo_resume sp ([demo_turn; demo_turn] ++ demo_turn :: [demo_turn]) w = (None, w2) /\
    session_ended 0 demo_connection (Some (other_exception "closed")) w w2.
Proof.
  intros ctx sp w.
  destruct (coroutine_session_outcome demo_resume (fun _ => 2%nat) 0 demo_connection 1 w) as (_ & _ & H & _).
  apply (H [demo_turn; demo_turn] demo_turn [demo_turn] (Some (other_exception "closed")) w);
    [exists 0%nat, w; split; reflexivity | apply calm_ok | reflexivity | vm_compute; reflexivity | reflexivity].
Defined.

(** ** Coroutine sessions of a bound socket

    [session_state] of include/serveza/detail/basic_socket_listener.h with the
    context and the adapters above. *)

From S2P Require Import SocketListener SocketTheorems.

(** As [session_state] constructs it: the reporter stores [m_ep]. *)
Definition bound_context (listener_id : Z) (s : nat) (local_endpoint : string) : bound_socket_context senv sworld :=
  mk_context s listener_id local_endpoint s (Some (fun ep => modify_ext (update_session s (set_bs_ep ep)))).

(** A coroutine session that is not finished ends with [ep]. *)
Definition bound_session_ended (s : nat) (session : bound_session) (ep : exception_ptr) (w w' : sworld) : Prop :=
  w_queue w' = w_queue w ++ [(listener_strand, TExt (TSessionFinished (exception_to_error ep) ep))] /\
  b_sessions (w_ext w') !! s =
    Some (mk_bound_session (bs_local_endpoint session) false (bs_signalled session) None true (bs_session session)).

Lemma bound_completion_ends s session listener_id ep e w :
  posts_ok e -> e_owner (e_ext e) = true ->
  b_sessions (w_ext w) !! s = Some session -> bs_finished session = false ->
  wp (coroutine_completion (bound_context listener_id s (bs_local_endpoint session)) (session_handler s) ep) e w
    (fun _ => bound_session_ended s session ep w) (fun _ _ => False).
Proof.
  intros He Ho Hc Hf. unfold coroutine_completion, report_exception, session_handler, session_finish, session_finished_post, close_now, post.
  simpl. unfold modify_ext, get_ext.
  do 6 eff_step. simpl. rewrite list_lookup_alter_eq, Hc. simpl.
  do 5 eff_step. simpl. rewrite !list_lookup_alter_eq, Hc. simpl. rewrite Hf.
  do 8 eff_step; [|congruence]. eff_step. eff_step; [|by rewrite He in *]. eff_step. split; [done|].
  simpl. by rewrite !list_lookup_alter_eq, Hc.
Qed.

(** A coroutine session of a bound socket that ends closes the socket and reports to
    the listener once, with the error its exception stands for and the exception itself. *)
Theorem bound_coroutine_session_outcome {C} (resume : C -> senv -> sworld -> segment C * sworld)
    (function : bound_socket_context senv sworld -> C) s session listener_id l1 x l2 ep w w1 :
  let ctx := bound_context listener_id s (bs_local_endpoint session) in
  let sp := yield_session function ctx (session_handler s) in
  ends_in resume sp l1 x ep w w1 -> posts_ok (fst x) -> e_owner (e_ext (fst x)) = true ->
  b_sessions (w_ext w1) !! s = Some session -> bs_finished session = false ->
  exists w2, run_spawned resume sp (l1 ++ x :: l2) w = (None, foldl (fun w x => snd x w) w2 l2) /\
    bound_session_ended s session ep w1 w2.
Proof.
  intros ctx sp Hend He Ho Hc Hf. assert (H := bound_completion_ends s session listener_id ep (fst x) w1 He Ho Hc Hf).
  fold ctx in H. unfold wp in H.
  destruct (coroutine_completion ctx (session_handler s) ep (fst x) w1) as [[] w2|y w2|w2] eqn:Hk; [|done|done].
  exists w2. split; [|done]. by apply (coroutine_completes resume sp l1 x l2 ep w w1 w2).
Qed.
