(* ===== verification/EchoStream.v ===== *)
(** * Echo over a stream

    What the stream echo services of src/examples share.  A service owns a connected
    socket: the bytes its peer sends, in order, and the bytes it has sent.  At most one
    asynchronous operation is pending; its completion is an event, whose [answer] (the
    error code and how many bytes the kernel moved) is arbitrary.

    [echo_step] is the abstract echo protocol: greet, then send back what arrives until
    something fails or the peer ends.  [EchoService] states what a service promises:
    it refines the protocol and calls its completion handler once.  The theorems on
    echoing and termination are proved from that interface. *)

From S2P Require Import Prelude Errors Status Endpoint.
From Stdlib Require Import Strings.Byte.

Notation bytes := (list Byte.byte).

(** ** Transport *)

Record answer := mk_answer { a_ec : error_code; a_count : nat }.

(** The peer's bytes that were not read yet, and the bytes sent to the peer. *)
Record socket := mk_socket { sk_input : bytes; sk_output : bytes }.

(** [std::array<char, 4096>{}]. *)
Definition buffer_size : nat := 4096.
Definition empty_buffer : bytes := replicate buffer_size x00.

(** [async_read_some]: on success some of the bytes that arrived, as many as fit at
    most, are stored at the front of the buffer. *)
Definition read_some (a : answer) (sk : socket) (buffer : bytes) : nat * socket * bytes :=
  if failed (a_ec a) then (0, sk, buffer)
  else
    let data := take (Nat.min (a_count a) (length buffer)) (sk_input sk) in
    (length data, mk_socket (drop (length data) (sk_input sk)) (sk_output sk), data ++ drop (length data) buffer).

(** [async_write]: all of the data on success, some of it on failure. *)
Definition write_all (a : answer) (data : bytes) (sk : socket) : socket :=
  mk_socket (sk_input sk) (sk_output sk ++ if failed (a_ec a) then take (a_count a) data else data).

(** The operation that is pending, with the data its completion handler captured. *)
Inductive operation := OHandshake | OGreeting | ORead | OWrite (size : nat) | OShutdown.

(** A connection object of an example.  [c_results] logs the calls of the completion
    handler, [c_log] what was printed; [c_finished] is [m_finished] where there is one. *)
Record connection := mk_connection {
  c_info : connection_info;
  c_socket : socket;
  c_buffer : bytes;
  c_pending : option operation;
  c_finished : bool;
  c_results : list error_code;
  c_log : list string }.

Definition new_connection (info : connection_info) (input : bytes) : connection :=
  mk_connection info (mk_socket input []) empty_buffer None false [] [].

Definition start (op : operation) (c : connection) : connection :=
  mk_connection (c_info c) (c_socket c) (c_buffer c) (Some op) (c_finished c) (c_results c) (c_log c).

Definition idle (c : connection) : connection :=
  mk_connection (c_info c) (c_socket c) (c_buffer c) None (c_finished c) (c_results c) (c_log c).

Definition set_finished (c : connection) : connection :=
  mk_connection (c_info c) (c_socket c) (c_buffer c) (c_pending c) true (c_results c) (c_log c).

Definition call_handler (ec : error_code) (c : connection) : connection :=
  mk_connection (c_info c) (c_socket c) (c_buffer c) (c_pending c) (c_finished c) (c_results c ++ [ec]) (c_log c).

Definition print (line : string) (c : connection) : connection :=
  mk_connection (c_info c) (c_socket c) (c_buffer c) (c_pending c) (c_finished c) (c_results c) (c_log c ++ [line]).

(** The effect of a completed transfer on the socket and the buffer. *)
Definition sent (a : answer) (data : bytes) (c : connection) : connection :=
  mk_connection (c_info c) (write_all a data (c_socket c)) (c_buffer c) (c_pending c) (c_finished c)
    (c_results c) (c_log c).

Definition received (a : answer) (c : connection) : nat * connection :=
  let '(size, sk, buffer) := read_some a (c_socket c) (c_buffer c) in
  (size, mk_connection (c_info c) sk buffer (c_pending c) (c_finished c) (c_results c) (c_log c)).

(** [net::buffer(m_buffer.data(), size)]. *)
Definition front (size : nat) (c : connection) : bytes := take size (c_buffer c).

Definition newline : string := String (Ascii.ascii_of_nat 10) EmptyString.

Definition client (info : connection_info) : string := to_string (Z.to_N (info_id info)).

Definition with_endpoint (info : connection_info) : string :=
  if String.eqb (info_remote_endpoint info) "" then "" else " (" +:+ info_remote_endpoint info +:+ ")".

(** ** The protocol *)

Inductive phase := Opening | Greeting | Waiting | Echoing (chunk : bytes) | Closing | Closed.

Record echo := mk_echo { e_phase : phase; e_input : bytes; e_output : bytes }.

(** [echo_step g b s s']: the label [b] tells that the step lost nothing, that is,
    the service did not stop before it sent back all that its peer will send. *)
Inductive echo_step (g : bytes) : bool -> echo -> echo -> Prop :=
| step_opened i o : echo_step g true (mk_echo Opening i o) (mk_echo Greeting i o)
| step_greeted i o : echo_step g true (mk_echo Greeting i o) (mk_echo Waiting i (o ++ g))
| step_greeting_lost k i o : echo_step g false (mk_echo Greeting i o) (mk_echo Closed i (o ++ take k g))
| step_received n i o :
    n <= buffer_size -> echo_step g true (mk_echo Waiting i o) (mk_echo (Echoing (take n i)) (drop n i) o)
| step_echoed chunk i o :
    echo_step g true (mk_echo (Echoing chunk) i o) (mk_echo Waiting i (o ++ chunk))
| step_echo_lost chunk k i o :
    echo_step g false (mk_echo (Echoing chunk) i o) (mk_echo Closed i (o ++ take k chunk))
| step_ended i o : echo_step g (bool_decide (i = [])) (mk_echo Waiting i o) (mk_echo Closing i o)
| step_failed i o : echo_step g (bool_decide (i = [])) (mk_echo Waiting i o) (mk_echo Closed i o)
| step_not_opened i o : echo_step g false (mk_echo Opening i o) (mk_echo Closed i o)
| step_closed i o : echo_step g true (mk_echo Closing i o) (mk_echo Closed i o).

(** What was sent, of a peer that sends [input] in all: nothing but the greeting and
    what was read, in order. *)
Definition echo_ok (g input : bytes) (s : echo) : Prop :=
  exists consumed, input = consumed ++ e_input s /\
    match e_phase s with
    | Opening | Greeting => e_output s = [] /\ consumed = []
    | Waiting | Closing => e_output s = g ++ consumed
    | Echoing chunk => exists before, consumed = before ++ chunk /\ e_output s = g ++ before
    | Closed => e_output s `prefix_of` g ++ consumed
    end.

Lemma take_prefix {A} (k : nat) (l : list A) : take k l `prefix_of` l.
Proof. exists (drop k l). by rewrite take_drop. Qed.

Lemma echo_step_ok g input b s s' : echo_ok g input s -> echo_step g b s s' -> echo_ok g input s'.
Proof.
  intros (consumed & Hi & H) Hs. destruct Hs; simpl in *; destruct_and?;
    try (exists consumed; split; [done|]); simpl; subst; simpl.
  - done.
  - by rewrite app_nil_r.
  - rewrite app_nil_r. apply take_prefix.
  - exists (consumed ++ take n i). simpl. split; [by rewrite <- app_assoc, take_drop | eauto].
  - destruct H as (before & -> & ->). by rewrite app_assoc.
  - destruct H as (before & -> & ->). rewrite app_assoc. apply prefix_app, take_prefix.
  - done.
  - done.
  - apply prefix_nil.
  - done.
Qed.

(** Nothing is lost: the peer got all, and has nothing left to send, when the
    service ends. *)
Definition lossless (g input : bytes) (s : echo) : Prop :=
  echo_ok g input s /\ match e_phase s with
                       | Closing => e_input s = []
                       | Closed => e_input s = [] /\ e_output s = g ++ input
                       | _ => True
                       end.

Lemma echo_step_lossless g input s s' : lossless g input s -> echo_step g true s s' -> lossless g input s'.
Proof.
  intros [Hok Hl] Hs. split; [by eapply echo_step_ok|]. destruct Hok as (consumed & Hi & H).
  inversion Hs; subst; simpl in *; try done.
  - by eapply bool_decide_eq_true_1.
  - assert (i = []) as -> by (by eapply bool_decide_eq_true_1). by rewrite app_nil_r.
  - subst. by rewrite app_nil_r.
Qed.

(** How many steps are left at most, when every read that can get data gets some. *)
Definition remaining (s : echo) : nat :=
  match e_phase s with
  | Opening => 2 * length (e_input s) + 4
  | Greeting | Echoing _ => 2 * length (e_input s) + 3
  | Waiting => 2 * length (e_input s) + 2
  | Closing => 1
  | Closed => 0
  end.

(** ** Services *)

Definition phase_of (c : connection) : phase :=
  match c_pending c with
  | None => Closed
  | Some OHandshake => Opening
  | Some OGreeting => Greeting
  | Some ORead => Waiting
  | Some (OWrite size) => Echoing (front size c)
  | Some OShutdown => Closing
  end.

Definition abs (c : connection) : echo :=
  mk_echo (phase_of c) (sk_input (c_socket c)) (sk_output (c_socket c)).

(** The invariant of a connection: the buffer keeps its size, and the handler was
    called once if the service is over and not at all before; [uses] tells the
    operations the service uses, [good] the results it may report. *)
Definition connection_ok (uses : operation -> bool) (good : error_code -> bool) (c : connection) : Prop :=
  length (c_buffer c) = buffer_size /\
  match c_pending c with
  | None => exists ec, c_results c = [ec] /\ good ec = true
  | Some op => uses op = true /\ c_results c = [] /\ c_finished c = false
  end.

(** A peer and a kernel that oblige: nothing fails, a read gets some of the data that
    is there, and [eof] when there will be none. *)
Definition obliging (c : connection) (a : answer) : Prop :=
  match c_pending c with
  | Some ORead =>
    if decide (sk_input (c_socket c) = []) then a_ec a = eof else a_ec a = success /\ 0 < a_count a
  | _ => a_ec a = success
  end.

(** The completion [a] takes the protocol one step further, and an obliging one brings
    it closer to its end. *)
Definition progresses (g : bytes) (a : answer) (c c' : connection) : Prop :=
  exists b, echo_step g b (abs c) (abs c') /\ (obliging c a -> b = true /\ remaining (abs c') < remaining (abs c)).

(** All that a completion keeps and does. *)
Definition step_ok (uses : operation -> bool) (good : error_code -> bool) (g : bytes) (a : answer) (c c' : connection) : Prop :=
  connection_ok uses good c' /\ progresses g a c c' /\
  (obliging c a -> c_pending c' = None -> c_results c' = [success]).

(** What an echo service promises; [es_completed] is the completion of the pending
    operation. *)
Class EchoService := {
  es_greeting : bytes;
  es_uses : operation -> bool;
  es_good : error_code -> bool;
  es_run : connection_info -> bytes -> connection;
  es_completed : answer -> connection -> connection;
  es_run_ok info input :
    connection_ok es_uses es_good (es_run info input) /\
    (abs (es_run info input) = mk_echo Opening input [] \/ abs (es_run info input) = mk_echo Greeting input []);
  es_over a c : c_pending c = None -> es_completed a c = c;
  es_aborted n c op :
    connection_ok es_uses es_good c -> c_pending c = Some op ->
    let c' := es_completed (mk_answer operation_aborted n) c in c_pending c' = None /\ c_results c' = [success];
  es_step a c :
    connection_ok es_uses es_good c -> c_pending c <> None -> step_ok es_uses es_good es_greeting a c (es_completed a c) }.

Section Service.
Context {service : EchoService}.

(** The connection after the completions [l]. *)
Definition after (l : list answer) (info : connection_info) (input : bytes) : connection :=
  foldl (fun c a => es_completed a c) (es_run info input) l.

Lemma after_snoc l a info input : after (l ++ [a]) info input = es_completed a (after l info input).
Proof. unfold after. by rewrite foldl_app. Qed.

Lemma after_ok l info input :
  connection_ok es_uses es_good (after l info input) /\ echo_ok es_greeting input (abs (after l info input)).
Proof.
  induction l as [|a l [IH1 IH2]] using rev_ind.
  - destruct (es_run_ok info input) as [H1 H2]. split; [done|]. change (after [] info input) with (es_run info input).
    by destruct H2 as [-> | ->]; exists [].
  - rewrite after_snoc.
    destruct (c_pending (after l info input)) as [op|] eqn:Hp; [|by rewrite es_over].
    destruct (es_step a _ IH1) as (Hc & (b & Hs & _) & _); [congruence|]. split; [done | by eapply echo_step_ok].
Qed.

(** A service with an obliging peer, whose answers may depend on the connection. *)
Fixpoint serve (n : nat) (answers : connection -> answer) (c : connection) : connection :=
  match n with
  | O => c
  | S n => serve n answers (es_completed (answers c) c)
  end.

Lemma serve_ends answers input n c :
  (forall c, obliging c (answers c)) -> connection_ok es_uses es_good c -> lossless es_greeting input (abs c) ->
  (c_pending c = None -> c_results c = [success]) -> remaining (abs c) <= n ->
  let c' := serve n answers c in
  c_pending c' = None /\ c_results c' = [success] /\ sk_output (c_socket c') = es_greeting ++ input.
Proof.
  intros Ha. revert c. induction n as [|n IH]; intros c Hc Hl Hr Hn; simpl.
  - assert (c_pending c = None) as Hp.
    { unfold remaining, phase_of in Hn. simpl in Hn. unfold phase_of in Hn.
      destruct (c_pending c) as [[]|]; simpl in Hn; done || lia. }
    split_and!; [done | auto|]. destruct Hl as [_ Hl]. simpl in Hl. unfold phase_of in Hl. rewrite Hp in Hl.
    by destruct Hl.
  - destruct (c_pending c) as [op|] eqn:Hp.
    + destruct (es_step (answers c) c Hc) as (Hc' & (b & Hs & Hb) & Hres); [congruence|].
      destruct (Hb (Ha c)) as [-> Hlt].
      apply IH; [done | by eapply echo_step_lossless | by apply Hres | lia].
    + rewrite es_over by done. apply IH; [done | done | by auto|].
      unfold remaining, abs, phase_of. rewrite Hp. simpl. lia.
Qed.

Lemma service_ends answers info input :
  (forall c, obliging c (answers c)) ->
  let c := serve (2 * length input + 4) answers (es_run info input) in
  c_pending c = None /\ c_results c = [success] /\ sk_output (c_socket c) = es_greeting ++ input.
Proof.
  intros Ha. destruct (es_run_ok info input) as [Hc Habs].
  apply serve_ends; [done | done | | | ].
  - split; [apply (after_ok [] info input) | by destruct Habs as [-> | ->]].
  - intros Hp. destruct Habs as [Habs|Habs]; unfold abs, phase_of in Habs; rewrite Hp in Habs; discriminate.
  - unfold remaining. destruct Habs as [-> | ->]; simpl; lia.
Qed.

(** The peer, which sends [input] in all, got nothing but the greeting and what it sent,
    in order, all of it that was read while the service waits for more; the handler is
    called once, when the service is over, with a result the service may report; an
    operation that is aborted ends the service with success. *)
Definition echo_promise (input : bytes) (c : connection) : Prop :=
  exists consumed, input = consumed ++ sk_input (c_socket c) /\
    sk_output (c_socket c) `prefix_of` es_greeting ++ consumed /\
    (c_pending c = Some ORead -> sk_output (c_socket c) = es_greeting ++ consumed) /\
    length (c_results c) = (if decide (c_pending c = None) then 1 else 0) /\
    Forall (fun r => es_good r = true) (c_results c) /\
    (c_pending c <> None -> forall n,
       let c' := es_completed (mk_answer operation_aborted n) c in c_pending c' = None /\ c_results c' = [success]).

Lemma promise_kept input c :
  connection_ok es_uses es_good c -> echo_ok es_greeting input (abs c) -> echo_promise input c.
Proof.
  intros Hok (consumed & Hi & H). exists consumed.
  split; [done|]. simpl in H. unfold phase_of in H. assert (Hc := Hok). destruct Hc as [_ Hc].
  destruct (c_pending c) as [op|] eqn:Hp.
  - destruct Hc as (_ & -> & _). destruct (decide (Some op = None)); [done|]. split.
    + destruct op; simpl in H.
      1, 2: by destruct H as [-> ->]; apply prefix_nil.
      1, 3: by rewrite H.
      destruct H as (before & -> & ->). rewrite app_assoc. by apply prefix_app_r.
    + split_and!; [by intros [= ->] | done | done |]. intros _ k. by eapply es_aborted.
  - destruct Hc as (ec & -> & Hg). destruct (decide _); [|done]. split_and!; try done. by apply Forall_singleton.
Qed.

(** Whatever the peer and the kernel do. *)
Definition echoes (info : connection_info) (input : bytes) (l : list answer) : Prop :=
  echo_promise input (after l info input).

Lemma service_echoes info input l : echoes info input l.
Proof. destruct (after_ok l info input). by apply promise_kept. Qed.
End Service.

(** ** Transfers *)

Lemma drop_length_take {A} n (l : list A) : drop (length (take n l)) l = drop n l.
Proof.
  rewrite length_take. destruct (Nat.le_ge_cases n (length l)).
  - by rewrite Nat.min_l.
  - by rewrite Nat.min_r, !drop_ge.
Qed.

(** A read that succeeded stored the next bytes at the front of the buffer. *)
Lemma received_some a c size c' :
  length (c_buffer c) = buffer_size -> failed (a_ec a) = false -> received a c = (size, c') ->
  exists n, n <= buffer_size /\ (0 < a_count a -> 0 < n) /\
    c' = mk_connection (c_info c) (mk_socket (drop n (sk_input (c_socket c))) (sk_output (c_socket c)))
           (c_buffer c') (c_pending c) (c_finished c) (c_results c) (c_log c) /\
    length (c_buffer c') = buffer_size /\ front size c' = take n (sk_input (c_socket c)).
Proof.
  intros Hb Hf. unfold received, read_some. rewrite Hf, Hb. intros [= <- <-].
  exists (Nat.min (a_count a) buffer_size). rewrite drop_length_take.
  split; [lia|]. split; [unfold buffer_size; lia|]. split; [done|]. split.
  - unfold c_buffer at 1. rewrite length_app, length_drop, Hb, length_take. lia.
  - unfold front, c_buffer. by rewrite take_app_length.
Qed.

Lemma received_none a c : failed (a_ec a) = true -> received a c = (0, c).
Proof. intros Hf. unfold received, read_some. rewrite Hf. by destruct c as [? []]. Qed.

Lemma drop_shorter {A} n (l : list A) : 0 < n -> l <> [] -> length (drop n l) < length l.
Proof. intros Hn Hl. rewrite length_drop. destruct l; [done|]. simpl. lia. Qed.

#[global] Opaque buffer_size.
Arguments empty_buffer : simpl never.

Lemma empty_buffer_size : length empty_buffer = buffer_size.
Proof. apply length_replicate. Qed.

(** The step of the protocol that each completion takes. *)
Section Moves.
Context (g : bytes) (a : answer) (c c' : connection).

Lemma handshake_move :
  c_pending c = Some OHandshake -> c_socket c' = c_socket c ->
  c_pending c' = (if failed (a_ec a) then None else Some OGreeting) -> progresses g a c c'.
Proof.
  intros Hp Hs Hp'. unfold progresses, obliging, abs, phase_of, remaining. rewrite Hp, Hp', Hs.
  destruct (failed (a_ec a)) eqn:Hf; simpl.
  - exists false. split; [constructor | intros Ha; by rewrite Ha in Hf].
  - exists true. split; [constructor | split; [done | lia]].
Qed.

Lemma greeting_move :
  c_pending c = Some OGreeting -> c_socket c' = write_all a g (c_socket c) ->
  c_pending c' = (if failed (a_ec a) then None else Some ORead) -> progresses g a c c'.
Proof.
  intros Hp Hs Hp'. unfold progresses, obliging, abs, phase_of, remaining. rewrite Hp, Hp', Hs. unfold write_all.
  destruct (failed (a_ec a)) eqn:Hf; simpl.
  - exists false. split; [constructor | intros Ha; by rewrite Ha in Hf].
  - exists true. split; [constructor | split; [done | lia]].
Qed.

Lemma write_move size :
  c_pending c = Some (OWrite size) -> c_socket c' = write_all a (front size c) (c_socket c) ->
  c_pending c' = (if failed (a_ec a) then None else Some ORead) -> progresses g a c c'.
Proof.
  intros Hp Hs Hp'. unfold progresses, obliging, abs, phase_of, remaining. rewrite Hp, Hp', Hs. unfold write_all.
  destruct (failed (a_ec a)) eqn:Hf; simpl.
  - exists false. split; [constructor | intros Ha; by rewrite Ha in Hf].
  - exists true. split; [constructor | split; [done | lia]].
Qed.

(** A failed read: only [eof], which an obliging peer sends at the end, may lead to an
    orderly shutdown. *)
Lemma read_failed_move :
  c_pending c = Some ORead -> failed (a_ec a) = true -> c_socket c' = c_socket c ->
  (c_pending c' = None \/ c_pending c' = Some OShutdown) -> progresses g a c c'.
Proof.
  intros Hp Hf Hs Hp'. unfold progresses, obliging, abs, phase_of, remaining. rewrite Hp, Hs.
  exists (bool_decide (sk_input (c_socket c) = [])). destruct Hp' as [-> | ->]; simpl; (split; [constructor|]);
    destruct (decide _) as [->|]; try (intros [Ha _]; by rewrite Ha in Hf); intros _; simpl; split; done || lia.
Qed.

Lemma read_move n size :
  c_pending c = Some ORead -> failed (a_ec a) = false -> n <= buffer_size -> (0 < a_count a -> 0 < n) ->
  c_socket c' = mk_socket (drop n (sk_input (c_socket c))) (sk_output (c_socket c)) ->
  c_pending c' = Some (OWrite size) -> front size c' = take n (sk_input (c_socket c)) -> progresses g a c c'.
Proof.
  intros Hp Hf Hn Hpos Hs Hp' Hfront. unfold progresses, obliging, abs, phase_of, remaining.
  rewrite Hp, Hp', Hs, Hfront. simpl. exists true. split; [by constructor|].
  destruct (decide _) as [Hi|Hi]; [intros Ha; by rewrite Ha in Hf|]. intros [_ Hc]. split; [done|].
  assert (H := drop_shorter n _ (Hpos Hc) Hi). lia.
Qed.

Lemma shutdown_move :
  c_pending c = Some OShutdown -> c_socket c' = c_socket c -> c_pending c' = None -> progresses g a c c'.
Proof.
  intros Hp Hs Hp'. unfold progresses, obliging, abs, phase_of, remaining. rewrite Hp, Hp', Hs. simpl.
  exists true. split; [constructor | split; [done | lia]].
Qed.
End Moves.

(** Completion handlers that end the service with [complete] on an error. *)
Section Handlers.
Context (uses : operation -> bool) (good : error_code -> bool) (g : bytes)
  (complete : error_code -> connection -> connection).

(** The service is over, with result [r]. *)
Definition closed_by (r : error_code) (c c' : connection) : Prop :=
  c_socket c' = c_socket c /\ c_buffer c' = c_buffer c /\ c_pending c' = None /\ c_results c' = [r].

Hypothesis complete_ok : forall ec c,
  c_pending c = None -> c_results c = [] -> c_finished c = false -> 
  exists r, good r = true /\ closed_by r c (complete ec c).
Hypothesis uses_read : uses ORead = true.

Lemma closed_ok r c c' :
  length (c_buffer c) = buffer_size -> good r = true -> closed_by r c c' -> connection_ok uses good c'.
Proof. intros Hb Hg (_ & H & Hp & Hr). unfold connection_ok. rewrite H, Hp. eauto. Qed.

Lemma started_ok op c :
  uses op = true -> length (c_buffer c) = buffer_size -> c_results c = [] -> c_finished c = false ->
  connection_ok uses good (start op c).
Proof. done. Qed.

Context (a : answer) (c : connection).
Hypothesis Hc : connection_ok uses good c.

Lemma handshake_step :
  uses OGreeting = true -> c_pending c = Some OHandshake ->
  step_ok uses good g a c (if failed (a_ec a) then complete (a_ec a) (idle c) else start OGreeting (idle c)).
Proof.
  intros Hu Hp. destruct Hc as [Hb Hr]. rewrite Hp in Hr. destruct Hr as (_ & Hr & Hf). unfold step_ok.
  destruct (failed (a_ec a)) eqn:Hfa.
  - destruct (complete_ok (a_ec a) (idle c)) as (r & Hg & H); [done..|]. assert (Hk := closed_ok _ _ _ Hb Hg H).
    destruct H as (Hs & _ & Hp' & _). split; [done|]. split; [by apply handshake_move; rewrite ?Hfa|].
    unfold obliging. rewrite Hp. intros Ha. by rewrite Ha in Hfa.
  - split; [by apply started_ok|]. split; [by apply handshake_move; rewrite ?Hfa | done].
Qed.

Lemma greeting_step :
  c_pending c = Some OGreeting ->
  step_ok uses good g a c
    (if failed (a_ec a) then complete (a_ec a) (sent a g (idle c)) else start ORead (sent a g (idle c))).
Proof.
  intros Hp. destruct Hc as [Hb Hr]. rewrite Hp in Hr. destruct Hr as (_ & Hr & Hf). unfold step_ok.
  destruct (failed (a_ec a)) eqn:Hfa.
  - destruct (complete_ok (a_ec a) (sent a g (idle c))) as (r & Hg & H); [done..|].
    assert (Hk := closed_ok r (sent a g (idle c)) _ Hb Hg H).
    destruct H as (Hs & _ & Hp' & _). split; [done|]. split; [by apply greeting_move; rewrite ?Hfa|].
    unfold obliging. rewrite Hp. intros Ha. by rewrite Ha in Hfa.
  - split; [by apply started_ok|]. split; [by apply greeting_move; rewrite ?Hfa | done].
Qed.

Lemma write_step size :
  c_pending c = Some (OWrite size) ->
  step_ok uses good g a c
    (if failed (a_ec a) then complete (a_ec a) (sent a (front size c) (idle c))
     else start ORead (sent a (front size c) (idle c))).
Proof.
  intros Hp. destruct Hc as [Hb Hr]. rewrite Hp in Hr. destruct Hr as (_ & Hr & Hf). unfold step_ok.
  set (c1 := sent a (front size c) (idle c)). destruct (failed (a_ec a)) eqn:Hfa.
  - destruct (complete_ok (a_ec a) c1) as (r & Hg & H); [done..|]. assert (Hk := closed_ok r c1 _ Hb Hg H).
    destruct H as (Hs & _ & Hp' & _). split; [done|]. split; [by apply (write_move _ _ _ _ size); rewrite ?Hfa|].
    unfold obliging. rewrite Hp. intros Ha. by rewrite Ha in Hfa.
  - split; [by apply started_ok|]. split; [by apply (write_move _ _ _ _ size); rewrite ?Hfa | done].
Qed.

(** A read that succeeded starts a write of what it got. *)
Lemma read_step :
  c_pending c = Some ORead -> (forall size, uses (OWrite size) = true) -> failed (a_ec a) = false ->
  step_ok uses good g a c (let '(size, c) := received a (idle c) in start (OWrite size) c).
Proof.
  intros Hp Hu Hfa. destruct Hc as [Hb Hr]. rewrite Hp in Hr. destruct Hr as (_ & Hr & Hf).
  destruct (received a (idle c)) as [size c1] eqn:H1.
  apply received_some in H1 as (n & Hle & Hpos & -> & Hb' & Hfr); [|done..].
  split; [by apply started_ok|]. split; [by apply (read_move _ _ _ _ n size) | done].
Qed.

(** A read that failed ends the service, or starts the shutdown. *)
Lemma read_failed_step c' :
  c_pending c = Some ORead -> failed (a_ec a) = true -> connection_ok uses good c' -> c_socket c' = c_socket c ->
  (c_pending c' = None /\ (a_ec a = eof -> c_results c' = [success]) \/ c_pending c' = Some OShutdown) ->
  step_ok uses good g a c c'.
Proof.
  intros Hp Hfa Hk Hs H. split; [done|]. split; [apply read_failed_move; destruct H as [[]|]; auto|].
  unfold obliging. rewrite Hp. intros Ho Hn. destruct H as [[_ H]|H]; [|congruence].
  destruct (decide _); [auto|]. destruct Ho as [Ho _]. by rewrite Ho in Hfa.
Qed.

(** The read of a service that ends with success whatever happened. *)
Lemma plain_read_step :
  good success = true ->
  (forall ec c, c_pending c = None -> c_results c = [] -> closed_by success c (complete ec c)) ->
  c_pending c = Some ORead -> (forall size, uses (OWrite size) = true) ->
  step_ok uses good g a c
    (let '(size, c) := received a (idle c) in
     if failed (a_ec a) then complete (a_ec a) c else start (OWrite size) c).
Proof.
  intros Hg Hk Hp Hu. destruct (failed (a_ec a)) eqn:Hfa; [|by apply read_step].
  destruct Hc as [Hb Hr]. rewrite Hp in Hr. destruct Hr as (_ & Hr & Hf).
  rewrite received_none by done. assert (H := Hk (a_ec a) (idle c) eq_refl Hr).
  apply read_failed_step; [done | done | by eapply closed_ok; [| |apply H] | apply H |]. left. by split; intros; apply H.
Qed.
End Handlers.
