(* ===== verification/LocalEcho.v ===== *)
(** * The local stream echo service

    [StreamEchoOperation] of src/examples/LocalEcho/src/main.cpp; its datagram
    counterpart is in DatagramEcho.v. *)

From S2P Require Import Prelude Errors Status Endpoint EchoStream.

Definition greeting : bytes := String.list_byte_of_string ("Hello! I'm a local echo server." +:+ newline).

Section LocalEcho.
Context (message : error_code -> string).

(** The handler is moved out of the object before it is called. *)
Definition finish (ec : error_code) (c : connection) : connection :=
  let c := print ("Local stream client " +:+ client (c_info c) +:+ " disconnected" +:+
             if negb (ec_eqb ec eof) && negb (ec_eqb ec operation_aborted) then ": " +:+ message ec else "") c in
  call_handler success c.

Definition read (c : connection) : connection := start ORead c.

Definition write (size : nat) (c : connection) : connection := start (OWrite size) c.

Definition run (c : connection) : connection :=
  start OGreeting (print ("Local stream client " +:+ client (c_info c) +:+ " connected") c).

(** The completion handlers of the three operations. *)
Definition greeting_written (ec : error_code) (c : connection) : connection :=
  if failed ec then finish ec c else read c.

Definition read_done (ec : error_code) (size : nat) (c : connection) : connection :=
  if failed ec then finish ec c else write size c.

Definition written (ec : error_code) (c : connection) : connection :=
  if failed ec then finish ec c else read c.

(** [StreamEcho::operator()]. *)
Definition session (info : connection_info) (input : bytes) : connection := run (new_connection info input).

Definition completed (a : answer) (c : connection) : connection :=
  match c_pending c with
  | Some OGreeting => greeting_written (a_ec a) (sent a greeting (idle c))
  | Some ORead => let '(size, c) := received a (idle c) in read_done (a_ec a) size c
  | Some (OWrite size) => written (a_ec a) (sent a (front size c) (idle c))
  | _ => c
  end.

(** The results the session may end with. *)
Definition good (r : error_code) : bool := ec_eqb r success.

Definition uses (op : operation) : bool :=
  match op with OGreeting | ORead | OWrite _ => true | _ => false end.

Lemma local_finish_ok ec c : c_pending c = None -> c_results c = [] -> closed_by success c (finish ec c).
Proof. intros Hp Hr. unfold closed_by, finish. simpl. by rewrite Hr. Qed.

Lemma local_finish_ends ec c :
  c_pending c = None -> c_results c = [] -> c_finished c = false ->
  exists r, good r = true /\ closed_by r c (finish ec c).
Proof. intros. exists success. auto using local_finish_ok. Qed.

Lemma local_completed_step a c :
  connection_ok uses good c -> c_pending c <> None -> step_ok uses good greeting a c (completed a c).
Proof.
  intros Hok Hn. assert (Hk := Hok). destruct Hk as [_ Hk]. unfold completed.
  destruct (c_pending c) as [op|] eqn:Hp; [|done]. destruct Hk as [Hu _].
  destruct op as [| | |size|]; try done.
  - apply (greeting_step uses good greeting finish); auto using local_finish_ends.
  - apply (plain_read_step uses good greeting finish); auto using local_finish_ok.
  - apply (write_step uses good greeting finish); auto using local_finish_ends.
Qed.

Lemma local_aborted n c op :
  connection_ok uses good c -> c_pending c = Some op ->
  let c' := completed (mk_answer operation_aborted n) c in c_pending c' = None /\ c_results c' = [success].
Proof.
  intros [_ Hc] Hp. rewrite Hp in Hc. destruct Hc as (Hu & Hr & Hf). unfold completed. rewrite Hp.
  destruct op; try done; unfold greeting_written, read_done, written, finish; simpl; simpl; by rewrite Hr.
Qed.

#[export] Instance service : EchoService.
Proof.
  refine {| es_greeting := greeting; es_uses := uses; es_good := good; es_run := session; es_completed := completed |}.
  - intros info input. split; [split; [apply empty_buffer_size | done] | by right].
  - intros a c Hc. unfold completed. by rewrite Hc.
  - apply local_aborted.
  - apply local_completed_step.
Defined.
End LocalEcho.
