(* ===== verification/TlsEcho.v ===== *)
(** * The TLS echo service

    [TlsEchoConnection] of src/examples/TlsEcho/src/main.cpp.  The socket's bytes are
    those of the application, inside the TLS stream. *)

From S2P Require Import Prelude Errors Status Endpoint EchoStream.

Definition greeting : bytes := String.list_byte_of_string ("Hello! I'm a TLS echo server." +:+ newline).

Section TlsEcho.
Context (message : error_code -> string).

Definition complete (ec : error_code) (c : connection) : connection :=
  if c_finished c then c
  else
    let c := set_finished c in
    let c := print ("TLS client " +:+ client (c_info c) +:+ " disconnected" +:+
               if failed ec && negb (ec_eqb ec operation_aborted) && negb (ec_eqb ec stream_truncated)
               then ": " +:+ message ec else "") c in
    let ec := if ec_eqb ec operation_aborted || ec_eqb ec stream_truncated then success else ec in
    call_handler ec c.

Definition writeGreeting (c : connection) : connection := start OGreeting c.

Definition read (c : connection) : connection := start ORead c.

Definition write (size : nat) (c : connection) : connection := start (OWrite size) c.

Definition shutdown (c : connection) : connection := start OShutdown c.

Definition run (c : connection) : connection :=
  start OHandshake
    (print ("TLS client " +:+ client (c_info c) +:+ " connected (" +:+ info_remote_endpoint (c_info c) +:+ ")") c).

(** The completion handlers of the operations. *)
Definition handshake_done (ec : error_code) (c : connection) : connection :=
  if failed ec then complete ec c else writeGreeting c.

Definition greeting_written (ec : error_code) (c : connection) : connection :=
  if failed ec then complete ec c else read c.

Definition read_done (ec : error_code) (size : nat) (c : connection) : connection :=
  if ec_eqb ec eof then shutdown c
  else if failed ec then complete ec c
  else write size c.

Definition written (ec : error_code) (c : connection) : connection :=
  if failed ec then complete ec c else read c.

Definition shutdown_done (c : connection) : connection := complete success c.

(** [TlsEcho::operator()]. *)
Definition session (info : connection_info) (input : bytes) : connection := run (new_connection info input).

Definition completed (a : answer) (c : connection) : connection :=
  match c_pending c with
  | None => c
  | Some OHandshake => handshake_done (a_ec a) (idle c)
  | Some OGreeting => greeting_written (a_ec a) (sent a greeting (idle c))
  | Some ORead => let '(size, c) := received a (idle c) in read_done (a_ec a) size c
  | Some (OWrite size) => written (a_ec a) (sent a (front size c) (idle c))
  | Some OShutdown => shutdown_done (idle c)
  end.

(** The results the session may end with. *)
Definition good (r : error_code) : bool := negb (ec_eqb r operation_aborted) && negb (ec_eqb r stream_truncated).

Definition uses (op : operation) : bool := true.

(** The result that [complete] hands over. *)
Definition result (ec : error_code) : error_code :=
  if ec_eqb ec operation_aborted || ec_eqb ec stream_truncated then success else ec.

Lemma tls_complete_ok ec c :
  c_pending c = None -> c_results c = [] -> c_finished c = false -> closed_by (result ec) c (complete ec c).
Proof. intros Hp Hr Hf. unfold closed_by, complete. rewrite Hf. simpl. by rewrite Hr. Qed.

Lemma result_good ec : good (result ec) = true.
Proof.
  unfold good, result. destruct (ec_eqb ec operation_aborted) eqn:H1; [done|].
  destruct (ec_eqb ec stream_truncated) eqn:H2; [done|]. simpl. by rewrite H1, H2.
Qed.

Lemma tls_complete_ends ec c :
  c_pending c = None -> c_results c = [] -> c_finished c = false ->
  exists r, good r = true /\ closed_by r c (complete ec c).
Proof. intros. exists (result ec). auto using tls_complete_ok, result_good. Qed.

Lemma tls_completed_step a c :
  connection_ok uses good c -> c_pending c <> None -> step_ok uses good greeting a c (completed a c).
Proof.
  intros Hok Hn. assert (Hk := Hok). destruct Hk as [Hb Hk]. unfold completed.
  destruct (c_pending c) as [op|] eqn:Hp; [|done]. destruct Hk as (Hu & Hr & Hf).
  destruct op as [| | |size|]; try done.
  - apply (handshake_step uses good greeting complete); auto using tls_complete_ends.
  - apply (greeting_step uses good greeting complete); auto using tls_complete_ends.
  - unfold read_done. destruct (ec_eqb (a_ec a) eof) eqn:He.
    + apply ec_eqb_eq in He. rewrite received_none by (by rewrite He).
      apply read_failed_step; [done | by rewrite He | done | done | by right].
    + destruct (failed (a_ec a)) eqn:Hfa; [|by apply read_step]. rewrite received_none by done.
      assert (H := tls_complete_ok (a_ec a) (idle c) eq_refl Hr Hf). apply ec_eqb_neq in He.
      apply read_failed_step; [done | done | by eapply closed_ok; [|apply result_good|apply H] | apply H | left; split; [apply H | done]].
  - apply (write_step uses good greeting complete); auto using tls_complete_ends.
  - unfold shutdown_done. assert (H := tls_complete_ok success (idle c) eq_refl Hr Hf).
    split; [by eapply closed_ok; [|apply result_good|apply H]|]. split; [apply shutdown_move; [done | apply H | apply H]|]. intros _ _. apply H.
Qed.

Lemma tls_aborted n c op :
  connection_ok uses good c -> c_pending c = Some op ->
  let c' := completed (mk_answer operation_aborted n) c in c_pending c' = None /\ c_results c' = [success].
Proof.
  intros [_ Hc] Hp. rewrite Hp in Hc. destruct Hc as (Hu & Hr & Hf). unfold completed. rewrite Hp.
  destruct op; try done; unfold greeting_written, read_done, written, handshake_done, shutdown_done, complete; simpl; rewrite Hf; simpl; by rewrite Hr.
Qed.

#[export] Instance service : EchoService.
Proof.
  refine {| es_greeting := greeting; es_uses := uses; es_good := good; es_run := session; es_completed := completed |}.
  - intros info input. split; [split; [apply empty_buffer_size | done] | by left].
  - intros a c Hc. unfold completed. by rewrite Hc.
  - apply tls_aborted.
  - apply tls_completed_step.
Defined.
End TlsEcho.
