(* ===== verification/Coroutine.v ===== *)
(** * Coroutines

    The bodies that [yield_session] and [awaitable_session] run, and the control
    coroutines of the examples: programs that act on their state [S] and suspend in an
    asynchronous operation ([yield[ec]], [co_await]).  [R] is what an operation
    completes with.  A [for (;;)] is [CIter].

    [advance] runs a coroutine to its next suspension.  Its fuel bounds the actions
    between two suspensions; the theorems about a coroutine show that its fuel
    suffices. *)

From S2P Require Import Prelude.

Inductive coro (S Op R : Type) : Type -> Type :=
| CRet {A} (a : A) : coro S Op R A
| CLocal (f : S -> S) : coro S Op R unit
| CAwait (op : Op) : coro S Op R R
| CBind {A B} (p : coro S Op R A) (k : A -> coro S Op R B) : coro S Op R B
| CIter {A B} (body : A -> coro S Op R (A + B)) (a : A) : coro S Op R B.
Arguments CRet {S Op R A}.
Arguments CLocal {S Op R}.
Arguments CAwait {S Op R}.
Arguments CBind {S Op R A B}.
Arguments CIter {S Op R A B}.

Declare Scope coro_scope.
Delimit Scope coro_scope with coro.
Bind Scope coro_scope with coro.

Notation "x <- m ;; k" := (CBind m (fun x => k))
  (at level 100, m at next level, right associativity) : coro_scope.
Notation "m ;; k" := (CBind m (fun _ => k))
  (at level 100, right associativity) : coro_scope.

Section Run.
Context {S Op R : Type}.

Inductive move (A : Type) :=
| Returned (a : A)
| Suspended (op : Op) (k : R -> coro S Op R A)
| Moved (p : coro S Op R A) (s : S).
Arguments Returned {A}.
Arguments Suspended {A}.
Arguments Moved {A}.

Fixpoint step {A} (p : coro S Op R A) (s : S) : move A :=
  match p with
  | CRet a => Returned a
  | CLocal f => Moved (CRet tt) (f s)
  | CAwait op => Suspended op CRet
  | CBind p k =>
    match step p s with
    | Returned a => Moved (k a) s
    | Suspended op k' => Suspended op (fun r => CBind (k' r) k)
    | Moved p' s' => Moved (CBind p' k) s'
    end
  | CIter body a =>
    Moved (CBind (body a) (fun r => match r with
                                    | inl a' => CIter body a'
                                    | inr b => CRet b
                                    end)) s
  end.

(** Where a coroutine is: it ended, or waits for [op] with the rest to run. *)
Inductive point := Ended | Awaiting (op : Op) (k : R -> coro S Op R unit).

Fixpoint advance (fuel : nat) (p : coro S Op R unit) (s : S) : option (point * S) :=
  match fuel with
  | O => None
  | Datatypes.S fuel =>
    match step p s with
    | Returned _ => Some (Ended, s)
    | Suspended op k => Some (Awaiting op k, s)
    | Moved p s => advance fuel p s
    end
  end.
End Run.
Arguments point : clear implicits.
