(* ===== verification/YieldEcho.v ===== *)
(** * The stackful coroutine echo service

    [YieldEcho] of src/examples/YieldEcho/src/main.cpp as a coroutine, and its
    equivalence with the callback service.  When the function returns, the session's
    completion handler gets the error that stands for no exception. *)

From S2P Require Import Prelude Errors Status Endpoint EchoStream CallbackEcho Coroutine.

Local Open Scope coro_scope.

(** The coroutine of a connection: it suspends in the operations of EchoStream.v and
    is resumed with an error code and a size. *)
Definition echo_coroutine : Type := coro connection operation (error_code * nat) unit.

(** The connection and where its coroutine is; [None]: out of fuel. *)
Definition coroutine_state : Type := option (point connection operation (error_code * nat) * connection).

Definition fuel : nat := 16.

(** The coroutine runs to its next operation, which starts, or to its end, and the
    adapter calls the session's handler. *)
Definition settle (r : coroutine_state) : coroutine_state :=
  match r with
  | Some (Awaiting op k, c) => Some (Awaiting op k, start op c)
  | Some (Ended, c) => Some (Ended, call_handler (exception_to_error None) c)
  | None => None
  end.

Definition spawn (p : echo_coroutine) (c : connection) : coroutine_state := settle (advance fuel p c).

(** The pending operation completes and the coroutine resumes. *)
Definition resume (a : answer) (r : coroutine_state) : coroutine_state :=
  match r with
  | Some (Awaiting op k, c) =>
    let c := idle c in
    let '(size, c) := match op with
                      | OGreeting => (length greeting, sent a greeting c)
                      | OWrite size => (size, sent a (front size c) c)
                      | ORead => received a c
                      | _ => (0, c)
                      end in
    settle (advance fuel (k (a_ec a, size)) c)
  | _ => r
  end.

Section YieldEcho.
Context (message : error_code -> string).

Definition logConnection (action : string) (ec : error_code) : echo_coroutine :=
  CLocal (fun c =>
    print ("Client " +:+ client (c_info c) +:+ " " +:+ action +:+ with_endpoint (c_info c) +:+
           if failed ec && negb (ec_eqb ec eof) && negb (ec_eqb ec connection_reset) &&
              negb (ec_eqb ec operation_aborted)
           then ": " +:+ message ec else "") c).

(** [YieldEcho::operator()]: [ec] is the state of the loop. *)
Definition YieldEcho : echo_coroutine :=
  logConnection "connected" success;;
  greeted <- CAwait OGreeting;;
  ec <- CIter (fun ec : error_code =>
    if failed ec then CRet (inr ec)
    else
      r <- CAwait ORead;;
      let '(ec, size) := r in
      if failed ec then CRet (inr ec)
      else
        r <- CAwait (OWrite size);;
        let '(ec, _) := r in
        if failed ec then CRet (inr ec) else CRet (inl ec)) (fst greeted);;
  logConnection "disconnected" ec.

Definition session (info : connection_info) (input : bytes) : coroutine_state :=
  spawn YieldEcho (new_connection info input).

(** ** Equivalence with the callback service *)

(** The rest of the coroutine after each of its operations. *)
Definition loop_body : error_code -> coro connection operation (error_code * nat) (error_code + error_code) :=
  fun ec =>
    if failed ec then CRet (inr ec)
    else
      r <- CAwait ORead;;
      let '(ec, size) := r in
      if failed ec then CRet (inr ec)
      else
        r <- CAwait (OWrite size);;
        let '(ec, _) := r in
        if failed ec then CRet (inr ec) else CRet (inl ec).

Definition rest (op : operation) (r : error_code * nat) : echo_coroutine :=
  match op with
  | OGreeting =>
    CBind (CRet r) (fun greeted => ec <- CIter loop_body (fst greeted);; logConnection "disconnected" ec)
  | ORead =>
    CBind (CBind (CBind (CRet r) (fun r => let '(ec, size) := r in
                    if failed ec then CRet (inr ec)
                    else r <- CAwait (OWrite size);; let '(ec, _) := r in
                         if failed ec then CRet (inr ec) else CRet (inl ec)))
                 (fun r => match r with inl ec => CIter loop_body ec | inr ec => CRet ec end))
          (fun ec => logConnection "disconnected" ec)
  | _ =>
    CBind (CBind (CBind (CRet r) (fun r => let '(ec, _) := r in
                    if failed ec then CRet (inr ec) else CRet (inl ec)))
                 (fun r => match r with inl ec => CIter loop_body ec | inr ec => CRet ec end))
          (fun ec => logConnection "disconnected" ec)
  end.

Definition matches (r : coroutine_state) (c : connection) : Prop :=
  match c_pending c with
  | Some op => uses op = true /\ r = Some (Awaiting op (rest op), c)
  | None => r = Some (Ended, c)
  end.

Lemma append_empty (s : string) : s +:+ "" = s.
Proof. induction s as [|a s IH]; [done|]. change (String a (s +:+ "") = String a s). by rewrite IH. Qed.

Lemma session_matches info input : matches (session info input) (CallbackEcho.session info input).
Proof.
  unfold matches, session, spawn, CallbackEcho.session, run, CallbackEcho.logConnection. simpl.
  split; [done|]. by rewrite append_empty.
Qed.

(** Run the coroutine when the outcome of its operation is known. *)
Ltac run_coroutine Hf := repeat (progress (simpl; unfold loop_body at 1; simpl); rewrite ?Hf); simpl; rewrite ?Hf; simpl.

Lemma resume_matches a r c : matches r c -> matches (resume a r) (completed message a c).
Proof.
  unfold matches at 1. destruct (c_pending c) as [op|] eqn:Hp; [|intros ->].
  - intros [Hu ->]. unfold resume, completed. rewrite Hp. destruct op as [| | |size|]; try done.
    + unfold greeting_written, complete. destruct (failed (a_ec a)) eqn:Hf; by run_coroutine Hf.
    + unfold received, read_done, complete.
      destruct (read_some a (c_socket c) (c_buffer c)) as [[size sk] buffer] eqn:Hr. simpl. rewrite Hr.
      destruct (failed (a_ec a)) eqn:Hf; by run_coroutine Hf.
    + unfold written, complete. destruct (failed (a_ec a)) eqn:Hf; by run_coroutine Hf.
  - unfold completed, matches. by rewrite Hp, Hp.
Qed.

(** The coroutine after the completions [l]. *)
Definition after (l : list answer) (info : connection_info) (input : bytes) : coroutine_state :=
  foldl (fun r a => resume a r) (session info input) l.

Lemma after_matches l info input :
  matches (after l info input) (EchoStream.after (service := CallbackEcho.service message) l info input).
Proof.
  induction l as [|a l IH] using rev_ind; [apply session_matches|].
  unfold after. rewrite foldl_app, after_snoc. by apply resume_matches.
Qed.
End YieldEcho.
