(* ===== verification/CoroutineEcho.v ===== *)
(** * The stackless coroutine echo service

    [AwaitableEcho] of src/examples/CoroutineEcho/src/main.cpp: its operations complete
    through [redirect_error(use_awaitable, ec)]. *)

From S2P Require Import Prelude Errors Status Endpoint EchoStream CallbackEcho Coroutine YieldEcho.

Local Open Scope coro_scope.

Section CoroutineEcho.
Context (message : error_code -> string).

Definition logConnection (action : string) (ec : error_code) : echo_coroutine :=
  CLocal (fun c =>
    print ("Client " +:+ client (c_info c) +:+ " " +:+ action +:+ with_endpoint (c_info c) +:+
           if failed ec && negb (ec_eqb ec eof) && negb (ec_eqb ec connection_reset) &&
              negb (ec_eqb ec operation_aborted)
           then ": " +:+ message ec else "") c).

(** [AwaitableEcho::operator()]: [ec] is the state of the loop. *)
Definition AwaitableEcho : echo_coroutine :=
  logConnection "connected" success;;
  greeted <- CAwait OGreeting;;
  ec <- CIter (fun ec : error_code =>
    if failed ec then CRet (inr ec)
    else
      r <- CAwait ORead;;
      let '(ec, size) := r in
      if failed ec then CRet (inr ec)
      else
        r <- CAwait (OWrite size);;
        let '(ec, _) := r in
        if failed ec then CRet (inr ec) else CRet (inl ec)) (fst greeted);;
  logConnection "disconnected" ec.

Definition session (info : connection_info) (input : bytes) : coroutine_state :=
  spawn AwaitableEcho (new_connection info input).

Definition after (l : list answer) (info : connection_info) (input : bytes) : coroutine_state :=
  foldl (fun r a => resume a r) (session info input) l.
End CoroutineEcho.
