(* ===== verification/EchoTheorems.v ===== *)
(** * The stream echo services

    What the callback, local, TLS and coroutine services of the examples guarantee. *)

From S2P Require Import CallbackEcho LocalEcho TlsEcho YieldEcho CoroutineEcho.
From S2P Require Import Prelude Errors Status Coroutine EchoStream.

(** C30: an echo service sends its peer nothing but the greeting and the bytes it read,
    unaltered and in order, whatever the peer and the kernel do (short reads, partial
    writes, errors at any time); whenever it waits for more, all it read was sent
    back; its completion handler is called exactly once, when no operation is pending
    any more, with success by the callback and the local service, and never with
    [operation_aborted] or [stream_truncated] by the TLS service.  Aborting the pending
    operation, which is how a listener stops it, ends the session with success. *)
Theorem stream_services_echo message info input l :
  echoes (service := CallbackEcho.service message) info input l /\
  echoes (service := LocalEcho.service message) info input l /\
  echoes (service := TlsEcho.service message) info input l.
Proof. split_and!; apply service_echoes. Qed.

(** The session of a service ends after a bounded number of completions, with success
    and with all of the peer's data sent back after the greeting. *)
Definition answers_in_full (service : EchoService) (answers : connection -> answer)
    (info : connection_info) (input : bytes) : Prop :=
  let c := serve (service := service) (2 * length input + 4) answers (es_run (EchoService := service) info input) in
  c_pending c = None /\ c_results c = [success] /\
  sk_output (c_socket c) = es_greeting (EchoService := service) ++ input.

(** C31: when nothing fails and the peer ends its side, every stream service sends back
    all of the peer's bytes and ends its session with success, after at most two
    completions per byte and four more, however the reads split the data. *)
Theorem stream_services_answer_in_full message answers info input :
  (forall c, obliging c (answers c)) ->
  answers_in_full (CallbackEcho.service message) answers info input /\
  answers_in_full (LocalEcho.service message) answers info input /\
  answers_in_full (TlsEcho.service message) answers info input.
Proof. intros Ha. split_and!; by apply service_ends. Qed.

(** Reads of at most three bytes. *)
Definition three_bytes (c : connection) : answer :=
  match c_pending c with
  | Some ORead => if decide (sk_input (c_socket c) = []) then mk_answer eof 0 else mk_answer success 3
  | _ => mk_answer success 0
  end.

Definition some_client : connection_info := mk_connection_info 7 "127.0.0.1:54321" "10.0.0.9:50000".

Definition some_input : bytes := String.list_byte_of_string "ping pong".

Lemma stream_services_answer_in_full_witness :
  answers_in_full (CallbackEcho.service (fun _ => "error")) three_bytes some_client some_input /\
  answers_in_full (LocalEcho.service (fun _ => "error")) three_bytes some_client some_input /\
  answers_in_full (TlsEcho.service (fun _ => "error")) three_bytes some_client some_input.
Proof.
  apply (stream_services_answer_in_full (fun _ => "error") three_bytes some_client some_input).
  intros c. unfold obliging, three_bytes. destruct (c_pending c) as [[]|]; try reflexivity.
  destruct (decide (sk_input (c_socket c) = [])); [reflexivity|]. split; [reflexivity | simpl; lia].
Defined.

(** C32: the stackful and the stackless coroutine behave exactly as the callback
    service: after any sequence of completions the three have sent the same bytes,
    wait for the same operation, have printed the same lines and reported the same
    result; a coroutine never runs out of fuel between two operations. *)
Theorem coroutine_services_equal_callback message l info input :
  let c := after (service := CallbackEcho.service message) l info input in
  (exists p, YieldEcho.after message l info input = Some (p, c)) /\
  CoroutineEcho.after message l info input = YieldEcho.after message l info input.
Proof.
  intros c. split; [|reflexivity]. assert (H := YieldEcho.after_matches message l info input).
  fold c in H. unfold YieldEcho.matches in H. destruct (c_pending c); [destruct H as [_ H]|]; eauto.
Qed.

(** A session of the callback service, and one that a reset ends in the middle. *)
Example callback_session_served :
  let c := serve (service := CallbackEcho.service (fun _ => "error")) 9 three_bytes
             (CallbackEcho.session some_client some_input) in
  sk_output (c_socket c) = CallbackEcho.greeting ++ some_input /\ c_results c = [success] /\
  c_log c = ["Client 7 connected (10.0.0.9:50000)"; "Client 7 disconnected (10.0.0.9:50000)"].
Proof. vm_compute. done. Qed.

Example tls_session_reset :
  let c := after (service := TlsEcho.service (fun _ => "Connection reset by peer"))
             [mk_answer success 0; mk_answer success 0; mk_answer success 4; mk_answer connection_reset 2]
             some_client some_input in
  sk_output (c_socket c) = TlsEcho.greeting ++ String.list_byte_of_string "pi" /\
  c_results c = [connection_reset] /\
  c_log c = ["TLS client 7 connected (10.0.0.9:50000)"; "TLS client 7 disconnected: Connection reset by peer"].
Proof. vm_compute. done. Qed.
