(* ===== verification/Datagrams.v ===== *)
(** * Echo of datagrams

    What the datagram echo services of src/examples share: the socket, the object of the
    service, the two asynchronous operations, and the reference answer to a sequence of
    completions. *)

From S2P Require Import Prelude Errors Endpoint EchoStream.

(** A datagram and its peer. *)
Record datagram := mk_datagram { d_peer : endpoint; d_data : bytes }.

(** The completion of an operation: an error code and, of a receive, the datagram. *)
Record outcome := mk_outcome { o_ec : error_code; o_datagram : datagram }.

Inductive datagram_operation := OReceive | OSend (size : nat).

(** The object: [m_data], [m_remote], the pending operation, the datagrams sent, the
    calls of the completion handler and what was printed. *)
Record service := mk_service {
  s_buffer : bytes;
  s_remote : endpoint;
  s_pending : option datagram_operation;
  s_sent : list datagram;
  s_results : list error_code;
  s_log : list string }.

Definition new_service : service := mk_service empty_buffer other_endpoint None [] [] [].

Definition begin_op (op : datagram_operation) (s : service) : service :=
  mk_service (s_buffer s) (s_remote s) (Some op) (s_sent s) (s_results s) (s_log s).

Definition end_op (s : service) : service :=
  mk_service (s_buffer s) (s_remote s) None (s_sent s) (s_results s) (s_log s).

Definition hand_over (ec : error_code) (s : service) : service :=
  mk_service (s_buffer s) (s_remote s) (s_pending s) (s_sent s) (s_results s ++ [ec]) (s_log s).

Definition print_line (line : string) (s : service) : service :=
  mk_service (s_buffer s) (s_remote s) (s_pending s) (s_sent s) (s_results s) (s_log s ++ [line]).

(** [async_receive_from]: what does not fit in the buffer is discarded.  The remote
    endpoint is written even if the operation fails. *)
Definition receive_from (o : outcome) (s : service) : nat * service :=
  let data := if failed (o_ec o) then [] else take (length (s_buffer s)) (d_data (o_datagram o)) in
  (length data,
   mk_service (data ++ drop (length data) (s_buffer s)) (d_peer (o_datagram o)) (s_pending s) (s_sent s)
     (s_results s) (s_log s)).

(** [async_send_to(net::buffer(m_data.data(), size), m_remote)]. *)
Definition send_to (o : outcome) (size : nat) (s : service) : service :=
  if failed (o_ec o) then s
  else mk_service (s_buffer s) (s_remote s) (s_pending s)
         (s_sent s ++ [mk_datagram (s_remote s) (take size (s_buffer s))]) (s_results s) (s_log s).

Lemma receive_from_buffer o s :
  length (s_buffer s) = buffer_size -> length (s_buffer (snd (receive_from o s))) = buffer_size.
Proof.
  intros Hb. simpl. rewrite length_app, length_drop, Hb. destruct (failed (o_ec o)); simpl; [lia|].
  rewrite length_take. lia.
Qed.

Lemma receive_from_front o s :
  failed (o_ec o) = false ->
  take (fst (receive_from o s)) (s_buffer (snd (receive_from o s))) = take (length (s_buffer s)) (d_data (o_datagram o)).
Proof. intros Hf. simpl. rewrite Hf. apply take_app_length. Qed.

(** ** The reference

    The outcomes alternate between receives and sends; only [operation_aborted] ends
    the service.  [replies l] are the datagrams to be sent and whether the service
    ended. *)

Definition truncated (d : datagram) : datagram := mk_datagram (d_peer d) (take buffer_size (d_data d)).

Fixpoint replies (to_send : option datagram) (l : list outcome) : list datagram * bool :=
  match l with
  | [] => ([], false)
  | o :: l =>
    if ec_eqb (o_ec o) operation_aborted then ([], true)
    else
      match to_send with
      | None => replies (if failed (o_ec o) then None else Some (truncated (o_datagram o))) l
      | Some d =>
        let '(sent, ended) := replies None l in
        (if failed (o_ec o) then sent else d :: sent, ended)
      end
  end.

(** The datagram a service is about to send. *)
Definition to_send (s : service) : option datagram :=
  match s_pending s with
  | Some (OSend size) => Some (mk_datagram (s_remote s) (take size (s_buffer s)))
  | _ => None
  end.

(** A service: what completes its pending operation. *)
Definition finished_service (s s' : service) : Prop :=
  s_pending s' = None /\ s_sent s' = s_sent s /\ s_results s' = s_results s ++ [success].

Record datagram_service_ok (completed : outcome -> service -> service) : Prop := {
  ds_over o s : s_pending s = None -> completed o s = s;
  ds_buffer o s : length (s_buffer s) = buffer_size -> length (s_buffer (completed o s)) = buffer_size;
  ds_aborted o s : s_pending s <> None -> o_ec o = operation_aborted -> finished_service s (completed o s);
  ds_received o s :
    length (s_buffer s) = buffer_size -> s_pending s = Some OReceive -> o_ec o <> operation_aborted ->
    let s' := completed o s in
    s_pending s' <> None /\ s_sent s' = s_sent s /\ s_results s' = s_results s /\
    to_send s' = if failed (o_ec o) then None else Some (truncated (o_datagram o));
  ds_sent o s d :
    to_send s = Some d -> o_ec o <> operation_aborted ->
    let s' := completed o s in
    s_pending s' = Some OReceive /\ s_sent s' = s_sent s ++ (if failed (o_ec o) then [] else [d]) /\
    s_results s' = s_results s }.

Section Service.
Context (completed : outcome -> service -> service) (ok : datagram_service_ok completed).

Definition all_completed (l : list outcome) (s : service) : service := foldl (fun s o => completed o s) s l.

Lemma all_completed_over l s : s_pending s = None -> all_completed l s = s.
Proof.
  unfold all_completed. induction l as [|o l IH]; intros Hp; simpl; [done|].
  rewrite (ds_over _ ok) by done. by apply IH.
Qed.

Lemma service_replies l s :
  length (s_buffer s) = buffer_size -> s_pending s <> None ->
  let '(sent, ended) := replies (to_send s) l in
  let s' := all_completed l s in
  s_sent s' = s_sent s ++ sent /\ s_results s' = s_results s ++ (if ended then [success] else []) /\
  (s_pending s' = None <-> ended = true).
Proof.
  revert s. induction l as [|o l IH]; intros s Hb Hp.
  { simpl. rewrite !app_nil_r. split_and!; try done; intros; congruence. }
  simpl. assert (Hb' := ds_buffer _ ok o s Hb). destruct (ec_eqb (o_ec o) operation_aborted) eqn:Ha.
  - apply ec_eqb_eq in Ha. destruct (ds_aborted _ ok o s Hp Ha) as (H1 & H2 & H3).
    change (foldl _ _ l) with (all_completed l (completed o s)).
    rewrite all_completed_over, H2, H3, app_nil_r by done. done.
  - apply ec_eqb_neq in Ha. destruct (to_send s) as [d|] eqn:Hd.
    + destruct (ds_sent _ ok o s d Hd Ha) as (H1 & H2 & H3). specialize (IH (completed o s) Hb').
      assert (to_send (completed o s) = None) as Hn by (unfold to_send; by rewrite H1).
      rewrite Hn, H2, H3 in IH. change (foldl _ _ l) with (all_completed l (completed o s)).
      destruct (replies None l) as [sent ended]. destruct IH as (I1 & I2 & I3); [congruence|].
      rewrite I1, I2, <- app_assoc. by destruct (failed (o_ec o)).
    + assert (s_pending s = Some OReceive) as Hr.
      { unfold to_send in Hd. by destruct (s_pending s) as [[]|]. }
      destruct (ds_received _ ok o s Hb Hr Ha) as (H1 & H2 & H3 & H4). specialize (IH (completed o s) Hb' H1).
      rewrite H4, H2, H3 in IH. done.
Qed.
End Service.
