(* ===== verification/UdpEcho.v ===== *)
(** * The UDP echo service

    [UdpEchoOperation] of src/examples/UdpEcho/src/main.cpp. *)

From S2P Require Import Prelude Errors Endpoint EchoStream Datagrams.

Section UdpEcho.
Context (message : error_code -> string).

Definition receive (s : service) : service := begin_op OReceive s.

Definition send (size : nat) (s : service) : service := begin_op (OSend size) s.

Definition finish (s : service) : service := hand_over success s.

(** The completion handlers of the two operations. *)
Definition receive_done (ec : error_code) (size : nat) (s : service) : service :=
  if ec_eqb ec operation_aborted then finish s
  else if failed ec then receive (print_line ("Receive failed: " +:+ message ec) s)
  else
    let s := print_line ("Received " +:+ to_string (N.of_nat size) +:+ " bytes from " +:+
               endpoint_string (s_remote s)) s in
    send size s.

Definition send_done (ec : error_code) (s : service) : service :=
  if ec_eqb ec operation_aborted then finish s
  else
    let s := if failed ec
             then print_line ("Send to " +:+ endpoint_string (s_remote s) +:+ " failed: " +:+ message ec) s
             else s in
    receive s.

Definition run (s : service) : service := receive s.

(** [UdpEcho::operator()]. *)
Definition session : service := run new_service.

(** The pending operation completes. *)
Definition completed (o : outcome) (s : service) : service :=
  match s_pending s with
  | Some OReceive => let '(size, s) := receive_from o (end_op s) in receive_done (o_ec o) size s
  | Some (OSend size) => send_done (o_ec o) (send_to o size (end_op s))
  | None => s
  end.

Lemma udp_completed_ok : datagram_service_ok completed.
Proof.
  split; unfold completed.
  - intros o s Hp. by rewrite Hp.
  - intros o s Hb. destruct (s_pending s) as [[|size]|]; [| |done].
    + assert (H := receive_from_buffer o (end_op s) Hb). destruct (receive_from o (end_op s)) as [size s1].
      unfold receive_done. by repeat case_match.
    + unfold send_done, send_to. by repeat case_match.
  - intros o s Hp Ha. destruct (s_pending s) as [[|size]|]; [| |done]; unfold receive_done, send_done, send_to;
      rewrite Ha; done.
  - intros o s Hb Hp Ha. rewrite Hp. apply ec_eqb_neq in Ha. assert (H := receive_from_front o (end_op s)).
    unfold receive_done. simpl in *. rewrite Ha. destruct (failed (o_ec o)) eqn:Hf; [done|].
    unfold to_send, truncated. simpl. rewrite H, Hb by done. done.
  - intros o s d Hd Ha. unfold to_send in Hd. destruct (s_pending s) as [[|size]|]; try done. injection Hd as <-.
    apply ec_eqb_neq in Ha. unfold send_done, send_to. rewrite Ha.
    destruct (failed (o_ec o)); simpl; by rewrite ?app_nil_r.
Qed.
End UdpEcho.
