(* ===== verification/DatagramTheorems.v ===== *)
(** * The datagram echo services *)

From S2P Require Import UdpEcho LocalDatagramEcho.
From S2P Require Import Prelude Errors Endpoint EchoStream Datagrams.

(** The service has sent the replies of the reference, and called its handler if and
    only if an operation was aborted. *)
Definition answers_datagrams (completed : outcome -> service -> service) (s : service) (l : list outcome) : Prop :=
  let s' := all_completed completed l s in
  s_sent s' = fst (replies None l) /\
  s_results s' = (if snd (replies None l) then [success] else []) /\
  (s_pending s' = None <-> snd (replies None l) = true).

Lemma answers completed l :
  datagram_service_ok completed -> answers_datagrams completed (begin_op OReceive new_service) l.
Proof.
  intros Hok. assert (H := service_replies completed Hok l (begin_op OReceive new_service) empty_buffer_size).
  unfold answers_datagrams. change (to_send _) with (@None datagram) in H.
  destruct (replies None l). by apply H.
Qed.

(** What the reference says: the replies are datagrams that were received, each at
    most once and in order. *)
Lemma replies_received d l :
  fst (replies d l) `sublist_of` option_list d ++ map (fun o => truncated (o_datagram o)) l.
Proof.
  revert d. induction l as [|o l IH]; intros d; [destruct d; simpl; apply sublist_nil_l|]. simpl.
  destruct (ec_eqb (o_ec o) operation_aborted); [apply sublist_nil_l|]. destruct d as [d|]; simpl.
  - specialize (IH None). destruct (replies None l) as [sent ended]. simpl in *.
    destruct (failed (o_ec o)); simpl; [by repeat apply sublist_cons|]. apply sublist_skip. by apply sublist_cons.
  - destruct (failed (o_ec o)); [apply sublist_cons; by apply (IH None) | by apply (IH (Some _))].
Qed.

(** C33: a datagram service sends every datagram it receives back to its sender, with
    the same content up to the 4096 bytes of its buffer, in order of arrival, whatever
    fails: a failed receive or send loses at most that one reply and the service goes
    on.  Only an aborted operation, which is how it is stopped, ends it, and then the
    completion handler is called once, with success.  The replies are a sub-sequence of
    the datagrams that arrived. *)
Theorem datagram_services_echo message l :
  answers_datagrams (UdpEcho.completed message) UdpEcho.session l /\
  answers_datagrams (LocalDatagramEcho.completed message) LocalDatagramEcho.session l /\
  fst (replies None l) `sublist_of` map (fun o => truncated (o_datagram o)) l.
Proof.
  split_and!; [apply answers, UdpEcho.udp_completed_ok | apply answers, LocalDatagramEcho.local_datagram_completed_ok|].
  apply (replies_received None).
Qed.
