(* ===== verification/HttpConnection.v ===== *)
(** * HTTP echo connections

    What [HttpEchoConnection] and [HttpsEchoConnection] (src/examples/HttpEcho and
    HttpsEcho, main.cpp) share: the messages, the deadline timer with the queue of its
    completion handlers, and the events of a connection.

    Beast is not modelled: the completion of [http::async_read] delivers a request,
    that of [http::async_write] a whole response or an error.  A timer whose wait is
    cancelled before it expired queues its handler with [operation_aborted]; once it
    expired, its handler is queued with success and cannot be called back. *)

From S2P Require Import Prelude Errors Status Endpoint.

(** ** Messages *)

Record request := mk_request {
  rq_method : string; rq_target : string; rq_version : nat; rq_keep_alive : bool; rq_body : string }.

Record response := mk_response {
  rs_version : nat;
  rs_result : nat;
  rs_fields : list (string * string);
  rs_keep_alive : bool;
  rs_body : string;
  rs_content_length : option nat }.

(** [request<string_body>{}], [response<string_body>{}]. *)
Definition no_request : request := mk_request "" "" 11 true "".
Definition no_response : response := mk_response 11 200 [] true "" None.

(** [fields::set]: replaces the value of a field. *)
Definition set_field (k v : string) (fields : list (string * string)) : list (string * string) :=
  List.filter (fun p => negb (String.eqb (fst p) k)) fields ++ [(k, v)].

(** ** The deadline *)

(** [t_waiting]: the duration of the pending wait; [t_queue]: the handlers that are
    ready to run, each with its error code. *)
Record timer := mk_timer { t_waiting : option nat; t_queue : list error_code }.

(** [cancel]: the pending wait completes with [operation_aborted]. *)
Definition timer_cancel (t : timer) : timer :=
  match t_waiting t with
  | None => t
  | Some _ => mk_timer None (t_queue t ++ [operation_aborted])
  end.

(** [expires_after], which cancels, and [async_wait]. *)
Definition timer_arm (seconds : nat) (t : timer) : timer :=
  mk_timer (Some seconds) (t_queue (timer_cancel t)).

(** ** Connections *)

Inductive http_operation := HHandshake | HRead | HWrite | HShutdown.

Record parser := mk_parser { p_header_limit : N; p_body_limit : N }.

(** The object.  [h_cancelled]: [cancel] was called on the socket since the pending
    operation started.  [h_requests], [h_responses]: the requests delivered and the
    responses written; [h_results]: the calls of the completion handler. *)
Record connection := mk_connection {
  h_info : connection_info;
  h_deadline : timer;
  h_parser : option parser;
  h_request : request;
  h_response : response;
  h_firstRequest : bool;
  h_finished : bool;
  h_pending : option http_operation;
  h_cancelled : bool;
  h_requests : list request;
  h_responses : list response;
  h_results : list error_code;
  h_log : list string }.

Definition new_connection (info : connection_info) : connection :=
  mk_connection info (mk_timer None []) None no_request no_response true false None false [] [] [] [].

Definition set_deadline (t : timer) (c : connection) : connection :=
  mk_connection (h_info c) t (h_parser c) (h_request c) (h_response c) (h_firstRequest c) (h_finished c)
    (h_pending c) (h_cancelled c) (h_requests c) (h_responses c) (h_results c) (h_log c).

Definition set_parser (p : option parser) (c : connection) : connection :=
  mk_connection (h_info c) (h_deadline c) p (h_request c) (h_response c) (h_firstRequest c) (h_finished c)
    (h_pending c) (h_cancelled c) (h_requests c) (h_responses c) (h_results c) (h_log c).

Definition set_request (r : request) (c : connection) : connection :=
  mk_connection (h_info c) (h_deadline c) (h_parser c) r (h_response c) (h_firstRequest c) (h_finished c)
    (h_pending c) (h_cancelled c) (h_requests c) (h_responses c) (h_results c) (h_log c).

Definition set_response (r : response) (c : connection) : connection :=
  mk_connection (h_info c) (h_deadline c) (h_parser c) (h_request c) r (h_firstRequest c) (h_finished c)
    (h_pending c) (h_cancelled c) (h_requests c) (h_responses c) (h_results c) (h_log c).

Definition not_first (c : connection) : connection :=
  mk_connection (h_info c) (h_deadline c) (h_parser c) (h_request c) (h_response c) false (h_finished c)
    (h_pending c) (h_cancelled c) (h_requests c) (h_responses c) (h_results c) (h_log c).

Definition set_finished (c : connection) : connection :=
  mk_connection (h_info c) (h_deadline c) (h_parser c) (h_request c) (h_response c) (h_firstRequest c) true
    (h_pending c) (h_cancelled c) (h_requests c) (h_responses c) (h_results c) (h_log c).

Definition start (op : http_operation) (c : connection) : connection :=
  mk_connection (h_info c) (h_deadline c) (h_parser c) (h_request c) (h_response c) (h_firstRequest c)
    (h_finished c) (Some op) false (h_requests c) (h_responses c) (h_results c) (h_log c).

Definition idle (c : connection) : connection :=
  mk_connection (h_info c) (h_deadline c) (h_parser c) (h_request c) (h_response c) (h_firstRequest c)
    (h_finished c) None false (h_requests c) (h_responses c) (h_results c) (h_log c).

(** [m_socket.cancel()]: reaches the operation that is pending. *)
Definition socket_cancel (c : connection) : connection :=
  mk_connection (h_info c) (h_deadline c) (h_parser c) (h_request c) (h_response c) (h_firstRequest c)
    (h_finished c) (h_pending c) (match h_pending c with Some _ => true | None => h_cancelled c end)
    (h_requests c) (h_responses c) (h_results c) (h_log c).

Definition call_handler (ec : error_code) (c : connection) : connection :=
  mk_connection (h_info c) (h_deadline c) (h_parser c) (h_request c) (h_response c) (h_firstRequest c)
    (h_finished c) (h_pending c) (h_cancelled c) (h_requests c) (h_responses c) (h_results c ++ [ec]) (h_log c).

Definition print (line : string) (c : connection) : connection :=
  mk_connection (h_info c) (h_deadline c) (h_parser c) (h_request c) (h_response c) (h_firstRequest c)
    (h_finished c) (h_pending c) (h_cancelled c) (h_requests c) (h_responses c) (h_results c) (h_log c ++ [line]).

(** What the peer saw: a request was read, a response was written. *)
Definition record_request (r : request) (c : connection) : connection :=
  mk_connection (h_info c) (h_deadline c) (h_parser c) (h_request c) (h_response c) (h_firstRequest c)
    (h_finished c) (h_pending c) (h_cancelled c) (h_requests c ++ [r]) (h_responses c) (h_results c) (h_log c).

Definition record_response (r : response) (c : connection) : connection :=
  mk_connection (h_info c) (h_deadline c) (h_parser c) (h_request c) (h_response c) (h_firstRequest c)
    (h_finished c) (h_pending c) (h_cancelled c) (h_requests c) (h_responses c ++ [r]) (h_results c) (h_log c).

Definition client (c : connection) : string := to_string (Z.to_N (info_id (h_info c))).

(** ** Events *)

(** How an operation completes: the error code, the request that was read, and whether
    [m_deadline.cancel()] throws when the handler calls it. *)
Record answer := mk_answer { a_ec : error_code; a_request : request; a_cancel_throws : bool }.

Inductive event :=
| EIo (a : answer)            (* the pending operation completes *)
| EExpire                     (* the deadline expires *)
| ETimer (i : nat).           (* a completion handler of the timer runs *)

(** The handler of [m_deadline.async_wait]. *)
Definition deadline_handler (ec : error_code) (c : connection) : connection :=
  if failed ec then c else socket_cancel c.

Definition expire (c : connection) : connection :=
  match t_waiting (h_deadline c) with
  | None => c
  | Some _ => set_deadline (mk_timer None (t_queue (h_deadline c) ++ [success])) c
  end.

Definition run_timer (i : nat) (c : connection) : connection :=
  match t_queue (h_deadline c) !! i with
  | None => c
  | Some ec =>
    deadline_handler ec (set_deadline (mk_timer (t_waiting (h_deadline c)) (remove_at i (t_queue (h_deadline c)))) c)
  end.

Definition step (completed : answer -> connection -> connection) (e : event) (c : connection) : connection :=
  match e with
  | EIo a => completed a c
  | EExpire => expire c
  | ETimer i => run_timer i c
  end.
