(* ===== verification/HttpsEcho.v ===== *)
(** * The HTTPS echo service

    [HttpsEchoConnection] of src/examples/HttpsEcho/src/main.cpp. *)

From S2P Require Import Prelude Errors Status Endpoint HttpConnection.

Definition headerLimit : N := 16 * 1024.
Definition bodyLimit : N := 1024 * 1024.

Definition isExpectedDisconnect (ec : error_code) : bool :=
  ec_eqb ec end_of_stream || ec_eqb ec eof || ec_eqb ec connection_reset || ec_eqb ec operation_aborted ||
  ec_eqb ec stream_truncated.

Definition armDeadline (seconds : nat) (c : connection) : connection :=
  set_deadline (timer_arm seconds (h_deadline c)) c.

(** An exception of [cancel] is swallowed. *)
Definition cancelDeadline (throws : bool) (c : connection) : connection :=
  if throws then c else set_deadline (timer_cancel (h_deadline c)) c.

Section HttpsEcho.
Context (message : error_code -> string).

Definition complete (throws : bool) (ec : error_code) (c : connection) : connection :=
  if h_finished c then c
  else
    let c := set_finished c in
    let c := cancelDeadline throws c in
    let c := print ("HTTPS client " +:+ client c +:+ " disconnected" +:+
               if failed ec && negb (isExpectedDisconnect ec) then ": " +:+ message ec else "") c in
    let ec := if isExpectedDisconnect ec then success else ec in
    call_handler ec c.

Definition read (c : connection) : connection :=
  let c := armDeadline (if h_firstRequest c then 10 else 60) c in
  let c := set_parser (Some (mk_parser headerLimit bodyLimit)) c in
  start HRead c.

Definition shutdown (c : connection) : connection := start HShutdown (armDeadline 10 c).

Definition echo_response (request : request) (response : response) : HttpConnection.response :=
  mk_response (rq_version request) 200
    (set_field "Content-Type" "text/plain" (set_field "Server" "serveza" (rs_fields response)))
    (rq_keep_alive request) (rq_body request) (Some (String.length (rq_body request))).

Definition write (c : connection) : connection :=
  let c := print ("HTTPS client " +:+ client c +:+ ": " +:+ rq_method (h_request c) +:+ " " +:+
             rq_target (h_request c) +:+ ", " +:+
             to_string (N.of_nat (String.length (rq_body (h_request c)))) +:+ " body bytes") c in
  let c := set_response (echo_response (h_request c) (h_response c)) c in
  let c := armDeadline 10 c in
  start HWrite c.

(** The completion handlers of the operations. *)
Definition handshake_done (a : answer) (c : connection) : connection :=
  let c := cancelDeadline (a_cancel_throws a) c in
  if failed (a_ec a) then complete (a_cancel_throws a) (a_ec a) c else read c.

Definition read_done (a : answer) (c : connection) : connection :=
  let c := cancelDeadline (a_cancel_throws a) c in
  if failed (a_ec a) then complete (a_cancel_throws a) (a_ec a) c
  else
    let c := set_request (a_request a) c in
    let c := set_parser None c in
    let c := not_first c in
    write c.

Definition write_done (a : answer) (c : connection) : connection :=
  let c := cancelDeadline (a_cancel_throws a) c in
  if failed (a_ec a) then complete (a_cancel_throws a) (a_ec a) c
  else if negb (rs_keep_alive (h_response c)) then shutdown c
  else
    let c := set_request no_request c in
    let c := set_response no_response c in
    read c.

Definition shutdown_done (a : answer) (c : connection) : connection :=
  let c := cancelDeadline (a_cancel_throws a) c in
  complete (a_cancel_throws a) (a_ec a) c.

Definition run (c : connection) : connection :=
  let c := print ("HTTPS client " +:+ client c +:+ " connected (" +:+ info_remote_endpoint (h_info c) +:+ ")") c in
  start HHandshake (armDeadline 10 c).

(** [HttpsEcho::operator()]. *)
Definition session (info : connection_info) : connection := run (new_connection info).

(** The pending operation completes; a read that succeeds delivers a request, a write
    the response. *)
Definition completed (a : answer) (c : connection) : connection :=
  match h_pending c with
  | Some HHandshake => handshake_done a (idle c)
  | Some HRead =>
    let c := idle c in
    read_done a (if failed (a_ec a) then c else record_request (a_request a) c)
  | Some HWrite =>
    let c := idle c in
    write_done a (if failed (a_ec a) then c else record_response (h_response c) c)
  | Some HShutdown => shutdown_done a (idle c)
  | None => c
  end.
End HttpsEcho.
