(* ===== verification/HttpInvariant.v ===== *)
(** * The invariant of an HTTP echo connection *)

From S2P Require Import HttpEcho HttpsEcho.
From S2P Require Import Prelude Errors Status HttpConnection.

(** The response to a request. *)
Definition reply_to (r : request) : response :=
  mk_response (rq_version r) 200 [("Server", "serveza"); ("Content-Type", "text/plain")]
    (rq_keep_alive r) (rq_body r) (Some (String.length (rq_body r))).

Definition keeps_alive (r : request) : Prop := rq_keep_alive r = true.

(** The time each operation is given: an idle connection may stay for a minute. *)
Definition time_limit (op : http_operation) (c : connection) : nat :=
  match op with
  | HRead => if decide (h_requests c = []) then 10 else 60
  | _ => 10
  end.

(** The pending operation has a limit: it was cancelled, or its deadline is
    armed, or a deadline expired and its handler is queued. *)
Definition guarded (op : http_operation) (c : connection) : Prop :=
  h_cancelled c = true \/ success ∈ t_queue (h_deadline c) \/ t_waiting (h_deadline c) = Some (time_limit op c).

(** Where the exchange of messages is while [op] is pending. *)
Definition exchange (op : http_operation) (c : connection) : Prop :=
  match op with
  | HHandshake => h_requests c = [] /\ h_responses c = [] /\ h_response c = no_response
  | HRead =>
    h_responses c = map reply_to (h_requests c) /\ Forall keeps_alive (h_requests c) /\ h_response c = no_response /\
    h_parser c = Some (mk_parser 16384 1048576)
  | HWrite =>
    h_response c = reply_to (h_request c) /\
    exists before, h_requests c = before ++ [h_request c] /\ h_responses c = map reply_to before /\
      Forall keeps_alive before
  | HShutdown =>
    h_responses c = map reply_to (h_requests c) /\
    exists before r, h_requests c = before ++ [r] /\ Forall keeps_alive before /\ rq_keep_alive r = false
  end.

(** What was exchanged in all: every request but the last was answered and kept the
    connection alive. *)
Definition mirrored (c : connection) : Prop :=
  exists answered pending, h_requests c = answered ++ pending /\ length pending <= 1 /\
    h_responses c = map reply_to answered /\ Forall keeps_alive (removelast (h_requests c)).

Definition inv (good : error_code -> bool) (c : connection) : Prop :=
  match h_pending c with
  | None => h_finished c = true /\ mirrored c /\ exists r, h_results c = [r] /\ good r = true
  | Some op =>
    h_finished c = false /\ h_results c = [] /\ h_firstRequest c = bool_decide (h_requests c = []) /\
    guarded op c /\ exchange op c
  end.

Lemma removelast_last {A} (l : list A) x : removelast (l ++ [x]) = l.
Proof. apply List.removelast_last. Qed.

Lemma forall_removelast {A} (P : A -> Prop) l : Forall P l -> Forall P (removelast l).
Proof.
  destruct l as [|x l _] using rev_ind; [done|]. rewrite removelast_last. by intros [? _]%Forall_app.
Qed.

Lemma exchange_mirrored op c : exchange op c -> mirrored c.
Proof.
  destruct op; simpl.
  - intros (H1 & H2 & _). exists [], []. rewrite H1, H2. split_and!; simpl; auto.
  - intros (H1 & H2 & _). exists (h_requests c), []. rewrite app_nil_r. split_and!; auto using forall_removelast; simpl; lia.
  - intros (_ & before & H1 & H2 & H3). exists before, [h_request c]. rewrite H1, removelast_last.
    split_and!; auto.
  - intros (H1 & before & r & H2 & H3 & _). exists (h_requests c), []. rewrite app_nil_r.
    split_and!; [done | simpl; lia | done |]. by rewrite H2, removelast_last.
Qed.

(** ** Timer events *)

Section Timer.
Context (good : error_code -> bool).

Lemma guarded_expire op c : guarded op c -> guarded op (expire c).
Proof.
  unfold expire, guarded. destruct (t_waiting (h_deadline c)) eqn:Hw; [|by rewrite Hw]. simpl.
  intros [H|[H|H]]; [by left | |]; right; left; rewrite elem_of_app; [by left | right; by apply list_elem_of_singleton].
Qed.

Lemma inv_expire c : inv good c -> inv good (expire c).
Proof.
  unfold inv. assert (h_pending (expire c) = h_pending c) as -> by (unfold expire; by case_match).
  destruct (h_pending c) as [op|].
  - intros (? & ? & ? & ?%guarded_expire & ?).
    unfold expire in *. destruct (t_waiting (h_deadline c)); split_and!; done.
  - unfold expire. by case_match.
Qed.

Lemma inv_run_timer i c : inv good c -> inv good (run_timer i c).
Proof.
  unfold run_timer. destruct (t_queue (h_deadline c) !! i) as [ec|] eqn:Hi; [|done].
  unfold deadline_handler, inv, guarded. destruct (failed ec) eqn:Hf; simpl; destruct (h_pending c) as [op|] eqn:Hp; try done.
  - intros (? & ? & ? & Hg & ?). split_and!; try done.
    destruct Hg as [?|[Hs|?]]; [by left | | by right; right]. right; left.
    apply (elem_of_remove_at _ _ _ _ Hi Hs). intros <-. done.
  - intros (? & ? & ? & Hg & ?). split_and!; try done. by left.
Qed.
End Timer.

(** ** Completions *)

(** A connection between two operations. *)
Definition between (c : connection) : Prop :=
  h_pending c = None /\ h_finished c = false /\ h_results c = [] /\
  h_firstRequest c = bool_decide (h_requests c = []).

(** Arming the deadline and starting an operation. *)
Lemma inv_start good op c t :
  between c -> t_waiting t = Some (time_limit op c) -> exchange op c -> inv good (start op (set_deadline t c)).
Proof. intros (_ & H1 & H2 & H3) Ht He. unfold inv. simpl. split_and!; try done. by right; right. Qed.

Lemma inv_read good c :
  between c -> h_responses c = map reply_to (h_requests c) -> Forall keeps_alive (h_requests c) ->
  h_response c = no_response -> inv good (HttpEcho.read c).
Proof.
  intros Hb H1 H2 H3. apply (inv_start good HRead (set_parser (Some (mk_parser 16384 1048576)) c)); [done | | done].
  destruct Hb as (_ & _ & _ & Hf). simpl. rewrite Hf. by destruct (decide (h_requests c = [])) as [->|?];
    [|rewrite bool_decide_eq_false_2].
Qed.

(** The response is built from the request, on an empty message. *)
Lemma inv_write good c before line :
  between c -> h_response c = no_response -> h_requests c = before ++ [h_request c] ->
  h_responses c = map reply_to before -> Forall keeps_alive before ->
  inv good (start HWrite (HttpEcho.armDeadline 10
    (set_response (HttpEcho.echo_response (h_request c) (h_response c)) (print line c)))).
Proof.
  intros Hb H1 H2 H3 H4.
  apply (inv_start good HWrite (set_response (HttpEcho.echo_response (h_request c) (h_response c)) (print line c)));
    [done | done|]. simpl. rewrite H1. eauto.
Qed.

(** The outcome of [complete]. *)
Lemma inv_complete good c r c' :
  between c -> mirrored c -> good r = true ->
  h_pending c' = None -> h_finished c' = true -> h_requests c' = h_requests c -> h_responses c' = h_responses c ->
  h_results c' = [r] -> inv good c'.
Proof.
  intros _ Hm Hg H1 H2 H3 H4 H5. unfold inv. rewrite H1. split; [done|]. split; [|eauto].
  unfold mirrored in *. by rewrite H3, H4.
Qed.
Lemma cancel_eq throws c : exists t, HttpEcho.cancelDeadline throws c = set_deadline t c.
Proof. destruct throws; [|by eexists]. exists (h_deadline c). by destruct c. Qed.

Lemma response_cancel throws c : h_response (HttpEcho.cancelDeadline throws c) = h_response c.
Proof. by destruct throws. Qed.

(** The completion of an operation of either service, where [complete] ends it. *)
Section Handlers.
Context (good : error_code -> bool) (complete : bool -> error_code -> connection -> connection).
Hypothesis complete_inv : forall throws ec c, between c -> mirrored c -> inv good (complete throws ec c).

Lemma inv_failed op throws ec c :
  between (idle c) -> exchange op c -> inv good (complete throws ec (HttpEcho.cancelDeadline throws (idle c))).
Proof.
  intros Hb He. destruct (cancel_eq throws (idle c)) as [t ->]. apply complete_inv; [done|].
  by apply (exchange_mirrored op).
Qed.

Lemma inv_request throws r line c :
  between (idle c) -> exchange HRead c ->
  inv good
    (let c := HttpEcho.cancelDeadline throws (record_request r (idle c)) in
     let c := not_first (set_parser None (set_request r c)) in
     start HWrite (HttpEcho.armDeadline 10
       (set_response (HttpEcho.echo_response (h_request c) (h_response c)) (print (line c) c)))).
Proof.
  intros (_ & Hf & Hr & _) (H1 & H2 & H3 & _). simpl.
  destruct (cancel_eq throws (record_request r (idle c))) as [t ->].
  apply (inv_write good (not_first (set_parser None (set_request r (set_deadline t (record_request r (idle c))))))
    (h_requests c)); try done.
  unfold between. simpl. rewrite bool_decide_eq_false_2; [done|]. by destruct (h_requests c).
Qed.

(** The response was written: it answers the last request. *)
Lemma exchange_written c t :
  exchange HWrite c ->
  let c' := set_deadline t (record_response (h_response c) (idle c)) in
  h_responses c' = map reply_to (h_requests c') /\
  exists before r, h_requests c' = before ++ [r] /\ Forall keeps_alive before /\
    rq_keep_alive r = rs_keep_alive (h_response c').
Proof.
  intros (H1 & before & H2 & H3 & H4). simpl. rewrite H2, H3, H1, map_app. split; [done|].
  exists before, (h_request c). done.
Qed.

Lemma inv_kept_alive throws c :
  between (idle c) -> exchange HWrite c -> rs_keep_alive (h_response c) = true ->
  inv good (HttpEcho.read (set_response no_response (set_request no_request
    (HttpEcho.cancelDeadline throws (record_response (h_response c) (idle c)))))).
Proof.
  intros Hb He Hk. destruct (cancel_eq throws (record_response (h_response c) (idle c))) as [t ->].
  destruct (exchange_written c t He) as (H1 & before & r & H2 & H3 & H4).
  apply inv_read; [done | done | | done]. simpl in *. rewrite H2. apply Forall_app_2; [done|].
  apply Forall_singleton. unfold keeps_alive. by rewrite H4.
Qed.

Lemma inv_last_answered throws c :
  between (idle c) -> exchange HWrite c ->
  let c' := HttpEcho.cancelDeadline throws (record_response (h_response c) (idle c)) in
  between c' /\ mirrored c' /\ (rs_keep_alive (h_response c) = false -> exchange HShutdown c').
Proof.
  intros Hb He. destruct (cancel_eq throws (record_response (h_response c) (idle c))) as [t ->].
  destruct (exchange_written c t He) as (H1 & before & r & H2 & H3 & H4). split; [done|]. split.
  - exists (h_requests c), []. rewrite app_nil_r. split_and!; [done | simpl; lia | done|].
    simpl in *. by rewrite H2, removelast_last.
  - intros Hk. split; [done|]. exists before, r. split_and!; try done. by rewrite H4.
Qed.
End Handlers.

(** ** The two services *)

Definition http_good (r : error_code) : bool := negb (HttpEcho.isExpectedDisconnect r).
Definition https_good (r : error_code) : bool := negb (HttpsEcho.isExpectedDisconnect r).

Lemma http_result_good ec : http_good (if HttpEcho.isExpectedDisconnect ec then success else ec) = true.
Proof. unfold http_good. destruct (HttpEcho.isExpectedDisconnect ec) eqn:H; [done|]. by rewrite H. Qed.

Lemma https_result_good ec : https_good (if HttpsEcho.isExpectedDisconnect ec then success else ec) = true.
Proof. unfold https_good. destruct (HttpsEcho.isExpectedDisconnect ec) eqn:H; [done|]. by rewrite H. Qed.

Section Services.
Context (message : error_code -> string).

Lemma http_complete throws ec c :
  between c -> mirrored c -> inv http_good (HttpEcho.complete message throws ec c).
Proof.
  intros Hb Hm. eapply inv_complete; [exact Hb | exact Hm | apply (http_result_good ec)|..];
    destruct Hb as (? & Hf & Hr & _); unfold HttpEcho.complete, HttpEcho.cancelDeadline; rewrite Hf;
    destruct throws; simpl; try done; by rewrite Hr.
Qed.

Lemma https_complete throws ec c :
  between c -> mirrored c -> inv https_good (HttpsEcho.complete message throws ec c).
Proof.
  intros Hb Hm. eapply inv_complete; [exact Hb | exact Hm | apply (https_result_good ec)|..];
    destruct Hb as (? & Hf & Hr & _); unfold HttpsEcho.complete, HttpsEcho.cancelDeadline; rewrite Hf;
    destruct throws; simpl; try done; by rewrite Hr.
Qed.

Lemma http_session info : inv http_good (HttpEcho.session info).
Proof. by apply inv_read. Qed.

Lemma https_session info : inv https_good (HttpsEcho.session info).
Proof. by apply (inv_start _ HHandshake (print _ (new_connection info))). Qed.

Lemma http_completed a c : inv http_good c -> inv http_good (HttpEcho.completed message a c).
Proof.
  intros Hi. assert (H := Hi). unfold inv in H. unfold HttpEcho.completed.
  destruct (h_pending c) as [op|] eqn:Hp; [|done]. destruct H as (Hf & Hr & Hfr & _ & He).
  assert (between (idle c)) as Hb by done. destruct op; try done.
  - unfold HttpEcho.read_done. destruct (failed (a_ec a)).
    + by apply (inv_failed _ _ http_complete HRead).
    + by apply (inv_request _ _ _ (fun c => _)).
  - unfold HttpEcho.write_done. destruct (failed (a_ec a)).
    + by apply (inv_failed _ _ http_complete HWrite).
    + rewrite response_cancel. destruct (rs_keep_alive (h_response c)) eqn:Hk; simpl; rewrite Hk.
      * exact (inv_kept_alive _ (a_cancel_throws a) c Hb He Hk).
      * destruct (inv_last_answered (a_cancel_throws a) c Hb He) as (H1 & H2 & _). by apply http_complete.
Qed.

Lemma https_completed a c : inv https_good c -> inv https_good (HttpsEcho.completed message a c).
Proof.
  intros Hi. assert (H := Hi). unfold inv in H. unfold HttpsEcho.completed.
  destruct (h_pending c) as [op|] eqn:Hp; [|done]. destruct H as (Hf & Hr & Hfr & _ & He).
  assert (between (idle c)) as Hb by done. destruct op.
  - unfold HttpsEcho.handshake_done. destruct (failed (a_ec a)).
    + by apply (inv_failed _ _ https_complete HHandshake).
    + destruct (cancel_eq (a_cancel_throws a) (idle c)) as [t Ht].
      change (HttpsEcho.cancelDeadline ?b ?c) with (HttpEcho.cancelDeadline b c). rewrite Ht.
      destruct He as (H1 & H2 & H3). apply inv_read; try done; simpl; by rewrite ?H1, ?H2.
  - unfold HttpsEcho.read_done. destruct (failed (a_ec a)).
    + by apply (inv_failed _ _ https_complete HRead).
    + by apply (inv_request _ _ _ (fun c => _)).
  - unfold HttpsEcho.write_done. destruct (failed (a_ec a)).
    + by apply (inv_failed _ _ https_complete HWrite).
    + change (HttpsEcho.cancelDeadline ?b ?c) with (HttpEcho.cancelDeadline b c).
      rewrite response_cancel. destruct (rs_keep_alive (h_response c)) eqn:Hk; simpl; rewrite Hk.
      * exact (inv_kept_alive _ (a_cancel_throws a) c Hb He Hk).
      * destruct (inv_last_answered (a_cancel_throws a) c Hb He) as (H1 & H2 & H3).
        by apply (inv_start _ HShutdown); [| |apply H3].
  - by apply (inv_failed _ _ https_complete HShutdown).
Qed.
End Services.
