(* ===== verification/HttpTheorems.v ===== *)
(** * The HTTP and HTTPS echo services *)

From S2P Require Import HttpEcho HttpsEcho.
From S2P Require Import Prelude Errors Status HttpConnection HttpInvariant.

(** The connection after some events, in any order. *)
Definition events (completed : answer -> connection -> connection) (l : list event) (c : connection) : connection :=
  foldl (fun c e => step completed e c) c l.

Lemma events_inv good completed l c :
  (forall a c, inv good c -> inv good (completed a c)) -> inv good c -> inv good (events completed l c).
Proof.
  intros Hk. unfold events. revert c. induction l as [|e l IH]; intros c Hi; simpl; [done|]. apply IH.
  destruct e; simpl; [by apply Hk | by apply inv_expire | by apply inv_run_timer].
Qed.

Section Services.
Context (message : error_code -> string) (info : connection_info).

Definition http (l : list event) : connection := events (HttpEcho.completed message) l (HttpEcho.session info).
Definition https (l : list event) : connection := events (HttpsEcho.completed message) l (HttpsEcho.session info).

Lemma http_inv l : inv http_good (http l).
Proof. apply events_inv; [apply http_completed | apply http_session]. Qed.

Lemma https_inv l : inv https_good (https l).
Proof. apply events_inv; [apply https_completed | apply https_session]. Qed.

(** The plain service does not use the operations of TLS. *)
Definition plain (c : connection) : Prop := h_pending c <> Some HHandshake /\ h_pending c <> Some HShutdown.

Lemma http_plain l : plain (http l).
Proof.
  unfold http, events. assert (plain (HttpEcho.session info)) as H by done. revert H.
  generalize (HttpEcho.session info). induction l as [|e l IH]; intros c Hc; simpl; [done|]. apply IH.
  destruct e as [a| |i]; simpl.
  - unfold HttpEcho.completed. destruct (h_pending c) as [[]|] eqn:Hp; try done; unfold plain.
    + unfold HttpEcho.read_done, HttpEcho.complete, HttpEcho.cancelDeadline. by repeat case_match.
    + unfold HttpEcho.write_done, HttpEcho.complete, HttpEcho.cancelDeadline. by repeat case_match.
  - unfold expire. by case_match.
  - unfold run_timer, deadline_handler. by repeat case_match.
Qed.
End Services.

Lemma inv_mirrored good c : inv good c -> mirrored c.
Proof.
  unfold inv. destruct (h_pending c) as [op|].
  - intros (_ & _ & _ & _ & H). by apply (exchange_mirrored op).
  - by intros (_ & H & _).
Qed.

(** C34: the HTTP and the HTTPS service answer the requests of a connection in order,
    each at most once and with its own body, version and keep-alive flag, whatever the
    peer, the kernel and the deadline timer do; at most the last request is left
    without an answer, and none is read after a request that did not keep the
    connection alive. *)
Theorem http_services_mirror message info l :
  mirrored (http message info l) /\ mirrored (https message info l).
Proof. split; eapply inv_mirrored; [apply http_inv | apply https_inv]. Qed.

(** The completion handler was not called while an operation is pending, and once
    afterwards, with a good result. *)
Definition reports_once (good : error_code -> bool) (c : connection) : Prop :=
  match h_pending c with
  | Some _ => h_results c = []
  | None => exists r, h_results c = [r] /\ good r = true
  end.

(** The session of an HTTP or HTTPS connection ends exactly once: while an
    operation is pending its handler was not called, afterwards it was called once;
    it never reports an ordinary disconnection (end of stream, reset, cancellation, and a
    truncated TLS stream) as an error. *)
Theorem http_services_report_once message info l :
  reports_once (fun r => negb (HttpEcho.isExpectedDisconnect r)) (http message info l) /\
  reports_once (fun r => negb (HttpsEcho.isExpectedDisconnect r)) (https message info l).
Proof.
  assert (H1 := http_inv message info l). assert (H2 := https_inv message info l). unfold inv, reports_once in *.
  split; [destruct (h_pending (http message info l)) | destruct (h_pending (https message info l))];
    by destruct_and?.
Qed.

(** ** Stalled peers *)

Definition timer_event (e : event) : bool := match e with EIo _ => false | _ => true end.

(** No event of the timer is left: no wait is pending and no handler is queued. *)
Definition timer_done (c : connection) : Prop := t_waiting (h_deadline c) = None /\ t_queue (h_deadline c) = [].

(** What the timer can still do: a pending wait expires and its handler runs. *)
Definition timer_work (c : connection) : nat :=
  length (t_queue (h_deadline c)) + match t_waiting (h_deadline c) with Some _ => 2 | None => 0 end.

(** While nothing happens but events of the timer, the operation stays pending, every
    event that changes anything leaves less for the timer to do, and when nothing is
    left the operation was cancelled; whenever it completes with [operation_aborted],
    the session ends with success. *)
Definition dropped (completed : answer -> connection -> connection) (c : connection) : Prop :=
  forall l, Forall (fun e => timer_event e = true) l ->
    let c1 := events completed l c in
    h_pending c1 = h_pending c /\
    (forall e, timer_event e = true -> step completed e c1 = c1 \/ timer_work (step completed e c1) < timer_work c1) /\
    (timer_done c1 -> h_cancelled c1 = true) /\
    forall r throws, let c2 := completed (mk_answer operation_aborted r throws) c1 in
      h_pending c2 = None /\ h_results c2 = [success].

Lemma timer_step_pending completed e c : timer_event e = true -> h_pending (step completed e c) = h_pending c.
Proof.
  destruct e as [a| |i]; simpl; [done|..]; intros _; [unfold expire; by case_match|].
  unfold run_timer, deadline_handler. by repeat case_match.
Qed.

Lemma timer_events_pending completed l c :
  Forall (fun e => timer_event e = true) l -> h_pending (events completed l c) = h_pending c.
Proof.
  intros Hl. unfold events. revert c. induction Hl as [|e l He _ IH]; intros c; simpl; [done|].
  rewrite IH. by apply timer_step_pending.
Qed.

Lemma timer_step_work completed e c :
  timer_event e = true -> step completed e c = c \/ timer_work (step completed e c) < timer_work c.
Proof.
  destruct e as [a| |i]; simpl; [done|..]; intros _.
  - unfold expire. destruct (t_waiting (h_deadline c)) eqn:Hw; [right|by left].
    unfold timer_work. rewrite Hw. simpl. rewrite length_app. simpl. lia.
  - unfold run_timer. destruct (t_queue (h_deadline c) !! i) as [ec|] eqn:Hi; [right|by left].
    assert (length (remove_at i (t_queue (h_deadline c))) < length (t_queue (h_deadline c))) as H.
    { apply lookup_lt_Some in Hi. unfold remove_at. rewrite length_app, length_take, length_drop. lia. }
    unfold timer_work, deadline_handler. destruct (failed ec); simpl; lia.
Qed.

Lemma inv_dropped good completed c op :
  (forall a c, inv good c -> inv good (completed a c)) -> inv good c -> h_pending c = Some op ->
  (forall c1, h_pending c1 = Some op -> h_results c1 = [] -> h_finished c1 = false ->
     forall r throws, let c2 := completed (mk_answer operation_aborted r throws) c1 in
       h_pending c2 = None /\ h_results c2 = [success]) ->
  guarded op c /\ dropped completed c.
Proof.
  intros Hk Hi Hp Ha. split; [unfold inv in Hi; rewrite Hp in Hi; apply Hi|]. intros l Hl c1.
  assert (Hp1 := timer_events_pending completed l c Hl). fold c1 in Hp1.
  assert (H1 : inv good c1) by (by apply events_inv). unfold inv in H1. rewrite Hp1, Hp in H1.
  destruct H1 as (Hf & Hr & _ & Hg & _). split_and!; [done | intros e; apply timer_step_work | |].
  - intros [Hw Hq]. destruct Hg as [Hg|[Hg|Hg]]; [done | rewrite Hq in Hg; by apply elem_of_nil in Hg | congruence].
  - apply Ha; congruence.
Qed.

(** C35: a peer that stalls an operation of an HTTP or HTTPS connection loses the
    connection.  While an operation is pending it was cancelled, or a deadline expired
    and its handler is queued, or the deadline is armed with the limit of that
    operation: ten seconds, and a minute for a request after the first.  So as long as
    the operation does not complete, the events of the timer, in whatever order they
    come, run out and have then cancelled it, and when it completes as cancelled the
    session ends with success.  The limit is one of each operation, not of the
    connection, which a peer keeps as long as it is in time. *)
Theorem http_services_drop_stalled message info l op :
  (h_pending (http message info l) = Some op ->
     guarded op (http message info l) /\ dropped (HttpEcho.completed message) (http message info l)) /\
  (h_pending (https message info l) = Some op ->
     guarded op (https message info l) /\ dropped (HttpsEcho.completed message) (https message info l)).
Proof.
  split; intros Hp.
  - destruct (http_plain message info l) as [Hn1 Hn2].
    apply (inv_dropped http_good _ _ op (http_completed message) (http_inv message info l) Hp).
    intros c1 H1 H2 H3 r throws. unfold HttpEcho.completed. rewrite H1.
    destruct op; try congruence; unfold HttpEcho.read_done, HttpEcho.write_done, HttpEcho.complete, HttpEcho.cancelDeadline;
      simpl; destruct throws; simpl; rewrite H3; simpl; by rewrite H2.
  - apply (inv_dropped https_good _ _ op (https_completed message) (https_inv message info l) Hp).
    intros c1 H1 H2 H3 r throws. unfold HttpsEcho.completed. rewrite H1.
    destruct op; unfold HttpsEcho.handshake_done, HttpsEcho.read_done, HttpsEcho.write_done, HttpsEcho.shutdown_done,
      HttpsEcho.complete, HttpsEcho.cancelDeadline;
      simpl; destruct throws; simpl; rewrite H3; simpl; by rewrite H2.
Qed.

Definition http_client : connection_info := mk_connection_info 3 "127.0.0.1:8080" "10.0.0.9:50000".

Definition post (body : string) (keep_alive : bool) : request := mk_request "POST" "/" 11 keep_alive body.

Definition done_ok (r : request) : event := EIo (mk_answer success r false).

Lemma http_services_drop_stalled_witness :
  (guarded HRead (http (fun _ => "error") http_client [done_ok (post "a" true); done_ok no_request]) /\
   dropped (HttpEcho.completed (fun _ => "error"))
     (http (fun _ => "error") http_client [done_ok (post "a" true); done_ok no_request])) /\
  (guarded HWrite (https (fun _ => "error") http_client [done_ok no_request; done_ok (post "a" true)]) /\
   dropped (HttpsEcho.completed (fun _ => "error"))
     (https (fun _ => "error") http_client [done_ok no_request; done_ok (post "a" true)])).
Proof.
  split.
  - apply (http_services_drop_stalled (fun _ => "error") http_client [done_ok (post "a" true); done_ok no_request] HRead).
    reflexivity.
  - apply (http_services_drop_stalled (fun _ => "error") http_client [done_ok no_request; done_ok (post "a" true)] HWrite).
    reflexivity.
Defined.

(** Two requests on one connection. *)
Example http_two_requests :
  let c := http (fun _ => "error") http_client
             [done_ok (post "one" true); done_ok no_request; done_ok (post "two" false); done_ok no_request] in
  map rs_body (h_responses c) = ["one"; "two"] /\ h_results c = [success] /\ t_waiting (h_deadline c) = None.
Proof. vm_compute. done. Qed.

(** A deadline that expires just before its operation completes cancels the next one:
    its handler is queued already, so [cancelDeadline] does not reach it, and it does not
    look which operation is pending.  Here the response to a request that arrived in
    time is cancelled although its own ten seconds have just begun. *)
Example expired_deadline_cancels_next_operation :
  let c := http (fun _ => "error") http_client [EExpire; done_ok (post "a" true); ETimer 0] in
  h_pending c = Some HWrite /\ t_waiting (h_deadline c) = Some 10 /\ h_cancelled c = true /\
  let c' := HttpEcho.completed (fun _ => "error") (mk_answer operation_aborted no_request false) c in
  h_responses c' = [] /\ h_requests c' = [post "a" true] /\ h_results c' = [success].
Proof. vm_compute. done. Qed.
