(* ===== verification/ExampleControl.v ===== *)
(** * The control programs of the examples

    [main] of src/examples/*/src/main.cpp: a server is started, a signal stops it, and
    the program returns when nothing is left to do.  The operations of the server and the
    signal set are pending or done; their completion handlers run on one strand.
    [net::thread_pool::join] returns when no operation is pending.

    The callback examples share one control flow and differ in what they print; YieldEcho
    and CoroutineEcho run it as a coroutine. *)

From S2P Require Import Prelude Errors Coroutine.

Inductive exit_code := EXIT_SUCCESS | EXIT_FAILURE.

(** An asynchronous operation: not begun, pending, or done with its error code. *)
Inductive progress := NotBegun | Pending | Done (ec : error_code).

(** The wait for a signal may be cancelled while it is pending. *)
Inductive signal_wait := NoWait | Waiting | Cancelled | Signalled | Aborted.

(** [result], the operations, the calls of [server.request_stop()], and what was written
    to the standard output and to the standard error. *)
Record control := mk_control {
  k_result : exit_code;
  k_signals : signal_wait;
  k_wait : progress;
  k_start : progress;
  k_stops : nat;
  k_out : list string;
  k_err : list string }.

Definition initial : control := mk_control EXIT_SUCCESS NoWait NotBegun NotBegun 0 [] [].

Definition set_result (r : exit_code) (k : control) : control :=
  mk_control r (k_signals k) (k_wait k) (k_start k) (k_stops k) (k_out k) (k_err k).
Definition set_signals (x : signal_wait) (k : control) : control :=
  mk_control (k_result k) x (k_wait k) (k_start k) (k_stops k) (k_out k) (k_err k).
Definition set_wait (x : progress) (k : control) : control :=
  mk_control (k_result k) (k_signals k) x (k_start k) (k_stops k) (k_out k) (k_err k).
Definition set_start (x : progress) (k : control) : control :=
  mk_control (k_result k) (k_signals k) (k_wait k) x (k_stops k) (k_out k) (k_err k).
Definition request_stop (k : control) : control :=
  mk_control (k_result k) (k_signals k) (k_wait k) (k_start k) (S (k_stops k)) (k_out k) (k_err k).
Definition cout (lines : list string) (k : control) : control :=
  mk_control (k_result k) (k_signals k) (k_wait k) (k_start k) (k_stops k) (k_out k ++ lines) (k_err k).
Definition cerr (line : string) (k : control) : control :=
  mk_control (k_result k) (k_signals k) (k_wait k) (k_start k) (k_stops k) (k_out k) (k_err k ++ [line]).

(** [signals.cancel()]. *)
Definition cancel_signals (k : control) : control :=
  match k_signals k with Waiting => set_signals Cancelled k | _ => k end.

(** What an example prints. *)
Record texts := mk_texts {
  x_stopping : string;              (* a signal arrived *)
  x_stopped_error : string;         (* the wait failed *)
  x_stopped : list string;          (* the wait completed *)
  x_start_failed : string;
  x_running : list string }.        (* the start completed *)

Section Handlers.
Context (message : error_code -> string) (x : texts).

(** The handler of [signals.async_wait]. *)
Definition on_signal (ec : error_code) (k : control) : control :=
  if failed ec then k
  else
    let k := cout [x_stopping x] k in
    request_stop k.

(** The handler of [server.async_wait]. *)
Definition on_wait (ec : error_code) (k : control) : control :=
  let k := if failed ec then set_result EXIT_FAILURE (cerr (x_stopped_error x +:+ message ec) k) else k in
  let k := cout (x_stopped x) k in
  cancel_signals k.

(** The handler of [server.async_start]. *)
Definition on_start (ec : error_code) (k : control) : control :=
  if failed ec then
    let k := cerr (x_start_failed x +:+ message ec) k in
    let k := set_result EXIT_FAILURE k in
    request_stop k
  else cout (x_running x) k.

(** The statements of [main] up to [pool.join()]. *)
Definition main_body : list (control -> control) :=
  [set_signals Waiting; set_wait Pending; set_start Pending].

(** [main] goes on, or a handler runs. *)
Inductive event := EMain | ESignal | ESignalAborted | EWait (ec : error_code) | EStart (ec : error_code).

(** A signal that arrived before the cancellation is delivered after it. *)
Definition signalled (e : event) (k : control) : control :=
  match e, k_signals k with
  | ESignal, (Waiting | Cancelled) => on_signal success (set_signals Signalled k)
  | ESignalAborted, Cancelled => on_signal operation_aborted (set_signals Aborted k)
  | _, _ => k
  end.

(** [rest]: the statements left. *)
Definition step (e : event) (s : list (control -> control) * control) : list (control -> control) * control :=
  let '(rest, k) := s in
  match e with
  | EMain => match rest with [] => s | f :: rest => (rest, f k) end
  | ESignal | ESignalAborted => (rest, signalled e k)
  | EWait ec => match k_wait k with Pending => (rest, on_wait ec (set_wait (Done ec) k)) | _ => s end
  | EStart ec => match k_start k with Pending => (rest, on_start ec (set_start (Done ec) k)) | _ => s end
  end.

Definition callback_main (l : list event) : list (control -> control) * control :=
  foldl (fun s e => step e s) (main_body, initial) l.

(** [pool.join(); return result;].  [join] returns when the pool has nothing left to do:
    the operations of the control are done, and the server, its listeners and its sessions
    have no work, which [server_work] says. *)
Definition is_done (p : progress) : bool := match p with Done _ => true | _ => false end.
Definition signals_done (x : signal_wait) : bool := match x with Signalled | Aborted => true | _ => false end.

Definition returned (server_work : bool) (s : list (control -> control) * control) : option exit_code :=
  let '(rest, k) := s in
  if negb server_work && bool_decide (length rest = 0) && signals_done (k_signals k) && is_done (k_wait k) && is_done (k_start k)
  then Some (k_result k) else None.
End Handlers.

(** ** The coroutine examples *)

Section CoroutineMain.
Context (message : error_code -> string) (x : texts).
Local Open Scope coro_scope.

Inductive server_operation := AStart | AWait.

(** The coroutine that YieldEcho and CoroutineEcho spawn on the control strand. *)
Definition control_coroutine : coro control server_operation error_code unit :=
  ec <- CAwait AStart;;
  (if failed ec then
     CLocal (cerr (x_start_failed x +:+ message ec));;
     CLocal (set_result EXIT_FAILURE);;
     CLocal request_stop
   else CLocal (cout (x_running x)));;
  ec <- CAwait AWait;;
  (if failed ec then
     CLocal (cerr (x_stopped_error x +:+ message ec));;
     CLocal (set_result EXIT_FAILURE)
   else CRet tt);;
  CLocal (cout (x_stopped x));;
  CLocal cancel_signals.

(** The completion handler of [co_spawn] in CoroutineEcho. *)
Definition coroutine_done (ep : exception_ptr) (k : control) : control :=
  match ep with
  | None => k
  | Some (system_error code) => cerr ("Coroutine failed: " +:+ message code) (set_result EXIT_FAILURE k)
  | Some (other_exception what) => cerr ("Coroutine failed: " +:+ what) (set_result EXIT_FAILURE k)
  end.

(** Where [main] and its coroutine are.  [Stuck]: out of fuel. *)
Inductive coroutine_point :=
| NotSpawned
| Posted
| At (p : point control server_operation error_code)
| Stuck.

Record main_state := mk_main { m_begun : bool; m_point : coroutine_point; m_control : control }.

Definition control_fuel : nat := 32.

Definition settle (r : option (point control server_operation error_code * control)) : coroutine_point * control :=
  match r with
  | None => (Stuck, initial)
  | Some (Ended, k) => (At Ended, coroutine_done None k)
  | Some (Awaiting AStart rest, k) => (At (Awaiting AStart rest), set_start Pending k)
  | Some (Awaiting AWait rest, k) => (At (Awaiting AWait rest), set_wait Pending k)
  end.

(** [EMain]: [main] waits for signals, then spawns the coroutine, which then runs to
    its first operation. *)
Definition coroutine_step (e : event) (s : main_state) : main_state :=
  let k := m_control s in
  match e, m_point s with
  | EMain, NotSpawned =>
    if m_begun s then mk_main true Posted k else mk_main true NotSpawned (set_signals Waiting k)
  | EMain, Posted => let '(p, k) := settle (advance control_fuel control_coroutine k) in mk_main true p k
  | (ESignal | ESignalAborted), _ => mk_main (m_begun s) (m_point s) (signalled x e k)
  | EStart ec, At (Awaiting AStart rest) =>
    let '(p, k) := settle (advance control_fuel (rest ec) (set_start (Done ec) k)) in mk_main true p k
  | EWait ec, At (Awaiting AWait rest) =>
    let '(p, k) := settle (advance control_fuel (rest ec) (set_wait (Done ec) k)) in mk_main true p k
  | _, _ => s
  end.

Definition coroutine_main (l : list event) : main_state :=
  foldl (fun s e => coroutine_step e s) (mk_main false NotSpawned initial) l.

Definition coroutine_returned (server_work : bool) (s : main_state) : option exit_code :=
  match m_point s with
  | At Ended => if negb server_work && signals_done (k_signals (m_control s)) then Some (k_result (m_control s)) else None
  | _ => None
  end.
End CoroutineMain.

(** ** What the control guarantees *)

Definition done_failed (p : progress) : bool := match p with Done ec => failed ec | _ => false end.

(** The result reports a failed start or wait; the server is asked to stop by a signal
    and by a failed start, once each; a wait that completed has cancelled the wait for
    signals, so that the program can end. *)
Definition control_ok (k : control) : Prop :=
  k_result k = (if done_failed (k_start k) || done_failed (k_wait k) then EXIT_FAILURE else EXIT_SUCCESS) /\
  k_stops k = (match k_signals k with Signalled => 1 | _ => 0 end) + (if done_failed (k_start k) then 1 else 0) /\
  (is_done (k_wait k) = true -> k_signals k <> Waiting).

Section Proofs.
Context (message : error_code -> string) (x : texts).

Lemma signalled_ok e k : control_ok k -> control_ok (signalled x e k).
Proof.
  unfold control_ok, signalled. destruct e, (k_signals k) eqn:Hs; simpl; rewrite ?Hs; try done;
    intros (H1 & H2 & H3); split_and!; try done; simpl; lia.
Qed.

Lemma signalled_ops e k : k_wait (signalled x e k) = k_wait k /\ k_start (signalled x e k) = k_start k.
Proof. unfold signalled. by destruct e, (k_signals k). Qed.

Lemma on_wait_ok ec k : k_wait k = Pending -> control_ok k -> control_ok (on_wait message x ec (set_wait (Done ec) k)).
Proof.
  intros Hw. unfold control_ok, on_wait, cancel_signals. rewrite Hw. simpl.
  destruct (failed ec) eqn:Hf; simpl; destruct (k_signals k) eqn:Hs; simpl; rewrite ?Hs, ?Hf, ?orb_true_r, ?orb_false_r;
    by intros (H1 & H2 & _).
Qed.

Lemma on_wait_signals ec k : k_signals k <> NoWait -> k_signals (on_wait message x ec k) <> NoWait.
Proof. unfold on_wait, cancel_signals. destruct (failed ec); simpl; by destruct (k_signals k) eqn:Hs; simpl; rewrite ?Hs. Qed.

Lemma on_wait_ops ec k : k_wait (on_wait message x ec k) = k_wait k /\ k_start (on_wait message x ec k) = k_start k.
Proof. unfold on_wait, cancel_signals. by destruct (failed ec); simpl; destruct (k_signals k). Qed.

Lemma on_start_ok ec k : k_start k = Pending -> control_ok k -> control_ok (on_start message x ec (set_start (Done ec) k)).
Proof.
  intros Hw. unfold control_ok, on_start. rewrite Hw. simpl. intros (H1 & H2 & H3).
  destruct (failed ec) eqn:Hf; simpl; rewrite ?Hf; simpl; split_and!; try done; lia.
Qed.

Lemma on_start_ops ec k :
  k_wait (on_start message x ec k) = k_wait k /\ k_start (on_start message x ec k) = k_start k /\
  k_signals (on_start message x ec k) = k_signals k.
Proof. unfold on_start. by destruct (failed ec). Qed.

Lemma signalled_signals e k : k_signals k <> NoWait -> k_signals (signalled x e k) <> NoWait.
Proof. unfold signalled. by destruct e, (k_signals k) eqn:Hs; simpl; rewrite ?Hs. Qed.

(** How far [main] is: [n] statements were executed. *)
Definition begun (n : nat) (k : control) : Prop :=
  (if decide (n < 1) then k_signals k = NoWait else k_signals k <> NoWait) /\
  (if decide (n < 2) then k_wait k = NotBegun else k_wait k <> NotBegun) /\
  (if decide (n < 3) then k_start k = NotBegun else k_start k <> NotBegun).

Definition callback_inv (s : list (control -> control) * control) : Prop :=
  control_ok (snd s) /\ exists n, fst s = drop n main_body /\ begun n (snd s).

Lemma signalled_begun e n k : begun n k -> begun n (signalled x e k).
Proof.
  destruct (signalled_ops e k) as [Hw Hs]. unfold begun. rewrite Hw, Hs. intros (H & H2 & H3). split; [|done].
  destruct (decide (n < 1)); [|by apply signalled_signals]. unfold signalled. rewrite H. by destruct e.
Qed.

Lemma callback_step_inv e s : callback_inv s -> callback_inv (step message x e s).
Proof.
  destruct s as [rest k]. intros (Hk & n & Hn & Hb). simpl in *. subst rest.
  destruct e as [| | |ec|ec]; simpl.
  - destruct n as [|[|[|n]]].
    + split; [|exists 1; split; [done|]]; destruct Hb as (H1 & H2 & H3); simpl in *;
        [revert Hk; unfold control_ok; simpl; rewrite H1, H2, H3; by intros (? & ? & _) | by unfold begun; simpl; rewrite H2, H3].
    + split; [|exists 2; split; [done|]]; destruct Hb as (H1 & H2 & H3); simpl in *;
        [revert Hk; unfold control_ok; simpl; rewrite H2; by intros (? & ? & _) | by unfold begun].
    + split; [|exists 3; split; [done|]]; destruct Hb as (H1 & H2 & H3); simpl in *;
        [revert Hk; unfold control_ok; simpl; by rewrite H3 | by unfold begun].
    + simpl. rewrite drop_nil. split; [done|]. exists (S (S (S n))). simpl. by rewrite drop_nil.
  - split; [by apply (signalled_ok ESignal) | exists n; split; [done | by apply (signalled_begun ESignal)]].
  - split; [by apply (signalled_ok ESignalAborted) | exists n; split; [done | by apply (signalled_begun ESignalAborted)]].
  - destruct (k_wait k) eqn:Hw; [by split; eauto | | by split; eauto]. split; [by apply on_wait_ok|].
    exists n. split; [done|]. simpl. destruct Hb as (H1 & H2 & H3). unfold begun.
    destruct (on_wait_ops ec (set_wait (Done ec) k)) as [-> ->]. rewrite Hw in H2.
    destruct (decide (n < 2)); [done|]. split_and!; try done.
    destruct (decide (n < 1)); [lia | by apply on_wait_signals].
  - destruct (k_start k) eqn:Hw; [by split; eauto | | by split; eauto]. split; [by apply on_start_ok|].
    exists n. split; [done|]. simpl. destruct Hb as (H1 & H2 & H3). unfold begun.
    destruct (on_start_ops ec (set_start (Done ec) k)) as (-> & -> & ->). rewrite Hw in H3.
    by destruct (decide (n < 3)).
Qed.

(** When [main] waits in [join] and both operations are done, nothing but the wait for
    a signal can be pending, and it was cancelled. *)
Lemma callback_inv_returns s :
  callback_inv s -> fst s = [] -> is_done (k_start (snd s)) = true -> is_done (k_wait (snd s)) = true ->
  returned false (step message x ESignalAborted s) = Some (k_result (snd s)).
Proof.
  intros [(H1 & H2 & H3) (n & Hn & Hb)] Hr Hs Hw. destruct s as [rest k]. simpl in *. subst rest. destruct Hb as (Hsig & _).
  assert (~ n < 1) as Hn1 by (destruct n as [|[|[|]]]; [done | lia | lia | lia]).
  destruct (decide (n < 1)); [lia|]. specialize (H3 Hw).
  destruct (k_signals k) eqn:Hk; try done; simpl; rewrite ?Hk, ?Hs, ?Hw, Hr; try done.
Qed.

Lemma callback_main_inv l : callback_inv (callback_main message x l).
Proof.
  induction l as [|e l IH] using rev_ind; [by split; [|exists 0]|].
  unfold callback_main. rewrite foldl_app. by apply callback_step_inv.
Qed.

(** *** The coroutine *)

Local Open Scope coro_scope.

Definition wait_rest (r : error_code) : coro control server_operation error_code unit :=
  CBind (CRet r) (fun ec =>
    (if failed ec then
       CLocal (cerr (x_stopped_error x +:+ message ec));;
       CLocal (set_result EXIT_FAILURE)
     else CRet tt);;
    CLocal (cout (x_stopped x));;
    CLocal cancel_signals).

Definition start_rest (r : error_code) : coro control server_operation error_code unit :=
  CBind (CRet r) (fun ec =>
    (if failed ec then
       CLocal (cerr (x_start_failed x +:+ message ec));;
       CLocal (set_result EXIT_FAILURE);;
       CLocal request_stop
     else CLocal (cout (x_running x)));;
    ec <- CAwait AWait;;
    (if failed ec then
       CLocal (cerr (x_stopped_error x +:+ message ec));;
       CLocal (set_result EXIT_FAILURE)
     else CRet tt);;
    CLocal (cout (x_stopped x));;
    CLocal cancel_signals).

(** The coroutine does what the handlers of the callback examples do. *)
Lemma coroutine_begins k :
  settle message (advance control_fuel (control_coroutine message x) k) =
  (At (Awaiting AStart start_rest), set_start Pending k).
Proof. reflexivity. Qed.

Lemma coroutine_started ec k :
  settle message (advance control_fuel (start_rest ec) k) =
  (At (Awaiting AWait wait_rest), set_wait Pending (on_start message x ec k)).
Proof. unfold start_rest, on_start. simpl. by destruct (failed ec). Qed.

Lemma coroutine_waited ec k :
  settle message (advance control_fuel (wait_rest ec) k) = (At Ended, on_wait message x ec k).
Proof. unfold wait_rest, on_wait. simpl. by destruct (failed ec). Qed.

Definition coroutine_inv (s : main_state) : Prop :=
  let k := m_control s in
  control_ok k /\
  match m_point s with
  | NotSpawned => begun (if m_begun s then 1 else 0) k
  | Posted => begun 1 k
  | At (Awaiting AStart rest) =>
    rest = start_rest /\ k_signals k <> NoWait /\ k_start k = Pending /\ k_wait k = NotBegun
  | At (Awaiting AWait rest) =>
    rest = wait_rest /\ k_signals k <> NoWait /\ is_done (k_start k) = true /\ k_wait k = Pending
  | At Ended => k_signals k <> NoWait /\ is_done (k_start k) = true /\ is_done (k_wait k) = true
  | Stuck => False
  end.

Lemma signalled_coroutine e s :
  coroutine_inv s -> coroutine_inv (mk_main (m_begun s) (m_point s) (signalled x e (m_control s))).
Proof.
  intros [Hk Hp]. split; [by apply signalled_ok|]. simpl.
  destruct (signalled_ops e (m_control s)) as [Hw Hs]. assert (Hn := signalled_signals e (m_control s)).
  destruct (m_point s) as [| |[|[|] rest]|]; rewrite ?Hw, ?Hs; try by apply signalled_begun.
  all: destruct_and?; split_and?; auto.
Qed.

Lemma coroutine_step_inv e s : coroutine_inv s -> coroutine_inv (coroutine_step message x e s).
Proof.
  intros Hi. assert (H := Hi). destruct H as [Hk Hp]. unfold coroutine_step.
  destruct e as [| | |ec|ec]; try (by apply (signalled_coroutine _ s)).
  - destruct (m_point s) as [| |p|] eqn:Hm; try done.
    + destruct (m_begun s) eqn:Hb; [by split|]. destruct Hp as (H1 & H2 & H3). simpl in *. split.
      * revert Hk. unfold control_ok. simpl. rewrite H1, H2, H3. by intros (? & ? & _).
      * unfold begun. simpl. by rewrite H2, H3.
    + rewrite coroutine_begins. destruct Hp as (H1 & H2 & H3). simpl in *. split; [|done].
      revert Hk. unfold control_ok. simpl. by rewrite H3.
  - destruct (m_point s) as [| |[|[|] rest]|] eqn:Hm; try done. destruct Hp as (-> & H1 & H2 & H3).
    rewrite coroutine_waited. split; [by apply on_wait_ok|]. simpl.
    destruct (on_wait_ops ec (set_wait (Done ec) (m_control s))) as [-> ->].
    split_and!; [by apply on_wait_signals | done | done].
  - destruct (m_point s) as [| |[|[|] rest]|] eqn:Hm; try done. destruct Hp as (-> & H1 & H2 & H3).
    rewrite coroutine_started. assert (Hok := on_start_ok ec (m_control s) H2 Hk).
    destruct (on_start_ops ec (set_start (Done ec) (m_control s))) as (E1 & E2 & E3). simpl in E1. split; simpl.
    + revert Hok. unfold control_ok. simpl. rewrite E1, H3. by intros (? & ? & _).
    + by rewrite E2, E3.
Qed.

Lemma coroutine_main_inv l : coroutine_inv (coroutine_main message x l).
Proof.
  induction l as [|e l IH] using rev_ind; [done|].
  unfold coroutine_main. rewrite foldl_app. by apply coroutine_step_inv.
Qed.
End Proofs.
