(* ===== verification/ExampleMains.v ===== *)
(** * The main functions of the examples

    Each [main] is the control of ExampleControl.v with its own messages; [l] are the
    events while it runs, and [work] says whether the server still has work when they are
    over.  [None]: it has not returned yet.  The TLS, HTTP and HTTPS
    examples catch an exception of their setup (certificates, the server and its
    listener). *)

From S2P Require Import Prelude Errors Coroutine ExampleControl.

Section Mains.
Context (message : error_code -> string).

Definition CallbackEcho_texts (endpoint : string) : texts :=
  mk_texts "Stopping Serveza callback echo example." "Listener stopped with error: "
    ["Serveza callback echo example stopped."] "Listener start failed: "
    ["Serveza callback echo example is running."; "Listening on tcp://" +:+ endpoint; "I/O worker threads: 4";
     "Connect with: socat STDIO TCP4:localhost:54321"].

Definition CallbackEcho_main (endpoint : string) (work : bool) (l : list event) : option exit_code :=
  returned work (callback_main message (CallbackEcho_texts endpoint) l).

Definition YieldEcho_texts (endpoint : string) : texts :=
  mk_texts "Stopping Serveza yield echo example." "Listener stopped with error: "
    ["Serveza yield echo example stopped."] "Listener start failed: "
    ["Serveza yield echo example is running."; "Listening on tcp://" +:+ endpoint; "I/O worker threads: 4";
     "Connect with: socat STDIO TCP4:localhost:54321"].

Definition YieldEcho_main (endpoint : string) (work : bool) (l : list event) : option exit_code :=
  coroutine_returned work (coroutine_main message (YieldEcho_texts endpoint) l).

Definition CoroutineEcho_texts (endpoint : string) : texts :=
  mk_texts "Stopping Serveza coroutine echo example." "Listener stopped with error: "
    ["Serveza coroutine echo example stopped."] "Listener start failed: "
    ["Serveza coroutine echo example is running."; "Listening on tcp://" +:+ endpoint; "I/O worker threads: 4";
     "Connect with: socat STDIO TCP4:localhost:54321"].

Definition CoroutineEcho_main (endpoint : string) (work : bool) (l : list event) : option exit_code :=
  coroutine_returned work (coroutine_main message (CoroutineEcho_texts endpoint) l).

(** The texts of LocalEcho; the paths are printed as [std::filesystem::path] prints them. *)
Definition LocalEcho_texts (stream datagram streamPath datagramPath : string) : texts :=
  mk_texts "Stopping Serveza local echo example." "Local listeners stopped with error: " []
    "Local listener start failed: "
    ["Local stream endpoint: " +:+ stream; "Local datagram endpoint: " +:+ datagram;
     "Try stream: socat STDIO UNIX-CONNECT:" +:+ streamPath;
     "Try datagram: echo hello | socat - UNIX-SENDTO:" +:+ datagramPath; "I/O worker threads: 4"].

(** The two paths: arguments of the program, or files of the temporary directory. *)
Definition LocalEcho_paths (argv : list string) (temp : string -> string) : string * string :=
  (default (temp "serveza-stream.sock") (argv !! 1), default (temp "serveza-datagram.sock") (argv !! 2)).

(** The exit code, and the files removed: both before the server is made, both again when
    [join] has returned.  [fs::remove] reports errors through its argument, which is
    ignored. *)
Definition LocalEcho_main (argv : list string) (temp quoted : string -> string) (stream datagram : string)
    (work : bool) (l : list event) : option exit_code * list string :=
  let '(streamPath, datagramPath) := LocalEcho_paths argv temp in
  let texts := LocalEcho_texts stream datagram (quoted streamPath) (quoted datagramPath) in
  match returned work (callback_main message texts l) with
  | None => (None, [streamPath; datagramPath])
  | Some result => (Some result, [streamPath; datagramPath] ++ [streamPath; datagramPath])
  end.

Definition UdpEcho_texts (endpoint : string) : texts :=
  mk_texts "Stopping Serveza UDP echo example." "UDP listener stopped with error: " [] "UDP listener start failed: "
    ["Serveza UDP echo is listening on " +:+ endpoint; "Try: echo hello | socat - UDP4:localhost:54321"].

Definition UdpEcho_main (endpoint : string) (work : bool) (l : list event) : option exit_code :=
  returned work (callback_main message (UdpEcho_texts endpoint) l).

Definition TlsEcho_texts (endpoint : string) : texts :=
  mk_texts "Stopping Serveza TLS echo example." "TLS listener stopped with error: " [] "TLS listener start failed: "
    ["Serveza TLS echo is listening on " +:+ endpoint; "I/O worker threads: 4";
     "Connect with: openssl s_client -connect localhost:54321 -quiet"].

Definition TlsEcho_main (setup : exn + string) (work : bool) (l : list event) : option exit_code :=
  match setup with
  | inl _ => Some EXIT_FAILURE
  | inr endpoint => returned work (callback_main message (TlsEcho_texts endpoint) l)
  end.

Definition HttpEcho_texts (endpoint : string) : texts :=
  mk_texts "Stopping Serveza HTTP echo example." "HTTP listener stopped with error: " [] "HTTP listener start failed: "
    ["Serveza HTTP echo is listening on " +:+ endpoint; "I/O worker threads: 4";
     "Try: curl http://localhost:8080/ --data 'Hello World'"].

Definition HttpEcho_main (setup : exn + string) (work : bool) (l : list event) : option exit_code :=
  match setup with
  | inl _ => Some EXIT_FAILURE
  | inr endpoint => returned work (callback_main message (HttpEcho_texts endpoint) l)
  end.

Definition HttpsEcho_texts (endpoint : string) : texts :=
  mk_texts "Stopping Serveza HTTPS echo example." "HTTPS listener stopped with error: " []
    "HTTPS listener start failed: "
    ["Serveza HTTPS echo is listening on " +:+ endpoint; "I/O worker threads: 4";
     "Try: curl --insecure https://localhost:8443/ --data 'Hello World'"].

Definition HttpsEcho_main (setup : exn + string) (work : bool) (l : list event) : option exit_code :=
  match setup with
  | inl _ => Some EXIT_FAILURE
  | inr endpoint => returned work (callback_main message (HttpsEcho_texts endpoint) l)
  end.

(** ** How the examples end *)

(** The callback control: when [main] waits in [join] and both operations are done,
    nothing but the wait for a signal can be pending, and it was cancelled. *)
Lemma callback_returns x l :
  let s := callback_main message x l in
  fst s = [] -> is_done (k_start (snd s)) = true -> is_done (k_wait (snd s)) = true ->
  returned false (step message x ESignalAborted s) = Some (k_result (snd s)).
Proof. apply callback_inv_returns, callback_main_inv. Qed.

(** The same for the coroutine. *)
Lemma coroutine_returns x l :
  let s := coroutine_main message x l in
  is_done (k_start (m_control s)) = true -> is_done (k_wait (m_control s)) = true ->
  coroutine_returned false (coroutine_step message x ESignalAborted s) = Some (k_result (m_control s)).
Proof.
  intros s Hs Hw. destruct (coroutine_main_inv message x l) as [(_ & _ & H3) Hp]. fold s in H3, Hp.
  destruct s as [b p k]. simpl in *. specialize (H3 Hw).
  assert (p = At Ended /\ k_signals k <> NoWait) as [-> Hn].
  { destruct p as [| |[|[|] rest]|]; [| | | | |done].
    - destruct Hp as (_ & H & _). destruct b; simpl in H; by rewrite H in Hw.
    - destruct Hp as (_ & H & _). simpl in H. by rewrite H in Hw.
    - by destruct Hp.
    - destruct Hp as (_ & _ & H & _). by rewrite H in Hs.
    - destruct Hp as (_ & _ & _ & H). by rewrite H in Hw. }
  unfold coroutine_returned. simpl. unfold signalled. by destruct (k_signals k) eqn:Hk; simpl; rewrite ?Hk.
Qed.

(** C36: the control of an example, callback or coroutine, whatever the order of its
    events: the exit code is a failure exactly when the start or the wait completed with
    an error; the server is asked to stop once for a signal and once for a failed start;
    when both operations are done and [main] waits for its threads, the wait for signals
    is over or was cancelled, so that no operation of the control stays pending and
    [main] returns with that exit code once the server has no work left. *)
Theorem examples_end x l :
  let s := callback_main message x l in
  let c := coroutine_main message x l in
  control_ok (snd s) /\ control_ok (m_control c) /\ m_point c <> Stuck /\
  (fst s = [] -> is_done (k_start (snd s)) = true -> is_done (k_wait (snd s)) = true ->
     returned false (step message x ESignalAborted s) = Some (k_result (snd s))) /\
  (is_done (k_start (m_control c)) = true -> is_done (k_wait (m_control c)) = true ->
     coroutine_returned false (coroutine_step message x ESignalAborted c) = Some (k_result (m_control c))).
Proof.
  simpl. destruct (callback_main_inv message x l) as [H1 _], (coroutine_main_inv message x l) as [H2 H3].
  split_and!; [done | done | by intros H; rewrite H in H3 | apply callback_returns | apply coroutine_returns].
Qed.
End Mains.

(** A run that a signal ends, and one whose start fails. *)
Example signal_ends_http :
  HttpEcho_main (fun _ => "error") (inr "127.0.0.1:8080") false
    [EMain; EMain; EMain; EStart success; ESignal; EWait success] = Some EXIT_SUCCESS.
Proof. reflexivity. Qed.

Example local_removes_its_sockets :
  LocalEcho_main (fun _ => "error") ["LocalEcho"; "/run/a.sock"] (String.append "/tmp/") id "/run/a.sock"
    "/tmp/serveza-datagram.sock" false [EMain; EMain; EMain; ESignal; EStart success; EWait success] =
  (Some EXIT_SUCCESS, ["/run/a.sock"; "/tmp/serveza-datagram.sock"; "/run/a.sock"; "/tmp/serveza-datagram.sock"]).
Proof. reflexivity. Qed.

Example failed_start_ends_yield :
  YieldEcho_main (fun _ => "Address already in use") "127.0.0.1:54321" false
    [EMain; EMain; EMain; EStart (system_error_code 98); EWait (system_error_code 98); ESignalAborted] =
  Some EXIT_FAILURE.
Proof. reflexivity. Qed.
