(* ===== verification/StartView.v ===== *)
(** * The starts of sessions, for both listener classes

    When a listener starts a session, and which sessions hold their completion handler.
    [start_view] is the part of a listener's state that concerns both; what the two
    classes share of ListenerBase.v does not touch it.  [sessions_inv] ties the sessions'
    own objects to it. *)

From S2P Require Import Prelude Errors Effect Options Endpoint Status Observers ListenerBase EffectLogic.

Local Open Scope eff_scope.

(** The posted task that starts a session, and the sessions that hold their handler. *)
Class StartView (T X : Type) := {
  start_of : T -> option nat;
  session_flags : X -> list bool }.

Record start_view := mk_start_view { sw_starts : list nat; sw_sessions : list bool }.

Section View.
Context {T X Y : Type} `{StartView T X} (cfg : config).

Definition task_start (t : task T) : option nat := match t with TExt t => start_of t | _ => None end.

(** The sessions whose start is posted. *)
Definition starts (q : list (executor * task T)) : list nat := flat_map (fun x => option_list (task_start (snd x))) q.

Definition view (w : world T X) : start_view := mk_start_view (starts (w_queue w)) (session_flags (w_ext w)).

Lemma starts_app q q' : starts (q ++ q') = starts q ++ starts q'.
Proof. apply flat_map_app. Qed.

Definition no_start (t : task T) : Prop := task_start t = None.

Lemma starts_other ex t : no_start t -> starts [(ex, t)] = [].
Proof. unfold starts, no_start. simpl. by intros ->. Qed.

Lemma starts_remove i q ex t :
  q !! i = Some (ex, t) -> starts q ≡ₚ starts [(ex, t)] ++ starts (remove_at i q).
Proof.
  intros Hi. rewrite <- (take_drop_middle q i _ Hi) at 1. unfold remove_at. rewrite !starts_app.
  change ((ex, t) :: drop (S i) q) with ([(ex, t)] ++ drop (S i) q). rewrite starts_app. solve_Permutation.
Qed.

Lemma starts_remove_other i q ex t : q !! i = Some (ex, t) -> no_start t -> starts (remove_at i q) = starts q.
Proof.
  intros Hi Ht. rewrite <- (take_drop_middle q i _ Hi) at 2. unfold remove_at.
  change ((ex, t) :: drop (S i) q) with ([(ex, t)] ++ drop (S i) q). by rewrite !starts_app, (starts_other _ _ Ht).
Qed.

Context (v : start_view).

Abbreviation vkeeps m := (typed (E := env T Y) (S := world T X) (fun w => view w = v) any m).

Lemma v_modify f : (forall w, view (f w) = view w) -> vkeeps (modify f).
Proof. intros Hf. apply typed_modify. intros w <-. apply Hf. Qed.

Lemma v_post ex t : no_start t -> vkeeps (post ex t).
Proof.
  intros Ht. unfold post. apply (typed_bind _ _ _ any); [apply typed_may_throw | intros _ _].
  apply v_modify. intros w. unfold view. simpl. by rewrite starts_app, starts_other, app_nil_r.
Qed.

Lemma v_set_ext f : (forall x, session_flags (f x) = session_flags x) -> vkeeps (modify (fun w => set_w_ext (f (w_ext w)) w)).
Proof. intros Hf. apply v_modify. intros w. unfold view. simpl. by rewrite Hf. Qed.

(** The leaves: posted tasks, and updates that do not touch the view. *)
Ltac v_auto :=
  typed_auto; first [by apply v_modify | by apply v_post].

Lemma v_complete_on ex h ec : vkeeps (complete_on ex h ec).
Proof. by apply v_post. Qed.

Lemma v_complete_on_associated h ec : vkeeps (complete_on_associated h ec).
Proof. by apply v_post. Qed.

Lemma v_clear_slot op : vkeeps (clear_slot op).
Proof. by apply v_modify. Qed.

Lemma v_emit type info ec ep : vkeeps (emit cfg type info ec ep).
Proof. unfold emit, status, notify, notify_each. v_auto. Qed.

Hint Resolve v_complete_on v_complete_on_associated v_clear_slot v_emit : typed.

Lemma v_transition_to st : vkeeps (transition_to cfg st).
Proof. unfold transition_to. v_auto. Qed.

Lemma v_diagnostics ec ep : vkeeps (record_diagnostic ec ep).
Proof. by apply v_modify. Qed.

Lemma v_clear_diagnostics : vkeeps clear_diagnostics.
Proof. by apply v_modify. Qed.

Lemma v_set_stop_reason r : vkeeps (set_stop_reason r).
Proof. by apply v_modify. Qed.

Lemma v_keep_first_error ec : vkeeps (keep_first_error ec).
Proof. unfold keep_first_error. typed_auto; apply v_modify; intros w; by repeat case_match. Qed.

Lemma v_complete_waiters : vkeeps complete_waiters.
Proof. unfold complete_waiters, complete_waiter. v_auto. Qed.

Lemma v_assign_slot h f : vkeeps (assign_slot h f).
Proof. unfold assign_slot. v_auto. Qed.

Lemma v_fresh_op : vkeeps fresh_op.
Proof. unfold fresh_op. v_auto. Qed.

Hint Resolve v_transition_to v_diagnostics v_clear_diagnostics v_set_stop_reason v_keep_first_error v_complete_waiters
  v_assign_slot v_fresh_op : typed.

Lemma v_run_wait id h : vkeeps (run_wait id h).
Proof. unfold run_wait, state. v_auto. Qed.

Lemma v_cancel_wait id : vkeeps (cancel_wait id).
Proof. unfold cancel_wait. v_auto. Qed.

Lemma v_run_dispatch on h ec : vkeeps (run_dispatch on h ec).
Proof. unfold run_dispatch. v_auto. Qed.

Lemma v_request_stop : vkeeps ListenerBase.request_stop.
Proof. unfold ListenerBase.request_stop, state. v_auto. Qed.

Lemma v_do_async_start ex alloc slot : vkeeps (do_async_start ex alloc slot).
Proof. unfold do_async_start. v_auto. Qed.

Lemma v_do_async_wait ex alloc slot : vkeeps (do_async_wait ex alloc slot).
Proof. unfold do_async_wait. v_auto. Qed.

Lemma v_emit_cancellation op type : vkeeps (emit_cancellation op type).
Proof. unfold emit_cancellation. v_auto. Qed.

Hint Resolve v_run_wait v_cancel_wait v_run_dispatch v_request_stop v_do_async_start v_do_async_wait
  v_emit_cancellation : typed.

End View.

Lemma map_alter {A B} (g : A -> B) (f : A -> A) i l : (forall x, g (f x) = g x) -> map g (alter f i l) = map g l.
Proof.
  intros H. revert i. induction l as [|x l IH]; intros [|i]; simpl; try done; [by rewrite H | exact (f_equal (cons (g x)) (IH i))].
Qed.

Lemma map_alter_const {A B} (g : A -> B) (f : A -> A) b i l :
  (forall x, g (f x) = b) -> map g (alter f i l) = <[i := b]> (map g l).
Proof.
  intros H. revert i. induction l as [|x l IH]; intros [|i]; simpl; try done;
    [by rewrite H | exact (f_equal (cons (g x)) (IH i))].
Qed.

(** ** What changes the view *)

(** A new session, whose start is posted unless that failed. *)
Definition accepted_view (v : start_view) (posted : bool) : start_view :=
  mk_start_view (if posted then sw_starts v ++ [length (sw_sessions v)] else sw_starts v) (sw_sessions v ++ [false]).

Definition after_accept {T X} `{StartView T X} (v : start_view) (w : world T X) : Prop :=
  view w = v \/ exists posted, view w = accepted_view v posted.

(** ** The objects of the sessions *)

(** [busy s]: the session waits for an operation of its own; [good c s]: what the
    session promises. *)
Section Sessions.
Context {S : Type} (busy : S -> Prop) (good : nat -> S -> Prop).

(** The sessions that hold their handler are those with an operation pending; a session
    is started once. *)
Record sessions_inv (v : start_view) (sv : gmap nat S) : Prop := {
  si_nodup : NoDup (sw_starts v);
  si_starts c : c ∈ sw_starts v -> sw_sessions v !! c = Some false /\ sv !! c = None;
  si_flags c b : sw_sessions v !! c = Some b -> (b = true <-> exists s, sv !! c = Some s /\ busy s);
  si_sessions c s : sv !! c = Some s -> c < length (sw_sessions v) /\ good c s }.

Lemma sessions_none : sessions_inv (mk_start_view [] []) ∅.
Proof. split; [constructor | by intros c ?%not_elem_of_nil | by intros c b | by intros c s ?%lookup_empty_Some]. Qed.

(** A new session. *)
Lemma sessions_accepted v sv posted : sessions_inv v sv -> sessions_inv (accepted_view v posted) sv.
Proof.
  intros [H1 H2 H3 H4]. assert (Hnew : sv !! length (sw_sessions v) = None).
  { destruct (sv !! _) as [s|] eqn:Hs; [|done]. apply H4 in Hs as [Hs _]. lia. }
  assert (Hst : forall c, c ∈ sw_starts (accepted_view v posted) -> c ∈ sw_starts v \/ c = length (sw_sessions v)).
  { intros c. destruct posted; simpl; [|by left]. rewrite elem_of_app, list_elem_of_singleton. done. }
  split; simpl.
  - destruct posted; [|done]. apply NoDup_app. split_and!; [done | | apply NoDup_singleton].
    intros c Hc ->%list_elem_of_singleton. apply H2 in Hc as [Hc _]. apply lookup_lt_Some in Hc. lia.
  - intros c Hc. apply Hst in Hc. destruct Hc as [Hc| ->].
    + apply H2 in Hc as [Hc ?]. split; [|done]. by apply lookup_app_l_Some.
    + split; [by rewrite lookup_app_r, Nat.sub_diag by lia | done].
  - intros c b. rewrite lookup_app_Some. intros [Hc|[Hc Hb]]; [by apply H3|].
    destruct (c - _) as [|k] eqn:Hk; [|done]. injection Hb as <-. assert (c = length (sw_sessions v)) as -> by lia.
    split; [done|]. rewrite Hnew. by intros (s & ? & _).
  - intros c s Hs. rewrite length_app. destruct (H4 c s Hs) as [? ?]. split; [lia | done].
Qed.

(** The start of a session. *)
Lemma sessions_started v v' sv c s :
  sessions_inv v sv -> sw_starts v ≡ₚ c :: sw_starts v' -> sw_sessions v' = <[c := true]> (sw_sessions v) ->
  busy s -> good c s -> sessions_inv v' (<[c := s]> sv).
Proof.
  intros [H1 H2 H3 H4] Hq Hs Hb Hg. assert (Hc : c ∈ sw_starts v) by (rewrite Hq; by left).
  destruct (H2 c Hc) as [Hf Hn]. rewrite Hq in H1. apply NoDup_cons in H1 as [Hnin Hnd].
  assert (Hlt := lookup_lt_Some _ _ _ Hf). split; rewrite ?Hs.
  - done.
  - intros c' Hc'. assert (c <> c') by (by intros <-). rewrite list_lookup_insert_ne, lookup_insert_ne by done.
    apply H2. rewrite Hq. by right.
  - intros c' b. destruct (decide (c = c')) as [<-|Hne].
    + rewrite list_lookup_insert_eq, lookup_insert_eq by done. intros [= <-]. split; [eauto | done].
    + rewrite list_lookup_insert_ne, lookup_insert_ne by done. apply H3.
  - intros c' s'. rewrite length_insert. destruct (decide (c = c')) as [<-|Hne].
    + rewrite lookup_insert_eq. by intros [= <-].
    + rewrite lookup_insert_ne by done. apply H4.
Qed.

End Sessions.

Lemma sessions_weaken {S} (busy : S -> Prop) good good' v sv :
  (forall c s, sv !! c = Some s -> good c s -> good' c s) -> sessions_inv busy good v sv -> sessions_inv busy good' v sv.
Proof. intros Hg [H1 H2 H3 H4]. split; try done. intros c s Hs. destruct (H4 c s Hs). auto. Qed.

(** Something happens to a session that is over. *)
Lemma sessions_idle {S} (busy : S -> Prop) good v sv c s s' :
  sessions_inv busy good v sv -> sv !! c = Some s -> ~ busy s -> ~ busy s' -> good c s' ->
  sessions_inv busy good v (<[c := s']> sv).
Proof.
  intros [H1 H2 H3 H4] Hs Hb Hb' Hg. split; try done.
  - intros c' Hc'. destruct (H2 c' Hc') as [Hf Hnone]. rewrite lookup_insert_ne by congruence. done.
  - intros c' b Hl. rewrite (H3 c' b Hl). destruct (decide (c = c')) as [<-|Hne]; [|by rewrite lookup_insert_ne].
    rewrite lookup_insert_eq, Hs. split; by intros (x & [= <-] & ?).
  - intros c' x. destruct (decide (c = c')) as [<-|Hne]; [|rewrite lookup_insert_ne by done; apply H4].
    rewrite lookup_insert_eq. intros [= <-]. split; [|done]. by destruct (H4 c s Hs).
Qed.

(** An operation of a session completes: the session goes on, or it is over and its
    handler was called. *)
Lemma sessions_stepped {S} (busy : S -> Prop) good good' v v' sv c s s' :
  sessions_inv busy good v sv -> sv !! c = Some s -> busy s ->
  good' c s' -> (forall c' x, c <> c' -> good c' x -> good' c' x) -> sw_starts v' = sw_starts v ->
  busy s' /\ sw_sessions v' = sw_sessions v \/ ~ busy s' /\ sw_sessions v' = <[c := false]> (sw_sessions v) ->
  sessions_inv busy good' v' (<[c := s']> sv).
Proof.
  intros [H1 H2 H3 H4] Hs Hb Hg Hgo Hst Hfl. destruct (H4 c s Hs) as [Hlt _]. split; rewrite ?Hst.
  - done.
  - intros c' Hc'. destruct (H2 c' Hc') as [Hf Hnone]. assert (c <> c') by congruence. rewrite lookup_insert_ne by done.
    split; [|done]. destruct Hfl as [[_ ->]|[_ ->]]; [done | by rewrite list_lookup_insert_ne].
  - intros c' b'. destruct (decide (c = c')) as [<-|Hne].
    + rewrite lookup_insert_eq. destruct Hfl as [[Hb' ->]|[Hb' ->]].
      * intros Hl. rewrite (H3 c b' Hl). split; eauto.
      * rewrite list_lookup_insert_eq by done. intros [= <-]. split; [done|]. by intros (x & [= <-] & ?).
    + rewrite lookup_insert_ne by done. intros Hl. apply H3. destruct Hfl as [[_ Hfl]|[_ Hfl]]; rewrite Hfl in Hl; [done|].
      by rewrite list_lookup_insert_ne in Hl.
  - intros c' x. assert (length (sw_sessions v') = length (sw_sessions v)) as ->.
    { destruct Hfl as [[_ ->]|[_ ->]]; [done | apply length_insert]. }
    destruct (decide (c = c')) as [<-|Hne]; [|rewrite lookup_insert_ne by done; intros Hx; destruct (H4 c' x Hx); auto].
    rewrite lookup_insert_eq. by intros [= <-].
Qed.
