(* ===== verification/SessionStarts.v ===== *)
(** * The starts of sessions of an acceptor listener

    Only [accepted] adds a connection to the view, the posted start of a connection takes
    effect once, and the completion of a session resets its flag. *)

From S2P Require Import Prelude Errors Effect Options Endpoint Status Observers ListenerBase.
From S2P Require Import Connection Acceptor EffectLogic StartView.

Local Open Scope eff_scope.

Global Instance acceptor_view : StartView acceptor_task acceptor_state := {
  start_of t := match t with TConnStart c => Some c | _ => None end;
  session_flags a := map cn_session (a_connections a) }.

(** The user's code does not end a session while it starts it, as the examples do. *)
Definition quiet (e : aenv) : Prop := forall c, e_session (e_ext e) c = mk_session_run None None None.

Section View.
Context (cfg : config) (v : start_view).

Abbreviation vkeeps m := (typed (E := aenv) (S := aworld) (fun w => view w = v) any m).

Lemma v_ext f : (forall a, map cn_session (a_connections (f a)) = map cn_session (a_connections a)) -> vkeeps (modify_ext f).
Proof. intros Hf. by apply v_set_ext. Qed.

Lemma v_update c f : (forall x, cn_session (f x) = cn_session x) -> vkeeps (modify_ext (update_connection c f)).
Proof. intros Hf. apply v_ext. intros a. by apply map_alter. Qed.

(** The leaves: posted tasks, and updates that do not touch the view. *)
Ltac v_auto :=
  typed_auto; first [by apply v_modify | by apply v_post | by apply v_ext | by apply v_update].

Hint Resolve v_complete_on v_complete_on_associated v_clear_slot v_emit v_transition_to v_diagnostics
  v_clear_diagnostics v_set_stop_reason v_keep_first_error v_complete_waiters v_assign_slot v_fresh_op v_run_wait
  v_cancel_wait v_run_dispatch v_request_stop v_do_async_start v_do_async_wait v_emit_cancellation : typed.

(** Connections. *)

Lemma v_conn_finish c ec ep : vkeeps (Connection.finish c ec ep).
Proof.
  unfold Connection.finish, get_ext, close_now, session_finished_post. v_auto.
Qed.

Hint Resolve v_conn_finish : typed.

Lemma v_session_handler c ec : vkeeps (session_handler c ec).
Proof. unfold session_handler, get_ext. v_auto. Qed.

Lemma v_force_close c : vkeeps (force_close c).
Proof. unfold force_close. v_auto. Qed.

Hint Resolve v_session_handler v_force_close : typed.

Lemma v_conn_request_stop c : vkeeps (Connection.request_stop c).
Proof. unfold Connection.request_stop. v_auto. Qed.

Lemma v_cancel_io which : vkeeps (modify (cancel_io which)).
Proof.
  apply v_modify. intros w. unfold view. simpl. rewrite starts_app. f_equal.
  rewrite <- (app_nil_r (starts (w_queue w))) at 2. f_equal. induction (List.filter which _) as [|op l IH]; [done|].
  simpl. rewrite IH. by destruct op.
Qed.

Hint Resolve v_conn_request_stop v_cancel_io : typed.

Lemma v_acceptor_close : vkeeps acceptor_close.
Proof. unfold acceptor_close. v_auto. Qed.

Lemma v_acceptor_cancel : vkeeps acceptor_cancel.
Proof. apply v_cancel_io. Qed.

Lemma v_retry_timer_cancel : vkeeps retry_timer_cancel.
Proof. apply v_cancel_io. Qed.

Lemma v_shutdown_timer_cancel : vkeeps shutdown_timer_cancel.
Proof. apply v_cancel_io. Qed.

Hint Resolve v_acceptor_close v_acceptor_cancel v_retry_timer_cancel v_shutdown_timer_cancel : typed.

Lemma v_arm_retry_timer d : vkeeps (arm_retry_timer d).
Proof. unfold arm_retry_timer. v_auto. Qed.

Lemma v_arm_shutdown_timer d : vkeeps (arm_shutdown_timer d).
Proof. unfold arm_shutdown_timer. v_auto. Qed.

Hint Resolve v_arm_retry_timer v_arm_shutdown_timer : typed.

(** The listener. *)

Lemma v_finish ec r : vkeeps (Acceptor.finish cfg ec r).
Proof. unfold Acceptor.finish, state. v_auto. Qed.

Hint Resolve v_finish : typed.

Lemma v_maybe_finish : vkeeps (maybe_finish cfg).
Proof. unfold maybe_finish, state, get_ext, stop_reason. typed_auto. Qed.

Hint Resolve v_maybe_finish : typed.

Lemma v_begin_stop ec r : vkeeps (begin_stop cfg ec r).
Proof. unfold begin_stop, state, get_ext. v_auto. Qed.

Hint Resolve v_begin_stop : typed.

Lemma v_accept_next r : vkeeps (accept_next cfg r).
Proof. unfold accept_next, state, get_ext. v_auto. Qed.

Lemma v_retry_accept ec : vkeeps (retry_accept cfg ec).
Proof. unfold retry_accept, get_ext. v_auto. Qed.

Hint Resolve v_accept_next v_retry_accept : typed.

Lemma v_session_finished info ec ep : vkeeps (session_finished cfg info ec ep).
Proof. unfold session_finished, state, get_ext. v_auto. Qed.

Lemma v_shutdown_deadline ec : vkeeps (shutdown_deadline cfg ec).
Proof. unfold shutdown_deadline, get_ext. typed_auto. Qed.

Lemma v_retry_timer_expired ec : vkeeps (retry_timer_expired cfg ec).
Proof. unfold retry_timer_expired. typed_auto. Qed.

Lemma v_open_acceptor : vkeeps (open_acceptor cfg).
Proof. unfold open_acceptor, acceptor_open, get_ext. v_auto. Qed.

Hint Resolve v_session_finished v_shutdown_deadline v_retry_timer_expired v_open_acceptor : typed.

Lemma v_start_on_strand h : vkeeps (start_on_strand cfg h).
Proof. unfold start_on_strand, state. v_auto. Qed.

Hint Resolve v_start_on_strand : typed.

Lemma v_run_start h : vkeeps (run_start (start_on_strand cfg) h).
Proof. unfold run_start. typed_auto. Qed.

(** Every posted task but an accept and the start of a session keeps the view. *)
Definition keeps_view (t : task acceptor_task) : Prop :=
  match t with TExt (TAccepted _) | TExt (TConnStart _) => False | _ => True end.

Lemma v_run_task t : keeps_view t -> vkeeps (run_task cfg t).
Proof.
  intros Ht. unfold run_task, stop_on_strand, run_force_close, run_request_stop. typed_auto; try done.
  - apply v_run_start.
  - by apply v_update.
Qed.
End View.

Section Changes.
Context (cfg : config).

Lemma view_length w : length (a_connections (w_ext w)) = length (sw_sessions (view w)).
Proof. unfold view. simpl. by rewrite length_map. Qed.

(** The start of the new session is posted, or the connection is closed. *)
Lemma leads_post_start ok X v c :
  c = length (sw_sessions v) -> (forall w posted, view w = accepted_view v posted -> X w) ->
  leads ok X (fun w => view w = accepted_view v false) (fun w => exists posted, view w = accepted_view v posted)
    (try_catch (post (connection_strand c) (TExt (TConnStart c))) (fun _ => force_close c)).
Proof.
  intros -> HX e w _ Hw. unfold try_catch, post, may_throw, bind. simpl. destruct (e_post e _ _) as [x|].
  - assert (H := v_force_close (accepted_view v false) (length (sw_sessions v)) e w Hw).
    destruct (force_close _ e w); [destruct H; eauto | by eapply HX | done].
  - exists true. unfold view in *. simpl in *. injection Hw as Hq Hs. by rewrite starts_app, Hq, Hs.
Qed.

Lemma leads_accepted ok ec v :
  leads ok (after_accept v) (fun w => view w = v) (after_accept v) (accepted cfg ec).
Proof.
  unfold accepted, state, get_ext. assert (HX : forall w, view w = v -> after_accept v w) by (by left).
  assert (HX' : forall w posted, view w = accepted_view v posted -> after_accept v w) by (right; eauto).
  eapply leads_bind_keep; [by apply v_ext | done | intros _ _].
  eapply leads_bind_keep; [apply typed_gets | done | intros st _].
  destruct (negb _); [by eapply leads_keep; [apply v_maybe_finish|..]|].
  destruct (failed ec); [by eapply leads_keep; [apply v_retry_accept|..]|].
  do 2 (eapply leads_bind_keep; [by apply v_ext | done | intros _ _]).
  eapply leads_bind_keep; [apply typed_gets | done | intros id _].
  eapply leads_bind_keep; [apply typed_asks | done | intros local _].
  eapply leads_bind_keep; [apply typed_asks | done | intros remote _].
  eapply leads_bind_keep; [apply typed_asks | done | intros [x|] _].
  { eapply leads_keep; [|done..]. typed_auto; eauto using v_diagnostics, v_emit, v_accept_next. }
  eapply leads_bind_keep; [apply typed_gets | done | intros c (w0 & Hw0 & <-)]. rewrite view_length, Hw0.
  apply (leads_bind _ _ _ (fun w => view w = accepted_view v false)).
  { intros e w _ <-. unfold view, accepted_view. simpl. by rewrite map_app. }
  intros _. eapply leads_bind_keep; [by apply v_ext | eauto | intros _ _].
  eapply leads_bind_keep; [by apply v_modify | eauto | intros _ _].
  eapply leads_bind_keep; [by apply v_emit | eauto | intros _ _].
  eapply leads_bind; [by apply leads_post_start | intros _].
  eapply leads_keep; [|by right | by right]. apply typed_exists. intros posted.
  typed_auto; eauto using v_accept_next.
Qed.

(** The start itself. *)
Lemma start_quiet c e w :
  quiet e -> Connection.start c e w = Ret tt (ext_update (update_connection c (set_cn_session true)) w).
Proof.
  intros Hq. unfold Connection.start, try_catch, async_run, bind, asks. rewrite Hq. reflexivity.
Qed.

(** ** One action *)

(** The connection whose session the action starts. *)
Definition started_by (a : action) (w : aworld) : option nat :=
  match a with
  | ARun i => match w_queue w !! i with Some (_, TExt (TConnStart c)) => Some c | _ => None end
  | _ => None
  end.

Definition of_session (a : action) : bool := match a with ASession _ _ _ => true | _ => false end.

(** How an action ends. *)
Definition ends_in (a : action) (e : aenv) (w w' : aworld) : Prop :=
  exec cfg a e w = Ret tt w' \/ exists x, exec cfg a e w = Throw x w'.

Lemma typed_ends (P : aworld -> Prop) a e w w' : typed P any (exec cfg a) -> P w -> ends_in a e w w' -> P w'.
Proof. intros Ha Hw. specialize (Ha e w Hw). intros [H|[x H]]; rewrite H in Ha; [by destruct Ha | done]. Qed.

Lemma v_exec_other v a : of_session a = false -> (forall i, a <> ARun i) -> typed (fun w => view w = v) any (exec cfg a).
Proof.
  intros Hs Hr. unfold exec, complete_io, update_registry, get_ext. destruct a; try done; try congruence;
    eauto using v_do_async_start, v_do_async_wait, v_request_stop, v_emit_cancellation; try (by apply v_modify).
  typed_auto; [by apply v_ext|]. apply v_modify. intros w. unfold view. simpl.
  rewrite starts_app, starts_other, app_nil_r; [done|]. by destruct i0.
Qed.

(** What an action did to the view. *)
Definition view_step (started : option nat) (w w' : aworld) : Prop :=
  match started with
  | Some c =>
    starts (w_queue w) ≡ₚ c :: starts (w_queue w') /\
    w_ext w' = update_connection c (set_cn_session true) (w_ext w)
  | None => after_accept (view w) w'
  end.

Lemma run_task_view t e w w' :
  no_start t -> run_task cfg t e w = Ret tt w' \/ (exists x, run_task cfg t e w = Throw x w') ->
  after_accept (view w) w'.
Proof.
  intros Ht Hend. assert ((exists ec, t = TExt (TAccepted ec)) \/ keeps_view t) as [[ec ->]|Hk].
  { destruct t as [| | | | |[]]; first [by right | left; eauto]. }
  - assert (H := leads_accepted any ec (view w) e w I eq_refl). simpl in Hend.
    destruct Hend as [Hw|[x Hw]]; by rewrite Hw in H.
  - assert (H := v_run_task cfg (view w) t Hk e w eq_refl).
    destruct Hend as [Hw|[x Hw]]; rewrite Hw in H; left; [by destruct H | done].
Qed.

Lemma run_view i e w w' :
  quiet e -> ends_in (ARun i) e w w' -> view_step (started_by (ARun i) w) w w'.
Proof.
  intros Hq Hend. unfold ends_in, exec, run_posted, bind, gets in Hend. simpl.
  destruct (w_queue w !! i) as [[ex t]|] eqn:Hi.
  2: { destruct Hend as [[= <-]|[x [=]]]. by left. }
  simpl in Hend. set (w1 := set_w_queue (remove_at i (w_queue w)) w) in Hend.
  assert ((exists c, t = TExt (TConnStart c)) \/ no_start t) as [[c ->]|Hn].
  { destruct t as [| | | | |[]]; first [by right | left; eauto]. }
  - simpl in Hend. rewrite start_quiet in Hend by done. destruct Hend as [[= <-]|[x [=]]].
    split; [exact (starts_remove _ _ _ _ Hi) | done].
  - assert (view w1 = view w) as Hv by (unfold view, w1; simpl; by rewrite (starts_remove_other _ _ _ _ Hi Hn)).
    apply (run_task_view t e w1 w' Hn) in Hend. rewrite Hv in Hend. by destruct t as [| | | | |[]].
Qed.

Lemma exec_view a e w w' :
  quiet e -> of_session a = false -> ends_in a e w w' -> view_step (started_by a w) w w'.
Proof.
  intros Hq Hs Hend. assert ((exists i, a = ARun i) \/ forall i, a <> ARun i) as [[i ->]|Hr].
  { destruct a; first [left; eexists; reflexivity | right; intros ?; discriminate]. }
  - by eapply run_view.
  - assert (started_by a w = None) as -> by (by destruct a; try specialize (Hr i)). left.
    exact (typed_ends (fun w1 => view w1 = view w) a e w w' (v_exec_other (view w) a Hs Hr) eq_refl Hend).
Qed.

(** ** The completion of a session *)

Lemma session_view c ec e w w' :
  ends_in (ASession c None ec) e w w' ->
  starts (w_queue w') = starts (w_queue w) /\
  map cn_session (a_connections (w_ext w')) = <[c := false]> (map cn_session (a_connections (w_ext w))).
Proof.
  intros Hend. unfold ends_in, exec, session_completes, get_ext, bind, gets in Hend.
  destruct (a_connections (w_ext w) !! c) as [conn|] eqn:Hc.
  2: { destruct Hend as [[= <-]|[x [=]]]. split; [done|]. rewrite list_insert_ge; [done|].
       rewrite length_map. by apply lookup_ge_None_1. }
  destruct (cn_session conn) eqn:Hs.
  2: { destruct Hend as [[= <-]|[x [=]]]. split; [done|]. rewrite list_insert_id; [done|].
       by rewrite list_lookup_fmap, Hc, <- Hs. }
  simpl in Hend. set (w1 := ext_update (update_connection c (set_cn_session false)) w) in Hend.
  assert (Hv := v_session_handler (view w1) c ec e w1 eq_refl).
  assert (view w' = view w1) as Hw by (destruct Hend as [H|[x H]]; rewrite H in Hv; by destruct Hv || done).
  unfold view in Hw. injection Hw as H1 H2. split; [done|]. rewrite H2. unfold w1. simpl.
  by apply map_alter_const.
Qed.
End Changes.
