(* ===== verification/AcceptorServer.v ===== *)
(** * An acceptor listener that serves sessions

    The acceptor listener of Acceptor.v composed with the code of its sessions: the
    posted start of a connection runs the function given to [callback_session], which
    starts an operation; what happens to the objects of the sessions are events of their
    own, and the calls of their completion handlers are the completions that the listener
    sees.  The code of the sessions is any [SessionService]. *)

From S2P Require Import Prelude Errors Effect Options Endpoint Status Observers ListenerBase.
From S2P Require Import Connection Acceptor EffectLogic StartView SessionStarts.

#[local] Arguments view : simpl never.

(** [S]: the objects of sessions; [V]: what happens to one. *)
Class SessionService (S V : Type) := {
  ss_run : nat -> connection_info -> S;          (* the function runs for a connection *)
  ss_event : V -> S -> S;
  ss_results : S -> list error_code;             (* the calls of the completion handler *)
  ss_busy : S -> Prop;                           (* an operation is pending *)
  ss_good : nat -> S -> Prop }.                  (* what the session promises *)

(** A session begins with an operation pending, keeps its promise, and calls its handler
    when it has no operation pending any more, once. *)
Class ServiceLaws {S V} (HS : SessionService S V) : Prop := {
  law_run c info : ss_busy (ss_run c info) /\ ss_good c (ss_run c info);
  law_good c a s : ss_good c s -> ss_good c (ss_event a s);
  law_over c a s : ss_good c s -> ~ ss_busy s -> ss_results (ss_event a s) = ss_results s /\ ~ ss_busy (ss_event a s);
  law_calls c a s : ss_good c s -> ss_busy s ->
    ss_busy (ss_event a s) /\ ss_results (ss_event a s) = ss_results s \/
    ~ ss_busy (ss_event a s) /\ exists r, ss_results (ss_event a s) = ss_results s ++ [r];
  law_busy s : ss_busy s \/ ~ ss_busy s }.

Section Server.
Context {S V : Type} `{HS : SessionService S V} `{!ServiceLaws HS} (cfg : config).

(** The objects of the sessions, by connection. *)
Abbreviation sessions := (gmap nat S).

(** The function given to [callback_session] runs for connection [c]. *)
Definition open_session (w : aworld) (c : nat) (sv : sessions) : sessions :=
  match a_connections (w_ext w) !! c with
  | Some conn => <[c := ss_run c (cn_info conn)]> sv
  | None => sv
  end.

(** The calls of the completion handler between two states of a session. *)
Definition handler_calls (s s' : S) : list error_code := drop (length (ss_results s)) (ss_results s').

(** An action of the listener, or an event of a session. *)
Inductive served_event :=
| Listener (e : aenv) (a : action)
| Session (e : aenv) (c : nat) (a : V).

Definition event_env (ev : served_event) : aenv := match ev with Listener e _ | Session e _ _ => e end.

Definition server_exec (ev : served_event) (st : aworld * sessions) : option (aworld * sessions) :=
  let '(w, sv) := st in
  match ev with
  | Listener e a =>
    if of_session a then None
    else
      match run_trace cfg [(e, a)] w with
      | Some w' => Some (w', match started_by a w with Some c => open_session w c sv | None => sv end)
      | None => None
      end
  | Session e c a =>
    match sv !! c with
    | None => None
    | Some s =>
      let s' := ss_event a s in
      match run_trace cfg (map (fun r => (e, ASession c None r)) (handler_calls s s')) w with
      | Some w' => Some (w', <[c := s']> sv)
      | None => None
      end
    end
  end.

Fixpoint server_run (l : list served_event) (st : aworld * sessions) : option (aworld * sessions) :=
  match l with
  | [] => Some st
  | ev :: l => match server_exec ev st with Some st' => server_run l st' | None => None end
  end.

(** ** The invariant *)

Definition server_inv (w : aworld) (sv : sessions) : Prop := sessions_inv ss_busy ss_good (view w) sv.

(** The start of a session. *)
Lemma inv_started w w' sv c :
  server_inv w sv -> view_step (Some c) w w' -> server_inv w' (open_session w c sv).
Proof.
  intros Hi [Hq He]. change (sw_starts (view w) ≡ₚ c :: sw_starts (view w')) in Hq.
  assert (Hf : sw_sessions (view w) !! c = Some false) by (apply Hi; rewrite Hq; by left).
  assert (Hc' : exists conn, a_connections (w_ext w) !! c = Some conn).
  { unfold view in Hf. simpl in Hf. rewrite list_lookup_fmap in Hf. destruct (a_connections (w_ext w) !! c); [eauto | done]. }
  destruct Hc' as [conn Hconn]. unfold open_session. rewrite Hconn. destruct (law_run c (cn_info conn)) as [Hb Hg].
  eapply sessions_started; [exact Hi | exact Hq | | exact Hb | exact Hg].
  unfold view. simpl. rewrite He. by apply map_alter_const.
Qed.

Lemma run_trace_one e a w w' : run_trace cfg [(e, a)] w = Some w' -> ends_in cfg a e w w'.
Proof.
  simpl. unfold ends_in. destruct (exec cfg a e w) as [[] w1|x w1|w1]; [| |done]; intros [= <-]; eauto.
Qed.

(** An event of a session. *)
Lemma inv_session e c a s w w' sv :
  server_inv w sv -> sv !! c = Some s ->
  run_trace cfg (map (fun r => (e, ASession c None r)) (handler_calls s (ss_event a s))) w = Some w' ->
  server_inv w' (<[c := ss_event a s]> sv).
Proof.
  intros Hi Hs Hw. destruct (si_sessions _ _ _ _ Hi c s Hs) as (_ & Hg). assert (Hg' := law_good c a s Hg).
  unfold handler_calls in Hw. destruct (law_busy s) as [Hb|Hb].
  - destruct (law_calls c a s Hg Hb) as [[Hb' Hr]|(Hb' & r & Hr)].
    + rewrite Hr, drop_all in Hw. injection Hw as <-.
      eapply sessions_stepped; [exact Hi | done..|]. by left.
    + rewrite Hr, drop_app_length in Hw. apply run_trace_one, session_view in Hw as [H1 H2].
      eapply sessions_stepped; [exact Hi | done | done | done | done | exact H1|]. by right.
  - destruct (law_over c a s Hg Hb) as [Hr Hb']. rewrite Hr, drop_all in Hw. injection Hw as <-.
    by eapply sessions_idle.
Qed.

Lemma server_exec_inv ev w sv w' sv' :
  quiet (event_env ev) -> server_inv w sv -> server_exec ev (w, sv) = Some (w', sv') -> server_inv w' sv'.
Proof.
  intros Hq Hi. destruct ev as [e a|e c a]; unfold server_exec.
  - destruct (of_session a) eqn:Ha; [done|]. destruct (run_trace cfg [(e, a)] w) as [w1|] eqn:Hw; [|done].
    intros [= <- <-]. apply run_trace_one, (exec_view cfg a e w w1 Hq Ha) in Hw.
    destruct (started_by a w) as [c|]; [by apply inv_started|].
    unfold server_inv. destruct Hw as [-> |[posted ->]]; [done | by apply sessions_accepted].
  - destruct (sv !! c) as [s|] eqn:Hs; [|done]. cbv zeta. destruct (run_trace _ _ w) as [w1|] eqn:Hw; [|done].
    intros [= <- <-]. by eapply inv_session.
Qed.

Lemma server_run_inv l w sv w' sv' :
  Forall (fun ev => quiet (event_env ev)) l -> server_inv w sv -> server_run l (w, sv) = Some (w', sv') ->
  server_inv w' sv'.
Proof.
  intros Hl. revert w sv. induction Hl as [|ev l Hev Hl IH]; intros w sv Hi; cbn [server_run]; [by intros [= <- <-]|].
  destruct (server_exec ev (w, sv)) as [[w1 sv1]|] eqn:He; [|done]. apply IH. by eapply server_exec_inv.
Qed.

Lemma initial_inv registry : server_inv (initial_world cfg registry) ∅.
Proof. apply sessions_none. Qed.

(** What the listener does is an execution of the listener. *)
Lemma server_run_reach (ok : aenv -> Prop) registry l n w sv w' sv' :
  Forall (fun ev => ok (event_env ev)) l -> reach cfg ok registry n w -> server_run l (w, sv) = Some (w', sv') ->
  exists n', reach cfg ok registry n' w'.
Proof.
  intros Hl. revert n w sv. induction Hl as [|ev l Hev Hl IH]; intros n w sv Hr; [simpl; intros [= <- <-]; eauto|].
  cbn [server_run]. destruct (server_exec ev (w, sv)) as [[w1 sv1]|] eqn:He; [|done].
  assert (exists n1, reach cfg ok registry n1 w1) as [n1 Hr1].
  { destruct ev as [e a|e c a]; unfold server_exec in He.
    - destruct (of_session a); [done|]. destruct (run_trace cfg [(e, a)] w) as [w2|] eqn:Hw; [|done].
      injection He as <- _. exists (n + 1). apply (run_trace_reach cfg ok registry [(e, a)] n w w2); [|done..].
      by repeat constructor.
    - destruct (sv !! c) as [s|]; [|done]. cbv zeta in He. destruct (run_trace _ _ w) as [w2|] eqn:Hw; [|done].
      injection He as <- _. eexists. eapply run_trace_reach; [|done | exact Hw].
      apply Forall_fmap, Forall_true. done. }
  by eapply IH.
Qed.

(** In any interleaving of what the listener does and the events of the sessions. *)
Lemma server_serves registry l w0 w sv :
  make_listener cfg registry = inr w0 -> Forall (fun ev => quiet (event_env ev)) l ->
  server_run l (w0, ∅) = Some (w, sv) ->
  (forall c s, sv !! c = Some s ->
     ss_good c s /\ exists conn, a_connections (w_ext w) !! c = Some conn /\ (cn_session conn = true <-> ss_busy s)) /\
  (forall c conn, a_connections (w_ext w) !! c = Some conn -> cn_session conn = true -> is_Some (sv !! c)) /\
  (forall ok : aenv -> Prop, Forall (fun ev => ok (event_env ev)) l -> exists n, reach cfg ok registry n w).
Proof.
  intros Hw0 Hl Hrun. assert (Hinit : w0 = initial_world cfg registry).
  { unfold make_listener in Hw0. destruct (validate_acceptor_options _); [done|]. by injection Hw0. }
  assert (Hi : server_inv w sv) by (eapply server_run_inv; [exact Hl | apply (initial_inv registry) | by rewrite <- Hinit]).
  destruct Hi as [_ _ H3 H4]. split_and!.
  - intros c s Hs. destruct (H4 c s Hs) as (Hlt & Hg). split; [done|].
    unfold view in Hlt. simpl in Hlt. rewrite length_map in Hlt. apply lookup_lt_is_Some in Hlt as [conn Hc].
    exists conn. split; [done|]. rewrite (H3 c (cn_session conn)) by (unfold view; simpl; by rewrite list_lookup_fmap, Hc).
    rewrite Hs. split; [by intros (s' & [= ->] & ?) | eauto].
  - intros c conn Hc Ht. assert (Hf : sw_sessions (view w) !! c = Some (cn_session conn)).
    { unfold view. simpl. by rewrite list_lookup_fmap, Hc. }
    destruct (proj1 (H3 c _ Hf) Ht) as (s & Hs & _). by exists s.
  - intros ok Hok. eapply server_run_reach; [exact Hok | by constructor | exact Hrun].
Qed.
End Server.
