(* ===== verification/EchoServer.v ===== *)
(** * An acceptor listener that serves echo sessions

    The acceptor listener composed with a stream echo service, which is any
    [EchoService]; [input c] are the bytes that the peer of connection [c] sends. *)

From S2P Require Import Prelude Errors Effect Options Endpoint Status Observers ListenerBase.
From S2P Require Import Connection Acceptor Scenarios EffectLogic StartView SessionStarts AcceptorServer.
From S2P Require Import CallbackEcho EchoStream.

Section EchoServer.
Context {service : EchoService} (cfg : config) (input : nat -> bytes).

Definition keeps_promise (c : nat) (s : EchoStream.connection) : Prop :=
  connection_ok es_uses es_good s /\ echo_ok es_greeting (input c) (abs s).

(** An event of a session is the completion of its pending operation. *)
Global Instance echo_service : SessionService EchoStream.connection answer := {
  ss_run c info := es_run info (input c);
  ss_event := es_completed;
  ss_results := c_results;
  ss_busy s := c_pending s <> None;
  ss_good := keeps_promise }.

Lemma run_pending info i : c_pending (es_run info i) <> None.
Proof.
  destruct (es_run_ok info i) as [_ H]. intros Hp. unfold abs, phase_of in H. rewrite Hp in H. by destruct H.
Qed.

Lemma run_echo info i : echo_ok es_greeting i (abs (es_run info i)).
Proof. destruct (es_run_ok info i) as [_ [-> | ->]]; by exists []. Qed.

(** A completion calls the handler if and only if the session is over then. *)
Lemma completed_calls a s :
  connection_ok es_uses es_good s -> c_pending s <> None ->
  c_results s = [] /\
  match c_pending (es_completed a s) with
  | Some _ => c_results (es_completed a s) = []
  | None => exists r, c_results (es_completed a s) = [r]
  end.
Proof.
  intros Hok Hp. assert (H := es_step a s Hok Hp). destruct H as [[_ H] _], Hok as [_ Hs].
  destruct (c_pending s) as [op|]; [|done]. destruct Hs as (_ & Hs & _). split; [done|].
  destruct (c_pending (es_completed a s)) as [op'|].
  - by destruct H as (_ & -> & _).
  - destruct H as (r & -> & _). eauto.
Qed.

Global Instance echo_laws : ServiceLaws echo_service.
Proof.
  split; simpl.
  - intros c info. split; [apply run_pending | split; [apply es_run_ok | apply run_echo]].
  - intros c a s [Hok He]. destruct (c_pending s) as [op|] eqn:Hp; [|by rewrite es_over].
    assert (Hn : c_pending s <> None) by congruence. destruct (es_step a s Hok Hn) as (Hok' & (b & Hstep & _) & _).
    split; [done|]. by apply (echo_step_ok _ _ _ _ _ He) in Hstep.
  - intros c a s _ Hb. assert (Hp : c_pending s = None) by (by destruct (c_pending s); [destruct Hb|]). by rewrite es_over.
  - intros c a s [Hok _] Hb. destruct (completed_calls a s Hok Hb) as [Hr H]. rewrite Hr.
    destruct (c_pending (es_completed a s)); [by left | right]. split; [|done]. by intros Hn.
  - intros s. destruct (c_pending s); [by left | right]. by intros H.
Qed.

(** C22: an acceptor listener that serves echo sessions, in any interleaving of what the
    listener does and the completions of the sessions' operations: every session keeps
    the promise of the echo service to its peer, its connection holds the session's
    handler exactly while the session has an operation pending, so that the listener
    learns the end of every session once; no other connection holds a handler; and the
    listener's part is an execution of the listener alone, so that what is proved of it
    holds here. *)
Theorem echo_server_serves registry (l : list (served_event (V := answer))) w0 w sv :
  make_listener cfg registry = inr w0 -> Forall (fun ev => quiet (event_env ev)) l ->
  server_run (HS := echo_service) cfg l (w0, ∅) = Some (w, sv) ->
  (forall c s, sv !! c = Some s ->
     echo_promise (input c) s /\
     exists conn, a_connections (w_ext w) !! c = Some conn /\ (cn_session conn = true <-> c_pending s <> None)) /\
  (forall c conn, a_connections (w_ext w) !! c = Some conn -> cn_session conn = true -> is_Some (sv !! c)) /\
  (forall ok : aenv -> Prop, Forall (fun ev => ok (event_env ev)) l -> exists n, reach cfg ok registry n w).
Proof.
  intros Hw0 Hl Hrun. destruct (server_serves cfg registry l w0 w sv Hw0 Hl Hrun) as (H1 & H2 & H3).
  split_and!; [|done|done]. intros c s Hs. destruct (H1 c s Hs) as [[Hok He] Hc]. split; [by apply promise_kept | exact Hc].
Qed.
End EchoServer.

(** One connection: the peer sends nine bytes, which are echoed in two parts, and ends. *)
Definition served_events : list (served_event (V := answer)) :=
  map (Listener calm) one_session ++
  map (Session calm 0)
    [mk_answer success 0; mk_answer success 4; mk_answer success 0; mk_answer success 9; mk_answer success 0;
     mk_answer eof 0].

Definition ping : bytes := String.list_byte_of_string "ping pong".

Definition served : option (aworld * gmap nat EchoStream.connection) :=
  server_run (HS := echo_service (service := CallbackEcho.service (fun _ => "error")) (fun _ => ping)) demo served_events
    (demo_start, ∅).

Definition served_world : aworld := match served with Some (w, _) => w | None => demo_start end.
Definition served_sessions : gmap nat EchoStream.connection := match served with Some (_, sv) => sv | None => ∅ end.

Lemma echo_server_serves_witness :
  exists s, served_sessions !! 0%nat = Some s /\ c_results s = [success] /\
    sk_output (c_socket s) = CallbackEcho.greeting ++ ping /\
    echo_promise (service := CallbackEcho.service (fun _ => "error")) ping s /\
    exists conn, a_connections (w_ext served_world) !! 0%nat = Some conn /\
      (cn_session conn = true <-> c_pending s <> None).
Proof.
  assert (H := echo_server_serves (service := CallbackEcho.service (fun _ => "error")) demo (fun _ => ping) demo_registry
    served_events demo_start served_world served_sessions eq_refl).
  assert (Hs : exists s, served_sessions !! 0%nat = Some s /\ c_results s = [success] /\
    sk_output (c_socket s) = CallbackEcho.greeting ++ ping).
  { eexists. split; [vm_compute; reflexivity|]. split; vm_compute; reflexivity. }
  destruct Hs as (s & Hs & Hr & Ho). exists s. split; [exact Hs|]. split; [exact Hr|]. split; [exact Ho|].
  destruct H as [H _]; [repeat constructor | vm_compute; reflexivity | exact (H 0%nat s Hs)].
Defined.
