(* ===== verification/HttpServer.v ===== *)
(** * An acceptor listener that serves HTTP sessions

    The acceptor listener composed with the HTTP echo service, plain or over TLS: the
    events of a session are the completions of its operations, the expiry of its
    deadline and the completion handlers of the deadline's timer. *)

From S2P Require Import Prelude Errors Effect Options Endpoint Status Observers ListenerBase.
From S2P Require Import Connection Acceptor Scenarios EffectLogic StartView SessionStarts AcceptorServer.
From S2P Require Import HttpEcho HttpsEcho HttpConnection HttpInvariant HttpTheorems.

(** ** Any HTTP service *)

Section Service.
Context (good : error_code -> bool) (completed : answer -> HttpConnection.connection -> HttpConnection.connection)
  (session : connection_info -> HttpConnection.connection).
Hypothesis completed_inv : forall a c, inv good c -> inv good (completed a c).
Hypothesis completed_over : forall a c, h_pending c = None -> completed a c = c.
Hypothesis session_inv : forall info, inv good (session info) /\ h_pending (session info) <> None.

Definition http_service : SessionService HttpConnection.connection event := {|
  ss_run _ info := session info;
  ss_event := HttpConnection.step completed;
  ss_results := h_results;
  ss_busy c := h_pending c <> None;
  ss_good _ c := inv good c |}.

Lemma step_over ev c :
  h_pending c = None ->
  h_results (HttpConnection.step completed ev c) = h_results c /\ h_pending (HttpConnection.step completed ev c) = None.
Proof.
  intros Hp. destruct ev as [a| |i]; simpl.
  - by rewrite completed_over.
  - unfold expire. by case_match.
  - unfold run_timer, deadline_handler. by repeat case_match.
Qed.

Lemma http_service_laws : ServiceLaws http_service.
Proof.
  assert (Hkeep : forall ev c, inv good c -> inv good (HttpConnection.step completed ev c)).
  { intros ev c Hi. destruct ev; simpl; [by apply completed_inv | by apply inv_expire | by apply inv_run_timer]. }
  split; simpl.
  - intros _ info. destruct (session_inv info). done.
  - intros _. apply Hkeep.
  - intros _ ev c _ Hb. assert (Hp : h_pending c = None) by (by destruct (h_pending c); [destruct Hb|]).
    destruct (step_over ev c Hp) as [-> ->]. split; [done|]. by intros H.
  - intros _ ev c Hi Hb. assert (Hi' := Hkeep ev c Hi). unfold inv in Hi.
    destruct (h_pending c) as [op|]; [|done]. destruct Hi as (_ & Hr & _). rewrite Hr. unfold inv in Hi'.
    destruct (h_pending (HttpConnection.step completed ev c)) as [op'|].
    + left. by destruct Hi' as (_ & -> & _).
    + right. destruct Hi' as (_ & _ & r & -> & _). split; [by intros H | eauto].
  - intros c. destruct (h_pending c); [by left | right]. by intros H.
Qed.
End Service.

(** ** The two examples *)

Section Services.
Context (message : error_code -> string).

Global Instance plain_service : SessionService HttpConnection.connection event :=
  http_service http_good (HttpEcho.completed message) HttpEcho.session.

Global Instance tls_service : SessionService HttpConnection.connection event :=
  http_service https_good (HttpsEcho.completed message) HttpsEcho.session.

Lemma plain_laws : ServiceLaws plain_service.
Proof.
  apply http_service_laws.
  - apply http_completed.
  - intros a c Hp. unfold HttpEcho.completed. by rewrite Hp.
  - intros info. split; [apply http_session | done].
Qed.

Lemma tls_laws : ServiceLaws tls_service.
Proof.
  apply http_service_laws.
  - apply https_completed.
  - intros a c Hp. unfold HttpsEcho.completed. by rewrite Hp.
  - intros info. split; [apply https_session | done].
Qed.

(** What a session promises: requests are answered in order, the handler is called once,
    and the deadline guards the pending operation. *)
Definition http_promise (good : error_code -> bool) (c : HttpConnection.connection) : Prop :=
  mirrored c /\ reports_once good c /\ (forall op, h_pending c = Some op -> guarded op c).

Lemma inv_promise good c : inv good c -> http_promise good c.
Proof.
  intros Hi. split; [by eapply inv_mirrored|]. unfold inv, reports_once in *.
  destruct (h_pending c) as [op|].
  - split; [by destruct_and? | by intros op' [= <-]; destruct_and?].
  - split; [by destruct_and? | done].
Qed.

(** The state of a served listener. *)
Definition http_served (cfg : config) registry good (l : list (served_event (V := event))) (w : aworld)
    (sv : gmap nat HttpConnection.connection) : Prop :=
  (forall c s, sv !! c = Some s ->
     http_promise good s /\
     exists conn, a_connections (w_ext w) !! c = Some conn /\ (cn_session conn = true <-> h_pending s <> None)) /\
  (forall c conn, a_connections (w_ext w) !! c = Some conn -> cn_session conn = true -> is_Some (sv !! c)) /\
  (forall ok : aenv -> Prop, Forall (fun ev => ok (event_env ev)) l -> exists n, reach cfg ok registry n w).

(** C23: an acceptor listener that serves HTTP or HTTPS sessions, in any interleaving of
    what the listener does and the events of the sessions (completed operations, expired
    deadlines, timer handlers): every session answers its requests in order, reports its
    end once and is guarded by its deadline while an operation is pending; its connection
    holds the session's handler exactly that long, and no other connection holds one; and
    the listener's part is an execution of the listener alone. *)
Theorem http_server_serves cfg registry (l : list (served_event (V := event))) w0 w sv :
  make_listener cfg registry = inr w0 -> Forall (fun ev => quiet (event_env ev)) l ->
  (server_run (HS := plain_service) cfg l (w0, ∅) = Some (w, sv) -> http_served cfg registry http_good l w sv) /\
  (server_run (HS := tls_service) cfg l (w0, ∅) = Some (w, sv) -> http_served cfg registry https_good l w sv).
Proof.
  intros Hw0 Hl. split; intros Hrun.
  - destruct (server_serves (HS := plain_service) (ServiceLaws0 := plain_laws) cfg registry l w0 w sv Hw0 Hl Hrun)
      as (H1 & H2 & H3). split; [|done].
    intros c s Hs. destruct (H1 c s Hs) as [Hi Hc]. split; [by apply inv_promise | exact Hc].
  - destruct (server_serves (HS := tls_service) (ServiceLaws0 := tls_laws) cfg registry l w0 w sv Hw0 Hl Hrun)
      as (H1 & H2 & H3). split; [|done].
    intros c s Hs. destruct (H1 c s Hs) as [Hi Hc]. split; [by apply inv_promise | exact Hc].
Qed.
End Services.

(** One connection: a request is answered and closes the connection. *)
Definition http_events : list (served_event (V := event)) :=
  map (Listener calm) one_session ++
  map (Session calm 0) [done_ok (post "hello" false); ETimer 0; done_ok no_request].

Definition http_run : option (aworld * gmap nat HttpConnection.connection) :=
  server_run (HS := plain_service (fun _ => "error")) demo http_events (demo_start, ∅).

Definition http_world : aworld := match http_run with Some (w, _) => w | None => demo_start end.
Definition http_sessions : gmap nat HttpConnection.connection := match http_run with Some (_, sv) => sv | None => ∅ end.

Lemma http_server_serves_witness :
  (exists s, http_sessions !! 0%nat = Some s /\ map rs_body (h_responses s) = ["hello"] /\ h_results s = [success]) /\
  http_served demo demo_registry http_good http_events http_world http_sessions.
Proof.
  split.
  - eexists. split; [vm_compute; reflexivity|]. split; vm_compute; reflexivity.
  - apply (http_server_serves (fun _ => "error") demo demo_registry http_events demo_start http_world http_sessions);
      [reflexivity | repeat constructor | vm_compute; reflexivity].
Defined.
