(* ===== verification/SocketStarts.v ===== *)
(** * The starts of sessions of a bound-socket listener

    Only a successful [start_on_strand] adds a session to the view, its posted start
    takes effect once, and the completion of the session resets its flag. *)

From S2P Require Import Prelude Errors Effect Options Endpoint Status Observers ListenerBase.
From S2P Require Import SocketListener EffectLogic StartView.

Local Open Scope eff_scope.

Global Instance socket_view : StartView socket_task socket_state := {
  start_of t := match t with TSessionStart s => Some s | _ => None end;
  session_flags x := map bs_session (b_sessions x) }.

(** The user's code does not end a session while it starts it, as the examples do. *)
Definition socket_quiet (e : senv) : Prop := forall s, e_session (e_ext e) s = mk_session_run None None None.

Section View.
Context (cfg : config) (v : start_view).

Abbreviation vkeeps m := (typed (E := senv) (S := sworld) (fun w => view w = v) any m).

Lemma sv_ext f : (forall x, map bs_session (b_sessions (f x)) = map bs_session (b_sessions x)) -> vkeeps (modify_ext f).
Proof. intros Hf. by apply v_set_ext. Qed.

Lemma sv_update s f : (forall x, bs_session (f x) = bs_session x) -> vkeeps (modify_ext (update_session s f)).
Proof. intros Hf. apply sv_ext. intros x. by apply map_alter. Qed.

(** The leaves: posted tasks, and updates that do not touch the view. *)
Ltac sv_auto :=
  typed_auto; first [by apply v_modify | by apply v_post | by apply sv_ext | by apply sv_update].

Hint Resolve v_complete_on v_complete_on_associated v_clear_slot v_emit v_transition_to v_diagnostics
  v_clear_diagnostics v_set_stop_reason v_keep_first_error v_complete_waiters v_assign_slot v_fresh_op v_run_wait
  v_cancel_wait v_run_dispatch v_request_stop v_do_async_start v_do_async_wait v_emit_cancellation : typed.

Lemma sv_session_finish s ec ep : vkeeps (session_finish s ec ep).
Proof. unfold session_finish, get_ext, close_now, session_finished_post. sv_auto. Qed.
Hint Resolve sv_session_finish : typed.

Lemma sv_session_handler s ec : vkeeps (session_handler s ec).
Proof. unfold session_handler, get_ext. sv_auto. Qed.

Lemma sv_force_close s : vkeeps (session_force_close s).
Proof. unfold session_force_close. sv_auto. Qed.
Hint Resolve sv_session_handler sv_force_close : typed.

Lemma sv_request_stop s : vkeeps (session_request_stop s).
Proof. unfold session_request_stop. sv_auto. Qed.

Lemma sv_cancel_timers : vkeeps shutdown_timer_cancel.
Proof.
  apply v_modify. intros w. unfold view. simpl. rewrite starts_app. f_equal.
  rewrite <- (app_nil_r (starts (w_queue w))) at 2. f_equal. by induction (b_timers _).
Qed.
Hint Resolve sv_request_stop sv_cancel_timers : typed.

Lemma sv_arm_shutdown_timer d : vkeeps (arm_shutdown_timer d).
Proof. unfold arm_shutdown_timer. sv_auto. Qed.

Lemma sv_emit type ec ep : vkeeps (SocketListener.emit cfg type ec ep).
Proof. unfold SocketListener.emit. apply (v_emit cfg v type no_connection ec ep). Qed.
Hint Resolve sv_arm_shutdown_timer sv_emit : typed.

Lemma sv_finish ec r : vkeeps (SocketListener.finish cfg ec r).
Proof. unfold SocketListener.finish, state. sv_auto. Qed.
Hint Resolve sv_finish : typed.

Lemma sv_maybe_finish : vkeeps (maybe_finish cfg).
Proof. unfold maybe_finish, state, get_ext, stop_reason. typed_auto. Qed.
Hint Resolve sv_maybe_finish : typed.

Lemma sv_stop_on_strand : vkeeps (stop_on_strand cfg).
Proof. unfold stop_on_strand, state, get_ext. typed_auto. Qed.

Lemma sv_session_finished ec ep : vkeeps (session_finished cfg ec ep).
Proof. unfold session_finished, state. sv_auto. Qed.

Lemma sv_shutdown_deadline ec : vkeeps (shutdown_deadline cfg ec).
Proof. unfold shutdown_deadline, get_ext. typed_auto. Qed.

Lemma sv_bind_socket : vkeeps (bind_socket cfg).
Proof. unfold bind_socket. typed_auto. Qed.
Hint Resolve sv_stop_on_strand sv_session_finished sv_shutdown_deadline sv_bind_socket : typed.

(** Every posted task but a start of the listener and the start of a session keeps the
    view. *)
Definition socket_keeps_view (t : task socket_task) : Prop :=
  match t with TStart _ | TExt (TSessionStart _) => False | _ => True end.

Lemma sv_run_task t : socket_keeps_view t -> vkeeps (run_task cfg t).
Proof.
  intros Ht. unfold run_task, SocketListener.cancel_wait, run_force_close, run_request_stop. typed_auto; try done.
  by apply sv_update.
Qed.
End View.

Section Changes.
Context (cfg : config).

(** A start of the listener: when the socket is bound, a session is added and its start
    is posted, unless that throws. *)
Lemma leads_start ok h v :
  leads ok (after_accept v) (fun w => view w = v) (after_accept v) (start_on_strand cfg h).
Proof.
  assert (HX : forall w : sworld, view w = v -> after_accept v w) by (by left).
  assert (HX' : forall (w : sworld) posted, view w = accepted_view v posted -> after_accept v w) by (right; eauto).
  unfold start_on_strand, state, get_ext.
  eapply leads_bind_keep; [apply typed_gets | done | intros current _].
  destruct (bool_decide _); [by eapply leads_keep; [apply v_complete_on|..]|].
  destruct (_ && _); [by eapply leads_keep; [apply v_complete_on|..]|].
  do 2 (eapply leads_bind_keep; [by apply v_modify | done | intros _ _]).
  eapply leads_bind_keep; [apply v_clear_diagnostics | done | intros _ _].
  eapply leads_bind_keep; [apply v_transition_to | done | intros _ _].
  eapply leads_bind_keep; [apply typed_may_throw | done | intros _ _].
  eapply leads_bind_keep; [apply sv_bind_socket | done | intros ec _].
  destruct (failed ec).
  { eapply leads_keep; [|done..]. typed_auto; eauto using v_complete_on, sv_finish. }
  eapply leads_bind_keep; [apply typed_asks | done | intros bound _].
  eapply leads_bind_keep; [by apply v_modify | done | intros _ _].
  eapply leads_bind_keep; [apply typed_asks | done | intros [x|] _].
  { eapply leads_keep; [|done..]. typed_auto; eauto using v_complete_on, v_diagnostics, sv_emit, sv_finish. }
  eapply leads_bind_keep; [apply typed_gets | done | intros s (w0 & Hw0 & <-)].
  assert (Hlen : length (b_sessions (w_ext w0)) = length (sw_sessions v)) by (rewrite <- Hw0; simpl; by rewrite length_map).
  rewrite Hlen. apply (leads_bind _ _ _ (fun w => view w = accepted_view v false)).
  { intros e w _ <-. unfold view, accepted_view. simpl. by rewrite map_app. }
  intros _. eapply leads_bind_keep; [by apply v_modify | eauto | intros _ _].
  eapply leads_bind_keep; [apply v_transition_to | eauto | intros _ _].
  eapply leads_bind_keep; [apply sv_emit | eauto | intros _ _].
  eapply leads_bind_keep; [apply v_complete_on | eauto | intros _ _].
  intros e w _ Hw. unfold post, may_throw, bind. simpl. destruct (e_post e _ _) as [x|]; [by eapply HX'|].
  right. exists true. unfold view in *. simpl in *. injection Hw as Hq Hs. by rewrite starts_app, Hq, Hs.
Qed.

Lemma leads_run_start ok h v :
  leads ok (after_accept v) (fun w => view w = v) (after_accept v) (run_start (start_on_strand cfg) h).
Proof.
  assert (HX : forall w : sworld, view w = v -> after_accept v w) by (by left). unfold run_start.
  eapply leads_bind_keep; [apply v_clear_slot | done | intros _ _].
  eapply leads_bind_keep; [apply typed_gets | done | intros cancelled _].
  destruct cancelled; [by eapply leads_keep; [apply v_complete_on|..] | apply leads_start].
Qed.

Lemma socket_start_quiet s e w :
  socket_quiet e -> session_start s e w = Ret tt (ext_update (update_session s (set_bs_session true)) w).
Proof. intros Hq. unfold session_start, try_catch, async_run, bind, asks. rewrite Hq. reflexivity. Qed.

(** ** One action *)

(** The session the action starts. *)
Definition socket_started_by (a : action) (w : sworld) : option nat :=
  match a with
  | ARun i => match w_queue w !! i with Some (_, t) => task_start t | None => None end
  | _ => None
  end.

Definition of_socket_session (a : action) : bool := match a with ASession _ _ _ => true | _ => false end.

Definition socket_ends_in (a : action) (e : senv) (w w' : sworld) : Prop :=
  exec cfg a e w = Ret tt w' \/ exists x, exec cfg a e w = Throw x w'.

(** What an action did to the view. *)
Definition socket_view_step (started : option nat) (w w' : sworld) : Prop :=
  match started with
  | Some s =>
    starts (w_queue w) ≡ₚ s :: starts (w_queue w') /\
    w_ext w' = update_session s (set_bs_session true) (w_ext w)
  | None => after_accept (view w) w'
  end.

Lemma sv_exec_other v a :
  of_socket_session a = false -> (forall i, a <> ARun i) -> typed (fun w => view w = v) any (exec cfg a).
Proof.
  intros Hs Hr. unfold exec, expire_timer, update_registry, get_ext. destruct a; try done; try congruence;
    try by eauto using v_do_async_start, v_do_async_wait, v_request_stop, v_emit_cancellation, v_modify.
  typed_auto; [by apply sv_ext|]. apply v_modify. intros w. unfold view. simpl.
  by rewrite starts_app, starts_other, app_nil_r.
Qed.

Lemma socket_task_view t e w w' :
  no_start t -> run_task cfg t e w = Ret tt w' \/ (exists x, run_task cfg t e w = Throw x w') ->
  after_accept (view w) w'.
Proof.
  intros Ht Hend. assert ((exists h, t = TStart h) \/ socket_keeps_view t) as [[h ->]|Hk].
  { destruct t as [| | | | |[]]; first [by right | left; eauto | done]. }
  - assert (H := leads_run_start any h (view w) e w I eq_refl). simpl in Hend.
    destruct Hend as [Hw|[x Hw]]; by rewrite Hw in H.
  - assert (H := sv_run_task cfg (view w) t Hk e w eq_refl).
    destruct Hend as [Hw|[x Hw]]; rewrite Hw in H; left; [by destruct H | done].
Qed.

Lemma socket_run_view i e w w' :
  socket_quiet e -> socket_ends_in (ARun i) e w w' -> socket_view_step (socket_started_by (ARun i) w) w w'.
Proof.
  intros Hq Hend. unfold socket_ends_in, exec, run_posted, bind, gets in Hend. simpl.
  destruct (w_queue w !! i) as [[ex t]|] eqn:Hi.
  2: { destruct Hend as [[= <-]|[x [=]]]. by left. }
  simpl in Hend. set (w1 := set_w_queue (remove_at i (w_queue w)) w) in Hend.
  destruct (task_start t) as [s|] eqn:Ht.
  - assert (t = TExt (TSessionStart s)) as -> by (destruct t as [| | | | |[]]; simpl in Ht; congruence).
    simpl in Hend. rewrite socket_start_quiet in Hend by done. destruct Hend as [[= <-]|[x [=]]].
    split; [exact (starts_remove _ _ _ _ Hi) | done].
  - assert (view w1 = view w) as Hv by (unfold view, w1; simpl; by rewrite (starts_remove_other _ _ _ _ Hi Ht)).
    apply (socket_task_view t e w1 w' Ht) in Hend. by rewrite Hv in Hend.
Qed.

Lemma socket_exec_view a e w w' :
  socket_quiet e -> of_socket_session a = false -> socket_ends_in a e w w' ->
  socket_view_step (socket_started_by a w) w w'.
Proof.
  intros Hq Hs Hend. assert ((exists i, a = ARun i) \/ forall i, a <> ARun i) as [[i ->]|Hr].
  { destruct a; first [left; eexists; reflexivity | right; intros ?; discriminate]. }
  - by eapply socket_run_view.
  - assert (socket_started_by a w = None) as -> by (by destruct a; try specialize (Hr i)). left.
    specialize (sv_exec_other (view w) a Hs Hr e w eq_refl). destruct Hend as [H|[x H]]; rewrite H; [by intros [] | done].
Qed.

(** ** The completion of a session *)

Lemma socket_session_view s ec e w w' :
  socket_ends_in (ASession s None ec) e w w' ->
  starts (w_queue w') = starts (w_queue w) /\
  map bs_session (b_sessions (w_ext w')) = <[s := false]> (map bs_session (b_sessions (w_ext w))).
Proof.
  intros Hend. unfold socket_ends_in, exec, session_completes, get_ext, bind, gets in Hend.
  destruct (b_sessions (w_ext w) !! s) as [session|] eqn:Hc.
  2: { destruct Hend as [[= <-]|[x [=]]]. split; [done|]. rewrite list_insert_ge; [done|].
       rewrite length_map. by apply lookup_ge_None_1. }
  destruct (bs_session session) eqn:Hs.
  2: { destruct Hend as [[= <-]|[x [=]]]. split; [done|]. rewrite list_insert_id; [done|].
       by rewrite list_lookup_fmap, Hc, <- Hs. }
  simpl in Hend. set (w1 := ext_update (update_session s (set_bs_session false)) w) in Hend.
  assert (Hv := sv_session_handler (view w1) s ec e w1 eq_refl).
  assert (view w' = view w1) as Hw by (destruct Hend as [H|[x H]]; rewrite H in Hv; by destruct Hv || done).
  unfold view in Hw. injection Hw as H1 H2. split; [done|]. rewrite H2. unfold w1. simpl.
  by apply map_alter_const.
Qed.
End Changes.
