(* ===== verification/DatagramServer.v ===== *)
(** * A bound-socket listener that serves a datagram echo

    The bound-socket listener of SocketListener.v composed with a datagram service: the
    posted start of a session runs the service's function, which starts to receive; the
    completions of its operations are events of their own, and the calls of its
    completion handler are the completions of the session that the listener sees. *)

From S2P Require Import Prelude Errors Effect Options Endpoint Status Observers ListenerBase.
From S2P Require Import EffectLogic StartView UdpEcho LocalDatagramEcho DatagramTheorems.
From S2P Require Import EchoStream Datagrams SocketListener SocketTheorems SocketStarts.

#[local] Arguments view : simpl never.

(** What the composition needs of a service. *)
Class DatagramService := {
  dg_session : service;
  dg_completed : Datagrams.outcome -> service -> service;
  dg_begins : dg_session = begin_op OReceive new_service;
  dg_ok : datagram_service_ok dg_completed }.

Definition UdpEcho_service (message : error_code -> string) : DatagramService :=
  {| dg_session := UdpEcho.session; dg_completed := UdpEcho.completed message; dg_begins := eq_refl;
     dg_ok := UdpEcho.udp_completed_ok message |}.

Definition LocalEcho_service (message : error_code -> string) : DatagramService :=
  {| dg_session := LocalDatagramEcho.session; dg_completed := LocalDatagramEcho.completed message; dg_begins := eq_refl;
     dg_ok := LocalDatagramEcho.local_datagram_completed_ok message |}.

Section DatagramServer.
Context {dg : DatagramService} (cfg : config).

(** The objects of the sessions, by generation. *)
Abbreviation sessions := (gmap nat service).

(** The calls of the completion handler between two states of a session. *)
Definition result_calls (s s' : service) : list error_code := drop (length (s_results s)) (s_results s').

(** An action of the listener, or the completion of the pending operation of a
    session. *)
Inductive datagram_event :=
| DListener (e : senv) (a : action)
| DSession (e : senv) (c : nat) (o : Datagrams.outcome).

Definition datagram_env (ev : datagram_event) : senv := match ev with DListener e _ | DSession e _ _ => e end.

Definition datagram_exec (ev : datagram_event) (st : sworld * sessions) : option (sworld * sessions) :=
  let '(w, sv) := st in
  match ev with
  | DListener e a =>
    if of_socket_session a then None
    else
      match run_trace cfg [(e, a)] w with
      | Some w' => Some (w', match socket_started_by a w with Some c => <[c := dg_session]> sv | None => sv end)
      | None => None
      end
  | DSession e c o =>
    match sv !! c with
    | None => None
    | Some s =>
      let s' := dg_completed o s in
      match run_trace cfg (map (fun r => (e, ASession c None r)) (result_calls s s')) w with
      | Some w' => Some (w', <[c := s']> sv)
      | None => None
      end
    end
  end.

Fixpoint datagram_run (l : list datagram_event) (st : sworld * sessions) : option (sworld * sessions) :=
  match l with
  | [] => Some st
  | ev :: l => match datagram_exec ev st with Some st' => datagram_run l st' | None => None end
  end.

(** What the operations of session [c] completed with. *)
Definition outcomes (c : nat) (l : list datagram_event) : list Datagrams.outcome :=
  omap (fun ev => match ev with DSession _ c' o => if decide (c = c') then Some o else None | _ => None end) l.

(** ** The invariant *)

Definition serving (s : service) : Prop := s_pending s <> None.

Definition served_by (tr : list datagram_event) (c : nat) (s : service) : Prop :=
  s = all_completed dg_completed (outcomes c tr) dg_session.

Record datagram_inv (tr : list datagram_event) (w : sworld) (sv : sessions) : Prop := {
  di_sessions : sessions_inv serving (served_by tr) (view w) sv;
  di_unstarted c : sv !! c = None -> outcomes c tr = [] }.

Lemma outcomes_app c l l' : outcomes c (l ++ l') = outcomes c l ++ outcomes c l'.
Proof. apply omap_app. Qed.

(** A session that is served stays so when an event concerns another. *)
Lemma served_more tr ev v sv :
  (forall c s, sv !! c = Some s -> outcomes c [ev] = []) ->
  sessions_inv serving (served_by tr) v sv -> sessions_inv serving (served_by (tr ++ [ev])) v sv.
Proof.
  intros Hev. apply sessions_weaken. unfold served_by. intros c s Hs. by rewrite outcomes_app, (Hev c s Hs), app_nil_r.
Qed.

Lemma session_buffer l : length (s_buffer (all_completed dg_completed l dg_session)) = buffer_size.
Proof.
  induction l as [|o l IH] using rev_ind; [simpl; rewrite dg_begins; apply empty_buffer_size|].
  unfold all_completed. rewrite foldl_app. simpl. apply (ds_buffer _ dg_ok), IH.
Qed.

(** A completion calls the handler if and only if the session is over then. *)
Lemma result_calls_cases o s :
  length (s_buffer s) = buffer_size -> serving s ->
  serving (dg_completed o s) /\ result_calls s (dg_completed o s) = [] \/
  ~ serving (dg_completed o s) /\ result_calls s (dg_completed o s) = [success].
Proof.
  intros Hb Hs. unfold result_calls, serving in *. destruct (decide (o_ec o = operation_aborted)) as [Ha|Ha].
  - destruct (ds_aborted _ dg_ok o s Hs Ha) as (H1 & _ & H3). right. rewrite H1, H3, drop_app_length. split; [|done]. by intros H.
  - left. destruct (to_send s) as [d|] eqn:Hd.
    + destruct (ds_sent _ dg_ok o s d Hd Ha) as (H1 & _ & H3). rewrite H1, H3, drop_all. done.
    + assert (s_pending s = Some OReceive) as Hr by (unfold to_send in Hd; by destruct (s_pending s) as [[]|]).
      destruct (ds_received _ dg_ok o s Hb Hr Ha) as (H1 & _ & H3 & _). rewrite H3, drop_all. done.
Qed.

Lemma socket_trace_one e a w w' : run_trace cfg [(e, a)] w = Some w' -> socket_ends_in cfg a e w w'.
Proof.
  simpl. unfold socket_ends_in. destruct (exec cfg a e w) as [[] w1|x w1|w1]; [| |done]; intros [= <-]; eauto.
Qed.

Lemma session_begins : serving dg_session.
Proof. unfold serving. by rewrite dg_begins. Qed.

Lemma inv_listener tr e a w w' sv :
  socket_quiet e -> of_socket_session a = false -> datagram_inv tr w sv -> run_trace cfg [(e, a)] w = Some w' ->
  datagram_inv (tr ++ [DListener e a]) w'
    (match socket_started_by a w with Some c => <[c := dg_session]> sv | None => sv end).
Proof.
  intros Hq Ha [Hi Hu] Hw. apply socket_trace_one, (socket_exec_view cfg a e w w' Hq Ha) in Hw.
  apply (served_more tr (DListener e a)) in Hi; [|done].
  assert (Hu' : forall c, sv !! c = None -> outcomes c (tr ++ [DListener e a]) = []).
  { intros c Hc. rewrite outcomes_app, Hu; done. }
  destruct (socket_started_by a w) as [c|].
  - destruct Hw as [Hst Hext]. change (sw_starts (view w) ≡ₚ c :: sw_starts (view w')) in Hst.
    assert (Hnew : sv !! c = None) by (apply Hi; rewrite Hst; by left). split.
    + eapply sessions_started; [exact Hi | exact Hst | | apply session_begins |].
      * unfold view. simpl. rewrite Hext. by apply map_alter_const.
      * unfold served_by. by rewrite Hu'.
    + intros c' [Hc _]%lookup_insert_None. by apply Hu'.
  - split; [|done]. destruct Hw as [-> |[posted ->]]; [done | by apply sessions_accepted].
Qed.

Lemma inv_outcome tr e c o s w w' sv :
  datagram_inv tr w sv -> sv !! c = Some s ->
  run_trace cfg (map (fun r => (e, ASession c None r)) (result_calls s (dg_completed o s))) w = Some w' ->
  datagram_inv (tr ++ [DSession e c o]) w' (<[c := dg_completed o s]> sv).
Proof.
  intros [Hi Hu] Hs Hw. assert (Hself : outcomes c [DSession e c o] = [o]) by (unfold outcomes; simpl; by rewrite decide_True).
  assert (Hother : forall c', c <> c' -> outcomes c' [DSession e c o] = []).
  { intros c' Hne. unfold outcomes. simpl. by rewrite decide_False. }
  destruct (si_sessions _ _ _ _ Hi c s Hs) as [_ Hb].
  assert (Hnew : served_by (tr ++ [DSession e c o]) c (dg_completed o s)).
  { unfold served_by, all_completed in *. rewrite outcomes_app, Hself, foldl_app. simpl. by rewrite <- Hb. }
  assert (Hlen : length (s_buffer s) = buffer_size) by (rewrite Hb; apply session_buffer).
  split.
  2: { intros c' [Hc Hne]%lookup_insert_None. rewrite outcomes_app, Hu, Hother by done. done. }
  assert (Hmore : forall c' x, c <> c' -> served_by tr c' x -> served_by (tr ++ [DSession e c o]) c' x).
  { intros c' x Hne. unfold served_by. by rewrite outcomes_app, Hother, app_nil_r. }
  destruct (decide (s_pending s = None)) as [Hp|Hp].
  - rewrite (ds_over _ dg_ok) in * by done. unfold result_calls in Hw. rewrite drop_all in Hw. injection Hw as <-.
    rewrite insert_id by done. eapply sessions_weaken; [|exact Hi]. intros c' x Hx Hg.
    destruct (decide (c = c')) as [<-|Hne]; [|by apply Hmore]. by simplify_eq.
  - destruct (result_calls_cases o s Hlen Hp) as [[Hb' Hc]|[Hb' Hc]]; rewrite Hc in Hw.
    + injection Hw as <-. eapply sessions_stepped; [exact Hi | done..|]. by left.
    + apply socket_trace_one, socket_session_view in Hw as [H1 H2].
      eapply sessions_stepped; [exact Hi | done | done | done | done | exact H1|]. by right.
Qed.

Lemma datagram_exec_inv tr ev w sv w' sv' :
  socket_quiet (datagram_env ev) -> datagram_inv tr w sv -> datagram_exec ev (w, sv) = Some (w', sv') ->
  datagram_inv (tr ++ [ev]) w' sv'.
Proof.
  intros Hq Hi. destruct ev as [e a|e c o]; unfold datagram_exec.
  - destruct (of_socket_session a) eqn:Ha; [done|]. destruct (run_trace cfg [(e, a)] w) as [w1|] eqn:Hw; [|done].
    intros [= <- <-]. by apply inv_listener.
  - destruct (sv !! c) as [s|] eqn:Hs; [|done]. cbv zeta. destruct (run_trace _ _ w) as [w1|] eqn:Hw; [|done].
    intros [= <- <-]. by eapply inv_outcome.
Qed.

Lemma datagram_run_inv l tr w sv w' sv' :
  Forall (fun ev => socket_quiet (datagram_env ev)) l -> datagram_inv tr w sv ->
  datagram_run l (w, sv) = Some (w', sv') -> datagram_inv (tr ++ l) w' sv'.
Proof.
  intros Hl. revert tr w sv. induction Hl as [|ev l Hev _ IH]; intros tr w sv Hi; cbn [datagram_run].
  - intros [= <- <-]. by rewrite app_nil_r.
  - destruct (datagram_exec ev (w, sv)) as [[w1 sv1]|] eqn:He; [|done]. intros Hr.
    replace (tr ++ ev :: l) with ((tr ++ [ev]) ++ l) by (by rewrite <- app_assoc).
    eapply IH; [|exact Hr]. by eapply datagram_exec_inv.
Qed.

(** What the listener does is an execution of the listener. *)
Lemma datagram_run_reach (ok : senv -> Prop) registry l n w sv w' sv' :
  Forall (fun ev => ok (datagram_env ev)) l -> reach cfg ok registry n w -> datagram_run l (w, sv) = Some (w', sv') ->
  exists n', reach cfg ok registry n' w'.
Proof.
  intros Hl. revert n w sv. induction Hl as [|ev l Hev _ IH]; intros n w sv Hr; [simpl; intros [= <- <-]; eauto|].
  cbn [datagram_run]. destruct (datagram_exec ev (w, sv)) as [[w1 sv1]|] eqn:He; [|done].
  assert (exists tr, Forall (fun x => ok (fst x)) tr /\ run_trace cfg tr w = Some w1) as (tr & Htr & Hw).
  { destruct ev as [e a|e c o]; unfold datagram_exec in He.
    - destruct (of_socket_session a); [done|]. destruct (run_trace cfg [(e, a)] w) as [w2|] eqn:Hw; [|done].
      injection He as <- _. exists [(e, a)]. split; [by repeat constructor | done].
    - destruct (sv !! c) as [s|]; [|done]. cbv zeta in He. destruct (run_trace _ _ w) as [w2|] eqn:Hw; [|done].
      injection He as <- _. eexists. split; [|exact Hw]. by apply Forall_fmap, Forall_true. }
  eapply IH, sock_run_trace_reach; [exact Htr | exact Hr | exact Hw].
Qed.

(** C24: a bound-socket listener that serves a datagram echo, in any interleaving of what
    the listener does and the completions of the service's operations: the session of
    every generation has sent back what it received, as the reference answer to the
    outcomes of its operations says; the listener's session object holds the handler
    exactly while the service has an operation pending, no other object holds one; and
    the listener's part is an execution of the listener alone. *)
Theorem datagram_server_serves registry l w0 w sv :
  make_listener cfg registry = inr w0 -> Forall (fun ev => socket_quiet (datagram_env ev)) l ->
  datagram_run l (w0, ∅) = Some (w, sv) ->
  (forall c s, sv !! c = Some s ->
     s_sent s = fst (replies None (outcomes c l)) /\
     s_results s = (if snd (replies None (outcomes c l)) then [success] else []) /\
     exists b, b_sessions (w_ext w) !! c = Some b /\
       (bs_session b = true <-> snd (replies None (outcomes c l)) = false)) /\
  (forall c b, b_sessions (w_ext w) !! c = Some b -> bs_session b = true -> is_Some (sv !! c)) /\
  (forall ok : senv -> Prop, Forall (fun ev => ok (datagram_env ev)) l -> exists n, reach cfg ok registry n w).
Proof.
  intros Hw0 Hl Hrun. assert (Hinit : w0 = initial_world cfg registry).
  { unfold make_listener in Hw0. destruct (validate_socket_options _); [done|]. by injection Hw0. }
  assert (Hi : datagram_inv l w sv).
  { apply (datagram_run_inv l [] w0 ∅); [done | | done]. subst w0. split; [apply sessions_none | done]. }
  destruct Hi as [[_ _ H3 H4] _]. split_and!.
  - intros c s Hs. destruct (H4 c s Hs) as [Hlt ->].
    destruct (answers dg_completed (outcomes c l) dg_ok) as (A1 & A2 & A3). rewrite <- dg_begins in A1, A2, A3.
    split; [exact A1|]. split; [exact A2|].
    unfold view in Hlt. simpl in Hlt. rewrite length_map in Hlt. apply lookup_lt_is_Some in Hlt as [b Hb].
    exists b. split; [done|]. rewrite (H3 c (bs_session b)) by (unfold view; simpl; by rewrite list_lookup_fmap, Hb).
    rewrite Hs, <- not_true_iff_false, <- A3. split; [by intros (s' & [= <-] & ?) | eauto].
  - intros c b Hb Ht. assert (Hf : sw_sessions (view w) !! c = Some (bs_session b)).
    { unfold view. simpl. by rewrite list_lookup_fmap, Hb. }
    destruct (proj1 (H3 c _ Hf) Ht) as (s & Hs & _). by exists s.
  - intros ok Hok. eapply datagram_run_reach; [exact Hok | by constructor | exact Hrun].
Qed.
End DatagramServer.

(** A datagram is echoed, then the listener is stopped, which aborts the receive. *)
Definition datagram_peer : endpoint := ip_endpoint (mk_address "::1" true) 4000.

Definition datagram_events : list datagram_event :=
  map (DListener socket_calm) socket_running ++
  [DSession socket_calm 0 (mk_outcome success (mk_datagram datagram_peer (String.list_byte_of_string "hello")));
   DSession socket_calm 0 (mk_outcome success (mk_datagram datagram_peer []))] ++
  map (DListener socket_calm) [ARequestStop; ARun 0] ++
  [DSession socket_calm 0 (mk_outcome operation_aborted (mk_datagram datagram_peer []))].

Definition datagram_served : option (sworld * gmap nat service) :=
  datagram_run (dg := UdpEcho_service (fun _ => "error")) socket_demo datagram_events (socket_begin, ∅).

Definition datagram_world : sworld := match datagram_served with Some (w, _) => w | None => socket_begin end.
Definition datagram_sessions : gmap nat service := match datagram_served with Some (_, sv) => sv | None => ∅ end.

Lemma datagram_server_serves_witness :
  exists s, datagram_sessions !! 0%nat = Some s /\
    s_sent s = [mk_datagram datagram_peer (String.list_byte_of_string "hello")] /\
    s_sent s = fst (replies None (outcomes 0 datagram_events)) /\
    s_results s = (if snd (replies None (outcomes 0 datagram_events)) then [success] else []) /\
    exists b, b_sessions (w_ext datagram_world) !! 0%nat = Some b /\
      (bs_session b = true <-> snd (replies None (outcomes 0 datagram_events)) = false).
Proof.
  assert (H := datagram_server_serves (dg := UdpEcho_service (fun _ => "error")) socket_demo socket_registry
    datagram_events socket_begin datagram_world datagram_sessions eq_refl).
  assert (Hs : exists s, datagram_sessions !! 0%nat = Some s /\
    s_sent s = [mk_datagram datagram_peer (String.list_byte_of_string "hello")]).
  { eexists. split; [vm_compute; reflexivity|]. vm_compute; reflexivity. }
  destruct Hs as (s & Hs & Ho). exists s. split; [exact Hs|]. split; [exact Ho|].
  destruct H as [H _]; [repeat constructor | vm_compute; reflexivity | exact (H 0%nat s Hs)].
Defined.
