(* ===== verification/ServerFrame.v ===== *)
(** * What the threads of a server leave alone

    The functions of src/server.cpp touch the listeners in a few places only: they call
    them, start them, stop them and give them the observer registry.  [Frame] says that an
    invariant [Inv] survives those places and rests on nothing else that the functions
    change; then every action of the system keeps it but a call of [listen] or [bind].
    It holds of every invariant that rests on the listeners' numbers, on the counter of
    numbers, on the number of operations and on the log of completions only. *)

From S2P Require Import Prelude Errors Effect Options Endpoint Status Observers ListenerBase.
From S2P Require Import ListenerInterface Threads ServerState ServerControl OperationGroup Server ServerCompletions.
From S2P Require Import ServerTheorems.

Local Open Scope Z_scope.

Definition outcome_state {L A} (o : outcome L A) : L :=
  match o with Ret _ l | Throw _ l | Terminate l => l end.

(** The number a listener reports. *)
Definition ident {L E A} `{Listener L E A} (l : L) : Z := ls_listener_id (l_status l).

Class KeepsIdentity {L E A} (HL : Listener L E A) : Prop := {
  law_ident a e l : ident (outcome_state (l_exec a e l)) = ident l;
  law_ident_registry r l : ident (l_set_registry r l) = ident l }.

(** Both classes behind a pointer to the base class. *)
Global Instance sum_identity {L1 E1 A1 L2 E2 A2} (H1 : Listener L1 E1 A1) (H2 : Listener L2 E2 A2) :
  KeepsIdentity H1 -> KeepsIdentity H2 -> KeepsIdentity (sum_listener (H1 := H1) (H2 := H2)).
Proof.
  intros [K1 R1] [K2 R2]. split.
  - intros a e [l|l]; unfold ident in *; simpl.
    + destruct (route own_left a) as [a'|]; [|done]. rewrite <- (K1 a' (fst e) l). by destruct (l_exec a' (fst e) l).
    + destruct (route own_right a) as [a'|]; [|done]. rewrite <- (K2 a' (snd e) l). by destruct (l_exec a' (snd e) l).
  - intros r [l|l]; [exact (R1 r l) | exact (R2 r l)].
Qed.

(** The numbers of the registered listeners. *)
Definition idents {L E A} `{Listener L E A} (s : server_world L) : list Z := map ident (v_listeners s).

(** The parts of the shared state that the functions below leave alone. *)
Definition same_counts {L E A} `{Listener L E A} (s s' : server_world L) : Prop :=
  idents s' = idents s /\ v_next_listener_id s' = v_next_listener_id s /\ v_next_op s' = v_next_op s /\
  v_completed s' = v_completed s.

(** The listeners, and what else an invariant may rest on. *)
Definition same_rest {L} (s s' : server_world L) : Prop :=
  v_listeners s' = v_listeners s /\ v_next_listener_id s' = v_next_listener_id s /\ v_next_op s' = v_next_op s /\
  v_completed s' = v_completed s /\ v_armed s' = v_armed s /\ v_skipped s' = v_skipped s /\ v_children s' = v_children s.

Record Frame {L E A} `{Listener L E A} {tok} (ok : server_env E -> Prop) (Inv : server_world L -> list tok -> Prop) : Prop := {
  fi_rest s s' r : same_rest s s' -> Inv s r -> Inv s' r;
  fi_cancel i op type : Threads.neutral ok Inv True (call_listener i (LCancel op type)) (fun _ => True);
  fi_stop i : Threads.neutral ok Inv True (stop_listener i) (fun _ => True);
  fi_initiate k j i wait : Threads.neutral ok Inv True (initiate k j i wait) (fun _ => True);
  fi_registry s reg r : Inv s r -> Inv (set_registry reg s) r }.

(** ** Invariants over the counts *)

Section Counts.
Context {L E A : Type} `{HL : Listener L E A} `{!KeepsIdentity HL}.
Context {tok : Type} (Inv : server_world L -> list tok -> Prop).
Hypothesis Inv_frame : forall s s' r, same_counts s s' -> Inv s r -> Inv s' r.

Implicit Types (s : server_world L) (e : server_env E).

Lemma idents_listener s i l l' : v_listeners s !! i = Some l -> ident l' = ident l -> idents (set_listener i l' s) = idents s.
Proof.
  intros Hi He. unfold idents. simpl. rewrite (list_fmap_insert ident), He.
  apply list_insert_id. by rewrite list_lookup_fmap, Hi.
Qed.

Lemma idents_exec s i l (a : listener_action A) (e : E) : v_listeners s !! i = Some l ->
  idents (set_listener i (outcome_state (l_exec a e l)) s) = idents s.
Proof. intros Hi. apply (idents_listener s i l); [done | apply law_ident]. Qed.

Lemma idents_registry s reg : idents (set_registry reg s) = idents s.
Proof.
  unfold idents. simpl. rewrite map_map. apply map_ext. intros l. apply law_ident_registry.
Qed.

Lemma counts_atomic {B} ok (g : server_env E -> server_world L -> (exn + B) * server_world L) :
  (forall e s, same_counts s (snd (g e s))) -> Threads.neutral ok Inv True (PAtomic g) (fun _ => True).
Proof.
  intros Hg. apply neutral_atomic. intros e s r _ H. split; [by apply (Inv_frame s) | by destruct (fst (g e s))].
Qed.

Ltac counts_call Hi e l a :=
  let H := fresh in
  pose proof (idents_exec _ _ _ a (x_listener e) Hi) as H; destruct (l_exec a (x_listener e) l); exact (conj H (conj eq_refl (conj eq_refl eq_refl))).

Lemma counts_frame ok : Frame ok Inv.
Proof.
  split.
  - intros s s' r (H1 & H2 & H3 & H4 & _). apply Inv_frame. split; [unfold idents; by rewrite H1 | done].
  - intros i op type. apply counts_atomic. intros e s. destruct (v_listeners s !! i) as [l|] eqn:Hi; [|done].
    counts_call Hi e l (LCancel (A := A) op type).
  - intros i. apply counts_atomic. intros e s. destruct (v_listeners s !! i) as [l|] eqn:Hi; [|done].
    counts_call Hi e l (LRequestStop (A := A)).
  - intros k j i wait. apply counts_atomic. intros e s. destruct (v_listeners s !! i) as [l|] eqn:Hi; [|done].
    set (a := if wait then LWait None None true else LStart None None true). counts_call Hi e l a.
  - intros s reg r. apply Inv_frame. split; [apply idents_registry | done].
Qed.

Lemma counts_runs s i a e : same_counts s (fst (listener_runs i a e s)).
Proof.
  unfold listener_runs. destruct (v_listeners s !! i) as [l|] eqn:Hi; [|done].
  assert (H := idents_exec s i l (LOwn a) (x_listener e) Hi). by destruct (l_exec (LOwn a) (x_listener e) l).
Qed.

(** A task of the executor may log a completion. *)
Lemma counts_task s n e :
  let s' := run_server_task n e s in
  idents s' = idents s /\ v_next_listener_id s' = v_next_listener_id s /\ v_next_op s' = v_next_op s /\
  v_completed s `prefix_of` v_completed s'.
Proof.
  unfold run_server_task. destruct (v_queue s !! n) as [[ev|on [h|] ec]|]; try done.
  - by rewrite notify_server_eq.
  - split_and!; try done. by apply prefix_app_r.
Qed.
End Counts.

(** ** The functions of the server *)

Section Frame.
Context {L E A : Type} `{HL : Listener L E A} (m_executor : executor).
Context {tok : Type} (ok : server_env E -> Prop) (Inv : server_world L -> list tok -> Prop).
Hypothesis HF : Frame ok Inv.

Implicit Types (s : server_world L) (e : server_env E).

Abbreviation neutral p F := (Threads.neutral ok Inv True p F).

Lemma frame_atomic {B} (g : server_env E -> server_world L -> (exn + B) * server_world L) (F : B -> Prop) :
  (forall b, F b) ->
  (forall e s, same_rest s (snd (g e s))) -> neutral (PAtomic g) F.
Proof.
  intros Hb Hg. apply neutral_atomic. intros e s r _ H.
  split; [by apply (fi_rest _ _ HF s) | by destruct (fst (g e s))].
Qed.

Ltac fr_atomic :=
  apply frame_atomic; [first [done | by intros []]|]; intros e s; simpl; repeat (case_match; simpl); done.

Lemma fr_write (g : server_world L -> server_world L) :
  (forall s, same_rest s (g s)) -> neutral (write g) (fun _ => True).
Proof. intros Hg. apply frame_atomic; [done|]. intros e s. apply Hg. Qed.

Lemma fr_cancel_listener i op type : neutral (call_listener i (LCancel op type)) (fun _ => True).
Proof. apply HF. Qed.

Lemma fr_stop_listener i : neutral (stop_listener i) (fun _ => True).
Proof. apply HF. Qed.

Lemma fr_initiate k j i wait : neutral (initiate k j i wait) (fun _ => True).
Proof. apply HF. Qed.

Lemma fr_lock : neutral lock (fun _ => True).
Proof. apply neutral_iter. intros []. fr_atomic. Qed.

Lemma fr_unlock : neutral unlock (fun _ => True).
Proof. by apply fr_write. Qed.

Lemma fr_load_state : neutral load_state (fun _ => True).
Proof. apply neutral_read. Qed.

Lemma fr_compare_exchange_weak a b c : neutral (compare_exchange_weak a b c) (fun _ => True).
Proof. fr_atomic. Qed.

Lemma fr_compare_exchange_strong a b : neutral (compare_exchange_strong a b) (fun _ => True).
Proof. fr_atomic. Qed.

Lemma fr_exchange_state a : neutral (exchange_state a) (fun _ => True).
Proof. fr_atomic. Qed.

Lemma fr_post t : neutral (post_server t) (fun _ => True).
Proof. fr_atomic. Qed.

Lemma fr_count_one k ec : neutral (count_one k ec) (fun _ => True).
Proof.
  apply frame_atomic; [done|]. intros e s. destruct (v_groups s !! k) as [gr|] eqn:Hk; [|done]. simpl.
  destruct (_ =? 0); [|done]. unfold take_completion. simpl. rewrite list_lookup_alter_eq, Hk. simpl.
  by destruct (g_completion gr).
Qed.

Lemma fr_take k : neutral (PAtomic (fun _ s => let '(h, s) := take_completion k s in (inr h, s))) (fun _ => True).
Proof.
  apply frame_atomic; [done|]. intros e s. unfold take_completion. destruct (v_groups s !! k) as [gr|]; [|done]. simpl.
  by destruct (g_completion gr).
Qed.

#[local] Hint Resolve fr_cancel_listener fr_stop_listener fr_initiate fr_lock fr_unlock fr_load_state
  fr_compare_exchange_weak fr_compare_exchange_strong fr_exchange_state fr_post fr_count_one fr_take : neutral.
#[local] Hint Extern 1 (Threads.neutral _ _ _ (write _) _) => apply fr_write; intros s; done : neutral.
#[local] Hint Extern 1 (Threads.neutral _ _ _ (PAtomic _) _) => fr_atomic : neutral.

Lemma fr_status_loop l v : neutral (status_loop l v) (fun _ => True).
Proof.
  revert v. induction l as [|i l IH]; intros v; simpl; [by apply neutral_ret|].
  eapply neutral_bind; [apply neutral_read|]. intros item _. apply IH.
Qed.
#[local] Hint Resolve fr_status_loop : neutral.

Lemma fr_emit t l ec : neutral (emit t l ec) (fun _ => True).
Proof. unfold emit, status. neutral_auto. Qed.
#[local] Hint Resolve fr_emit : neutral.

Lemma fr_stopping_loop b p : neutral p (fun _ => True) -> neutral (stopping_loop b p) (fun _ => True).
Proof. intros Hp. unfold stopping_loop. neutral_auto. Qed.
#[local] Hint Resolve fr_stopping_loop : neutral.

Lemma fr_begin_start l : neutral (begin_start l) (fun _ => True).
Proof. unfold begin_start. neutral_auto. Qed.

Lemma fr_finish_start l ec : neutral (finish_start l ec) (fun _ => True).
Proof. unfold finish_start. neutral_auto. Qed.

Lemma fr_finish_wait l ec : neutral (finish_wait l ec) (fun _ => True).
Proof. unfold finish_wait. neutral_auto. Qed.
#[local] Hint Resolve fr_begin_start fr_finish_start fr_finish_wait : neutral.

Lemma fr_group_request_stop k : neutral (group_request_stop k) (fun _ => True).
Proof. unfold group_request_stop, group_listeners. neutral_auto. Qed.
#[local] Hint Resolve fr_group_request_stop : neutral.

Lemma fr_one k ec : neutral (one m_executor k ec) (fun _ => True).
Proof. unfold one, finished, group_listeners, complete_on_server. neutral_auto. Qed.
#[local] Hint Resolve fr_one : neutral.

Lemma fr_emit_signal k j type : neutral (emit_signal k j type) (fun _ => True).
Proof. unfold emit_signal. neutral_auto. Qed.
#[local] Hint Resolve fr_emit_signal : neutral.

Lemma fr_start_group k wait : neutral (start_group m_executor k wait) (fun _ => True).
Proof. unfold start_group, start_one, group_listeners. neutral_auto. Qed.
#[local] Hint Resolve fr_start_group : neutral.

Lemma fr_new_group l b w h : neutral (new_group l b w h) (fun _ => True).
Proof. fr_atomic. Qed.

Lemma fr_stop_requested : neutral stop_requested (fun _ => True).
Proof. unfold stop_requested. neutral_auto. Qed.

Lemma fr_snapshot : neutral snapshot (fun _ => True).
Proof. unfold snapshot. neutral_auto. Qed.
#[local] Hint Resolve fr_new_group fr_stop_requested fr_snapshot : neutral.

Lemma fr_async_start h : neutral (server_async_start m_executor h) (fun _ => True).
Proof.
  unfold server_async_start, prepare, reject, complete_on_server. neutral_auto.
Qed.

Lemma fr_async_wait h : neutral (server_async_wait m_executor h) (fun _ => True).
Proof. unfold server_async_wait, prepare, complete_on_server. neutral_auto. Qed.

Lemma fr_server_request_stop : neutral server_request_stop (fun _ => True).
Proof. unfold server_request_stop, control_request_stop. neutral_auto. Qed.

Lemma fr_cancel_group k type : neutral (cancel_group k type) (fun _ => True).
Proof. unfold cancel_group, group_listeners. neutral_auto. Qed.

Lemma fr_observe_server v : neutral (observe_server v;; PRet tt)%prog (fun _ => True).
Proof.
  eapply neutral_bind; [|intros ??; by apply neutral_ret]. apply (neutral_atomic _ _ _ _ (fun _ => True)).
  intros e s r _ H. destruct v as [v|]; simpl; [|done]. split; [by apply HF | done].
Qed.

Lemma fr_unobserve id : neutral (unobserve id) (fun _ => True).
Proof. apply neutral_write. intros s r H. by apply HF. Qed.

(** A call of [listen] or [bind], when a new listener keeps the invariant. *)
Lemma frame_new_listener make :
  (forall id l, make id = inr l -> fresh_listener l) ->
  (forall s r l, fresh_listener l -> Inv s r ->
     Inv (set_v_listeners (v_listeners s ++ [l_set_registry (Some (v_registry s)) l]) s) r) ->
  (forall s r id, Inv s r -> Inv (set_v_next_listener_id id s) r) ->
  neutral (add_new_listener make) (fun _ => True).
Proof.
  intros Hm Hpush Hid. unfold add_new_listener. apply (neutral_bind _ _ _ _ _ (fun _ => True)).
  { apply neutral_atomic. intros e s r _ H. split; [by apply Hid | done]. }
  intros id _. destruct (make id) as [x|l] eqn:Hl; [by apply neutral_throw|]. unfold add_listener.
  apply (neutral_bind _ _ _ _ _ (fun _ => True)); [apply fr_lock|].
  intros _ _. apply (neutral_bind _ _ _ _ _ (fun _ => True)); [|by intros _ _; apply fr_unlock]. apply neutral_try.
  - apply neutral_atomic. intros e s r _ H. destruct (_ <=? _); simpl; [done|]. split; [|done].
    apply Hpush; [by eapply Hm | done].
  - intros x _. apply (neutral_bind _ _ _ _ _ (fun _ => True)); [apply fr_unlock|]. intros _ _. by apply neutral_throw.
Qed.

(** ** Actions *)

Hypothesis Inv_perm : forall s r r', r ≡ₚ r' -> Inv s r -> Inv s r'.
Hypothesis Inv_drop : forall s t f, Inv s (t :: f) -> Inv s f.

Abbreviation pool_with kept n s ts := (Threads.pool_with ok Inv (fun _ => True) kept n s ts).

Definition is_listen (a : server_action (L := L) (A := A)) : bool := match a with YListen _ => true | _ => false end.

Definition begins (a : server_action (L := L) (A := A)) : bool :=
  match a with YStart _ _ _ | YWait _ _ _ => true | _ => false end.

Lemma frame_spawn kept n s s' ts p :
  pool_with kept n s ts -> neutral p (fun _ => True) -> (forall f, Inv s f -> Inv s' f) -> pool_with kept n s' (ts ++ [p]).
Proof.
  intros H Hp Hs. apply (pool_spawn_with _ _ _ Inv_perm kept kept n s s' ts [p] [[]]); [done | |].
  - repeat constructor. eapply wpt_neutral; [exact Hp | intros; constructor | intros; constructor].
  - intros f Hf. by apply Hs.
Qed.

Lemma frame_spawn_ones kept n s s' ts ready :
  pool_with kept n s ts -> (forall f, Inv s f -> Inv s' f) ->
  pool_with kept n s' (ts ++ map (fun x => one m_executor (fst x) (snd x)) ready).
Proof.
  intros H Hs. apply (pool_spawn_with _ _ _ Inv_perm kept kept n s s' ts _ (map (fun _ => []) ready)); [done | |].
  - induction ready as [|x ready IH]; simpl; constructor; [|done].
    eapply wpt_neutral; [apply fr_one | intros; constructor | intros; constructor].
  - intros f Hf. replace (concat _) with (@nil tok) by (clear; by induction ready). by apply Hs.
Qed.

(** Every action keeps the invariant, a call of [listen] or [bind] excepted, when an
    action of a listener, a new operation and a new completion do. *)
Lemma frame_exec kept y e a :
  ok e -> is_listen a = false ->
  (forall i b, a = YListener i b -> forall f, Inv (fst y) f -> Inv (fst (listener_runs i b e (fst y))) f) ->
  (begins a = true -> forall s f, Inv s f -> Inv (set_v_next_op (S (v_next_op s)) s) f) ->
  (forall s n e f, Inv s f -> Inv (run_server_task n e s) f) ->
  (forall n, pool_with kept n (fst y) (snd y)) ->
  forall n, pool_with kept n (fst (exec_server m_executor a e y)) (snd (exec_server m_executor a e y)).
Proof.
  intros He Hl Hrun Hop Htask Hy n. destruct y as [s ts]. simpl in Hy, Hrun. destruct a; try done; simpl.
  - eapply frame_spawn; [apply Hy | apply fr_async_start | by apply Hop].
  - eapply frame_spawn; [apply Hy | apply fr_async_wait | by apply Hop].
  - by eapply frame_spawn; [apply Hy | apply fr_server_request_stop |].
  - destruct (v_slots s !! op) as [k|]; [|apply Hy]. by eapply frame_spawn; [apply Hy | apply fr_cancel_group |].
  - by eapply frame_spawn; [apply Hy | apply fr_observe_server |].
  - by eapply frame_spawn; [apply Hy | apply fr_unobserve |].
  - specialize (Hrun i a eq_refl). destruct (listener_runs i a e s) as [s' ready].
    by apply (frame_spawn_ones _ n s); [apply Hy|].
  - eapply pool_update_with; [apply Hy|]. intros f. apply Htask.
  - destruct (run_thread t e s ts) as [s' ts'] eqn:Hr. simpl.
    eapply pool_run_with; [exact Inv_perm | intros ????; by eapply Inv_drop | done | apply Hy | done].
Qed.

(** The executions in which every action of a listener is [allowed]. *)
Lemma frame_step (allowed : server_world L -> nat -> A -> Prop) y e a :
  (forall make, (forall id l, make id = inr l -> fresh_listener l) -> neutral (add_new_listener make) (fun _ => True)) ->
  (forall s f i b e, ok e -> allowed s i b -> Inv s f -> Inv (fst (listener_runs i b e s)) f) ->
  (forall s f, Inv s f -> Inv (set_v_next_op (S (v_next_op s)) s) f) ->
  (forall s n e f, Inv s f -> Inv (run_server_task n e s) f) ->
  ok e -> action_ok a -> (forall i b, a = YListener i b -> allowed (fst y) i b) ->
  (forall n, pool_with [] n (fst y) (snd y)) ->
  forall n, pool_with [] n (fst (exec_server m_executor a e y)) (snd (exec_server m_executor a e y)).
Proof.
  intros Hnew Hrun Hop Htask He Ha Ho Hy. destruct (is_listen a) eqn:Hl.
  - destruct a as [| | | |make| | | | |]; try done. intros n. destruct y as [s ts]. simpl in *.
    eapply frame_spawn; [apply Hy | by apply Hnew | done].
  - apply frame_exec; try done. intros i b -> f. by apply Hrun, Ho.
Qed.

Lemma frame_reach y :
  Inv (fst (initial_server (L := L) (E := E))) [] ->
  (forall make, (forall id l, make id = inr l -> fresh_listener l) -> neutral (add_new_listener make) (fun _ => True)) ->
  (forall s f i b e, ok e -> Inv s f -> Inv (fst (listener_runs i b e s)) f) ->
  (forall s f, Inv s f -> Inv (set_v_next_op (S (v_next_op s)) s) f) ->
  (forall s n e f, Inv s f -> Inv (run_server_task n e s) f) ->
  server_reach m_executor ok y -> exists f, Inv (fst y) f.
Proof.
  intros Hi Hnew Hrun Hop Htask Hy. assert (H : forall n, pool_with [] n (fst y) (snd y)).
  { induction Hy as [|y e a Hy IH He Ha]; [intros n; exists []; by split|].
    apply (frame_step (fun _ _ _ => True)); try done. intros s f i b e' He' _. by apply Hrun. }
  destruct (H 0%nat) as (rs & Hf & _). eauto.
Qed.
End Frame.

(** ** The operations a group began

    While the executors accept work, a listener owes every operation a group began on
    it, until it has dispatched the handler. *)

Section Owed.
Context {L E A : Type} `{HL : Listener L E A} `{!ListenerLaws HL} (m_executor : executor).

Implicit Types (s : server_world L) (e : server_env E).

Definition owes s (x : nat * nat * nat) : Prop :=
  let '(i, op, _) := x in exists l, v_listeners s !! i = Some l /\ op ∈ l_owed l.

Record Owed s (r : list unit) : Prop := {
  ow_inv : Forall l_inv (v_listeners s);
  ow_children : Forall (owes s) (v_children s) }.

Abbreviation ok := (server_ok (L := L) (E := E) (A := A) true).

Lemma owed_rest s s' r : v_listeners s' = v_listeners s -> v_children s' = v_children s -> Owed s r -> Owed s' r.
Proof.
  intros H1 H2 []. split; rewrite ?H1, ?H2; [done|]. eapply Forall_impl; [done|]. intros [[i op] k]. simpl. by rewrite H1.
Qed.

(** A listener keeps what it owes. *)
Lemma owed_listener s s' r i l l' :
  v_listeners s !! i = Some l -> v_listeners s' = <[i := l']> (v_listeners s) -> v_children s' = v_children s ->
  l_inv l' -> (forall op, op ∈ l_owed l -> op ∈ l_owed l') -> Owed s r -> Owed s' r.
Proof.
  intros Hi Hs Hc Hl Ho []. split; rewrite ?Hs, ?Hc; [by apply Forall_insert|].
  eapply Forall_impl; [done|]. intros [[j op] k] (l0 & Hl0 & Hop). simpl. rewrite Hs. destruct (decide (i = j)) as [<-|Hne].
  - exists l'. rewrite list_lookup_insert_eq by (by eapply lookup_lt_Some). split; [done|]. apply Ho. congruence.
  - exists l0. by rewrite list_lookup_insert_ne.
Qed.

Lemma owed_progress (a : listener_action A) b (l l' : L) op : Progress true a b l l' -> op ∈ l_owed l -> op ∈ l_owed l'.
Proof. intros [_ _ _ _ Ho] Hop. simpl in Ho. rewrite Ho. destruct (_ && _); [by right | done]. Qed.

Lemma owed_call s r i l (a : listener_action A) (e : E) :
  l_ok true e -> v_listeners s !! i = Some l -> Owed s r -> Owed (set_listener i (outcome_state (l_exec a e l)) s) r.
Proof.
  intros He Hi H. assert (Hl := law_exec true a e l He (Forall_lookup_1 _ _ _ _ (ow_inv _ _ H) Hi)).
  destruct (l_exec a e l) as [[] l'|x l'|l']; [| destruct Hl as [Hl _] | done];
    (apply (owed_listener s _ r i l l'); [done..| apply Hl | intros op; by eapply owed_progress | done]).
Qed.

Lemma owed_frame : Frame ok Owed.
Proof.
  split.
  - intros s s' r (H1 & _ & _ & _ & _ & _ & H2). by apply owed_rest.
  - intros i op type. apply neutral_atomic. intros e s r [He _] H. destruct (v_listeners s !! i) as [l|] eqn:Hi; [|done].
    assert (Hk := owed_call s r i l (LCancel op type) (x_listener e) He Hi H). by destruct (l_exec _ (x_listener e) l).
  - intros i. apply neutral_atomic. intros e s r [He _] H. destruct (v_listeners s !! i) as [l|] eqn:Hi; [|done].
    assert (Hk := owed_call s r i l LRequestStop (x_listener e) He Hi H).
    destruct (l_exec _ (x_listener e) l); (split; [|done]); [by eapply owed_rest; [..|exact Hk] | done | done].
  - intros k j i wait. apply neutral_atomic. intros e s r [He _] H. destruct (v_listeners s !! i) as [l|] eqn:Hi; [|done].
    set (a := if wait then LWait None None true else LStart None None true).
    assert (Hk := owed_call s r i l a (x_listener e) He Hi H).
    assert (Hl := law_exec true a (x_listener e) l He (Forall_lookup_1 _ _ _ _ (ow_inv _ _ H) Hi)).
    destruct (l_exec a (x_listener e) l) as [[] l'|x l'|l']; (split; [|done]); [|done|done]. simpl in Hk.
    split; simpl; [apply Hk|]. apply Forall_app. split; [exact (ow_children _ _ Hk)|]. apply Forall_singleton. simpl.
    exists l'. rewrite list_lookup_insert_eq by (by eapply lookup_lt_Some). split; [done|].
    destruct Hl as [_ _ _ _ Ho]. simpl in Ho. rewrite Ho. destruct wait; by left.
  - intros s reg r []. split; simpl.
    + apply Forall_fmap. eapply Forall_impl; [done|]. intros l Hl. by apply law_registry.
    + eapply Forall_impl; [done|]. intros [[i op] k] (l & Hl & Hop). simpl. exists (l_set_registry (Some reg) l).
      rewrite list_lookup_fmap, Hl. split; [done|].
      destruct (law_registry (Some reg) l (Forall_lookup_1 _ _ _ _ ow_inv0 Hl)) as (_ & _ & _ & ->). done.
Qed.

Lemma owed_new_listener make :
  (forall id l, make id = inr l -> fresh_listener l) -> Threads.neutral ok Owed True (add_new_listener make) (fun _ => True).
Proof.
  intros Hm. apply frame_new_listener; [apply owed_frame | done | | intros s r id H; by eapply owed_rest; [..|exact H]].
  intros s r l (Hl & _) []. split; simpl.
  - apply Forall_app. split; [done|]. apply Forall_singleton. by apply law_registry.
  - eapply Forall_impl; [done|]. intros [[i op] k] (l0 & Hl0 & Hop). exists l0. split; [|done]. by apply lookup_app_l_Some.
Qed.

Lemma reach_owed y : server_reach m_executor ok y -> Owed (fst y) [].
Proof.
  intros Hy. eapply (frame_reach m_executor ok Owed owed_frame) in Hy as (f & []); [by split | | | ..].
  - by intros s r r' _ [].
  - by intros s t f [].
  - by repeat constructor.
  - apply owed_new_listener.
  - intros s f i b e He H. unfold listener_runs. destruct (v_listeners s !! i) as [l|] eqn:Hi; [|done].
    assert (Hk := owed_call s f i l (LOwn b) (x_listener e) (proj1 He) Hi H). by destruct (l_exec (LOwn b) (x_listener e) l).
  - intros s f H. by eapply owed_rest; [..|exact H].
  - intros s n e f H. unfold run_server_task. destruct (v_queue s !! n) as [[ev|on [h|] ec]|]; try done;
      [rewrite notify_server_eq|..]; by eapply owed_rest; [..|exact H].
Qed.

(** When the listeners have no work left, they have dispatched what they owed. *)
Lemma idle_dispatched s :
  Owed s [] -> Forall (fun l => l_work l = false) (v_listeners s) ->
  Forall (fun x : nat * nat * nat => let '(i, op, _) := x in dispatched s i op = true) (v_children s).
Proof.
  intros [_ H] Hw. eapply Forall_impl; [exact H|]. intros [[i op] k] (l & Hl & Hop). unfold dispatched. rewrite Hl.
  apply bool_decide_eq_true, (law_work l op); [|done]. exact (Forall_lookup_1 _ _ _ _ Hw Hl).
Qed.
End Owed.
