(* ===== verification/StopReaches.v ===== *)
(** * Requested stops and the listeners they reach

    Whether a stop of the server reaches its listeners.  The server asks every listener
    to stop, those included whose start another thread is just submitting; a listener
    posts the stop to its strand, behind the starts it was given before, unless it is
    stopped at the moment of the request.  Here the strands run their posted starts and
    stops in order, and nobody but the server starts its listeners. *)

From S2P Require Import Prelude Errors Effect Options Endpoint Status Observers ListenerBase.
From S2P Require Import ListenerAccount ListenerInterface Threads ServerState ServerControl OperationGroup Server.
From S2P Require Import ServerCompletions ServerTheorems ServerLifecycle ServerStop ServerFrame ServerScenarios.
From S2P Require Import ListenerStop Connection Acceptor AcceptorObject Scenarios.

Local Open Scope Z_scope.

Section Reached.
Context {L E A : Type} `{HL : Listener L E A} `{!ListenerLaws HL} (m_executor : executor).

Implicit Types (s : server_world L) (e : server_env E).

(** Every listener that is not asked to stop any more, and did not ignore the request,
    has a stop behind its starts. *)
Record Due s (r : list unit) : Prop := {
  du_inv : Forall l_inv (v_listeners s);
  du_due i l : v_listeners s !! i = Some l -> i ∈ v_armed s \/ i ∈ v_skipped s \/ l_stop_due l = true }.

Abbreviation ok := (server_ok (L := L) (E := E) (A := A) true).

Lemma due_rest s s' r :
  v_listeners s' = v_listeners s -> v_armed s' = v_armed s -> v_skipped s' = v_skipped s -> Due s r -> Due s' r.
Proof. intros H1 H2 H3 []. split; rewrite ?H1, ?H2, ?H3; done. Qed.

(** Listener [i] changes, and the history of listener [i] only. *)
Lemma due_listener s s' r i l l' :
  v_listeners s !! i = Some l -> v_listeners s' = <[i := l']> (v_listeners s) -> l_inv l' ->
  (forall j, j <> i -> (j ∈ v_armed s -> j ∈ v_armed s') /\ (j ∈ v_skipped s -> j ∈ v_skipped s')) ->
  (i ∈ v_armed s' \/ i ∈ v_skipped s' \/ l_stop_due l' = true) -> Due s r -> Due s' r.
Proof.
  intros Hi Hs Hl Hj Hd []. split; rewrite Hs.
  - by apply Forall_insert.
  - intros j l0. destruct (decide (i = j)) as [<-|Hne].
    + rewrite list_lookup_insert_eq by (by eapply lookup_lt_Some). by intros [= <-].
    + rewrite list_lookup_insert_ne by done. intros Hl0. destruct (Hj j) as [H1 H2]; [done|].
      destruct (du_due0 j l0 Hl0) as [?|[?|?]]; auto.
Qed.

(** A call that keeps a due stop. *)
Lemma due_kept s r i l (a : listener_action A) (e : E) :
  l_ok true e -> keeps_stop (l_orderly l) a = true -> v_listeners s !! i = Some l -> Due s r ->
  Due (set_listener i (outcome_state (l_exec a e l)) s) r.
Proof.
  intros He Ha Hi H. assert (Hl := law_exec true a e l He (Forall_lookup_1 _ _ _ _ (du_inv _ _ H) Hi)).
  assert (Hk := law_stop_kept a e l Ha). apply (due_listener s _ r i l (outcome_state (l_exec a e l))); try done.
  - destruct (l_exec a e l); [apply Hl | apply Hl | done].
  - destruct (du_due _ _ H i l Hi) as [?|[?|Hd]]; [by left | by right; left|]. right. right. specialize (Hk Hd).
    by destruct (l_exec a e l).
Qed.

(** The history of a request. *)
Lemma due_asked s r i l e :
  ok e -> v_listeners s !! i = Some l -> Due s r ->
  match l_exec LRequestStop (x_listener e) l with
  | Ret _ l' => Due (asked_to_stop i l (set_listener i l' s)) r
  | _ => False
  end.
Proof.
  intros [He _] Hi H. assert (Hl := law_exec true LRequestStop (x_listener e) l He (Forall_lookup_1 _ _ _ _ (du_inv _ _ H) Hi)).
  assert (Hp := law_stop_posted (x_listener e) l He).
  destruct (l_exec LRequestStop (x_listener e) l) as [[] l'|x l'|l']; [| by destruct Hl | done].
  apply (due_listener s _ r i l l'); try done; [apply Hl | |].
  - intros j Hj. split; simpl; [set_solver|]. case_bool_decide; set_solver.
  - simpl. case_bool_decide as Hs; [right; left; set_solver | right; right; by apply Hp].
Qed.

Lemma due_frame : Frame ok Due.
Proof.
  split.
  - intros s s' r (H1 & _ & _ & _ & H2 & H3 & _). by apply due_rest.
  - intros i op type. apply neutral_atomic. intros e s r [He _] H. destruct (v_listeners s !! i) as [l|] eqn:Hi; [|done].
    assert (Hk := due_kept s r i l (LCancel op type) (x_listener e) He eq_refl Hi H).
    by destruct (l_exec _ (x_listener e) l).
  - intros i. apply neutral_atomic. intros e s r He H. destruct (v_listeners s !! i) as [l|] eqn:Hi; [|done].
    assert (Hk := due_asked s r i l e He Hi H). by destruct (l_exec _ (x_listener e) l).
  - intros k j i wait. apply neutral_atomic. intros e s r [He _] H. destruct (v_listeners s !! i) as [l|] eqn:Hi; [|done].
    destruct wait.
    + assert (Hk := due_kept s r i l (LWait None None true) (x_listener e) He eq_refl Hi H).
      destruct (l_exec _ (x_listener e) l); (split; [|done]); [by eapply due_rest; [..|exact Hk] | done | done].
    + assert (Hl := law_exec true (LStart None None true) (x_listener e) l He (Forall_lookup_1 _ _ _ _ (du_inv _ _ H) Hi)).
      destruct (l_exec _ (x_listener e) l) as [[] l'|x l'|l']; [| by destruct Hl as [_ ?] | done].
      split; [|done]. apply (due_listener s _ r i l l'); try done; [apply Hl | | simpl; set_solver].
      intros j' Hj. split; simpl; set_solver.
  - intros s reg r []. split; simpl.
    + apply Forall_fmap. eapply Forall_impl; [done|]. intros l Hl. by apply law_registry.
    + intros i l. rewrite list_lookup_fmap. destruct (v_listeners s !! i) as [l0|] eqn:Hi; [|done].
      intros [= <-]. rewrite law_stop_registry. by apply du_due0.
Qed.

Lemma due_push s r l :
  fresh_listener l -> Due s r -> Due (set_v_listeners (v_listeners s ++ [l_set_registry (Some (v_registry s)) l]) s) r.
Proof.
  intros (Hl & _ & _ & _ & Hd) []. split; simpl.
  - apply Forall_app. split; [done|]. apply Forall_singleton. by apply law_registry.
  - intros i l'. rewrite lookup_app. destruct (v_listeners s !! i) as [l0|] eqn:Hi.
    + intros [= <-]. by apply du_due0.
    + destruct (i - _)%nat; [|done]. intros [= <-]. right. right. by rewrite law_stop_registry.
Qed.

Lemma due_new_listener make :
  (forall id l, make id = inr l -> fresh_listener l) -> Threads.neutral ok Due True (add_new_listener make) (fun _ => True).
Proof.
  intros Hm. apply frame_new_listener; [apply due_frame | done | apply due_push|].
  intros s r id H. by eapply due_rest; [..|exact H].
Qed.

(** ** The system *)

(** An action of a listener's own runs posted starts and stops in order and starts
    nothing. *)
Definition orderly (a : server_action (L := L) (A := A)) (s : server_world L) : bool :=
  match a with
  | YListener i b => match v_listeners s !! i with Some l => l_orderly l b | None => true end
  | _ => true
  end.

Inductive ordered_reach : system -> Prop :=
| oreach_init : ordered_reach initial_server
| oreach_step y e a :
    ordered_reach y -> ok e -> action_ok a -> orderly a (fst y) = true -> ordered_reach (exec_server m_executor a e y).

Lemma ordered_server y : ordered_reach y -> server_reach m_executor ok y.
Proof. induction 1; [constructor | by apply sreach_step]. Qed.

Fixpoint orderly_run (l : list (server_env E * server_action)) (y : system) : bool :=
  match l with
  | [] => true
  | (e, a) :: l => orderly a (fst y) && orderly_run l (exec_server m_executor a e y)
  end.

Lemma run_ordered l y :
  Forall (fun x => ok (fst x) /\ action_ok (snd x)) l -> orderly_run l y = true -> ordered_reach y ->
  ordered_reach (run_server m_executor l y).
Proof.
  intros Hl. revert y. induction Hl as [|[e a] l [He Ha] _ IH]; intros y Ho Hy; simpl; [done|].
  simpl in Ho. apply andb_true_iff in Ho as [Ho1 Ho2]. apply IH; [done|]. by apply oreach_step.
Qed.

Abbreviation pool n s ts := (Threads.pool_with ok Due (fun _ => True) [] n s ts).

Lemma due_step y e a :
  ok e -> action_ok a -> orderly a (fst y) = true -> (forall n, pool n (fst y) (snd y)) ->
  forall n, pool n (fst (exec_server m_executor a e y)) (snd (exec_server m_executor a e y)).
Proof.
  intros He Ha Ho Hy. apply (frame_step m_executor ok Due due_frame) with
    (allowed := fun s i b => match v_listeners s !! i with Some l => l_orderly l b | None => true end = true); try done.
  - intros s r r' _ []. by split.
  - intros s t f []. by split.
  - apply due_new_listener.
  - intros s f i b e' He' Hb H. unfold listener_runs. destruct (v_listeners s !! i) as [l|] eqn:Hi; [|done].
    assert (Hk := due_kept s f i l (LOwn b) (x_listener e') (proj1 He') Hb Hi H).
    by destruct (l_exec (LOwn b) (x_listener e') l).
  - intros s f H. by eapply due_rest; [..|exact H].
  - intros s n e' f H. unfold run_server_task. destruct (v_queue s !! n) as [[ev|on [h|] ec]|]; try done;
      [rewrite notify_server_eq|..]; by eapply due_rest; [..|exact H].
  - by intros i b ->.
Qed.

Lemma ordered_due y : ordered_reach y -> Due (fst y) [].
Proof.
  intros Hy. assert (H : forall n, pool n (fst y) (snd y)).
  { induction Hy as [|y e a Hy IH He Ha Ho]; [|by apply due_step]. intros n. exists []. by split; [split|]. }
  destruct (H 0%nat) as (rs & [] & _). by split.
Qed.
End Reached.

Section Stopped.
Context {L E A : Type} `{HL : Listener L E A} `{!ListenerLaws HL} (m_executor : executor).

(** C6: a requested stop reaches every listener but those that ignore the request.  When
    the calls have returned and the server is stopping because of [request_stop], every
    listener was asked to stop after the last start that the server submitted to it,
    also when the submission raced with the stop; and unless it was stopped at the
    moment of that request, so that it returned at once (listener.h:334; [v_skipped] holds
    those listeners), a stop is posted behind its starts or has run: once they have run
    the listener does not run.
    The executors accept work, each strand runs its posted starts and stops in order, and
    nobody but the server starts its listeners. *)
Theorem stop_reaches_every_listener s i l :
  ordered_reach m_executor (s, []) ->
  v_state s = server_state.stopping -> v_stop_requested s = true ->
  v_listeners s !! i = Some l -> i ∉ v_skipped s -> l_stop_due l = true.
Proof.
  intros H H1 H2 Hi Hs. assert (Hd := ordered_due m_executor _ H).
  destruct (reach_life m_executor true _ _ (ordered_server m_executor _ H)) as (r & [] & Hr). specialize (Hr eq_refl) as ->.
  destruct (du_due _ _ Hd i l Hi) as [Ha|[?|?]]; [|done|done].
  destruct (lf_stop eq_refl H1 H2 i Ha) as (t & Ht & _). by apply elem_of_nil in Ht.
Qed.
End Stopped.

(** ** Executions *)

Lemma play_ordered l :
  Forall step_ok l ->
  orderly_run system_executor (map (fun x => (answers (fst x), snd x)) l) initial_server = true -> snd (play l) = [] ->
  ordered_reach system_executor (fst (play l), []).
Proof.
  intros Hl Ho <-. rewrite <- surjective_pairing. apply run_ordered; [|done|constructor].
  apply Forall_map. eapply Forall_impl; [exact Hl|]. intros [e a] [He Ha]. split; [by apply answers_ok | done].
Qed.

(** The stop comes when the start has submitted the first listener only; no posted task
    has run yet. *)
Lemma stop_reaches_every_listener_witness :
  v_skipped (fst (play stop_races_start)) = ∅ /\
  exists l, v_listeners (fst (play stop_races_start)) !! 1%nat = Some l /\
    marks (w_queue (snd l)) = [false; true; false] /\ l_stop_due l = true.
Proof.
  assert (Hs : v_skipped (fst (play stop_races_start)) = ∅) by (vm_compute; reflexivity). split; [exact Hs|].
  destruct (v_listeners (fst (play stop_races_start)) !! 1%nat) as [l|] eqn:Hl; [|vm_compute in Hl; discriminate].
  exists l. split; [reflexivity|]. split; [vm_compute in Hl; injection Hl as <-; reflexivity|].
  apply (stop_reaches_every_listener system_executor (fst (play stop_races_start)) 1%nat l).
  - apply play_ordered; [apply stop_races_start_ok | vm_compute; reflexivity | vm_compute; reflexivity].
  - vm_compute. reflexivity.
  - vm_compute. reflexivity.
  - exact Hl.
  - rewrite Hs. apply not_elem_of_empty.
Defined.

(** The second listener has stopped before its start is submitted. *)
Definition stop_overtakes_start : list (aenv * server_step) :=
  two_listeners ++ [(calm, YStart None None false)] ++ thread 0 40 ++ [(calm, YRequestStop)] ++
  thread 1 60 ++ listener 1 1 ++ thread 0 100 ++ listener 0 6 ++ [(calm, YListener 0 (AIo 0 operation_aborted))] ++
  listener 0 6 ++ listener 1 6 ++ thread 0 60 ++ thread 0 60 ++ tasks 6.

Lemma stop_overtakes_start_ok : Forall step_ok stop_overtakes_start.
Proof. script. Qed.

(** A requested stop may leave a listener running.  When the stop that [request_stop]
    posts to an idle listener runs before [async_start] submits the start of that
    listener, the request with which [async_start] makes up for it finds the listener
    stopped and is ignored, and the start runs: the start of the server completes with
    [operation_aborted], every thread has returned, nothing is posted any more, the
    server is stopping and the listener runs. *)
Theorem stop_may_miss_listener :
  exists s, ordered_reach system_executor (s, []) /\
    v_state s = server_state.stopping /\ v_stop_requested s = true /\ v_queue s = [] /\
    map (fun x => snd x) (v_completed s) = [operation_aborted] /\
    map (fun l => ls_state (l_status l)) (v_listeners s) = [listener_state.stopped; listener_state.running] /\
    map (fun l => length (w_queue (snd l))) (v_listeners s) = [0%nat; 0%nat] /\
    elements (v_skipped s) = [1%nat].
Proof.
  exists (fst (play stop_overtakes_start)). split; [|vm_compute; repeat split; reflexivity].
  apply play_ordered; [apply stop_overtakes_start_ok | vm_compute; reflexivity | vm_compute; reflexivity].
Qed.
