(* ===== verification/ServerIdentity.v ===== *)
(** * The identifiers of a server's listeners

    [next_listener_id] hands out consecutive numbers from an atomic counter, and a
    listener keeps the number it was constructed with.  A thread that took a number
    but has not registered its listener yet owns the number, and every call of
    [listen] or [bind] uses up one right to take one. *)

From S2P Require Import Prelude Errors Effect Options Endpoint Status Observers ListenerBase.
From S2P Require Import ListenerInterface Threads ServerState ServerControl OperationGroup Server ServerFrame.

Local Open Scope Z_scope.

#[local] Arguments countb : simpl never.

(** [IRight]: a number may be taken; [IHeld id]: the thread holds the number [id]. *)
Inductive id_token := IRight | IHeld (id : Z).

Definition token_ids (t : id_token) : list Z := match t with IHeld id => [id] | IRight => [] end.
Definition is_right (t : id_token) : bool := match t with IRight => true | IHeld _ => false end.

Section Identity.
Context {L E A : Type} `{HL : Listener L E A} `{!KeepsIdentity HL} (m_executor : executor).
Context (calls : Z) (Hcalls : calls < u64_modulus).

Implicit Types (s : server_world L) (e : server_env E) (r f : list id_token).

(** Numbers are taken in order, without wrapping; no two listeners, registered or
    about to be, have the same.  [calls]: how often [listen] and [bind] are called. *)
Record Ids (s : server_world L) (r : list id_token) : Prop := {
  id_unique : NoDup (flat_map token_ids r ++ idents s);
  id_range : Forall (fun id => 0 < id <= v_next_listener_id s) (flat_map token_ids r ++ idents s);
  id_count : 0 <= v_next_listener_id s;
  id_budget : v_next_listener_id s + Z.of_nat (countb is_right r) <= calls }.

Abbreviation any := (fun _ : server_env E => True).

Lemma ids_perm s r r' : r ≡ₚ r' -> Ids s r -> Ids s r'.
Proof.
  intros Hp []. assert (Hf : flat_map token_ids r ++ idents s ≡ₚ flat_map token_ids r' ++ idents s) by (by rewrite Hp).
  split; [by rewrite <- Hf | by rewrite <- Hf | done | by rewrite <- (countb_perm _ _ _ Hp)].
Qed.

Lemma ids_drop s t f : Ids s (t :: f) -> Ids s f.
Proof.
  intros []. split; [| | done |].
  - destruct t; [exact id_unique0|]. simpl in id_unique0. by apply NoDup_cons in id_unique0 as [].
  - destruct t; [exact id_range0|]. simpl in id_range0. by apply Forall_cons in id_range0 as [].
  - rewrite countb_cons in id_budget0. lia.
Qed.

Lemma ids_frame s s' r :
  idents s' = idents s -> v_next_listener_id s' = v_next_listener_id s -> Ids s r -> Ids s' r.
Proof. intros H1 H2 []. by split; rewrite ?H1, ?H2. Qed.

Lemma ids_counts s s' r : same_counts s s' -> Ids s r -> Ids s' r.
Proof. intros (H1 & H2 & _). by apply ids_frame. Qed.

(** ** A new listener *)

Definition numbered (make : Z -> exn + L) : Prop := forall id l, make id = inr l -> ident l = id.

Lemma ids_take s r :
  Ids s (IRight :: r) ->
  let id := u64 (v_next_listener_id s + 1) in Ids (set_v_next_listener_id id s) (IHeld id :: r).
Proof.
  intros [Hu Hr Hc Hb]. rewrite countb_cons in Hb. simpl in *. rewrite (u64_small (_ + 1)) by lia.
  split; simpl; [| | lia | rewrite countb_cons; simpl; lia].
  - apply NoDup_cons. split; [|done]. intros Hin. apply (proj1 (Forall_forall _ _) Hr) in Hin. lia.
  - apply Forall_cons. split; [lia|]. eapply Forall_impl; [exact Hr|]. simpl. lia.
Qed.

Lemma ids_push s r l :
  Ids s (IHeld (ident l) :: r) -> Ids (set_v_listeners (v_listeners s ++ [l_set_registry (Some (v_registry s)) l]) s) r.
Proof.
  intros [Hu Hr Hc Hb]. rewrite countb_cons in Hb. simpl in *.
  assert (Hp : flat_map token_ids r ++ idents (set_v_listeners (v_listeners s ++ [l_set_registry (Some (v_registry s)) l]) s)
               ≡ₚ ident l :: flat_map token_ids r ++ idents s).
  { unfold idents. simpl. rewrite map_app. simpl. rewrite law_ident_registry. solve_Permutation. }
  split; simpl; [by rewrite Hp | by rewrite Hp | done | done].
Qed.

Lemma thread_new_listener n make :
  numbered make -> Threads.wpt any Ids n (add_new_listener make) [IRight] (fun _ _ => True) (fun _ _ => True).
Proof.
  intros Hm. unfold add_new_listener. apply wpt_bind, wpt_atomic. intros e s f _ H.
  eexists [IHeld _]. split; [exact (ids_take s f H)|]. set (id := u64 _). clearbody id. clear e s f H.
  destruct (make id) as [x|l] eqn:Hl; [by apply wpt_throw|]. apply Hm in Hl as <-. unfold add_listener.
  apply wpt_bind. eapply wpt_neutral; [apply fr_lock, counts_frame, ids_counts | intros _ _ | done].
  assert (Hu : forall n r, Threads.wpt any Ids n unlock r (fun _ _ => True) (fun _ _ => True)).
  { intros m r. eapply wpt_neutral; [apply fr_unlock, counts_frame, ids_counts | done | done]. }
  apply wpt_bind, wpt_try, wpt_atomic. intros e s f _ H. destruct (_ <=? _).
  - exists [IHeld (ident l)]. split; [done|]. apply wpt_bind. eapply wpt_mono; [done | apply Hu | | done].
    intros _ r _. by apply wpt_throw.
  - exists []. split; [by apply ids_push|]. apply Hu.
Qed.

(** ** The system *)

Abbreviation pool_with kept n s ts := (Threads.pool_with any Ids (fun _ => True) kept n s ts).

Definition numbered_action (a : server_action (L := L) (A := A)) : Prop :=
  match a with YListen make => numbered make | _ => True end.

(** The calls of [listen] and [bind] still to come keep their rights. *)
Lemma ids_step m y e a :
  numbered_action a -> (forall n, pool_with (replicate (m + countb is_listen [a]) IRight) n (fst y) (snd y)) ->
  forall n, pool_with (replicate m IRight) n (fst (exec_server m_executor a e y)) (snd (exec_server m_executor a e y)).
Proof.
  intros Ha Hy. destruct (is_listen a) eqn:Hl.
  - destruct a as [| | | |make| | | | |]; try done. intros n. destruct y as [s ts]. simpl in *.
    apply (pool_spawn_with _ _ _ ids_perm (replicate (m + 1) IRight) _ n s s ts [_] [[IRight]]).
    + revert Hy. by rewrite countb_cons, countb_nil.
    + repeat constructor. eapply wpt_mono; [done | by apply thread_new_listener | |]; intros; by apply Forall_forall.
    + intros f Hf. eapply ids_perm; [|exact Hf]. rewrite replicate_add. simpl. solve_Permutation.
  - apply frame_exec; [apply counts_frame, ids_counts | apply ids_perm | intros ????; by eapply ids_drop | done | done | | | |].
    + intros i b _ f. by apply ids_counts, counts_runs.
    + intros _ s f. by apply ids_frame.
    + intros s n e' f. apply ids_frame; apply counts_task.
    + intros n. specialize (Hy n). revert Hy. rewrite countb_cons, countb_nil, Hl. by rewrite !Nat.add_0_r.
Qed.
End Identity.

Section Runs.
Context {L E A : Type} `{HL : Listener L E A} `{!KeepsIdentity HL} (m_executor : executor).

Lemma no_held m : flat_map token_ids (replicate m IRight) = [].
Proof. by induction m. Qed.

(** The rights that are left are those of the calls to come. *)
Lemma run_server_ids calls (l : list (server_env E * server_action)) y :
  calls < u64_modulus -> Forall (fun x => numbered_action (snd x)) l ->
  (forall n, Threads.pool_with (fun _ => True) (Ids calls) (fun _ => True)
     (replicate (countb is_listen (map snd l)) IRight) n (fst y) (snd y)) ->
  exists r, Ids calls (fst (run_server m_executor l y)) r.
Proof.
  intros Hc Hl. revert y. induction Hl as [|[e a] l Ha _ IH]; intros y H; simpl.
  - destruct (H 0%nat) as (rs & Hi & _). eauto.
  - apply IH, ids_step; [done | done|]. intros n. specialize (H n). simpl in H. revert H.
    rewrite !countb_cons, countb_nil. by rewrite Nat.add_0_r, Nat.add_comm.
Qed.

Lemma idents_distinct (l : list (server_env E * server_action)) :
  Forall (fun x => numbered_action (snd x)) l ->
  Z.of_nat (countb is_listen (map snd l)) < u64_modulus ->
  let s := fst (run_server m_executor l initial_server) in
  NoDup (idents s) /\
  Forall (fun id => 0 < id <= Z.of_nat (countb is_listen (map snd l))) (idents s).
Proof.
  intros Hl Hc s. edestruct (run_server_ids (Z.of_nat (countb is_listen (map snd l))) l initial_server) as [r [Hu Hr _ Hb]];
    [done | done | |].
  - intros n. exists []. split; [|constructor]. split; simpl; rewrite ?app_nil_r, ?no_held; try done; try constructor.
    rewrite countb_replicate. simpl. lia.
  - fold s in Hu, Hr, Hb. split; [by apply NoDup_app in Hu as (_ & _ & ?)|].
    apply Forall_app in Hr as [_ Hr]. eapply Forall_impl; [exact Hr|]. simpl. lia.
Qed.
End Runs.
