(* ===== verification/ServerListeners.v ===== *)
(** * Listeners of a server

    [listen] and [bind] of include/serveza/server.h: a server holds acceptor
    listeners and bound-socket listeners through pointers to their base class.
    What a call does on every branch, and that the listeners of a server are told
    apart by their numbers, in every status and event. *)

From S2P Require Import Prelude Errors Effect Options Endpoint Status Observers ListenerBase.
From S2P Require Import ListenerInterface Threads ServerState ServerControl OperationGroup Server.
From S2P Require Import ListenerAccount ServerCompletions ServerBehaviour ServerFrame ServerIdentity ServerScenarios.
From S2P Require Import Connection Acceptor Scenarios SocketListener SocketTheorems AcceptorObject SocketObject.

Local Open Scope Z_scope.

(** ** The objects *)

Definition object : Type := acceptor_object + socket_object.
Definition object_env : Type := aenv * senv.
Definition object_action : Type := Acceptor.action + SocketListener.action.

Global Instance object_listener : Listener object object_env object_action := sum_listener.

Global Instance object_laws : ListenerLaws object_listener.
Proof. apply sum_laws; apply _. Qed.

Lemma on_world_config {C W B} (c : C) (o : outcome W B) : fst (outcome_state (on_world c o)) = c.
Proof. by destruct o. Qed.

Global Instance acceptor_identity : KeepsIdentity acceptor_listener.
Proof. split; [|done]. intros a e [cfg w]. exact (f_equal c_id (on_world_config cfg _)). Qed.

Global Instance socket_identity : KeepsIdentity socket_listener.
Proof. split; [|done]. intros a e [cfg w]. exact (f_equal c_id (on_world_config cfg _)). Qed.

Global Instance object_identity : KeepsIdentity object_listener.
Proof. apply sum_identity; apply _. Qed.

(** ** [listen] and [bind] *)

(** [std::make_shared<basic_acceptor_listener<...>>(...)]. *)
Definition new_acceptor (ep : endpoint) (options : listener_options) (id : Z) : exn + object :=
  let cfg := mk_config id ep options in
  match Acceptor.make_listener cfg None with
  | inl x => inl x
  | inr w => inr (inl (cfg, w))
  end.

(** [std::make_shared<detail::basic_socket_listener<...>>(...)]. *)
Definition new_socket (ep : endpoint) (options : listener_options) (id : Z) : exn + object :=
  let cfg := mk_config id ep options in
  match SocketListener.make_listener cfg None with
  | inl x => inl x
  | inr w => inr (inr (cfg, w))
  end.

Abbreviation P := (prog (server_env object_env) (server_world object)).

Definition listen (ep : endpoint) (options : listener_options) : P unit := add_new_listener (new_acceptor ep options).

Definition bind (ep : endpoint) (options : listener_options) : P unit := add_new_listener (new_socket ep options).

(** [listeners()]: the pointers registered now. *)
Definition listeners : P (list nat) := snapshot.

(** The destructor requests a stop; the executor drains it later. *)
Definition destroy_server : P unit := server_request_stop.

(** What a new listener reports. *)
Definition idle_status (id : Z) (ep : endpoint) : listener_status :=
  {| ls_state := listener_state.idle; ls_stop_reason := listener_stop_reason.none; ls_listener_id := id;
     ls_generation := 0; ls_active_sessions := 0; ls_endpoint := endpoint_string ep;
     ls_last_error := success; ls_last_exception := None |}.

Lemma new_acceptor_cases ep options id :
  match validate_acceptor_options options with
  | inl x => new_acceptor ep options id = inl x
  | inr _ => exists l, new_acceptor ep options id = inr l /\ fresh_listener l /\ l_status l = idle_status id ep
  end.
Proof.
  unfold new_acceptor, Acceptor.make_listener. simpl. destruct (validate_acceptor_options options); [done|].
  eexists. split; [done|]. split; [|done]. split_and!; [apply submseteq_nil_l | done..].
Qed.

Lemma new_socket_cases ep options id :
  match validate_socket_options options with
  | inl x => new_socket ep options id = inl x
  | inr _ => exists l, new_socket ep options id = inr l /\ fresh_listener l /\ l_status l = idle_status id ep
  end.
Proof.
  unfold new_socket, SocketListener.make_listener. simpl. destruct (validate_socket_options options); [done|].
  eexists. split; [done|]. split; [|done]. split_and!; [apply submseteq_nil_l | done..].
Qed.

(** A call that nothing disturbs, whatever the constructor does. *)
Definition registered (s : server_world object) (made : exn + object) (r : exn + unit) (s' : server_world object) : Prop :=
  let numbered := set_v_next_listener_id (u64 (v_next_listener_id s + 1)) s in
  match made with
  | inl x => r = inl x /\ s' = numbered
  | inr l =>
    if vector_max_size <=? Z.of_nat (length (v_listeners s))
    then (exists x, r = inl x) /\ s' = numbered
    else r = inr tt /\
      s' = set_v_listeners (v_listeners s ++ [l_set_registry (Some (v_registry s)) l]) numbered
  end.

Lemma ends_add_new_listener make (s : server_world object) :
  v_locked s = false ->
  ends (fun _ => True) (registered s (make (u64 (v_next_listener_id s + 1)))) (add_new_listener make) s.
Proof.
  intros Hl. apply ends_bind, ends_atomic. intros e _. simpl. set (id := u64 _). unfold registered.
  set (s1 := set_v_next_listener_id id s). destruct (make id) as [x|l]; [by apply ends_throw|].
  unfold add_listener, lock, unlock. apply ends_bind, ends_iter, ends_atomic. intros e1 _.
  replace (v_locked s1) with false by done. apply ends_bind, ends_try, ends_atomic. intros e2 _. simpl.
  destruct (_ <=? _).
  - apply ends_bind, ends_write, ends_throw. split; [eauto|]. subst s1. destruct s. simpl in *. by subst.
  - apply ends_write. split; [done|]. subst s1. destruct s. simpl in *. by subst.
Qed.

(** ** Statements *)

(** C29: what [listen] and [bind] do when no other thread interferes.  Each call
    takes the next number.  Invalid options throw the violated limit and a full
    registry throws, and then no listener is registered; otherwise an idle listener
    with that number and the configured endpoint is appended, and nothing else of the
    server changes. *)
Theorem listener_registration (s : server_world object) ep options :
  v_locked s = false ->
  let id := u64 (v_next_listener_id s + 1) in
  let outcome validated r s' :=
    v_next_listener_id s' = id /\
    match validated with
    | inl x => r = inl x /\ v_listeners s' = v_listeners s
    | inr tt =>
      if vector_max_size <=? Z.of_nat (length (v_listeners s))
      then (exists x, r = inl x) /\ v_listeners s' = v_listeners s
      else r = inr tt /\ exists l, v_listeners s' = v_listeners s ++ [l] /\ l_status l = idle_status id ep
    end /\
    s' = set_v_listeners (v_listeners s') (set_v_next_listener_id id s) in
  ends (fun _ => True) (outcome (validate_acceptor_options options)) (listen ep options) s /\
  ends (fun _ => True) (outcome (validate_socket_options options)) (bind ep options) s.
Proof.
  intros Hl id outcome.
  assert (Hall : forall make validated,
    (match validated with
     | inl x => make id = inl x
     | inr _ => exists l, make id = inr l /\ fresh_listener l /\ l_status l = idle_status id ep
     end) -> ends (fun _ => True) (outcome validated) (add_new_listener make) s).
  { intros make validated Hm. eapply ends_mono; [by apply ends_add_new_listener|]. fold id.
    intros r s'. unfold registered. fold id. destruct validated as [x|[]].
    - rewrite Hm. intros [-> ->]. unfold outcome. by destruct s.
    - destruct Hm as (l & -> & _ & Hst). unfold outcome. destruct (_ <=? _).
      + intros [Hx ->]. by destruct s.
      + intros [-> ->]. split; [done|]. split; [|by destruct s]. split; [done|]. eexists. split; [done|].
        rewrite <- Hst. by destruct l. }
  split; apply Hall; [apply new_acceptor_cases | apply new_socket_cases].
Qed.

(** The actions on a server of this library: its listeners come from [listen] and
    [bind]. *)
Definition library_action (a : server_action (L := object) (A := object_action)) : Prop :=
  match a with
  | YListen make => exists ep options, make = new_acceptor ep options \/ make = new_socket ep options
  | _ => True
  end.

Lemma made_idle ep options id l :
  new_acceptor ep options id = inr l \/ new_socket ep options id = inr l ->
  fresh_listener l /\ l_status l = idle_status id ep.
Proof.
  intros [Hl|Hl]; [assert (H := new_acceptor_cases ep options id) | assert (H := new_socket_cases ep options id)];
    rewrite Hl in H; case_match; try done; by destruct H as (? & [= <-] & ?).
Qed.

Lemma library_numbered a : library_action a -> numbered_action a.
Proof.
  destruct a; simpl; try done. intros (ep & options & Hm) id l Hl.
  exact (f_equal ls_listener_id (proj2 (made_idle ep options id l ltac:(destruct Hm; subst; auto)))).
Qed.

(** They are fresh listeners, so all theorems about reachable servers apply. *)
Lemma library_ok a : library_action a -> action_ok a.
Proof.
  destruct a; simpl; try done. intros (ep & options & Hm) id l Hl.
  apply (made_idle ep options id l). destruct Hm; subst; auto.
Qed.

(** C28: the listeners of a server are told apart by their numbers.  However threads
    interleave, and whatever executors and constructors refuse, as long as [listen]
    and [bind] are called less than 2^64 times no two registered listeners report
    the same number, and every number is between 1 and the number of calls. *)
Theorem listener_numbers_distinct m_executor (l : list (server_env object_env * server_action)) :
  Forall (fun x => library_action (snd x)) l ->
  Z.of_nat (countb is_listen (map snd l)) < u64_modulus ->
  let s := fst (run_server m_executor l initial_server) in
  NoDup (map ls_listener_id (items s)) /\
  Forall (fun id => 0 < id <= Z.of_nat (countb is_listen (map snd l))) (map ls_listener_id (items s)).
Proof.
  intros Hl Hc. simpl. unfold items. rewrite map_map. apply (idents_distinct m_executor l); [|done].
  eapply Forall_impl; [exact Hl|]. intros [e a] Ha. by apply library_numbered.
Qed.

(** ** Witnesses *)

Definition object_calm : server_env object_env :=
  mk_server_env false (fun _ => None) (calm, socket_calm).

(** Two acceptors and a bound socket are registered by three threads that
    interleave; the options of the second acceptor are invalid. *)
Definition three_calls : list (server_env object_env * server_action (L := object) (A := object_action)) :=
  map (pair object_calm)
    ([YListen (new_acceptor demo_endpoint demo_options);
      YListen (new_acceptor demo_endpoint (mk_options 0 0 1 0 0 1 true true));
      YListen (new_socket demo_endpoint default_options)] ++
     replicate 3 (YThread 2) ++ replicate 60 (YThread 1) ++ replicate 30 (YThread 0) ++ replicate 30 (YThread 0)).

Lemma listener_numbers_distinct_witness :
  map ls_listener_id (items (fst (run_server system_executor three_calls initial_server))) = [1; 3] /\
  NoDup (map ls_listener_id (items (fst (run_server system_executor three_calls initial_server)))) /\
  Forall (fun id => 0 < id <= 3) (map ls_listener_id (items (fst (run_server system_executor three_calls initial_server)))).
Proof.
  split; [vm_compute; reflexivity|]. apply (listener_numbers_distinct system_executor three_calls).
  - apply Forall_map. repeat (apply Forall_app; split); try (by apply Forall_replicate);
      repeat (apply Forall_cons; split; [simpl; eauto 6|]); apply Forall_nil_2.
  - vm_compute. reflexivity.
Defined.

Lemma listener_registration_witness :
  v_locked (initial_server (L := object) (E := object_env)).1 = false /\
  ends (fun _ => True)
    (fun r (s' : server_world object) => v_next_listener_id s' = 1 /\
       (r = inr tt /\ exists l, v_listeners s' = [l] /\ l_status l = idle_status 1 demo_endpoint) /\
       s' = set_v_listeners (v_listeners s') (set_v_next_listener_id 1 (initial_server (L := object) (E := object_env)).1))
    (listen demo_endpoint demo_options) (initial_server (L := object) (E := object_env)).1.
Proof.
  split; [reflexivity|].
  exact (proj1 (listener_registration (initial_server (L := object) (E := object_env)).1 demo_endpoint demo_options eq_refl)).
Defined.
