(* ===== verification/ServerProgram.v ===== *)
(** * An example program and its server

    The control of the callback examples (ExampleControl.v) composed with the server
    of Server.v: [main] calls [server.async_wait] and [server.async_start], the
    handlers of a signal and of a failed start call [server.request_stop], and the
    completion handlers run when the server has dispatched them to the control
    strand.  The server may hold any listeners; it was made, and its listeners
    registered, before.  A call that [main] or a handler makes is a thread of the
    server, which the rest of the program need not wait for: the interleavings
    include those of the program. *)

From S2P Require Import Prelude Errors Effect Options Endpoint Status Observers ListenerBase.
From S2P Require Import ListenerInterface Threads ServerState ServerControl OperationGroup Server.
From S2P Require Import ListenerAccount ServerCompletions ServerTheorems ServerFrame Coroutine ExampleControl.

Section Program.
Context {L E A : Type} `{HL : Listener L E A}.
Context (m_executor control_strand : executor) (message : error_code -> string) (x : texts).

(** [p_wait] and [p_start]: the operations [main] began. *)
Record program := mk_program {
  p_server : system (L := L) (E := E);
  p_main : list (control -> control) * control;
  p_wait : option nat;
  p_start : option nat }.

(** [main] goes on, a signal arrives or the wait for one was cancelled, the handler of
    the [n]-th completion the server logged runs, or the server acts. *)
Inductive program_event :=
| GMain
| GSignal
| GSignalAborted
| GHandler (n : nat)
| GServer (a : server_action (L := L) (A := A)).

(** What the server does by itself. *)
Definition internal (a : server_action (L := L) (A := A)) : bool :=
  match a with YListener _ _ | YTask _ | YThread _ => true | _ => false end.

Definition handler_of (n : nat) (p : program) : option event :=
  match v_completed (fst (p_server p)) !! n with
  | None => None
  | Some (_, op, ec) =>
    if bool_decide (p_wait p = Some op) then Some (EWait ec)
    else if bool_decide (p_start p = Some op) then Some (EStart ec)
    else None
  end.

(** [main_body] names three statements: the wait for signals, [server.async_wait] and
    [server.async_start], both with a handler bound to the control strand. *)
Definition main_calls (e : server_env E) (p : program) : program :=
  let '(y, op) := (p_server p, Some (v_next_op (fst (p_server p)))) in
  match length (fst (p_main p)) with
  | 2 => mk_program (exec_server m_executor (YWait (Some control_strand) None false) e y) (p_main p) op (p_start p)
  | 1 => mk_program (exec_server m_executor (YStart (Some control_strand) None false) e y) (p_main p) (p_wait p) op
  | _ => p
  end.

(** The control takes a step; [request_stop] is called where the control says so. *)
Definition control_step (ev : event) (e : server_env E) (p : program) : program :=
  let next := step message x ev (p_main p) in
  let y := if bool_decide (k_stops (snd next) = k_stops (snd (p_main p))) then p_server p
           else exec_server m_executor YRequestStop e (p_server p) in
  mk_program y next (p_wait p) (p_start p).

Definition exec_program (ev : program_event) (e : server_env E) (p : program) : program :=
  match ev with
  | GMain => control_step EMain e (main_calls e p)
  | GSignal => control_step ESignal e p
  | GSignalAborted => control_step ESignalAborted e p
  | GHandler n => match handler_of n p with Some ev => control_step ev e p | None => p end
  | GServer a => if internal a then mk_program (exec_server m_executor a e (p_server p)) (p_main p) (p_wait p) (p_start p) else p
  end.

Fixpoint run_program (l : list (server_env E * program_event)) (p : program) : program :=
  match l with
  | [] => p
  | (e, ev) :: l => run_program l (exec_program ev e p)
  end.

Definition new_program (y : system) : program := mk_program y (main_body, initial) None None.

(** ** What stays true of the server's operations *)

(** An operation was begun; it completed with [ec]. *)
Inductive fact := FOp (op : nat) | FDone (op : nat) (ec : error_code).

Definition holds (s : server_world L) (t : fact) : Prop :=
  match t with
  | FOp op => op < v_next_op s
  | FDone op ec => exists on, (on, op, ec) ∈ v_completed s
  end.

Definition Facts (s : server_world L) (r : list fact) : Prop := Forall (holds s) r.

Lemma facts_perm s r r' : r ≡ₚ r' -> Facts s r -> Facts s r'.
Proof. unfold Facts. by intros ->. Qed.

Lemma facts_drop s t f : Facts s (t :: f) -> Facts s f.
Proof. by intros [_ ?]%Forall_cons. Qed.

Lemma facts_grow s s' r :
  v_next_op s <= v_next_op s' -> v_completed s `prefix_of` v_completed s' -> Facts s r -> Facts s' r.
Proof.
  intros Hn [l Hl] H. eapply Forall_impl; [exact H|]. intros [op|op ec]; simpl; [lia|]. intros [on Hin].
  exists on. rewrite Hl. by apply elem_of_app; left.
Qed.

Lemma facts_counts s s' r : same_counts s s' -> Facts s r -> Facts s' r.
Proof. intros (_ & _ & H1 & H2). apply facts_grow; [by rewrite H1 | by rewrite H2]. Qed.

Context `{!ListenerLaws HL} `{!KeepsIdentity HL} (exact : bool).

Abbreviation pool_with kept n s ts := (Threads.pool_with (fun _ : server_env E => True) Facts (fun _ => True) kept n s ts).

Definition knows (kept : list fact) (y : system) : Prop := forall n, pool_with kept n (fst y) (snd y).

Lemma knows_facts kept y : knows kept y -> Facts (fst y) kept.
Proof. intros H. destruct (H 0) as (rs & Hf & _). by apply Forall_app in Hf as [? _]. Qed.

Lemma knows_more kept kept' y : knows kept y -> Facts (fst y) kept' -> knows kept' y.
Proof.
  intros H Hf n. destruct (H n) as (rs & Hi & Hr). exists rs. split; [|done]. apply Forall_app. split; [done|].
  by apply Forall_app in Hi as [_ ?].
Qed.

Lemma knows_exec kept y e a : is_listen a = false -> knows kept y -> knows kept (exec_server m_executor a e y).
Proof.
  intros Ha H. unfold knows.
  apply frame_exec; [apply counts_frame, facts_counts | apply facts_perm | intros ????; by eapply facts_drop | done | done | | | | done].
  - intros i b _ f. by apply facts_counts, counts_runs.
  - intros _ s f. apply facts_grow; simpl; [lia | done].
  - intros s n e' f. destruct (counts_task s n e') as (_ & _ & H1 & H2). apply facts_grow; [by rewrite H1 | done].
Qed.

(** The facts about the operations of [main]. *)
Definition op_facts (op : option nat) (done : progress) : list fact :=
  match op with
  | None => []
  | Some op => FOp op :: match done with Done ec => [FDone op ec] | _ => [] end
  end.

Definition facts (p : program) : list fact :=
  op_facts (p_wait p) (k_wait (snd (p_main p))) ++ op_facts (p_start p) (k_start (snd (p_main p))).

Record program_inv (p : program) : Prop := {
  pi_server : server_reach m_executor (server_ok exact) (p_server p);
  pi_main : callback_inv (p_main p);
  pi_facts : knows (facts p) (p_server p);
  pi_wait : p_wait p = None <-> k_wait (snd (p_main p)) = NotBegun;
  pi_start : p_start p = None <-> k_start (snd (p_main p)) = NotBegun;
  pi_distinct op : p_wait p = Some op -> p_start p <> Some op }.

Lemma inv_server p e a :
  server_ok exact e -> is_listen a = false -> program_inv p ->
  program_inv (mk_program (exec_server m_executor a e (p_server p)) (p_main p) (p_wait p) (p_start p)).
Proof.
  intros He Ha []. split; simpl; try done; [|by apply knows_exec].
  apply sreach_step; [done | done | by destruct a].
Qed.

(** ** The control *)

(** A step of a handler, and what it does to the operations. *)
Lemma step_ops ev (m : list (control -> control) * control) :
  ev <> EMain ->
  k_wait (snd (step message x ev m)) =
    match ev, k_wait (snd m) with EWait ec, Pending => Done ec | _, w => w end /\
  k_start (snd (step message x ev m)) =
    match ev, k_start (snd m) with EStart ec, Pending => Done ec | _, w => w end.
Proof.
  destruct m as [rest k]. destruct ev as [| | |ec|ec]; intros Hne; try done; simpl.
  - exact (signalled_ops x ESignal k).
  - exact (signalled_ops x ESignalAborted k).
  - destruct (k_wait k) eqn:Hw; simpl; rewrite ?Hw; try done.
    destruct (on_wait_ops message x ec (set_wait (Done ec) k)) as [-> ->]. done.
  - destruct (k_start k) eqn:Hw; simpl; rewrite ?Hw; try done.
    destruct (on_start_ops message x ec (set_start (Done ec) k)) as (-> & -> & _). done.
Qed.

Lemma step_rest ev (m : list (control -> control) * control) : ev <> EMain -> fst (step message x ev m) = fst m.
Proof. destruct m as [rest k]. destruct ev; intros Hne; try done; simpl; [by destruct (k_wait k) | by destruct (k_start k)]. Qed.

(** The handler runs with a result the server logged for its operation. *)
Definition reported (ev : event) (p : program) : Prop :=
  match ev with
  | EMain => False
  | EWait ec => exists op, p_wait p = Some op /\ holds (fst (p_server p)) (FDone op ec)
  | EStart ec => exists op, p_start p = Some op /\ holds (fst (p_server p)) (FDone op ec)
  | _ => True
  end.

Lemma op_facts_done s op done ec :
  Facts s (op_facts (Some op) done) -> holds s (FDone op ec) -> Facts s (op_facts (Some op) (Done ec)).
Proof. intros [H _]%Forall_cons Hd. repeat (apply Forall_cons; split; try done). Qed.

Lemma inv_step ev p :
  reported ev p -> program_inv p ->
  program_inv (mk_program (p_server p) (step message x ev (p_main p)) (p_wait p) (p_start p)).
Proof.
  intros Hr [H1 H2 H3 H4 H5 H6]. assert (Hne : ev <> EMain) by (by intros ->).
  destruct (step_ops ev (p_main p) Hne) as [Hw Hs]. assert (Hf := knows_facts _ _ H3).
  unfold facts in Hf. apply Forall_app in Hf as [Hfw Hfs].
  split; simpl; rewrite ?Hw, ?Hs; try done.
  - by apply callback_step_inv.
  - eapply knows_more; [exact H3|]. unfold facts. simpl. rewrite Hw, Hs.
    destruct ev as [| | |ec|ec]; try done; apply Forall_app; split; try done;
      destruct Hr as (op & Hop & Hd); rewrite Hop in *.
    + destruct (k_wait (snd (p_main p))); [done | by eapply op_facts_done | done].
    + destruct (k_start (snd (p_main p))); [done | by eapply op_facts_done | done].
  - rewrite H4. destruct ev; try done. by destruct (k_wait (snd (p_main p))).
  - rewrite H5. destruct ev; try done. by destruct (k_start (snd (p_main p))).
Qed.

Lemma inv_control ev e p :
  server_ok exact e -> reported ev p -> program_inv p -> program_inv (control_step ev e p).
Proof.
  intros He Hr Hp. unfold control_step. case_bool_decide; [by apply inv_step|].
  by apply (inv_server (mk_program _ _ _ _)), inv_step.
Qed.

Lemma handler_reported n p ev : handler_of n p = Some ev -> reported ev p.
Proof.
  unfold handler_of. destruct (v_completed _ !! n) as [[[on op] ec]|] eqn:Hn; [|done].
  apply list_elem_of_lookup_2 in Hn. repeat case_bool_decide; try done; intros [= <-]; simpl; eauto.
Qed.

(** *** The statements of [main] *)

Lemma main_length n : length (drop n main_body) = 3 - n.
Proof. by rewrite length_drop. Qed.

Lemma inv_main e p : server_ok exact e -> program_inv p -> program_inv (control_step EMain e (main_calls e p)).
Proof.
  intros He Hp. assert (Hc := callback_step_inv message x EMain (p_main p) (pi_main _ Hp)).
  destruct Hp as [H1 H2 H3 H4 H5 H6]. assert (Hf := knows_facts _ _ H3).
  destruct p as [y [rest k] w st]. simpl in *. destruct H2 as (Hk & n & Hn & Hw & Hb & Hs). simpl in *. subst rest.
  unfold main_calls, control_step. simpl. rewrite main_length.
  destruct n as [|[|[|n]]]; simpl in *.
  - rewrite bool_decide_eq_true_2 by done. by split.
  - rewrite bool_decide_eq_true_2 by done. assert (w = None) as -> by (by apply H4). assert (st = None) as -> by (by apply H5).
    split; simpl; try done.
    + by apply sreach_step.
    + eapply knows_more; [by apply knows_exec|]. unfold facts. simpl. apply Forall_singleton. simpl. destruct y. simpl. lia.
  - rewrite bool_decide_eq_true_2 by done. assert (st = None) as -> by (by apply H5).
    assert (Hw' : is_Some w) by (apply not_eq_None_Some; intros Hx; by apply H4 in Hx). destruct Hw' as [op ->].
    unfold facts in Hf. simpl in Hf. assert (Hop := proj1 (proj1 (Forall_cons _ _ _) Hf)). simpl in Hop.
    assert (Hlt : op <> v_next_op (fst y)) by lia.
    split; simpl; try done.
    + by apply sreach_step.
    + eapply knows_more; [by apply knows_exec|]. unfold facts. simpl. rewrite app_nil_r in Hf.
      apply (Forall_app _ (FOp op :: _) [_]). split.
      * eapply (facts_grow (fst y)); [| |exact Hf]; destruct y; simpl; [lia | done].
      * apply Forall_singleton. simpl. destruct y. simpl. lia.
    + intros op' [= <-] [= Hx]. lia.
  - rewrite drop_nil, bool_decide_eq_true_2 by done. rewrite drop_nil in Hc. by split.
Qed.

Lemma inv_exec ev e p : server_ok exact e -> program_inv p -> program_inv (exec_program ev e p).
Proof.
  intros He Hp. destruct ev as [| | |n|a]; simpl.
  - by apply inv_main.
  - by apply inv_control.
  - by apply inv_control.
  - destruct (handler_of n p) as [ev|] eqn:Hn; [|done]. apply inv_control; [done | by eapply handler_reported | done].
  - destruct (internal a) eqn:Ha; [|done]. apply inv_server; [done | by destruct a | done].
Qed.

Lemma inv_run l p : Forall (fun ev => server_ok exact (fst ev)) l -> program_inv p -> program_inv (run_program l p).
Proof. intros Hl. revert p. induction Hl as [|[e ev] l He _ IH]; intros p Hp; simpl; [done|]. by apply IH, inv_exec. Qed.

Lemma inv_new y : server_reach m_executor (server_ok exact) y -> snd y = [] -> program_inv (new_program y).
Proof.
  intros Hy Ht. split; simpl; try done.
  - by split; [|exists 0].
  - intros n. exists []. rewrite Ht. split; constructor.
Qed.
End Program.

(** ** What the program reports *)

Section Theorems.
Context {L E A : Type} `{HL : Listener L E A} `{!ListenerLaws HL} `{!KeepsIdentity HL}.
Context (m_executor control_strand : executor) (message : error_code -> string) (x : texts).

Abbreviation run l p := (run_program m_executor control_strand message x l p).

(** What keeps the threads of the pool busy: the calls that go on, the tasks posted for
    the server, and the work of its listeners (posted tasks, pending waits, I/O, timers
    and sessions). *)
Definition server_work (p : program (L := L) (E := E)) : bool :=
  let '(s, ts) := p_server p in
  negb (bool_decide (length ts = 0)) || negb (bool_decide (length (v_queue s) = 0)) || existsb l_work (v_listeners s).

(** [pool.join(); return result;] in the program. *)
Definition program_returned (p : program (L := L) (E := E)) : option exit_code := returned (server_work p) (p_main p).

(** The handler of the [n]-th completion is posted to the control strand and has not run. *)
Definition handler_waits (p : program (L := L) (E := E)) (n : nat) : bool :=
  match handler_of n p with
  | Some (EWait _) => negb (is_done (k_wait (snd (p_main p))))
  | Some (EStart _) => negb (is_done (k_start (snd (p_main p))))
  | _ => false
  end.

(** What is left for [main] and the control strand to do. *)
Definition control_work (p : program (L := L) (E := E)) : bool :=
  negb (bool_decide (length (fst (p_main p)) = 0)) ||
  existsb (handler_waits p) (seq 0 (length (v_completed (fst (p_server p))))) ||
  match k_signals (snd (p_main p)) with Cancelled => true | _ => false end.

(** Nothing happens any more unless a signal arrives. *)
Definition at_rest (p : program (L := L) (E := E)) : Prop := server_work p = false /\ control_work p = false.

Definition exit_code_of (start wait : error_code) : exit_code :=
  if failed start || failed wait then EXIT_FAILURE else EXIT_SUCCESS.

(** The result is that of the operations completed so far, as the server logged them. *)
Lemma done_logged exact p :
  program_inv m_executor exact p ->
  let k := snd (p_main p) in
  k_result k = exit_code_of (match k_start k with Done ec => ec | _ => success end)
                 (match k_wait k with Done ec => ec | _ => success end) /\
  (forall ec, k_wait k = Done ec -> exists op on, p_wait p = Some op /\ (on, op, ec) ∈ v_completed (fst (p_server p))) /\
  (forall ec, k_start k = Done ec -> exists op on, p_start p = Some op /\ (on, op, ec) ∈ v_completed (fst (p_server p))).
Proof.
  intros Hp k. destruct Hp as [H1 [(Hk & _) _] H3 H4 H5 _]. apply knows_facts in H3. fold k in Hk, H4, H5.
  unfold facts in H3. fold k in H3. apply Forall_app in H3 as [Hw Hs]. split_and!.
  - rewrite Hk. unfold exit_code_of, done_failed. by destruct (k_start k), (k_wait k).
  - intros ec He. rewrite He in *. destruct (p_wait p) as [op|]; [|by destruct H4 as [H4 _]; specialize (H4 eq_refl)].
    apply Forall_cons in Hw as [_ [[on Hin] _]%Forall_cons]. eauto.
  - intros ec He. rewrite He in *. destruct (p_start p) as [op|]; [|by destruct H5 as [H5 _]; specialize (H5 eq_refl)].
    apply Forall_cons in Hs as [_ [[on Hin] _]%Forall_cons]. eauto.
Qed.

(** C26: an example program reports what its server did.  In every execution, the
    result of the program is that of the operations completed so far, each as the
    server logged it: success, unless the start or the wait failed; and what the
    server does is an execution of the server alone, so that what is proved of servers
    holds here. *)
Theorem program_reports y l :
  server_reach m_executor (server_ok false) y -> snd y = [] ->
  Forall (fun ev => server_ok false (fst ev)) l ->
  let p := run l (new_program y) in
  let k := snd (p_main p) in
  server_reach m_executor (server_ok false) (p_server p) /\
  k_result k = exit_code_of (match k_start k with Done ec => ec | _ => success end)
                 (match k_wait k with Done ec => ec | _ => success end) /\
  (forall ec, k_wait k = Done ec -> exists op on, p_wait p = Some op /\ (on, op, ec) ∈ v_completed (fst (p_server p))) /\
  (forall ec, k_start k = Done ec -> exists op on, p_start p = Some op /\ (on, op, ec) ∈ v_completed (fst (p_server p))).
Proof.
  intros Hy Ht Hl p k. assert (Hp : program_inv m_executor false p) by (by apply inv_run, inv_new).
  split; [apply Hp | by apply (done_logged false)].
Qed.

(** *** The end of the program *)

(** The completion of every operation is logged when the server has no work. *)
Lemma idle_completed p op :
  program_inv m_executor true p -> server_work p = false -> op < v_next_op (fst (p_server p)) ->
  exists i on ec, v_completed (fst (p_server p)) !! i = Some (on, op, ec).
Proof.
  intros Hp Hw Hop. assert (Hr := pi_server _ _ _ Hp). assert (Ho := reach_owed m_executor _ Hr).
  unfold server_work in Hw. destruct (p_server p) as [s ts]. simpl in *.
  apply orb_false_iff in Hw as [[Ht Hq]%orb_false_iff Hl].
  apply negb_false_iff, bool_decide_eq_true, nil_length_inv in Ht, Hq. subst ts.
  assert (Hc : Forall (fun l => l_work l = false) (v_listeners s)).
  { apply Forall_forall. intros l Hin. apply not_true_iff_false. intros Hx. apply not_true_iff_false in Hl. apply Hl.
    apply existsb_exists. exists l. by rewrite <- list_elem_of_In. }
  assert (Hin : op ∈ completed_ops s).
  { rewrite (all_completed m_executor s); [apply elem_of_seq; lia | done | done | by apply idle_dispatched]. }
  apply list_elem_of_fmap in Hin as ([[on op'] ec] & -> & [i Hi]%list_elem_of_lookup). eauto.
Qed.

(** A completion that is logged, with no handler left to run, was reported to the control. *)
Lemma handler_ran p i on op ec :
  v_completed (fst (p_server p)) !! i = Some (on, op, ec) -> control_work p = false ->
  (p_wait p = Some op -> is_done (k_wait (snd (p_main p))) = true) /\
  (p_start p = Some op -> p_wait p <> Some op -> is_done (k_start (snd (p_main p))) = true).
Proof.
  intros Hi Hw. unfold control_work in Hw. apply orb_false_iff in Hw as [[_ Hw]%orb_false_iff _].
  assert (Hh : handler_waits p i = false).
  { apply not_true_iff_false. intros Hx. apply not_true_iff_false in Hw. apply Hw. apply existsb_exists. exists i.
    split; [|done]. apply in_seq. apply lookup_lt_Some in Hi. lia. }
  unfold handler_waits, handler_of in Hh. rewrite Hi in Hh. split.
  - intros Hp. rewrite bool_decide_eq_true_2 in Hh by done. by apply negb_false_iff in Hh.
  - intros Hp Hn. rewrite bool_decide_eq_false_2, bool_decide_eq_true_2 in Hh by done. by apply negb_false_iff in Hh.
Qed.

Lemma main_done (p : program (L := L) (E := E)) :
  callback_inv (p_main p) -> fst (p_main p) = [] ->
  k_signals (snd (p_main p)) <> NoWait /\ k_wait (snd (p_main p)) <> NotBegun /\ k_start (snd (p_main p)) <> NotBegun.
Proof.
  intros (_ & n & Hn & Hb) Hm. rewrite Hm in Hn. assert (n >= 3) by (destruct n as [|[|[|]]]; [done.. | lia]).
  destruct Hb as (H1 & H2 & H3). destruct (decide (n < 1)); [lia|]. destruct (decide (n < 2)); [lia|].
  by destruct (decide (n < 3)); [lia|].
Qed.

(** At rest, both operations are done. *)
Lemma rest_done p :
  program_inv m_executor true p -> at_rest p ->
  fst (p_main p) = [] /\ is_done (k_wait (snd (p_main p))) = true /\ is_done (k_start (snd (p_main p))) = true.
Proof.
  intros Hp [Hs Hc]. assert (Hm : fst (p_main p) = []).
  { unfold control_work in Hc. apply orb_false_iff in Hc as [[Hc _]%orb_false_iff _].
    by apply negb_false_iff, bool_decide_eq_true, nil_length_inv in Hc. }
  destruct (main_done p (pi_main _ _ _ Hp) Hm) as (_ & Hnw & Hns).
  assert (Hf := knows_facts _ _ (pi_facts _ _ _ Hp)). unfold facts in Hf. apply Forall_app in Hf as [Hfw Hfs].
  destruct (p_wait p) as [opw|] eqn:Hpw; [|by destruct Hnw; apply Hp].
  destruct (p_start p) as [ops|] eqn:Hps; [|by destruct Hns; apply Hp].
  apply Forall_cons in Hfw as [(i & onw & ecw & Hi)%(idle_completed p _ Hp Hs) _].
  apply Forall_cons in Hfs as [(j & ons & ecs & Hj)%(idle_completed p _ Hp Hs) _].
  split; [done|]. split; [by apply (handler_ran p i onw opw ecw Hi Hc)|].
  apply (handler_ran p j ons ops ecs Hj Hc); [done|]. intros Hx. by destruct (pi_distinct _ _ _ Hp ops).
Qed.

(** The result of the program, when it has returned. *)
Lemma rest_returns p :
  program_inv m_executor true p -> at_rest p -> program_returned p = Some (k_result (snd (p_main p))).
Proof.
  intros Hp Hr. destruct (rest_done p Hp Hr) as (Hm & Hw & Hs). destruct Hr as [Hsw Hcw].
  destruct (main_done p (pi_main _ _ _ Hp) Hm) as (Hn & _). destruct (pi_main _ _ _ Hp) as [(_ & _ & Hsig) _].
  specialize (Hsig Hw). unfold control_work in Hcw. apply orb_false_iff in Hcw as [_ Hcw].
  unfold program_returned. rewrite Hsw. destruct (p_main p) as [rest k]. simpl in *. rewrite Hm, Hw, Hs.
  by destruct (k_signals k).
Qed.

(** [main] returns only at rest. *)
Lemma returned_rest (p : program (L := L) (E := E)) : is_Some (program_returned p) -> at_rest p.
Proof.
  unfold program_returned, at_rest, control_work, handler_waits. destruct (p_main p) as [rest k]. simpl. intros [r Hr].
  destruct (server_work p); [done|]. split; [done|]. simpl in Hr. case_bool_decide as Hm; [|done].
  destruct (k_signals k), (is_done (k_wait k)) eqn:Hw, (is_done (k_start k)) eqn:Hs; try done; simpl;
    rewrite orb_false_r; apply not_true_iff_false; intros (n & _ & Hx)%existsb_exists;
    destruct (handler_of n p) as [[| | |?|?]|]; rewrite ?Hw, ?Hs in Hx; done.
Qed.

(** C25: an example program does not hang.  While the executors accept work: when nothing
    happens any more unless a signal arrives (the calls have returned, no task is posted,
    the listeners have no wait, I/O, timer or session left, [main] is in [pool.join()],
    the handlers of the logged completions have run and no cancelled wait for signals is
    to be reported), both operations have completed in the server and [main] has
    returned: it does not wait for a signal, nor for a completion that never comes.  The
    exit code is a failure exactly when the start or the wait failed.  Conversely [main]
    returns only then.  That a program comes to rest is not claimed: a running server
    does not. *)
Theorem program_does_not_hang y l :
  server_reach m_executor (server_ok true) y -> snd y = [] ->
  Forall (fun ev => server_ok true (fst ev)) l ->
  let p := run l (new_program y) in
  (at_rest p ->
     exists ecs ecw, program_returned p = Some (exit_code_of ecs ecw) /\
       (exists op on, p_start p = Some op /\ (on, op, ecs) ∈ v_completed (fst (p_server p))) /\
       (exists op on, p_wait p = Some op /\ (on, op, ecw) ∈ v_completed (fst (p_server p)))) /\
  (is_Some (program_returned p) -> at_rest p).
Proof.
  intros Hy Ht Hl p. assert (Hp : program_inv m_executor true p) by (by apply inv_run, inv_new). split.
  - intros Hr. rewrite (rest_returns p Hp Hr). destruct (rest_done p Hp Hr) as (_ & Hw & Hs).
    destruct (done_logged true p Hp) as (Hk & Hlw & Hls).
    destruct (k_wait (snd (p_main p))) as [| |ecw]; [done..|]. destruct (k_start (snd (p_main p))) as [| |ecs]; [done..|].
    exists ecs, ecw. split; [by rewrite Hk|]. split; [by apply Hls | by apply Hlw].
  - by apply returned_rest.
Qed.
End Theorems.
