(* ===== verification/ProgramScenarios.v ===== *)
(** * Executions of an example program

    CallbackEcho with one listener: a run that a signal ends, and one in which the
    signal comes too early and the program goes on for ever. *)

From S2P Require Import Prelude Errors Effect Options Endpoint Status Observers ListenerBase.
From S2P Require Import ListenerInterface Threads ServerState ServerControl OperationGroup Server.
From S2P Require Import ListenerAccount ServerCompletions ServerTheorems ServerFrame ServerListeners.
From S2P Require Import Connection Acceptor Scenarios AcceptorBehaviour AcceptorObject ServerScenarios.
From S2P Require Import Coroutine ExampleControl ExampleMains ServerProgram.

Abbreviation program_step := (program_event (L := acceptor_object) (A := action)).

(** The server with its listener, before [main] goes on. *)
Definition registered_script : list (aenv * server_step) := [(calm, YListen idle_acceptor)] ++ ServerScenarios.thread 0 40.

Definition registered : system (L := acceptor_object) (E := aenv) := play registered_script.

Definition CallbackEcho_run (l : list program_step) : program (L := acceptor_object) (E := aenv) :=
  run_program system_executor (user_executor 9) (fun _ => "error") (CallbackEcho_texts "127.0.0.1:54321")
    (map (pair (answers calm)) l) (new_program registered).

Definition run_threads (n : nat) : list program_step := replicate n (GServer (YThread 0)).
Definition run_listener (n : nat) : list program_step := replicate n (GServer (YListener 0 (ARun 0))).
Definition run_tasks (n : nat) : list program_step := replicate n (GServer (YTask 0)).

(** The server drains: its calls, what the listener posted, and what follows. *)
Definition drain : list program_step :=
  run_threads 100 ++ run_listener 6 ++ run_threads 60 ++ run_threads 60 ++ run_tasks 6.

(** The server runs, a signal stops it; nothing is left but the two handlers. *)
Definition stopped_by_signal : list program_step :=
  [GMain; GMain] ++ run_threads 100 ++ [GMain] ++ drain ++ [GSignal] ++ drain ++
  [GServer (YListener 0 (AIo 0 operation_aborted))] ++ drain.

(** The signal arrives after [server.async_wait] was called and before
    [server.async_start] is. *)
Definition signalled_early : list program_step :=
  [GMain; GMain] ++ drain ++ [GSignal] ++ drain ++ [GHandler 0; GMain] ++ drain ++ [GHandler 1].

Lemma registered_reach exact : server_reach system_executor (server_ok exact) registered /\ snd registered = [].
Proof.
  split; [|vm_compute; reflexivity]. apply play_reach. unfold registered_script. script.
Qed.

Lemma calm_answers_ok exact : server_ok exact (answers calm).
Proof. by apply answers_ok. Qed.

Lemma answers_all exact (l : list program_step) :
  Forall (fun ev => server_ok exact (fst ev)) (map (pair (answers calm)) l).
Proof. apply Forall_map, Forall_true. intros ev. apply calm_answers_ok. Qed.

(** A signal that stops the server before [server.async_start] is called is lost.  The
    stop completes the wait, and the call then starts the server again: it runs, the
    control has no operation pending, and another signal changes nothing, so that nothing
    is left that could stop the program, and [main] waits for ever.  (A start that is
    called while the server is still stopping is rejected instead.) *)
Theorem early_signal_is_lost :
  let p := CallbackEcho_run signalled_early in
  server_reach system_executor (server_ok true) (p_server p) /\
  k_signals (snd (p_main p)) = Signalled /\ k_wait (snd (p_main p)) = Done success /\
  k_start (snd (p_main p)) = Done success /\ program_returned p = None /\ ~ at_rest p /\
  v_state (fst (p_server p)) = server_state.running /\
  map (fun l => ls_state (l_status l)) (v_listeners (fst (p_server p))) = [listener_state.running] /\
  (forall ev e, (forall a, ev <> GServer a) ->
     exec_program system_executor (user_executor 9) (fun _ => "error") (CallbackEcho_texts "127.0.0.1:54321") ev e p = p).
Proof.
  intros p. split.
  { destruct (registered_reach true) as [Hr Ht]. eapply (pi_server _ true).
    apply inv_run; [apply _ | apply answers_all | by apply inv_new]. }
  assert (Hd : server_work p = true) by (vm_compute; reflexivity).
  assert (Hn : program_returned p = None) by (vm_compute; reflexivity).
  assert (Hm : p_main p = ([], snd (p_main p))) by (vm_compute; reflexivity).
  assert (Hk : k_signals (snd (p_main p)) = Signalled /\ k_wait (snd (p_main p)) = Done success /\
    k_start (snd (p_main p)) = Done success) by (vm_compute; repeat split; reflexivity).
  destruct Hk as (Hk1 & Hk2 & Hk3).
  split_and!; [exact Hk1 | exact Hk2 | exact Hk3 | exact Hn | intros [Hx _]; congruence | vm_compute; reflexivity | vm_compute; reflexivity |].
  clear Hd Hn. generalize dependent p. intros p Hm H1 H2 H3.
  destruct p as [y [rest k] w st]. simpl in *. injection Hm as ->.
  intros ev e Hev. assert (Hstep : forall ev, step (fun _ => "error") (CallbackEcho_texts "127.0.0.1:54321") ev ([], k) = ([], k)).
  { intros c. destruct c as [| | |ec|ec]; simpl; unfold signalled; rewrite ?H1, ?H2, ?H3; done. }
  assert (Hc : forall c, control_step system_executor (fun _ => "error") (CallbackEcho_texts "127.0.0.1:54321") c e (mk_program y ([], k) w st) = mk_program y ([], k) w st).
  { intros c. unfold control_step. simpl p_main. rewrite Hstep, bool_decide_eq_true_2 by done. done. }
  destruct ev as [| | |n|a]; [apply Hc | apply Hc | apply Hc | | by destruct (Hev a)].
  simpl. destruct (handler_of n _); [apply Hc | done].
Qed.

(** ** Witnesses *)

(** The handlers run, and the cancelled wait for signals is over already. *)
Definition ended_by_signal : list program_step := stopped_by_signal ++ [GHandler 0; GHandler 1] ++ drain.

Lemma program_does_not_hang_witness :
  let p := CallbackEcho_run ended_by_signal in
  at_rest p /\
  exists ecs ecw, program_returned p = Some (exit_code_of ecs ecw) /\
    (exists op on, p_start p = Some op /\ (on, op, ecs) ∈ v_completed (fst (p_server p))) /\
    (exists op on, p_wait p = Some op /\ (on, op, ecw) ∈ v_completed (fst (p_server p))).
Proof.
  intros p. destruct (registered_reach true) as [Hr Ht].
  assert (Hd : at_rest p) by (split; vm_compute; reflexivity). split; [exact Hd|].
  exact (proj1 (program_does_not_hang system_executor (user_executor 9) (fun _ => "error")
    (CallbackEcho_texts "127.0.0.1:54321") registered (map (pair (answers calm)) ended_by_signal) Hr Ht (answers_all true _)) Hd).
Defined.

Example ended_by_signal_succeeds : program_returned (CallbackEcho_run ended_by_signal) = Some EXIT_SUCCESS.
Proof. vm_compute. reflexivity. Qed.

Lemma program_reports_witness :
  let p := run_program system_executor (user_executor 9) (fun _ => "error") (CallbackEcho_texts "127.0.0.1:54321")
    (map (pair (answers calm)) (stopped_by_signal ++ [GHandler 1])) (new_program registered) in
  k_wait (snd (p_main p)) = Done success /\ k_result (snd (p_main p)) = EXIT_SUCCESS /\
  exists op on, p_wait p = Some op /\ (on, op, success) ∈ v_completed (fst (p_server p)).
Proof.
  intros p. destruct (registered_reach false) as [Hr Ht].
  assert (H := program_reports system_executor (user_executor 9) (fun _ => "error") (CallbackEcho_texts "127.0.0.1:54321")
    registered (map (pair (answers calm)) (stopped_by_signal ++ [GHandler 1])) Hr Ht (answers_all false _)).
  cbv zeta in H. fold p in H. destruct H as (_ & _ & H & _).
  assert (Hw : k_wait (snd (p_main p)) = Done success) by (vm_compute; reflexivity).
  assert (Hk : k_result (snd (p_main p)) = EXIT_SUCCESS) by (vm_compute; reflexivity).
  clearbody p. split; [exact Hw|]. split; [exact Hk | exact (H success Hw)].
Defined.
